(* ===== verification/_CoqProject ===== *)
-Q . S2P
Prelude.v
GoStd.v
Metrics.v
AlertModel.v
SilenceStore.v
AlertStore.v
Filter.v
Shard.v
Leader.v
Config.v
ConfigTheory.v
ConfigFile.v
Router.v
Sources.v
AwsEval.v
AwsPoll.v
CloudTrail.v
CloudSources.v
SourceRunner.v
Crd.v
Group.v
RulesEngine.v
Sinks.v
Fanout.v
Dispatcher.v
DispatchProgress.v
Tracing.v
DispatchMetrics.v
Persist.v
Pipeline.v
EmitMetrics.v
Text.v
Redact.v
Collectors.v
Watchers.v
Escape.v
Slack.v
Httpx.v
Payloads.v
Receiver.v
Console.v
Startup.v
