(* ===== verification/Prelude.v ===== *)
(** * alertkube: a model of the alert controller and its correctness theorems

    alertkube is a Kubernetes controller in Go. Watchers turn Kubernetes objects into alerts; an
    emitter dedupes, routes and groups them; a worker pool with a durable outbox delivers them to
    chat and incident sinks; a sweeper resolves, escalates and persists. This library models
    that core and proves what makes it correct.

    ** Program parts and files

    Shared: [Prelude] (this file) has 64-bit wrap-around, time in nanoseconds since year 1,
    slices, map iteration in an arbitrary order ([MapRange]), error sequencing, tactics and
    hints; [GoStd] has the standard library the code uses as functions, with the regexp engine,
    time parsing and zone data as classes [RegexpLib], [TimeLib], [ZoneLib] and small concrete
    instances for witnesses.

    The alert and what is kept about it:
    - [AlertModel]: internal/alert/{alert,correlation}.go. The record, fingerprints, field
      access, the memoized label matcher, group keys.
    - [AlertStore]: internal/alert/{store,snapshot}.go. Each method is one critical section of
      the store's mutex; [op]/[apply_op] are its operations, [reachable] its executions.
    - [SilenceStore], [Crd]: internal/silence and internal/crd. Silences made at run time, and
      silences from custom resources.
    - [Persist]: internal/persist. Load and Save as a machine over API calls, with concurrent
      savers; [Module AtomicStore] is the contract of store.go.

    Configuration and start:
    - [Filter], [Shard]: internal/filter; internal/shard, internal/env, the ownership gate and
      the lease name.
    - [Config], [ConfigTheory], [ConfigFile]: internal/config. The document as records,
      validation, defaults, maintenance windows, shard scoping; the declarative reading
      [config_ok] of validation; the file, the keys present in it and their precedence.
    - [Startup]: internal/app/{app,cli,builders}.go. Flags, subcommands, the decisions of [Run],
      the client's retry loop, the sinks and cloud sources that are built.
    - [Leader]: internal/app/leaderelection.go and the shutdown budget. A process as a timed
      machine, and several of them contending for one lease.

    Producers of alerts:
    - [Watchers], [Collectors], [Redact]: internal/watchers and internal/collectors. Every
      evaluate function and the event handlers; the tables, event texts and logs of an alert's
      details; the secret redactor with its regular expressions.
    - [Sources], [AwsEval], [AwsPoll], [CloudTrail], [CloudSources], [SourceRunner]:
      internal/sources and its aws, azure and gcp packages. Polls as programs over a [Runtime]
      that leave a trace of effects; every evaluate function; the poll loop against the clock.
    - [Receiver]: internal/receiver. Alerts from an upstream Alertmanager.
    - [RulesEngine]: internal/rules. Count, All and Absent rules.

    From an alert to a delivery:
    - [Router], [Group]: internal/router and internal/group. Silences, maintenance, inhibitions,
      routes; folding storms into summaries.
    - [Pipeline]: internal/app/{event_emitter,pipeline,sweeper,controller}.go. The composition,
      in a state monad over [controller], calling the components as the code does.
    - [Dispatcher], [DispatchProgress]: internal/app/{dispatcher,dispatcher_outbox,deadletter}.go.
      The worker pool as a step relation [dstep] whose steps are the code's critical sections,
      and its progress.
    - [Tracing]: internal/trace and internal/app/dispatch_trace.go. The same pool with the calls
      it makes to an abstract tracer ([tstep]).
    - [Metrics], [EmitMetrics], [DispatchMetrics]: internal/metrics/metrics.go and the places
      of internal/app that count. The collectors with their labels; the emitter of [Pipeline]
      once more in a monad that also writes the samples it reports; the dispatcher's step
      relation with the samples of each step ([mstep]).
    - [Sinks], [Fanout]: internal/sinks/{breaker,sink}.go. The circuit breaker, and a fan-out as
      a function; then any number of fan-outs at once as an executable machine ([exec]) whose
      commands are the steps of the goroutines, with the samples they report. The function is
      one run of the machine ([Fanout.Dispatch_is_a_run]).
    - [Text], [Escape], [Slack], [Payloads]: internal/textutil, internal/authz/bearer.go and the
      sinks. Truncation; when a text is inert for a chat client; the Slack message; credentials
      and the request every sink makes.
    - [Httpx]: internal/httpx. Retries with backoff, and the guard on destinations.
    - [Console]: internal/metrics/{server,handlers}.go, internal/authz/rbac.go and the console of
      internal/app. The route table, the authorization modes and every handler.

    Watchers, cloud sources and the receiver produce alerts for [Pipeline.emit]; it reads and
    writes the store, the router, the grouper and the rule engine, and enqueues deliveries in
    the dispatcher, whose workers call [Sinks.Dispatch], which calls a sink's [Send]
    ([Payloads]), which posts through [Httpx]. The store's resolve callbacks come back through
    [Pipeline.makeResolver]. Snapshots combine [AlertStore.Export], [SilenceStore.SilList] and
    [Dispatcher.PendingSnapshot], and go through [Persist.Save]; [Startup.Run] and [Leader]
    decide when a controller exists at all.

    ** What the theorems show

    - Nothing is lost: the outbox holds every delivery without a terminal outcome in every
      interleaving ([Dispatcher.outbox_complete]), the pool never deadlocks and its backlog drains
      ([DispatchProgress.backlog_drains]), a restart restores what a save reported as written
      ([Persist.restart_preserves], [DispatchProgress.crash_replay_delivers]) even with several
      savers, whose API calls are a history of an atomic store ([Persist.Save_refines]); grouping
      conserves alerts ([Group.group_conserves]); a poll accounts for everything it was told to look
      at ([Sources.poll_accounts], [Sources.list_poll_accounts]) and CloudTrail's windows leave no
      gap ([CloudTrail.windows_cover]).
    - Incidents are closed: [Pipeline.no_dangling_incident], the order facts
      [Dispatcher.deliveries_in_order] and [Dispatcher.drop_is_final], the resolve that addresses
      the incident its fire opened ([Payloads.incident_addressed]).
    - No storms: [AlertStore.one_page_per_mute_window], [Group.one_pass_per_window],
      [Dispatcher.attempts_bounded], [Router.inhibition_holds].
    - What can be seen of a delivery: [Tracing.deliveries_traced], [Tracing.tracing_neutral].
    - What the counters say: an alert handed to the emitter is queued or counted under the label of
      what held it back ([EmitMetrics.emitted_accounted]; one without a sink, such as
      [EmitMetrics.event_vanishes], is neither); the dispatcher's counters and gauges are the pool's
      own numbers ([DispatchMetrics.dispatch_metrics_exact]); a fan-out reports the fate of each of
      its sinks and what each breaker answered after it ([Fanout.fanout_accounts]), while the
      breaker's gauge can go stale ([Fanout.gauge_goes_stale]); every sample names a registered
      collector with its labels ([Metrics.collectors_register]), and counting changes nothing
      ([EmitMetrics.meters], [DispatchMetrics.metering_neutral]).
    - No silence by accident: [Fanout.fanouts_share_breakers], [Watchers.pod_reports_worst],
      [Watchers.resync_reasserts], [SourceRunner.polls_recur], [Shard.exactly_one_owner],
      [ConfigTheory.selective_escapes], [Crd.crd_silence_contained],
      [Startup.routes_are_deliverable].
    - One controller, started and stopped in time: [Leader.one_controller],
      [Leader.shutdown_in_grace], [Leader.final_save_fits], [Startup.buildClient_ends].
    - What leaves the process: secrets in logs are redacted ([Watchers.pod_logs_redacted]),
      details are faithful and cannot break out of their frame
      ([Collectors.tables_safe_and_faithful], [Slack.detail_body_accounts]), alert text is not
      markup ([Payloads.alert_text_inert], which leaves bare URLs and @-mentions aside:
      [Text.at_sign_passes]), destinations are guarded ([Httpx.egress_guard]) and
      attempts bounded ([Httpx.Retry_spec]).
    - What comes in: [Receiver.toAlert_contained], [Console.api_authorized],
      [Console.secret_not_echoed].
    - Meaning of the configuration: [ConfigTheory.Validate_correct], [ConfigTheory.Active_recurs],
      [ConfigFile.Load_precedence], [Startup.validate_predicts_start], the rule engine's
      [RulesEngine.rules_fire_exactly], the overflow bounds [Pipeline.mute_seconds_bounds].
    - The store's invariant: [AlertStore.reachable_inv].

    ** Conventions, bounds and fuel

    [time.Now()] is an argument or, in [Pipeline], a reading of [c_clock]. Go maps are [gmap]s
    and every loop over one uses an arbitrary [range]. Counters that wrap ([uint64]
    generations, ids) wrap; theorems that need it bound the number of steps by 2^64. Durations
    are 64-bit and [time.Duration(n)*time.Second] wraps ([Seconds]). Fuel is used for scans of a
    string, and is its length (plus one where the empty rest is visited), which each iteration
    shortens; for a page walk, and is the code's own page limit; for the table writer, the cells
    of the table; for [Startup.buildClient], eight attempts, which [Startup.buildClient_ends]
    shows are enough. The emitter's recursion through the rule engine is unrolled twice, which
    [Pipeline.emit_stable] shows is all of it. Concurrency is modelled where the code's
    correctness depends on it: the store as sequences of critical sections, the dispatcher, the
    poll loop, the savers and the replicas as step relations, the fan-outs as command lists, the
    router's table as sequences of calls, concurrent CloudTrail regions as interleavings of traces.
    [Pipeline] runs each emitter call alone. In the timed machines ([SourceRunner], [Leader]) a goroutine that can run does
    so before time passes.

    ** Not modelled

    Third-party code is an argument or a class: YAML, JSON (of the encoder, what it does to bytes
    that are not UTF-8 is modelled where a sink's payload is posted, [Payloads.json_Marshal]) and
    gzip, the Kubernetes, cloud and chat clients, informers and their caches, client-go's election
    (its documented timing is [Leader.ElectionLaws]). Every collector of internal/metrics/metrics.go
    is declared in [Metrics], but only the emitter's, the dispatcher's and the fan-outs' samples are
    followed: the samples of the receiver, the sources and the console are left out, and so are the
    queue depth gauge (it reads a channel's length at an arbitrary moment), the histograms' buckets,
    [SinkNoop] and logs: nothing in the program reads any of them back. The tracer and its exporter
    are OpenTelemetry's. The generated code of api/v1alpha1 and the test helpers are left out. *)
From Stdlib Require Export Ascii.
From stdpp Require Export base gmap strings list fin_maps sets pretty.
From Stdlib Require Export ZArith Lia.

#[export] Set Default Proof Using "Type".

Declare Scope go_scope.
Delimit Scope go_scope with go.
Open Scope Z_scope.

(** ** Machine integers *)

(** Two's complement wrap-around of a 64-bit signed integer (Go [int], [int64],
    [time.Duration]). *)
Definition wrap64 (z : Z) : Z := (z + 2 ^ 63) mod 2 ^ 64 - 2 ^ 63.

(** Saturation used by [time.Time.Sub]. *)
Definition sat64 (z : Z) : Z := Z.max (- 2 ^ 63) (Z.min (2 ^ 63 - 1) z).

(** Increment of a [uint64] counter. *)
Definition incr64 (n : Z) : Z := (n + 1) mod 2 ^ 64.

(** Truncation to [uint32]. *)
Definition wrap32u (z : Z) : Z := z mod 2 ^ 32.

Definition in64 (z : Z) : Prop := - 2 ^ 63 <= z < 2 ^ 63.

Lemma wrap64_small z : in64 z → wrap64 z = z.
Proof. unfold in64, wrap64. intros H. rewrite Z.mod_small; lia. Qed.

Lemma wrap64_in64 z : in64 (wrap64 z).
Proof. unfold in64, wrap64. pose proof (Z.mod_pos_bound (z + 2 ^ 63) (2 ^ 64)). lia. Qed.

Lemma sat64_in64 z : in64 (sat64 z).
Proof. unfold in64, sat64. lia. Qed.

Lemma incr64_ne n : 0 <= n < 2 ^ 64 → incr64 n ≠ n.
Proof.
  unfold incr64. intros H E.
  destruct (decide (n = 2 ^ 64 - 1)) as [->|]; [vm_compute in E; lia|].
  rewrite Z.mod_small in E; lia.
Qed.

Lemma incr64_range n : 0 <= incr64 n < 2 ^ 64.
Proof. unfold incr64. apply Z.mod_pos_bound. lia. Qed.

(** ** Time

    [time.Time] is the number of nanoseconds since Go's zero time (1 January of
    year 1, UTC), so [IsZero] is the test against [0]; [time.Duration] is a 64-bit
    nanosecond count. *)
Abbreviation time := Z (only parsing).
Abbreviation duration := Z (only parsing).

Definition Nanosecond : duration := 1.
Definition Millisecond : duration := 1000000.
Definition Second : duration := 1000000000.
Definition Minute : duration := 60 * Second.
Definition Hour : duration := 60 * Minute.

Definition IsZero (t : time) : bool := t =? 0.
Definition After (t u : time) : bool := u <? t.
Definition Before (t u : time) : bool := t <? u.
Definition Add (t : time) (d : duration) : time := t + d.
Definition Sub (t u : time) : duration := sat64 (t - u).

(** [time.Duration(n) * time.Second] and friends: the product wraps. *)
Definition Seconds (n : Z) : duration := wrap64 (n * Second).
Definition Minutes (n : Z) : duration := wrap64 (n * Minute).

Lemma Before_spec t u : Before t u = true ↔ t < u.
Proof. apply Z.ltb_lt. Qed.
Lemma Before_false t u : Before t u = false ↔ u <= t.
Proof. apply Z.ltb_ge. Qed.
Lemma After_spec t u : After t u = true ↔ u < t.
Proof. apply Z.ltb_lt. Qed.
Lemma After_false t u : After t u = false ↔ t <= u.
Proof. apply Z.ltb_ge. Qed.

(** Saturation never changes a comparison with a value that fits 64 bits from
    above: [now.Sub(u) < d] reads as the plain difference. *)
Lemma Sub_ltb t u d : in64 d → (Sub t u <? d) = (t - u <? d) ∨ t - u < - 2 ^ 63.
Proof.
  unfold in64, Sub, sat64. intros H.
  destruct (decide (t - u < - 2 ^ 63)); [by right|left].
  destruct (Z.ltb_spec (t - u) d); [apply Z.ltb_lt|apply Z.ltb_ge]; lia.
Qed.

Lemma Sub_ltb_nonneg t u d : in64 d → u <= t → (Sub t u <? d) = (t - u <? d).
Proof. intros Hd Hle. destruct (Sub_ltb t u d Hd) as [E|E]; [exact E|lia]. Qed.

(** ** Slices

    A Go slice whose nil-ness the code tests is an [option (list A)]: [None] is
    the nil slice. *)
Abbreviation slice A := (option (list A)) (only parsing).
Definition elems {A} (s : option (list A)) : list A := default [] s.

(** [s[len(s)-n:]] when [len(s) > n], else [s]: the bounded rings. *)
Definition keep_last {A} (n : nat) (l : list A) : list A :=
  if (n <? length l)%nat then drop (length l - n) l else l.

Lemma keep_last_length {A} n (l : list A) : (length (keep_last n l) <= n)%nat.
Proof.
  unfold keep_last. destruct (Nat.ltb_spec n (length l)); [|lia].
  rewrite length_drop. lia.
Qed.

Lemma keep_last_suffix {A} n (l : list A) : keep_last n l `suffix_of` l.
Proof.
  unfold keep_last. destruct (Nat.ltb_spec n (length l)); [|reflexivity].
  exists (take (length l - n) l). by rewrite take_drop.
Qed.

Lemma keep_last_snoc_In {A} n (l : list A) x :
  (0 < n)%nat → last (keep_last n (l ++ [x])) = Some x.
Proof.
  unfold keep_last. intros Hn. rewrite length_app. simpl.
  destruct (Nat.ltb_spec n (length l + 1)); [|apply last_snoc].
  rewrite drop_app_le by lia. apply last_snoc.
Qed.

(** ** Map iteration

    Go iterates a map in an unspecified order. [range m] is the order one
    execution picks; every theorem is proved for all instances. *)
Class MapRange := {
  range : ∀ {K V} `{Countable K}, gmap K V → list (K * V);
  range_perm : ∀ {K V} `{Countable K} (m : gmap K V), range m ≡ₚ map_to_list m;
}.

(** The instance the witnesses evaluate with. *)
#[global] Program Instance canonical_range : MapRange | 100 :=
  {| range K V _ _ m := map_to_list m |}.
Next Obligation. done. Qed.

Section range.
Context `{MapRange} {K V : Type} `{Countable K}.
Implicit Types (m : gmap K V).

Lemma range_In m k v : (k, v) ∈ range m ↔ m !! k = Some v.
Proof. rewrite range_perm. apply elem_of_map_to_list. Qed.

Lemma range_NoDup_fst m : NoDup (range m).*1.
Proof. rewrite range_perm. apply NoDup_fst_map_to_list. Qed.

Lemma range_NoDup m : NoDup (range m).
Proof. rewrite range_perm. apply NoDup_map_to_list. Qed.

Lemma range_length m : length (range m) = size m.
Proof. by rewrite range_perm, length_map_to_list. Qed.

Lemma range_to_map m : list_to_map (range m) = m.
Proof.
  rewrite (list_to_map_proper (range m) (map_to_list m)); [apply list_to_map_to_list| |apply range_perm].
  apply range_NoDup_fst.
Qed.

Lemma range_empty : range (∅ : gmap K V) = [].
Proof.
  apply Permutation_nil. by rewrite range_perm, map_to_list_empty.
Qed.

Lemma range_nil_inv m : range m = [] → m = ∅.
Proof. intros E. apply map_to_list_empty_iff, Permutation_nil. by rewrite <- E, range_perm. Qed.

Lemma range_Forall m (P : K * V → Prop) :
  Forall P (range m) ↔ ∀ k v, m !! k = Some v → P (k, v).
Proof.
  rewrite Forall_forall. split.
  - intros HP k v Hk. by apply HP, range_In.
  - intros HP [k v] Hk. by apply HP, range_In.
Qed.
End range.

(** [delete]ing during iteration: the keys for which [f] holds go. *)
Definition delete_where {K V} `{Countable K} (f : K → V → bool) (m : gmap K V) : gmap K V :=
  filter (λ kv, f kv.1 kv.2 = false) m.

Lemma lookup_delete_where {K V} `{Countable K} (f : K → V → bool) (m : gmap K V) k :
  delete_where f m !! k = match m !! k with
                          | Some v => if f k v then None else Some v
                          | None => None
                          end.
Proof.
  unfold delete_where. destruct (m !! k) as [v|] eqn:E.
  - destruct (f k v) eqn:F.
    + apply map_lookup_filter_None. right. intros x Hx. simplify_eq. simpl. congruence.
    + apply map_lookup_filter_Some. split; [done|done].
  - apply map_lookup_filter_None. by left.
Qed.

(** ** Lists *)

Lemma forallb_Permutation {A} (f : A → bool) l l' : l ≡ₚ l' → forallb f l = forallb f l'.
Proof.
  induction 1 as [|x l1 l2 _ IH|x y l1|l1 l2 l3 _ IH1 _ IH2]; simpl.
  - done.
  - by rewrite IH.
  - by destruct (f x), (f y).
  - congruence.
Qed.

Lemma forallb_false_exists {A} (f : A → bool) l :
  forallb f l = false → ∃ x, x ∈ l ∧ f x = false.
Proof.
  induction l as [|x l IH]; simpl; [done|].
  destruct (f x) eqn:E; simpl.
  - intros Hl. destruct (IH Hl) as (y & Hy & Fy). exists y. set_solver.
  - intros _. exists x. set_solver.
Qed.

Lemma forallb_True {A} (f : A → bool) l : forallb f l = true ↔ ∀ x, x ∈ l → f x = true.
Proof. rewrite forallb_forall. by setoid_rewrite list_elem_of_In. Qed.

Lemma existsb_True {A} (f : A → bool) l : existsb f l = true ↔ ∃ x, x ∈ l ∧ f x = true.
Proof. rewrite existsb_exists. by setoid_rewrite list_elem_of_In. Qed.

Lemma filter_ext_in {A} (P Q : A → Prop) `{∀ x, Decision (P x)} `{∀ x, Decision (Q x)} (l : list A) :
  (∀ x, x ∈ l → P x ↔ Q x) → filter P l = filter Q l.
Proof.
  induction l as [|x l IH]; intros HPQ; [done|].
  assert (Hl : filter P l = filter Q l) by (apply IH; intros y Hy; apply HPQ; by right).
  destruct (decide (P x)) as [HP|HP].
  - rewrite !filter_cons_True by (try apply HPQ; [by left|done] || done). by rewrite Hl.
  - rewrite !filter_cons_False; [done| |done]. rewrite <- HPQ; [done|left].
Qed.

Lemma omap_ext_eq {A B} (f g : A → option B) (l : list A) :
  (∀ x, f x = g x) → omap f l = omap g l.
Proof.
  intros E. induction l as [|x l IH]; [done|].
  change (match f x with Some y => y :: omap f l | None => omap f l end
          = match g x with Some y => y :: omap g l | None => omap g l end).
  by rewrite E, IH.
Qed.

(** First failure of a list of checks ([for ... { if err != nil { return err } }]). *)
Fixpoint first_error {E A} (check : A → option E) (l : list A) : option E :=
  match l with
  | [] => None
  | x :: l => match check x with Some e => Some e | None => first_error check l end
  end.

Lemma first_error_None {E A} (check : A → option E) l :
  first_error check l = None ↔ ∀ x, x ∈ l → check x = None.
Proof.
  induction l as [|x l IH]; simpl; [set_solver|].
  destruct (check x) eqn:Ex.
  - split; [done|]. intros Hall. rewrite Hall in Ex; [done|set_solver].
  - rewrite IH. set_solver.
Qed.

Lemma first_error_Some {E A} (check : A → option E) l e :
  first_error check l = Some e →
  ∃ pre x post, l = pre ++ x :: post ∧ (∀ y, y ∈ pre → check y = None) ∧ check x = Some e.
Proof.
  induction l as [|x l IH]; simpl; [done|].
  destruct (check x) eqn:Ex; intros E'.
  - simplify_eq. exists [], x, l. set_solver.
  - destruct (IH E') as (pre & y & post & -> & Hpre & Hy).
    exists (x :: pre), y, post. set_solver.
Qed.

(** ** Sequential error checks *)
Notation "'try' e ;; k" := (match e with Some err => Some err | None => k end)
  (at level 10, e at level 99, k at level 200) : go_scope.

(** ** Automation *)

Create HintDb go discriminated.
Create Rewrite HintDb go.
#[export] Hint Resolve wrap64_in64 sat64_in64 keep_last_length range_NoDup range_NoDup_fst : go.
#[export] Hint Rewrite Before_spec After_spec Before_false After_false : go.

(** Split every boolean conjunction/disjunction and comparison in the context. *)
Ltac bool_hyps :=
  repeat match goal with
  | H : _ && _ = true |- _ => apply andb_true_iff in H; destruct H
  | H : _ || _ = false |- _ => apply orb_false_iff in H; destruct H
  | H : negb _ = true |- _ => apply negb_true_iff in H
  | H : negb _ = false |- _ => apply negb_false_iff in H
  | H : (_ <? _) = true |- _ => apply Z.ltb_lt in H
  | H : (_ <? _) = false |- _ => apply Z.ltb_ge in H
  | H : (_ <=? _) = true |- _ => apply Z.leb_le in H
  | H : (_ <=? _) = false |- _ => apply Z.leb_gt in H
  | H : (_ =? _) = true |- _ => apply Z.eqb_eq in H
  | H : (_ =? _) = false |- _ => apply Z.eqb_neq in H
  | H : bool_decide _ = true |- _ => apply bool_decide_eq_true in H
  | H : bool_decide _ = false |- _ => apply bool_decide_eq_false in H
  | H : Before _ _ = true |- _ => apply Before_spec in H
  | H : Before _ _ = false |- _ => apply Before_false in H
  | H : After _ _ = true |- _ => apply After_spec in H
  | H : After _ _ = false |- _ => apply After_false in H
  end.

(** Destruct the scrutinee of a match in the goal or a hypothesis. *)
Ltac split_match :=
  repeat (case_match; simplify_eq/=; try done).

Definition streq (a b : string) : bool := bool_decide (a = b).

Lemma streq_true a b : streq a b = true ↔ a = b.
Proof. apply bool_decide_eq_true. Qed.
Lemma streq_false a b : streq a b = false ↔ a ≠ b.
Proof. apply bool_decide_eq_false. Qed.
Lemma streq_refl a : streq a a = true.
Proof. by apply streq_true. Qed.
#[export] Hint Rewrite streq_refl : go.
