(* ===== verification/GoStd.v ===== *)
(** * The parts of Go's standard library the program computes with

    Byte strings ([strings], [slices.Sorted], [strconv]), [net/url] query and path encoding,
    [encoding/hex], [encoding/binary], [hash/fnv], [crypto/sha256]; and the classes that
    stand for the engines a caller may swap: [regexp], RFC 3339 and duration parsing, zones. *)
From stdpp Require Import sorting.
From S2P Require Import Prelude.

(** ** Bytes and strings *)

Definition byte_of (c : ascii) : Z := Z.of_N (Ascii.N_of_ascii c).
Definition ascii_of_Z (z : Z) : ascii := Ascii.ascii_of_N (Z.to_N z).

Definition chars (s : string) : list ascii := String.list_ascii_of_string s.
Definition of_chars (l : list ascii) : string := String.string_of_list_ascii l.
Definition bytes (s : string) : list Z := byte_of <$> chars s.
Definition slen (s : string) : Z := Z.of_nat (String.length s).

Lemma of_chars_chars s : of_chars (chars s) = s.
Proof. apply String.string_of_list_ascii_of_string. Qed.
Lemma chars_of_chars l : chars (of_chars l) = l.
Proof. apply String.list_ascii_of_string_of_list_ascii. Qed.
Lemma chars_inj s t : chars s = chars t → s = t.
Proof. intros E. by rewrite <- (of_chars_chars s), E, of_chars_chars. Qed.
Lemma chars_app s t : chars (s +:+ t) = chars s ++ chars t.
Proof. unfold chars. induction s as [|c s IH]; [done|]. simpl. by f_equal. Qed.
Lemma chars_length s : length (chars s) = String.length s.
Proof. unfold chars. induction s as [|c s IH]; simpl; [done|]. by f_equal. Qed.
#[export] Hint Rewrite chars_app of_chars_chars chars_of_chars : go.

Fixpoint HasPrefix (s p : string) : bool :=
  match p, s with
  | EmptyString, _ => true
  | String c p, String d s => bool_decide (c = d) && HasPrefix s p
  | String _ _, EmptyString => false
  end.

Definition TrimPrefix (s p : string) : string :=
  if HasPrefix s p then String.substring (String.length p) (String.length s - String.length p) s else s.

Definition HasSuffix (s p : string) : bool :=
  HasPrefix (of_chars (rev (chars s))) (of_chars (rev (chars p))).

Definition ContainsByte (s : string) (c : ascii) : bool :=
  existsb (λ d, bool_decide (d = c)) (chars s).
Definition ContainsAny (s cs : string) : bool := existsb (ContainsByte cs) (chars s).

(** [strings.Index s p >= 0] as an offset. *)
Fixpoint Index (s p : string) : option nat :=
  if HasPrefix s p then Some 0%nat
  else match s with
       | EmptyString => None
       | String _ s => S <$> Index s p
       end.

Fixpoint Join (l : list string) (sep : string) : string :=
  match l with
  | [] => ""
  | [x] => x
  | x :: l => x +:+ sep +:+ Join l sep
  end.

(** [strings.Split s sep] for a one-byte separator. *)
Fixpoint split_chars (sep : ascii) (l : list ascii) : list (list ascii) :=
  match l with
  | [] => [[]]
  | c :: l => if decide (c = sep) then [] :: split_chars sep l
              else match split_chars sep l with
                   | [] => [[c]]
                   | w :: ws => (c :: w) :: ws
                   end
  end.
Definition Split (s : string) (sep : ascii) : list string := of_chars <$> split_chars sep (chars s).

Lemma HasPrefix_app p s : HasPrefix (p +:+ s) p = true.
Proof. induction p as [|c p IH]; [by destruct s|]. simpl. by rewrite bool_decide_true, IH. Qed.

Lemma HasPrefix_spec s p : HasPrefix s p = true ↔ ∃ t, s = p +:+ t.
Proof.
  split.
  - revert s. induction p as [|c p IH]; intros s; [by exists s|].
    destruct s as [|d s]; simpl; [done|]. intros [Ec E]%andb_true_iff.
    apply bool_decide_eq_true in Ec. destruct (IH s E) as [t ->]. exists t. by subst.
  - intros [t ->]. apply HasPrefix_app.
Qed.

Lemma string_app_length s t : String.length (s +:+ t) = (String.length s + String.length t)%nat.
Proof. induction s as [|c s IH]; simpl; [done|]. by rewrite IH. Qed.

Lemma string_app_assoc (s t u : string) : (s +:+ t) +:+ u = s +:+ (t +:+ u).
Proof. induction s as [|c s IH]; [done|]. change (String c ((s +:+ t) +:+ u) = String c (s +:+ (t +:+ u))). by rewrite IH. Qed.

Lemma string_app_nil_r (s : string) : s +:+ "" = s.
Proof. induction s as [|c s IH]; [done|]. change (String c (s +:+ "") = String c s). by rewrite IH. Qed.

Lemma string_app_inv_head (p s t : string) : p +:+ s = p +:+ t → s = t.
Proof. induction p as [|c p IH]; [done|]. simpl. intros E. apply IH. by injection E. Qed.

(** [slices.Sorted(maps.Keys(m))]. *)
Definition SortedKeys {V} (m : gmap string V) : list string :=
  merge_sort String.le (map_to_list m).*1.

Lemma SortedKeys_perm {V} (m : gmap string V) : SortedKeys m ≡ₚ (map_to_list m).*1.
Proof. apply merge_sort_Permutation. Qed.

Lemma SortedKeys_elem {V} (m : gmap string V) k : k ∈ SortedKeys m ↔ is_Some (m !! k).
Proof.
  rewrite SortedKeys_perm, list_elem_of_fmap. split.
  - intros ([k' v] & -> & Hv). exists v. by apply elem_of_map_to_list.
  - intros [v Hv]. exists (k, v). by rewrite elem_of_map_to_list.
Qed.

Lemma SortedKeys_NoDup {V} (m : gmap string V) : NoDup (SortedKeys m).
Proof. rewrite SortedKeys_perm. apply NoDup_fst_map_to_list. Qed.

(** The sorted key list depends on the key set only. *)
Lemma SortedKeys_dom {V W} (m : gmap string V) (m' : gmap string W) :
  dom m = dom m' → SortedKeys m = SortedKeys m'.
Proof.
  intros E. apply (Sorted_unique String.le); [apply Sorted_merge_sort; apply _ ..|].
  apply NoDup_Permutation; [apply SortedKeys_NoDup ..|].
  intros k. rewrite !SortedKeys_elem, <- !elem_of_dom. by rewrite E.
Qed.

(** ** Hexadecimal, decimal *)

Definition hexdigit (upper : bool) (n : Z) : ascii :=
  ascii_of_Z (if n <? 10 then 48 + n else (if upper then 55 else 87) + n).

Definition hex_byte (b : Z) : list ascii := [hexdigit false (b / 16); hexdigit false (b mod 16)].

(** [hex.EncodeToString]. *)
Definition EncodeToString (bs : list Z) : string := of_chars (concat (hex_byte <$> bs)).

(** [s[:n]]. *)
Definition slice_to (s : string) (n : nat) : string := of_chars (take n (chars s)).

(** [strconv.Itoa] / ["%d"]. *)
Definition Itoa (z : Z) : string := pretty z.

(** [binary.BigEndian.PutUint32(n[:], uint32(len))]. *)
Definition PutUint32 (z : Z) : list Z :=
  let v := wrap32u z in
  [Z.shiftr v 24 mod 256; Z.shiftr v 16 mod 256; Z.shiftr v 8 mod 256; v mod 256].

Lemma PutUint32_inj a b : 0 <= a < 2 ^ 32 → 0 <= b < 2 ^ 32 → PutUint32 a = PutUint32 b → a = b.
Proof.
  unfold PutUint32, wrap32u. intros Ha Hb.
  rewrite !(Z.mod_small _ (2 ^ 32)) by lia.
  rewrite !Z.shiftr_div_pow2 by lia. intros E. injection E as E1 E2 E3 E4.
  change (2 ^ 24) with 16777216 in *. change (2 ^ 16) with 65536 in *. change (2 ^ 8) with 256 in *.
  change (2 ^ 32) with 4294967296 in *.
  Z.div_mod_to_equations. lia.
Qed.

Lemma PutUint32_length a : length (PutUint32 a) = 4%nat.
Proof. done. Qed.

Lemma byte_of_inj a b : byte_of a = byte_of b → a = b.
Proof.
  unfold byte_of. intros E. apply N2Z.inj in E.
  by rewrite <- (Ascii.ascii_N_embedding a), E, Ascii.ascii_N_embedding.
Qed.

Lemma bytes_inj s t : bytes s = bytes t → s = t.
Proof.
  unfold bytes. intros E. apply chars_inj.
  revert E. generalize (chars s) (chars t). intros l. induction l as [|a l IH]; intros [|b l'] E; try done.
  simpl in E. injection E as E1 E2. f_equal; [by apply byte_of_inj|by apply IH].
Qed.

Lemma bytes_length s : length (bytes s) = String.length s.
Proof. unfold bytes. by rewrite length_fmap, chars_length. Qed.

(** ** [hash/fnv] New32a *)

Definition fnv_offset32 : Z := 2166136261.
Definition fnv_prime32 : Z := 16777619.
Definition fnv32a (key : string) : Z :=
  fold_left (λ h b, wrap32u (Z.lxor h b * fnv_prime32)) (bytes key) fnv_offset32.

Lemma fnv32a_range key : 0 <= fnv32a key < 2 ^ 32.
Proof.
  unfold fnv32a. cut (0 <= fnv_offset32 < 2 ^ 32); [|by vm_compute].
  generalize fnv_offset32. induction (bytes key) as [|b l IH]; intros h Hh; simpl; [done|].
  apply IH. unfold wrap32u. apply Z.mod_pos_bound. lia.
Qed.

Example fnv32a_empty : fnv32a "" = 2166136261. Proof. reflexivity. Qed.
Example fnv32a_a : fnv32a "a" = 3826002220. Proof. reflexivity. Qed.

(** ** [crypto/sha256] *)

Definition sha_K : list Z :=
  [1116352408; 1899447441; 3049323471; 3921009573; 961987163; 1508970993; 2453635748; 
   2870763221; 3624381080; 310598401; 607225278; 1426881987; 1925078388; 2162078206; 
   2614888103; 3248222580; 3835390401; 4022224774; 264347078; 604807628; 770255983; 
   1249150122; 1555081692; 1996064986; 2554220882; 2821834349; 2952996808; 3210313671; 
   3336571891; 3584528711; 113926993; 338241895; 666307205; 773529912; 1294757372; 
   1396182291; 1695183700; 1986661051; 2177026350; 2456956037; 2730485921; 2820302411; 
   3259730800; 3345764771; 3516065817; 3600352804; 4094571909; 275423344; 430227734; 
   506948616; 659060556; 883997877; 958139571; 1322822218; 1537002063; 1747873779; 
   1955562222; 2024104815; 2227730452; 2361852424; 2428436474; 2756734187; 3204031479; 
   3329325298].
Definition sha_H0 : list Z :=
  [1779033703; 3144134277; 1013904242; 2773480762; 1359893119; 2600822924; 528734635; 1541459225].

Definition rotr (n x : Z) : Z := Z.lor (Z.shiftr x n) (wrap32u (Z.shiftl x (32 - n))).
Definition sha_not (x : Z) : Z := 2 ^ 32 - 1 - x.
Definition Sigma0 x := Z.lxor (rotr 2 x) (Z.lxor (rotr 13 x) (rotr 22 x)).
Definition Sigma1 x := Z.lxor (rotr 6 x) (Z.lxor (rotr 11 x) (rotr 25 x)).
Definition sigma0 x := Z.lxor (rotr 7 x) (Z.lxor (rotr 18 x) (Z.shiftr x 3)).
Definition sigma1 x := Z.lxor (rotr 17 x) (Z.lxor (rotr 19 x) (Z.shiftr x 10)).
Definition sha_Ch x y z := Z.lxor (Z.land x y) (Z.land (sha_not x) z).
Definition sha_Maj x y z := Z.lxor (Z.land x y) (Z.lxor (Z.land x z) (Z.land y z)).

(** Message schedule, newest word first. *)
Fixpoint sha_schedule (n : nat) (w : list Z) : list Z :=
  match n with
  | O => w
  | S n =>
    let g i := nth i w 0 in
    sha_schedule n (wrap32u (sigma1 (g 1%nat) + g 6%nat + sigma0 (g 14%nat) + g 15%nat) :: w)
  end.

Definition sha_round (st : list Z) (kw : Z * Z) : list Z :=
  match st with
  | [a; b; c; d; e; f; g; h] =>
    let t1 := h + Sigma1 e + sha_Ch e f g + kw.1 + kw.2 in
    let t2 := Sigma0 a + sha_Maj a b c in
    [wrap32u (t1 + t2); a; b; c; wrap32u (d + t1); e; f; g]
  | _ => st
  end.

Definition sha_block (st : list Z) (block : list Z) : list Z :=
  let w := rev (sha_schedule 48 (rev block)) in
  (λ p, wrap32u (p.1 + p.2)) <$> zip st (fold_left sha_round (zip sha_K w) st).

Fixpoint words (l : list Z) : list Z :=
  match l with
  | a :: b :: c :: d :: l => (((a * 256 + b) * 256 + c) * 256 + d) :: words l
  | _ => []
  end.

Fixpoint chunks (fuel n : nat) (l : list Z) : list (list Z) :=
  match fuel with
  | O => []
  | S fuel => match l with [] => [] | _ => take n l :: chunks fuel n (drop n l) end
  end.

(** FIPS 180-4 padding: [0x80], zeros to 56 mod 64, the bit length in 8 bytes. *)
Definition sha_pad (m : list Z) : list Z :=
  let len := Z.of_nat (length m) in
  m ++ [128] ++ replicate (Z.to_nat ((55 - len) mod 64)) 0
    ++ PutUint32 (8 * len / 2 ^ 32) ++ PutUint32 (8 * len).

(** The digest's 32 bytes. *)
Definition sha256 (m : list Z) : list Z :=
  let bs := chunks (length m + 1) 16 (words (sha_pad m)) in
  concat (PutUint32 <$> fold_left sha_block bs sha_H0).

Example sha256_abc :
  EncodeToString (sha256 (bytes "abc"))
  = "ba7816bf8f01cfea414140de5dae2223b00361a396177a9cb410ff61f20015ad".
Proof. vm_compute. reflexivity. Qed.
Example sha256_two_blocks :
  EncodeToString (sha256 (bytes "abcdbcdecdefdefgefghfghighijhijkijkljklmklmnlmnomnopnopq"))
  = "248d6a61d20638b8e5c026930c3e6039a33ce45964ff2167f6ecedd419db06c1".
Proof. vm_compute. reflexivity. Qed.

(** ** [net/url]: [QueryEscape] and [Values.Encode] *)

Definition url_unreserved (c : ascii) : bool :=
  let b := byte_of c in
  (97 <=? b) && (b <=? 122) || (65 <=? b) && (b <=? 90) || (48 <=? b) && (b <=? 57)
  || (b =? 45) || (b =? 95) || (b =? 46) || (b =? 126).

Definition query_escape_char (c : ascii) : list ascii :=
  if url_unreserved c then [c]
  else if byte_of c =? 32 then ["+"%char]
  else ["%"%char; hexdigit true (byte_of c / 16); hexdigit true (byte_of c mod 16)].

Definition QueryEscape (s : string) : string := of_chars (concat (query_escape_char <$> chars s)).

Fixpoint query_unescape (l : list ascii) : list ascii :=
  match l with
  | [] => []
  | c :: l =>
    if decide (c = "+"%char) then " "%char :: query_unescape l
    else if decide (c = "%"%char) then
      match l with
      | a :: b :: l =>
        let val d := let v := byte_of d in if v <? 58 then v - 48 else v - 55 in
        ascii_of_Z (16 * val a + val b) :: query_unescape l
      | _ => []
      end
    else c :: query_unescape l
  end.

(** One case per byte value. *)
Ltac each_byte c := destruct c as [[] [] [] [] [] [] [] []].

Lemma query_unescape_char c l :
  query_unescape (query_escape_char c ++ l) = c :: query_unescape l.
Proof. each_byte c; reflexivity. Qed.

Lemma query_unescape_escape l :
  query_unescape (concat (query_escape_char <$> l)) = l.
Proof.
  induction l as [|c l IH]; [done|]. rewrite fmap_cons. cbn [concat]. by rewrite query_unescape_char, IH.
Qed.

Lemma QueryEscape_inj s t : QueryEscape s = QueryEscape t → s = t.
Proof.
  unfold QueryEscape. intros E. apply (f_equal chars) in E. rewrite !chars_of_chars in E.
  apply chars_inj. by rewrite <- (query_unescape_escape (chars s)), E, query_unescape_escape.
Qed.

Lemma query_escape_no_delim s d : d = "&"%char ∨ d = "="%char → d ∉ chars (QueryEscape s).
Proof.
  intros Hd. unfold QueryEscape. rewrite chars_of_chars, list_elem_of_In.
  intros (l & Hl & Hin)%in_concat. apply list_elem_of_In, list_elem_of_fmap in Hl as (c & -> & _).
  destruct Hd as [-> | ->]; each_byte c; simpl in Hin; intuition discriminate.
Qed.

Definition encode_pair (kv : string * string) : string :=
  QueryEscape kv.1 +:+ "=" +:+ QueryEscape kv.2.

(** [url.Values.Encode] of single-valued keys. *)
Definition Encode (fields : gmap string string) : string :=
  Join ((λ k, encode_pair (k, default "" (fields !! k))) <$> SortedKeys fields) "&".

(** Two texts cut at the first delimiter that none of their heads contains. *)
Lemma delim_cut (d : ascii) (l1 l2 r1 r2 : list ascii) :
  d ∉ l1 → d ∉ l2 →
  (r1 = [] ∨ ∃ r, r1 = d :: r) → (r2 = [] ∨ ∃ r, r2 = d :: r) →
  l1 ++ r1 = l2 ++ r2 → l1 = l2 ∧ r1 = r2.
Proof.
  revert l2. induction l1 as [|a l1 IH]; intros [|b l2] H1 H2 Hr1 Hr2 E; simpl in *.
  - done.
  - subst r1. destruct Hr1 as [|[r ?]]; simplify_eq. set_solver.
  - subst r2. destruct Hr2 as [|[r ?]]; simplify_eq. set_solver.
  - simplify_eq. destruct (IH l2) as [-> ->]; [set_solver ..|done|done|done|done].
Qed.

Lemma encode_pair_cut p q r1 r2 :
  (r1 = [] ∨ ∃ r, r1 = "&"%char :: r) → (r2 = [] ∨ ∃ r, r2 = "&"%char :: r) →
  chars (encode_pair p) ++ r1 = chars (encode_pair q) ++ r2 → p = q ∧ r1 = r2.
Proof.
  destruct p as [k v], q as [k' v']. unfold encode_pair. simpl. intros H1 H2 E.
  rewrite !chars_app, <- !app_assoc in E.
  apply (delim_cut "="%char) in E as [Ek E];
    [|apply query_escape_no_delim; by right ..|right; by eexists|right; by eexists].
  injection E as E. apply (delim_cut "&"%char) in E as [Ev ->];
    [|apply query_escape_no_delim; by left ..|done|done].
  by rewrite (QueryEscape_inj k k'), (QueryEscape_inj v v') by by apply chars_inj.
Qed.

Lemma Join_cons x l sep :
  Join (x :: l) sep = x +:+ match l with [] => "" | _ => sep +:+ Join l sep end.
Proof. destruct l; [by rewrite string_app_nil_r|done]. Qed.

Lemma encode_pair_nonempty p : encode_pair p ≠ "".
Proof.
  unfold encode_pair. intros E. apply (f_equal String.length) in E.
  rewrite !string_app_length in E. simpl in E. lia.
Qed.

Lemma Join_encode_inj l l' :
  Join (encode_pair <$> l) "&" = Join (encode_pair <$> l') "&" → l = l'.
Proof.
  revert l'. induction l as [|p l IH]; intros [|q l'] E; [done| | |].
  - destruct (encode_pair_nonempty q). rewrite !fmap_cons, Join_cons in E. destruct (encode_pair q); [done|discriminate].
  - destruct (encode_pair_nonempty p). rewrite !fmap_cons, Join_cons in E. destruct (encode_pair p); [done|discriminate].
  - rewrite !fmap_cons, !Join_cons in E. apply (f_equal chars) in E. rewrite !chars_app in E.
    assert (Hd : ∀ l0, let r := chars match encode_pair <$> l0 with
        | [] => "" | _ :: _ => "&" +:+ Join (encode_pair <$> l0) "&" end in
        r = [] ∨ ∃ r', r = "&"%char :: r').
    { intros [|p0 l0]; [by left|right]. rewrite fmap_cons. simpl. by eexists. }
    apply encode_pair_cut in E as [-> E]; [|apply Hd ..].
    f_equal. apply IH. destruct l as [|p l], l' as [|q' l']; try done.
    rewrite !fmap_cons, !chars_app in E. rewrite !fmap_cons. simpl in E. injection E as E. by apply chars_inj.
Qed.

(** The encoding determines the fields. *)
Lemma Encode_inj m m' : Encode m = Encode m' → m = m'.
Proof.
  unfold Encode.
  assert (Hmap : ∀ m0 : gmap string string,
    (λ k, encode_pair (k, default "" (m0 !! k))) <$> SortedKeys m0
    = encode_pair <$> ((λ k, (k, default "" (m0 !! k))) <$> SortedKeys m0)).
  { intros m0. by rewrite <- list_fmap_compose. }
  rewrite !Hmap. intros E%Join_encode_inj. apply map_eq. intros k.
  assert (Hin : ∀ m0 : gmap string string, ∀ v,
    m0 !! k = Some v ↔ (k, v) ∈ ((λ k, (k, default "" (m0 !! k))) <$> SortedKeys m0)).
  { intros m0 v. rewrite list_elem_of_fmap. split.
    - intros Hv. exists k. rewrite Hv, SortedKeys_elem. eauto.
    - intros (k0 & Heq & [v0 Hv0]%SortedKeys_elem). injection Heq as -> ->. by rewrite Hv0. }
  apply option_eq. intros v. by rewrite !Hin, E.
Qed.

(** ** UTF-8 *)

(** [utf8.RuneStart]: not a continuation byte. *)
Definition RuneStart (c : ascii) : bool := negb (Z.land (byte_of c) 192 =? 128).

(** ** The engines left abstract *)

(** [regexp]: a compiled pattern and its unanchored search. *)
Class RegexpLib := {
  Regexp : Type;
  regexp_Compile : string → option Regexp;
  MatchString : Regexp → string → bool;
}.

(** A small engine to evaluate the witnesses with: literals, [.], postfix [*] and the two
    anchors; every other metacharacter is rejected. *)
Module MiniRegexp.
Inductive atom := Lit (c : ascii) | AnyChar.
Record t := Mk { pre_anchor : bool; body : list (atom * bool); post_anchor : bool }.

Definition meta : string := "^$+?()[]{}|\*".

Fixpoint parse (l : list ascii) : option (list (atom * bool) * bool) :=
  match l with
  | [] => Some ([], false)
  | c :: l' =>
    if decide (c = "$"%char) then match l' with [] => Some ([], true) | _ => None end
    else if ContainsByte meta c then None
    else
      let a := if decide (c = "."%char) then AnyChar else Lit c in
      match l' with
      | "*"%char :: l'' => '(b, e) ← parse l''; Some ((a, true) :: b, e)
      | _ => '(b, e) ← parse l'; Some ((a, false) :: b, e)
      end
  end.

Definition compile (p : string) : option t :=
  let '(pre, l) := match chars p with "^"%char :: l => (true, l) | l => (false, l) end in
  '(b, e) ← parse l; Some (Mk pre b e).

Definition accepts (a : atom) (c : ascii) : bool :=
  match a with Lit d => bool_decide (c = d) | AnyChar => true end.

Fixpoint match_here (b : list (atom * bool)) (e : bool) (l : list ascii) : bool :=
  match b with
  | [] => if e then match l with [] => true | _ => false end else true
  | (a, false) :: b => match l with c :: l => accepts a c && match_here b e l | [] => false end
  | (a, true) :: b =>
    (fix star l := match_here b e l || match l with c :: l => accepts a c && star l | [] => false end) l
  end.

Definition search (r : t) (s : string) : bool :=
  if r.(pre_anchor) then match_here r.(body) r.(post_anchor) (chars s)
  else (fix go l := match_here r.(body) r.(post_anchor) l || match l with _ :: l => go l | [] => false end) (chars s).
End MiniRegexp.

Definition mini_regexp : RegexpLib := {|
  Regexp := MiniRegexp.t;
  regexp_Compile := MiniRegexp.compile;
  MatchString := MiniRegexp.search;
|}.

(** [time.Parse(time.RFC3339, _)], [Time.Format(time.RFC3339)] and
    [time.ParseDuration]. *)
Class TimeLib := {
  ParseRFC3339 : string → option time;
  FormatRFC3339 : time → string;
  ParseDuration : string → option duration;
}.

(** [time.LoadLocation]: a zone gives an instant's weekday (0 = Sunday), hour and
    minute. *)
Record clock := Clock { Weekday : Z; ClockHour : Z; ClockMinute : Z }.
Class ZoneLib := {
  LoadLocation : string → option (time → clock);
}.

(** The clock of [time.UTC]: 1 January of year 1 was a Monday. *)
Definition UTC (t : time) : clock :=
  {| Weekday := (t / (24 * Hour) + 1) mod 7;
     ClockHour := t mod (24 * Hour) / Hour;
     ClockMinute := t mod Hour / Minute |}.

(** ** [strconv.Atoi] and [fmt.Sscanf]'s ["%d"] *)

Definition digit_of (c : ascii) : option Z :=
  let b := byte_of c in if (48 <=? b) && (b <=? 57) then Some (b - 48) else None.

(** The longest run of decimal digits, as its value and the rest; [None] without a digit. *)
Fixpoint scan_digits (acc : option Z) (l : list ascii) : option (Z * list ascii) :=
  match l with
  | c :: l' =>
    match digit_of c with
    | Some d => scan_digits (Some (10 * default 0 acc + d)) l'
    | None => (λ v, (v, l)) <$> acc
    end
  | [] => (λ v, (v, [])) <$> acc
  end.

Definition scan_signed (l : list ascii) : option (Z * list ascii) :=
  let '(neg, l) := match l with
                   | "-"%char :: l => (true, l)
                   | "+"%char :: l => (false, l)
                   | l => (false, l)
                   end in
  '(v, rest) ← scan_digits None l;
  let v := if (neg : bool) then - v else v in
  if (- 2 ^ 63 <=? v) && (v <? 2 ^ 63) then Some (v, rest) else None.

Definition Atoi (s : string) : option Z :=
  match scan_signed (chars s) with
  | Some (v, []) => Some v
  | _ => None
  end.

(** ["%d"] skips (ASCII) blanks; a newline is an error. *)
Fixpoint skip_blanks (l : list ascii) : option (list ascii) :=
  match l with
  | c :: l' =>
    let b := byte_of c in
    if b =? 10 then None
    else if (b =? 32) || (b =? 9) || (b =? 11) || (b =? 12) || (b =? 13) then skip_blanks l'
    else Some l
  | [] => Some []
  end.

Definition scan_d (l : list ascii) : option (Z * list ascii) := l ← skip_blanks l; scan_signed l.

(** [fmt.Sscanf(s, "%d:%d", &h, &m)]; what follows the second number is ignored. *)
Definition Sscanf_hm (s : string) : option (Z * Z) :=
  '(h, rest) ← scan_d (chars s);
  match rest with
  | ":"%char :: rest => '(m, _) ← scan_d rest; Some (h, m)
  | _ => None
  end.

(** [strings.ToLower] on ASCII letters; other bytes are kept. *)
Definition lower (c : ascii) : ascii :=
  let b := byte_of c in if (65 <=? b) && (b <=? 90) then ascii_of_Z (b + 32) else c.
Definition ToLower (s : string) : string := of_chars (lower <$> chars s).

Example Atoi_neg : Atoi "-42" = Some (-42). Proof. reflexivity. Qed.
Example Atoi_junk : Atoi "4x" = None. Proof. reflexivity. Qed.
Example Sscanf_hm_ok : Sscanf_hm "23:05" = Some (23, 5). Proof. reflexivity. Qed.

(** A [float64], as far as the program compares one with zero. *)
Inductive float64 := FNaN | FInf (negative : bool) | FFinite (num : Z) (den : positive).

Definition float_le_zero (f : float64) : bool :=
  match f with FNaN => false | FInf negative => negative | FFinite n _ => n <=? 0 end.

#[global] Instance float64_eq_dec : EqDecision float64.
Proof. solve_decision. Defined.

(** Decimal numerals determine their number. *)
Lemma Itoa_inj a b : Itoa a = Itoa b → a = b.
Proof. apply pretty_Z_inj. Qed.

Lemma pretty_go_no_dash x s : "-"%char ∉ chars s → "-"%char ∉ chars (pretty_N_go x s).
Proof.
  revert s. induction (N.lt_wf_0 x) as [x _ IH]; intros s Hs.
  destruct (decide (0 < x)%N) as [Hx|Hx].
  - rewrite pretty_N_go_step by done. apply IH; [by apply N.div_lt|].
    change (chars (String (pretty_N_char (x `mod` 10)) s)) with (pretty_N_char (x `mod` 10) :: chars s).
    rewrite not_elem_of_cons. split; [|done]. unfold pretty_N_char. by repeat case_match.
  - assert (x = 0%N) as -> by lia. done.
Qed.

(** The numeral of a nonnegative number has no sign. *)
Lemma Itoa_no_dash z : 0 <= z → "-"%char ∉ chars (Itoa z).
Proof.
  intros Hz. unfold Itoa. destruct z as [|p|p]; [| |lia].
  - intros Hin. cbv in Hin. by repeat (apply elem_of_cons in Hin as [?|Hin]; [done|]); apply elem_of_nil in Hin.
  - change (pretty (Z.pos p)) with (pretty_N (N.pos p)). unfold pretty_N.
    destruct (decide (N.pos p = 0%N)); [done|]. apply pretty_go_no_dash, not_elem_of_nil.
Qed.

(** A text that ends in ["-<i>"] and in ["-<j>"] has [i = j]. *)
Lemma dash_suffix_inj (s t : string) i j :
  0 <= i → 0 <= j → s +:+ "-" +:+ Itoa i = t +:+ "-" +:+ Itoa j → i = j.
Proof.
  intros Hi Hj E. apply Itoa_inj, chars_inj. apply (f_equal chars) in E.
  rewrite !chars_app in E. change (chars "-") with ["-"%char] in E.
  apply (f_equal reverse) in E. rewrite !reverse_app, <- !app_assoc in E.
  apply (delim_cut "-"%char) in E as [E _].
  - by apply (inj reverse) in E.
  - rewrite elem_of_reverse. by apply Itoa_no_dash.
  - rewrite elem_of_reverse. by apply Itoa_no_dash.
  - right. by eexists.
  - right. by eexists.
Qed.

Lemma HasSuffix_spec s p : HasSuffix s p = true ↔ ∃ t, s = t +:+ p.
Proof.
  unfold HasSuffix. rewrite HasPrefix_spec. split.
  - intros [t E]. apply (f_equal chars) in E. rewrite chars_app, !chars_of_chars in E.
    apply (f_equal (@rev ascii)) in E. rewrite rev_app_distr, !rev_involutive in E.
    exists (of_chars (rev (chars t))). apply chars_inj. by rewrite chars_app, chars_of_chars.
  - intros [t ->]. exists (of_chars (rev (chars t))). apply chars_inj.
    rewrite (chars_app t p), rev_app_distr, chars_app, !chars_of_chars. done.
Qed.

(** ** Concrete instances of the time classes, for the witnesses *)

Module MiniTime.
(** Days from 1 January of year 1 to a proleptic Gregorian date, and the date's parts. *)
Definition days_of_civil (y m d : Z) : Z :=
  let y' := if m <=? 2 then y - 1 else y in
  let m' := if m <=? 2 then m + 9 else m - 3 in
  365 * y' + y' / 4 - y' / 100 + y' / 400 + (153 * m' + 2) / 5 + d - 1 - 306.

Definition parse (s : string) : option time :=
  match scan_digits None (chars s) with
  | Some (y, "-"%char :: l) =>
    match scan_digits None l with
    | Some (mo, "-"%char :: l) =>
      match scan_digits None l with
      | Some (d, "T"%char :: l) =>
        match scan_digits None l with
        | Some (h, ":"%char :: l) =>
          match scan_digits None l with
          | Some (mi, ":"%char :: l) =>
            match scan_digits None l with
            | Some (sec, ["Z"%char]) =>
              Some (days_of_civil y mo d * (24 * Hour) + h * Hour + mi * Minute + sec * Second)
            | _ => None
            end
          | _ => None
          end
        | _ => None
        end
      | _ => None
      end
    | _ => None
    end
  | _ => None
  end.

Definition duration_of (s : string) : option duration :=
  match scan_digits None (chars s) with
  | Some (n, ["s"%char]) => Some (n * Second)
  | Some (n, ["m"%char]) => Some (n * Minute)
  | Some (n, ["h"%char]) => Some (n * Hour)
  | _ => None
  end.
End MiniTime.

Definition mini_time : TimeLib := {|
  ParseRFC3339 := MiniTime.parse;
  FormatRFC3339 := λ t, Itoa (t / Second);
  ParseDuration := MiniTime.duration_of;
|}.

(** UTC and one fixed offset. *)
Definition mini_zone : ZoneLib := {|
  LoadLocation name := if streq name "UTC" then Some UTC
                       else if streq name "Etc/GMT-2" then Some (λ t, UTC (t + 2 * Hour)) else None;
|}.

Example parse_epoch : MiniTime.parse "0001-01-01T00:00:00Z" = Some 0. Proof. reflexivity. Qed.
Example parse_2000 : MiniTime.parse "2000-03-01T00:00:01Z" = Some (730179 * (24 * Hour) + Second). Proof. reflexivity. Qed.

Lemma pretty_go_digit x s :
  (0 < x)%N → ∃ c r, pretty_N_go x s = String c r ∧ is_Some (digit_of c).
Proof.
  revert s. induction (N.lt_wf_0 x) as [x _ IH]; intros s Hx. rewrite pretty_N_go_step by done.
  destruct (decide (0 < x `div` 10)%N) as [Hd|Hd].
  - apply IH; [by apply N.div_lt|done].
  - apply N.nlt_ge, N.le_0_r in Hd. rewrite Hd, pretty_N_go_0. do 2 eexists. split; [done|].
    unfold pretty_N_char. repeat case_match; by eexists.
Qed.

(** The numeral of a positive number starts with a digit. *)
Lemma Itoa_digit p : ∃ c r, Itoa (Z.pos p) = String c r ∧ is_Some (digit_of c).
Proof.
  unfold Itoa. change (pretty (Z.pos p)) with (pretty_N (N.pos p)). unfold pretty_N.
  destruct (decide (N.pos p = 0%N)); [done|]. by apply pretty_go_digit.
Qed.

(** ** [time.Duration.String] *)

Fixpoint drop_zeros (l : list ascii) : list ascii :=
  match l with "0"%char :: l => drop_zeros l | l => l end.

(** The fraction [v / 10^prec] with its point, without trailing zeros; empty when zero. *)
Definition fmtFrac (v : Z) (prec : nat) : string :=
  let digits := chars (Itoa v) in
  let padded := replicate (prec - length digits) "0"%char ++ digits in
  match drop_zeros (rev padded) with
  | [] => ""
  | kept => String "."%char (of_chars (rev kept))
  end.

Definition Duration_String (d : duration) : string :=
  let u := Z.abs d in
  let sign := if d <? 0 then "-" else "" in
  if u =? 0 then "0s"
  else if u <? 1000 then sign +:+ Itoa u +:+ "ns"
  else if u <? 1000000 then sign +:+ Itoa (u / 1000) +:+ fmtFrac (u mod 1000) 3 +:+ "µs"
  else if u <? Second then sign +:+ Itoa (u / 1000000) +:+ fmtFrac (u mod 1000000) 6 +:+ "ms"
  else
    let s := u / Second in
    let secs := Itoa (s mod 60) +:+ fmtFrac (u mod Second) 9 +:+ "s" in
    let m := s / 60 in
    sign +:+ (if m =? 0 then secs
              else if m / 60 =? 0 then Itoa (m mod 60) +:+ "m" +:+ secs
              else Itoa (m / 60) +:+ "h" +:+ Itoa (m mod 60) +:+ "m" +:+ secs).

Example Duration_String_30s : Duration_String (30 * Second) = "30s". Proof. reflexivity. Qed.
Example Duration_String_90m : Duration_String (90 * Minute) = "1h30m0s". Proof. reflexivity. Qed.
Example Duration_String_ms : Duration_String (-1500000) = "-1.5ms". Proof. reflexivity. Qed.

(** ** Alphabet of encoded queries *)

Lemma Join_elem c l sep : c ∈ chars (Join l sep) → c ∈ chars sep ∨ ∃ x, x ∈ l ∧ c ∈ chars x.
Proof.
  induction l as [|x l IH]; [intros Hin; by apply elem_of_nil in Hin|]. rewrite Join_cons.
  destruct l as [|y l]; rewrite chars_app, elem_of_app; intros [Hc|Hc].
  - right. exists x. split; [left|done].
  - by apply elem_of_nil in Hc.
  - right. exists x. split; [left|done].
  - rewrite chars_app in Hc. apply elem_of_app in Hc as [Hc|Hc]; [by left|].
    destruct (IH Hc) as [Hs|(z & Hz & Hcz)]; [by left|right]. exists z. split; [by right|done].
Qed.

Lemma Encode_no_pipe m : "|"%char ∉ chars (Encode m).
Proof.
  assert (Hesc : ∀ s, "|"%char ∉ chars (QueryEscape s)).
  { intros s. unfold QueryEscape. rewrite chars_of_chars, list_elem_of_In. intros (l & Hl & Hin)%in_concat.
    apply list_elem_of_In, list_elem_of_fmap in Hl as (c & -> & _).
    each_byte c; simpl in Hin; intuition discriminate. }
  unfold Encode. intros Hin. apply Join_elem in Hin as [Hin|(x & Hx & Hin)].
  - by apply elem_of_cons in Hin as [?|Hin]; [|apply elem_of_nil in Hin].
  - apply list_elem_of_fmap in Hx as (k & -> & _). unfold encode_pair in Hin. cbn [fst snd] in Hin.
    rewrite !chars_app, !elem_of_app in Hin. destruct Hin as [Hin|[Hin|Hin]]; [by apply Hesc in Hin| |by apply Hesc in Hin].
    by apply elem_of_cons in Hin as [?|Hin]; [|apply elem_of_nil in Hin].
Qed.

(** ** [strings.ReplaceAll] of a nonempty text *)

Definition Contains (s p : string) : bool := match Index s p with Some _ => true | None => false end.
Definition slice_from (s : string) (n : nat) : string := of_chars (drop n (chars s)).

Fixpoint replace_all (fuel : nat) (s old new : string) : string :=
  match fuel with
  | O => s
  | S fuel => match Index s old with
              | None => s
              | Some i => slice_to s i +:+ new +:+ replace_all fuel (slice_from s (i + String.length old)) old new
              end
  end.
Definition ReplaceAll (s old new : string) : string := replace_all (S (String.length s)) s old new.

(** ** [strings.Index] and [strings.ReplaceAll] *)

Lemma HasPrefix_chars s p : HasPrefix s p = true ↔ ∃ t, chars s = chars p ++ t.
Proof.
  rewrite HasPrefix_spec. split.
  - intros [t ->]. exists (chars t). apply chars_app.
  - intros [t Ht]. exists (of_chars t). apply chars_inj. by rewrite chars_app, chars_of_chars.
Qed.

(** [Index] is the first occurrence. *)
Lemma Index_Some s p i :
  Index s p = Some i →
  ∃ b, chars s = take i (chars s) ++ chars p ++ b ∧ (i <= length (chars s))%nat
    ∧ ∀ x y, chars s = x ++ chars p ++ y → (i <= length x)%nat.
Proof.
  revert i. induction s as [|c s IH]; intros i; cbn [Index].
  - destruct (HasPrefix "" p) eqn:E; [|done]. intros [= <-]. apply HasPrefix_chars in E as [t Ht]. exists t.
    split_and!; [done|lia|lia].
  - destruct (HasPrefix (String c s) p) eqn:E.
    + intros [= <-]. apply HasPrefix_chars in E as [t Ht]. exists t. split_and!; [done|lia|lia].
    + destruct (Index s p) as [j|] eqn:Ej; [|done]. intros [= <-]. destruct (IH j eq_refl) as (b & Hb & Hj & Hmin).
      change (chars (String c s)) with (c :: chars s). exists b. cbn [take app length].
      split_and!; [by f_equal|lia|]. intros x y Hx. destruct x as [|d x].
      * exfalso. apply (not_true_iff_false (HasPrefix (String c s) p)) in E. apply E, HasPrefix_chars. by exists y.
      * injection Hx as <- Hx. apply Hmin in Hx. cbn [length]. lia.
Qed.

Lemma Index_None s p : Index s p = None ↔ ∀ x y, chars s ≠ x ++ chars p ++ y.
Proof.
  split.
  - induction s as [|c s IH]; cbn [Index]; intros Hi x y Hx.
    + destruct (HasPrefix "" p) eqn:E; [done|]. apply not_true_iff_false in E. apply E, HasPrefix_chars.
      destruct x; [|done]. by exists y.
    + destruct (HasPrefix (String c s) p) eqn:E; [done|]. destruct (Index s p) eqn:Ei; [done|]. destruct x as [|d x].
      * apply not_true_iff_false in E. apply E, HasPrefix_chars. by exists y.
      * cbn in Hx. injection Hx as <- Hx. by eapply IH.
  - intros Hno. destruct (Index s p) as [i|] eqn:E; [|done]. apply Index_Some in E as (b & Hb & _). by destruct (Hno _ _ Hb).
Qed.

(** Two texts that cannot overlap: neither contains the other, and neither begins with an end
    of the other. *)
Definition overlap_free {A} (old new : list A) : Prop :=
  (∀ x y, new ≠ x ++ old ++ y) ∧ (∀ x y, old ≠ x ++ new ++ y)
  ∧ (∀ a b z, b ≠ [] → old = a ++ b → new ≠ b ++ z) ∧ (∀ a b z, a ≠ [] → old = a ++ b → new ≠ z ++ a).

Lemma overlap_free_disjoint {A} (old new : list A) :
  old ≠ [] → new ≠ [] → (∀ c, c ∈ old → c ∉ new) → overlap_free old new.
Proof.
  intros Ho Hn Hdis. destruct old as [|o old]; [done|]. destruct new as [|n new]; [done|]. split_and!.
  - intros x y E. apply (Hdis o); [left|]. rewrite E. set_solver.
  - intros x y E. apply (Hdis n); [|left]. rewrite E. set_solver.
  - intros a [|c b] z; [done|]. intros _ Eo E. apply (Hdis c); [rewrite Eo; set_solver|]. rewrite E. left.
  - intros [|c a] b z; [done|]. intros _ Eo E. apply (Hdis c); [rewrite Eo; left|]. rewrite E. set_solver.
Qed.

(** An occurrence in a text with a separator it cannot overlap lies on one side of it. *)
Lemma occurrence_split {A} (a new r x old y : list A) :
  a ++ new ++ r = x ++ old ++ y → overlap_free old new →
  (∃ y', a = x ++ old ++ y') ∨ (∃ x', r = x' ++ old ++ y).
Proof.
  intros E (Hin & Hout & Hl & Hr). apply app_eq_app in E as (l & [[-> E]|[-> E]]).
  - (* the occurrence starts in [a] *)
    apply app_eq_app in E as (m & [[-> E]|[-> E]]); [|left; by exists m].
    destruct m as [|c m]; [left; exists []; by rewrite !app_nil_r|]. exfalso.
    apply app_eq_app in E as (k & [[-> E]|[E _]]); [by apply (Hl l (c :: m) k)|].
    rewrite E in Hout. by apply (Hout l k).
  - (* it starts after [a] *)
    apply app_eq_app in E as (m & [[-> E]|[-> E]]); [|right; by exists m].
    apply app_eq_app in E as (k & [[-> E]|[-> E]]).
    + destruct m as [|c m]; [right; exists []; by rewrite E|].
      destruct k as [|k0 k]; [by rewrite app_nil_r in Hin; exfalso; apply (Hin l []); rewrite app_nil_r|].
      exfalso. by apply (Hr (c :: m) (k0 :: k) l).
    + exfalso. by apply (Hin l k).
Qed.

(** Nothing of a replaced text is left, when the replacement cannot overlap with it. *)
Lemma ReplaceAll_redacts s old new :
  old ≠ "" → overlap_free (chars old) (chars new) → Contains (ReplaceAll s old new) old = false.
Proof.
  intros Ho Hfree. unfold Contains, ReplaceAll.
  assert (Hlen : (String.length s < S (String.length s))%nat) by lia.
  remember (S (String.length s)) as fuel eqn:Ef. clear Ef. revert s Hlen.
  assert (Ho' : chars old ≠ []) by (intros E; apply Ho, chars_inj; done).
  induction fuel as [|fuel IH]; intros s Hlen; [lia|]. cbn [replace_all].
  destruct (Index s old) as [i|] eqn:Ei; [|by rewrite Ei]. apply Index_Some in Ei as (b & Hb & Hi & Hmin).
  assert (Hlt : (String.length (slice_from s (i + String.length old)) < fuel)%nat).
  { unfold slice_from. rewrite <- chars_length, chars_of_chars, length_drop, chars_length.
    assert (String.length old ≠ 0%nat) by (by destruct old).
    apply (f_equal length) in Hb. rewrite !length_app, length_take, !chars_length in Hb. lia. }
  specialize (IH _ Hlt). destruct (Index (replace_all fuel _ old new) old) eqn:Er in IH; [done|].
  rewrite (proj2 (Index_None _ old)); [done|]. intros x y. rewrite !chars_app. unfold slice_to. rewrite chars_of_chars.
  intros E. apply occurrence_split in E as [[y' E]|[x' E]]; [| |done].
  - assert (Hle : (i <= length x)%nat).
    { apply (Hmin x (y' ++ chars old ++ b)). rewrite Hb at 1. rewrite E. by rewrite <- !app_assoc. }
    apply (f_equal length) in E. rewrite length_take, !length_app in E.
    assert (length (chars old) ≠ 0%nat) by (by rewrite length_zero_iff_nil). lia.
  - by eapply (proj1 (Index_None _ _) Er).
Qed.

Lemma ReplaceAll_removes s old new :
  old ≠ "" → new ≠ "" → (∀ c, c ∈ chars old → c ∉ chars new) → Contains (ReplaceAll s old new) old = false.
Proof.
  intros Ho Hn Hdis. apply ReplaceAll_redacts; [done|].
  apply overlap_free_disjoint; [intros E; apply Ho, chars_inj; done|intros E; apply Hn, chars_inj; done|done].
Qed.

(** ** [strings.IndexByte], [LastIndexByte], [ToUpper] *)

Fixpoint first_index (c : ascii) (l : list ascii) : option nat :=
  match l with
  | [] => None
  | x :: l => if decide (x = c) then Some O else S <$> first_index c l
  end.
Fixpoint last_index (c : ascii) (l : list ascii) : option nat :=
  match l with
  | [] => None
  | x :: l => match last_index c l with
              | Some i => Some (S i)
              | None => if decide (x = c) then Some O else None
              end
  end.
Definition IndexByte (s : string) (c : ascii) : Z := from_option Z.of_nat (-1) (first_index c (chars s)).
Definition LastIndexByte (s : string) (c : ascii) : Z := from_option Z.of_nat (-1) (last_index c (chars s)).

Lemma first_index_app c l l' : c ∉ l → first_index c (l ++ c :: l') = Some (length l).
Proof.
  induction l as [|x l IH]; intros Hc; cbn [app first_index].
  - by rewrite decide_True.
  - apply not_elem_of_cons in Hc as [Hx Hl]. rewrite decide_False by congruence. by rewrite IH.
Qed.

Lemma last_index_app c l l' : c ∉ l' → last_index c (l ++ c :: l') = Some (length l).
Proof.
  intros Hc. assert (Hn : ∀ l', c ∉ l' → last_index c l' = None).
  { clear. induction l' as [|x l' IH]; intros Hc; [done|]. apply not_elem_of_cons in Hc as [Hx Hl]. cbn [last_index].
    by rewrite (IH Hl), decide_False by congruence. }
  induction l as [|x l IH]; cbn [app last_index].
  - by rewrite (Hn l' Hc), decide_True.
  - by rewrite IH.
Qed.

Lemma last_index_Some c l i : last_index c l = Some i → ∃ l1 l2, l = l1 ++ c :: l2 ∧ length l1 = i ∧ c ∉ l2.
Proof.
  revert i. induction l as [|x l IH]; intros i; [done|]. cbn [last_index]. destruct (last_index c l) as [j|] eqn:E.
  - intros [= <-]. destruct (IH j eq_refl) as (l1 & l2 & -> & <- & Hc). by exists (x :: l1), l2.
  - case_decide as Hx; [|done]. intros [= <-]. subst x. exists [], l. split_and!; [done..|]. intros Hin.
    apply list_elem_of_split in Hin as (l1 & l2 & ->). clear IH. induction l1 as [|y l1 IH]; cbn [app last_index] in E.
    + destruct (last_index c l2); [done|]. by rewrite decide_True in E.
    + destruct (last_index c (l1 ++ c :: l2)); [done|]. by apply IH.
Qed.

Lemma last_index_None c l : last_index c l = None ↔ c ∉ l.
Proof.
  split.
  - intros E Hin. apply list_elem_of_split in Hin as (l1 & l2 & ->). induction l1 as [|y l1 IH]; cbn [app last_index] in E.
    + destruct (last_index c l2); [done|]. by rewrite decide_True in E.
    + destruct (last_index c (l1 ++ c :: l2)); [done|]. by apply IH.
  - intros Hc. destruct (last_index c l) as [i|] eqn:E; [|done]. apply last_index_Some in E as (l1 & l2 & -> & _). set_solver.
Qed.

(** On ASCII letters; other bytes are kept. *)
Definition upper (c : ascii) : ascii :=
  let b := byte_of c in if (97 <=? b) && (b <=? 122) then ascii_of_Z (b - 32) else c.
Definition ToUpper (s : string) : string := of_chars (upper <$> chars s).

(** ** [url.PathEscape] of a path segment *)

Definition segment_unreserved (c : ascii) : bool := url_unreserved c || ContainsByte "$&+=:@" c.
Definition path_escape_char (c : ascii) : list ascii :=
  if segment_unreserved c then [c]
  else ["%"%char; hexdigit true (byte_of c / 16); hexdigit true (byte_of c mod 16)].
Definition PathEscape (s : string) : string := of_chars (concat (path_escape_char <$> chars s)).

Fixpoint path_unescape (l : list ascii) : list ascii :=
  match l with
  | [] => []
  | c :: l =>
    if decide (c = "%"%char) then
      match l with
      | a :: b :: l =>
        let val d := let v := byte_of d in if v <? 58 then v - 48 else v - 55 in
        ascii_of_Z (16 * val a + val b) :: path_unescape l
      | _ => []
      end
    else c :: path_unescape l
  end.

Lemma path_unescape_char c l : path_unescape (path_escape_char c ++ l) = c :: path_unescape l.
Proof. each_byte c; reflexivity. Qed.

Lemma path_unescape_escape l : path_unescape (concat (path_escape_char <$> l)) = l.
Proof. induction l as [|c l IH]; [done|]. rewrite fmap_cons. cbn [concat]. by rewrite path_unescape_char, IH. Qed.

(** An escaped segment has no delimiter of a URL. *)
Lemma path_escape_no_delim s d : ContainsByte "/?#;" d = true → d ∉ chars (PathEscape s).
Proof.
  intros Hd. unfold PathEscape. rewrite chars_of_chars, list_elem_of_In.
  intros (l & Hl & Hin)%in_concat. apply list_elem_of_In, list_elem_of_fmap in Hl as (c & -> & _).
  assert (Hc : forallb (λ d, negb (ContainsByte "/?#;" d)) (path_escape_char c) = true) by (each_byte c; reflexivity).
  rewrite forallb_forall in Hc. specialize (Hc d Hin). by rewrite Hd in Hc.
Qed.

(** ** Texts built byte by byte ([strings.Replacer] with one-byte patterns) *)

Section replacer.
Context (f : ascii → list ascii).

Definition expand (l : list ascii) : list ascii := concat (f <$> l).

Lemma expand_app l l' : expand (l ++ l') = expand l ++ expand l'.
Proof. unfold expand. by rewrite fmap_app, concat_app. Qed.

(** A cut falls between two replacements or inside one. *)
Lemma expand_cut l n :
  (n <= length (expand l))%nat →
  (∃ m, (m <= length l)%nat ∧ take n (expand l) = expand (take m l) ∧ drop n (expand l) = expand (drop m l))
  ∨ ∃ m c q r, l !! m = Some c ∧ f c = q ++ r ∧ q ≠ [] ∧ r ≠ []
      ∧ take n (expand l) = expand (take m l) ++ q ∧ drop n (expand l) = r ++ expand (drop (S m) l).
Proof.
  revert n. induction l as [|c l IH]; intros n Hn.
  { left. exists 0%nat. by destruct n. }
  change (expand (c :: l)) with (f c ++ expand l) in *.
  destruct (decide (n < length (f c))%nat) as [Hlt|Hge].
  - destruct n as [|n]; [left; exists 0%nat; rewrite take_0, drop_0; split_and!; [lia|done..]|].
    right. exists 0%nat, c, (take (S n) (f c)), (drop (S n) (f c)). rewrite take_app_le, drop_app_le by lia.
    split_and!; [done|by rewrite take_drop| | |done|done].
    + destruct (f c); [simpl in Hlt; lia|done].
    + intros E. apply (f_equal length) in E. rewrite length_drop in E. simpl in E. lia.
  - rewrite length_app in Hn. destruct (IH (n - length (f c))%nat ltac:(lia)) as [(m & Hm & Ht & Hd)|(m & d & q & r & Hm & Hf & Hq & Hr & Ht & Hd)].
    + left. exists (S m). rewrite take_app_ge, drop_app_ge by lia. rewrite Ht, Hd. split; [cbn [length]; lia|done].
    + right. exists (S m), d, q, r. rewrite take_app_ge, drop_app_ge by lia. rewrite Ht, Hd.
      split_and!; try done. cbn [take]. change (expand (c :: take m l)) with (f c ++ expand (take m l)). by rewrite app_assoc.
Qed.
End replacer.

(** ** Lengths of joined texts and of numerals *)

Lemma slen_app s t : slen (s +:+ t) = slen s + slen t.
Proof. unfold slen. rewrite string_app_length. lia. Qed.

Lemma slen_nonneg s : 0 <= slen s.
Proof. unfold slen. lia. Qed.

Lemma Join_snoc l x sep : Join (l ++ [x]) sep = Join l sep +:+ (match l with [] => "" | _ => sep end) +:+ x.
Proof.
  induction l as [|y l IH]; [done|]. cbn [app]. rewrite (Join_cons y (l ++ [x])), (Join_cons y l), IH.
  destruct l as [|z l]; cbn [app]; rewrite !string_app_assoc; [done|]. by rewrite <- !string_app_assoc.
Qed.

Lemma Join_nonempty l sep : l ≠ [] → (∀ x, x ∈ l → x ≠ "") → 0 < slen (Join l sep).
Proof.
  destruct l as [|x l]; [done|]. intros _ Hx. rewrite Join_cons, slen_app. pose proof (slen_nonneg (match l with [] => "" | _ => sep +:+ Join l sep end)).
  specialize (Hx x ltac:(left)). destruct x; [done|]. unfold slen at 1. simpl. lia.
Qed.

Lemma pretty_go_mono a b s t :
  (a <= b)%N → (String.length s <= String.length t)%nat → (String.length (pretty_N_go a s) <= String.length (pretty_N_go b t))%nat.
Proof.
  revert a s t. induction (N.lt_wf_0 b) as [b _ IH]; intros a s t Hab Hst.
  destruct (decide (0 < a)%N) as [Ha|Ha].
  - rewrite (pretty_N_go_step a), (pretty_N_go_step b) by lia. apply IH; [apply N.div_lt; lia|by apply N.Div0.div_le_mono|simpl; lia].
  - assert (a = 0%N) as -> by lia. rewrite pretty_N_go_0. clear Hab Ha. revert s t Hst. clear IH.
    induction (N.lt_wf_0 b) as [b _ IH]; intros s t Hst. destruct (decide (0 < b)%N) as [Hb|Hb].
    + rewrite pretty_N_go_step by done. apply IH; [by apply N.div_lt|simpl; lia].
    + assert (b = 0%N) as -> by lia. by rewrite pretty_N_go_0.
Qed.

(** A smaller number has no longer numeral. *)
Lemma Itoa_mono a b : 0 <= a <= b → slen (Itoa a) <= slen (Itoa b).
Proof.
  intros Hab. unfold slen, Itoa. apply inj_le.
  assert (Hp : ∀ n, pretty (Z.of_N n) = pretty_N n) by (by intros []).
  rewrite <- (Z2N.id a), <- (Z2N.id b) by lia. rewrite !Hp. unfold pretty_N.
  assert (Hle : (Z.to_N a <= Z.to_N b)%N) by lia.
  destruct (decide (Z.to_N a = 0%N)) as [Ha|Ha].
  - destruct (decide (Z.to_N b = 0%N)) as [Hb|Hb]; [done|]. destruct (pretty_go_digit (Z.to_N b) "") as (c & r & -> & _); [lia|]. simpl. lia.
  - rewrite decide_False by lia. by apply pretty_go_mono.
Qed.
