(* ===== verification/Metrics.v ===== *)
(** * internal/metrics/metrics.go: the exported collectors

    The collectors promauto registers at startup, and the samples the code records with them.
    Registering is client_golang's: what it demands of a collector is stated as [registrable],
    and of a sample as [well_labelled]; both panic otherwise. Help texts are left out, and a
    bucket bound is in milliseconds. *)
From S2P Require Import Prelude GoStd.

Inductive collector_kind := Counter | Gauge | Histogram (buckets_ms : list Z).

Record collector := MkCollector {
  co_Name : string;
  co_kind : collector_kind;
  co_labels : list string;
}.
#[global] Instance collector_kind_eq_dec : EqDecision collector_kind.
Proof. solve_decision. Defined.
#[global] Instance collector_eq_dec : EqDecision collector.
Proof. solve_decision. Defined.

(** [prometheus.DefBuckets], which a histogram without buckets of its own gets. *)
Definition DefBuckets : list Z := [5; 10; 25; 50; 100; 250; 500; 1000; 2500; 5000; 10000].

(** ** The reasons of [AlertsSuppressed] *)

Definition SuppressGrouped : string := "grouped".
Definition SuppressForeignShard : string := "foreign_shard".
Definition SuppressMuted : string := "muted".
Definition SuppressStartup : string := "startup".
Definition SuppressSilenced : string := "silenced".
Definition SuppressMaintenance : string := "maintenance".
Definition SuppressInhibited : string := "inhibited".
Definition SuppressCircuitOpen : string := "circuit_open".
Definition SuppressRateLimited : string := "ratelimited".

Definition suppress_reasons : list string :=
  [SuppressGrouped; SuppressForeignShard; SuppressMuted; SuppressStartup; SuppressSilenced; SuppressMaintenance;
   SuppressInhibited; SuppressCircuitOpen; SuppressRateLimited].

(** ** The collectors *)

Definition AlertsTotal := MkCollector "alertkube_alerts_total" Counter ["kind"; "severity"; "reason"].
Definition AlertsSuppressed := MkCollector "alertkube_alerts_suppressed_total" Counter ["reason"].
Definition SinkSendDuration := MkCollector "alertkube_sink_send_seconds" (Histogram DefBuckets) ["sink"; "result"].
Definition SinkErrors := MkCollector "alertkube_sink_errors_total" Counter ["sink"].
Definition ActiveAlerts := MkCollector "alertkube_active_alerts" Gauge [].
Definition DispatchInflight := MkCollector "alertkube_dispatch_inflight" Gauge ["sink"].
Definition EscalationsTotal := MkCollector "alertkube_escalations_total" Counter [].
Definition EnrichmentSaturated := MkCollector "alertkube_enrichment_saturated_total" Counter [].
Definition ReceivedAlerts := MkCollector "alertkube_received_alerts_total" Counter ["status"].
Definition CloudPollTruncated := MkCollector "alertkube_cloud_poll_truncated_total" Counter ["source"].
Definition CloudPollErrors := MkCollector "alertkube_cloud_poll_errors_total" Counter ["source"].
Definition RuntimeMutations := MkCollector "alertkube_runtime_mutations_total" Counter ["action"].
Definition StateSnapshotBytes := MkCollector "alertkube_state_snapshot_bytes" Gauge [].
Definition StateSaveSkipped := MkCollector "alertkube_state_save_skipped_total" Counter [].
Definition AlertsDropped := MkCollector "alertkube_alerts_dropped_total" Counter [].
Definition SinkBreakerOpen := MkCollector "alertkube_sink_breaker_open" Gauge ["sink"].
Definition DispatchQueueDepth := MkCollector "alertkube_dispatch_queue_depth" Gauge [].
Definition DispatchEnqueueBlocked :=
  MkCollector "alertkube_dispatch_enqueue_blocked_seconds" (Histogram [1; 10; 100; 500; 1000; 2000; 5000; 10000; 30000]) [].
Definition DispatchQueueFull := MkCollector "alertkube_dispatch_queue_full_total" Counter [].
Definition DispatchDropped := MkCollector "alertkube_dispatch_dropped_total" Counter [].
Definition OutboxReplayForeign := MkCollector "alertkube_outbox_replay_foreign_total" Counter [].
Definition OutboxPending := MkCollector "alertkube_outbox_pending" Gauge [].
Definition DeadLetterTotal := MkCollector "alertkube_dead_letter_total" Counter [].
Definition DispatchResolveRetries := MkCollector "alertkube_dispatch_resolve_retries_total" Counter [].
Definition SinkNoop := MkCollector "alertkube_sink_noop_total" Counter ["sink"].

(** In the order of their registration. *)
Definition collectors : list collector :=
  [AlertsTotal; AlertsSuppressed; SinkSendDuration; SinkErrors; ActiveAlerts; DispatchInflight; EscalationsTotal;
   EnrichmentSaturated; ReceivedAlerts; CloudPollTruncated; CloudPollErrors; RuntimeMutations; StateSnapshotBytes;
   StateSaveSkipped; AlertsDropped; SinkBreakerOpen; DispatchQueueDepth; DispatchEnqueueBlocked; DispatchQueueFull;
   DispatchDropped; OutboxReplayForeign; OutboxPending; DeadLetterTotal; DispatchResolveRetries; SinkNoop].

(** ** What client_golang demands *)

Definition name_char (first : bool) (c : ascii) : bool :=
  let n := byte_of c in
  ((97 <=? n) && (n <=? 122)) || ((65 <=? n) && (n <=? 90)) || (n =? 95) || (negb first && (48 <=? n) && (n <=? 57)).

(** A name of letters, digits and underscores that does not begin with a digit. *)
Definition valid_name (s : string) : bool :=
  match chars s with
  | [] => false
  | c :: cs => name_char true c && forallb (name_char false) cs
  end.

Fixpoint ascending (l : list Z) : bool :=
  match l with
  | x :: ((y :: _) as l') => (x <? y) && ascending l'
  | _ => true
  end.

Definition registrable (c : collector) : bool :=
  valid_name c.(co_Name) && forallb (λ l, valid_name l && negb (HasPrefix l "__")) c.(co_labels)
  && bool_decide (NoDup c.(co_labels))
  && match c.(co_kind) with Histogram buckets => ascending buckets && negb (bool_decide ("le" ∈ c.(co_labels))) | _ => true end.

(** The names of the series a collector exports. *)
Definition series (c : collector) : list string :=
  match c.(co_kind) with
  | Histogram _ => [c.(co_Name); c.(co_Name) +:+ "_bucket"; c.(co_Name) +:+ "_sum"; c.(co_Name) +:+ "_count"]
  | _ => [c.(co_Name)]
  end.

(** A sample: a counter incremented, a gauge set or moved, a histogram's observation (in
    nanoseconds). *)
Inductive sample :=
  | Incd (c : collector) (labels : list string)
  | Gauged (c : collector) (labels : list string) (v : Z)
  | Added (c : collector) (labels : list string) (v : Z)
  | Observed (c : collector) (labels : list string) (v : duration).
#[global] Instance sample_eq_dec : EqDecision sample.
Proof. solve_decision. Defined.

Definition is_histogram (k : collector_kind) : bool := match k with Histogram _ => true | _ => false end.

Definition well_labelled (s : sample) : bool :=
  match s with
  | Incd c labels => bool_decide (c ∈ collectors) && bool_decide (c.(co_kind) = Counter)
                     && (length labels =? length c.(co_labels))%nat
  | Gauged c labels _ | Added c labels _ =>
    bool_decide (c ∈ collectors) && bool_decide (c.(co_kind) = Gauge) && (length labels =? length c.(co_labels))%nat
  | Observed c labels _ =>
    bool_decide (c ∈ collectors) && is_histogram c.(co_kind) && (length labels =? length c.(co_labels))%nat
  end.

(** The process registers all its collectors without a panic: every one is valid and no two
    export a series of the same name; all are alertkube's and the counters end in _total. *)
Lemma collectors_register :
  forallb registrable collectors = true
  ∧ NoDup (collectors ≫= series)
  ∧ (∀ c, c ∈ collectors → HasPrefix c.(co_Name) "alertkube_" = true)
  ∧ (∀ c, c ∈ collectors → c.(co_kind) = Counter ↔ HasSuffix c.(co_Name) "_total" = true).
Proof.
  split; [by vm_compute|]. split.
  { assert (E : bool_decide (NoDup (collectors ≫= series)) = true) by (vm_compute; reflexivity).
    by apply bool_decide_eq_true in E. }
  assert (Hall : forallb (λ c, HasPrefix c.(co_Name) "alertkube_"
    && Bool.eqb (bool_decide (c.(co_kind) = Counter)) (HasSuffix c.(co_Name) "_total")) collectors = true) by (by vm_compute).
  rewrite List.forallb_forall in Hall. split; intros c Hc%list_elem_of_In%Hall; apply andb_true_iff in Hc as [Hp Hk]; [done|].
  apply Bool.eqb_prop in Hk. rewrite <- Hk. symmetry. apply bool_decide_eq_true.
Qed.
