(* ===== verification/AlertModel.v ===== *)
(** * internal/alert: the alert value, its identity and its matchers

    Models internal/alert/alert.go and correlation.go: severities, kinds, the [Alert]
    record with its copies, the fingerprint, field lookup, the matcher language with its
    compiled-pattern cache, and the group key. *)
From S2P Require Import Prelude GoStd.

(** ** Severity and Kind

    Both are Go string types: any string can be converted to one. *)
Abbreviation Severity := string (only parsing).
Abbreviation KindT := string (only parsing).

Definition SeverityCritical : Severity := "critical".
Definition SeverityWarning : Severity := "warning".
Definition SeverityInfo : Severity := "info".

Definition Color (s : Severity) : string :=
  if streq s SeverityCritical then "#E01E5A"
  else if streq s SeverityWarning then "#ECB22E"
  else "#4599DF".

Definition ResolvedColorHex : string := "#2EB67D".

Definition Emoji (s : Severity) : string :=
  if streq s SeverityCritical then "🔴"
  else if streq s SeverityWarning then "🟡"
  else "🔵".

Definition Severity_Valid (s : Severity) : bool :=
  streq s SeverityCritical || streq s SeverityWarning || streq s SeverityInfo.

(** [kind(name)]: registers a name, panicking ([None]) on a duplicate. *)
Definition kind (known : gset string) (name : string) : option (gset string) :=
  if decide (name ∈ known) then None else Some ({[name]} ∪ known).

Definition KindPod : KindT := "Pod".
Definition KindNode : KindT := "Node".
Definition KindDeployment : KindT := "Deployment".
Definition KindPVC : KindT := "PersistentVolumeClaim".
Definition KindJob : KindT := "Job".
Definition KindDaemonSet : KindT := "DaemonSet".
Definition KindStatefulSet : KindT := "StatefulSet".
Definition KindCronJob : KindT := "CronJob".
Definition KindHPA : KindT := "HorizontalPodAutoscaler".
Definition KindEKSCluster : KindT := "EKSCluster".
Definition KindCloudWatchAlarm : KindT := "CloudWatchAlarm".
Definition KindEC2Instance : KindT := "EC2Instance".
Definition KindLoadBalancer : KindT := "LoadBalancer".
Definition KindTargetGroup : KindT := "TargetGroup".
Definition KindRDSInstance : KindT := "RDSInstance".
Definition KindDynamoDBTable : KindT := "DynamoDBTable".
Definition KindElastiCacheCluster : KindT := "ElastiCacheCluster".
Definition KindS3Bucket : KindT := "S3Bucket".
Definition KindCloudTrailEvent : KindT := "CloudTrailEvent".
Definition KindAKSCluster : KindT := "AKSCluster".
Definition KindGKECluster : KindT := "GKECluster".
Definition KindAzureMonitorAlert : KindT := "AzureMonitorAlert".
Definition KindGCPAlertPolicy : KindT := "GCPAlertPolicy".
Definition KindEKSNodegroup : KindT := "EKSNodegroup".
Definition KindAKSNodePool : KindT := "AKSNodePool".
Definition KindGKENodePool : KindT := "GKENodePool".
Definition KindAzureVM : KindT := "AzureVM".
Definition KindGCEInstance : KindT := "GCEInstance".
Definition KindCloudSQLInstance : KindT := "CloudSQLInstance".
Definition KindKMSKey : KindT := "KMSKey".
Definition KindEBSVolume : KindT := "EBSVolume".
Definition KindAuroraCluster : KindT := "AuroraCluster".
Definition KindNATGateway : KindT := "NATGateway".
Definition KindEFSFileSystem : KindT := "EFSFileSystem".
Definition KindRoute53HealthCheck : KindT := "Route53HealthCheck".
Definition KindACMCertificate : KindT := "ACMCertificate".
Definition KindVPNConnection : KindT := "VPNConnection".
Definition KindAzureSQLDatabase : KindT := "AzureSQLDatabase".
Definition KindASG : KindT := "AutoScalingGroup".
Definition KindAzureStorage : KindT := "AzureStorageAccount".
Definition KindAzureRedis : KindT := "AzureRedisCache".
Definition KindDerived : KindT := "Derived".
Definition KindExternal : KindT := "External".

(** The package-level [var] block, in declaration order. *)
Definition kind_declarations : list string :=
  [KindPod; KindNode; KindDeployment; "ReplicaSet"; KindPVC; KindJob; KindDaemonSet;
   KindStatefulSet; KindCronJob; KindHPA; "Service"; "EKSCluster"; "CloudWatchAlarm";
   "EC2Instance"; "LoadBalancer"; "TargetGroup"; "RDSInstance"; "DynamoDBTable";
   "ElastiCacheCluster"; "S3Bucket"; "CloudTrailEvent"; "AKSCluster"; "GKECluster";
   "AzureMonitorAlert"; "GCPAlertPolicy"; "EKSNodegroup"; "AKSNodePool"; "GKENodePool";
   "AzureVM"; "GCEInstance"; "CloudSQLInstance"; "AutoScalingGroup"; "KMSKey";
   "AzureStorageAccount"; "EBSVolume"; "AuroraCluster"; "NATGateway"; "EFSFileSystem";
   "Route53HealthCheck"; "ACMCertificate"; "VPNConnection"; "AzureSQLDatabase";
   "AzureRedisCache"; KindDerived; KindExternal].

(** Package initialization: [None] is an init-time panic. *)
Fixpoint init_kinds (known : gset string) (names : list string) : option (gset string) :=
  match names with
  | [] => Some known
  | n :: names => known ← kind known n; init_kinds known names
  end.

Definition knownKinds : gset string := default ∅ (init_kinds ∅ kind_declarations).

Definition Kind_valid (k : KindT) : bool := bool_decide (k ∈ knownKinds).

Definition AnnotationSilenceUntil : string := "alert-silence-until".
Definition AnnotationSlackChannel : string := "alert-slack-channel".
Definition AnnotationRunbookURL : string := "runbook-url".

(** ** Correlation *)

Record Ref := MkRef { r_Kind : string; r_Namespace : string; r_Name : string; r_Alerting : bool }.

(** [Confidence] is carried as the bit pattern of its float64. *)
Record Correlation := MkCorrelation {
  c_GroupID : string;
  c_Role : string;
  c_RootFP : string;
  c_Reason : string;
  c_Confidence : Z;
  c_BlastRadius : list Ref;
}.

(** ** Alert *)

Record Alert := MkAlert {
  a_Fingerprint : string;
  a_Kind : KindT;
  a_Namespace : string;
  a_Name : string;
  a_NodeName : string;
  a_Severity : Severity;
  a_Reason : string;
  a_Summary : string;
  a_Cluster : string;
  a_Details : gmap string string;
  a_Labels : gmap string string;
  a_Annotations : gmap string string;
  a_StartsAt : time;
  a_EndsAt : time;
  a_Resolved : bool;
  a_Event : bool;
  a_Correlation : option Correlation;
}.

(** The composite literal [alert.Alert{}]. *)
Definition zero_alert : Alert :=
  MkAlert "" "" "" "" "" "" "" "" "" ∅ ∅ ∅ 0 0 false false None.

#[global] Instance Ref_eq_dec : EqDecision Ref.
Proof. solve_decision. Defined.
#[global] Instance Correlation_eq_dec : EqDecision Correlation.
Proof. solve_decision. Defined.
#[global] Instance Alert_eq_dec : EqDecision Alert.
Proof. solve_decision. Defined.

(** Field assignments [a.F = v]. *)
Definition with_Fingerprint v a := MkAlert v a.(a_Kind) a.(a_Namespace) a.(a_Name) a.(a_NodeName) a.(a_Severity) a.(a_Reason) a.(a_Summary) a.(a_Cluster) a.(a_Details) a.(a_Labels) a.(a_Annotations) a.(a_StartsAt) a.(a_EndsAt) a.(a_Resolved) a.(a_Event) a.(a_Correlation).
Definition with_NodeName v a := MkAlert a.(a_Fingerprint) a.(a_Kind) a.(a_Namespace) a.(a_Name) v a.(a_Severity) a.(a_Reason) a.(a_Summary) a.(a_Cluster) a.(a_Details) a.(a_Labels) a.(a_Annotations) a.(a_StartsAt) a.(a_EndsAt) a.(a_Resolved) a.(a_Event) a.(a_Correlation).
Definition with_Severity v a := MkAlert a.(a_Fingerprint) a.(a_Kind) a.(a_Namespace) a.(a_Name) a.(a_NodeName) v a.(a_Reason) a.(a_Summary) a.(a_Cluster) a.(a_Details) a.(a_Labels) a.(a_Annotations) a.(a_StartsAt) a.(a_EndsAt) a.(a_Resolved) a.(a_Event) a.(a_Correlation).
Definition with_Summary v a := MkAlert a.(a_Fingerprint) a.(a_Kind) a.(a_Namespace) a.(a_Name) a.(a_NodeName) a.(a_Severity) a.(a_Reason) v a.(a_Cluster) a.(a_Details) a.(a_Labels) a.(a_Annotations) a.(a_StartsAt) a.(a_EndsAt) a.(a_Resolved) a.(a_Event) a.(a_Correlation).
Definition with_Cluster v a := MkAlert a.(a_Fingerprint) a.(a_Kind) a.(a_Namespace) a.(a_Name) a.(a_NodeName) a.(a_Severity) a.(a_Reason) a.(a_Summary) v a.(a_Details) a.(a_Labels) a.(a_Annotations) a.(a_StartsAt) a.(a_EndsAt) a.(a_Resolved) a.(a_Event) a.(a_Correlation).
Definition with_Details v a := MkAlert a.(a_Fingerprint) a.(a_Kind) a.(a_Namespace) a.(a_Name) a.(a_NodeName) a.(a_Severity) a.(a_Reason) a.(a_Summary) a.(a_Cluster) v a.(a_Labels) a.(a_Annotations) a.(a_StartsAt) a.(a_EndsAt) a.(a_Resolved) a.(a_Event) a.(a_Correlation).
Definition with_Labels v a := MkAlert a.(a_Fingerprint) a.(a_Kind) a.(a_Namespace) a.(a_Name) a.(a_NodeName) a.(a_Severity) a.(a_Reason) a.(a_Summary) a.(a_Cluster) a.(a_Details) v a.(a_Annotations) a.(a_StartsAt) a.(a_EndsAt) a.(a_Resolved) a.(a_Event) a.(a_Correlation).
Definition with_Annotations v a := MkAlert a.(a_Fingerprint) a.(a_Kind) a.(a_Namespace) a.(a_Name) a.(a_NodeName) a.(a_Severity) a.(a_Reason) a.(a_Summary) a.(a_Cluster) a.(a_Details) a.(a_Labels) v a.(a_StartsAt) a.(a_EndsAt) a.(a_Resolved) a.(a_Event) a.(a_Correlation).
Definition with_StartsAt v a := MkAlert a.(a_Fingerprint) a.(a_Kind) a.(a_Namespace) a.(a_Name) a.(a_NodeName) a.(a_Severity) a.(a_Reason) a.(a_Summary) a.(a_Cluster) a.(a_Details) a.(a_Labels) a.(a_Annotations) v a.(a_EndsAt) a.(a_Resolved) a.(a_Event) a.(a_Correlation).
Definition with_EndsAt v a := MkAlert a.(a_Fingerprint) a.(a_Kind) a.(a_Namespace) a.(a_Name) a.(a_NodeName) a.(a_Severity) a.(a_Reason) a.(a_Summary) a.(a_Cluster) a.(a_Details) a.(a_Labels) a.(a_Annotations) a.(a_StartsAt) v a.(a_Resolved) a.(a_Event) a.(a_Correlation).
Definition with_Resolved v a := MkAlert a.(a_Fingerprint) a.(a_Kind) a.(a_Namespace) a.(a_Name) a.(a_NodeName) a.(a_Severity) a.(a_Reason) a.(a_Summary) a.(a_Cluster) a.(a_Details) a.(a_Labels) a.(a_Annotations) a.(a_StartsAt) a.(a_EndsAt) v a.(a_Event) a.(a_Correlation).
Definition with_Event v a := MkAlert a.(a_Fingerprint) a.(a_Kind) a.(a_Namespace) a.(a_Name) a.(a_NodeName) a.(a_Severity) a.(a_Reason) a.(a_Summary) a.(a_Cluster) a.(a_Details) a.(a_Labels) a.(a_Annotations) a.(a_StartsAt) a.(a_EndsAt) a.(a_Resolved) v a.(a_Correlation).
Definition with_Correlation v a := MkAlert a.(a_Fingerprint) a.(a_Kind) a.(a_Namespace) a.(a_Name) a.(a_NodeName) a.(a_Severity) a.(a_Reason) a.(a_Summary) a.(a_Cluster) a.(a_Details) a.(a_Labels) a.(a_Annotations) a.(a_StartsAt) a.(a_EndsAt) a.(a_Resolved) a.(a_Event) v.

(** [Clone]: a value-equal copy. Values of the model are immutable, so the deep copy that
    severs the maps' sharing in Go is the identity here; [CloneWithoutDetails] is not. *)
Definition Clone (a : Alert) : Alert := a.
Definition CloneWithoutDetails (a : Alert) : Alert := Clone (with_Details ∅ a).

(** ** Identity *)

Definition fingerprintLen : nat := 16.

(** The hashed bytes: each field behind its 4-byte big-endian length. *)
Definition fingerprint_preimage (kind ns name reason : string) : list Z :=
  concat ((λ field, PutUint32 (slen field) ++ bytes field) <$> [kind; ns; name; reason]).

Definition ComputeFingerprint (kind ns name reason : string) : string :=
  slice_to (EncodeToString (sha256 (fingerprint_preimage kind ns name reason))) fingerprintLen.

(** [New]: [now] is the clock reading of [StartsAt]. *)
Definition New (now : time) (kind ns name reason : string) (sev : Severity) : Alert :=
  MkAlert (ComputeFingerprint kind ns name reason) kind ns name "" sev reason "" "" ∅ ∅ ∅
    now 0 false false None.

(** ** Field lookup *)

Definition fieldKeys : list string := ["severity"; "kind"; "namespace"; "node"; "reason"; "name"].
Definition IsFieldKey (key : string) : bool := existsb (streq key) fieldKeys.

Definition FieldValue (a : Alert) (key : string) : string :=
  if streq key "severity" then a.(a_Severity)
  else if streq key "kind" then a.(a_Kind)
  else if streq key "namespace" then a.(a_Namespace)
  else if streq key "node" then a.(a_NodeName)
  else if streq key "reason" then a.(a_Reason)
  else if streq key "name" then a.(a_Name)
  else default "" (a.(a_Labels) !! key).

Definition IsPatternKey (key : string) : bool := streq key "namespace" || streq key "reason".

(** ** Matchers *)

Section matchers.
Context `{RegexpLib}.

(** The text [CompilePattern] compiles. *)
Definition anchored (pattern : string) : string :=
let p := if HasPrefix pattern "^" then pattern else "^" +:+ pattern in
if HasSuffix p "$" then p else p +:+ "$".

Definition CompilePattern (pattern : string) : option Regexp := regexp_Compile (anchored pattern).

Definition regexCacheMax : nat := 4096.

(** Compiled patterns; [None] is the nil sentinel of an invalid one. *)
Abbreviation regexCache := (gmap string (option Regexp)) (only parsing).

Definition cacheRegex (cache : regexCache) (pattern : string) (re : option Regexp) : regexCache :=
if bool_decide (cache !! pattern = None) && (regexCacheMax <=? size cache)%nat then cache
else <[pattern := re]> cache.

Definition matchOrRegex (cache : regexCache) (s pattern : string) : bool * regexCache :=
if streq s pattern then (true, cache)
else match cache !! pattern with
     | Some re => (match re with Some re => MatchString re s | None => false end, cache)
     | None =>
       match CompilePattern pattern with
       | None => (false, cacheRegex cache pattern None)
       | Some re => (MatchString re s, cacheRegex cache pattern (Some re))
       end
     end.

(** The loop of [MatchLabels] over the matchers in iteration order, returning at the first
  mismatch. *)
Fixpoint match_labels_loop (cache : regexCache) (a : Alert) (want : list (string * string))
: bool * regexCache :=
match want with
| [] => (true, cache)
| (k, v) :: want =>
  let got := FieldValue a k in
  if IsPatternKey k then
    match matchOrRegex cache got v with
    | (true, cache) => match_labels_loop cache a want
    | (false, cache) => (false, cache)
    end
  else if streq got v then match_labels_loop cache a want
  else (false, cache)
end.

Definition MatchLabels_cached `{MapRange} (cache : regexCache) (a : Alert) (want : gmap string string)
: bool * regexCache :=
match_labels_loop cache a (range want).

(** The same decision without the cache and without an order: what the rest of the
  development uses, justified by [MatchLabels_cached_correct]. *)
Definition match_value (s pattern : string) : bool :=
streq s pattern || match CompilePattern pattern with Some re => MatchString re s | None => false end.

Definition match_one (a : Alert) (kv : string * string) : bool :=
if IsPatternKey kv.1 then match_value (FieldValue a kv.1) kv.2
else streq (FieldValue a kv.1) kv.2.

Definition MatchLabels (a : Alert) (want : gmap string string) : bool :=
forallb (match_one a) (map_to_list want).

(** Every entry is what compiling its key gives, and the cap holds. *)
Definition cache_ok (cache : regexCache) : Prop :=
(∀ p re, cache !! p = Some re → CompilePattern p = re) ∧ (size cache <= regexCacheMax)%nat.

End matchers.

(** ** Group key *)

(** [fields.Set] for each key in turn. *)
Definition group_fields (a : Alert) (by_ : list string) : gmap string string :=
  fold_left (λ fields k, <[k := FieldValue a k]> fields) by_ ∅.

Definition GroupKey (a : Alert) (by_ : list string) : string := Encode (group_fields a by_).

(** * Theorems *)

Lemma kinds_init_no_panic :
  match init_kinds ∅ kind_declarations with Some _ => true | None => false end = true.
Proof. vm_compute. reflexivity. Qed.

Lemma IsPatternKey_field k : IsPatternKey k = true → IsFieldKey k = true.
Proof. unfold IsPatternKey. intros [E|E]%orb_true_iff; apply streq_true in E; by subst. Qed.

(** A label key is looked up in the labels, a missing label reading as [""]. *)
Lemma FieldValue_label a k :
  IsFieldKey k = false → FieldValue a k = default "" (a.(a_Labels) !! k).
Proof.
  unfold IsFieldKey, fieldKeys, FieldValue. simpl. intros Hk. bool_hyps.
  repeat match goal with E : streq _ _ = false |- _ => rewrite E; clear E end. done.
Qed.

Section matcher_theorems.
Context `{RegexpLib}.

Lemma cacheRegex_ok cache p :
  cache_ok cache → cache_ok (cacheRegex cache p (CompilePattern p)).
Proof.
  intros [Hc Hs]. unfold cacheRegex.
  destruct (bool_decide (cache !! p = None) && (regexCacheMax <=? size cache)%nat) eqn:E; [done|].
  split.
  - intros q re Hq. destruct (decide (p = q)) as [->|]; simplify_map_eq; [done|by apply Hc].
  - apply andb_false_iff in E as [E|E].
    + apply bool_decide_eq_false in E. rewrite map_size_insert_Some; [done|by apply not_eq_None_Some].
    + apply Nat.leb_gt in E. pose proof (map_size_insert p (CompilePattern p) cache) as Hi.
      rewrite Hi. destruct (cache !! p); simpl; lia.
Qed.

Lemma matchOrRegex_correct cache s p :
  cache_ok cache →
  (matchOrRegex cache s p).1 = match_value s p ∧ cache_ok (matchOrRegex cache s p).2.
Proof.
  intros Hc. unfold matchOrRegex, match_value. destruct (streq s p); [done|].
  destruct (cache !! p) as [re|] eqn:E; simpl.
  - rewrite (proj1 Hc p re E). by destruct re.
  - pose proof (cacheRegex_ok cache p Hc) as Hok.
    by destruct (CompilePattern p).
Qed.

Lemma match_labels_loop_correct a want cache :
  cache_ok cache →
  (match_labels_loop cache a want).1 = forallb (match_one a) want
  ∧ cache_ok (match_labels_loop cache a want).2.
Proof.
  revert cache. induction want as [|[k v] want IH]; intros cache Hc; simpl; [done|].
  unfold match_one at 1. simpl. destruct (IsPatternKey k).
  - destruct (matchOrRegex_correct cache (FieldValue a k) v Hc) as [E Hok].
    destruct (matchOrRegex cache (FieldValue a k) v) as [[] c]; simpl in *; rewrite <- E; [by apply IH|done].
  - destruct (streq (FieldValue a k) v); simpl; [by apply IH|done].
Qed.

Lemma MatchLabels_range `{MapRange} a want :
  forallb (match_one a) (range want) = MatchLabels a want.
Proof. apply forallb_Permutation, range_perm. Qed.

Lemma MatchLabels_spec a want :
  MatchLabels a want = true ↔ ∀ k v, want !! k = Some v → match_one a (k, v) = true.
Proof.
  unfold MatchLabels. rewrite forallb_True. split.
  - intros Hall k v Hk. apply Hall. by apply elem_of_map_to_list.
  - intros Hall [k v] Hk%elem_of_map_to_list. by apply Hall.
Qed.

Lemma MatchLabels_empty a : MatchLabels a ∅ = true.
Proof. apply MatchLabels_spec. intros k v. by rewrite lookup_empty. Qed.

(** The memoized matcher decides exactly what compiling every pattern afresh decides, in
    whatever order the matcher map is iterated, and keeps its cache sound and within
    [regexCacheMax] entries. *)
Theorem MatchLabels_cached_correct `{MapRange} cache a want :
  cache_ok cache →
  (MatchLabels_cached cache a want).1 = MatchLabels a want
  ∧ cache_ok (MatchLabels_cached cache a want).2.
Proof.
  intros Hc. unfold MatchLabels_cached. rewrite <- (MatchLabels_range a want).
  by apply match_labels_loop_correct.
Qed.

End matcher_theorems.

(** ** Fingerprints *)

Lemma length_prefixed_inj f g r s :
  slen f < 2 ^ 32 → slen g < 2 ^ 32 →
  PutUint32 (slen f) ++ bytes f ++ r = PutUint32 (slen g) ++ bytes g ++ s → f = g ∧ r = s.
Proof.
  unfold slen. intros Hf Hg E.
  apply app_inj_1 in E as [El E]; [|done].
  apply PutUint32_inj in El; [|lia ..].
  apply app_inj_1 in E as [Eb ->]; [|rewrite !bytes_length; lia].
  by apply bytes_inj in Eb.
Qed.

Lemma ComputeFingerprint_length kind ns name reason :
  (String.length (ComputeFingerprint kind ns name reason) <= fingerprintLen)%nat.
Proof.
  unfold ComputeFingerprint, slice_to. rewrite <- chars_length, chars_of_chars, length_take. lia.
Qed.

(** Distinct identity tuples hash distinct bytes: no rearrangement of characters between
    kind, namespace, name and reason gives the same preimage, as long as no field reaches the
    4 GiB the length prefix can hold. *)
Theorem fingerprint_preimage_inj k ns n r k' ns' n' r' :
  Forall (λ f, slen f < 2 ^ 32) [k; ns; n; r; k'; ns'; n'; r'] →
  fingerprint_preimage k ns n r = fingerprint_preimage k' ns' n' r' →
  (k, ns, n, r) = (k', ns', n', r').
Proof.
  rewrite !Forall_cons. intros (? & ? & ? & ? & ? & ? & ? & ? & _).
  unfold fingerprint_preimage. rewrite !fmap_cons, fmap_nil. cbn [concat]. rewrite <- !app_assoc.
  intros E. do 4 (apply length_prefixed_inj in E as [-> E]; [|done..]). done.
Qed.

(** ** Group keys *)

Lemma group_fields_lookup_go a by_ (m : gmap string string) k :
  fold_left (λ (fields : gmap string string) k, <[k := FieldValue a k]> fields) by_ m !! k =
  if decide (k ∈ by_) then Some (FieldValue a k) else m !! k.
Proof.
  revert m. induction by_ as [|x by_ IH]; intros m; cbn [fold_left].
  - rewrite decide_False; [done|apply not_elem_of_nil].
  - rewrite IH. destruct (decide (k ∈ by_)) as [Hin|Hin].
    + by rewrite decide_True by (by right).
    + destruct (decide (k = x)) as [->|Hne].
      * rewrite decide_True by left. by simplify_map_eq.
      * rewrite decide_False; [by simplify_map_eq|]. rewrite elem_of_cons. tauto.
Qed.

Lemma group_fields_lookup a by_ k :
  group_fields a by_ !! k = if decide (k ∈ by_) then Some (FieldValue a k) else None.
Proof. unfold group_fields. by rewrite group_fields_lookup_go, lookup_empty. Qed.

Lemma GroupKey_field a b by_ k :
  GroupKey a by_ = GroupKey b by_ → k ∈ by_ → FieldValue a k = FieldValue b k.
Proof.
  unfold GroupKey. intros E Hk. apply Encode_inj in E. apply (f_equal (λ m, m !! k)) in E.
  rewrite !group_fields_lookup, !decide_True in E by done. by simplify_eq.
Qed.

Lemma GroupKey_eq a b by_ by' :
  (∀ k, k ∈ by_ ↔ k ∈ by') → (∀ k, k ∈ by_ → FieldValue a k = FieldValue b k) →
  GroupKey a by_ = GroupKey b by'.
Proof.
  intros Hset Hf. unfold GroupKey. f_equal. apply map_eq. intros k.
  rewrite !group_fields_lookup.
  destruct (decide (k ∈ by_)) as [Hk|Hk]; [|by rewrite decide_False by (by rewrite <- Hset)].
  rewrite decide_True by (by apply Hset). by rewrite Hf.
Qed.

(** Two alerts get the same group key exactly when they agree on every grouping field,
    and the key does not depend on the order or repetition of the fields in the
    configuration. *)
Theorem GroupKey_identity a b by_ by' :
  (∀ k, k ∈ by_ ↔ k ∈ by') →
  GroupKey a by_ = GroupKey b by' ↔ ∀ k, k ∈ by_ → FieldValue a k = FieldValue b k.
Proof.
  intros Hset. split.
  - intros E k Hk. apply (GroupKey_field _ _ by_); [|done].
    rewrite E. symmetry. by apply GroupKey_eq.
  - by apply GroupKey_eq.
Qed.

(** * Concrete instances *)

Definition example_alert : Alert :=
  MkAlert "fp1" KindPod "prod-eu" "web-1" "node-a" SeverityCritical "OOMKilled" "" "" ∅
    {["team" := "infra"]} ∅ 100 0 false false None.

Definition example_matchers : gmap string string :=
  {["namespace" := "prod-.*"; "severity" := "critical"; "team" := "infra"]}.

Lemma cache_ok_empty `{RegexpLib} : cache_ok ∅.
Proof. split; [intros p re Hp; by rewrite lookup_empty in Hp|]. rewrite map_size_empty. lia. Qed.

Lemma MatchLabels_cached_correct_witness :
  (@MatchLabels mini_regexp example_alert example_matchers = true)
  ∧ (@MatchLabels_cached mini_regexp canonical_range ∅ example_alert example_matchers).1
    = @MatchLabels mini_regexp example_alert example_matchers
  ∧ @cache_ok mini_regexp (@MatchLabels_cached mini_regexp canonical_range ∅ example_alert example_matchers).2.
Proof.
  split; [vm_compute; reflexivity|].
  exact (@MatchLabels_cached_correct mini_regexp canonical_range ∅ example_alert example_matchers
           (@cache_ok_empty mini_regexp)).
Defined.

Lemma fingerprint_preimage_inj_witness :
  fingerprint_preimage "Pod" "a" "bc" "r" ≠ fingerprint_preimage "Pod" "ab" "c" "r".
Proof.
  intros E.
  assert (Hlen : Forall (λ f, slen f < 2 ^ 32) ["Pod"; "a"; "bc"; "r"; "Pod"; "ab"; "c"; "r"])
    by (repeat constructor).
  discriminate (fingerprint_preimage_inj "Pod" "a" "bc" "r" "Pod" "ab" "c" "r" Hlen E).
Defined.

Lemma GroupKey_identity_witness :
  GroupKey example_alert ["namespace"; "team"]
  = GroupKey (with_NodeName "node-b" example_alert) ["team"; "namespace"; "team"].
Proof.
  assert (Hset : ∀ k, k ∈ ["namespace"; "team"] ↔ k ∈ ["team"; "namespace"; "team"]) by set_solver.
  apply (GroupKey_identity example_alert (with_NodeName "node-b" example_alert)
           ["namespace"; "team"] ["team"; "namespace"; "team"] Hset).
  intros k Hk. apply elem_of_cons in Hk as [->|Hk]; [reflexivity|].
  apply elem_of_cons in Hk as [->|Hk]; [reflexivity|by apply elem_of_nil in Hk].
Defined.
