(* ===== verification/SilenceStore.v ===== *)
(** * internal/silence: the runtime silence store

    Models internal/silence/silence.go: time-boxed mutes keyed by ID, with the generation
    counter persistence compares. [newID]'s random bytes are an argument of [Add]. *)
From stdpp Require Import sorting.
From S2P Require Import Prelude GoStd.

Record Silence := MkSilence {
  sil_ID : string;
  sil_Matchers : gmap string string;
  sil_Until : time;
  sil_Comment : string;
  sil_CreatedBy : string;
  sil_CreatedAt : time;
}.

(** [active]. *)
Definition silence_active (s : Silence) (now : time) : bool := Before now s.(sil_Until).

Record SilStore := MkSilStore {
  ss_items : gmap string Silence;
  ss_gen : Z;
}.

(** [NewStore]. *)
Definition NewSilStore : SilStore := MkSilStore ∅ 0.

(** [newID]: hex of six random bytes. *)
Definition newID (random : list Z) : string := EncodeToString random.

Definition SilAdd (random : list Z) (now : time) (sil : Silence) (s : SilStore) : Silence * SilStore :=
  let id := if streq sil.(sil_ID) "" then newID random else sil.(sil_ID) in
  let created := if IsZero sil.(sil_CreatedAt) then now else sil.(sil_CreatedAt) in
  let sil := MkSilence id sil.(sil_Matchers) sil.(sil_Until) sil.(sil_Comment) sil.(sil_CreatedBy) created in
  (sil, MkSilStore (<[id := sil]> s.(ss_items)) (incr64 s.(ss_gen))).

Definition SilDelete (id : string) (s : SilStore) : bool * SilStore :=
  match s.(ss_items) !! id with
  | Some _ => (true, MkSilStore (delete id s.(ss_items)) (incr64 s.(ss_gen)))
  | None => (false, s)
  end.

(** Newest first. *)
Definition newer (a b : Silence) : Prop := sil_CreatedAt b <= sil_CreatedAt a.
#[global] Instance newer_dec a b : Decision (newer a b).
Proof. unfold newer. apply _. Defined.

Definition SilList `{MapRange} (s : SilStore) : list Silence :=
  merge_sort newer (range s.(ss_items)).*2.

Definition SilActive `{MapRange} (now : time) (s : SilStore) : list Silence :=
  filter (λ v, silence_active v now = true) (range s.(ss_items)).*2.

Definition PruneExpired (now : time) (s : SilStore) : nat * SilStore :=
  let items := delete_where (λ _ v, negb (silence_active v now)) s.(ss_items) in
  let n := (size s.(ss_items) - size items)%nat in
  (n, MkSilStore items (if (0 <? n)%nat then incr64 s.(ss_gen) else s.(ss_gen))).

Definition SilReplace (items : list Silence) (s : SilStore) : SilStore :=
  MkSilStore
    (fold_left (λ m v, if streq v.(sil_ID) "" then m else <[v.(sil_ID) := v]> m) items ∅)
    (incr64 s.(ss_gen)).

(** Every record sits under its own, nonempty, ID. *)
Definition sil_inv (s : SilStore) : Prop :=
  (∀ id v, s.(ss_items) !! id = Some v → v.(sil_ID) = id ∧ id ≠ "") ∧ 0 <= s.(ss_gen) < 2 ^ 64.

(** * Theorems *)

#[local] Instance newer_total : Total newer.
Proof. intros a b. unfold newer. lia. Qed.

Section silence_theorems.
Context `{MapRange}.
Implicit Types (s : SilStore).

Lemma SilList_elem s v : v ∈ SilList s ↔ ∃ id, s.(ss_items) !! id = Some v.
Proof.
  unfold SilList. rewrite merge_sort_Permutation, list_elem_of_fmap. split.
  - intros ([id w] & -> & Hin). exists id. by apply range_In.
  - intros [id Hid]. exists (id, v). by rewrite range_In.
Qed.

Lemma SilActive_elem now s v :
  v ∈ SilActive now s ↔ (∃ id, s.(ss_items) !! id = Some v) ∧ now < v.(sil_Until).
Proof.
  unfold SilActive, silence_active. rewrite list_elem_of_filter, Before_spec, list_elem_of_fmap.
  split.
  - intros (Hn & [id w] & -> & Hin). split; [|done]. exists id. by apply range_In.
  - intros ([id Hid] & Hn). split; [done|]. exists (id, v). by rewrite range_In.
Qed.

Lemma replace_fold_lookup (items : list Silence) (m : gmap string Silence) id :
  NoDup (sil_ID <$> items) → (∀ v, v ∈ items → v.(sil_ID) ≠ "") →
  fold_left (λ (m : gmap string Silence) v, if streq v.(sil_ID) "" then m else <[v.(sil_ID) := v]> m) items m !! id
  = match list_find (λ v, v.(sil_ID) = id) items with Some (_, v) => Some v | None => m !! id end.
Proof.
  revert m. induction items as [|v items IH]; intros m Hnd Hne; [done|].
  rewrite fmap_cons in Hnd. apply NoDup_cons in Hnd as [Hv Hnd]. cbn [fold_left].
  assert (streq (sil_ID v) "" = false) as -> by (apply streq_false, Hne; left).
  rewrite IH; [|done|intros w Hw; apply Hne; by right]. cbn [list_find].
  destruct (decide (sil_ID v = id)) as [<-|Hid].
  - destruct (list_find (λ w, sil_ID w = sil_ID v) items) as [[i w]|] eqn:E.
    + apply list_find_Some in E as (Hi & Hw & _). destruct Hv.
      rewrite <- Hw. apply list_elem_of_fmap. exists w. split; [done|]. by eapply list_elem_of_lookup_2.
    + by rewrite lookup_insert_eq.
  - destruct (list_find (λ w, sil_ID w = id) items) as [[i w]|] eqn:E; simpl; [done|].
    by rewrite lookup_insert_ne.
Qed.

Lemma SilList_IDs_NoDup s : sil_inv s → NoDup (sil_ID <$> SilList s).
Proof.
  intros [Hid _]. unfold SilList. rewrite merge_sort_Permutation.
  assert (E : sil_ID <$> (range (ss_items s)).*2 = (range (ss_items s)).*1).
  { rewrite <- list_fmap_compose. apply list_fmap_ext. intros i [k v] Hk.
    apply list_elem_of_lookup_2, range_In, Hid in Hk. simpl. tauto. }
  rewrite E. apply range_NoDup_fst.
Qed.

(** Restoring the list a snapshot carries rebuilds the same silence set, whatever order
    the list came out in and whatever the restoring store held before. *)
Theorem SilReplace_List s s0 :
  sil_inv s → (SilReplace (SilList s) s0).(ss_items) = s.(ss_items).
Proof.
  intros Hinv. unfold SilReplace. simpl. apply map_eq. intros id.
  rewrite replace_fold_lookup, lookup_empty; [|by apply SilList_IDs_NoDup|].
  2:{ intros v [k Hk]%SilList_elem E. apply (proj1 Hinv) in Hk as [Hk Hne]. congruence. }
  destruct (list_find _ _) as [[i v]|] eqn:E.
  - apply list_find_Some in E as (Hi & Hv & _).
    apply list_elem_of_lookup_2, SilList_elem in Hi as [k Hk].
    pose proof (proj1 Hinv _ _ Hk) as [Hk' _]. congruence.
  - apply list_find_None in E. destruct (ss_items s !! id) as [v|] eqn:Hv; [|done].
    rewrite Forall_forall in E. destruct (E v); [apply SilList_elem; eauto|].
    by apply (proj1 Hinv) in Hv as [-> _].
Qed.

Lemma Prune_lookup now s id :
  (PruneExpired now s).2.(ss_items) !! id =
  match s.(ss_items) !! id with
  | Some v => if silence_active v now then Some v else None
  | None => None
  end.
Proof.
  simpl. rewrite lookup_delete_where. destruct (ss_items s !! id); [|done].
  by destruct (silence_active _ now).
Qed.

(** Pruning never changes which silences mute from [now] on. *)
Lemma Prune_Active now later s v :
  now <= later → v ∈ SilActive later (PruneExpired now s).2 ↔ v ∈ SilActive later s.
Proof.
  intros Hle. rewrite !SilActive_elem. split; intros ([id Hid] & Hl); split; try done; exists id.
  - rewrite Prune_lookup in Hid. destruct (ss_items s !! id) as [w|]; [|done].
    by destruct (silence_active w now); simplify_eq.
  - rewrite Prune_lookup, Hid. unfold silence_active.
    by rewrite (proj2 (Before_spec now (sil_Until v))) by lia.
Qed.

Lemma SilAdd_inv random now sil s :
  (sil.(sil_ID) = "" → newID random ≠ "") → sil_inv s → sil_inv (SilAdd random now sil s).2.
Proof.
  intros Hr [Hid Hg]. split; [|apply incr64_range]. intros id v. simpl.
  destruct (streq (sil_ID sil) "") eqn:E.
  - apply streq_true in E. intros [[<- <-]|[_ Hv]]%lookup_insert_Some; [auto|by apply Hid].
  - apply streq_false in E. intros [[<- <-]|[_ Hv]]%lookup_insert_Some; [auto|by apply Hid].
Qed.

Lemma SilDelete_inv id s : sil_inv s → sil_inv (SilDelete id s).2.
Proof.
  intros [Hid Hg]. unfold SilDelete. destruct (ss_items s !! id); [|done].
  split; [|apply incr64_range]. simpl. intros k v [_ Hk]%lookup_delete_Some. by apply Hid.
Qed.

Lemma Prune_inv now s : sil_inv s → sil_inv (PruneExpired now s).2.
Proof.
  intros [Hid Hg]. split.
  - intros id v. rewrite Prune_lookup. destruct (ss_items s !! id) as [w|] eqn:E; [|done].
    destruct (silence_active w now); [|done]. intros [= <-]. by apply Hid.
  - simpl. destruct (0 <? _)%nat; [apply incr64_range|done].
Qed.
End silence_theorems.

Definition example_silence : Silence :=
  MkSilence "abc" {["namespace" := "prod"]} 100 "drain" "ops" 5.

Definition example_sil_store : SilStore := MkSilStore {["abc" := example_silence]} 1.

Lemma SilReplace_List_witness :
  sil_inv example_sil_store
  ∧ (SilReplace (SilList example_sil_store) NewSilStore).(ss_items) = example_sil_store.(ss_items).
Proof.
  assert (Hinv : sil_inv example_sil_store).
  { split; [|done]. simpl. intros id v [<- <-]%lookup_singleton_Some. done. }
  split; [exact Hinv|exact (SilReplace_List example_sil_store NewSilStore Hinv)].
Defined.
