(* ===== verification/AlertStore.v ===== *)
(** * internal/alert: the alert store and its snapshots

    Models internal/alert/store.go and snapshot.go. Each operation is one critical section
    of the store's mutex, so it is a function from the state to the result, the next state
    and the callbacks it invokes after unlocking; an execution of the concurrent program is
    a sequence of operations ([op], [apply_op]). [time.Now()] is the argument [now]. *)
From S2P Require Import Prelude GoStd AlertModel SilenceStore.

Definition minHistoryRetention : duration := 10 * Minute.
Definition recentCap : nat := 200.

Record Store := MkStore {
  st_active : gmap string Alert;
  st_lastSent : gmap string time;
  st_muteWindow : duration;
  st_resolveTTL : duration;
  st_onResolved : bool;   (** whether the callback is non-nil *)
  st_onChange : bool;
  st_gen : Z;
  st_recent : list Alert;
  st_escalated : gmap string (gmap string bool);
}.

Inductive Callback :=
  | OnResolved (a : Alert)
  | OnChange (active : nat).

Definition NewStore (muteWindow resolveTTL : duration) (onResolved : bool) : Store :=
  MkStore ∅ ∅ muteWindow resolveTTL onResolved false 0 [] ∅.

Definition SetOnChange (s : Store) : Store :=
  MkStore s.(st_active) s.(st_lastSent) s.(st_muteWindow) s.(st_resolveTTL) s.(st_onResolved)
    true s.(st_gen) s.(st_recent) s.(st_escalated).

(** Field assignments. *)
Definition set_active v s := MkStore v s.(st_lastSent) s.(st_muteWindow) s.(st_resolveTTL) s.(st_onResolved) s.(st_onChange) s.(st_gen) s.(st_recent) s.(st_escalated).
Definition set_lastSent v s := MkStore s.(st_active) v s.(st_muteWindow) s.(st_resolveTTL) s.(st_onResolved) s.(st_onChange) s.(st_gen) s.(st_recent) s.(st_escalated).
Definition set_gen v s := MkStore s.(st_active) s.(st_lastSent) s.(st_muteWindow) s.(st_resolveTTL) s.(st_onResolved) s.(st_onChange) v s.(st_recent) s.(st_escalated).
Definition set_recent v s := MkStore s.(st_active) s.(st_lastSent) s.(st_muteWindow) s.(st_resolveTTL) s.(st_onResolved) s.(st_onChange) s.(st_gen) v s.(st_escalated).
Definition set_escalated v s := MkStore s.(st_active) s.(st_lastSent) s.(st_muteWindow) s.(st_resolveTTL) s.(st_onResolved) s.(st_onChange) s.(st_gen) s.(st_recent) v.

Definition bump (s : Store) : Store := set_gen (incr64 s.(st_gen)) s.

(** [fn(size)] when [fn != nil] and [cond]. *)
Definition changed (s : Store) (cond : bool) : list Callback :=
  if s.(st_onChange) && cond then [OnChange (size s.(st_active))] else [].

Definition mutedLocked (now : time) (fp : string) (s : Store) : bool :=
  match s.(st_lastSent) !! fp with
  | Some last => Sub now last <? s.(st_muteWindow)
  | None => false
  end.

Definition Muted := mutedLocked.

Definition recordRecentLocked (a : Alert) (s : Store) : Store :=
  set_recent (keep_last recentCap (s.(st_recent) ++ [CloneWithoutDetails a])) s.

Definition dropLocked (fp : string) (s : Store) : Store :=
  set_escalated (delete fp s.(st_escalated))
    (set_lastSent (delete fp s.(st_lastSent))
      (set_active (delete fp s.(st_active)) s)).

Definition resolveLocked (fp : string) (cp : Alert) (s : Store) : Store :=
  bump (recordRecentLocked cp (dropLocked fp s)).

(** [ShouldSend]: the decision, the caller's alert with the [StartsAt]/[EndsAt] it is left
    with, the next state and the callbacks. *)
Definition ShouldSend (now : time) (a : Alert) (s : Store) : bool * Alert * Store * list Callback :=
  if mutedLocked now a.(a_Fingerprint) s then (false, a, s, [])
  else
    let s := set_lastSent (<[a.(a_Fingerprint) := now]> s.(st_lastSent)) s in
    let a := match s.(st_active) !! a.(a_Fingerprint) with
             | Some active => with_StartsAt active.(a_StartsAt) a
             | None => a
             end in
    let a := with_EndsAt (Add now s.(st_resolveTTL)) a in
    let s := set_active (<[a.(a_Fingerprint) := Clone a]> s.(st_active)) s in
    let s := bump (recordRecentLocked a s) in
    (true, a, s, changed s true).

Definition ShouldSendEvent (now : time) (a : Alert) (s : Store) : bool * Store :=
  if mutedLocked now a.(a_Fingerprint) s then (false, s)
  else
    let s := set_lastSent (<[a.(a_Fingerprint) := now]> s.(st_lastSent)) s in
    (true, bump (recordRecentLocked a s)).

Definition Seed (now : time) (fp : string) (s : Store) : Store :=
  bump (set_lastSent (<[fp := now]> s.(st_lastSent)) s).

Definition Touch (now : time) (fp : string) (s : Store) : Store :=
  match s.(st_active) !! fp with
  | Some a => bump (set_active (<[fp := with_EndsAt (Add now s.(st_resolveTTL)) a]> s.(st_active)) s)
  | None => s
  end.

Definition Forget (fp : string) (s : Store) : Store * list Callback :=
  let wasActive := bool_decide (is_Some (s.(st_active) !! fp)) in
  let wasMuted := bool_decide (is_Some (s.(st_lastSent) !! fp)) in
  let s := dropLocked fp s in
  let s := if wasActive || wasMuted then bump s else s in
  (s, changed s wasActive).

Definition MarkFailed := Forget.

(** [resolveLocked] on each pair in turn. *)
Definition resolve_all (cps : list (string * Alert)) (s : Store) : Store :=
  fold_left (λ s p, resolveLocked p.1 p.2 s) cps s.

(** After unlocking: the gauge callback, then one [onResolved] per alert. *)
Definition resolve_callbacks (cps : list (string * Alert)) (s : Store) : list Callback :=
  changed s (0 <? length cps)%nat
    ++ (if s.(st_onResolved) then OnResolved <$> cps.*2 else []).

Definition CleanOldHistory (now : time) (s : Store) : Store :=
  let retention := wrap64 (2 * s.(st_muteWindow)) in
  let retention := if retention <? minHistoryRetention then minHistoryRetention else retention in
  let cutoff := Add now (- retention) in
  let kept := delete_where (λ _ t, Before t cutoff) s.(st_lastSent) in
  set_gen (Nat.iter (size s.(st_lastSent) - size kept) incr64 s.(st_gen)) (set_lastSent kept s).

Section iteration.
Context `{MapRange}.

(** The loop of [SweepResolved]: the expired entries with the copies it resolves. *)
Definition sweep_expired (now : time) (s : Store) : list (string * Alert) :=
omap (λ '(fp, a), if negb (IsZero a.(a_EndsAt)) && After now a.(a_EndsAt)
                  then Some (fp, with_Resolved true (Clone a)) else None)
  (range s.(st_active)).

Definition SweepResolved (now : time) (s : Store) : Store * list Callback :=
let expired := sweep_expired now s in
let s := resolve_all expired s in
(s, resolve_callbacks expired s).

Definition object_alerts (now : time) (kind ns name : string) (s : Store) : list (string * Alert) :=
omap (λ '(fp, a), if negb (streq a.(a_Kind) kind) || negb (streq a.(a_Namespace) ns)
                     || negb (streq a.(a_Name) name) then None
                  else Some (fp, with_EndsAt now (with_Resolved true (Clone a))))
  (range s.(st_active)).

Definition ResolveObject (now : time) (kind ns name : string) (s : Store) : Store * list Callback :=
let resolved := object_alerts now kind ns name s in
let s := resolve_all resolved s in
(s, resolve_callbacks resolved s).

Definition ActiveList (s : Store) : list Alert := Clone <$> (range s.(st_active)).*2.
Definition Recent (s : Store) : list Alert := Clone <$> s.(st_recent).

(** [s.escalated[fp][ruleKey]]. *)
Definition is_escalated (s : Store) (fp ruleKey : string) : bool :=
match s.(st_escalated) !! fp with
| Some marks => default false (marks !! ruleKey)
| None => false
end.

Section overdue.
Context `{RegexpLib}.

(** The three [continue] tests of [Overdue], negated. *)
Definition overdue_hit (cutoff : time) (ruleKey : string) (match_ : gmap string string)
(fp : string) (a : Alert) (s : Store) : bool :=
Before a.(a_StartsAt) cutoff && negb (is_escalated s fp ruleKey) && MatchLabels a match_.

Definition mark_escalated (fp ruleKey : string) (s : Store) : Store :=
let marks := default ∅ (s.(st_escalated) !! fp) in
bump (set_escalated (<[fp := <[ruleKey := true]> marks]> s.(st_escalated)) s).

(** The body of the loop, for one active entry. *)
Definition overdue_step (cutoff : time) (ruleKey : string) (match_ : gmap string string)
(acc : list Alert * Store) (p : string * Alert) : list Alert * Store :=
let '(out, s) := acc in let '(fp, a) := p in
if overdue_hit cutoff ruleKey match_ fp a s
then (out ++ [Clone a], mark_escalated fp ruleKey s)
else (out, s).

Definition Overdue (now : time) (after : duration) (ruleKey : string) (match_ : gmap string string)
(s : Store) : list Alert * Store :=
let cutoff := Add now (- after) in
fold_left (overdue_step cutoff ruleKey match_) (range s.(st_active)) ([], s).

End overdue.

(** ** Snapshots *)

Definition SnapshotVersion : Z := 1.

(** [Alert] is a pointer in Go; [None] is a null entry of a decoded snapshot. *)
Record PendingDelivery := MkPending {
pd_ID : Z;
pd_Alert : option Alert;
pd_Route : list string;
}.

Record Snapshot := MkSnapshot {
sn_Version : Z;
sn_SavedAt : time;
sn_Active : list (option Alert);
sn_LastSent : gmap string time;
sn_RuntimeSilences : list Silence;
sn_Pending : list PendingDelivery;
sn_Escalated : gmap string (list string);
}.

(** The copy of an active alert a snapshot carries. *)
Definition export_alert (a : Alert) : Alert := with_Correlation None (CloneWithoutDetails a).

(** [Store.Export]; [exportState] in internal/app fills the last two fields. *)
Definition Export (now : time) (s : Store) : Snapshot :=
MkSnapshot SnapshotVersion now
  ((λ a, Some (export_alert a)) <$> (range s.(st_active)).*2)
  s.(st_lastSent) [] []
  ((λ marks : gmap string bool, (range marks).*1) <$> s.(st_escalated)).

(** First loop of [Restore]: send times that are not in the future and not known. *)
Definition restore_lastSent (now : time) (sent : list (string * time)) (m : gmap string time) : gmap string time :=
fold_left (λ m '(fp, t), if After t now then m
                         else match m !! fp with Some _ => m | None => <[fp := t]> m end) sent m.

(** The guards of the second loop. *)
Definition admissible (a : Alert) : bool :=
negb (streq a.(a_Fingerprint) "") && Severity_Valid a.(a_Severity) && Kind_valid a.(a_Kind).

Definition restore_active (now : time) (ttl : duration) (l : list (option Alert))
  (m : gmap string Alert) (accepted : nat) : gmap string Alert * nat :=
fold_left (λ '(m, accepted) oa,
    match oa with
    | Some a =>
      if admissible a then
        match m !! a.(a_Fingerprint) with
        | Some _ => (m, accepted)
        | None =>
          let cp := Clone a in
          let cp := if IsZero cp.(a_EndsAt) then with_EndsAt (Add now ttl) cp else cp in
          (<[a.(a_Fingerprint) := cp]> m, S accepted)
        end
      else (m, accepted)
    | None => (m, accepted)
    end) l (m, accepted).

Definition add_marks (keys : list string) (marks : gmap string bool) : gmap string bool :=
fold_left (λ marks k, <[k := true]> marks) keys marks.

Definition restore_escalated (active : gmap string Alert) (esc : list (string * list string))
  (m : gmap string (gmap string bool)) : gmap string (gmap string bool) :=
fold_left (λ m '(fp, keys),
    match active !! fp with
    | None => m
    | Some _ => <[fp := add_marks keys (default ∅ (m !! fp))]> m
    end) esc m.

Definition Restore (now : time) (snap : option Snapshot) (s : Store) : nat * Store * list Callback :=
match snap with
| None => (0%nat, s, [])
| Some snap =>
  if SnapshotVersion <? snap.(sn_Version) then (0%nat, s, [])
  else
    let s := set_lastSent (restore_lastSent now (range snap.(sn_LastSent)) s.(st_lastSent)) s in
    let '(active, accepted) :=
      restore_active now s.(st_resolveTTL) snap.(sn_Active) s.(st_active) 0 in
    let s := set_active active s in
    let s := set_escalated
      (restore_escalated s.(st_active) (range snap.(sn_Escalated)) s.(st_escalated)) s in
    let s := bump s in
    (accepted, s, changed s true)
end.

Definition Generation (s : Store) : Z := s.(st_gen).

(** ** Executions

  One constructor per mutating method. *)
Inductive op :=
| OShouldSend (a : Alert)
| OShouldSendEvent (a : Alert)
| OSeed (fp : string)
| OTouch (fp : string)
| OForget (fp : string)
| OSweep
| OResolveObject (kind ns name : string)
| OClean
| OOverdue (after : duration) (ruleKey : string) (match_ : gmap string string)
| ORestore (snap : option Snapshot).

Definition apply_op `{RegexpLib} (now : time) (o : op) (s : Store) : Store * list Callback :=
match o with
| OShouldSend a => let '(_, _, s, cbs) := ShouldSend now a s in (s, cbs)
| OShouldSendEvent a => ((ShouldSendEvent now a s).2, [])
| OSeed fp => (Seed now fp s, [])
| OTouch fp => (Touch now fp s, [])
| OForget fp => Forget fp s
| OSweep => SweepResolved now s
| OResolveObject k ns n => ResolveObject now k ns n s
| OClean => (CleanOldHistory now s, [])
| OOverdue after key m => ((Overdue now after key m s).2, [])
| ORestore snap => let '(_, s, cbs) := Restore now snap s in (s, cbs)
end.

(** States reachable from a fresh store, with the clock reading of the last operation. *)
Inductive reachable `{RegexpLib} : time → Store → Prop :=
| reach_new now mute ttl cb : reachable now (NewStore mute ttl cb)
| reach_onchange now s : reachable now s → reachable now (SetOnChange s)
| reach_op now now' o s : reachable now s → now <= now' → reachable now' (apply_op now' o s).1.

End iteration.

(** * Lemmas *)

(** Every operation leaves the windows and the callbacks alone. *)
Definition same_params (s s' : Store) : Prop :=
  s'.(st_muteWindow) = s.(st_muteWindow) ∧ s'.(st_resolveTTL) = s.(st_resolveTTL)
  ∧ s'.(st_onResolved) = s.(st_onResolved) ∧ s'.(st_onChange) = s.(st_onChange).

Lemma resolve_all_cons p cps s :
  resolve_all (p :: cps) s = resolve_all cps (resolveLocked p.1 p.2 s).
Proof. done. Qed.

Lemma resolve_all_params cps s : same_params s (resolve_all cps s).
Proof.
  revert s. induction cps as [|p cps IH]; intros s; [by repeat split|].
  rewrite resolve_all_cons. destruct (IH (resolveLocked p.1 p.2 s)) as (? & ? & ? & ?).
  by repeat split.
Qed.

(** One lemma for the three maps [dropLocked] cleans. *)
Section resolve_map.
Context {V : Type} (proj : Store → gmap string V).
Hypothesis proj_resolve : ∀ fp cp s, proj (resolveLocked fp cp s) = delete fp (proj s).

Lemma resolve_all_proj cps s fp :
  proj (resolve_all cps s) !! fp = if decide (fp ∈ cps.*1) then None else proj s !! fp.
Proof using proj_resolve.
  revert s. induction cps as [|[k c] cps IH]; intros s.
  - rewrite decide_False; [done|apply not_elem_of_nil].
  - rewrite resolve_all_cons, IH, proj_resolve. simpl.
    destruct (decide (fp ∈ cps.*1)) as [Hin|Hin].
    + rewrite decide_True; [done|by right].
    + destruct (decide (fp = k)) as [->|Hne].
      * rewrite decide_True; [apply lookup_delete_eq|left].
      * rewrite decide_False; [by apply lookup_delete_ne|rewrite elem_of_cons; tauto].
Qed.
End resolve_map.

Lemma resolve_all_active cps s fp :
  (resolve_all cps s).(st_active) !! fp = if decide (fp ∈ cps.*1) then None else s.(st_active) !! fp.
Proof. by apply resolve_all_proj. Qed.
Lemma resolve_all_lastSent cps s fp :
  (resolve_all cps s).(st_lastSent) !! fp = if decide (fp ∈ cps.*1) then None else s.(st_lastSent) !! fp.
Proof. by apply resolve_all_proj. Qed.
Lemma resolve_all_escalated cps s fp :
  (resolve_all cps s).(st_escalated) !! fp = if decide (fp ∈ cps.*1) then None else s.(st_escalated) !! fp.
Proof. by apply resolve_all_proj. Qed.

Lemma resolve_all_gen cps s :
  (resolve_all cps s).(st_gen) = Nat.iter (length cps) incr64 s.(st_gen).
Proof.
  revert s. induction cps as [|p cps IH]; intros s; [done|].
  rewrite resolve_all_cons, IH. simpl length. by rewrite Nat.iter_succ_r.
Qed.

Lemma iter_incr64 n g : 0 <= g < 2 ^ 64 → Nat.iter n incr64 g = (g + Z.of_nat n) mod 2 ^ 64.
Proof.
  intros Hg. induction n as [|n IH]; cbn [Nat.iter nat_rect].
  - rewrite Z.add_0_r, Z.mod_small; done.
  - change (nat_rect (λ _, Z) g (λ _ : nat, incr64) n) with (Nat.iter n incr64 g). rewrite IH. unfold incr64. rewrite Zplus_mod_idemp_l. f_equal. lia.
Qed.

(** Fewer than 2^64 increments never come back to the same generation. *)
Lemma iter_incr64_eq n g :
  0 <= g < 2 ^ 64 → Z.of_nat n < 2 ^ 64 → Nat.iter n incr64 g = g → n = 0%nat.
Proof.
  intros Hg Hn E. rewrite iter_incr64 in E by done.
  destruct (decide (g + Z.of_nat n < 2 ^ 64)).
  - rewrite Z.mod_small in E by lia. lia.
  - rewrite <- (Z_mod_plus_full _ (-1)), Z.mod_small in E by lia. lia.
Qed.

Lemma iter_incr64_range n g : 0 <= g < 2 ^ 64 → 0 <= Nat.iter n incr64 g < 2 ^ 64.
Proof. intros Hg. rewrite iter_incr64 by done. apply Z.mod_pos_bound. lia. Qed.

(** ** Loops over the active set *)

Section iteration_lemmas.
Context `{MapRange}.

(** An [omap] over the active set that keeps the key. *)
Lemma omap_range_fst (f : string * Alert → option (string * Alert)) (m : gmap string Alert) fp :
  (∀ k a p, f (k, a) = Some p → p.1 = k) →
  fp ∈ (omap f (range m)).*1 ↔ ∃ a, m !! fp = Some a ∧ is_Some (f (fp, a)).
Proof.
  intros Hf. rewrite list_elem_of_fmap. split.
  - intros (p & -> & Hp). apply list_elem_of_omap in Hp as ([k a] & Hin & Hk).
    rewrite (Hf _ _ _ Hk). exists a. split; [by apply range_In|eauto].
  - intros (a & Ha & [p Hp]). exists p. split; [by rewrite (Hf _ _ _ Hp)|].
    apply list_elem_of_omap. exists (fp, a). by rewrite range_In.
Qed.

Definition expired (now : time) (a : Alert) : bool :=
  negb (IsZero a.(a_EndsAt)) && After now a.(a_EndsAt).

Lemma sweep_expired_fst now s fp :
  fp ∈ (sweep_expired now s).*1 ↔ ∃ a, s.(st_active) !! fp = Some a ∧ expired now a = true.
Proof.
  unfold sweep_expired. rewrite omap_range_fst.
  - unfold expired. split; intros (a & Ha & E); exists a; (split; [done|]); revert E; destruct (_ && _); naive_solver.
  - intros k a p. destruct (_ && _); intros; by simplify_eq.
Qed.

Definition of_object (kind ns name : string) (a : Alert) : bool :=
  streq a.(a_Kind) kind && streq a.(a_Namespace) ns && streq a.(a_Name) name.

Lemma of_object_negb kind ns name a :
  negb (streq a.(a_Kind) kind) || negb (streq a.(a_Namespace) ns) || negb (streq a.(a_Name) name)
  = negb (of_object kind ns name a).
Proof. unfold of_object. by rewrite !negb_andb. Qed.

Lemma object_alerts_fst now kind ns name s fp :
  fp ∈ (object_alerts now kind ns name s).*1
  ↔ ∃ a, s.(st_active) !! fp = Some a ∧ of_object kind ns name a = true.
Proof.
  unfold object_alerts. rewrite omap_range_fst.
  - split; intros (a & Ha & E); exists a; (split; [done|]); revert E;
      rewrite of_object_negb; destruct (of_object kind ns name a); simpl; naive_solver.
  - intros k a p. rewrite of_object_negb. destruct (of_object kind ns name a); simpl; intros; by simplify_eq.
Qed.

Lemma omap_length_le {A B} (f : A → option B) (l : list A) : (length (omap f l) <= length l)%nat.
Proof.
  induction l as [|x l IH]; [done|]. cbn [length].
  change (omap f (x :: l)) with (match f x with Some y => y :: omap f l | None => omap f l end).
  destruct (f x); cbn [length]; lia.
Qed.
End iteration_lemmas.

(** ** The loop of [Overdue] *)

Section overdue_lemmas.
Context `{MapRange} `{RegexpLib}.

Lemma mark_escalated_lookup fp key s fp' key' :
  is_escalated (mark_escalated fp key s) fp' key' =
  bool_decide (fp = fp' ∧ key = key') || is_escalated s fp' key'.
Proof.
  unfold is_escalated, mark_escalated. simpl.
  destruct (decide (fp = fp')) as [->|Hfp].
  - rewrite lookup_insert_eq. destruct (decide (key = key')) as [->|Hk].
    + by rewrite lookup_insert_eq, bool_decide_true.
    + rewrite lookup_insert_ne by done. rewrite bool_decide_false by tauto.
      by destruct (st_escalated s !! fp').
  - rewrite lookup_insert_ne by done. by rewrite bool_decide_false by tauto.
Qed.

(** The entries the loop escalates, as decided by the state it starts from. *)
Definition overdue_hits cutoff key m (s : Store) (l : list (string * Alert)) : list (string * Alert) :=
  filter (λ p, overdue_hit cutoff key m p.1 p.2 s = true) l.

Lemma overdue_hits_mark cutoff key m s fp l :
  fp ∉ l.*1 → overdue_hits cutoff key m (mark_escalated fp key s) l = overdue_hits cutoff key m s l.
Proof.
  intros Hfp. apply filter_ext_in. intros [fp' a'] Hin. unfold overdue_hit. simpl.
  rewrite mark_escalated_lookup, bool_decide_false; [done|].
  intros [-> _]. apply Hfp, list_elem_of_fmap. by exists (fp', a').
Qed.

Lemma overdue_hits_cons cutoff key m s fp a l :
  overdue_hits cutoff key m s ((fp, a) :: l) =
  if overdue_hit cutoff key m fp a s then (fp, a) :: overdue_hits cutoff key m s l
  else overdue_hits cutoff key m s l.
Proof. unfold overdue_hits. rewrite filter_cons. simpl. by destruct (overdue_hit _ _ _ _ _ _). Qed.

Lemma overdue_fold_spec cutoff key m l out s :
  NoDup l.*1 →
  let hits := overdue_hits cutoff key m s l in
  let r := fold_left (overdue_step cutoff key m) l (out, s) in
  r.1 = out ++ hits.*2
  ∧ r.2.(st_gen) = Nat.iter (length hits) incr64 s.(st_gen)
  ∧ r.2.(st_active) = s.(st_active) ∧ r.2.(st_lastSent) = s.(st_lastSent)
  ∧ r.2.(st_recent) = s.(st_recent) ∧ same_params s r.2
  ∧ (∀ fp k, is_escalated r.2 fp k = bool_decide (k = key ∧ fp ∈ hits.*1) || is_escalated s fp k)
  ∧ (∀ fp, is_Some (r.2.(st_escalated) !! fp) → is_Some (s.(st_escalated) !! fp) ∨ fp ∈ l.*1)
  ∧ (hits = [] → r.2 = s).
Proof.
  revert out s. induction l as [|[fp a] l IH]; intros out s Hnd hits r.
  { subst hits r; simpl. rewrite app_nil_r. repeat split; auto.
    intros fp k. rewrite bool_decide_false; [done|]. intros [_ Hin]. by apply not_elem_of_nil in Hin. }
  rewrite fmap_cons in Hnd. apply NoDup_cons in Hnd as [Hfp Hnd]. simpl in Hfp.
  subst hits r. cbn [fold_left overdue_step].
  destruct (overdue_hit cutoff key m fp a s) eqn:Ehit.
  - specialize (IH (out ++ [Clone a]) (mark_escalated fp key s) Hnd). cbv zeta in IH.
    rewrite (overdue_hits_mark _ _ _ _ _ _ Hfp) in IH.
    rewrite overdue_hits_cons, Ehit.
    destruct IH as (E1 & E2 & E3 & E4 & E5 & E6 & E7 & E8 & _).
    rewrite E1, E2, E3, E4, E5. rewrite !fmap_cons, <- app_assoc. cbn [length].
    split_and!; try done.
    + by rewrite Nat.iter_succ_r.
    + intros fp' k. rewrite E7, mark_escalated_lookup. simpl.
      rewrite orb_assoc. f_equal. rewrite <- bool_decide_or. apply bool_decide_ext.
      rewrite elem_of_cons. naive_solver.
    + intros fp' [E|E]%E8; [|right; by right]. simpl in E.
      destruct (decide (fp = fp')) as [->|]; [right; left|]. rewrite lookup_insert_ne in E; auto.
  - specialize (IH out s Hnd). cbv zeta in IH.
    rewrite overdue_hits_cons, Ehit.
    destruct IH as (E1 & E2 & E3 & E4 & E5 & E6 & E7 & E8 & E9). split_and!; try done.
    intros fp' [E|E]%E8; [by left|right; by right].
Qed.
End overdue_lemmas.

(** ** The loops of [Restore] *)

Section restore_lemmas.
Context `{MapRange}.

Lemma restore_lastSent_list now l (m : gmap string time) fp :
  NoDup l.*1 →
  restore_lastSent now l m !! fp =
  match m !! fp with
  | Some t => Some t
  | None => t ← (list_to_map l : gmap string time) !! fp; if After t now then None else Some t
  end.
Proof.
  revert m. induction l as [|[k t] l IH]; intros m Hnd.
  { simpl. rewrite lookup_empty. by destruct (m !! fp). }
  rewrite fmap_cons in Hnd. apply NoDup_cons in Hnd as [Hk Hnd]. simpl in Hk.
  change (restore_lastSent now ((k, t) :: l) m) with (restore_lastSent now l
    (if After t now then m else match m !! k with Some _ => m | None => <[k := t]> m end)).
  rewrite IH by done.
  cbn [list_to_map foldr]. destruct (decide (k = fp)) as [->|Hne].
  - assert (Hl : (list_to_map l : gmap string time) !! fp = None) by by apply not_elem_of_list_to_map_1.
    simpl. rewrite Hl, lookup_insert_eq. simpl. destruct (After t now) eqn:Et; [done|].
    destruct (m !! fp) eqn:Em; [by rewrite Em|by rewrite lookup_insert_eq].
  - simpl. rewrite lookup_insert_ne by done.
    destruct (After t now); [done|]. destruct (m !! k) eqn:Em; [done|]. by rewrite lookup_insert_ne.
Qed.

Lemma restore_lastSent_lookup now (sent m : gmap string time) fp :
  restore_lastSent now (range sent) m !! fp =
  match m !! fp with
  | Some t => Some t
  | None => t ← sent !! fp; if After t now then None else Some t
  end.
Proof. by rewrite restore_lastSent_list, range_to_map by apply range_NoDup_fst. Qed.

Lemma restore_escalated_list (active : gmap string Alert) l (m : gmap string (gmap string bool)) fp :
  NoDup l.*1 →
  restore_escalated active l m !! fp =
  match active !! fp, (list_to_map l : gmap string (list string)) !! fp with
  | Some _, Some keys => Some (add_marks keys (default ∅ (m !! fp)))
  | _, _ => m !! fp
  end.
Proof.
  revert m. induction l as [|[k keys] l IH]; intros m Hnd.
  { simpl. rewrite lookup_empty. by destruct (active !! fp). }
  rewrite fmap_cons in Hnd. apply NoDup_cons in Hnd as [Hk Hnd]. simpl in Hk.
  change (restore_escalated active ((k, keys) :: l) m) with (restore_escalated active l
    (match active !! k with None => m | Some _ => <[k := add_marks keys (default ∅ (m !! k))]> m end)).
  rewrite IH by done.
  destruct (decide (k = fp)) as [->|Hne].
  - assert (Hl : (list_to_map l : gmap string (list string)) !! fp = None) by by apply not_elem_of_list_to_map_1.
    simpl. rewrite Hl, lookup_insert_eq. destruct (active !! fp); [by rewrite lookup_insert_eq|done].
  - simpl. rewrite lookup_insert_ne by done. destruct (active !! k); [|done]. by rewrite lookup_insert_ne.
Qed.

Lemma restore_escalated_lookup (active : gmap string Alert) (esc : gmap string (list string)) m fp :
  restore_escalated active (range esc) m !! fp =
  match active !! fp, esc !! fp with
  | Some _, Some keys => Some (add_marks keys (default ∅ (m !! fp)))
  | _, _ => m !! fp
  end.
Proof. by rewrite restore_escalated_list, range_to_map by apply range_NoDup_fst. Qed.

Lemma add_marks_lookup keys (marks : gmap string bool) k :
  add_marks keys marks !! k = if decide (k ∈ keys) then Some true else marks !! k.
Proof.
  unfold add_marks. revert marks. induction keys as [|x keys IH]; intros marks; cbn [fold_left].
  - rewrite decide_False; [done|apply not_elem_of_nil].
  - rewrite IH. destruct (decide (k ∈ keys)) as [Hin|Hin].
    + rewrite decide_True; [done|by right].
    + destruct (decide (k = x)) as [->|Hne].
      * rewrite decide_True by left. apply lookup_insert_eq.
      * rewrite decide_False by (rewrite elem_of_cons; tauto). by apply lookup_insert_ne.
Qed.

(** The alert [Restore] stores for an admitted entry. *)
Definition restored (now : time) (ttl : duration) (a : Alert) : Alert :=
  if IsZero a.(a_EndsAt) then with_EndsAt (Add now ttl) a else a.

Lemma restored_fp now ttl a : a_Fingerprint (restored now ttl a) = a_Fingerprint a.
Proof. unfold restored. by destruct (IsZero _). Qed.

Lemma restore_active_cons now ttl oa l (m : gmap string Alert) n :
  restore_active now ttl (oa :: l) m n =
  match oa with
  | Some a =>
    if admissible a && bool_decide (m !! a.(a_Fingerprint) = None)
    then restore_active now ttl l (<[a.(a_Fingerprint) := restored now ttl a]> m) (S n)
    else restore_active now ttl l m n
  | None => restore_active now ttl l m n
  end.
Proof.
  unfold restore_active. cbn [fold_left]. destruct oa as [a|]; [|done].
  destruct (admissible a); [|done]. by destruct (m !! a_Fingerprint a).
Qed.

(** Present entries win; admitted ones are counted; an entry of the result comes from one of
    the two. *)
Lemma restore_active_spec now ttl l (m : gmap string Alert) n :
  let r := restore_active now ttl l m n in
  m ⊆ r.1
  ∧ (r.2 + size m = n + size r.1)%nat
  ∧ (∀ fp a, r.1 !! fp = Some a → m !! fp = Some a ∨
      ∃ a0, Some a0 ∈ l ∧ admissible a0 = true ∧ a_Fingerprint a0 = fp ∧ a = restored now ttl a0)
  ∧ (∀ a, Some a ∈ l → admissible a = true → is_Some (r.1 !! a.(a_Fingerprint))).
Proof.
  revert m n. induction l as [|oa l IH]; intros m n r; subst r.
  { simpl. split_and!; [done|lia|auto|]. intros a Hin. by apply not_elem_of_nil in Hin. }
  rewrite restore_active_cons. destruct oa as [a|].
  - destruct (admissible a && bool_decide (m !! a_Fingerprint a = None)) eqn:E.
    + apply andb_true_iff in E as [Ea Em]. apply bool_decide_eq_true in Em.
      destruct (IH (<[a_Fingerprint a := restored now ttl a]> m) (S n)) as (Hsub & Hn & Hin & Hadm).
      split_and!.
      * etrans; [by apply insert_subseteq|done].
      * rewrite map_size_insert_None in Hn by done. lia.
      * intros fp b Hb. apply Hin in Hb as [Hb|(a0 & ? & ? & ? & ?)]; [|right; exists a0; set_solver].
        apply lookup_insert_Some in Hb as [[<- <-]|[_ Hb]]; [|by left].
        right. exists a. split_and!; [left|done|done|done].
      * intros b [Hb|Hb]%elem_of_cons Hab; [|by apply Hadm]. simplify_eq.
        exists (restored now ttl a). eapply lookup_weaken; [|exact Hsub]. apply lookup_insert_eq.
    + destruct (IH m n) as (Hsub & Hn & Hin & Hadm). split_and!; [done|done| |].
      * intros fp b Hb. apply Hin in Hb as [Hb|(a0 & ? & ? & ? & ?)]; [by left|right; exists a0; set_solver].
      * intros b [Hb|Hb]%elem_of_cons Hab; [|by apply Hadm]. simplify_eq. rewrite Hab in E.
        apply bool_decide_eq_false, not_eq_None_Some in E as [c Hc].
        exists c. by eapply lookup_weaken.
  - destruct (IH m n) as (Hsub & Hn & Hin & Hadm). split_and!; [done|done| |].
    + intros fp b Hb. apply Hin in Hb as [Hb|(a0 & ? & ? & ? & ?)]; [by left|right; exists a0; set_solver].
    + intros b [Hb|Hb]%elem_of_cons Hab; [done|by apply Hadm].
Qed.
End restore_lemmas.

(** The alert a successful [ShouldSend] stores and leaves with its caller. *)
Definition sent_alert (now : time) (s : Store) (a : Alert) : Alert :=
  with_EndsAt (Add now s.(st_resolveTTL))
    (match s.(st_active) !! a.(a_Fingerprint) with
     | Some active => with_StartsAt active.(a_StartsAt) a
     | None => a
     end).

Definition sent_store (now : time) (s : Store) (a : Alert) : Store :=
  bump (recordRecentLocked (sent_alert now s a)
    (set_active (<[a.(a_Fingerprint) := sent_alert now s a]> s.(st_active))
      (set_lastSent (<[a.(a_Fingerprint) := now]> s.(st_lastSent)) s))).

Lemma ShouldSend_muted now a s :
  mutedLocked now a.(a_Fingerprint) s = true → ShouldSend now a s = (false, a, s, []).
Proof. intros E. unfold ShouldSend. by rewrite E. Qed.

Lemma sent_alert_fp now s a : a_Fingerprint (sent_alert now s a) = a_Fingerprint a.
Proof. unfold sent_alert. simpl. by destruct (st_active s !! a_Fingerprint a). Qed.

Lemma ShouldSend_unmuted now a s :
  mutedLocked now a.(a_Fingerprint) s = false →
  ShouldSend now a s
  = (true, sent_alert now s a, sent_store now s a, changed (sent_store now s a) true).
Proof.
  intros E. unfold ShouldSend, sent_store, sent_alert. rewrite E. simpl.
  by destruct (st_active s !! a_Fingerprint a).
Qed.

(** * Theorems *)

(** ** The invariant *)

Record store_inv (now : time) (s : Store) : Prop := {
  inv_key : ∀ fp a, s.(st_active) !! fp = Some a → a_Fingerprint a = fp;
  inv_esc : ∀ fp, is_Some (s.(st_escalated) !! fp) → is_Some (s.(st_active) !! fp);
  inv_marks : ∀ fp marks k b, s.(st_escalated) !! fp = Some marks → marks !! k = Some b → b = true;
  inv_recent : (length s.(st_recent) <= recentCap)%nat;
  inv_gen : 0 <= s.(st_gen) < 2 ^ 64;
  inv_sent : ∀ fp t, s.(st_lastSent) !! fp = Some t → t <= now;
}.

Section invariant.
Context `{MapRange} `{RegexpLib}.
Implicit Types (s : Store) (a : Alert).

Lemma inv_mono now now' s : now <= now' → store_inv now s → store_inv now' s.
Proof.
  intros Hle [? ? ? ? ? Hs]. split; try done. intros fp t Ht. apply Hs in Ht. lia.
Qed.

Lemma inv_bump now s : store_inv now s → store_inv now (bump s).
Proof. intros []. split; try done. apply incr64_range. Qed.

Lemma inv_record now a s : store_inv now s → store_inv now (recordRecentLocked a s).
Proof. intros []. split; try done. apply keep_last_length. Qed.

Lemma inv_drop now fp s : store_inv now s → store_inv now (dropLocked fp s).
Proof.
  intros []. split; simpl; try done.
  - intros k a [_ Hk]%lookup_delete_Some. eauto.
  - intros k [m Hm]. apply lookup_delete_Some in Hm as [Hne Hm].
    rewrite lookup_delete_ne by done. eauto.
  - intros k marks k' b [_ Hk]%lookup_delete_Some. eauto.
  - intros k t [_ Hk]%lookup_delete_Some. eauto.
Qed.

Lemma inv_resolve_all now cps s : store_inv now s → store_inv now (resolve_all cps s).
Proof.
  revert s. induction cps as [|p cps IH]; intros s Hs; [done|].
  rewrite resolve_all_cons. by apply IH, inv_bump, inv_record, inv_drop.
Qed.

Lemma inv_send now fp s : store_inv now s → store_inv now (set_lastSent (<[fp := now]> s.(st_lastSent)) s).
Proof.
  intros []. split; simpl; try done.
  intros k t [[_ <-]|[_ Hk]]%lookup_insert_Some; [lia|eauto].
Qed.

Lemma inv_activate now a s :
  store_inv now s → store_inv now (set_active (<[a.(a_Fingerprint) := a]> s.(st_active)) s).
Proof.
  intros []. split; simpl; try done.
  - intros fp b [[<- <-]|[_ Hb]]%lookup_insert_Some; eauto.
  - intros fp He. destruct (decide (a_Fingerprint a = fp)) as [<-|Hne];
      [rewrite lookup_insert_eq|rewrite lookup_insert_ne by done]; eauto.
Qed.

Lemma inv_ShouldSend now a s : store_inv now s → store_inv now (ShouldSend now a s).1.2.
Proof.
  intros Hs. destruct (mutedLocked now (a_Fingerprint a) s) eqn:E.
  - by rewrite ShouldSend_muted.
  - rewrite ShouldSend_unmuted by done. simpl. apply inv_bump, inv_record.
    rewrite <- (sent_alert_fp now s a).
    by apply (inv_activate now (sent_alert now s a) (set_lastSent _ s)), inv_send.
Qed.

Lemma inv_Touch now fp s : store_inv now s → store_inv now (Touch now fp s).
Proof.
  intros Hs. unfold Touch. destruct (st_active s !! fp) as [a|] eqn:Ha; [|done].
  apply inv_bump. set (b := with_EndsAt _ a).
  assert (Hb : a_Fingerprint b = fp) by (apply (inv_key _ _ Hs _ _ Ha)).
  apply (inv_activate now b) in Hs. by rewrite Hb in Hs.
Qed.

Lemma inv_Clean now s : store_inv now s → store_inv now (CleanOldHistory now s).
Proof.
  intros []. split; simpl; try done.
  - by apply iter_incr64_range.
  - intros fp t. rewrite lookup_delete_where. destruct (st_lastSent s !! fp) as [u|] eqn:Eu; [|done].
    destruct (Before _ _); [done|]. intros [= <-]. eauto.
Qed.

Lemma is_escalated_true s fp k :
  (∀ fp marks k b, s.(st_escalated) !! fp = Some marks → marks !! k = Some b → b = true) →
  ∀ marks, s.(st_escalated) !! fp = Some marks → is_escalated s fp k = bool_decide (is_Some (marks !! k)).
Proof.
  intros Hm marks Hfp. unfold is_escalated. rewrite Hfp.
  destruct (marks !! k) as [b|] eqn:E; simpl; [|done]. by rewrite (Hm _ _ _ _ Hfp E).
Qed.

Lemma inv_mark now fp key s :
  is_Some (s.(st_active) !! fp) → store_inv now s → store_inv now (mark_escalated fp key s).
Proof.
  intros Ha Hs. apply inv_bump. destruct Hs. split; simpl; try done.
  - intros k. destruct (decide (fp = k)) as [->|Hne]; [done|]. rewrite lookup_insert_ne by done. eauto.
  - intros k marks k' b [[<- <-]|[_ Hk]]%lookup_insert_Some Hb; [|eauto].
    apply lookup_insert_Some in Hb as [[_ <-]|[_ Hb]]; [done|].
    destruct (st_escalated s !! fp) as [m|] eqn:E; simpl in Hb; [eauto|by rewrite lookup_empty in Hb].
Qed.

Lemma inv_Overdue now now' after key m s : store_inv now' s → store_inv now' (Overdue now after key m s).2.
Proof.
  intros Hs. unfold Overdue.
  assert (Hl : ∀ p, p ∈ range (st_active s) → is_Some (st_active s !! p.1)).
  { intros [k a] Hin%range_In. eauto. }
  assert (Hact : ∀ l out s0, store_inv now' s0 → (∀ p, p ∈ l → is_Some (st_active s0 !! p.1)) →
    store_inv now' (fold_left (overdue_step (Add now (- after)) key m) l (out, s0)).2).
  { intros l. induction l as [|[fp a] l IH]; intros out s0 Hs0 Hin; [done|].
    cbn [fold_left overdue_step]. destruct (overdue_hit _ _ _ _ _ _).
    - apply IH; [apply inv_mark; [apply (Hin (fp, a)); left|done]|].
      intros p Hp. apply Hin. by right.
    - apply IH; [done|]. intros p Hp. apply Hin. by right. }
  by apply Hact.
Qed.

Lemma inv_Restore now snap s : store_inv now s → store_inv now (Restore now snap s).1.2.
Proof.
  intros Hs. unfold Restore. destruct snap as [snap|]; [|done].
  destruct (SnapshotVersion <? sn_Version snap); [done|]. simpl.
  pose proof (restore_active_spec now (st_resolveTTL s) (sn_Active snap) (st_active s) 0) as
    (Hsub & _ & Hin & _).
  destruct (restore_active _ _ _ _ _) as [act n]. simpl in *.
  apply inv_bump. destruct Hs as [Hkey Hesc Hmarks Hrec Hgen Hsent]. split; simpl; try done.
  - intros fp a Ha. apply Hin in Ha as [Ha|(a0 & _ & _ & Hf & ->)]; [eauto|].
    by rewrite restored_fp.
  - intros fp. rewrite restore_escalated_lookup.
    destruct (act !! fp) as [a|] eqn:Ea; [eauto|].
    intros [b Hb]%Hesc. pose proof (lookup_weaken _ _ _ _ Hb Hsub). congruence.
  - intros fp marks k b. rewrite restore_escalated_lookup.
    assert (Hold : st_escalated s !! fp = Some marks → marks !! k = Some b → b = true) by eauto.
    destruct (act !! fp); [|done]. destruct (sn_Escalated snap !! fp); [|done].
    intros [= <-]. rewrite add_marks_lookup. case_decide; [congruence|].
    destruct (st_escalated s !! fp) eqn:E; simpl; [eauto|by rewrite lookup_empty].
  - intros fp t. rewrite restore_lastSent_lookup.
    destruct (st_lastSent s !! fp) eqn:E; [naive_solver|].
    destruct (sn_LastSent snap !! fp) as [u|]; [|done]. simpl.
    destruct (After u now) eqn:Eu; [done|]. intros [= <-]. by apply After_false.
Qed.

Lemma inv_apply now now' o s :
  now <= now' → store_inv now s → store_inv now' (apply_op now' o s).1.
Proof.
  intros Hle Hs. apply (inv_mono _ _ _ Hle) in Hs. destruct o; simpl.
  - pose proof (inv_ShouldSend now' a s Hs). by destruct (ShouldSend now' a s) as [[[? ?] ?] ?].
  - unfold ShouldSendEvent. destruct (mutedLocked _ _ _); [done|]. by apply inv_bump, inv_record, inv_send.
  - by apply inv_bump, inv_send.
  - by apply inv_Touch.
  - unfold Forget. simpl. destruct (_ || _); [apply inv_bump|]; by apply inv_drop.
  - by apply inv_resolve_all.
  - by apply inv_resolve_all.
  - by apply inv_Clean.
  - by apply inv_Overdue.
  - pose proof (inv_Restore now' snap s Hs). by destruct (Restore now' snap s) as [[? ?] ?].
Qed.

(** C21: in every reachable state the active set is keyed by fingerprint, escalation marks
    exist only for active fingerprints (so a resolve or a Forget leaves no mark behind),
    the recent ring holds at most [recentCap] entries, and no send time lies in the future,
    whatever snapshot was restored. *)
Theorem reachable_inv now s : reachable now s → store_inv now s.
Proof.
  induction 1 as [now mute ttl cb|now s _ IH|now now' o s _ IH Hle].
  - split; simpl; try (intros; by rewrite lookup_empty in * ); [|unfold recentCap; lia|lia].
    intros fp [m Hm]. by rewrite lookup_empty in Hm.
  - destruct IH. by split.
  - by apply (inv_apply now).
Qed.
End invariant.

(** ** Traces *)

Section traces.
Context `{MapRange} `{RegexpLib}.

(** The fingerprints whose records one operation drops. *)
Definition released (now : time) (o : op) (s : Store) : list string :=
  match o with
  | OForget fp => [fp]
  | OSweep => (sweep_expired now s).*1
  | OResolveObject k ns n => (object_alerts now k ns n s).*1
  | _ => []
  end.

(** Any operations, by any goroutines, that do not release [fp]; the clock does not go
    back. *)
Inductive quiet (fp : string) : time → Store → time → Store → Prop :=
  | quiet_refl now s : quiet fp now s now s
  | quiet_step now s now' o now'' s' :
      now <= now' → fp ∉ released now' o s →
      quiet fp now' (apply_op now' o s).1 now'' s' →
      quiet fp now s now'' s'.

Lemma quiet_mono fp now s now' s' : quiet fp now s now' s' → now <= now'.
Proof. induction 1; lia. Qed.

Lemma apply_op_params now o s : same_params s (apply_op now o s).1.
Proof.
  destruct o; simpl; try by repeat split.
  - destruct (mutedLocked now (a_Fingerprint a) s) eqn:E.
    + by rewrite ShouldSend_muted.
    + by rewrite ShouldSend_unmuted.
  - unfold ShouldSendEvent. destruct (mutedLocked _ _ _); by repeat split.
  - unfold Touch. destruct (st_active s !! fp); by repeat split.
  - unfold Forget. simpl. destruct (_ || _); by repeat split.
  - apply resolve_all_params.
  - apply resolve_all_params.
  - destruct (overdue_fold_spec (Add now (- after)) ruleKey match_ (range (st_active s)) [] s)
      as (_ & _ & _ & _ & _ & E & _); [apply range_NoDup_fst|exact E].
  - unfold Restore. destruct snap as [snap|]; [|by repeat split].
    destruct (SnapshotVersion <? sn_Version snap); [by repeat split|].
    destruct (restore_active _ _ _ _ _); by repeat split.
Qed.

Lemma quiet_params fp now s now' s' : quiet fp now s now' s' → same_params s s'.
Proof.
  induction 1 as [|now s now' o now'' s' _ _ _ (E1 & E2 & E3 & E4)]; [by repeat split|].
  destruct (apply_op_params now' o s) as (F1 & F2 & F3 & F4).
  split_and!; congruence.
Qed.

(** *** Mute windows *)

(** The mute record of [fp] is at least as recent as [t0]. *)
Definition sent_since (t0 : time) (fp : string) (s : Store) : Prop :=
  ∃ t, s.(st_lastSent) !! fp = Some t ∧ t0 <= t.

Lemma sent_since_insert t0 now fp k (m : gmap string time) :
  t0 <= now → (∃ t, m !! fp = Some t ∧ t0 <= t) →
  ∃ t, <[k := now]> m !! fp = Some t ∧ t0 <= t.
Proof.
  intros Hle (t & Ht & Hge). destruct (decide (k = fp)) as [->|Hne].
  - exists now. by rewrite lookup_insert_eq.
  - exists t. by rewrite lookup_insert_ne.
Qed.

Lemma clean_keeps now t0 fp s :
  0 <= s.(st_muteWindow) < 2 ^ 62 → now - t0 < s.(st_muteWindow) →
  sent_since t0 fp s → sent_since t0 fp (CleanOldHistory now s).
Proof.
  intros Hm Hd (t & Ht & Hge). exists t. split; [|done]. simpl. rewrite lookup_delete_where, Ht.
  rewrite (wrap64_small (2 * st_muteWindow s)) by (unfold in64; lia).
  set (ret := if _ <? _ then _ else _).
  assert (2 * st_muteWindow s <= ret).
  { subst ret. destruct (Z.ltb_spec (2 * st_muteWindow s) minHistoryRetention); lia. }
  rewrite (proj2 (Before_false t (Add now (- ret)))); [done|]. unfold Add. lia.
Qed.

Lemma sent_since_apply now t0 fp o s :
  0 <= s.(st_muteWindow) < 2 ^ 62 → t0 <= now → now - t0 < s.(st_muteWindow) →
  fp ∉ released now o s → sent_since t0 fp s → sent_since t0 fp (apply_op now o s).1.
Proof.
  intros Hm Hle Hd Hrel Hs. destruct o; simpl in *.
  - destruct (mutedLocked now (a_Fingerprint a) s) eqn:E.
    + by rewrite ShouldSend_muted.
    + rewrite ShouldSend_unmuted by done. by apply sent_since_insert.
  - unfold ShouldSendEvent. destruct (mutedLocked _ _ _); [done|]. by apply sent_since_insert.
  - by apply sent_since_insert.
  - unfold Touch. by destruct (st_active s !! fp0).
  - destruct Hs as (t & Ht & Hge). exists t. split; [|done]. unfold Forget. simpl.
    destruct (_ || _); simpl; (rewrite lookup_delete_ne; [done|set_solver]).
  - destruct Hs as (t & Ht & Hge). exists t. split; [|done].
    by rewrite resolve_all_lastSent, decide_False.
  - destruct Hs as (t & Ht & Hge). exists t. split; [|done].
    by rewrite resolve_all_lastSent, decide_False.
  - by apply clean_keeps.
  - destruct (overdue_fold_spec (Add now (- after)) ruleKey match_ (range (st_active s)) [] s)
      as (_ & _ & _ & E & _); [apply range_NoDup_fst|].
    destruct Hs as (t & Ht & Hge). exists t. unfold Overdue. by rewrite E.
  - unfold Restore. destruct snap as [snap|]; [|done].
    destruct (SnapshotVersion <? sn_Version snap); [done|].
    destruct (restore_active _ _ _ _ _). destruct Hs as (t & Ht & Hge). exists t. split; [|done].
    simpl. by rewrite restore_lastSent_lookup, Ht.
Qed.

Lemma quiet_sent_since fp now s now' s' t0 :
  quiet fp now s now' s' → 0 <= s.(st_muteWindow) < 2 ^ 62 → t0 <= now →
  now' - t0 < s.(st_muteWindow) → sent_since t0 fp s → sent_since t0 fp s'.
Proof.
  induction 1 as [|now s now1 o now'' s' Hle Hrel Hq IH]; intros Hm Ht0 Hd Hs; [done|].
  pose proof (quiet_mono _ _ _ _ _ Hq). destruct (apply_op_params now1 o s) as (E & _).
  apply IH; rewrite ?E; [done|lia|lia|]. apply sent_since_apply; [done|lia|lia|done|done].
Qed.

Lemma sent_since_muted now t0 fp s :
  in64 s.(st_muteWindow) → store_inv now s → now - t0 < s.(st_muteWindow) →
  sent_since t0 fp s → mutedLocked now fp s = true.
Proof.
  intros H64 Hinv Hd (t & Ht & Hge). unfold mutedLocked. rewrite Ht.
  pose proof (inv_sent _ _ Hinv _ _ Ht). rewrite Sub_ltb_nonneg by done. apply Z.ltb_lt. lia.
Qed.

Lemma quiet_inv fp now s now' s' : quiet fp now s now' s' → store_inv now s → store_inv now' s'.
Proof.
  induction 1 as [|now s now1 o now'' s' Hle Hrel Hq IH]; intros Hs; [done|].
  by apply IH, (inv_apply now).
Qed.

(** C3: at most one page per mute window. Once [ShouldSend] accepted an alert, no
    interleaving of other operations - other alerts, sweeps, history cleanup, snapshot
    restores - makes it accept the same fingerprint again inside the window, unless one of
    them resolves or forgets that fingerprint. *)
Theorem one_page_per_mute_window t1 a s t2 b s2 :
  store_inv t1 s → 0 <= s.(st_muteWindow) < 2 ^ 62 →
  (ShouldSend t1 a s).1.1.1 = true →
  quiet a.(a_Fingerprint) t1 (ShouldSend t1 a s).1.2 t2 s2 →
  b.(a_Fingerprint) = a.(a_Fingerprint) → t2 - t1 < s.(st_muteWindow) →
  ShouldSend t2 b s2 = (false, b, s2, []).
Proof.
  intros Hinv Hm Hsend Hq Hfp Hd.
  destruct (mutedLocked t1 (a_Fingerprint a) s) eqn:E; [by rewrite ShouldSend_muted in Hsend|].
  pose proof (inv_ShouldSend t1 a s Hinv) as Hinv1.
  rewrite ShouldSend_unmuted in Hq, Hinv1 by done. simpl in Hq, Hinv1.
  pose proof (quiet_params _ _ _ _ _ Hq) as (Hp & _). simpl in Hp.
  apply ShouldSend_muted. rewrite Hfp.
  apply (sent_since_muted t2 t1); [rewrite Hp; unfold in64; lia|by eapply quiet_inv|by rewrite Hp|].
  eapply quiet_sent_since; [exact Hq|done|lia|done|].
  exists t1. simpl. by rewrite lookup_insert_eq.
Qed.

(** No snapshot and no sequence of operations mutes a fingerprint for good: a mute
    record is never newer than the clock, so one mute window later the fingerprint pages
    again. *)
Theorem mute_expires now s later a :
  store_inv now s → in64 s.(st_muteWindow) → now + s.(st_muteWindow) <= later → now <= later →
  (ShouldSend later a s).1.1.1 = true.
Proof.
  intros Hr H64 Hle Hl.
  rewrite ShouldSend_unmuted; [done|]. unfold mutedLocked.
  destruct (st_lastSent s !! a_Fingerprint a) as [t|] eqn:E; [|done].
  pose proof (inv_sent _ _ Hr _ _ E). rewrite Sub_ltb_nonneg by (done || lia). apply Z.ltb_ge. lia.
Qed.
End traces.

Section functional.
Context `{MapRange} `{RegexpLib}.

(** ** The generation counter *)

(** What a snapshot carries. *)
Definition durable (s : Store) :=
  (s.(st_active), s.(st_lastSent), s.(st_escalated)).

(** [durable] up to an empty inner map of marks. *)
Definition bounded (s : Store) : Prop :=
  Z.of_nat (size s.(st_active)) < 2 ^ 64 ∧ Z.of_nat (size s.(st_lastSent)) < 2 ^ 64.

Lemma bump_gen_ne s : 0 <= s.(st_gen) < 2 ^ 64 → (bump s).(st_gen) ≠ s.(st_gen).
Proof. apply incr64_ne. Qed.

Lemma resolve_all_gen_eq cps s :
  0 <= s.(st_gen) < 2 ^ 64 → Z.of_nat (length cps) < 2 ^ 64 →
  (resolve_all cps s).(st_gen) = s.(st_gen) → resolve_all cps s = s.
Proof.
  rewrite resolve_all_gen. intros Hg Hl E. apply iter_incr64_eq in E; [|done|done].
  by apply nil_length_inv in E as ->.
Qed.

Lemma delete_where_size_eq {V} (f : string → V → bool) (m : gmap string V) :
  size m = size (delete_where f m) → delete_where f m = m.
Proof.
  intros E. apply map_subseteq_size_eq; [apply map_filter_subseteq|lia].
Qed.

Lemma clean_gen_eq now s :
  0 <= s.(st_gen) < 2 ^ 64 → bounded s →
  (CleanOldHistory now s).(st_gen) = s.(st_gen) → (CleanOldHistory now s).(st_lastSent) = s.(st_lastSent).
Proof.
  intros Hg [_ Hb]. simpl. set (kept := delete_where _ _). intros E.
  assert (Hle : (size kept <= size (st_lastSent s))%nat) by apply map_subseteq_size, map_filter_subseteq.
  apply iter_incr64_eq in E; [|done|lia]. apply delete_where_size_eq. fold kept. lia.
Qed.

Lemma sweep_length now s : (length (sweep_expired now s) <= size s.(st_active))%nat.
Proof. rewrite <- range_length. apply omap_length_le. Qed.
Lemma object_length now k ns n s : (length (object_alerts now k ns n s) <= size s.(st_active))%nat.
Proof. rewrite <- range_length. apply omap_length_le. Qed.

Lemma overdue_gen_eq now after key m s :
  0 <= s.(st_gen) < 2 ^ 64 → bounded s →
  (Overdue now after key m s).2.(st_gen) = s.(st_gen) → (Overdue now after key m s).2 = s.
Proof.
  intros Hg [Hb _]. unfold Overdue.
  destruct (overdue_fold_spec (Add now (- after)) key m (range (st_active s)) [] s)
    as (_ & E & _ & _ & _ & _ & _ & _ & Hnil); [apply range_NoDup_fst|].
  rewrite E. intros Eg. apply Hnil. apply iter_incr64_eq in Eg; [|done|].
  - by apply nil_length_inv.
  - pose proof (length_filter (λ p, overdue_hit (Add now (- after)) key m p.1 p.2 s = true)
      (range (st_active s))) as Hf. rewrite range_length in Hf.
    unfold overdue_hits. lia.
Qed.

(** Persistence never misses a change: if an operation leaves the generation counter
    where it was, it left everything a snapshot carries - active alerts, mute records and
    escalation marks - as it was. *)
Theorem generation_sound now now' o s :
  store_inv now s → bounded s →
  (apply_op now' o s).1.(st_gen) = s.(st_gen) → durable (apply_op now' o s).1 = durable s.
Proof.
  intros Hinv Hb Hg. pose proof (inv_gen _ _ Hinv) as Hr. destruct o; simpl in *.
  - destruct (mutedLocked now' (a_Fingerprint a) s) eqn:E.
    + by rewrite ShouldSend_muted in *.
    + rewrite ShouldSend_unmuted in * by done. by destruct (incr64_ne (st_gen s)).
  - unfold ShouldSendEvent in *. destruct (mutedLocked _ _ _); [done|].
    by destruct (incr64_ne (st_gen s)).
  - by destruct (incr64_ne (st_gen s)).
  - unfold Touch in *. destruct (st_active s !! fp); [|done]. by destruct (incr64_ne (st_gen s)).
  - unfold Forget in *. simpl in *. destruct (_ || _) eqn:E; [by destruct (incr64_ne (st_gen s))|].
    bool_hyps. unfold durable. simpl.
    assert (st_active s !! fp = None) by by apply eq_None_not_Some.
    rewrite !delete_id; [done|apply eq_None_not_Some; intros Hx; by apply (inv_esc _ _ Hinv) in Hx|by apply eq_None_not_Some|done].
  - f_equal. apply resolve_all_gen_eq; [done| |done]. pose proof (sweep_length now' s). destruct Hb. lia.
  - f_equal. apply resolve_all_gen_eq; [done| |done]. pose proof (object_length now' kind ns name s). destruct Hb. lia.
  - unfold durable. by rewrite clean_gen_eq.
  - by rewrite overdue_gen_eq.
  - unfold Restore in *. destruct snap as [snap|]; [|done].
    destruct (SnapshotVersion <? sn_Version snap); [done|].
    destruct (restore_active _ _ _ _ _). by destruct (incr64_ne (st_gen s)).
Qed.

(** ** Sweeps and object deletes *)

(** The alert a resolve callback receives. *)
Definition sweep_copy (a : Alert) : Alert := with_Resolved true a.
Definition delete_copy (now : time) (a : Alert) : Alert := with_EndsAt now (with_Resolved true a).

(** What resolving exactly the alerts satisfying [gone], as [copy], does to the store. *)
Definition resolves (gone : Alert → bool) (copy : Alert → Alert) (s s' : Store) (cbs : list Callback) : Prop :=
  let out fp := match s.(st_active) !! fp with Some a => gone a | None => false end in
  (∀ fp, s'.(st_active) !! fp = if out fp then None else s.(st_active) !! fp)
  ∧ (∀ fp, s'.(st_lastSent) !! fp = if out fp then None else s.(st_lastSent) !! fp)
  ∧ (∀ fp, s'.(st_escalated) !! fp = if out fp then None else s.(st_escalated) !! fp)
  ∧ ∃ l, l ≡ₚ filter (λ a, gone a = true) (map_to_list s.(st_active)).*2
      ∧ cbs = (if s.(st_onChange) && (0 <? length l)%nat then [OnChange (size s'.(st_active))] else [])
           ++ (if s.(st_onResolved) then OnResolved ∘ copy <$> l else []).

Lemma omap_filter_snd (gone : Alert → bool) (copy : Alert → Alert) (l : list (string * Alert)) :
  (omap (λ '(fp, a), if gone a then Some (fp, copy a) else None) l).*2
  = copy <$> filter (λ a, gone a = true) l.*2.
Proof.
  induction l as [|[k a] l IH]; [done|]. rewrite fmap_cons, filter_cons. simpl.
  destruct (gone a); simpl; [f_equal|]; exact IH.
Qed.

Lemma resolves_intro (gone : Alert → bool) (copy : Alert → Alert) (s : Store) (cps : list (string * Alert)) :
  cps = omap (λ '(fp, a), if gone a then Some (fp, copy a) else None) (range s.(st_active)) →
  resolves gone copy s (resolve_all cps s) (resolve_callbacks cps (resolve_all cps s)).
Proof.
  intros Hcps.
  assert (Hdec : ∀ fp {A} (x y : A),
    (if decide (fp ∈ cps.*1) then x else y)
    = if match st_active s !! fp with Some a => gone a | None => false end then x else y).
  { intros fp A x y. subst cps. destruct (decide _) as [Hin|Hin].
    - apply omap_range_fst in Hin as (a & -> & Hs); [|intros k a p; destruct (gone a); naive_solver].
      destruct (gone a); [done|by destruct Hs].
    - destruct (st_active s !! fp) as [a|] eqn:Ea; [|done]. destruct (gone a) eqn:Eg; [|done].
      destruct Hin. apply omap_range_fst; [intros k b p; destruct (gone b); naive_solver|].
      exists a. rewrite Eg. eauto. }
  split_and!.
  - intros fp. by rewrite resolve_all_active, Hdec.
  - intros fp. by rewrite resolve_all_lastSent, Hdec.
  - intros fp. by rewrite resolve_all_escalated, Hdec.
  - exists (filter (λ a, gone a = true) (range (st_active s)).*2). split; [by rewrite range_perm|].
    unfold resolve_callbacks, changed.
    destruct (resolve_all_params cps s) as (_ & _ & -> & ->).
    assert (E : cps.*2 = copy <$> filter (λ a, gone a = true) (range (st_active s)).*2)
      by (rewrite Hcps; apply omap_filter_snd).
    rewrite E, <- list_fmap_compose. f_equal.
    by rewrite <- (length_fmap copy (filter _ _)), <- E, length_fmap.
Qed.

(** The sweep resolves exactly the alerts whose deadline has passed: it drops their
    active, mute and escalation records and no others, reports the new size once, and hands
    each of them, marked resolved, to the resolve callback exactly once. *)
Theorem SweepResolved_spec now s :
  resolves (expired now) sweep_copy s (SweepResolved now s).1 (SweepResolved now s).2.
Proof. by apply resolves_intro. Qed.

Lemma object_alerts_alt now k ns n s :
  object_alerts now k ns n s
  = omap (λ '(fp, a), if of_object k ns n a then Some (fp, delete_copy now a) else None) (range s.(st_active)).
Proof.
  unfold object_alerts. apply omap_ext_eq. intros [fp a]. rewrite of_object_negb.
  by destruct (of_object k ns n a).
Qed.

(** Deleting an object resolves every active alert of that kind, namespace and name
    across all reasons, at once, and nothing else; the mute records go too, so the next
    alert with one of those fingerprints is sent, even within the mute window. *)
Theorem ResolveObject_spec now k ns n s :
  resolves (of_object k ns n) (delete_copy now) s (ResolveObject now k ns n s).1 (ResolveObject now k ns n s).2
  ∧ ∀ later b a, s.(st_active) !! b.(a_Fingerprint) = Some a → of_object k ns n a = true →
      (ShouldSend later b (ResolveObject now k ns n s).1).1.1.1 = true.
Proof.
  split; [by apply resolves_intro, object_alerts_alt|].
  intros later b a Ha Ho. rewrite ShouldSend_unmuted; [done|]. unfold mutedLocked. simpl.
  rewrite resolve_all_lastSent, decide_True; [done|]. apply object_alerts_fst. eauto.
Qed.
End functional.

Section lifetimes.
Context `{MapRange} `{RegexpLib}.

(** ** Escalation marks *)

Lemma is_escalated_apply now o s fp key :
  fp ∉ released now o s → is_escalated s fp key = true →
  is_escalated (apply_op now o s).1 fp key = true.
Proof.
  intros Hrel Hs. unfold is_escalated in *. destruct o; simpl in *.
  - destruct (mutedLocked now (a_Fingerprint a) s) eqn:E.
    + by rewrite ShouldSend_muted.
    + by rewrite ShouldSend_unmuted.
  - unfold ShouldSendEvent. by destruct (mutedLocked _ _ _).
  - done.
  - unfold Touch. by destruct (st_active s !! fp0).
  - unfold Forget. simpl. destruct (_ || _); simpl; rewrite lookup_delete_ne; set_solver.
  - by rewrite resolve_all_escalated, decide_False.
  - by rewrite resolve_all_escalated, decide_False.
  - done.
  - destruct (overdue_fold_spec (Add now (- after)) ruleKey match_ (range (st_active s)) [] s)
      as (_ & _ & _ & _ & _ & _ & E & _); [apply range_NoDup_fst|].
    specialize (E fp key). unfold is_escalated, Overdue in *. by rewrite E, Hs, orb_true_r.
  - unfold Restore. destruct snap as [snap|]; [|done].
    destruct (SnapshotVersion <? sn_Version snap); [done|].
    destruct (restore_active _ _ _ _ _) as [act n]. simpl. rewrite restore_escalated_lookup.
    destruct (act !! fp); [|done]. destruct (sn_Escalated snap !! fp); [|done].
    rewrite add_marks_lookup. case_decide; [done|]. by destruct (st_escalated s !! fp).
Qed.

Lemma quiet_escalated fp key now s now' s' :
  quiet fp now s now' s' → is_escalated s fp key = true → is_escalated s' fp key = true.
Proof. induction 1; [done|]. intros Hs. by apply IHquiet, is_escalated_apply. Qed.

Lemma Overdue_elem now after key m s a :
  store_inv now s → a ∈ (Overdue now after key m s).1 →
  s.(st_active) !! a.(a_Fingerprint) = Some a
  ∧ overdue_hit (Add now (- after)) key m a.(a_Fingerprint) a s = true
  ∧ is_escalated (Overdue now after key m s).2 a.(a_Fingerprint) key = true.
Proof.
  intros Hinv. unfold Overdue.
  destruct (overdue_fold_spec (Add now (- after)) key m (range (st_active s)) [] s)
    as (E1 & _ & _ & _ & _ & _ & E7 & _); [apply range_NoDup_fst|].
  rewrite E1. simpl. intros ([fp b] & -> & Hin)%list_elem_of_fmap. simpl.
  pose proof Hin as Hin'. unfold overdue_hits in Hin. apply list_elem_of_filter in Hin as [Hhit Hin].
  apply range_In in Hin. rewrite (inv_key _ _ Hinv _ _ Hin). split_and!; [done|done|].
  rewrite E7, bool_decide_true; [done|]. split; [done|]. apply list_elem_of_fmap. by exists (fp, b).
Qed.

(** A rule escalates an alert at most once per lifetime: after [Overdue] returned an
    alert under a rule key, no later call under that key - with any delay or matcher, after
    any interleaving that does not resolve or forget the alert, snapshot restores included -
    returns its fingerprint again. *)
Theorem escalates_once t1 after key m s a t2 s2 after' m' b :
  store_inv t1 s → a ∈ (Overdue t1 after key m s).1 →
  quiet a.(a_Fingerprint) t1 (Overdue t1 after key m s).2 t2 s2 →
  b ∈ (Overdue t2 after' key m' s2).1 → b.(a_Fingerprint) ≠ a.(a_Fingerprint).
Proof.
  intros Hinv Ha Hq Hb Heq. apply Overdue_elem in Ha as (_ & _ & Hesc); [|done].
  assert (Hinv2 : store_inv t2 s2) by (eapply quiet_inv, inv_Overdue; eauto).
  apply Overdue_elem in Hb as (_ & Hhit & _); [|done].
  apply (quiet_escalated _ _ _ _ _ _ Hq) in Hesc.
  unfold overdue_hit in Hhit. rewrite Heq, Hesc in Hhit. by rewrite andb_false_r in Hhit.
Qed.

(** ** Standing conditions *)

(** Like [quiet], but sweeps may do what they like. *)
Inductive held (fp : string) : time → Store → time → Store → Prop :=
  | held_refl now s : held fp now s now s
  | held_step now s now' o now'' s' :
      now <= now' → o = OSweep ∨ fp ∉ released now' o s →
      held fp now' (apply_op now' o s).1 now'' s' →
      held fp now s now'' s'.

Definition alive_until (d : time) (fp : string) (s : Store) : Prop :=
  ∃ a, s.(st_active) !! fp = Some a ∧ d <= a.(a_EndsAt).

Lemma alive_not_swept now d fp s : now <= d → alive_until d fp s → fp ∉ (sweep_expired now s).*1.
Proof.
  intros Hle (a & Ha & Hd) (b & Hb & E)%sweep_expired_fst. rewrite Ha in Hb. simplify_eq.
  unfold expired in E. bool_hyps. lia.
Qed.

Lemma alive_insert d fp k b (m : gmap string Alert) :
  d <= b.(a_EndsAt) → (∃ a, m !! fp = Some a ∧ d <= a.(a_EndsAt)) →
  ∃ a, <[k := b]> m !! fp = Some a ∧ d <= a.(a_EndsAt).
Proof.
  intros Hb (a & Ha & Hd). destruct (decide (k = fp)) as [->|].
  - exists b. by rewrite lookup_insert_eq.
  - exists a. by rewrite lookup_insert_ne.
Qed.

Lemma alive_apply now d o fp s :
  now <= d → d <= Add now s.(st_resolveTTL) → o = OSweep ∨ fp ∉ released now o s →
  alive_until d fp s → alive_until d fp (apply_op now o s).1.
Proof.
  intros Hle Hd Hrel Hs.
  assert (Hrel' : fp ∉ released now o s).
  { destruct Hrel as [->|]; [by apply (alive_not_swept _ d)|done]. }
  clear Hrel. unfold alive_until in *. destruct o; simpl in *.
  - destruct (mutedLocked now (a_Fingerprint a) s) eqn:E.
    + by rewrite ShouldSend_muted.
    + rewrite ShouldSend_unmuted by done. by apply alive_insert.
  - unfold ShouldSendEvent. by destruct (mutedLocked _ _ _).
  - done.
  - unfold Touch. destruct (st_active s !! fp0); [|done]. by apply alive_insert.
  - unfold Forget. simpl. destruct (_ || _); simpl; rewrite lookup_delete_ne; set_solver.
  - by rewrite resolve_all_active, decide_False.
  - by rewrite resolve_all_active, decide_False.
  - done.
  - destruct (overdue_fold_spec (Add now (- after)) ruleKey match_ (range (st_active s)) [] s)
      as (_ & _ & E & _); [apply range_NoDup_fst|]. unfold Overdue. by rewrite E.
  - unfold Restore. destruct snap as [snap|]; [|done].
    destruct (SnapshotVersion <? sn_Version snap); [done|].
    destruct (restore_active_spec now (st_resolveTTL s) (sn_Active snap) (st_active s) 0) as (Hsub & _).
    simpl. destruct (restore_active _ _ _ _ _) as [act n]. simpl in *.
    destruct Hs as (a & Ha & Hda). exists a. split; [by eapply lookup_weaken|done].
Qed.

(** A condition that is re-asserted is never falsely resolved: for one resolve TTL after
    [Touch], whatever else runs and however often the sweeper ticks, the alert stays active
    and no sweep picks it, unless its object is deleted or it is forgotten. *)
Theorem touched_alert_survives t0 fp s now s' :
  is_Some (s.(st_active) !! fp) →
  held fp t0 (Touch t0 fp s) now s' → now <= Add t0 s.(st_resolveTTL) →
  is_Some (s'.(st_active) !! fp) ∧ fp ∉ (sweep_expired now s').*1.
Proof.
  intros [a Ha] Hh Hle.
  assert (Hal : alive_until (Add t0 (st_resolveTTL s)) fp (Touch t0 fp s)).
  { unfold Touch, alive_until. rewrite Ha. simpl. rewrite lookup_insert_eq. by eexists. }
  assert (Hp : st_resolveTTL (Touch t0 fp s) = st_resolveTTL s) by (unfold Touch; by rewrite Ha).
  revert Hal Hp Hle. generalize (Touch t0 fp s), Hh. clear Ha a. intros s1 Hh1 Hal Hp Hle.
  assert (Hgo : alive_until (Add t0 (st_resolveTTL s)) fp s').
  { clear Hh. unfold Add in *. revert Hal Hp Hle.
    assert (Ht : t0 <= t0) by lia. revert Ht. generalize t0 at 2 as tb.
    cut (∀ tb, tb <= t0 → alive_until (tb + st_resolveTTL s) fp s1 → st_resolveTTL s1 = st_resolveTTL s →
         now <= tb + st_resolveTTL s → alive_until (tb + st_resolveTTL s) fp s').
    { intros Hc tb _ Hal Hp Hle. apply (Hc t0); auto; lia. }
    induction Hh1 as [|now s1 now1 o now2 s2 Hle1 Hrel Hh IH]; intros tb Htb Hal Hp Hle; [done|].
    assert (Hm : now1 <= now2) by (clear -Hh; induction Hh; lia).
    destruct (apply_op_params now1 o s1) as (_ & E & _).
    apply IH; [lia| |by rewrite E|done].
    apply alive_apply; [lia|unfold Add; rewrite Hp; lia|done|done]. }
  split; [destruct Hgo as (a & -> & _); by eexists|by eapply alive_not_swept].
Qed.

(** ** Snapshots *)

Lemma export_fp a : a_Fingerprint (export_alert a) = a_Fingerprint a.
Proof. done. Qed.

Lemma marks_roundtrip (marks : gmap string bool) :
  (∀ k b, marks !! k = Some b → b = true) → add_marks (range marks).*1 ∅ = marks.
Proof.
  intros Ht. apply map_eq. intros k. rewrite add_marks_lookup, lookup_empty.
  destruct (decide (k ∈ (range marks).*1)) as [Hin|Hin].
  - apply list_elem_of_fmap in Hin as ([k' b] & -> & Hin). apply range_In in Hin. simpl.
    by rewrite Hin, (Ht _ _ Hin).
  - destruct (marks !! k) as [b|] eqn:E; [|done]. destruct Hin.
    apply list_elem_of_fmap. exists (k, b). by rewrite range_In.
Qed.

(** Restoring an exported snapshot into a fresh store, field by field. *)
Lemma restore_export_state now later s mute ttl cb :
  store_inv now s → now <= later →
  (∀ fp a, s.(st_active) !! fp = Some a → admissible a = true ∧ IsZero a.(a_EndsAt) = false) →
  let r := Restore later (Some (Export now s)) (NewStore mute ttl cb) in
  r.1.1 = size s.(st_active)
  ∧ r.1.2.(st_active) = export_alert <$> s.(st_active)
  ∧ r.1.2.(st_lastSent) = s.(st_lastSent)
  ∧ r.1.2.(st_escalated) = s.(st_escalated).
Proof.
  intros Hinv Hle Hadm. unfold Restore, Export. simpl.
  destruct (restore_active_spec later ttl ((λ a, Some (export_alert a)) <$> (range (st_active s)).*2) ∅ 0)
    as (_ & Hn & Hin & Hall).
  destruct (restore_active _ _ _ _ _) as [act n]. simpl in *.
  assert (Hact : act = export_alert <$> st_active s).
  { apply map_eq. intros fp. rewrite lookup_fmap. apply option_eq. intros a. split.
    - intros Ha. apply Hin in Ha as [Ha|(a0 & H0in & _ & Hfp & ->)]; [by rewrite lookup_empty in Ha|].
      apply list_elem_of_fmap in H0in as (a1 & E & H1in). simplify_eq.
      apply list_elem_of_fmap in H1in as ([k b] & -> & Hb). apply range_In in Hb. simpl.
      destruct (Hadm _ _ Hb) as [_ Hz]. pose proof (inv_key _ _ Hinv _ _ Hb) as Hk.
      unfold restored. simpl. rewrite Hz, Hk, Hb. done.
    - destruct (st_active s !! fp) as [b|] eqn:Hb; [|done]. simpl. intros [= <-].
      pose proof (inv_key _ _ Hinv _ _ Hb) as Hk. destruct (Hadm _ _ Hb) as [Had Hz].
      assert (Hbin : Some (export_alert b) ∈ ((λ a, Some (export_alert a)) <$> (range (st_active s)).*2)).
      { apply list_elem_of_fmap. exists b. split; [done|]. apply list_elem_of_fmap. exists (fp, b). by rewrite range_In. }
      destruct (Hall _ Hbin Had) as [c Hc]. simpl in Hc. rewrite Hk in Hc. rewrite Hc. f_equal.
      apply Hin in Hc as [Hc|(a0 & H0in & _ & Hfp & ->)]; [by rewrite lookup_empty in Hc|].
      apply list_elem_of_fmap in H0in as (a1 & E & H1in). simplify_eq.
      apply list_elem_of_fmap in H1in as ([k b'] & -> & Hb'). apply range_In in Hb'. simpl in *.
      pose proof (inv_key _ _ Hinv _ _ Hb'). assert (b' = b) as -> by congruence.
      unfold restored. simpl. by rewrite Hz. }
  split_and!.
  - rewrite Hact, map_size_fmap, map_size_empty in Hn. lia.
  - done.
  - apply map_eq. intros fp. rewrite restore_lastSent_lookup, lookup_empty.
    destruct (st_lastSent s !! fp) as [t|] eqn:Et; [|done]. simpl.
    pose proof (inv_sent _ _ Hinv _ _ Et). by rewrite (proj2 (After_false t later)) by lia.
  - apply map_eq. intros fp. rewrite restore_escalated_lookup, lookup_empty, Hact, !lookup_fmap.
    destruct (st_escalated s !! fp) as [marks|] eqn:Em; simpl.
    + destruct (inv_esc _ _ Hinv fp) as [a Ha]; [by eexists|]. rewrite Ha. simpl. f_equal.
      apply marks_roundtrip. intros k b. by apply (inv_marks _ _ Hinv fp).
    + by destruct (st_active s !! fp).
Qed.

(** A restart keeps the state: restoring an exported snapshot into a fresh store brings
    back every active alert (less the enrichment details and the derived correlation), the
    whole mute history and every escalation mark, and reports how many alerts it admitted. *)
Theorem Restore_Export now later s mute ttl cb :
  store_inv now s → now <= later →
  (∀ fp a, s.(st_active) !! fp = Some a → admissible a = true ∧ IsZero a.(a_EndsAt) = false) →
  let r := Restore later (Some (Export now s)) (NewStore mute ttl cb) in
  r.1.1 = size s.(st_active)
  ∧ r.1.2.(st_active) = export_alert <$> s.(st_active)
  ∧ r.1.2.(st_lastSent) = s.(st_lastSent)
  ∧ r.1.2.(st_escalated) = s.(st_escalated).
Proof. apply restore_export_state. Qed.
End lifetimes.

(** * Concrete instances *)

#[local] Existing Instance mini_regexp.

(** A store that sent one alert at 100 s, five-minute windows, both callbacks set. *)
Definition example_start : Store := SetOnChange (NewStore (5 * Minute) (10 * Minute) true).
Definition t100 : time := 100 * Second.
Definition live_alert : Alert := with_EndsAt (t100 + 10 * Minute) (with_StartsAt t100 example_alert).
Definition example_store : Store := (ShouldSend t100 (with_StartsAt t100 example_alert) example_start).1.2.

Lemma start_inv now : store_inv now example_start.
Proof.
  split; simpl; try (intros; by rewrite lookup_empty in * ); [|unfold recentCap; lia|lia].
  intros fp [m Hm]. by rewrite lookup_empty in Hm.
Qed.

Lemma example_inv : store_inv t100 example_store.
Proof. apply (inv_ShouldSend t100 _ _ (start_inv t100)). Qed.

Lemma example_active : example_store.(st_active) !! "fp1" = Some live_alert.
Proof. vm_compute. reflexivity. Qed.

Lemma reachable_inv_witness :
  reachable t100 example_store ∧ store_inv t100 example_store.
Proof.
  assert (Hr : reachable t100 example_store).
  { exact (reach_op t100 t100 (OShouldSend (with_StartsAt t100 example_alert)) example_start
             (reach_onchange t100 _ (reach_new t100 (5 * Minute) (10 * Minute) true)) (Z.le_refl t100)). }
  split; [exact Hr|exact (reachable_inv t100 example_store Hr)].
Defined.

Definition other_event : Alert := with_Event true (with_Fingerprint "fp2" example_alert).

Lemma one_page_per_mute_window_witness :
  let s := (apply_op (t100 + 2 * Minute) (OShouldSendEvent other_event)
              (ShouldSend t100 (with_StartsAt t100 example_alert) example_start).1.2).1 in
  ShouldSend (t100 + 2 * Minute) example_alert s = (false, example_alert, s, []).
Proof.
  refine (one_page_per_mute_window t100 (with_StartsAt t100 example_alert) example_start
            (t100 + 2 * Minute) example_alert _ (start_inv t100) _ _ _ eq_refl _).
  - by vm_compute.
  - vm_compute; reflexivity.
  - refine (quiet_step _ _ _ (t100 + 2 * Minute) _ _ _ _ _
              (quiet_refl _ _ _));
      [by vm_compute|apply not_elem_of_nil].
  - by vm_compute.
Defined.

Lemma mute_expires_witness :
  (ShouldSend (t100 + 5 * Minute) example_alert example_store).1.1.1 = true
  ∧ (ShouldSend (t100 + 4 * Minute) example_alert example_store).1.1.1 = false.
Proof.
  split; [|vm_compute; reflexivity].
  apply (mute_expires t100 example_store (t100 + 5 * Minute) example_alert);
    [apply example_inv|split; by vm_compute|by vm_compute|by vm_compute].
Defined.

Lemma generation_sound_witness :
  (apply_op t100 (OTouch "gone") example_store).1.(st_gen) = example_store.(st_gen)
  ∧ durable (apply_op t100 (OTouch "gone") example_store).1 = durable example_store.
Proof.
  assert (E : (apply_op t100 (OTouch "gone") example_store).1.(st_gen) = example_store.(st_gen))
    by (vm_compute; reflexivity).
  assert (Hb : bounded example_store) by (split; vm_compute; reflexivity).
  split; [exact E|]. exact (generation_sound t100 t100 (OTouch "gone") example_store example_inv Hb E).
Defined.

Lemma ResolveObject_spec_witness :
  (ShouldSend (t100 + Second) example_alert (ResolveObject t100 KindPod "prod-eu" "web-1" example_store).1).1.1.1 = true
  ∧ (ShouldSend (t100 + Second) example_alert example_store).1.1.1 = false.
Proof.
  split; [|vm_compute; reflexivity].
  apply (proj2 (ResolveObject_spec t100 KindPod "prod-eu" "web-1" example_store) _ _ live_alert);
    [apply example_active|vm_compute; reflexivity].
Defined.

Lemma escalates_once_witness :
  let s1 := (Overdue (t100 + Minute) Second "page-lead" {["severity" := "critical"]} example_store).2 in
  let s2 := (apply_op (t100 + 2 * Minute) OClean s1).1 in
  (Overdue (t100 + Minute) Second "page-lead" {["severity" := "critical"]} example_store).1 = [live_alert]
  ∧ ∀ b, b ∈ (Overdue (t100 + 2 * Minute) Second "page-lead" ∅ s2).1 → b.(a_Fingerprint) ≠ "fp1".
Proof.
  assert (E : (Overdue (t100 + Minute) Second "page-lead" {["severity" := "critical"]} example_store).1 = [live_alert])
    by (vm_compute; reflexivity).
  assert (Hinv : store_inv (t100 + Minute) example_store)
    by (apply (inv_mono t100); [by vm_compute|apply example_inv]).
  assert (Hin : live_alert ∈ (Overdue (t100 + Minute) Second "page-lead" {["severity" := "critical"]} example_store).1)
    by (rewrite E; left).
  split; [exact E|]. intros b Hb.
  refine (escalates_once (t100 + Minute) Second "page-lead" _ example_store live_alert
           (t100 + 2 * Minute) _ Second ∅ b Hinv Hin _ Hb).
  refine (quiet_step _ _ _ (t100 + 2 * Minute) _ _ _ _ _ (quiet_refl _ _ _)); [by vm_compute|].
  apply not_elem_of_nil.
Defined.

Lemma touched_alert_survives_witness :
  let s1 := Touch (t100 + 9 * Minute) "fp1" example_store in
  is_Some ((apply_op (t100 + 11 * Minute) OSweep s1).1.(st_active) !! "fp1").
Proof.
  intros s1.
  assert (Ha : is_Some (example_store.(st_active) !! "fp1")) by (exists live_alert; apply example_active).
  assert (Hh : held "fp1" (t100 + 9 * Minute) s1 (t100 + 11 * Minute) (apply_op (t100 + 11 * Minute) OSweep s1).1).
  { refine (held_step _ _ _ (t100 + 11 * Minute) OSweep _ _ _ (or_introl eq_refl) (held_refl _ _ _)).
    by vm_compute. }
  assert (Hle : t100 + 11 * Minute <= Add (t100 + 9 * Minute) example_store.(st_resolveTTL)) by by vm_compute.
  exact (proj1 (touched_alert_survives _ _ _ _ _ Ha Hh Hle)).
Defined.

Lemma Restore_Export_witness :
  let r := Restore (t100 + Hour) (Some (Export t100 example_store)) (NewStore Minute Minute false) in
  r.1.1 = 1%nat ∧ r.1.2.(st_active) = export_alert <$> example_store.(st_active).
Proof.
  assert (Hadm : ∀ fp a, example_store.(st_active) !! fp = Some a → admissible a = true ∧ IsZero a.(a_EndsAt) = false).
  { assert (E : example_store.(st_active) = {["fp1" := live_alert]}) by (vm_compute; reflexivity).
    intros fp a. rewrite E. intros [<- <-]%lookup_singleton_Some. split; vm_compute; reflexivity. }
  assert (Hle : t100 <= t100 + Hour) by by vm_compute.
  destruct (Restore_Export t100 (t100 + Hour) example_store Minute Minute false example_inv Hle Hadm) as (H1 & H2 & _).
  split; [rewrite H1; vm_compute; reflexivity|exact H2].
Defined.
