(* ===== verification/Filter.v ===== *)
(** * internal/filter: namespace and pod-name filters

    Models internal/filter/filter.go: comma-separated literals and anchored regexes. *)
From S2P Require Import Prelude GoStd.

(** ** [strings.TrimSpace] *)

(** The UTF-8 encodings of the runes [unicode.IsSpace] accepts. *)
Definition space_encodings : list (list Z) :=
  [[9]; [10]; [11]; [12]; [13]; [32]; [194; 133]; [194; 160]; [225; 154; 128];
   [226; 128; 128]; [226; 128; 129]; [226; 128; 130]; [226; 128; 131]; [226; 128; 132];
   [226; 128; 133]; [226; 128; 134]; [226; 128; 135]; [226; 128; 136]; [226; 128; 137];
   [226; 128; 138]; [226; 128; 168]; [226; 128; 169]; [226; 128; 175]; [226; 129; 159];
   [227; 128; 128]].

(** Drop one encoding of [encs] from the front, if there is one. *)
Fixpoint strip_one (encs : list (list Z)) (l : list ascii) : option (list ascii) :=
  match encs with
  | [] => None
  | e :: encs =>
    if bool_decide (byte_of <$> take (length e) l = e) then Some (drop (length e) l)
    else strip_one encs l
  end.

Fixpoint strip_all (fuel : nat) (encs : list (list Z)) (l : list ascii) : list ascii :=
  match fuel with
  | O => l
  | S fuel => match strip_one encs l with Some l => strip_all fuel encs l | None => l end
  end.

Definition trim_left (encs : list (list Z)) (l : list ascii) : list ascii := strip_all (length l) encs l.

Definition TrimSpace (s : string) : string :=
  let l := trim_left space_encodings (chars s) in
  of_chars (rev (trim_left (@rev Z <$> space_encodings) (rev l))).

(** ** Patterns *)

Definition isRegex (p : string) : bool := ContainsAny p "^$.*+?()[]{}|\".

(** The loop of [openQuote] at some position, on the rest of the pattern; [fuel] bounds the
    iterations by the length. *)
Fixpoint open_quote_loop (fuel : nat) (p : list ascii) : bool :=
  match fuel with
  | O => false
  | S fuel =>
    match p with
    | c :: ((d :: rest) as p') =>
      if negb (bool_decide (c = "\"%char)) then open_quote_loop fuel p'
      else if negb (bool_decide (d = "Q"%char)) then open_quote_loop fuel rest
      else match Index (of_chars rest) "\E" with
           | None => true
           | Some end_ => open_quote_loop fuel (drop (end_ + 2) rest)
           end
    | _ => false
    end
  end.

Definition openQuote (p : string) : bool := open_quote_loop (String.length p) (chars p).

Definition anchor (p : string) : string :=
  let p := if openQuote p then p +:+ "\E" else p in
  "^(?:" +:+ p +:+ ")".

Section filter.
Context `{RegexpLib}.

Definition compile (p : string) : option Regexp :=
  match regexp_Compile p with
  | None => None
  | Some _ => regexp_Compile (anchor p)
  end.

(** The body of the loop of [Validate]; [Some] is the error: the field and the entry that does
    not compile. *)
Definition check_entry (field p : string) : option (string * string) :=
  let p := TrimSpace p in
  if streq p "" || negb (isRegex p) then None
  else match compile p with None => Some (field, p) | Some _ => None end.

Definition filter_Validate (field raw : string) : option (string * string) :=
  first_error (check_entry field) (Split raw ","%char).

Record Set_ := MkSet { patterns : list Regexp; literals : list string }.

(** The body of the loop of [New], for one entry. *)
Definition add_entry (s : Set_) (p : string) : Set_ :=
  let p := TrimSpace p in
  if streq p "" then s
  else if negb (isRegex p) then MkSet s.(patterns) (s.(literals) ++ [p])
  else match compile p with
       | None => MkSet s.(patterns) (s.(literals) ++ [p])
       | Some re => MkSet (s.(patterns) ++ [re]) s.(literals)
       end.

Definition filter_New (raw : string) : Set_ :=
  if streq raw "" then MkSet [] [] else fold_left add_entry (Split raw ","%char) (MkSet [] []).

Definition set_empty (s : Set_) : bool :=
  (length s.(patterns) =? 0)%nat && (length s.(literals) =? 0)%nat.

Definition Matches (s : Set_) (val : string) : bool :=
  if set_empty s then true
  else existsb (λ lit, HasPrefix val lit || streq val lit) s.(literals)
       || existsb (λ re, MatchString re val) s.(patterns).

Definition Blocks (s : Set_) (val : string) : bool := negb (set_empty s) && Matches s val.

(** ** Specification *)

(** The nonblank entries of a filter string. *)
Definition entries (raw : string) : list string :=
  filter (λ p, p ≠ "") (TrimSpace <$> Split raw ","%char).

(** What one entry selects: a regex its anchored text, a literal its prefix. *)
Definition entry_selects (p val : string) : Prop :=
  if isRegex p then ∃ re, regexp_Compile (anchor p) = Some re ∧ MatchString re val = true
  else HasPrefix val p = true.

(** The loops of [Matches]. *)
Definition selects (s : Set_) (val : string) : bool :=
  existsb (λ lit, HasPrefix val lit || streq val lit) s.(literals)
  || existsb (λ re, MatchString re val) s.(patterns).

Lemma add_entry_blank s e : TrimSpace e = "" → add_entry s e = s.
Proof. unfold add_entry. intros ->. done. Qed.

Lemma add_entry_valid s field e val :
  TrimSpace e ≠ "" → check_entry field e = None →
  (selects (add_entry s e) val = true ↔ selects s val = true ∨ entry_selects (TrimSpace e) val)
  ∧ set_empty (add_entry s e) = false.
Proof.
  unfold check_entry, add_entry, selects, set_empty, entry_selects. intros Hne Hok.
  rewrite (proj2 (streq_false _ _) Hne) in *. simpl in *.
  destruct (isRegex (TrimSpace e)) eqn:Er; simpl in *.
  - destruct (compile (TrimSpace e)) as [re|] eqn:Ec; [|done]. simpl.
    assert (Er' : regexp_Compile (anchor (TrimSpace e)) = Some re)
      by (unfold compile in Ec; by destruct (regexp_Compile (TrimSpace e))).
    rewrite Er', existsb_app, length_app, Nat.add_comm. simpl. rewrite orb_false_r, !orb_true_iff.
    split; [|done]. naive_solver.
  - rewrite existsb_app, length_app, Nat.add_comm, andb_false_r. simpl. rewrite orb_false_r, !orb_true_iff, streq_true.
    split; [|done]. split; [|tauto]. intros [[?|[?| ->]]|?]; try tauto.
    right. apply HasPrefix_spec. exists "". by rewrite string_app_nil_r.
Qed.

Lemma add_entries_valid field l s val :
  first_error (check_entry field) l = None →
  let es := filter (λ p, p ≠ "") (TrimSpace <$> l) in
  (selects (fold_left add_entry l s) val = true
   ↔ selects s val = true ∨ ∃ p, p ∈ es ∧ entry_selects p val)
  ∧ (set_empty (fold_left add_entry l s) = true ↔ set_empty s = true ∧ es = []).
Proof.
  revert s. induction l as [|e l IH]; intros s Hok es.
  { subst es. simpl. split; [|tauto]. split; [by left|]. intros [Hs|(p & Hp & _)]; [done|by apply elem_of_nil in Hp]. }
  cbn [first_error] in Hok. destruct (check_entry field e) eqn:Ec; [done|].
  subst es. rewrite fmap_cons. cbn [fold_left]. destruct (IH (add_entry s e) Hok) as [IH1 IH2].
  destruct (decide (TrimSpace e = "")) as [Ee|Ee].
  - rewrite filter_cons_False by (rewrite Ee; tauto). by rewrite (add_entry_blank s e Ee) in *.
  - rewrite filter_cons_True by done. destruct (add_entry_valid s field e val Ee Ec) as [H1 H2].
    rewrite IH1, IH2, H1, H2. setoid_rewrite elem_of_cons. naive_solver.
Qed.

(** A filter string that passes validation selects exactly the values that one of its
    nonblank entries selects - a literal by prefix, a regex by its text anchored at the start -
    and, with no entry, every value as an inclusion filter and none as an exclusion filter. *)
Theorem filter_Matches_spec field raw val :
  filter_Validate field raw = None →
  (Matches (filter_New raw) val = true ↔ entries raw = [] ∨ ∃ p, p ∈ entries raw ∧ entry_selects p val)
  ∧ (Blocks (filter_New raw) val = true ↔ ∃ p, p ∈ entries raw ∧ entry_selects p val).
Proof.
  intros Hok.
  destruct (add_entries_valid field (Split raw ","%char) (MkSet [] []) val Hok) as [H1 H2].
  assert (E : filter_New raw = fold_left add_entry (Split raw ","%char) (MkSet [] [])).
  { unfold filter_New. destruct (streq raw "") eqn:Er; [|done]. by apply streq_true in Er as ->. }
  unfold Blocks, Matches. rewrite E. fold (selects (fold_left add_entry (Split raw ","%char) (MkSet [] [])) val).
  fold (entries raw) in H1, H2.
  destruct (set_empty (fold_left _ _ _)) eqn:Es; simpl.
  - destruct (proj1 H2 eq_refl) as [_ En]. rewrite En. split; [naive_solver|].
    split; [done|intros (p & Hp & _); by apply elem_of_nil in Hp].
  - rewrite H1. split; [|naive_solver]. split; [naive_solver|].
    intros [En|]; [|by right]. pose proof (proj2 H2 (conj eq_refl En)). congruence.
Qed.

End filter.

(** ** The [\Q...\E] scan *)

(** Reference automaton over the pattern's bytes. *)
Inductive quote_state := Plain | Escape | Quoted | QuotedEscape.

Definition quote_step (q : quote_state) (c : ascii) : quote_state :=
  match q with
  | Plain => if decide (c = "\"%char) then Escape else Plain
  | Escape => if decide (c = "Q"%char) then Quoted else Plain
  | Quoted => if decide (c = "\"%char) then QuotedEscape else Quoted
  | QuotedEscape => if decide (c = "E"%char) then Plain
                    else if decide (c = "\"%char) then QuotedEscape else Quoted
  end.

Definition in_quote (q : quote_state) : bool :=
  match q with Quoted | QuotedEscape => true | _ => false end.

Lemma Index_cons c l p :
  Index (of_chars (c :: l)) p
  = if HasPrefix (of_chars (c :: l)) p then Some 0%nat else S <$> Index (of_chars l) p.
Proof. done. Qed.

Lemma Index_tail_None c l p : Index (of_chars (c :: l)) p = None → Index (of_chars l) p = None.
Proof. rewrite Index_cons. destruct (HasPrefix _ _); [done|]. by destruct (Index (of_chars l) p). Qed.

Lemma HasPrefix_other c l : c ≠ "\"%char → HasPrefix (of_chars (c :: l)) "\E" = false.
Proof. intros Hc. cbn. by rewrite bool_decide_false by congruence. Qed.

Lemma HasPrefix_escape c l : c ≠ "E"%char → HasPrefix (of_chars ("\"%char :: c :: l)) "\E" = false.
Proof. intros Hc. cbn. by rewrite (bool_decide_false (_ = c)) by congruence. Qed.

Lemma HasPrefix_end l : HasPrefix (of_chars ("\"%char :: "E"%char :: l)) "\E" = true.
Proof. exact (HasPrefix_app "\E" (of_chars l)). Qed.

Lemma quoted_run_none l q :
  q = Quoted → Index (of_chars l) "\E" = None → in_quote (fold_left quote_step l q) = true.
Proof.
  intros ->. cut (∀ l, (Index (of_chars l) "\E" = None → in_quote (fold_left quote_step l Quoted) = true)
    ∧ (Index (of_chars ("\"%char :: l)) "\E" = None → in_quote (fold_left quote_step l QuotedEscape) = true)).
  { intros Hc. apply Hc. }
  clear l. induction l as [|c l [IH1 IH2]]; [done|]. split.
  - intros Hi. cbn [fold_left quote_step]. destruct (decide (c = "\"%char)) as [->|Hc]; [by apply IH2|].
    apply IH1. by apply Index_tail_None in Hi.
  - intros Hi. cbn [fold_left quote_step]. destruct (decide (c = "E"%char)) as [->|He].
    { by rewrite Index_cons, HasPrefix_end in Hi. }
    apply Index_tail_None in Hi.
    destruct (decide (c = "\"%char)) as [->|Hc]; [by apply IH2|].
    apply IH1. by apply Index_tail_None in Hi.
Qed.

Lemma quoted_run_some l e :
  Index (of_chars l) "\E" = Some e →
  fold_left quote_step l Quoted = fold_left quote_step (drop (e + 2) l) Plain.
Proof.
  cut (∀ l, (∀ e, Index (of_chars l) "\E" = Some e →
               fold_left quote_step l Quoted = fold_left quote_step (drop (e + 2) l) Plain)
    ∧ (∀ e, Index (of_chars ("\"%char :: l)) "\E" = Some e →
               fold_left quote_step l QuotedEscape = fold_left quote_step (drop (e + 1) l) Plain)).
  { intros Hc. by apply Hc. }
  clear l e. induction l as [|c l [IH1 IH2]]; [done|]. 
  assert (Hstep : ∀ e, c ≠ "\"%char → Index (of_chars (c :: l)) "\E" = Some e →
            fold_left quote_step l Quoted = fold_left quote_step (drop (e + 1) l) Plain).
  { intros e Hc Hi. rewrite Index_cons, HasPrefix_other in Hi by done.
    destruct (Index (of_chars l) "\E") as [e'|] eqn:Hi'; [|done]. simpl in Hi. simplify_eq.
    rewrite (IH1 e' eq_refl). f_equal. f_equal. lia. }
  split.
  - intros e Hi. cbn [fold_left quote_step]. rewrite Nat.add_succ_r. cbn [drop].
    destruct (decide (c = "\"%char)) as [->|Hc]; [by apply IH2|by apply Hstep].
  - intros e Hi. cbn [fold_left quote_step]. destruct (decide (c = "E"%char)) as [->|He].
    { rewrite Index_cons, HasPrefix_end in Hi. by simplify_eq. }
    rewrite Index_cons, HasPrefix_escape in Hi by done.
    destruct (Index (of_chars (c :: l)) "\E") as [e'|] eqn:Hi'; [|done]. simpl in Hi. simplify_eq.
    cbn [drop Nat.add]. destruct (decide (c = "\"%char)) as [->|Hc].
    + rewrite (IH2 e' Hi'). done.
    + rewrite (Hstep e' Hc eq_refl). done.
Qed.

Lemma quote_step_plain c : c ≠ "\"%char → quote_step Plain c = Plain.
Proof. intros Hc. simpl. by rewrite decide_False. Qed.
Lemma quote_step_escape c : c ≠ "Q"%char → quote_step Escape c = Plain.
Proof. intros Hc. simpl. by rewrite decide_False. Qed.

(** The index-jumping scan for an unterminated [\Q] agrees with reading the pattern one
    byte at a time through the four-state automaton of the quoting syntax, on every pattern;
    the loop needs no more iterations than the pattern has bytes. *)
Theorem openQuote_automaton p :
  openQuote p = in_quote (fold_left quote_step (chars p) Plain).
Proof.
  unfold openQuote. rewrite <- chars_length.
  cut (∀ n l, (length l <= n)%nat → open_quote_loop n l = in_quote (fold_left quote_step l Plain)).
  { intros Hc. by apply Hc. }
  clear p. induction n as [|n IH]; intros l Hl; [by destruct l; simpl in *; [|lia]|].
  destruct l as [|c [|d rest]]; [done| |].
  { simpl. by destruct (decide (c = "\"%char)). }
  cbn [open_quote_loop]. simpl in Hl.
  destruct (decide (c = "\"%char)) as [->|Hc].
  - rewrite bool_decide_true by done. cbn [negb fold_left]. change (quote_step Plain "\"%char) with Escape.
    destruct (decide (d = "Q"%char)) as [->|Hd].
    + rewrite bool_decide_true by done. cbn [negb]. change (quote_step Escape "Q"%char) with Quoted.
      destruct (Index (of_chars rest) "\E") as [e|] eqn:Ei.
      * rewrite (quoted_run_some _ _ Ei). apply IH. rewrite length_drop. lia.
      * symmetry. by apply quoted_run_none.
    + rewrite bool_decide_false by done. cbn [negb]. rewrite quote_step_escape by done.
      apply IH. lia.
  - rewrite bool_decide_false by done. cbn [negb]. rewrite IH by (simpl; lia).
    cbn [fold_left]. by rewrite (quote_step_plain c).
Qed.

Example openQuote_open : openQuote "a\Qb.c" = true. Proof. reflexivity. Qed.
Example openQuote_closed : openQuote "a\Qb\E.c" = false. Proof. reflexivity. Qed.
Example openQuote_escaped : openQuote "a\\Qb" = false. Proof. reflexivity. Qed.
Example TrimSpace_both : TrimSpace "  prod- 	" = "prod-". Proof. reflexivity. Qed.

Lemma filter_Matches_spec_witness :
  @filter_Validate mini_regexp "f" "prod-, kube" = None
  ∧ (@Matches mini_regexp (@filter_New mini_regexp "prod-, kube") "prod-eu" = true
     ↔ entries "prod-, kube" = [] ∨ ∃ p, p ∈ entries "prod-, kube" ∧ @entry_selects mini_regexp p "prod-eu").
Proof.
  assert (Hok : @filter_Validate mini_regexp "f" "prod-, kube" = None) by (vm_compute; reflexivity).
  split; [exact Hok|exact (proj1 (@filter_Matches_spec mini_regexp "f" "prod-, kube" "prod-eu" Hok))].
Defined.
