(* ===== verification/Shard.v ===== *)
(** * internal/shard and the shard-scoped names of internal/app

    Models internal/shard/{shard,env}.go, internal/env/env.go, [shardKey] and [shardGate] of
    internal/app/controller.go and [leaseName] of internal/app/leaderelection.go. *)
From S2P Require Import Prelude GoStd AlertModel.

(** ** internal/env: the process environment is a function; [""] is unset *)

Definition Or_ (getenv : string → string) (key def : string) : string :=
  let v := getenv key in if negb (streq v "") then v else def.

Definition IntOr (getenv : string → string) (key : string) (def : Z) : Z :=
  match Atoi (getenv key) with Some v => v | None => def end.

Definition env_Bool (getenv : string → string) (key : string) (def : bool) : bool :=
  let v := getenv key in
  if streq v "1" || streq v "true" || streq v "TRUE" || streq v "yes" then true
  else if streq v "0" || streq v "false" || streq v "FALSE" || streq v "no" then false
  else def.

(** ** Ownership *)

Record Sharder := MkSharder { sh_index : Z; sh_total : Z }.

(** [shard.New]: [None] is [ok == false]. *)
Definition shard_New (index total : Z) : option Sharder :=
  if total <=? 1 then Some (MkSharder 0 1)
  else if (index <? 0) || (total <=? index) then None
  else Some (MkSharder index total).

(** [nil] is [None] for the methods. *)
Definition Enabled (s : option Sharder) : bool :=
  match s with Some s => 1 <? s.(sh_total) | None => false end.

Definition shardOr (s : option Sharder) : Sharder :=
  match s with None => MkSharder 0 1 | Some s => s end.

Definition shard_Index (s : option Sharder) : Z := (shardOr s).(sh_index).
Definition shard_Total (s : option Sharder) : Z := (shardOr s).(sh_total).

(** The modulo is taken in [uint64] and converted back to [int]. *)
Definition Owns (s : option Sharder) (key : string) : bool :=
  if negb (Enabled s) then true
  else wrap64 (fnv32a key mod (shard_Total s mod 2 ^ 64)) =? shard_Index s.

Definition EnvTotal : string := "ALERTKUBE_SHARD_TOTAL".
Definition EnvIndex : string := "ALERTKUBE_SHARD_INDEX".

(** The error carries the index and the total of its message. *)
Definition FromEnv (getenv : string → string) : (Z * Z) + Sharder :=
  let total := IntOr getenv EnvTotal 1 in
  let index := IntOr getenv EnvIndex 0 in
  match shard_New index total with
  | None => inl (index, total)
  | Some s => inr s
  end.

(** ** internal/app *)

Definition appName : string := "alertkube".

Definition shardKey (a : Alert) : string := a.(a_Kind) +:+ "/" +:+ a.(a_Namespace) +:+ "/" +:+ a.(a_Name).

(** [shardGate]: whether the alert reaches the wrapped emitter. *)
Definition shardGate (s : option Sharder) (a : Alert) : bool :=
  if negb (Enabled s) then true else Owns s (shardKey a).

Definition leaseName (s : option Sharder) : string :=
  if negb (Enabled s) then appName
  else appName +:+ "-shard-" +:+ Itoa (shard_Index s).

(** * Theorems *)

Lemma shard_New_enabled i n s :
  1 < n → shard_New i n = Some s → 0 <= i < n ∧ s = MkSharder i n.
Proof.
  unfold shard_New. intros Hn. rewrite (proj2 (Z.leb_gt n 1)) by done.
  destruct ((i <? 0) || (n <=? i)) eqn:E; [done|]. bool_hyps. intros [= <-].
  split; [lia|done].
Qed.

Lemma Owns_enabled i n key :
  1 < n < 2 ^ 63 → Owns (Some (MkSharder i n)) key = (fnv32a key mod n =? i).
Proof.
  intros Hn. unfold Owns, Enabled, shard_Total, shard_Index. simpl.
  rewrite (proj2 (Z.ltb_lt 1 n)) by lia. simpl. rewrite (Z.mod_small n (2 ^ 64)) by lia.
  rewrite wrap64_small; [done|]. unfold in64.
  pose proof (fnv32a_range key). pose proof (Z.mod_pos_bound (fnv32a key) n). lia.
Qed.

(** In a complete shard set every alert passes the gate of exactly one replica, and all
    alerts of one object - whatever their reason, severity or fingerprint - pass the same
    one. *)
Theorem exactly_one_owner n a :
  1 < n < 2 ^ 63 →
  ∃ i s, (0 <= i < n ∧ shard_New i n = Some s ∧ shardGate (Some s) a = true)
    ∧ (∀ j s', shard_New j n = Some s' → shardGate (Some s') a = true → j = i)
    ∧ (∀ b, a_Kind b = a_Kind a → a_Namespace b = a_Namespace a → a_Name b = a_Name a →
        shardGate (Some s) b = true).
Proof.
  intros Hn. set (i := fnv32a (shardKey a) mod n).
  assert (Hi : 0 <= i < n) by (apply Z.mod_pos_bound; lia).
  assert (Hgate : ∀ j b, shardGate (Some (MkSharder j n)) b = (fnv32a (shardKey b) mod n =? j)).
  { intros j b. unfold shardGate. rewrite Owns_enabled by done.
    unfold Enabled. simpl. by rewrite (proj2 (Z.ltb_lt 1 n)) by lia. }
  exists i, (MkSharder i n). split_and!; [lia|lia| | | |].
  - unfold shard_New. rewrite (proj2 (Z.leb_gt n 1)), (proj2 (Z.ltb_ge i 0)), (proj2 (Z.leb_gt n i)) by lia. done.
  - rewrite Hgate. apply Z.eqb_refl.
  - intros j s' (_ & ->)%shard_New_enabled Hj; [|lia]. rewrite Hgate in Hj. by apply Z.eqb_eq in Hj.
  - intros b Hk Hns Hname. rewrite Hgate. unfold shardKey. rewrite Hk, Hns, Hname. apply Z.eqb_refl.
Qed.

(** A replica started from the environment is in range or not started. *)
Lemma FromEnv_valid getenv s :
  FromEnv getenv = inr s → 0 <= s.(sh_index) < s.(sh_total).
Proof.
  unfold FromEnv. destruct (shard_New _ _) as [s'|] eqn:E; [|done]. intros [= ->].
  unfold shard_New in E. destruct (_ <=? 1) eqn:Et; [by simplify_eq|].
  destruct (_ || _) eqn:Er; [done|]. bool_hyps. simplify_eq. simpl. lia.
Qed.

(** Two replicas started with sharding enabled contend for the same Lease exactly when
    they are the same shard, and never for the unsharded one. *)
Theorem leaseName_per_shard getenv getenv' s s' :
  FromEnv getenv = inr s → FromEnv getenv' = inr s' →
  Enabled (Some s) = true →
  leaseName (Some s) = leaseName (Some s') ↔ Enabled (Some s') = true ∧ s.(sh_index) = s'.(sh_index).
Proof.
  intros [Hi _]%FromEnv_valid [Hi' _]%FromEnv_valid He. unfold leaseName. rewrite He.
  destruct (Enabled (Some s')) eqn:He'; cbn [negb].
  - split; [|intros [_ E]; unfold shard_Index; simpl; by rewrite E]. intros E. split; [done|].
    apply string_app_inv_head in E. by apply string_app_inv_head, Itoa_inj in E.
  - split; [|by intros []]. intros E.
    apply (f_equal String.length) in E. rewrite !string_app_length in E. simpl in E. lia.
Qed.

Definition shard_env (index : string) (key : string) : string :=
  if streq key EnvTotal then "3" else if streq key EnvIndex then index else "".

Lemma leaseName_per_shard_witness :
  leaseName (Some (MkSharder 0 3)) ≠ leaseName (Some (MkSharder 2 3)).
Proof.
  intros E.
  assert (H0 : FromEnv (shard_env "0") = inr (MkSharder 0 3)) by reflexivity.
  assert (H2 : FromEnv (shard_env "2") = inr (MkSharder 2 3)) by reflexivity.
  apply (leaseName_per_shard _ _ _ _ H0 H2 eq_refl) in E as [_ E]. discriminate E.
Defined.

Lemma exactly_one_owner_witness :
  ∃ i s, shard_New i 3 = Some s ∧ shardGate (Some s) example_alert = true.
Proof.
  assert (Hn : 1 < 3 < 2 ^ 63) by lia.
  destruct (exactly_one_owner 3 example_alert Hn) as (i & s & (_ & H1 & H2) & _). by exists i, s.
Defined.
