(* ===== verification/Leader.v ===== *)
(** * internal/app/leaderelection.go: one controller at a time, and a shutdown that ends

    A process is a [replica]: the main goroutine inside [runLeaderElection] (its position is a
    [phase]), client-go's elector, and the goroutine in which client-go runs the wrapped
    [OnStartedLeading]. [step] gives the effect of one event: a critical section of [mu], a
    ready case of a [select], a timer, or something client-go does. A goroutine that can move
    does so before time passes ([Tick]); everything else may happen at any moment.

    client-go's election is a class, [Election]: when a candidate may take the lease, and how
    long a leader goes on without renewing it. The configuration the code passes is what turns
    these two documented facts into mutual exclusion.

    The budgets of the shutdown (internal/app/{pipeline,app,controller}.go) are here too. *)
From S2P Require Import Prelude GoStd Shard.

(** ** The shutdown budget *)

Definition controllerDrainBudget : duration := 35 * Second.
Definition finalSaveTimeout : duration := 5 * Second.
Definition enrichDrainTimeout : duration := 10 * Second.
Definition dispatchTimeout : duration := 20 * Second.
Definition dispatchDrainTimeout : duration := 30 * Second.
Definition httpShutdownTimeout : duration := 5 * Second.
Definition traceFlushTimeout : duration := 5 * Second.

(** The chart's terminationGracePeriodSeconds. *)
Definition terminationGracePeriod : duration := 45 * Second.

(** When a stage that starts at [now], needs [need] and runs under a context with deadline
    [limit] returns. *)
Definition stage_end (now : time) (need : duration) (limit : time) : time :=
  Z.max now (Z.min (now + need) limit).

(** [drainWatchers]: the watchers with background work drain one after the other, all under one
    deadline. *)
Definition drainWatchers (now deadline : time) (needs : list duration) : time :=
  let limit := Z.min deadline (now + enrichDrainTimeout) in
  foldl (λ t need, stage_end t need limit) now needs.

(** [shutdown]'s schedule: when the final save starts, and when it returns. The two joins
    without a deadline of their own, [stopInformers] and [wg.Wait], take [joinInformers] and
    [joinProducers]; [enrich] is what each watcher needs to drain. *)
Definition shutdown_schedule (start : time) (joinInformers : duration) (enrich : list duration)
    (joinProducers drain save : duration) : time * time :=
  let deadline := start + (controllerDrainBudget - finalSaveTimeout) in
  let t2 := drainWatchers (start + joinInformers) deadline enrich in
  let t3 := t2 + joinProducers in
  let t4 := stage_end t3 drain (Z.min deadline (t3 + dispatchDrainTimeout)) in
  (t4, stage_end t4 save (t4 + finalSaveTimeout)).

(** ** The election's configuration *)

Record LeaderElectionConfig := MkLeaderElectionConfig {
  le_Name : string;
  le_Namespace : string;
  le_Identity : string;
  le_LeaseDuration : duration;
  le_RenewDeadline : duration;
  le_RetryPeriod : duration;
  le_ReleaseOnCancel : bool;
}.

(** [runWithLeaderElection]'s configuration, with the [ReleaseOnCancel] that
    [runLeaderElection] sets. *)
Definition runWithLeaderElection (hostname leaderElectionLeaseID leaderElectionNS : string)
    (sharder : option Sharder) : LeaderElectionConfig :=
  let id := if decide (leaderElectionLeaseID = "") then hostname else leaderElectionLeaseID in
  MkLeaderElectionConfig (leaseName sharder) leaderElectionNS id
    (30 * Second) (20 * Second) (5 * Second) true.

(** ** One process *)

(** client-go's elector: [RunOrDie] acquires, spawns the callback and renews; when it stops
    renewing it cancels the callback's context, calls [OnStoppedLeading] and returns. *)
Inductive elector := Contending | Leading | Stopped | Done.

(** The goroutine of the wrapped [OnStartedLeading]: spawned but not yet at the mutex, sent
    away there, inside [run], or past [close(done)]. *)
Inductive callback := NotSpawned | Spawned | Refused | Running | Finished.

(** The main goroutine: the first [select]; between it and the mutex; waiting for the
    controller; waiting for the release; returned to [Run] at a time; process gone. *)
Inductive phase :=
| Selecting
| Locking (lost : bool)
| Draining (lost : bool) (expiry : time)
| Releasing (expiry : time)
| Returned (at_ : time)
| Exited.

Record replica := Replica {
  p_clock : time;
  p_ctx : option time;       (* when the shutdown signal cancelled ctx *)
  p_leCtx : bool;            (* leCancel called *)
  p_elector : elector;
  p_renewed : time;          (* the last renewal of the lease *)
  p_elected : option time;   (* when elected was closed *)
  p_callback : callback;
  p_started : bool;
  p_stopping : bool;
  p_main : phase;
  p_led : option bool;       (* what OnStoppedLeading saw *)
  p_failed : bool;           (* history: the elector stopped although leCtx was live *)
  p_overran : bool;          (* history: the drain hit its budget *)
}.

#[export] Instance elector_eq_dec : EqDecision elector.
Proof. solve_decision. Defined.
#[export] Instance callback_eq_dec : EqDecision callback.
Proof. solve_decision. Defined.
#[export] Instance phase_eq_dec : EqDecision phase.
Proof. solve_decision. Defined.

Definition started_process (now : time) : replica :=
  Replica now None false Contending now None NotSpawned false false Selecting None false false.

Definition set_ctx t p := Replica p.(p_clock) (Some t) p.(p_leCtx) p.(p_elector) p.(p_renewed)
  p.(p_elected) p.(p_callback) p.(p_started) p.(p_stopping) p.(p_main) p.(p_led) p.(p_failed) p.(p_overran).
Definition set_main m p := Replica p.(p_clock) p.(p_ctx) p.(p_leCtx) p.(p_elector) p.(p_renewed)
  p.(p_elected) p.(p_callback) p.(p_started) p.(p_stopping) m p.(p_led) p.(p_failed) p.(p_overran).
Definition set_callback c s p := Replica p.(p_clock) p.(p_ctx) p.(p_leCtx) p.(p_elector) p.(p_renewed)
  p.(p_elected) c s p.(p_stopping) p.(p_main) p.(p_led) p.(p_failed) p.(p_overran).
Definition leCancel p := Replica p.(p_clock) p.(p_ctx) true p.(p_elector) p.(p_renewed)
  p.(p_elected) p.(p_callback) p.(p_started) p.(p_stopping) p.(p_main) p.(p_led) p.(p_failed) p.(p_overran).
Definition set_elector e r f p := Replica p.(p_clock) p.(p_ctx) p.(p_leCtx) e r
  p.(p_elected) p.(p_callback) p.(p_started) p.(p_stopping) p.(p_main) p.(p_led) f p.(p_overran).
Definition close_elected p := Replica p.(p_clock) p.(p_ctx) p.(p_leCtx) Done p.(p_renewed)
  (Some p.(p_clock)) p.(p_callback) p.(p_started) p.(p_stopping) p.(p_main) (Some p.(p_started))
  p.(p_failed) p.(p_overran).
Definition set_stopping p := Replica p.(p_clock) p.(p_ctx) p.(p_leCtx) p.(p_elector) p.(p_renewed)
  p.(p_elected) p.(p_callback) p.(p_started) true p.(p_main) p.(p_led) p.(p_failed) p.(p_overran).
Definition set_overran p := Replica p.(p_clock) p.(p_ctx) p.(p_leCtx) p.(p_elector) p.(p_renewed)
  p.(p_elected) p.(p_callback) p.(p_started) p.(p_stopping) p.(p_main) p.(p_led) p.(p_failed) true.
Definition advance d p := Replica (p.(p_clock) + d) p.(p_ctx) p.(p_leCtx) p.(p_elector) p.(p_renewed)
  p.(p_elected) p.(p_callback) p.(p_started) p.(p_stopping) p.(p_main) p.(p_led) p.(p_failed) p.(p_overran).

(** [runCtx] is cancelled by the signal ([AfterFunc]), or through [leadCtx] by [leCtx] or by
    the elector's return. *)
Definition runCtx_done (p : replica) : bool :=
  bool_decide (is_Some p.(p_ctx)) || p.(p_leCtx) || bool_decide (p.(p_elector) = Done).

(** From the controller wait on: return when the lease is lost (which runs the deferred
    [leCancel]), else cancel the elector and wait for the release. *)
Definition after_drain (lost : bool) (expiry : time) (p : replica) : replica :=
  set_main (if lost then Returned p.(p_clock) else Releasing expiry) (leCancel p).

Inductive event :=
| Signal | Acquire | Renew | Stop | Return_ | Begin | Finish
| SelectSignal | SelectElected | Lock | Joined | Expired | Released | Exit.

(** The wrapped [OnStartedLeading], at the mutex. *)
Definition OnStartedLeading (p : replica) : replica :=
  if p.(p_stopping) then set_callback Refused p.(p_started) p else set_callback Running true p.

(** The critical section after the first [select], with the timer that follows it. *)
Definition stop_section (lost : bool) (p : replica) : replica :=
  let wait := p.(p_started) in
  let expiry := p.(p_clock) + controllerDrainBudget in
  let p := set_stopping p in
  if wait then set_main (Draining lost expiry) p else after_drain lost expiry p.

#[export] Instance event_eq_dec : EqDecision event.
Proof. solve_decision. Defined.

Definition step (p : replica) (e : event) : option replica :=
  if decide (p.(p_main) = Exited) then None else
  match e with
  | Signal => if p.(p_ctx) is Some _ then None else Some (set_ctx p.(p_clock) p)
  | Acquire =>
      if decide (p.(p_elector) = Contending) then
        Some (set_callback Spawned p.(p_started) (set_elector Leading p.(p_clock) p.(p_failed) p))
      else None
  | Renew =>
      if decide (p.(p_elector) = Leading) then
        Some (set_elector Leading p.(p_clock) p.(p_failed) p)
      else None
  | Stop =>
      match p.(p_elector) with
      | Leading => Some (set_elector Stopped p.(p_renewed) (p.(p_failed) || negb p.(p_leCtx)) p)
      | Contending => if p.(p_leCtx) then Some (set_elector Stopped p.(p_renewed) p.(p_failed) p) else None
      | _ => None
      end
  | Return_ => if decide (p.(p_elector) = Stopped) then Some (close_elected p) else None
  | Begin => if decide (p.(p_callback) = Spawned) then Some (OnStartedLeading p) else None
  | Finish =>
      if decide (p.(p_callback) = Running ∧ runCtx_done p = true)
      then Some (set_callback Finished p.(p_started) p) else None
  | SelectSignal =>
      if decide (p.(p_main) = Selecting ∧ is_Some p.(p_ctx))
      then Some (set_main (Locking false) p) else None
  | SelectElected =>
      if decide (p.(p_main) = Selecting ∧ is_Some p.(p_elected))
      then Some (set_main (Locking true) p) else None
  | Lock => if p.(p_main) is Locking lost then Some (stop_section lost p) else None
  | Joined =>
      if p.(p_main) is Draining lost expiry then
        if decide (p.(p_callback) = Finished) then Some (after_drain lost expiry p) else None
      else None
  | Expired =>
      match p.(p_main) with
      | Draining lost expiry =>
          if expiry <=? p.(p_clock) then Some (after_drain lost expiry (set_overran p)) else None
      | Releasing expiry =>
          if expiry <=? p.(p_clock) then Some (set_main (Returned p.(p_clock)) p) else None
      | _ => None
      end
  | Released =>
      if p.(p_main) is Releasing _ then
        if decide (is_Some p.(p_elected)) then Some (set_main (Returned p.(p_clock)) p) else None
      else None
  | Exit =>
      if p.(p_main) is Returned _ then
        Some (set_main Exited (set_elector Done p.(p_renewed) p.(p_failed) p))
      else None
  end.

(** The main goroutine's own events up to its return. *)
Definition main_events : list event := [SelectSignal; SelectElected; Lock; Joined; Expired; Released].

Definition urgent (p : replica) : bool :=
  existsb (λ e, bool_decide (is_Some (step p e))) main_events.

(** The timer the main goroutine sleeps on: [controllerDrainBudget]'s, or, once it has returned
    to [Run], what [shutdownServers] and the trace flush may take. *)
Definition timer (p : replica) : option time :=
  match p.(p_main) with
  | Draining _ expiry | Releasing expiry => Some expiry
  | Returned at_ => Some (at_ + httpShutdownTimeout + traceFlushTimeout)
  | _ => None
  end.

Definition tick (p : replica) (d : duration) : option replica :=
  if (0 <? d) && negb (urgent p) && (if timer p is Some t then p.(p_clock) + d <=? t else true)
  then Some (advance d p) else None.

Inductive move := Do (e : event) | Tick (d : duration).

Definition apply_move (p : replica) (m : move) : option replica :=
  match m with Do e => step p e | Tick d => tick p d end.

Fixpoint run (p : replica) (ms : list move) : option replica :=
  match ms with
  | [] => Some p
  | m :: ms => apply_move p m ≫= λ p', run p' ms
  end.

Inductive reachable : replica → Prop :=
| reach_start now : reachable (started_process now)
| reach_move p m p' : reachable p → apply_move p m = Some p' → reachable p'.

(** ** Several processes contending for one lease *)

(** client-go's election, as documented: a candidate waits LeaseDuration after the last renewal
    it can have seen before it takes a lease that was not released, and a leader that has not
    renewed within RenewDeadline gives up before more time passes. *)
Class Election := {
  may_acquire : LeaderElectionConfig → list replica → nat → bool;
  may_hold : LeaderElectionConfig → replica → bool;
}.

Class ElectionLaws `{Election} := {
  acquire_waits cfg s i j r :
    may_acquire cfg s i = true → s !! j = Some r → i ≠ j → r.(p_elector) = Leading →
    r.(p_renewed) + cfg.(le_LeaseDuration) <= r.(p_clock);
  hold_bounded cfg r :
    may_hold cfg r = true → r.(p_elector) = Leading →
    r.(p_clock) <= r.(p_renewed) + cfg.(le_RenewDeadline);
}.

Section system.
Context `{Election}.

(** The replicas of one shard: each has its own hostname and identity flag. *)
Context (hostname leaseID : nat → string) (ns : string) (sharder : option Sharder).

Definition config_of (i : nat) : LeaderElectionConfig :=
  runWithLeaderElection (hostname i) (leaseID i) ns sharder.

Inductive sys_move := At (i : nat) (e : event) | Pass (d : duration).

(** One process moves, or time passes for all of them. *)
Definition sys_step (s : list replica) (m : sys_move) : option (list replica) :=
  match m with
  | At i e =>
      if implb (bool_decide (e = Acquire)) (may_acquire (config_of i) s i) then
        p ← s !! i; p' ← step p e; Some (<[i := p']> s)
      else None
  | Pass d =>
      s' ← mapM (λ p, tick p d) s;
      if forallb (λ '(i, p), may_hold (config_of i) p) (imap pair s') then Some s' else None
  end.

Fixpoint sys_run (s : list replica) (ms : list sys_move) : option (list replica) :=
  match ms with
  | [] => Some s
  | m :: ms => sys_step s m ≫= λ s', sys_run s' ms
  end.

Definition fresh_system (starts : list time) : list replica := started_process <$> starts.

Definition sys_reachable (s : list replica) : Prop :=
  ∃ starts ms, sys_run (fresh_system starts) ms = Some s.

End system.

(** Whether the process runs a controller. *)
Definition controller_running (p : replica) : bool :=
  bool_decide (p.(p_callback) = Running) && negb (bool_decide (p.(p_main) = Exited)).

(** * Theorems *)

(** ** What holds in every reachable process *)

(** The first reason to stop: the signal, or the elector's return. *)
Definition first_of (a b : option time) : option time :=
  match a, b with
  | Some a, Some b => Some (a `min` b)
  | Some a, None => Some a
  | None, b => b
  end.

Arguments first_of : simpl never.

Definition trigger (p : replica) : option time := first_of p.(p_ctx) p.(p_elected).

(** The first [select] and the mutex take no time, the budget runs from the trigger, and the
    process outlives its return by what the servers and the trace flush may take. *)
Definition in_time (m : phase) (now : time) (trig : option time) : Prop :=
  match m with
  | Selecting => ∀ t, trig = Some t → t = now
  | Locking _ => trig = Some now
  | Draining _ x | Releasing x => trig = Some (x - controllerDrainBudget) ∧ now <= x
  | Returned t => ∃ x, trig = Some (x - controllerDrainBudget) ∧ t <= x
      ∧ now <= t + httpShutdownTimeout + traceFlushTimeout
  | Exited => True
  end.

Definition past_lock (m : phase) : bool :=
  match m with Selecting | Locking _ => false | _ => true end.
Definition past_drain (m : phase) : bool :=
  match m with Releasing _ | Returned _ | Exited => true | _ => false end.

(** The flags say where the goroutines are; the controller is running past the drain only when
    the budget cut it; the elector of a process whose callback was spawned leads unless the
    renewal failed or [leCancel] was called. *)
Record good (p : replica) : Prop := {
  g_started : p.(p_started) = bool_decide (p.(p_callback) = Running ∨ p.(p_callback) = Finished);
  g_stopping : p.(p_stopping) = past_lock p.(p_main);
  g_leCtx : p.(p_leCtx) = past_drain p.(p_main);
  g_drained : p.(p_leCtx) = true → p.(p_callback) = Running → p.(p_overran) = true;
  g_contending : p.(p_elector) = Contending → p.(p_callback) = NotSpawned;
  g_stopped : p.(p_elector) = Stopped ∨ p.(p_elector) = Done → p.(p_callback) ≠ NotSpawned →
    p.(p_failed) = true ∨ p.(p_leCtx) = true;
  g_past : ∀ t, p.(p_ctx) = Some t ∨ p.(p_elected) = Some t → t <= p.(p_clock);
  g_overran : p.(p_overran) = true → p.(p_leCtx) = true;
  g_elected : is_Some p.(p_elected) → p.(p_elector) = Done;
  g_time : in_time p.(p_main) p.(p_clock) (trigger p);
}.

Lemma good_start now : good (started_process now).
Proof. split; simpl; try done; intros; naive_solver. Qed.

(** The branches of a step that are taken. *)
Ltac step_cases :=
  repeat match goal with
  | H : None = Some _ |- _ => discriminate H
  | H : Some _ = Some _ |- _ => injection H as <-
  | H : (if decide ?P then _ else _) = Some _ |- _ => destruct (decide P)
  | H : match ?x with _ => _ end = Some _ |- _ => destruct x eqn:?
  end.

Ltac unfold_budgets :=
  unfold terminationGracePeriod, controllerDrainBudget, httpShutdownTimeout, traceFlushTimeout,
    finalSaveTimeout, enrichDrainTimeout, dispatchDrainTimeout, Second in *.

(** A second reason does not move the first. *)
Lemma first_of_ctx now b : (∀ t, b = Some t → t <= now) → first_of (Some now) b = Some (default now b).
Proof. destruct b as [b|]; unfold first_of; simpl; intros H; [|done]. f_equal. specialize (H b eq_refl). lia. Qed.

Lemma first_of_elected now a : (∀ t, a = Some t → t <= now) → first_of a (Some now) = Some (default now a).
Proof. destruct a as [a|]; unfold first_of; simpl; intros H; [|done]. f_equal. specialize (H a eq_refl). lia. Qed.

Lemma trigger_le p t : p.(p_ctx) = Some t ∨ p.(p_elected) = Some t → ∃ u, trigger p = Some u ∧ u <= t.
Proof.
  unfold trigger, first_of. intros [->| ->]; [destruct (p_elected p)|destruct (p_ctx p)];
    eexists; (split; [done|lia]).
Qed.

Lemma in_time_more m now trig : in_time m now trig → in_time m now (Some (default now trig)).
Proof. destruct m, trig; simpl; naive_solver. Qed.

Lemma good_Signal p p' : good p → step p Signal = Some p' → good p'.
Proof.
  intros [Hst Hsp Hle Hdr Hco Hse Hpa Hov Hel Hti] E. unfold step in E. step_cases.
  split; simpl; try done.
  - intros t [E|E]; [injection E as <-; lia|auto].
  - unfold trigger in *. simpl. rewrite first_of_ctx by auto.
    rewrite Heqo in Hti. by apply in_time_more.
Qed.

Lemma good_Return p p' : good p → step p Return_ = Some p' → good p'.
Proof.
  intros [Hst Hsp Hle Hdr Hco Hse Hpa Hov Hel Hti] E. unfold step in E. step_cases.
  split; simpl; try done.
  - intros _. auto.
  - intros t [E|E]; [auto|injection E as <-; lia].
  - unfold trigger in *. simpl. rewrite first_of_elected by auto.
    destruct (p_elected p) as [u|] eqn:Eu; [rewrite Hel in *; done|].
    replace (first_of _ None) with (p_ctx p) in Hti by (by destruct (p_ctx p)).
    by apply in_time_more.
Qed.

Lemma first_of_some a b now :
  (∀ t, first_of a b = Some t → t = now) → is_Some a ∨ is_Some b → first_of a b = Some now.
Proof.
  intros H Hs. destruct (first_of a b) as [t|] eqn:E; [by rewrite (H t)|].
  destruct a, b; unfold first_of in E; destruct Hs as [[? ?]|[? ?]]; discriminate.
Qed.

(** The main goroutine's moves respect the clock; nothing else changes its position. *)
Lemma in_time_step p e p' :
  e ≠ Signal → e ≠ Return_ → step p e = Some p' →
  in_time p.(p_main) p.(p_clock) (trigger p) → in_time p'.(p_main) p'.(p_clock) (trigger p').
Proof.
  intros Hs Hr E Hti. unfold step in E.
  destruct e; try done; step_cases; try exact Hti;
    unfold OnStartedLeading, stop_section, trigger in *; simpl in *.
  - by destruct (p_stopping p).
  - destruct a as [Hm ?]. rewrite Hm in Hti. apply first_of_some; auto.
  - destruct a as [Hm ?]. rewrite Hm in Hti. apply first_of_some; auto.
  - simpl in Hti. destruct (p_started p); [|destruct lost]; simpl; rewrite Hti;
      [|exists (p_clock p + controllerDrainBudget)|];
      (split; [f_equal; lia|unfold_budgets; lia]).
  - destruct Hti as [Ht Hx]. destruct lost; simpl; [|done].
    exists expiry. split; [done|]. unfold_budgets. lia.
  - destruct Hti as [Ht Hx]. destruct lost; simpl; [|done].
    exists expiry. split; [done|]. unfold_budgets. lia.
  - destruct Hti as [Ht Hx]. eexists. split; [done|]. unfold_budgets. lia.
  - destruct Hti as [Ht Hx]. eexists. split; [done|]. unfold_budgets. lia.
  - done.
Qed.

Ltac settle :=
  first
  [ by intros; simplify_eq/=; first [done | congruence]
  | intros [?|?]; congruence
  | case_bool_decide; intuition congruence
  | intuition congruence
  | match goal with m : phase |- _ => by destruct m end
  | rewrite orb_true_iff, negb_true_iff; destruct (past_drain _); tauto
  | idtac ].

Lemma good_step p e p' : good p → step p e = Some p' → good p'.
Proof.
  intros G E. destruct (decide (e = Signal)) as [->|Hs]; [by eapply good_Signal|].
  destruct (decide (e = Return_)) as [->|Hr]; [by eapply good_Return|].
  pose proof (in_time_step _ _ _ Hs Hr E (g_time _ G)) as Hti.
  destruct G as [Hst Hsp Hle Hdr Hco Hse Hpa Hov Hel _].
  destruct p as [clock ctx leCtx elector renewed elected callback started stopping main led failed overran].
  unfold step in E; destruct e; try done; simpl in *; step_cases; destruct_and?; subst;
    unfold OnStartedLeading, stop_section, after_drain in *; simpl in *;
    repeat match goal with |- context [if ?b then _ else _] => destruct b eqn:? end;
    (split; try exact Hti; simpl in *; try assumption; try done).
  all: settle.
Qed.

Lemma not_urgent p e : urgent p = false → e ∈ main_events → step p e = None.
Proof.
  intros U He. apply eq_None_not_Some. intros [p' E].
  assert (urgent p = true); [|congruence].
  apply existsb_exists. exists e. split; [by apply list_elem_of_In|]. apply bool_decide_eq_true. eauto.
Qed.

Lemma quiet_selecting p : urgent p = false → p.(p_main) = Selecting → trigger p = None.
Proof.
  intros U Hm.
  pose proof (not_urgent p SelectSignal U ltac:(set_solver)) as H1.
  pose proof (not_urgent p SelectElected U ltac:(set_solver)) as H2.
  unfold step in H1, H2. rewrite Hm in H1, H2. rewrite decide_False in H1, H2 by done.
  unfold trigger. destruct (p_ctx p), (p_elected p); try done.
  all: rewrite decide_True in H1 by eauto; discriminate.
Qed.

Lemma quiet_locking p lost : urgent p = false → p.(p_main) ≠ Locking lost.
Proof.
  intros U Hm. pose proof (not_urgent p Lock U ltac:(set_solver)) as H.
  unfold step in H. rewrite Hm in H. by rewrite decide_False in H.
Qed.

Lemma good_tick p d p' : good p → tick p d = Some p' → good p'.
Proof.
  intros [Hst Hsp Hle Hdr Hco Hse Hpa Hov Hel Hti] E. unfold tick in E.
  destruct (_ && _) eqn:C; [|discriminate]. injection E as <-.
  apply andb_prop in C as [C Htm]. apply andb_prop in C as [Hd U].
  apply negb_true_iff in U. apply Z.ltb_lt in Hd.
  split; simpl; try done.
  - intros t Ht. apply Hpa in Ht. lia.
  - unfold trigger; simpl. fold (trigger p). unfold timer in Htm.
    destruct (p_main p) eqn:Hm; simpl in *; try done.
    + by rewrite quiet_selecting.
    + by eapply quiet_locking in Hm.
    + apply Z.leb_le in Htm. by destruct Hti.
    + apply Z.leb_le in Htm. by destruct Hti.
    + apply Z.leb_le in Htm. destruct Hti as (x & ? & ? & ?). eauto.
Qed.

Lemma reachable_good p : reachable p → good p.
Proof.
  induction 1 as [now|p [e|d] p' _ IH E]; [apply good_start|by eapply good_step|by eapply good_tick].
Qed.

(** ** One controller *)

(** The history that excuses a controller without the lease. *)
Definition excused (p : replica) : bool := p.(p_failed) || p.(p_overran).

Lemma excused_spec p : good p → excused p = true →
  p.(p_failed) = true ∨ (p.(p_overran) = true ∧ runCtx_done p = true).
Proof.
  intros G [Hf|Ho]%orb_prop; [by left|right]. split; [done|].
  unfold runCtx_done. rewrite (g_overran _ G Ho). by rewrite orb_true_r.
Qed.

(** While the drain has not overrun and no renewal has failed, a process that runs a controller
    holds the lease. *)
Lemma running_leads p :
  good p → controller_running p = true → excused p = false → p.(p_elector) = Leading.
Proof.
  intros [] [Hc%bool_decide_eq_true _]%andb_prop [Hf Ho]%orb_false_iff.
  destruct (p_elector p); try done.
  - rewrite g_contending0 in Hc by done. discriminate.
  - destruct g_stopped0; [by left|congruence|congruence|]. rewrite g_drained0 in Ho; done.
  - destruct g_stopped0; [by right|congruence|congruence|]. rewrite g_drained0 in Ho; done.
Qed.

(** A callback that reaches the mutex after the main goroutine never starts a controller. *)
Lemma late_callback_refused p p' :
  p.(p_stopping) = true → step p Begin = Some p' → p'.(p_callback) = Refused.
Proof.
  intros Hs E. unfold step in E. step_cases. unfold OnStartedLeading. by rewrite Hs.
Qed.

Lemma step_clock p e p' : step p e = Some p' → p'.(p_clock) = p.(p_clock).
Proof.
  unfold step. intros E. destruct e; step_cases; try done;
    unfold OnStartedLeading, stop_section, after_drain; by repeat case_match.
Qed.

(** Only [Acquire] makes a leader, and only it and [Renew] touch the lease's time. *)
Lemma step_leading p e p' :
  step p e = Some p' → p'.(p_elector) = Leading →
  (e = Acquire ∧ p'.(p_renewed) = p'.(p_clock)) ∨
  (p.(p_elector) = Leading ∧ (p'.(p_renewed) = p.(p_renewed) ∨ p'.(p_renewed) = p'.(p_clock))).
Proof.
  unfold step. intros E Hl. destruct e; step_cases; simpl in *; try done; auto;
    unfold OnStartedLeading, stop_section, after_drain in *; repeat case_match; simpl in *; auto.
Qed.

Lemma insert_cases (s : list replica) i p' j q :
  <[i := p']> s !! j = Some q → (j = i ∧ q = p') ∨ (j ≠ i ∧ s !! j = Some q).
Proof. rewrite list_lookup_insert_Some. naive_solver. Qed.

Section exclusion.
Context `{EL : ElectionLaws} (hostname leaseID : nat → string) (ns : string) (sharder : option Sharder).

Abbreviation config_of := (config_of hostname leaseID ns sharder).
Abbreviation sys_step := (sys_step hostname leaseID ns sharder).

(** What holds of a shard's replicas together. *)
Record sys_good (s : list replica) : Prop := {
  sg_each i p : s !! i = Some p → good p;
  sg_fresh i p : s !! i = Some p → p.(p_elector) = Leading →
    p.(p_clock) <= p.(p_renewed) + (config_of i).(le_RenewDeadline);
  sg_one i j p q : s !! i = Some p → s !! j = Some q →
    p.(p_elector) = Leading → q.(p_elector) = Leading → i = j;
}.

Lemma sys_good_start starts : sys_good (fresh_system starts).
Proof.
  assert (Hs : ∀ i p, fresh_system starts !! i = Some p → ∃ now, p = started_process now).
  { intros i p E. unfold fresh_system in E. rewrite list_lookup_fmap in E.
    destruct (starts !! i); simplify_eq/=. eauto. }
  split; intros.
  - destruct (Hs _ _ H0) as [? ->]. apply good_start.
  - destruct (Hs _ _ H0) as [? ->]. discriminate.
  - destruct (Hs _ _ H0) as [? ->]. discriminate.
Qed.

Lemma lease_outlives i j : (config_of j).(le_RenewDeadline) < (config_of i).(le_LeaseDuration).
Proof. vm_compute. reflexivity. Qed.

Lemma leader_alone s i p e p' j q :
  sys_good s → s !! i = Some p → step p e = Some p' → (e = Acquire → may_acquire (config_of i) s i = true) →
  p'.(p_elector) = Leading → s !! j = Some q → q.(p_elector) = Leading → j = i.
Proof using Type*.
  intros G Hp E Ha Hl Hj Hq. destruct (decide (j = i)) as [|Hne]; [done|].
  destruct (step_leading _ _ _ E Hl) as [[He _]|[Hl' _]].
  - pose proof (acquire_waits _ _ _ _ _ (Ha He) Hj (not_eq_sym Hne) Hq).
    pose proof (sg_fresh _ G _ _ Hj Hq). pose proof (lease_outlives i j). lia.
  - by eapply (sg_one _ G).
Qed.

Lemma sys_good_at s i e s' : sys_good s → sys_step s (At i e) = Some s' → sys_good s'.
Proof using Type*.
  intros G E. simpl in E. destruct (implb _ _) eqn:Ha; [|discriminate].
  apply bind_Some in E as (p & Hp & E). apply bind_Some in E as (p' & Hs & E). injection E as <-.
  assert (Hacq : e = Acquire → may_acquire (config_of i) s i = true).
  { intros ->. by rewrite bool_decide_true in Ha. }
  split.
  - intros j q [[-> ->]|[_ Hj]]%insert_cases; [eapply good_step, Hs|]; by eapply (sg_each _ G).
  - intros j q [[-> ->]|[_ Hj]]%insert_cases Hl; [|by apply (sg_fresh _ G)].
    pose proof (step_clock _ _ _ Hs).
    destruct (step_leading _ _ _ Hs Hl) as [[_ Hr]|[Hl' [Hr|Hr]]].
    + vm_compute (le_RenewDeadline _). lia.
    + pose proof (sg_fresh _ G _ _ Hp Hl'). lia.
    + vm_compute (le_RenewDeadline _). lia.
  - intros j k q r [[-> ->]|[Hj Hq]]%insert_cases [[-> ->]|[Hk Hr]]%insert_cases Hlq Hlr; try done.
    + symmetry. by eapply leader_alone.
    + by eapply leader_alone.
    + by eapply (sg_one _ G).
Qed.

Lemma tick_elector p d p' : tick p d = Some p' → p'.(p_elector) = p.(p_elector).
Proof. unfold tick. intros E. step_cases. done. Qed.

Lemma sys_good_pass s d s' : sys_good s → sys_step s (Pass d) = Some s' → sys_good s'.
Proof using Type*.
  intros G E. simpl in E. apply bind_Some in E as (s1 & Hm & E).
  destruct (forallb _ _) eqn:Hh; [|discriminate]. injection E as <-.
  apply mapM_Some_1 in Hm.
  assert (Hb : ∀ i q, s1 !! i = Some q → ∃ p, s !! i = Some p ∧ tick p d = Some q).
  { intros i q Hq. eapply Forall2_lookup_r in Hm as (p & ? & ?); eauto. }
  split.
  - intros i q (p & Hp & Ht)%Hb. eapply good_tick, Ht. by eapply (sg_each _ G).
  - intros i q Hq Hl. apply hold_bounded; [|done].
    rewrite forallb_forall in Hh. apply (Hh (i, q)), list_elem_of_In, (list_elem_of_lookup_2 _ i).
    by rewrite list_lookup_imap, Hq.
  - intros i j q r (p & Hp & Ht)%Hb (p0 & Hp0 & Ht0)%Hb Hq Hr.
    rewrite (tick_elector _ _ _ Ht) in Hq. rewrite (tick_elector _ _ _ Ht0) in Hr.
    by eapply (sg_one _ G).
Qed.

Lemma sys_reachable_good s : sys_reachable hostname leaseID ns sharder s → sys_good s.
Proof using Type*.
  intros (starts & ms & E). revert E. generalize (sys_good_start starts).
  generalize (fresh_system starts) as s0. induction ms as [|m ms IH]; intros s0 G E; simpl in E.
  - by injection E as <-.
  - apply bind_Some in E as (s1 & E1 & E). eapply IH, E.
    destruct m; [by eapply sys_good_at|by eapply sys_good_pass].
Qed.

(** C36: In every reachable state of the replicas of one shard, whatever the interleaving, at
    most one of two processes that run a controller does so with a live lease: if two run one,
    then one of the two failed to renew its lease, or its controller overran
    [controllerDrainBudget] after being told to stop. The lease profile the code passes (30s
    over 20s) is what makes client-go's documented timing exclusive. *)
Theorem one_controller s i j p q :
  sys_reachable hostname leaseID ns sharder s →
  s !! i = Some p → s !! j = Some q → i ≠ j →
  controller_running p = true → controller_running q = true →
  ∃ r, (r = p ∨ r = q) ∧ (r.(p_failed) = true ∨ (r.(p_overran) = true ∧ runCtx_done r = true)).
Proof using Type*.
  intros G%sys_reachable_good Hp Hq Hne Rp Rq.
  destruct (excused p) eqn:Ep; [exists p; split; [by left|]; apply excused_spec; [by eapply sg_each|done]|].
  destruct (excused q) eqn:Eq; [exists q; split; [by right|]; apply excused_spec; [by eapply sg_each|done]|].
  destruct Hne. eapply (sg_one _ G); [exact Hp|exact Hq| |]; eapply running_leads; eauto using sg_each.
Qed.

End exclusion.

(** ** The shutdown ends *)

Definition rank (m : phase) : nat :=
  match m with Selecting => 4 | Locking _ => 3 | Draining _ _ => 2 | Releasing _ => 1 | _ => 0 end.

(** What the main goroutine does alone: its events, and letting time pass. *)
Definition main_move (m : move) : Prop :=
  match m with Do e => e ∈ main_events | Tick _ => True end.

Lemma main_event_rank p e p' :
  e ∈ main_events → step p e = Some p' →
  (rank p'.(p_main) < rank p.(p_main))%nat ∧ p'.(p_main) ≠ Exited ∧ trigger p' = trigger p.
Proof.
  intros He E. unfold step in E. unfold main_events in He.
  repeat (apply elem_of_cons in He as [->|He]); try by apply elem_of_nil in He.
  all: step_cases; destruct_and?; unfold stop_section, after_drain;
    repeat match goal with
    | H : p_main _ = _ |- _ => rewrite H
    | |- context [if ?b then _ else _] => destruct b
    end; simpl; (split_and!; [lia|done|done]).
Qed.

Lemma urgent_moves p : urgent p = true → ∃ e p', e ∈ main_events ∧ step p e = Some p'.
Proof.
  intros (e & He & [p' E]%bool_decide_eq_true)%existsb_exists.
  exists e, p'. split; [by apply list_elem_of_In|done].
Qed.

Lemma expire_enabled p x :
  p.(p_main) = Releasing x ∨ (∃ lost, p.(p_main) = Draining lost x) → x <= p.(p_clock) →
  is_Some (step p Expired).
Proof.
  intros Hm Hx. unfold step. assert ((x <=? p_clock p) = true) as H by (by apply Z.leb_le).
  destruct Hm as [->|[lost ->]]; rewrite decide_False by done; rewrite H; eauto.
Qed.

(** A main goroutine that cannot move sleeps until its timer, and can move then. *)
Lemma sleeps_to_timer p x :
  p.(p_main) = Releasing x ∨ (∃ lost, p.(p_main) = Draining lost x) → urgent p = false →
  ∃ d, tick p d = Some (advance d p) ∧ is_Some (step (advance d p) Expired).
Proof.
  intros Hm U. exists (x - p_clock p).
  assert (p_clock p < x).
  { destruct (Z.lt_ge_cases (p_clock p) x) as [|Hx]; [done|].
    destruct (expire_enabled _ _ Hm Hx) as [q Hq].
    rewrite not_urgent in Hq by (try done; set_solver). discriminate. }
  split; [|apply (expire_enabled _ x); [done|simpl; lia]].
  assert (Ht : timer p = Some x) by (unfold timer; by destruct Hm as [->|[lost ->]]).
  unfold tick. rewrite U, Ht, (proj2 (Z.ltb_lt _ _)), (proj2 (Z.leb_le _ _)) by lia. done.
Qed.

Lemma run_cons p m p' ms q : apply_move p m = Some p' → run p' ms = Some q → run p (m :: ms) = Some q.
Proof. intros E. simpl. by rewrite E. Qed.

Definition returns (p : replica) : Prop :=
  ∃ ms q, Forall main_move ms ∧ run p ms = Some q ∧
    trigger q = trigger p ∧ ∃ t, q.(p_main) = Returned t.

Lemma returns_move p m p' :
  main_move m → apply_move p m = Some p' → trigger p' = trigger p → returns p' → returns p.
Proof.
  intros Hm E Hc (ms & q & Hms & Hr & Hcq & Hq). exists (m :: ms), q.
  split_and!; [by constructor|by eapply run_cons|congruence|done].
Qed.

Lemma main_returns p : is_Some (trigger p) → p.(p_main) ≠ Exited → returns p.
Proof.
  remember (rank p.(p_main)) as n eqn:Hn. revert p Hn.
  induction n as [n IH] using lt_wf_ind. intros p -> Hc Hx.
  assert (Hgo : ∀ r e r', (rank r.(p_main) <= rank p.(p_main))%nat → is_Some (trigger r) →
    e ∈ main_events → step r e = Some r' → returns r).
  { intros r e r' Hr Hcr He E. destruct (main_event_rank _ _ _ He E) as (? & ? & Hcc).
    apply (returns_move _ (Do e) r'); [done|done|done|].
    eapply IH; [|done|by rewrite Hcc|done]. lia. }
  destruct (urgent p) eqn:U; [apply urgent_moves in U as (e & p' & ? & ?); by eapply Hgo|].
  assert (Hsl : ∀ x, p.(p_main) = Releasing x ∨ (∃ lost, p.(p_main) = Draining lost x) → returns p).
  { intros x Hsl. destruct (sleeps_to_timer _ _ Hsl U) as (d & Ht & q & Hq).
    eapply (returns_move _ (Tick d)); [done|done|done|].
    eapply (Hgo _ Expired); [reflexivity|done| |done]. unfold main_events. set_solver. }
  destruct (p_main p) eqn:Hm; try done; eauto.
  - apply quiet_selecting in U; [|done]. rewrite U in Hc. by destruct Hc.
  - by eapply quiet_locking in Hm.
  - exists [], p. eauto.
Qed.

Lemma run_reachable p ms q : reachable p → run p ms = Some q → reachable q.
Proof.
  revert p. induction ms as [|m ms IH]; intros p R E; simpl in E; [by injection E as <-|].
  apply bind_Some in E as (p' & E' & E). eapply IH, E. by eapply reach_move.
Qed.

Lemma clock_in_grace p t :
  good p → trigger p = Some t → p.(p_main) ≠ Exited → p.(p_clock) <= t + terminationGracePeriod.
Proof.
  intros G Hc Hx. pose proof (g_time _ G) as Hti. rewrite Hc in Hti.
  destruct (p_main p); simpl in Hti; try done.
  - rewrite <-(Hti t); [|done]. unfold_budgets. lia.
  - simplify_eq. unfold_budgets. lia.
  - destruct Hti; simplify_eq. unfold_budgets. lia.
  - destruct Hti; simplify_eq. unfold_budgets. lia.
  - destruct Hti as (x & ? & ? & ?); simplify_eq. unfold_budgets. lia.
Qed.

Lemma run_app p ms ms' : run p (ms ++ ms') = run p ms ≫= λ q, run q ms'.
Proof.
  revert p. induction ms as [|m ms IH]; intros p; simpl; [done|].
  destruct (apply_move p m); simpl; auto.
Qed.

(** C37: Once the shutdown signal has come, or the lease is lost, at [t], the process is gone by
    [t] plus the chart's terminationGracePeriodSeconds, whether it led or stood by, and however
    long the controller drains and the elector takes to release: time does not pass beyond that
    while the process lives, and from every reachable state the main goroutine's own moves end
    the process in time. *)
Theorem shutdown_in_grace p t :
  reachable p → p.(p_ctx) = Some t ∨ p.(p_elected) = Some t → p.(p_main) ≠ Exited →
  p.(p_clock) <= t + terminationGracePeriod ∧
  ∃ ms q, Forall main_move ms ∧ run p (ms ++ [Do Exit]) = Some q ∧ q.(p_main) = Exited ∧
    q.(p_clock) <= t + terminationGracePeriod.
Proof.
  intros R (t' & Hc & Hle)%trigger_le Hx.
  split; [pose proof (clock_in_grace _ _ (reachable_good _ R) Hc Hx); lia|].
  destruct (main_returns p) as (ms & q & Hms & Hq & Hcq & u & Hu); [by eauto|done|].
  assert (Hb : q.(p_clock) <= t' + terminationGracePeriod).
  { apply clock_in_grace; [eauto using reachable_good, run_reachable|congruence|by rewrite Hu]. }
  eexists ms, (set_main Exited (set_elector Done q.(p_renewed) q.(p_failed) q)).
  split_and!; [done| |done|simpl; lia].
  rewrite run_app, Hq. unfold step; simpl. unfold step. by rewrite Hu.
Qed.

(** However many watchers drain, and however long each needs, they are done within the one
    deadline they share. *)
Lemma drainWatchers_bounds now deadline needs :
  now <= drainWatchers now deadline needs <= Z.max now (Z.min deadline (now + enrichDrainTimeout)).
Proof.
  unfold drainWatchers. set (limit := Z.min _ _).
  assert (H : ∀ t, now <= t <= Z.max now limit →
    now <= foldl (λ t need, stage_end t need limit) t needs <= Z.max now limit); [|apply H; lia].
  induction needs as [|need needs IH]; intros t Ht; simpl; [done|]. apply IH. unfold stage_end. lia.
Qed.

(** [shutdown] within [controllerDrainBudget]: if the two unbounded joins leave room for the
    enrichment drain before the drain deadline, the final save starts by then, gets the time it
    needs up to [finalSaveTimeout], and returns by the budget. *)
Lemma final_save_fits start ji en jp dr sa saveStart saveEnd :
  0 <= ji → 0 <= jp → 0 <= dr → 0 <= sa →
  ji + enrichDrainTimeout + jp <= controllerDrainBudget - finalSaveTimeout →
  shutdown_schedule start ji en jp dr sa = (saveStart, saveEnd) →
  saveStart <= start + (controllerDrainBudget - finalSaveTimeout) ∧
  saveEnd - saveStart = Z.min sa finalSaveTimeout ∧
  saveEnd <= start + controllerDrainBudget.
Proof.
  unfold shutdown_schedule. set (deadline := start + (controllerDrainBudget - finalSaveTimeout)). intros Hji Hjp Hdr Hsa Hfit E.
  pose proof (drainWatchers_bounds (start + ji) deadline en) as Hb.
  revert E. generalize dependent (drainWatchers (start + ji) deadline en). subst deadline.
  intros t2 Hb E. unfold stage_end in E. simplify_eq/=. unfold_budgets. lia.
Qed.

(** A send in flight when the enrichment drain ends still finishes within the drain deadline. *)
Lemma late_send_fits : enrichDrainTimeout + dispatchTimeout <= controllerDrainBudget - finalSaveTimeout.
Proof. vm_compute. discriminate. Qed.

(** client-go accepts the profile: the renew deadline is below the lease duration and above
    1.2 retry periods. *)
Lemma profile_accepted host id ns s :
  let cfg := runWithLeaderElection host id ns s in
  cfg.(le_RenewDeadline) < cfg.(le_LeaseDuration) ∧ 6 * cfg.(le_RetryPeriod) < 5 * cfg.(le_RenewDeadline).
Proof. vm_compute. done. Qed.

(** ** Witnesses *)

(** An election that grants and holds exactly as documented. *)
#[export] Instance strict_election : Election := {|
  may_acquire cfg s i := forallb (λ '(j, r),
    bool_decide (j = i) || negb (bool_decide (r.(p_elector) = Leading))
    || (r.(p_renewed) + cfg.(le_LeaseDuration) <=? r.(p_clock))) (imap pair s);
  may_hold cfg r :=
    negb (bool_decide (r.(p_elector) = Leading))
    || (r.(p_clock) <=? r.(p_renewed) + cfg.(le_RenewDeadline));
|}.

#[export] Instance strict_election_laws : ElectionLaws.
Proof.
  split.
  - intros cfg s i j r H Hj Hne Hl. simpl in H. rewrite forallb_forall in H.
    assert (Hin : (j, r) ∈ imap pair s).
    { apply (list_elem_of_lookup_2 _ j). by rewrite list_lookup_imap, Hj. }
    apply list_elem_of_In, H in Hin. rewrite bool_decide_false in Hin by done.
    rewrite bool_decide_true in Hin by done. by apply Z.leb_le.
  - intros cfg r H Hl. simpl in H. rewrite bool_decide_true in H by done. by apply Z.leb_le.
Defined.

(** A leader that is told to stop, overruns its drain and releases; a follower takes over while
    the first controller is still being cut. *)
Definition overrun_trace : list sys_move :=
  [At 0 Acquire; At 0 Begin; At 0 Signal; At 0 SelectSignal; At 0 Lock; Pass (20 * Second);
   At 0 Renew; Pass (15 * Second); At 0 Expired; At 0 Stop; At 1 Acquire; At 1 Begin].

Definition two_of_one (i : nat) : string := "alertkube-" +:+ Itoa (Z.of_nat i).

Definition overrun_state : list replica :=
  default [] (sys_run two_of_one (λ _, "") "kube-system" None (fresh_system [0; 0]) overrun_trace).

Lemma one_controller_witness :
  ∃ p q r, overrun_state = [p; q] ∧ (r = p ∨ r = q) ∧
    (r.(p_failed) = true ∨ (r.(p_overran) = true ∧ runCtx_done r = true)).
Proof.
  assert (E : sys_run two_of_one (λ _, "") "kube-system" None (fresh_system [0; 0]) overrun_trace
    = Some overrun_state) by (vm_compute; reflexivity).
  destruct (overrun_state !! 0%nat) as [p|] eqn:Hp; [|vm_compute in Hp; discriminate].
  destruct (overrun_state !! 1%nat) as [q|] eqn:Hq; [|vm_compute in Hq; discriminate].
  destruct (one_controller two_of_one (λ _, "") "kube-system" None overrun_state 0 1 p q)
    as (r & Hr & Hx); [by exists [0; 0], overrun_trace|done|done|done| | |].
  - vm_compute in Hp. injection Hp as <-. reflexivity.
  - vm_compute in Hq. injection Hq as <-. reflexivity.
  - exists p, q, r. split; [|done]. vm_compute in Hp, Hq |- *. by simplify_eq.
Defined.

(** A leader whose renewal failed while its controller ran. *)
Definition lost_trace : list move :=
  [Do Acquire; Do Begin; Tick (25 * Second); Do Stop; Do Return_].

Lemma shutdown_in_grace_witness :
  ∃ p, run (started_process 7) lost_trace = Some p ∧
    ∃ ms q, run p (ms ++ [Do Exit]) = Some q ∧ q.(p_main) = Exited ∧
      q.(p_clock) <= (7 + 25 * Second) + terminationGracePeriod.
Proof.
  destruct (run (started_process 7) lost_trace) as [p|] eqn:Hp; [|vm_compute in Hp; discriminate].
  exists p. split; [done|].
  destruct (shutdown_in_grace p (7 + 25 * Second)) as (_ & ms & q & _ & Hq & Hx & Hb).
  - eapply run_reachable; [apply reach_start|exact Hp].
  - right. vm_compute in Hp. injection Hp as <-. reflexivity.
  - vm_compute in Hp. by injection Hp as <-.
  - by exists ms, q.
Defined.

(** A signal drains, releases and hands over: nothing overran, nobody failed. *)
Example example_handover :
  option_map (map (λ p, (p.(p_main), controller_running p, excused p)))
  (sys_run two_of_one (λ _, "") "kube-system" None (fresh_system [0; 0])
    [At 0 Acquire; At 0 Begin; Pass (3 * Second); At 0 Signal; At 0 SelectSignal; At 0 Lock;
     Pass (6 * Second); At 0 Finish; At 0 Joined; At 0 Stop; At 0 Return_; At 0 Released;
     At 1 Acquire; At 1 Begin; At 0 Exit])
  = Some [(Exited, false, false); (Selecting, true, false)].
Proof. vm_compute. reflexivity. Qed.
