(* ===== verification/Config.v ===== *)
(** * internal/config: the configuration, its defaults and its validation

    Models internal/config/{config,cloud,matchers,maintenance,validate,load,shardscope}.go.
    A message built by [fmt.Errorf] is a constructor of [cfg_error] carrying the values it
    prints; [None] is a nil error. The YAML decoder (a third-party package) is not modelled:
    [Load] takes the decoded configuration and the set of paths present in the document, which
    [ConfigFile] computes. *)
From S2P Require Import Prelude GoStd AlertModel Filter Shard.

(** ** Data *)

Record Filters := MkFilters {
  WatchedNamespaces : string; IgnoredNamespaces : string;
  WatchedPodNamePrefixes : string; IgnoredPodNamePrefixes : string }.

Record Behavior := MkBehavior {
  MuteSeconds : Z; IgnoreRestartCount : Z; IgnoreRestartsWithExitCodeZero : bool;
  ResolveTTLSeconds : Z; StartupGraceSeconds : Z; PVCPendingSeconds : Z;
  DisableLogCollection : bool; DisableAnnotationSilences : bool }.

Record Channels := MkChannels { Ch_Critical : string; Ch_Warning : string; Ch_Info : string }.
Record ReceiverCfg := MkReceiverCfg { Rc_Enabled : bool; AllowAnonymous : bool }.
Record Grouping := MkGrouping { Gr_Enabled : bool; Gr_WindowSeconds : Z; Gr_By : list string }.
Record Persistence := MkPersistence { Ps_Enabled : bool; ConfigMapName : string; Ps_Namespace : string }.
Record Route_ := MkRoute { Rt_Match : gmap string string; Rt_Sinks : list string }.
Record RuleCount := MkRuleCount { Rn_Match : gmap string string; Threshold : Z }.
Record RuleAbsent := MkRuleAbsent { Ab_Match : gmap string string; ForSeconds : Z }.
Record Rule := MkRule {
  Ru_Name : string; Ru_Severity : string; Ru_Summary : string; Ru_WindowSeconds : Z;
  Ru_Count : option RuleCount; Ru_All : list (gmap string string); Ru_Absent : option RuleAbsent }.
Record CorrelationCfg := MkCorrelationCfg {
  Co_Enabled : bool; IntervalSeconds : Z; MaxHops : Z; BlastRadiusCap : Z }.
Record SinkRate := MkSinkRate { PerSecond : float64; Burst : Z }.
Record SeverityOverride := MkSeverityOverride { Ov_Match : gmap string string; Ov_Severity : string }.
Record Inhibition := MkInhibition {
  In_Source : gmap string string; In_Target : gmap string string; In_Equal : list string; In_Duration : string }.
Record CfgSilence := MkCfgSilence { Cs_Matchers : gmap string string; Cs_Until : string }.
Record Escalation := MkEscalation { Es_Match : gmap string string; AfterMinutes : Z; Es_Sinks : list string }.
Record MaintenanceWindow := MkWindow {
  Mw_Name : string; Mw_Matchers : gmap string string; Mw_Start : string; Mw_End : string;
  Mw_Days : list string; Mw_Timezone : string }.

Record AWS := MkAWS {
  Aws_Enabled : bool; Aws_Regions : list string; Aws_PollSeconds : Z;
  Aws_EKS : bool; Aws_CloudWatch : bool; Aws_EC2 : bool; Aws_ELBV2 : bool; Aws_RDS : bool;
  Aws_DynamoDB : bool; Aws_ElastiCache : bool; Aws_S3 : bool; Aws_CloudTrail : bool;
  Aws_CloudTrailEvents : list string;
  Aws_ASG : bool; Aws_KMS : bool; Aws_EBS : bool; Aws_Aurora : bool; Aws_NAT : bool;
  Aws_EFS : bool; Aws_Route53 : bool; Aws_ACM : bool; Aws_VPN : bool }.
Record Azure := MkAzure {
  Az_Enabled : bool; Az_Subscriptions : list string; Az_PollSeconds : Z;
  Az_AKS : bool; Az_Monitor : bool; Az_VMs : bool; Az_Storage : bool; Az_SQL : bool; Az_Redis : bool }.
Record GCP := MkGCP {
  Gc_Enabled : bool; Gc_Projects : list string; Gc_PollSeconds : Z;
  Gc_GKE : bool; Gc_Monitoring : bool; Gc_Compute : bool; Gc_CloudSQL : bool }.

Record Config := MkConfig {
  Cluster : string; Cf_Filters : Filters; Cf_Behavior : Behavior; Cf_Channels : Channels;
  Routing : list Route_; SeverityOverrides : list SeverityOverride; SinkRates : gmap string SinkRate;
  Inhibitions : list Inhibition; Silences : list CfgSilence; Escalations : list Escalation;
  Cf_Receiver : ReceiverCfg; MetricsAddr : string; APIAddr : string; Cf_Grouping : Grouping;
  Cf_Persistence : Persistence; Cf_AWS : AWS; Cf_Azure : Azure; Cf_GCP : GCP; Rules : list Rule;
  Cf_Correlation : CorrelationCfg; Maintenance : list MaintenanceWindow }.

(** The composite literal [Config{}]. *)
Definition zero_config : Config :=
  MkConfig "" (MkFilters "" "" "" "") (MkBehavior 0 0 false 0 0 0 false false) (MkChannels "" "" "")
    [] [] ∅ [] [] [] (MkReceiverCfg false false) "" "" (MkGrouping false 0 []) (MkPersistence false "" "")
    (MkAWS false [] 0 false false false false false false false false false [] false false false false
       false false false false false)
    (MkAzure false [] 0 false false false false false false)
    (MkGCP false [] 0 false false false false)
    [] (MkCorrelationCfg false 0 0 0) [].

Inductive cfg_error :=
  | EEmptyMatchers (field : string)
  | EEmptyLabelValue (field key : string)
  | EPattern (field key pattern : string)
  | EMatchesEvery (field key value : string)
  | ETimeSyntax (hhmm : string)
  | ETimeRange (hhmm : string)
  | EDay (day : string)
  | EZone (zone : string)
  | EIn (context : string) (e : cfg_error)
  | ESinksEmpty (field : string)
  | EUnknownSink (field sink : string)
  | ESeverity (field severity : string)
  | ENotPositive (field : string) (v : Z)
  | ENoSource (provider keys : string)
  | EPollTTL (provider : string) (poll ttl : Z)
  | EFilterRegex (field pattern : string)
  | ECatchAll (field : string) (next : Z)
  | EOverrideEmpty (field : string)
  | ERateUnknown (sink : string)
  | ERatePerSecond (sink : string)
  | ERateBurst (sink : string) (burst : Z)
  | EDuration (i : Z) (duration : string)
  | EUntil (i : Z)
  | EMute (n : Z)
  | ETTL (n : Z)
  | ERestarts (n : Z)
  | EGrace (n : Z)
  | EPersistNamespace
  | EGroupBy (i : Z)
  | ERegions
  | ESubscriptions
  | EProjects
  | ERuleName (i : Z)
  | ERuleDup (i : Z) (name : string) (prev : Z)
  | ERuleCondition (field : string)
  | ECorrelation
  | EShardName (name : string) (index : Z).

#[global] Instance cfg_error_eq_dec : EqDecision cfg_error.
Proof. solve_decision. Defined.

(** [for i, x := range l] with the first error. *)
Definition check_each {A} (check : Z → A → option cfg_error) (l : list A) : option cfg_error :=
  first_error (λ p : Z * A, check p.1 p.2) (zip (seqZ 0 (Z.of_nat (length l))) l).

(** [fmt.Sprintf("name[%d]", i)]. *)
Definition at_index (name : string) (i : Z) : string := name +:+ "[" +:+ Itoa i +:+ "]".

(** ** matchers.go *)

Definition matchAllProbes : list string := ["x"; "kube-system"; "CrashLoopBackOff"; "Prod_1.a-z"].

Section matchers.
Context `{RegexpLib}.

Definition matchesEveryString (re : Regexp) : bool := forallb (MatchString re) matchAllProbes.

Definition compileMatcherPattern (field key pattern : string) : cfg_error + Regexp :=
  match CompilePattern pattern with
  | None => inl (EPattern field key pattern)
  | Some re => inr re
  end.

(** The bodies of the two loops over a matcher map. *)
Definition check_selective (field : string) (kv : string * string) : option cfg_error :=
  let '(k, v) := kv in
  if streq v "" && negb (IsFieldKey k) then Some (EEmptyLabelValue field k)
  else if negb (IsPatternKey k) then None
  else match compileMatcherPattern field k v with
       | inl e => Some e
       | inr re => if matchesEveryString re then Some (EMatchesEvery field k v) else None
       end.

Definition check_pattern (field : string) (kv : string * string) : option cfg_error :=
  let '(k, v) := kv in
  if negb (IsPatternKey k) then None
  else match compileMatcherPattern field k v with inl e => Some e | inr _ => None end.

Context `{MapRange}.

Definition SelectiveMatchers (field : string) (m : gmap string string) : option cfg_error :=
  if (size m =? 0)%nat then Some (EEmptyMatchers field)
  else first_error (check_selective field) (range m).

Definition checkMatcherPatterns (field : string) (m : gmap string string) : option cfg_error :=
  first_error (check_pattern field) (range m).
End matchers.

(** ** maintenance.go *)

Definition minutesOfDay (hhmm : string) : cfg_error + Z :=
  match Sscanf_hm hhmm with
  | None => inl (ETimeSyntax hhmm)
  | Some (h, m) =>
    if (h <? 0) || (23 <? h) || (m <? 0) || (59 <? m) then inl (ETimeRange hhmm)
    else inr (h * 60 + m)
  end.

(** [time.Weekday] numbers the days from Sunday = 0. *)
Definition weekdayByAbbrev : gmap string Z :=
  {["sun" := 0; "mon" := 1; "tue" := 2; "wed" := 3; "thu" := 4; "fri" := 5; "sat" := 6]}.

Definition prevWeekday (d : Z) : Z := (d + 6) mod 7.

(** A name missing from the map reads as the zero value, Sunday. *)
Definition dayAllowed (w : MaintenanceWindow) (d : Z) : bool :=
  match w.(Mw_Days) with
  | [] => true
  | days => existsb (λ name, default 0 (weekdayByAbbrev !! ToLower name) =? d) days
  end.

(** The part of [Active] after the zone is applied. *)
Definition active_at (w : MaintenanceWindow) (lt : clock) : bool :=
  match minutesOfDay w.(Mw_Start), minutesOfDay w.(Mw_End) with
  | inr start, inr end_ =>
    if start =? end_ then false
    else
      let cur := lt.(ClockHour) * 60 + lt.(ClockMinute) in
      if start <? end_ then (start <=? cur) && (cur <? end_) && dayAllowed w lt.(Weekday)
      else if start <=? cur then dayAllowed w lt.(Weekday)
      else if cur <? end_ then dayAllowed w (prevWeekday lt.(Weekday))
      else false
  | _, _ => false
  end.

Section zones.
Context `{ZoneLib}.

(** The cache only memoizes [LoadLocation]. *)
Definition loadZone (name : string) : option (time → clock) := LoadLocation name.

(** [t.In(loc)]: an unknown zone falls back to UTC. *)
Definition local_clock (w : MaintenanceWindow) (t : time) : clock :=
  let loc := if negb (streq w.(Mw_Timezone) "")
             then match loadZone w.(Mw_Timezone) with Some l => l | None => UTC end
             else UTC in
  loc t.

Definition Active (w : MaintenanceWindow) (t : time) : bool := active_at w (local_clock w t).

Context `{RegexpLib} `{MapRange}.

Definition check_time (context hhmm : string) : option cfg_error :=
  match minutesOfDay hhmm with inl e => Some (EIn context e) | inr _ => None end.

Definition validate_window (w : MaintenanceWindow) : option cfg_error :=
  (try SelectiveMatchers "matchers" w.(Mw_Matchers) ;;
   try check_time "start" w.(Mw_Start) ;;
   try check_time "end" w.(Mw_End) ;;
   try first_error (λ d, match weekdayByAbbrev !! ToLower d with
                         | Some _ => None
                         | None => Some (EDay d)
                         end) w.(Mw_Days) ;;
   if negb (streq w.(Mw_Timezone) "")
   then match loadZone w.(Mw_Timezone) with Some _ => None | None => Some (EZone w.(Mw_Timezone)) end
   else None)%go.
End zones.

(** ** config.go: escalation keys and inhibition durations *)

Definition escalation_text (esc : Escalation) : string :=
  String.concat "" ((λ k, k +:+ "=" +:+ default "" (esc.(Es_Match) !! k) +:+ String "010" "") <$> SortedKeys esc.(Es_Match))
  +:+ "#" +:+ Itoa esc.(AfterMinutes)
  +:+ String.concat "" ((λ s, "|" +:+ s) <$> esc.(Es_Sinks)).

Definition EscalationKey (esc : Escalation) : string :=
  EncodeToString (take 8 (sha256 (bytes (escalation_text esc)))).

Definition DurationParsed `{TimeLib} (i : Inhibition) : duration :=
  match ParseDuration i.(In_Duration) with None => 10 * Minute | Some d => d end.

(** ** validate.go *)

Definition InformerResyncSeconds : Z := 300.
Definition PollDeadlineFactor : Z := 2.

Definition KnownSinks : gset string :=
  {["slack"; "pagerduty"; "teams"; "webhook"; "stdout"; "discord"; "telegram"; "opsgenie";
    "googlechat"; "mattermost"]}.

Definition validateSinkNames (field : string) (names : list string) : option cfg_error :=
  match names with
  | [] => Some (ESinksEmpty field)
  | _ => first_error (λ s, if bool_decide (s ∈ KnownSinks) then None else Some (EUnknownSink field s)) names
  end.

Definition validateSeverity (field severity : string) : option cfg_error :=
  if Severity_Valid severity then None else Some (ESeverity field severity).

Definition requirePositive (field : string) (v : Z) : option cfg_error :=
  if v <=? 0 then Some (ENotPositive field v) else None.

(** A [toggle] is a pair of its key and its state. *)
Fixpoint requireAnySource (provider : string) (keys : list string) (toggles : list (string * bool))
  : option cfg_error :=
  match toggles with
  | [] => Some (ENoSource provider (Join keys ", "))
  | (key, on) :: toggles => if (on : bool) then None else requireAnySource provider (keys ++ [key]) toggles
  end.

Definition validatePollInterval (provider : string) (poll resolveTTL : Z) : option cfg_error :=
  (try requirePositive (provider +:+ ".pollSeconds") poll ;;
   if resolveTTL <=? poll then Some (EPollTTL provider poll resolveTTL) else None)%go.

(** The providers a warning names. [PollDeadlineFactor*p.poll] is 64-bit arithmetic. *)
Definition PollDeadlineWarnings (c : Config) : list string :=
  omap (λ p : string * bool * Z,
          let '(name, enabled, poll) := p in
          if (enabled : bool) && (c.(Cf_Behavior).(ResolveTTLSeconds) <=? wrap64 (PollDeadlineFactor * poll))
          then Some name else None)
    [("aws", c.(Cf_AWS).(Aws_Enabled), c.(Cf_AWS).(Aws_PollSeconds));
     ("azure", c.(Cf_Azure).(Az_Enabled), c.(Cf_Azure).(Az_PollSeconds));
     ("gcp", c.(Cf_GCP).(Gc_Enabled), c.(Cf_GCP).(Gc_PollSeconds))].

Definition validateSeverityOverrides (c : Config) : option cfg_error :=
  check_each (λ i ov,
    let field := at_index "severityOverrides" i in
    if (size ov.(Ov_Match) =? 0)%nat then Some (EOverrideEmpty field)
    else validateSeverity field ov.(Ov_Severity)) c.(SeverityOverrides).

Definition check_rate (nr : string * SinkRate) : option cfg_error :=
  let '(name, sr) := nr in
  if negb (bool_decide (name ∈ KnownSinks)) then Some (ERateUnknown name)
  else if float_le_zero sr.(PerSecond) then Some (ERatePerSecond name)
  else if sr.(Burst) <? 1 then Some (ERateBurst name sr.(Burst))
  else None.

Definition validateBehavior (c : Config) : option cfg_error :=
  let b := c.(Cf_Behavior) in
  if b.(MuteSeconds) <=? InformerResyncSeconds then Some (EMute b.(MuteSeconds))
  else if b.(ResolveTTLSeconds) <=? InformerResyncSeconds then Some (ETTL b.(ResolveTTLSeconds))
  else if b.(IgnoreRestartCount) <? 0 then Some (ERestarts b.(IgnoreRestartCount))
  else if b.(StartupGraceSeconds) <? 0 then Some (EGrace b.(StartupGraceSeconds))
  else requirePositive "behavior.pvcPendingSeconds" b.(PVCPendingSeconds).

Definition validatePersistence (c : Config) : option cfg_error :=
  if c.(Cf_Persistence).(Ps_Enabled) && streq c.(Cf_Persistence).(Ps_Namespace) ""
  then Some EPersistNamespace else None.

Definition validateGrouping (c : Config) : option cfg_error :=
  let g := c.(Cf_Grouping) in
  if negb g.(Gr_Enabled) then None
  else (try requirePositive "grouping.windowSeconds" g.(Gr_WindowSeconds) ;;
        check_each (λ i k, if streq k "" then Some (EGroupBy i) else None) g.(Gr_By))%go.

Definition aws_toggles (a : AWS) : list (string * bool) :=
  [("eks", a.(Aws_EKS)); ("cloudwatch", a.(Aws_CloudWatch)); ("ec2", a.(Aws_EC2));
   ("elbv2", a.(Aws_ELBV2)); ("rds", a.(Aws_RDS)); ("dynamodb", a.(Aws_DynamoDB));
   ("elasticache", a.(Aws_ElastiCache)); ("s3", a.(Aws_S3)); ("cloudtrail", a.(Aws_CloudTrail));
   ("asg", a.(Aws_ASG)); ("kms", a.(Aws_KMS)); ("ebs", a.(Aws_EBS)); ("aurora", a.(Aws_Aurora));
   ("nat", a.(Aws_NAT)); ("efs", a.(Aws_EFS)); ("route53", a.(Aws_Route53)); ("acm", a.(Aws_ACM));
   ("vpn", a.(Aws_VPN))].

Definition validateAWS (c : Config) : option cfg_error :=
  let a := c.(Cf_AWS) in
  if negb a.(Aws_Enabled) then None
  else match a.(Aws_Regions) with
       | [] => Some ERegions
       | _ => (try requireAnySource "aws" [] (aws_toggles a) ;;
               validatePollInterval "aws" a.(Aws_PollSeconds) c.(Cf_Behavior).(ResolveTTLSeconds))%go
       end.

Definition azure_toggles (z : Azure) : list (string * bool) :=
  [("aks", z.(Az_AKS)); ("monitor", z.(Az_Monitor)); ("vms", z.(Az_VMs));
   ("storage", z.(Az_Storage)); ("sql", z.(Az_SQL)); ("redis", z.(Az_Redis))].

Definition validateAzure (c : Config) : option cfg_error :=
  let z := c.(Cf_Azure) in
  if negb z.(Az_Enabled) then None
  else match z.(Az_Subscriptions) with
       | [] => Some ESubscriptions
       | _ => (try requireAnySource "azure" [] (azure_toggles z) ;;
               validatePollInterval "azure" z.(Az_PollSeconds) c.(Cf_Behavior).(ResolveTTLSeconds))%go
       end.

Definition gcp_toggles (g : GCP) : list (string * bool) :=
  [("gke", g.(Gc_GKE)); ("monitoring", g.(Gc_Monitoring)); ("compute", g.(Gc_Compute));
   ("cloudsql", g.(Gc_CloudSQL))].

Definition validateGCP (c : Config) : option cfg_error :=
  let g := c.(Cf_GCP) in
  if negb g.(Gc_Enabled) then None
  else match g.(Gc_Projects) with
       | [] => Some EProjects
       | _ => (try requireAnySource "gcp" [] (gcp_toggles g) ;;
               validatePollInterval "gcp" g.(Gc_PollSeconds) c.(Cf_Behavior).(ResolveTTLSeconds))%go
       end.

Definition validateCorrelation (c : Config) : option cfg_error :=
  if negb c.(Cf_Correlation).(Co_Enabled) then None else Some ECorrelation.

(** [p != nil]. *)
Definition non_nil {A} (p : option A) : bool := match p with Some _ => true | None => false end.

Section validate.
Context `{RegexpLib} `{MapRange} `{TimeLib} `{ZoneLib}.

Definition validateFilters (c : Config) : option cfg_error :=
  let f := c.(Cf_Filters) in
  first_error (λ nr : string * string,
      match filter_Validate nr.1 nr.2 with Some (field, p) => Some (EFilterRegex field p) | None => None end)
    [("filters.watchedNamespaces", f.(WatchedNamespaces));
     ("filters.ignoredNamespaces", f.(IgnoredNamespaces));
     ("filters.watchedPodNamePrefixes", f.(WatchedPodNamePrefixes));
     ("filters.ignoredPodNamePrefixes", f.(IgnoredPodNamePrefixes))].

Definition check_route (n : Z) (i : Z) (r : Route_) : option cfg_error :=
  let field := at_index "routing" i +:+ ".match" in
  (try (if (size r.(Rt_Match) =? 0)%nat then
          if negb (i =? n - 1) then Some (ECatchAll field (i + 1)) else None
        else if i =? n - 1 then checkMatcherPatterns field r.(Rt_Match)
        else SelectiveMatchers field r.(Rt_Match)) ;;
   validateSinkNames (at_index "routing" i) r.(Rt_Sinks))%go.

Definition validateRouting (c : Config) : option cfg_error :=
  check_each (check_route (Z.of_nat (length c.(Routing)))) c.(Routing).

Definition validateSinkRates (c : Config) : option cfg_error := first_error check_rate (range c.(SinkRates)).

Definition check_inhibition (i : Z) (inh : Inhibition) : option cfg_error :=
  (try SelectiveMatchers (at_index "inhibitions" i +:+ ".source") inh.(In_Source) ;;
   try SelectiveMatchers (at_index "inhibitions" i +:+ ".target") inh.(In_Target) ;;
   if streq inh.(In_Duration) "" then None
   else match ParseDuration inh.(In_Duration) with
        | None => Some (EDuration i inh.(In_Duration))
        | Some _ => None
        end)%go.

Definition validateInhibitions (c : Config) : option cfg_error := check_each check_inhibition c.(Inhibitions).

Definition check_silence (i : Z) (s : CfgSilence) : option cfg_error :=
  (try SelectiveMatchers (at_index "silences" i +:+ ".matchers") s.(Cs_Matchers) ;;
   match ParseRFC3339 s.(Cs_Until) with None => Some (EUntil i) | Some _ => None end)%go.

Definition validateSilences (c : Config) : option cfg_error := check_each check_silence c.(Silences).

Definition check_escalation (i : Z) (esc : Escalation) : option cfg_error :=
  let field := at_index "escalations" i in
  (try requirePositive (field +:+ ": afterMinutes") esc.(AfterMinutes) ;;
   try SelectiveMatchers (field +:+ ".match") esc.(Es_Match) ;;
   validateSinkNames field esc.(Es_Sinks))%go.

Definition validateEscalations (c : Config) : option cfg_error := check_each check_escalation c.(Escalations).

Definition validateRuleCondition (field : string) (ru : Rule) : option cfg_error :=
  let set := fold_left (λ (set : nat) (present : bool), if present then S set else set)
               [non_nil ru.(Ru_Count); (0 <? length ru.(Ru_All))%nat; non_nil ru.(Ru_Absent)] 0%nat in
  if negb (set =? 1)%nat then Some (ERuleCondition field)
  else match ru.(Ru_Count) with
       | Some rc =>
         (try checkMatcherPatterns (field +:+ ".count.match") rc.(Rn_Match) ;;
          try requirePositive (field +:+ ": count.threshold") rc.(Threshold) ;;
          requirePositive (field +:+ ": windowSeconds (count rule)") ru.(Ru_WindowSeconds))%go
       | None =>
         match ru.(Ru_All), ru.(Ru_Absent) with
         | _ :: _, _ =>
           (try check_each (λ i m, checkMatcherPatterns (at_index (field +:+ ".all") i) m) ru.(Ru_All) ;;
            requirePositive (field +:+ ": windowSeconds (all rule)") ru.(Ru_WindowSeconds))%go
         | [], Some ab =>
           (try checkMatcherPatterns (field +:+ ".absent.match") ab.(Ab_Match) ;;
            requirePositive (field +:+ ": absent.forSeconds") ab.(ForSeconds))%go
         | [], None => None (* unreachable: exactly one is present *)
         end
       end.

(** The loop of [validateRules] with the names seen so far. *)
Fixpoint validate_rules (names : gmap string Z) (i : Z) (rules : list Rule) : option cfg_error :=
  match rules with
  | [] => None
  | ru :: rules =>
    if streq ru.(Ru_Name) "" then Some (ERuleName i)
    else match names !! ru.(Ru_Name) with
         | Some prev => Some (ERuleDup i ru.(Ru_Name) prev)
         | None =>
           let field := at_index "rules" i +:+ " (" +:+ ru.(Ru_Name) +:+ ")" in
           (try validateSeverity field ru.(Ru_Severity) ;;
            try validateRuleCondition field ru ;;
            validate_rules (<[ru.(Ru_Name) := i]> names) (i + 1) rules)%go
         end
  end.

Definition validateRules (c : Config) : option cfg_error := validate_rules ∅ 0 c.(Rules).

Definition validateMaintenance (c : Config) : option cfg_error :=
  check_each (λ i w, match validate_window w with
                     | Some e => Some (EIn (at_index "maintenance" i) e)
                     | None => None
                     end) c.(Maintenance).

Definition Validate (c : Config) : option cfg_error :=
  first_error (λ validate : Config → option cfg_error, validate c)
    [validateFilters; validateRouting; validateSeverityOverrides; validateSinkRates;
     validateInhibitions; validateSilences; validateBehavior; validatePersistence;
     validateEscalations; validateGrouping; validateAWS; validateAzure; validateGCP;
     validateRules; validateMaintenance; validateCorrelation].
End validate.

(** ** shardscope.go *)

Definition DefaultStateConfigMap : string := "alertkube-state".

Definition set_ConfigMapName (name : string) (c : Config) : Config :=
  MkConfig c.(Cluster) c.(Cf_Filters) c.(Cf_Behavior) c.(Cf_Channels) c.(Routing) c.(SeverityOverrides)
    c.(SinkRates) c.(Inhibitions) c.(Silences) c.(Escalations) c.(Cf_Receiver) c.(MetricsAddr) c.(APIAddr)
    c.(Cf_Grouping)
    (MkPersistence c.(Cf_Persistence).(Ps_Enabled) name c.(Cf_Persistence).(Ps_Namespace))
    c.(Cf_AWS) c.(Cf_Azure) c.(Cf_GCP) c.(Rules) c.(Cf_Correlation) c.(Maintenance).

Definition ApplyShardScope (index : Z) (sharded : bool) (c : Config) : cfg_error + Config :=
  if negb sharded || negb c.(Cf_Persistence).(Ps_Enabled) then inr c
  else
    let suffix := "-" +:+ Itoa index in
    let name := c.(Cf_Persistence).(ConfigMapName) in
    if streq name DefaultStateConfigMap then inr (set_ConfigMapName (DefaultStateConfigMap +:+ suffix) c)
    else if negb (HasSuffix name suffix) then inl (EShardName name index)
    else inr c.

(** ** load.go *)

Section load.
Context (getenv : string → string).

(** [if s == "" { s = os.Getenv(key) }]. *)
Definition fill (s : string) (v : string) : string := if streq s "" then v else s.

Definition intDefault (set : gset string) (path key : string) (v def : Z) : Z :=
  if bool_decide (path ∈ set) then v else IntOr getenv key def.

Definition set_aws_defaults (set : gset string) (a : AWS) : AWS :=
  if a.(Aws_Enabled) then
    MkAWS a.(Aws_Enabled)
      (match a.(Aws_Regions) with
       | [] => let r := getenv "AWS_REGION" in if negb (streq r "") then [r] else []
       | rs => rs
       end)
      (intDefault set "aws.pollSeconds" "AWS_POLL_SECONDS" a.(Aws_PollSeconds) 60)
      a.(Aws_EKS) a.(Aws_CloudWatch) a.(Aws_EC2) a.(Aws_ELBV2) a.(Aws_RDS) a.(Aws_DynamoDB)
      a.(Aws_ElastiCache) a.(Aws_S3) a.(Aws_CloudTrail) a.(Aws_CloudTrailEvents) a.(Aws_ASG) a.(Aws_KMS)
      a.(Aws_EBS) a.(Aws_Aurora) a.(Aws_NAT) a.(Aws_EFS) a.(Aws_Route53) a.(Aws_ACM) a.(Aws_VPN)
  else a.

Definition set_azure_defaults (set : gset string) (z : Azure) : Azure :=
  if z.(Az_Enabled) then
    MkAzure z.(Az_Enabled) z.(Az_Subscriptions)
      (intDefault set "azure.pollSeconds" "AZURE_POLL_SECONDS" z.(Az_PollSeconds) 60)
      z.(Az_AKS) z.(Az_Monitor) z.(Az_VMs) z.(Az_Storage) z.(Az_SQL) z.(Az_Redis)
  else z.

Definition set_gcp_defaults (set : gset string) (g : GCP) : GCP :=
  if g.(Gc_Enabled) then
    MkGCP g.(Gc_Enabled) g.(Gc_Projects)
      (intDefault set "gcp.pollSeconds" "GCP_POLL_SECONDS" g.(Gc_PollSeconds) 60)
      g.(Gc_GKE) g.(Gc_Monitoring) g.(Gc_Compute) g.(Gc_CloudSQL)
  else g.

Definition set_behavior_defaults (set : gset string) (b : Behavior) : Behavior :=
  MkBehavior
    (intDefault set "behavior.muteSeconds" "MUTE_SECONDS" b.(MuteSeconds) 600)
    (intDefault set "behavior.ignoreRestartCount" "IGNORE_RESTART_COUNT" b.(IgnoreRestartCount) 30)
    (if bool_decide ("behavior.ignoreRestartsWithExitCodeZero" ∈ set) then b.(IgnoreRestartsWithExitCodeZero)
     else streq (getenv "IGNORE_RESTARTS_WITH_EXIT_CODE_ZERO") "true")
    (intDefault set "behavior.resolveTTLSeconds" "RESOLVE_TTL_SECONDS" b.(ResolveTTLSeconds) 600)
    (intDefault set "behavior.startupGraceSeconds" "STARTUP_GRACE_SECONDS" b.(StartupGraceSeconds) 0)
    (intDefault set "behavior.pvcPendingSeconds" "PVC_PENDING_SECONDS" b.(PVCPendingSeconds) 300)
    b.(DisableLogCollection) b.(DisableAnnotationSilences).

Definition applyEnvDefaults (set : gset string) (c : Config) : Config :=
  let f := c.(Cf_Filters) in
  let ch := c.(Cf_Channels) in
  let g := c.(Cf_Grouping) in
  let p := c.(Cf_Persistence) in
  MkConfig
    (fill c.(Cluster) (getenv "CLUSTER_NAME"))
    (MkFilters (fill f.(WatchedNamespaces) (getenv "WATCHED_NAMESPACES"))
       (fill f.(IgnoredNamespaces) (getenv "IGNORED_NAMESPACES"))
       (fill f.(WatchedPodNamePrefixes) (getenv "WATCHED_POD_NAME_PREFIXES"))
       (fill f.(IgnoredPodNamePrefixes) (getenv "IGNORED_POD_NAME_PREFIXES")))
    (set_behavior_defaults set c.(Cf_Behavior))
    (MkChannels (fill ch.(Ch_Critical) (Or_ getenv "SLACK_CHANNEL_CRITICAL" "alerts-critical"))
       (fill ch.(Ch_Warning) (Or_ getenv "SLACK_CHANNEL_WARNING" (Or_ getenv "SLACK_CHANNEL" "alerts-warning")))
       (fill ch.(Ch_Info) (Or_ getenv "SLACK_CHANNEL_INFO" "alerts-info")))
    c.(Routing) c.(SeverityOverrides) c.(SinkRates) c.(Inhibitions) c.(Silences) c.(Escalations) c.(Cf_Receiver)
    (fill c.(MetricsAddr) (Or_ getenv "METRICS_ADDR" ":9090"))
    (fill c.(APIAddr) (getenv "ALERTKUBE_API_ADDR"))
    (MkGrouping g.(Gr_Enabled)
       (if bool_decide ("grouping.windowSeconds" ∈ set) then g.(Gr_WindowSeconds) else 30) g.(Gr_By))
    (MkPersistence p.(Ps_Enabled) (fill p.(ConfigMapName) DefaultStateConfigMap)
       (fill p.(Ps_Namespace) (getenv "POD_NAMESPACE")))
    (set_aws_defaults set c.(Cf_AWS)) (set_azure_defaults set c.(Cf_Azure)) (set_gcp_defaults set c.(Cf_GCP))
    c.(Rules) c.(Cf_Correlation) c.(Maintenance).

Context `{RegexpLib} `{MapRange} `{TimeLib} `{ZoneLib}.

(** [ParseAndValidate] and [Load] from the decoded document on. *)
Definition ParseAndValidate (set : gset string) (c : Config) : option cfg_error :=
  Validate (applyEnvDefaults set c).

Definition Load (set : gset string) (c : Config) : cfg_error + Config :=
  let c := applyEnvDefaults set c in
  match Validate c with Some e => inl e | None => inr c end.
End load.
