(* ===== verification/ConfigTheory.v ===== *)
(** * Theorems about internal/config

    The declarative meaning of a valid configuration and the proof that [Validate] decides it
    in every map iteration order; what an accepted matcher map cannot do; the recurring
    maintenance schedule; the per-shard state object; the environment defaults. *)
From S2P Require Import Prelude GoStd AlertModel Filter Shard Config.

(** ** Loops *)

Lemma check_each_None {A} (check : Z → A → option cfg_error) (l : list A) :
  check_each check l = None ↔ ∀ i x, l !! i = Some x → check (Z.of_nat i) x = None.
Proof.
  unfold check_each. rewrite first_error_None. split.
  - intros Hall i x Hx. apply (Hall (Z.of_nat i, x)). apply list_elem_of_lookup. exists i.
    apply lookup_zip_with_Some. exists (Z.of_nat i), x. split_and!; [done| |done].
    apply lookup_seqZ. apply lookup_lt_Some in Hx. lia.
  - intros Hall [z x] Hin. apply list_elem_of_lookup in Hin as [i Hi].
    apply lookup_zip_with_Some in Hi as (z' & x' & E & Hz & Hx). simplify_eq.
    apply lookup_seqZ in Hz as [-> _]. simpl. by apply Hall.
Qed.

Lemma check_each_elem {A} (P : A → Prop) (check : Z → A → option cfg_error) (l : list A) :
  (∀ i x, check i x = None ↔ P x) → check_each check l = None ↔ ∀ x, x ∈ l → P x.
Proof.
  intros Hc. rewrite check_each_None. split.
  - intros Hall x [i Hi]%list_elem_of_lookup. by apply (Hc (Z.of_nat i)), (Hall i).
  - intros Hall i x Hi. apply Hc, Hall. by eapply list_elem_of_lookup_2.
Qed.

Lemma try_None (e k : option cfg_error) : (try e ;; k)%go = None ↔ e = None ∧ k = None.
Proof. destruct e; naive_solver. Qed.

(** ** What the rules require *)

Definition sinks_ok (names : list string) : Prop :=
  names ≠ [] ∧ ∀ s, s ∈ names → s ∈ KnownSinks.

Definition poll_ok (poll ttl : Z) : Prop := 0 < poll < ttl.

Definition some_source (toggles : list (string * bool)) : Prop := ∃ key, (key, true) ∈ toggles.

Section meaning.
Context `{RegexpLib}.

Definition patterns_ok (m : gmap string string) : Prop :=
  ∀ k v, m !! k = Some v → IsPatternKey k = true → is_Some (CompilePattern v).

(** A pattern some probe escapes. *)
Definition selective_pattern (v : string) : Prop :=
  ∃ re p, CompilePattern v = Some re ∧ p ∈ matchAllProbes ∧ MatchString re p = false.

Definition selective (m : gmap string string) : Prop :=
  m ≠ ∅ ∧ ∀ k v, m !! k = Some v →
    (v = "" → IsFieldKey k = true) ∧ (IsPatternKey k = true → selective_pattern v).

Definition filter_ok (raw : string) : Prop :=
  ∀ p, p ∈ entries raw → isRegex p = true → is_Some (compile p).

(** Exactly one condition, with its windows positive and its patterns compiling. *)
Definition rule_condition_ok (ru : Rule) : Prop :=
  match ru.(Ru_Count), ru.(Ru_All), ru.(Ru_Absent) with
  | Some rc, [], None => patterns_ok rc.(Rn_Match) ∧ 0 < rc.(Threshold) ∧ 0 < ru.(Ru_WindowSeconds)
  | None, _ :: _, None => (∀ m, m ∈ ru.(Ru_All) → patterns_ok m) ∧ 0 < ru.(Ru_WindowSeconds)
  | None, [], Some ab => patterns_ok ab.(Ab_Match) ∧ 0 < ab.(ForSeconds)
  | _, _, _ => False
  end.

Context `{TimeLib} `{ZoneLib}.

Definition window_ok (w : MaintenanceWindow) : Prop :=
  selective w.(Mw_Matchers)
  ∧ (∃ s e, minutesOfDay w.(Mw_Start) = inr s ∧ minutesOfDay w.(Mw_End) = inr e)
  ∧ (∀ d, d ∈ w.(Mw_Days) → is_Some (weekdayByAbbrev !! ToLower d))
  ∧ (w.(Mw_Timezone) ≠ "" → is_Some (LoadLocation w.(Mw_Timezone))).

Record config_ok (c : Config) : Prop := {
  ok_filters : ∀ raw, raw ∈ [c.(Cf_Filters).(WatchedNamespaces); c.(Cf_Filters).(IgnoredNamespaces);
      c.(Cf_Filters).(WatchedPodNamePrefixes); c.(Cf_Filters).(IgnoredPodNamePrefixes)] → filter_ok raw;
  (** only the last route may be a catch-all *)
  ok_routes : ∀ i r, c.(Routing) !! i = Some r →
      sinks_ok r.(Rt_Sinks) ∧ patterns_ok r.(Rt_Match)
      ∧ (S i < length c.(Routing) → selective r.(Rt_Match))%nat;
  ok_overrides : ∀ ov, ov ∈ c.(SeverityOverrides) → ov.(Ov_Match) ≠ ∅ ∧ Severity_Valid ov.(Ov_Severity) = true;
  ok_rates : ∀ name r, c.(SinkRates) !! name = Some r →
      name ∈ KnownSinks ∧ float_le_zero r.(PerSecond) = false ∧ 1 <= r.(Burst);
  ok_inhibitions : ∀ i, i ∈ c.(Inhibitions) → selective i.(In_Source) ∧ selective i.(In_Target)
      ∧ (i.(In_Duration) ≠ "" → is_Some (ParseDuration i.(In_Duration)));
  ok_silences : ∀ s, s ∈ c.(Silences) → selective s.(Cs_Matchers) ∧ is_Some (ParseRFC3339 s.(Cs_Until));
  ok_lifecycle : InformerResyncSeconds < c.(Cf_Behavior).(MuteSeconds)
      ∧ InformerResyncSeconds < c.(Cf_Behavior).(ResolveTTLSeconds)
      ∧ 0 <= c.(Cf_Behavior).(IgnoreRestartCount) ∧ 0 <= c.(Cf_Behavior).(StartupGraceSeconds)
      ∧ 0 < c.(Cf_Behavior).(PVCPendingSeconds);
  ok_persistence : c.(Cf_Persistence).(Ps_Enabled) = true → c.(Cf_Persistence).(Ps_Namespace) ≠ "";
  ok_escalations : ∀ e, e ∈ c.(Escalations) → 0 < e.(AfterMinutes) ∧ selective e.(Es_Match) ∧ sinks_ok e.(Es_Sinks);
  ok_grouping : c.(Cf_Grouping).(Gr_Enabled) = true →
      0 < c.(Cf_Grouping).(Gr_WindowSeconds) ∧ ∀ k, k ∈ c.(Cf_Grouping).(Gr_By) → k ≠ "";
  ok_aws : c.(Cf_AWS).(Aws_Enabled) = true → c.(Cf_AWS).(Aws_Regions) ≠ []
      ∧ some_source (aws_toggles c.(Cf_AWS)) ∧ poll_ok c.(Cf_AWS).(Aws_PollSeconds) c.(Cf_Behavior).(ResolveTTLSeconds);
  ok_azure : c.(Cf_Azure).(Az_Enabled) = true → c.(Cf_Azure).(Az_Subscriptions) ≠ []
      ∧ some_source (azure_toggles c.(Cf_Azure)) ∧ poll_ok c.(Cf_Azure).(Az_PollSeconds) c.(Cf_Behavior).(ResolveTTLSeconds);
  ok_gcp : c.(Cf_GCP).(Gc_Enabled) = true → c.(Cf_GCP).(Gc_Projects) ≠ []
      ∧ some_source (gcp_toggles c.(Cf_GCP)) ∧ poll_ok c.(Cf_GCP).(Gc_PollSeconds) c.(Cf_Behavior).(ResolveTTLSeconds);
  ok_rules : NoDup (Ru_Name <$> c.(Rules))
      ∧ ∀ ru, ru ∈ c.(Rules) → ru.(Ru_Name) ≠ "" ∧ Severity_Valid ru.(Ru_Severity) = true ∧ rule_condition_ok ru;
  ok_maintenance : ∀ w, w ∈ c.(Maintenance) → window_ok w;
  ok_correlation : c.(Cf_Correlation).(Co_Enabled) = false;
}.
End meaning.

(** ** The rules decide their meaning *)

Lemma validateSinkNames_None field names : validateSinkNames field names = None ↔ sinks_ok names.
Proof.
  unfold validateSinkNames, sinks_ok. destruct names as [|n names]; [naive_solver|].
  rewrite first_error_None. split.
  - intros Hall. split; [done|]. intros s Hs. specialize (Hall s Hs). by destruct (bool_decide_reflect (s ∈ KnownSinks)).
  - intros [_ Hall] s Hs. by rewrite bool_decide_true by auto.
Qed.

Lemma requirePositive_None field v : requirePositive field v = None ↔ 0 < v.
Proof. unfold requirePositive. destruct (Z.leb_spec v 0); split; intros; (done || lia). Qed.

Lemma validateSeverity_None field s : validateSeverity field s = None ↔ Severity_Valid s = true.
Proof. unfold validateSeverity. by destruct (Severity_Valid s). Qed.

Lemma validatePollInterval_None p poll ttl : validatePollInterval p poll ttl = None ↔ poll_ok poll ttl.
Proof.
  unfold validatePollInterval, poll_ok. rewrite try_None, requirePositive_None.
  destruct (Z.leb_spec ttl poll); split; intros [? ?]; (done || lia).
Qed.

Lemma requireAnySource_None p keys toggles : requireAnySource p keys toggles = None ↔ some_source toggles.
Proof.
  unfold some_source. revert keys. induction toggles as [|[k on] l IH]; intros keys; simpl.
  - split; [done|]. intros [k Hk]. by apply elem_of_nil in Hk.
  - destruct on.
    + split; [|done]. intros _. exists k. left.
    + rewrite IH. setoid_rewrite elem_of_cons. naive_solver.
Qed.

Section decide_rules.
Context `{RegexpLib} `{MapRange}.

Lemma matchesEvery_false re :
  matchesEveryString re = false ↔ ∃ p, p ∈ matchAllProbes ∧ MatchString re p = false.
Proof.
  unfold matchesEveryString. split; [apply forallb_false_exists|].
  intros (p & Hp & Hm). apply not_true_is_false. rewrite forallb_True. intros Hall. by rewrite Hall in Hm.
Qed.

Lemma pattern_check_None field k v :
  match compileMatcherPattern field k v with
  | inl e => Some e
  | inr re => if matchesEveryString re then Some (EMatchesEvery field k v) else None
  end = None ↔ selective_pattern v.
Proof.
  unfold compileMatcherPattern, selective_pattern. destruct (CompilePattern v) as [re|]; [|naive_solver].
  destruct (matchesEveryString re) eqn:Em.
  - split; [done|]. intros (re' & p & ? & Hp & Hm). simplify_eq.
    enough (matchesEveryString re' = false) by congruence. apply matchesEvery_false. eauto.
  - split; [|done]. intros _. apply matchesEvery_false in Em as (p & Hp & Hm). eauto.
Qed.

Lemma check_selective_None field k v :
  check_selective field (k, v) = None
  ↔ (v = "" → IsFieldKey k = true) ∧ (IsPatternKey k = true → selective_pattern v).
Proof.
  unfold check_selective. destruct (streq v "" && negb (IsFieldKey k)) eqn:E.
  - apply andb_true_iff in E as [->%streq_true Ek]. split; [done|]. intros [Hf _]. by rewrite Hf in Ek.
  - assert (Hf : v = "" → IsFieldKey k = true).
    { intros ->. by destruct (IsFieldKey k). }
    destruct (IsPatternKey k); cbn [negb]; [|naive_solver]. rewrite pattern_check_None. naive_solver.
Qed.

Lemma SelectiveMatchers_None field m : SelectiveMatchers field m = None ↔ selective m.
Proof.
  unfold SelectiveMatchers, selective. destruct (size m =? 0)%nat eqn:Es.
  - apply Nat.eqb_eq, map_size_empty_iff in Es. naive_solver.
  - apply Nat.eqb_neq in Es. rewrite map_size_empty_iff in Es. rewrite first_error_None. split.
    + intros Hall. split; [done|]. intros k v Hk. apply (check_selective_None field), Hall. by apply range_In.
    + intros [_ Hall] [k v] Hk%range_In. by apply check_selective_None, Hall.
Qed.

Lemma checkMatcherPatterns_None field m : checkMatcherPatterns field m = None ↔ patterns_ok m.
Proof.
  unfold checkMatcherPatterns, patterns_ok. rewrite first_error_None.
  assert (Hc : ∀ k v, check_pattern field (k, v) = None ↔ (IsPatternKey k = true → is_Some (CompilePattern v))).
  { intros k v. unfold check_pattern, compileMatcherPattern. destruct (IsPatternKey k); simpl; [|naive_solver].
    destruct (CompilePattern v); split; [eauto|done|done|intros [? E]; [done|done]]. }
  split.
  - intros Hall k v Hk. apply Hc, Hall. by apply range_In.
  - intros Hall [k v] Hk%range_In. by apply Hc, Hall.
Qed.

Lemma selective_patterns m : selective m → patterns_ok m.
Proof. intros [_ Hs] k v Hk Hp. destruct (Hs k v Hk) as [_ (re & p & Hre & _)]; eauto. Qed.

Lemma filter_Validate_None field raw : filter_Validate field raw = None ↔ filter_ok raw.
Proof.
  unfold filter_Validate, filter_ok, entries. rewrite first_error_None. split.
  - intros Hall p (Hne & Hp)%list_elem_of_filter Hr. apply list_elem_of_fmap in Hp as (e & -> & He).
    specialize (Hall e He). unfold check_entry in Hall.
    rewrite (proj2 (streq_false _ _) Hne), Hr in Hall. simpl in Hall. destruct (compile (TrimSpace e)); [eauto|done].
  - intros Hall e He. unfold check_entry. destruct (streq (TrimSpace e) "") eqn:Ee; [done|].
    destruct (isRegex (TrimSpace e)) eqn:Er; [|done]. simpl. apply streq_false in Ee.
    destruct (Hall (TrimSpace e)) as [re ->]; [|done|done].
    apply list_elem_of_filter. split; [done|]. apply list_elem_of_fmap. eauto.
Qed.
End decide_rules.

Section decide_sections.
Context `{RegexpLib} `{MapRange} `{TimeLib} `{ZoneLib}.

Lemma validateRouting_None c :
  validateRouting c = None ↔
  ∀ i r, c.(Routing) !! i = Some r →
    sinks_ok r.(Rt_Sinks) ∧ patterns_ok r.(Rt_Match) ∧ (S i < length c.(Routing) → selective r.(Rt_Match))%nat.
Proof.
  unfold validateRouting. rewrite check_each_None.
  assert (Hr : ∀ i r, c.(Routing) !! i = Some r →
    check_route (Z.of_nat (length (Routing c))) (Z.of_nat i) r = None
    ↔ sinks_ok r.(Rt_Sinks) ∧ patterns_ok r.(Rt_Match) ∧ (S i < length c.(Routing) → selective r.(Rt_Match))%nat).
  { intros i r Hi. apply lookup_lt_Some in Hi. unfold check_route. rewrite try_None, validateSinkNames_None.
    destruct (Nat.eqb_spec (size (Rt_Match r)) 0) as [Es|Es]; rewrite map_size_empty_iff in Es;
      destruct (Z.eqb_spec (Z.of_nat i) (Z.of_nat (length (Routing c)) - 1)) as [El|El]; cbn [negb].
    - rewrite Es. assert (patterns_ok ∅) by (intros k v Hk; by rewrite lookup_empty in Hk).
      split; [intros [_ Hs]|intros [Hs _]]; split_and?; try done. lia.
    - split; [by intros []|]. intros (_ & _ & Hsel). destruct Hsel as [Hne _]; [lia|done].
    - rewrite checkMatcherPatterns_None. split; [|tauto]. intros [Hp Hs]. split_and!; [done|done|lia].
    - rewrite SelectiveMatchers_None. split; [|intros (? & _ & Hsel); split; [apply Hsel; lia|done]].
      intros [Hsel Hs]. split_and!; [done|by apply selective_patterns|done]. }
  split; intros Hall i r Hi; [by apply Hr, Hall|by apply Hr; [|apply Hall]].
Qed.

Lemma check_inhibition_None i inh :
  check_inhibition i inh = None ↔
  selective inh.(In_Source) ∧ selective inh.(In_Target)
  ∧ (inh.(In_Duration) ≠ "" → is_Some (ParseDuration inh.(In_Duration))).
Proof.
  unfold check_inhibition. rewrite !try_None, !SelectiveMatchers_None.
  destruct (streq (In_Duration inh) "") eqn:E.
  - apply streq_true in E. naive_solver.
  - apply streq_false in E. destruct (ParseDuration (In_Duration inh)); naive_solver.
Qed.

Lemma check_silence_None i s :
  check_silence i s = None ↔ selective s.(Cs_Matchers) ∧ is_Some (ParseRFC3339 s.(Cs_Until)).
Proof.
  unfold check_silence. rewrite try_None, SelectiveMatchers_None.
  destruct (ParseRFC3339 (Cs_Until s)); naive_solver.
Qed.

Lemma check_escalation_None i e :
  check_escalation i e = None ↔ 0 < e.(AfterMinutes) ∧ selective e.(Es_Match) ∧ sinks_ok e.(Es_Sinks).
Proof.
  unfold check_escalation. by rewrite !try_None, requirePositive_None, SelectiveMatchers_None, validateSinkNames_None.
Qed.

Lemma check_rate_None name r :
  check_rate (name, r) = None ↔ name ∈ KnownSinks ∧ float_le_zero r.(PerSecond) = false ∧ 1 <= r.(Burst).
Proof.
  unfold check_rate. destruct (bool_decide_reflect (name ∈ KnownSinks)); simpl; [|naive_solver].
  destruct (float_le_zero (PerSecond r)); [naive_solver|].
  destruct (Z.ltb_spec (Burst r) 1); split; (done || lia || naive_solver).
Qed.

Lemma validateBehavior_None c :
  validateBehavior c = None ↔
  InformerResyncSeconds < c.(Cf_Behavior).(MuteSeconds)
  ∧ InformerResyncSeconds < c.(Cf_Behavior).(ResolveTTLSeconds)
  ∧ 0 <= c.(Cf_Behavior).(IgnoreRestartCount) ∧ 0 <= c.(Cf_Behavior).(StartupGraceSeconds)
  ∧ 0 < c.(Cf_Behavior).(PVCPendingSeconds).
Proof.
  unfold validateBehavior.
  destruct (Z.leb_spec (MuteSeconds (Cf_Behavior c)) InformerResyncSeconds); [split; [done|lia]|].
  destruct (Z.leb_spec (ResolveTTLSeconds (Cf_Behavior c)) InformerResyncSeconds); [split; [done|lia]|].
  destruct (Z.ltb_spec (IgnoreRestartCount (Cf_Behavior c)) 0); [split; [done|lia]|].
  destruct (Z.ltb_spec (StartupGraceSeconds (Cf_Behavior c)) 0); [split; [done|lia]|].
  rewrite requirePositive_None. tauto.
Qed.

Lemma validateGrouping_None c :
  validateGrouping c = None ↔
  (c.(Cf_Grouping).(Gr_Enabled) = true →
   0 < c.(Cf_Grouping).(Gr_WindowSeconds) ∧ ∀ k, k ∈ c.(Cf_Grouping).(Gr_By) → k ≠ "").
Proof.
  unfold validateGrouping. destruct (Gr_Enabled (Cf_Grouping c)); cbn [negb]; [|naive_solver].
  rewrite try_None, requirePositive_None, (check_each_elem (λ k, k ≠ "")); [naive_solver|].
  intros i k. destruct (streq k "") eqn:E; [apply streq_true in E|apply streq_false in E]; naive_solver.
Qed.

(** One lemma for the three providers. *)
Lemma provider_None (enabled : bool) (scopes : list string) e p toggles poll ttl :
  (if negb enabled then None
   else match scopes with
        | [] => Some e
        | _ => (try requireAnySource p [] toggles ;; validatePollInterval p poll ttl)%go
        end) = None
  ↔ (enabled = true → scopes ≠ [] ∧ some_source toggles ∧ poll_ok poll ttl).
Proof.
  destruct enabled; cbn [negb]; [|naive_solver]. destruct scopes; [naive_solver|].
  rewrite try_None, requireAnySource_None, validatePollInterval_None. naive_solver.
Qed.

Lemma validateRuleCondition_None field ru : validateRuleCondition field ru = None ↔ rule_condition_ok ru.
Proof.
  unfold validateRuleCondition, rule_condition_ok.
  destruct (Ru_Count ru) as [rc|], (Ru_All ru) as [|m ms], (Ru_Absent ru) as [ab|]; try (by cbn);
    cbn [fold_left non_nil length Nat.ltb Nat.leb Nat.eqb negb].
  - by rewrite !try_None, checkMatcherPatterns_None, !requirePositive_None.
  - by rewrite try_None, checkMatcherPatterns_None, requirePositive_None.
  - rewrite try_None, requirePositive_None, (check_each_elem patterns_ok); [done|].
    intros i x. apply checkMatcherPatterns_None.
Qed.

Lemma validate_rules_None names i rules :
  validate_rules names i rules = None ↔
  NoDup (Ru_Name <$> rules)
  ∧ ∀ ru, ru ∈ rules → ru.(Ru_Name) ≠ "" ∧ names !! ru.(Ru_Name) = None
      ∧ Severity_Valid ru.(Ru_Severity) = true ∧ rule_condition_ok ru.
Proof.
  revert names i. induction rules as [|ru rules IH]; intros names i; cbn [validate_rules].
  { split; [|done]. split; [constructor|]. intros ru Hru. by apply elem_of_nil in Hru. }
  rewrite fmap_cons, NoDup_cons. setoid_rewrite elem_of_cons.
  destruct (streq (Ru_Name ru) "") eqn:En; [apply streq_true in En; split; [done|naive_solver]|].
  apply streq_false in En. destruct (names !! Ru_Name ru) eqn:Ep; [split; [done|naive_solver]|].
  rewrite !try_None, validateSeverity_None, validateRuleCondition_None, IH. split.
  - intros (Hs & Hc & Hnd & Hall). split_and!; [|done|].
    + intros (x & Ex & Hx)%list_elem_of_fmap. apply Hall in Hx as (_ & Hx & _). rewrite Ex in Hx.
      by rewrite lookup_insert_eq in Hx.
    + intros x [->|Hx]; [done|]. destruct (Hall x Hx) as (? & Hl & ?).
      apply lookup_insert_None in Hl as [? _]. done.
  - intros ([Hnin Hnd] & Hall). destruct (Hall ru) as (_ & _ & ? & ?); [by left|].
    split_and!; [done|done|done|]. intros x Hx. destruct (Hall x) as (? & ? & ? & ?); [by right|].
    split_and!; [done| |done|done]. rewrite lookup_insert_ne; [done|]. intros E. apply Hnin.
    apply list_elem_of_fmap. by exists x.
Qed.

Lemma check_time_None ctx s : check_time ctx s = None ↔ ∃ m, minutesOfDay s = inr m.
Proof. unfold check_time. destruct (minutesOfDay s); naive_solver. Qed.

Lemma validate_window_None w : validate_window w = None ↔ window_ok w.
Proof.
  unfold validate_window, window_ok, loadZone.
  rewrite !try_None, SelectiveMatchers_None, !check_time_None, first_error_None.
  assert (Hd : (∀ d, d ∈ Mw_Days w → match weekdayByAbbrev !! ToLower d with Some _ => None | None => Some (EDay d) end = None)
               ↔ ∀ d, d ∈ Mw_Days w → is_Some (weekdayByAbbrev !! ToLower d)).
  { split; intros Hall d Hin; specialize (Hall d Hin); destruct (weekdayByAbbrev !! ToLower d); naive_solver. }
  rewrite Hd. clear Hd. destruct (streq (Mw_Timezone w) "") eqn:E; simpl.
  - apply streq_true in E. naive_solver.
  - apply streq_false in E. destruct (LoadLocation (Mw_Timezone w)); naive_solver.
Qed.

Lemma validateFilters_None c :
  validateFilters c = None ↔
  ∀ raw, raw ∈ [c.(Cf_Filters).(WatchedNamespaces); c.(Cf_Filters).(IgnoredNamespaces);
    c.(Cf_Filters).(WatchedPodNamePrefixes); c.(Cf_Filters).(IgnoredPodNamePrefixes)] → filter_ok raw.
Proof.
  unfold validateFilters. rewrite first_error_None.
  assert (Hf : ∀ nr : string * string,
    match filter_Validate nr.1 nr.2 with Some (field, p) => Some (EFilterRegex field p) | None => None end = None
    ↔ filter_ok nr.2).
  { intros [n r]. simpl. rewrite <- (filter_Validate_None n). by destruct (filter_Validate n r) as [[]|]. }
  setoid_rewrite Hf. repeat setoid_rewrite elem_of_cons. setoid_rewrite elem_of_nil. split.
  - intros Hall raw Hraw. destruct_or! Hraw; try done; subst raw; eapply (Hall (_, _)); eauto.
  - intros Hall [n r] Hnr. destruct_or! Hnr; try done; simplify_eq/=; apply Hall; tauto.
Qed.

(** C38: [Validate] accepts exactly the configurations that satisfy the declarative rules -
    every referenced sink known, every suppressing matcher selective, mute and resolve windows
    above the informer resync, poll intervals below the resolve TTL, rules with one condition
    and unique names, parseable schedules - and the verdict does not depend on the order in
    which maps are iterated. *)
Theorem Validate_correct c : Validate c = None ↔ config_ok c.
Proof.
  unfold Validate. cbn [first_error]. rewrite !try_None.
  rewrite validateFilters_None, validateRouting_None, validateBehavior_None, validateGrouping_None.
  unfold validateSeverityOverrides, validateInhibitions, validateSilences, validateEscalations,
    validateMaintenance, validateSinkRates, validateAWS, validateAzure, validateGCP, validateRules.
  rewrite !provider_None, validate_rules_None.
  rewrite (check_each_elem (λ ov, ov.(Ov_Match) ≠ ∅ ∧ Severity_Valid ov.(Ov_Severity) = true)).
  2:{ intros i ov. destruct (Nat.eqb_spec (size (Ov_Match ov)) 0) as [Es|Es]; rewrite map_size_empty_iff in Es;
        [naive_solver|]. rewrite validateSeverity_None. tauto. }
  rewrite (check_each_elem _ _ _ check_inhibition_None), (check_each_elem _ _ _ check_silence_None),
    (check_each_elem _ _ _ check_escalation_None).
  rewrite (check_each_elem window_ok).
  2:{ intros i w. rewrite <- validate_window_None. by destruct (validate_window w). }
  assert (Hrates : first_error check_rate (range (SinkRates c)) = None ↔
    ∀ name r, c.(SinkRates) !! name = Some r → name ∈ KnownSinks ∧ float_le_zero r.(PerSecond) = false ∧ 1 <= r.(Burst)).
  { rewrite first_error_None. setoid_rewrite <- check_rate_None. split.
    - intros Hall name r Hr. apply Hall. by apply range_In.
    - intros Hall [name r] Hr%range_In. by apply Hall. }
  assert (Hps : validatePersistence c = None ↔
    (c.(Cf_Persistence).(Ps_Enabled) = true → c.(Cf_Persistence).(Ps_Namespace) ≠ "")).
  { unfold validatePersistence. destruct (Ps_Enabled (Cf_Persistence c)); simpl; [|naive_solver].
    rewrite <- streq_false. destruct (streq (Ps_Namespace (Cf_Persistence c)) ""); naive_solver. }
  assert (Hco : validateCorrelation c = None ↔ c.(Cf_Correlation).(Co_Enabled) = false)
    by (unfold validateCorrelation; by destruct (Co_Enabled (Cf_Correlation c))).
  rewrite Hrates, Hps, Hco. setoid_rewrite lookup_empty. split.
  - intros (?&?&?&?&?&?&?&?&?&?&?&?&?&[? Hru]&?&?&_). split; try done.
    split; [done|]. intros ru Hin. destruct (Hru ru Hin) as (?&_&?&?). done.
  - intros [? ? ? ? ? ? ? ? ? ? ? ? ? [? Hru] ? ?]. repeat (split; [assumption|]).
    split; [split; [assumption|]|split; [assumption|split; [assumption|done]]].
    intros ru Hin. destruct (Hru ru Hin) as (?&?&?). done.
Qed.
End decide_sections.

(** ** Selective matchers *)

(** An alert whose every identity field is [s] and that has no labels. *)
Definition uniform_alert (s : string) : Alert :=
  MkAlert s s s s s s s s s ∅ ∅ ∅ 0 0 false false None.

Lemma FieldValue_uniform s k : IsFieldKey k = true → FieldValue (uniform_alert s) k = s.
Proof.
  unfold IsFieldKey, fieldKeys, FieldValue. simpl. rewrite !orb_true_iff, !streq_true.
  intros Hk. destruct_or! Hk; by subst || done.
Qed.

Section selective_theorems.
Context `{RegexpLib}.

(** What [regexp] documents for the probes, none of which has a metacharacter other than
    [.]: each matches itself. *)
Definition probes_match_themselves : Prop :=
  ∀ p re, p ∈ matchAllProbes → CompilePattern p = Some re → MatchString re p = true.

(** A matcher map that validation accepts as selective leaves some alert unmatched, so no
    silence, inhibition, maintenance window, escalation or non-final route it guards applies to
    every alert. *)
Theorem selective_escapes `{MapRange} field m :
  probes_match_themselves → SelectiveMatchers field m = None → ∃ a, MatchLabels a m = false.
Proof.
  intros Hself [Hne Hall]%SelectiveMatchers_None.
  destruct (map_choose m Hne) as (k & v & Hk). destruct (Hall k v Hk) as [Hf Hp].
  assert (Hcut : ∀ a, match_one a (k, v) = false → ∃ a, MatchLabels a m = false).
  { intros a Ha. exists a. apply not_true_is_false. intros Ht.
    rewrite (proj1 (MatchLabels_spec a m) Ht k v Hk) in Ha. done. }
  unfold match_one in Hcut. simpl in Hcut.
  destruct (IsPatternKey k) eqn:Ek.
  - destruct (Hp eq_refl) as (re & p & Hre & Hin & Hm). apply (Hcut (uniform_alert p)).
    rewrite FieldValue_uniform by by apply IsPatternKey_field. unfold match_value. rewrite Hre, Hm, orb_false_r.
    apply streq_false. intros ->. by rewrite (Hself v re Hin Hre) in Hm.
  - destruct (IsFieldKey k) eqn:Ef.
    + destruct (decide (v = "")) as [->|Hv].
      * apply (Hcut (uniform_alert "x")). by rewrite FieldValue_uniform.
      * apply (Hcut (uniform_alert "")). rewrite FieldValue_uniform by done. by apply streq_false.
    + apply (Hcut zero_alert). rewrite FieldValue_label by done. simpl. rewrite lookup_empty. simpl.
      apply streq_false. intros <-. by discriminate Hf.
Qed.
End selective_theorems.

(** ** Maintenance windows *)

Definition minute_of_week (lt : clock) : Z := lt.(Weekday) * 1440 + lt.(ClockHour) * 60 + lt.(ClockMinute).

Definition clock_ok (lt : clock) : Prop :=
  0 <= lt.(Weekday) < 7 ∧ 0 <= lt.(ClockHour) < 24 ∧ 0 <= lt.(ClockMinute) < 60.

Lemma UTC_ok t : clock_ok (UTC t).
Proof. unfold clock_ok, UTC, Hour, Minute, Second. simpl. Z.div_mod_to_equations. lia. Qed.

Lemma minutesOfDay_range s m : minutesOfDay s = inr m → 0 <= m < 1440.
Proof.
  unfold minutesOfDay. destruct (Sscanf_hm s) as [[h mi]|]; [|done].
  destruct (_ || _) eqn:E; [done|]. bool_hyps. intros [= <-]. lia.
Qed.

(** Minutes elapsed at [cur] on day [wd] since the occurrence that began on day [d]. *)
Definition since_start (wd cur d start : Z) : Z := (wd * 1440 + cur - (d * 1440 + start)) mod 10080.

Lemma since_start_late wd cur d start :
  0 <= wd < 7 → 0 <= d < 7 → 0 <= start <= cur → cur < 1440 →
  since_start wd cur d start = (wd - d) mod 7 * 1440 + (cur - start).
Proof. unfold since_start. intros. Z.div_mod_to_equations. lia. Qed.

Lemma since_start_early wd cur d start :
  0 <= wd < 7 → 0 <= d < 7 → 0 <= cur < start → start < 1440 →
  since_start wd cur d start = (prevWeekday wd - d) mod 7 * 1440 + (cur + 1440 - start).
Proof. unfold since_start, prevWeekday. intros. Z.div_mod_to_equations. lia. Qed.

(** C39: a maintenance window is in effect exactly during the recurring intervals it
    describes: one of length end - start (modulo a day, so a start after the end wraps past
    midnight) beginning at the start time of each allowed weekday of its zone. *)
Theorem Active_recurs `{ZoneLib} w t s e :
  minutesOfDay w.(Mw_Start) = inr s → minutesOfDay w.(Mw_End) = inr e →
  let lt := local_clock w t in
  clock_ok lt →
  Active w t = true ↔
  ∃ d, 0 <= d < 7 ∧ dayAllowed w d = true
    ∧ (minute_of_week lt - (d * 1440 + s)) mod (7 * 1440) < (e - s) mod 1440.
Proof.
  intros Hs He lt (Hwd & Hh & Hm). unfold Active, active_at. fold lt. rewrite Hs, He.
  apply minutesOfDay_range in Hs, He. unfold minute_of_week.
  set (cur := ClockHour lt * 60 + ClockMinute lt). assert (Hcur : 0 <= cur < 1440) by lia.
  assert (Hfold : ∀ d, (Weekday lt * 1440 + ClockHour lt * 60 + ClockMinute lt - (d * 1440 + s)) mod (7 * 1440)
                       = since_start (Weekday lt) cur d s).
  { intros d. unfold since_start, cur. f_equal. lia. }
  setoid_rewrite Hfold. clear Hfold.
  destruct (Z.eqb_spec s e) as [->|Hne].
  { split; [done|]. intros (d & _ & _ & Hlt). rewrite Z.sub_diag, Z.mod_0_l in Hlt by lia.
    unfold since_start in Hlt. pose proof (Z.mod_pos_bound (Weekday lt * 1440 + cur - (d * 1440 + e)) 10080). lia. }
  assert (Hlen : (e - s) mod 1440 = if s <? e then e - s else e + 1440 - s).
  { destruct (Z.ltb_spec s e); [rewrite Z.mod_small; lia|].
    rewrite <- (Z_mod_plus_full _ 1), Z.mod_small; lia. }
  rewrite Hlen. clear Hlen.
  assert (Hprev : 0 <= prevWeekday (Weekday lt) < 7) by (apply Z.mod_pos_bound; lia).
  assert (Hsame : ∀ x d, 0 <= x < 7 → 0 <= d < 7 → (x - d) mod 7 = 0 → d = x)
    by (intros x d ? ? ?; Z.div_mod_to_equations; lia).
  destruct (Z.leb_spec s cur) as [Hle|Hgt].
  - transitivity (cur - s < (if s <? e then e - s else e + 1440 - s) ∧ dayAllowed w (Weekday lt) = true).
    + destruct (Z.ltb_spec s e); simpl; [|split; [intros; split; [lia|done]|tauto]].
      rewrite andb_true_iff, Z.ltb_lt. split; intros [? ?]; (split; [lia|done]).
    + split.
      * intros [Hlt Hd]. exists (Weekday lt). split_and!; [lia|lia|done|].
        rewrite since_start_late by lia. rewrite Z.sub_diag. done.
      * intros (d & Hd & Ha & Hlt). rewrite since_start_late in Hlt by lia.
        pose proof (Z.mod_pos_bound (Weekday lt - d) 7).
        assert ((Weekday lt - d) mod 7 = 0) as Hz by (destruct (Z.ltb_spec s e); lia).
        rewrite (Hsame (Weekday lt) d) in Ha by lia. split; [lia|done].
  - transitivity (¬ s < e ∧ cur < e ∧ dayAllowed w (prevWeekday (Weekday lt)) = true).
    + destruct (Z.ltb_spec s e); simpl; [split; [done|intros [? _]; lia]|].
      destruct (Z.ltb_spec cur e); split; [intros; split_and!; [lia|done|done]|tauto|done|intros (_ & ? & _); lia].
    + split.
      * intros (Hse & Hce & Hd). exists (prevWeekday (Weekday lt)). split_and!; [lia|lia|done|].
        rewrite since_start_early, Z.sub_diag, Z.mod_0_l by lia. rewrite (proj2 (Z.ltb_ge s e)) by lia. lia.
      * intros (d & Hd & Ha & Hlt). rewrite since_start_early in Hlt by lia.
        pose proof (Z.mod_pos_bound (prevWeekday (Weekday lt) - d) 7).
        destruct (Z.ltb_spec s e) as [?|Hge]; [lia|].
        rewrite (Hsame (prevWeekday (Weekday lt)) d) in Ha by lia. split_and!; [lia|lia|done].
Qed.

(** ** State objects per shard *)

Lemma ApplyShardScope_suffix i c d :
  c.(Cf_Persistence).(Ps_Enabled) = true → ApplyShardScope i true c = inr d →
  ∃ base, d.(Cf_Persistence).(ConfigMapName) = base +:+ "-" +:+ Itoa i.
Proof.
  unfold ApplyShardScope. intros ->. cbn [negb orb].
  destruct (streq _ DefaultStateConfigMap); [intros [= <-]; by exists DefaultStateConfigMap|].
  destruct (HasSuffix _ _) eqn:E; [|done]. intros [= <-]. by apply HasSuffix_spec in E.
Qed.

Lemma default_name_unscoped b i : 0 <= i → b +:+ "-" +:+ Itoa i ≠ DefaultStateConfigMap.
Proof.
  intros Hi E. apply (f_equal chars) in E. rewrite !chars_app in E. change (chars "-") with ["-"%char] in E.
  apply (f_equal reverse) in E. rewrite !reverse_app, <- !app_assoc in E.
  change (reverse (chars DefaultStateConfigMap))
    with (reverse (chars "state") ++ "-"%char :: reverse (chars "alertkube")) in E.
  apply (delim_cut "-"%char) in E as [E _].
  - apply (inj reverse), chars_inj in E. destruct i as [|p|p]; [done| |lia].
    destruct (Itoa_digit p) as (c & r & E' & Hc). rewrite E in E'. injection E' as <- _. by destruct Hc.
  - rewrite elem_of_reverse. by apply Itoa_no_dash.
  - apply (bool_decide_unpack _). by vm_compute.
  - right. by eexists.
  - right. by eexists.
Qed.

(** The ConfigMap a replica reads and writes its state in. *)
Definition state_object (c : Config) : string := c.(Cf_Persistence).(ConfigMapName).

(** Replicas of different shards never write the same state ConfigMap: whatever their
    configurations name, if both are accepted, the names differ; and a scoped configuration is
    left as it is when it is scoped again. *)
Theorem ApplyShardScope_disjoint i j c c' d d' :
  0 <= i → 0 <= j → i ≠ j →
  c.(Cf_Persistence).(Ps_Enabled) = true → c'.(Cf_Persistence).(Ps_Enabled) = true →
  ApplyShardScope i true c = inr d → ApplyShardScope j true c' = inr d' →
  state_object d ≠ state_object d' ∧ ApplyShardScope i true d = inr d.
Proof.
  intros Hi Hj Hij Hc Hc' Hd Hd'. unfold state_object. split.
  - destruct (ApplyShardScope_suffix _ _ _ Hc Hd) as [b ->], (ApplyShardScope_suffix _ _ _ Hc' Hd') as [b' ->].
    intros E. by apply dash_suffix_inj in E.
  - pose proof (ApplyShardScope_suffix _ _ _ Hc Hd) as [b Eb].
    assert (Hen : d.(Cf_Persistence).(Ps_Enabled) = true).
    { revert Hd. unfold ApplyShardScope. rewrite Hc. cbn [negb orb].
      destruct (streq _ _); [by intros [= <-]|]. destruct (HasSuffix _ _); [by intros [= <-]|done]. }
    unfold ApplyShardScope. rewrite Hen. cbn [negb orb].
    destruct (streq _ DefaultStateConfigMap) eqn:Es.
    + apply streq_true in Es. rewrite Eb in Es. by apply default_name_unscoped in Es.
    + assert (HasSuffix (ConfigMapName (Cf_Persistence d)) ("-" +:+ Itoa i) = true) as ->; [|done].
      apply HasSuffix_spec. by exists b.
Qed.

(** ** Environment defaults *)

Lemma fill_fill s v : fill (fill s v) v = fill s v.
Proof. unfold fill. destruct (streq s "") eqn:E; [by destruct (streq v "")|by rewrite E]. Qed.

Lemma intDefault_twice getenv set path key v def :
  intDefault getenv set path key (intDefault getenv set path key v def) def = intDefault getenv set path key v def.
Proof. unfold intDefault. by destruct (bool_decide (path ∈ set)). Qed.

Lemma behavior_twice getenv set b :
  set_behavior_defaults getenv set (set_behavior_defaults getenv set b) = set_behavior_defaults getenv set b.
Proof. unfold set_behavior_defaults. simpl. rewrite !intDefault_twice. by case_bool_decide. Qed.

Lemma aws_twice getenv set a : set_aws_defaults getenv set (set_aws_defaults getenv set a) = set_aws_defaults getenv set a.
Proof.
  unfold set_aws_defaults. destruct (Aws_Enabled a) eqn:E; [|by rewrite E]. simpl. rewrite intDefault_twice.
  f_equal. destruct (Aws_Regions a); [|done]. by destruct (streq (getenv "AWS_REGION") "").
Qed.

Lemma azure_twice getenv set z : set_azure_defaults getenv set (set_azure_defaults getenv set z) = set_azure_defaults getenv set z.
Proof. unfold set_azure_defaults. destruct (Az_Enabled z) eqn:E; [|by rewrite E]. simpl. by rewrite intDefault_twice. Qed.

Lemma gcp_twice getenv set g : set_gcp_defaults getenv set (set_gcp_defaults getenv set g) = set_gcp_defaults getenv set g.
Proof. unfold set_gcp_defaults. destruct (Gc_Enabled g) eqn:E; [|by rewrite E]. simpl. by rewrite intDefault_twice. Qed.

(** The integer settings with an environment fallback, by YAML path. *)
Definition int_setting (path : string) : option (Config → Z) :=
  if streq path "behavior.muteSeconds" then Some (λ c, c.(Cf_Behavior).(MuteSeconds))
  else if streq path "behavior.ignoreRestartCount" then Some (λ c, c.(Cf_Behavior).(IgnoreRestartCount))
  else if streq path "behavior.resolveTTLSeconds" then Some (λ c, c.(Cf_Behavior).(ResolveTTLSeconds))
  else if streq path "behavior.startupGraceSeconds" then Some (λ c, c.(Cf_Behavior).(StartupGraceSeconds))
  else if streq path "behavior.pvcPendingSeconds" then Some (λ c, c.(Cf_Behavior).(PVCPendingSeconds))
  else if streq path "grouping.windowSeconds" then Some (λ c, c.(Cf_Grouping).(Gr_WindowSeconds))
  else if streq path "aws.pollSeconds" then Some (λ c, c.(Cf_AWS).(Aws_PollSeconds))
  else if streq path "azure.pollSeconds" then Some (λ c, c.(Cf_Azure).(Az_PollSeconds))
  else if streq path "gcp.pollSeconds" then Some (λ c, c.(Cf_GCP).(Gc_PollSeconds))
  else None.

(** A setting written in the document, zero included, keeps its value whatever the
    environment holds; and filling the defaults a second time changes nothing. *)
Theorem applyEnvDefaults_explicit getenv set c :
  (∀ path get, int_setting path = Some get → path ∈ set → get (applyEnvDefaults getenv set c) = get c)
  ∧ applyEnvDefaults getenv set (applyEnvDefaults getenv set c) = applyEnvDefaults getenv set c.
Proof.
  split.
  - intros path get Hget Hin.
    assert (Hint : ∀ key v def, intDefault getenv set path key v def = v)
      by (intros; unfold intDefault; by rewrite bool_decide_true).
    unfold int_setting in Hget. repeat (destruct (streq path _) eqn:E in Hget; [apply streq_true in E; subst path|clear E]); [..|done].
    all: injection Hget as <-; unfold applyEnvDefaults, set_behavior_defaults, set_aws_defaults, set_azure_defaults, set_gcp_defaults; simpl.
    all: rewrite ?Hint, ?bool_decide_true by done; try done; case_match; simpl; by rewrite ?Hint.
  - unfold applyEnvDefaults. simpl. rewrite !fill_fill, behavior_twice, aws_twice, azure_twice, gcp_twice.
    by case_bool_decide.
Qed.

(** ** The reported error *)

(** Another order a map may be iterated in. *)
Program Definition reversed_range : MapRange := {| range K V _ _ m := reverse (map_to_list m) |}.
Next Obligation. intros. apply reverse_Permutation. Qed.

Definition two_bad_rates : Config :=
  let c := applyEnvDefaults (λ _, "") ∅ zero_config in
  MkConfig c.(Cluster) c.(Cf_Filters) c.(Cf_Behavior) c.(Cf_Channels) c.(Routing) c.(SeverityOverrides)
    {["pager" := MkSinkRate (FFinite 1 1) 1; "chat" := MkSinkRate (FFinite 1 1) 1]}
    c.(Inhibitions) c.(Silences) c.(Escalations) c.(Cf_Receiver) c.(MetricsAddr) c.(APIAddr) c.(Cf_Grouping)
    c.(Cf_Persistence) c.(Cf_AWS) c.(Cf_Azure) c.(Cf_GCP) c.(Rules) c.(Cf_Correlation) c.(Maintenance).

(** Which error a rejected configuration reports is not determined by the configuration:
    with two unknown sinks among the rates, two iteration orders of the same map name different
    sinks. *)
Theorem Validate_error_order :
  ∃ e e', @Validate mini_regexp canonical_range mini_time mini_zone two_bad_rates = Some e
    ∧ @Validate mini_regexp reversed_range mini_time mini_zone two_bad_rates = Some e' ∧ e ≠ e'.
Proof.
  exists (ERateUnknown "chat"), (ERateUnknown "pager"). split_and!; [vm_compute; reflexivity ..|done].
Qed.

(** ** Concrete instances *)

Definition default_config : Config := applyEnvDefaults (λ _, "") ∅ zero_config.

(** The empty document in an empty environment is a valid configuration. *)
Example default_config_valid :
  @Load (λ _, "") mini_regexp canonical_range mini_time mini_zone ∅ zero_config = inr default_config.
Proof. vm_compute. reflexivity. Qed.

Lemma default_ok `{RegexpLib} `{TimeLib} `{ZoneLib} : config_ok default_config.
Proof.
  assert (Hnil : ∀ A (P : Prop) (x : A), x ∈ [] → P) by (intros A P x Hx; by apply elem_of_nil in Hx).
  split.
  - intros raw Hraw p Hp Hr. exfalso. repeat (apply elem_of_cons in Hraw as [->|Hraw]; [by apply elem_of_nil in Hp|]).
    by apply elem_of_nil in Hraw.
  - intros i r Hi. change (([] : list Route_) !! i = Some r) in Hi. by rewrite lookup_nil in Hi.
  - intros ov. apply Hnil.
  - intros name r Hr. change ((∅ : gmap string SinkRate) !! name = Some r) in Hr. by rewrite lookup_empty in Hr.
  - intros i. apply Hnil.
  - intros i. apply Hnil.
  - repeat (split; [by vm_compute|]). by vm_compute.
  - discriminate.
  - intros e. apply Hnil.
  - discriminate.
  - discriminate.
  - discriminate.
  - discriminate.
  - split; [constructor|intros ru; apply Hnil].
  - intros w. apply Hnil.
  - reflexivity.
Qed.

Definition nightly : MaintenanceWindow :=
  MkWindow "backup" {["namespace" := "prod-.*"]} "23:00" "02:00" ["Fri"] "Etc/GMT-2".

(** Friday 22:30 UTC. *)
Definition t_sat_0030 : time := 4 * (24 * Hour) + 22 * Hour + 30 * Minute.

Lemma mini_probes : @probes_match_themselves mini_regexp.
Proof.
  intros p re Hp. repeat (apply elem_of_cons in Hp as [->|Hp]; [intros [= <-]; vm_compute; reflexivity|]).
  by apply elem_of_nil in Hp.
Qed.

Lemma selective_escapes_witness : ∃ a, @MatchLabels mini_regexp a {["namespace" := "prod-.*"]} = false.
Proof.
  refine (@selective_escapes mini_regexp canonical_range "f" _ mini_probes _). vm_compute. reflexivity.
Defined.

Lemma Active_recurs_witness :
  clock_ok (@local_clock mini_zone nightly t_sat_0030)
  ∧ @Active mini_zone nightly t_sat_0030 = true.
Proof.
  assert (Hc : clock_ok (@local_clock mini_zone nightly t_sat_0030)) by (split_and!; by vm_compute).
  split; [exact Hc|].
  apply (@Active_recurs mini_zone nightly t_sat_0030 1380 120 eq_refl eq_refl Hc).
  exists 5. split_and!; by vm_compute.
Defined.

Definition sharded_config : Config := set_ConfigMapName "team-state-1"
  (MkConfig "" default_config.(Cf_Filters) default_config.(Cf_Behavior) default_config.(Cf_Channels) [] [] ∅ [] [] []
     default_config.(Cf_Receiver) "" "" default_config.(Cf_Grouping) (MkPersistence true "alertkube-state" "ops")
     default_config.(Cf_AWS) default_config.(Cf_Azure) default_config.(Cf_GCP) [] default_config.(Cf_Correlation) []).

Lemma ApplyShardScope_disjoint_witness :
  ∃ d d', ApplyShardScope 1 true sharded_config = inr d
    ∧ ApplyShardScope 11 true (set_ConfigMapName DefaultStateConfigMap sharded_config) = inr d'
    ∧ d.(Cf_Persistence).(ConfigMapName) ≠ d'.(Cf_Persistence).(ConfigMapName).
Proof.
  exists sharded_config, (set_ConfigMapName "alertkube-state-11" sharded_config).
  assert (H1 : ApplyShardScope 1 true sharded_config = inr sharded_config) by (vm_compute; reflexivity).
  assert (H2 : ApplyShardScope 11 true (set_ConfigMapName DefaultStateConfigMap sharded_config)
               = inr (set_ConfigMapName "alertkube-state-11" sharded_config)) by (vm_compute; reflexivity).
  split; [exact H1|split; [exact H2|]].
  refine (proj1 (ApplyShardScope_disjoint 1 11 _ _ _ _ _ _ _ _ _ H1 H2)); (lia || reflexivity).
Defined.
