(* ===== verification/ConfigFile.v ===== *)
(** * internal/config/load.go from the file on: decoding, the keys present, precedence

    [Load] and [ParseAndValidate] over the bytes of a document. The YAML library is a class
    ([YamlLib]): what it decodes into the configuration, whether a second document follows, and
    the mapping it sees. [Config] and [ConfigTheory] have what follows the decoding. *)
From S2P Require Import Prelude GoStd Shard Config ConfigTheory.

#[local] Set Warnings "-register-all".

(** A decoded value as [walkFields] tells them apart: a [map[string]any] in some iteration
    order, or anything else. *)
Inductive yaml_value := YMap (fields : list (string * yaml_value)) | YOther.

(** [Decode] into a zero [Config] with [KnownFields(true)]: the end of the input, an error, or
    the configuration. *)
Inductive decoded := NoDocument | BadDocument | Document (c : Config).

Class YamlLib := {
  yaml_decode : string → decoded;
  yaml_more : string → bool;                                     (* a second Decode is not at EOF *)
  yaml_unmarshal : string → option (list (string * yaml_value));
}.

Inductive doc_error := EDecode | EManyDocuments | EUnmarshal.

Inductive load_error :=
| ERead (path : string)
| EParse (e : doc_error)
| EInvalid (e : cfg_error).

Definition join_key (prefix key : string) : string :=
  if negb (streq prefix "") then prefix +:+ "." +:+ key else key.

Fixpoint walk_value (prefix : string) (v : yaml_value) : gset string :=
  match v with
  | YMap fields =>
      (fix walk (fields : list (string * yaml_value)) : gset string :=
         match fields with
         | [] => ∅
         | (key, value) :: fields =>
             let path := join_key prefix key in
             {[path]} ∪ walk_value path value ∪ walk fields
         end) fields
  | YOther => ∅
  end.

Definition walkFields (prefix : string) (fields : list (string * yaml_value)) : gset string :=
  walk_value prefix (YMap fields).

Section load_file.
Context `{YamlLib}.

Definition decodeConfig (raw : string) : doc_error + (gset string * Config) :=
  match yaml_decode raw with
  | NoDocument => inr (∅, zero_config)
  | BadDocument => inl EDecode
  | Document c =>
      if yaml_more raw then inl EManyDocuments
      else match yaml_unmarshal raw with
           | None => inl EUnmarshal
           | Some fields => inr (walkFields "" fields, c)
           end
  end.

Context (getenv : string → string).
Context `{RegexpLib} `{MapRange} `{TimeLib} `{ZoneLib}.

(** [readFile] is [os.ReadFile], [None] an error. *)
Definition LoadFile (readFile : string → option string) (path : string) : load_error + Config :=
  if negb (streq path "") then
    match readFile path with
    | None => inl (ERead path)
    | Some raw =>
        match decodeConfig raw with
        | inl e => inl (EParse e)
        | inr (set, c) => match Load getenv set c with inl e => inl (EInvalid e) | inr c => inr c end
        end
    end
  else match Load getenv ∅ zero_config with inl e => inl (EInvalid e) | inr c => inr c end.

Definition ParseAndValidateRaw (raw : string) : option load_error :=
  match decodeConfig raw with
  | inl e => Some (EParse e)
  | inr (set, c) => EInvalid <$> ParseAndValidate getenv set c
  end.

(** * Theorems *)

(** The verdict of the API's validate endpoint is the one a load of the same bytes gives. *)
Lemma ParseAndValidateRaw_is_LoadFile readFile path raw :
  path ≠ "" → readFile path = Some raw →
  ParseAndValidateRaw raw = None ↔ is_Some (match LoadFile readFile path with inr c => Some c | inl _ => None end).
Proof.
  intros Hp Hr. unfold LoadFile, ParseAndValidateRaw. rewrite (proj2 (streq_false _ _) Hp), Hr. simpl.
  destruct (decodeConfig raw) as [e|[set c]]; [split; [discriminate|by intros [? ?]]|].
  unfold Load, ParseAndValidate. destruct (Validate _); simpl; split; naive_solver.
Qed.

End load_file.

(** ** The keys present *)

(** A path of keys through the mappings of a document. *)
Inductive at_path : yaml_value → list string → Prop :=
| at_here fields key value : (key, value) ∈ fields → at_path (YMap fields) [key]
| at_below fields key value ks : (key, value) ∈ fields → at_path value ks → at_path (YMap fields) (key :: ks).

Lemma walk_value_YMap prefix fields :
  walk_value prefix (YMap fields) =
  ⋃ ((λ '(key, value), {[join_key prefix key]} ∪ walk_value (join_key prefix key) value) <$> fields).
Proof. induction fields as [|[key value] fields IH]; [done|]. simpl in *. by rewrite IH. Qed.

Fixpoint yaml_value_rect' (P : yaml_value → Prop)
    (HM : ∀ fields, Forall (λ kv, P kv.2) fields → P (YMap fields)) (HO : P YOther) (v : yaml_value) : P v :=
  match v with
  | YOther => HO
  | YMap fields => HM fields
      ((fix go (l : list (string * yaml_value)) : Forall (λ kv, P kv.2) l :=
          match l with
          | [] => Forall_nil_2 _
          | kv :: l => Forall_cons_2 _ _ _ (yaml_value_rect' P HM HO kv.2) (go l)
          end) fields)
  end.

Lemma walk_value_spec v : ∀ prefix p,
  p ∈ walk_value prefix v ↔ ∃ ks, at_path v ks ∧ p = foldl join_key prefix ks.
Proof.
  induction v as [fields IH|] using yaml_value_rect'; intros prefix p.
  - rewrite walk_value_YMap, elem_of_union_list. rewrite Forall_forall in IH. split.
    + intros (X & HX & Hp). apply list_elem_of_fmap in HX as ([key value] & -> & Hin).
      apply elem_of_union in Hp as [->%elem_of_singleton|Hp].
      * exists [key]. split; [by econstructor|done].
      * apply (IH _ Hin) in Hp as (ks & Hks & ->). exists (key :: ks). split; [by eapply at_below|done].
    + intros (ks & Hks & ->). inversion Hks as [? key value Hin|? key value ks' Hin Hv]; subst;
        (eexists; split; [apply list_elem_of_fmap; by exists (key, value)|]); apply elem_of_union; simpl.
      * left. by apply elem_of_singleton.
      * right. apply (IH _ Hin). by exists ks'.
  - split; [set_solver|]. intros (ks & Hks & _). inversion Hks.
Qed.

(** Whether the document mentions a dotted path. *)
Definition mentions (fields : list (string * yaml_value)) (path : string) : Prop :=
  ∃ ks, at_path (YMap fields) ks ∧ path = foldl join_key "" ks.

(** ** Precedence *)

(** A setting with a fallback: the YAML path it has, the value it takes when the document
    leaves it out, the configurations in which the fallback is applied at all, and its field. *)
Record setting (A : Type) := MkSetting {
  s_path : string;
  s_fallback : (string → string) → A;
  s_on : Config → bool;
  s_get : Config → A;
}.
Arguments MkSetting {A} _ _ _ _.
Arguments s_path {A} _.
Arguments s_fallback {A} _ _.
Arguments s_on {A} _ _.
Arguments s_get {A} _ _.

Definition always : Config → bool := λ _, true.
(** An environment variable that holds an integer, and one that is not empty. *)
Definition env_int (key : string) (def : Z) (getenv : string → string) : Z := IntOr getenv key def.
Definition env_or (key : string) (def : string) (getenv : string → string) : string :=
  if decide (getenv key = "") then def else getenv key.

(** The numbers and the one boolean fall back when their key is absent. *)
Definition settings : list (setting Z) := [
  MkSetting "behavior.muteSeconds" (env_int "MUTE_SECONDS" 600) always (λ c, c.(Cf_Behavior).(MuteSeconds));
  MkSetting "behavior.ignoreRestartCount" (env_int "IGNORE_RESTART_COUNT" 30) always (λ c, c.(Cf_Behavior).(IgnoreRestartCount));
  MkSetting "behavior.resolveTTLSeconds" (env_int "RESOLVE_TTL_SECONDS" 600) always (λ c, c.(Cf_Behavior).(ResolveTTLSeconds));
  MkSetting "behavior.startupGraceSeconds" (env_int "STARTUP_GRACE_SECONDS" 0) always (λ c, c.(Cf_Behavior).(StartupGraceSeconds));
  MkSetting "behavior.pvcPendingSeconds" (env_int "PVC_PENDING_SECONDS" 300) always (λ c, c.(Cf_Behavior).(PVCPendingSeconds));
  MkSetting "grouping.windowSeconds" (λ _, 30) always (λ c, c.(Cf_Grouping).(Gr_WindowSeconds));
  MkSetting "aws.pollSeconds" (env_int "AWS_POLL_SECONDS" 60) (λ c, c.(Cf_AWS).(Aws_Enabled)) (λ c, c.(Cf_AWS).(Aws_PollSeconds));
  MkSetting "azure.pollSeconds" (env_int "AZURE_POLL_SECONDS" 60) (λ c, c.(Cf_Azure).(Az_Enabled)) (λ c, c.(Cf_Azure).(Az_PollSeconds));
  MkSetting "gcp.pollSeconds" (env_int "GCP_POLL_SECONDS" 60) (λ c, c.(Cf_GCP).(Gc_Enabled)) (λ c, c.(Cf_GCP).(Gc_PollSeconds))].

Definition exit_zero_setting : setting bool :=
  MkSetting "behavior.ignoreRestartsWithExitCodeZero" (λ getenv, bool_decide (getenv "IGNORE_RESTARTS_WITH_EXIT_CODE_ZERO" = "true"))
    always (λ c, c.(Cf_Behavior).(IgnoreRestartsWithExitCodeZero)).

(** The strings fall back when their decoded value is empty, present or not. *)
Definition text_settings : list (setting string) := [
  MkSetting "cluster" (env_or "CLUSTER_NAME" "") always (λ c, c.(Cluster));
  MkSetting "filters.watchedNamespaces" (env_or "WATCHED_NAMESPACES" "") always (λ c, c.(Cf_Filters).(WatchedNamespaces));
  MkSetting "filters.ignoredNamespaces" (env_or "IGNORED_NAMESPACES" "") always (λ c, c.(Cf_Filters).(IgnoredNamespaces));
  MkSetting "filters.watchedPodNamePrefixes" (env_or "WATCHED_POD_NAME_PREFIXES" "") always (λ c, c.(Cf_Filters).(WatchedPodNamePrefixes));
  MkSetting "filters.ignoredPodNamePrefixes" (env_or "IGNORED_POD_NAME_PREFIXES" "") always (λ c, c.(Cf_Filters).(IgnoredPodNamePrefixes));
  MkSetting "channels.critical" (env_or "SLACK_CHANNEL_CRITICAL" "alerts-critical") always (λ c, c.(Cf_Channels).(Ch_Critical));
  MkSetting "channels.warning" (λ getenv, env_or "SLACK_CHANNEL_WARNING" (env_or "SLACK_CHANNEL" "alerts-warning" getenv) getenv)
    always (λ c, c.(Cf_Channels).(Ch_Warning));
  MkSetting "channels.info" (env_or "SLACK_CHANNEL_INFO" "alerts-info") always (λ c, c.(Cf_Channels).(Ch_Info));
  MkSetting "metricsAddr" (env_or "METRICS_ADDR" ":9090") always (λ c, c.(MetricsAddr));
  MkSetting "apiAddr" (env_or "ALERTKUBE_API_ADDR" "") always (λ c, c.(APIAddr));
  MkSetting "persistence.configMapName" (λ _, "alertkube-state") always (λ c, c.(Cf_Persistence).(ConfigMapName));
  MkSetting "persistence.namespace" (env_or "POD_NAMESPACE" "") always (λ c, c.(Cf_Persistence).(Ps_Namespace))].

(** One list falls back, when it is empty and AWS is enabled. *)
Definition regions_setting : setting (list string) :=
  MkSetting "aws.regions" (λ getenv, if decide (getenv "AWS_REGION" = "") then [] else [getenv "AWS_REGION"])
    (λ c, c.(Cf_AWS).(Aws_Enabled)) (λ c, c.(Cf_AWS).(Aws_Regions)).

(** A configuration without the settings above: what no fallback touches. *)
Definition blank_aws (a : AWS) : AWS :=
  MkAWS a.(Aws_Enabled) [] 0 a.(Aws_EKS) a.(Aws_CloudWatch) a.(Aws_EC2) a.(Aws_ELBV2) a.(Aws_RDS) a.(Aws_DynamoDB)
    a.(Aws_ElastiCache) a.(Aws_S3) a.(Aws_CloudTrail) a.(Aws_CloudTrailEvents) a.(Aws_ASG) a.(Aws_KMS) a.(Aws_EBS)
    a.(Aws_Aurora) a.(Aws_NAT) a.(Aws_EFS) a.(Aws_Route53) a.(Aws_ACM) a.(Aws_VPN).
Definition blank_azure (z : Azure) : Azure :=
  MkAzure z.(Az_Enabled) z.(Az_Subscriptions) 0 z.(Az_AKS) z.(Az_Monitor) z.(Az_VMs) z.(Az_Storage) z.(Az_SQL) z.(Az_Redis).
Definition blank_gcp (g : GCP) : GCP :=
  MkGCP g.(Gc_Enabled) g.(Gc_Projects) 0 g.(Gc_GKE) g.(Gc_Monitoring) g.(Gc_Compute) g.(Gc_CloudSQL).
Definition blank (c : Config) : Config :=
  MkConfig "" (MkFilters "" "" "" "")
    (MkBehavior 0 0 false 0 0 0 c.(Cf_Behavior).(DisableLogCollection) c.(Cf_Behavior).(DisableAnnotationSilences))
    (MkChannels "" "" "") c.(Routing) c.(SeverityOverrides) c.(SinkRates) c.(Inhibitions) c.(Silences) c.(Escalations)
    c.(Cf_Receiver) "" "" (MkGrouping c.(Cf_Grouping).(Gr_Enabled) 0 c.(Cf_Grouping).(Gr_By))
    (MkPersistence c.(Cf_Persistence).(Ps_Enabled) "" "") (blank_aws c.(Cf_AWS)) (blank_azure c.(Cf_Azure))
    (blank_gcp c.(Cf_GCP)) c.(Rules) c.(Cf_Correlation) c.(Maintenance).

(** [c] has the setting of [c0] unless [lacking]; then it has the fallback, where it applies. *)
Definition falls_back {A} (getenv : string → string) (lacking : Prop) (s : setting A) (c0 c : Config) : Prop :=
  (¬ lacking → s.(s_get) c = s.(s_get) c0)
  ∧ (lacking → s.(s_get) c = if s.(s_on) c0 then s.(s_fallback) getenv else s.(s_get) c0).

Lemma falls_back_decided {A} getenv lacking (b : bool) (s : setting A) c0 c :
  (b = true ↔ lacking) → s.(s_get) c = (if b && s.(s_on) c0 then s.(s_fallback) getenv else s.(s_get) c0) →
  falls_back getenv lacking s c0 c.
Proof. intros Hb E. unfold falls_back. rewrite E. destruct b; simpl; naive_solver. Qed.

Ltac each_setting Hs :=
  repeat (apply elem_of_cons in Hs as [->|Hs]); [..|by apply elem_of_nil in Hs].

Lemma applyEnvDefaults_setting getenv set c s :
  s ∈ settings →
  s.(s_get) (applyEnvDefaults getenv set c) =
    (if negb (bool_decide (s.(s_path) ∈ set)) && s.(s_on) c then s.(s_fallback) getenv else s.(s_get) c).
Proof.
  unfold settings. intros Hs. each_setting Hs;
    unfold applyEnvDefaults, set_behavior_defaults, set_aws_defaults, set_azure_defaults, set_gcp_defaults,
      intDefault, env_int, always; simpl;
    try (destruct (Aws_Enabled _)); try (destruct (Az_Enabled _)); try (destruct (Gc_Enabled _)); simpl;
    by destruct (bool_decide _).
Qed.

Lemma Or_env getenv key def : Or_ getenv key def = env_or key def getenv.
Proof. unfold Or_, env_or, streq. by repeat case_decide. Qed.
Lemma getenv_env getenv key : getenv key = env_or key "" getenv.
Proof. unfold env_or. by case_decide. Qed.

Lemma applyEnvDefaults_text getenv set c s :
  s ∈ text_settings →
  s.(s_get) (applyEnvDefaults getenv set c) =
    (if streq (s.(s_get) c) "" && s.(s_on) c then s.(s_fallback) getenv else s.(s_get) c).
Proof.
  unfold text_settings. intros Hs. each_setting Hs; simpl; rewrite andb_true_r, ?Or_env; try done.
  all: unfold fill; by destruct (streq _ _); [apply getenv_env|].
Qed.

Lemma applyEnvDefaults_regions getenv set c :
  regions_setting.(s_get) (applyEnvDefaults getenv set c) =
    (if bool_decide (regions_setting.(s_get) c = []) && regions_setting.(s_on) c
     then regions_setting.(s_fallback) getenv else regions_setting.(s_get) c).
Proof.
  simpl. unfold set_aws_defaults. destruct (Aws_Enabled (Cf_AWS c)); [|by rewrite andb_false_r]. simpl.
  destruct (Aws_Regions (Cf_AWS c)) as [|r rs]; simpl; [|done]. unfold streq. by repeat case_decide.
Qed.

Lemma applyEnvDefaults_blank getenv set c : blank (applyEnvDefaults getenv set c) = blank c.
Proof.
  assert (Ha : ∀ a, blank_aws (set_aws_defaults getenv set a) = blank_aws a)
    by (intros a; unfold set_aws_defaults; by destruct (Aws_Enabled a) eqn:E; [unfold blank_aws; simpl; rewrite E|]).
  assert (Hz : ∀ z, blank_azure (set_azure_defaults getenv set z) = blank_azure z)
    by (intros z; unfold set_azure_defaults; by destruct (Az_Enabled z) eqn:E; [unfold blank_azure; simpl; rewrite E|]).
  assert (Hg : ∀ g, blank_gcp (set_gcp_defaults getenv set g) = blank_gcp g)
    by (intros g; unfold set_gcp_defaults; by destruct (Gc_Enabled g) eqn:E; [unfold blank_gcp; simpl; rewrite E|]).
  unfold blank, applyEnvDefaults. simpl. by rewrite Ha, Hz, Hg.
Qed.

Section precedence.
Context `{YamlLib} (getenv : string → string) `{RegexpLib} `{MapRange} `{TimeLib} `{ZoneLib}.

(** What a load starts from: the keys the document has, and the decoded values. Without a path
    or with an empty document there are no keys and every value is zero. *)
Inductive starts_from (readFile : string → option string) (path : string) : (string → Prop) → Config → Prop :=
| from_nothing : path = "" → starts_from readFile path (λ _, False) zero_config
| from_empty raw :
    path ≠ "" → readFile path = Some raw → yaml_decode raw = NoDocument →
    starts_from readFile path (λ _, False) zero_config
| from_document raw c0 fields :
    path ≠ "" → readFile path = Some raw → yaml_decode raw = Document c0 → yaml_more raw = false →
    yaml_unmarshal raw = Some fields → starts_from readFile path (mentions fields) c0.

Lemma LoadFile_starts readFile path c :
  LoadFile getenv readFile path = inr c →
  ∃ present c0 set, starts_from readFile path present c0 ∧ (∀ p, p ∈ set ↔ present p) ∧ c = applyEnvDefaults getenv set c0.
Proof.
  unfold LoadFile, Load, decodeConfig. intros Hl. destruct (streq path "") eqn:Hp; simpl in Hl.
  { apply streq_true in Hp. exists (λ _, False), zero_config, ∅. destruct (Validate _); [done|]. injection Hl as <-.
    split; [by constructor|]. split; [set_solver|done]. }
  apply streq_false in Hp. destruct (readFile path) as [raw|] eqn:Hr; [|done].
  destruct (yaml_decode raw) as [| |c0] eqn:Hd; [|done|].
  { exists (λ _, False), zero_config, ∅. destruct (Validate _); [done|]. injection Hl as <-.
    split; [by eapply from_empty|]. split; [set_solver|done]. }
  destruct (yaml_more raw) eqn:Hm; [done|]. destruct (yaml_unmarshal raw) as [fields|] eqn:Hu; [|done].
  exists (mentions fields), c0, (walkFields "" fields). destruct (Validate _); [done|]. injection Hl as <-.
  split; [by eapply from_document|]. split; [|done]. intros p. apply walk_value_spec.
Qed.

(** C35: Which value every setting of a loaded configuration has. A number, or the one
    boolean with a fallback, whose key the document writes down keeps the document's value, an
    explicit zero or false included, whatever the environment holds; left out, it takes the
    environment's value when that parses and the built-in default otherwise. A string setting
    goes by its decoded value, not by its key: it keeps a value that is not empty, and an empty
    one, written down or not, takes the environment's value or the default. The cloud poll
    intervals and the AWS regions (from AWS_REGION, when the list is empty) fall back only when
    their provider is enabled. Nothing else differs from the decoded document. *)
Theorem Load_precedence readFile path c :
  LoadFile getenv readFile path = inr c →
  ∃ present c0, starts_from readFile path present c0
  ∧ (∀ s, s ∈ settings → falls_back getenv (¬ present s.(s_path)) s c0 c)
  ∧ falls_back getenv (¬ present exit_zero_setting.(s_path)) exit_zero_setting c0 c
  ∧ (∀ s, s ∈ text_settings → falls_back getenv (s.(s_get) c0 = "") s c0 c)
  ∧ falls_back getenv (regions_setting.(s_get) c0 = []) regions_setting c0 c
  ∧ blank c = blank c0.
Proof.
  intros (present & c0 & set & Hstart & Hset & ->)%LoadFile_starts. exists present, c0. split; [done|].
  assert (Habsent : ∀ p, negb (bool_decide (p ∈ set)) = true ↔ ¬ present p)
    by (intros p; by rewrite negb_true_iff, bool_decide_eq_false, Hset).
  split_and!.
  - intros s Hs. by apply (falls_back_decided _ _ _ _ _ _ (Habsent _)), applyEnvDefaults_setting.
  - apply (falls_back_decided _ _ _ _ _ _ (Habsent _)). simpl. unfold always.
    destruct (bool_decide (_ ∈ set)); [done|]. unfold streq. simpl. by repeat case_decide.
  - intros s Hs. by apply (falls_back_decided _ _ _ _ _ _ (streq_true _ _)), applyEnvDefaults_text.
  - apply (falls_back_decided _ _ _ _ _ _ (bool_decide_eq_true _)), applyEnvDefaults_regions.
  - apply applyEnvDefaults_blank.
Qed.

End precedence.

(** ** Witness *)

(** A document that writes cluster: "" and startupGraceSeconds: 0 and leaves the rest out. *)
Definition grace_fields : list (string * yaml_value) :=
  [("cluster", YOther); ("behavior", YMap [("startupGraceSeconds", YOther)])].

#[export] Instance one_document_yaml : YamlLib | 100 := {|
  yaml_decode raw := if streq raw "" then NoDocument else Document zero_config;
  yaml_more _ := false;
  yaml_unmarshal _ := Some grace_fields;
|}.

Definition grace_env (key : string) : string :=
  if streq key "STARTUP_GRACE_SECONDS" then "90" else if streq key "MUTE_SECONDS" then "1200"
  else if streq key "CLUSTER_NAME" then "prod" else "".

Definition grace_read (path : string) : option string := if streq path "c.yaml" then Some "doc" else None.

Definition grace_load : load_error + Config :=
  @LoadFile one_document_yaml grace_env mini_regexp canonical_range mini_time mini_zone grace_read "c.yaml".

(** The explicit zero wins over STARTUP_GRACE_SECONDS; the explicit empty string does not win
    over CLUSTER_NAME. *)
Lemma Load_precedence_witness : ∃ c, grace_load = inr c ∧
  c.(Cf_Behavior).(StartupGraceSeconds) = 0 ∧ c.(Cf_Behavior).(MuteSeconds) = 1200
  ∧ mentions grace_fields "cluster" ∧ c.(Cluster) = "prod".
Proof.
  destruct grace_load as [e|c] eqn:E; [vm_compute in E; discriminate|]. exists c. split; [done|].
  destruct (@Load_precedence one_document_yaml grace_env mini_regexp canonical_range mini_time mini_zone grace_read "c.yaml" c E)
    as (present & c0 & Hstart & Hnum & _ & Htext & _).
  destruct Hstart as [Hp|raw _ Hr Hd|raw c1 fields _ Hr Hd _ Hu]; [discriminate|by injection Hr as <-|].
  injection Hr as <-. injection Hd as <-. injection Hu as <-.
  assert (Hm : mentions grace_fields "behavior.startupGraceSeconds").
  { exists ["behavior"; "startupGraceSeconds"]. split; [|reflexivity].
    eapply at_below; [by right; left|]. eapply at_here. by left. }
  assert (Hn : ¬ mentions grace_fields "behavior.muteSeconds").
  { intros Hx%(walk_value_spec (YMap grace_fields)). vm_compute in Hx. discriminate. }
  split_and!.
  - edestruct Hnum as [Hg _]; [do 3 right; left|]. exact (Hg (λ H, H Hm)).
  - edestruct Hnum as [_ Hg]; [left|]. etransitivity; [exact (Hg Hn)|vm_compute; reflexivity].
  - exists ["cluster"]. split; [|reflexivity]. eapply at_here. by left.
  - edestruct Htext as [_ Hg]; [left|]. etransitivity; [exact (Hg eq_refl)|vm_compute; reflexivity].
Defined.
