(* ===== verification/Router.v ===== *)
(** * internal/router: silences, maintenance, inhibitions and routes

    Models internal/router/router.go. The router's only mutable state is the table of armed
    inhibitions; it changes in one place, [maybeArmInhibition], which holds the exclusive lock,
    so an execution is a sequence of calls of [Route] and [ArmInhibitions] ([run_calls]); a
    [Route] that decides before another call arms and arms after it is, for the table, an
    [ArmInhibitions] there. Every [time.Now()] of a decision is its own argument. *)
From S2P Require Import Prelude GoStd AlertModel SilenceStore Config ConfigTheory.

(** An inhibition belongs to one rule and one tuple of equal-field values. *)
Abbreviation inhibitionKey := (nat * string)%type (only parsing).

Record Router := MkRouter {
  ro_routes : list Route_;
  ro_inhibitions : list Inhibition;
  ro_silences : list CfgSilence;
  ro_defaultSinks : list string;
  ro_disableAnnotationSilences : bool;
  ro_runtimeSilences : option SilStore;      (** the live store; [None] when not wired *)
  ro_maintenance : list MaintenanceWindow;
  ro_crdSilences : option (list CfgSilence); (** what the provider returns; [None] without one *)
  ro_activeInhibits : gmap inhibitionKey time;
}.

Definition router_New (routes : list Route_) (inhibitions : list Inhibition) (silences : list CfgSilence)
    (defaultSinks : list string) : Router :=
  MkRouter routes inhibitions silences defaultSinks false None [] None ∅.

Definition SetDisableAnnotationSilences (disabled : bool) (r : Router) : Router :=
  MkRouter r.(ro_routes) r.(ro_inhibitions) r.(ro_silences) r.(ro_defaultSinks) disabled
    r.(ro_runtimeSilences) r.(ro_maintenance) r.(ro_crdSilences) r.(ro_activeInhibits).
Definition SetRuntimeSilences (s : option SilStore) (r : Router) : Router :=
  MkRouter r.(ro_routes) r.(ro_inhibitions) r.(ro_silences) r.(ro_defaultSinks)
    r.(ro_disableAnnotationSilences) s r.(ro_maintenance) r.(ro_crdSilences) r.(ro_activeInhibits).
Definition SetMaintenance (w : list MaintenanceWindow) (r : Router) : Router :=
  MkRouter r.(ro_routes) r.(ro_inhibitions) r.(ro_silences) r.(ro_defaultSinks)
    r.(ro_disableAnnotationSilences) r.(ro_runtimeSilences) w r.(ro_crdSilences) r.(ro_activeInhibits).
Definition SetCRDSilences (s : option (list CfgSilence)) (r : Router) : Router :=
  MkRouter r.(ro_routes) r.(ro_inhibitions) r.(ro_silences) r.(ro_defaultSinks)
    r.(ro_disableAnnotationSilences) r.(ro_runtimeSilences) r.(ro_maintenance) s r.(ro_activeInhibits).
Definition set_activeInhibits (m : gmap inhibitionKey time) (r : Router) : Router :=
  MkRouter r.(ro_routes) r.(ro_inhibitions) r.(ro_silences) r.(ro_defaultSinks)
    r.(ro_disableAnnotationSilences) r.(ro_runtimeSilences) r.(ro_maintenance) r.(ro_crdSilences) m.

(** The label of [AlertsSuppressed]. *)
Inductive suppression := SuppressSilenced | SuppressMaintenance | SuppressInhibited.

(** [nil] with the metric it counted, or the sinks. *)
Inductive routing := Dropped (why : suppression) | RouteTo (sinks : list string).

Section router.
Context `{RegexpLib} `{MapRange} `{TimeLib} `{ZoneLib}.

(** [t, err := time.Parse(time.RFC3339, until); err == nil && now.Before(t)]. *)
Definition until_after (now : time) (until : string) : bool :=
  match ParseRFC3339 until with Some t => Before now t | None => false end.

(** The loop over file or CRD silences. *)
Definition cfg_silenced (now : time) (a : Alert) (ss : list CfgSilence) : bool :=
  existsb (λ s, MatchLabels a s.(Cs_Matchers) && until_after now s.(Cs_Until)) ss.

Definition silenced (now : time) (a : Alert) (r : Router) : bool :=
  (match a.(a_Annotations) !! AnnotationSilenceUntil with
   | Some until => negb r.(ro_disableAnnotationSilences) && until_after now until
   | None => false
   end)
  || cfg_silenced now a r.(ro_silences)
  || (match r.(ro_crdSilences) with Some ss => cfg_silenced now a ss | None => false end)
  || (match r.(ro_runtimeSilences) with
      | Some s => existsb (λ s, MatchLabels a s.(sil_Matchers)) (SilActive now s)
      | None => false
      end).

Definition inMaintenance (a : Alert) (now : time) (r : Router) : bool :=
  existsb (λ w, MatchLabels a w.(Mw_Matchers) && Active w now) r.(ro_maintenance).

(** The two loops over the inhibition rules, with their index. *)
Definition inhibited_by (now : time) (a : Alert) (armed : gmap inhibitionKey time) (ir : nat * Inhibition) : bool :=
  MatchLabels a ir.2.(In_Target)
  && match armed !! (ir.1, GroupKey a ir.2.(In_Equal)) with Some exp => Before now exp | None => false end.

Definition inhibited (now : time) (a : Alert) (r : Router) : bool :=
  existsb (inhibited_by now a r.(ro_activeInhibits)) (imap pair r.(ro_inhibitions)).

Definition pruneExpiredLocked (now : time) (armed : gmap inhibitionKey time) : gmap inhibitionKey time :=
  delete_where (λ _ exp, negb (Before now exp)) armed.

Definition arm_step (now : time) (a : Alert) (armed : gmap inhibitionKey time) (ir : nat * Inhibition)
  : gmap inhibitionKey time :=
  if MatchLabels a ir.2.(In_Source)
  then <[(ir.1, GroupKey a ir.2.(In_Equal)) := Add now (DurationParsed ir.2)]> armed
  else armed.

Definition maybeArmInhibition (now : time) (a : Alert) (r : Router) : Router :=
  set_activeInhibits
    (fold_left (arm_step now a) (imap pair r.(ro_inhibitions)) (pruneExpiredLocked now r.(ro_activeInhibits))) r.

Definition ArmInhibitions (now : time) (a : Alert) (r : Router) : Router :=
  if a.(a_Resolved) then r else maybeArmInhibition now a r.

(** The first route that matches, else the default. *)
Fixpoint pick_route (a : Alert) (routes : list Route_) (defaultSinks : list string) : list string :=
  match routes with
  | [] => defaultSinks
  | route :: routes => if MatchLabels a route.(Rt_Match) then route.(Rt_Sinks) else pick_route a routes defaultSinks
  end.

(** [Route]: [t1] to [t4] are the clock readings of [silenced], [inMaintenance], [inhibited]
    and [maybeArmInhibition]. *)
Definition Route (t1 t2 t3 t4 : time) (a : Alert) (r : Router) : routing * Router :=
  if negb a.(a_Resolved) then
    if silenced t1 a r then (Dropped SuppressSilenced, r)
    else if inMaintenance a t2 r then (Dropped SuppressMaintenance, r)
    else if inhibited t3 a r then (Dropped SuppressInhibited, r)
    else let r := maybeArmInhibition t4 a r in (RouteTo (pick_route a r.(ro_routes) r.(ro_defaultSinks)), r)
  else (RouteTo (pick_route a r.(ro_routes) r.(ro_defaultSinks)), r).

(** The calls that reach the table: [Route], and [ArmInhibitions] for a refreshed alert. The
    last clock reading of each is the one [maybeArmInhibition] takes, before it has the lock. *)
Inductive router_call := CallRoute (t1 t2 t3 t4 : time) (a : Alert) | CallArm (now : time) (a : Alert).

Definition call_clock (k : router_call) : time := match k with CallRoute _ _ _ t4 _ => t4 | CallArm now _ => now end.
Definition run_call (r : Router) (k : router_call) : Router :=
  match k with
  | CallRoute t1 t2 t3 t4 a => (Route t1 t2 t3 t4 a r).2
  | CallArm now a => ArmInhibitions now a r
  end.
Definition run_calls (calls : list router_call) (r : Router) : Router := fold_left run_call calls r.

(** ** Lemmas *)

Lemma lookup_prune now armed k exp :
  armed !! k = Some exp → now < exp → pruneExpiredLocked now armed !! k = Some exp.
Proof.
  intros Hk Hlt. unfold pruneExpiredLocked. rewrite lookup_delete_where, Hk.
  by rewrite (proj2 (Before_spec now exp) Hlt).
Qed.

(** What arming leaves under a key of rule [i]. *)
Lemma arm_fold_lookup (now : time) (a : Alert) (rules : list Inhibition) (armed : gmap inhibitionKey time) (i : nat) (s : string) :
  fold_left (arm_step now a) (imap pair rules) armed !! (i, s) =
  match rules !! i with
  | Some inh => if MatchLabels a inh.(In_Source) && streq (GroupKey a inh.(In_Equal)) s
                then Some (Add now (DurationParsed inh)) else armed !! (i, s)
  | None => armed !! (i, s)
  end.
Proof.
  induction rules as [|inh rules IH] using rev_ind; [done|].
  rewrite imap_app, fold_left_app. cbn [imap fold_left]. unfold arm_step at 1. cbn [fst snd].
  rewrite Nat.add_0_r.
  destruct (decide (i = length rules)) as [->|Hi].
  - rewrite lookup_app_r, Nat.sub_diag by lia. cbn [lookup list_lookup].
    rewrite lookup_ge_None_2 in IH by lia.
    destruct (MatchLabels a (In_Source inh)); cbn [andb]; [|done].
    destruct (streq _ s) eqn:Es.
    + apply streq_true in Es. by rewrite Es, lookup_insert_eq.
    + apply streq_false in Es. rewrite lookup_insert_ne; [done|congruence].
  - transitivity (fold_left (arm_step now a) (imap pair rules) armed !! (i, s)).
    { destruct (MatchLabels a (In_Source inh)); [|done]. rewrite lookup_insert_ne; [done|congruence]. }
    rewrite IH. destruct (decide (i < length rules)%nat).
    + by rewrite lookup_app_l.
    + rewrite !lookup_ge_None_2; [done|rewrite length_app; simpl; lia|lia].
Qed.

Lemma arm_lookup (now : time) (a : Alert) (r : Router) (i : nat) (s : string) :
  (maybeArmInhibition now a r).(ro_activeInhibits) !! (i, s) =
  match r.(ro_inhibitions) !! i with
  | Some inh => if MatchLabels a inh.(In_Source) && streq (GroupKey a inh.(In_Equal)) s
                then Some (Add now (DurationParsed inh))
                else pruneExpiredLocked now r.(ro_activeInhibits) !! (i, s)
  | None => pruneExpiredLocked now r.(ro_activeInhibits) !! (i, s)
  end.
Proof. apply arm_fold_lookup. Qed.

(** The entry of rule [i] and key [s] lasts until [d] at least. *)
Definition armed_until (d : time) (i : nat) (s : string) (r : Router) : Prop :=
  ∃ exp, r.(ro_activeInhibits) !! (i, s) = Some exp ∧ d <= exp.

(** A call leaves the table as it is or arms at its clock. *)
Lemma run_call_cases k r :
  run_call r k = r ∨ ∃ a, a.(a_Resolved) = false ∧ run_call r k = maybeArmInhibition (call_clock k) a r.
Proof.
  destruct k as [t1 t2 t3 t4 a|now a]; simpl; unfold Route, ArmInhibitions; destruct (a_Resolved a) eqn:Hres; simpl;
    [by left| |by left|by eauto].
  destruct (silenced t1 a r), (inMaintenance a t2 r), (inhibited t3 a r); simpl; eauto.
Qed.

Lemma run_calls_rules calls r : (run_calls calls r).(ro_inhibitions) = r.(ro_inhibitions).
Proof.
  revert r. induction calls as [|k calls IH]; intros r; [done|]. unfold run_calls in *. simpl. rewrite IH.
  by destruct (run_call_cases k r) as [->|(a & _ & ->)].
Qed.

(** Calls whose clocks lie between [lo] and [hi] keep an entry that lasts beyond [hi], and
    renew it for the rule's duration from [lo] at least. *)
Lemma run_calls_keep d i inh s lo hi calls r :
  Forall (λ k, lo <= call_clock k <= hi) calls →
  r.(ro_inhibitions) !! i = Some inh → d <= lo + DurationParsed inh → hi < d →
  armed_until d i s r → armed_until d i s (run_calls calls r).
Proof.
  intros Hc. revert r. induction Hc as [|k calls Hk Hc IH]; intros r Hi Hd Hhi Ha; [done|].
  apply IH; [|done|done|]; destruct (run_call_cases k r) as [->|(a & _ & ->)]; try done.
  destruct Ha as (exp & Hexp & Hde). unfold armed_until. rewrite arm_lookup, Hi. destruct (_ && _).
  - exists (Add (call_clock k) (DurationParsed inh)). split; [done|]. unfold Add. lia.
  - exists exp. split; [|done]. apply lookup_prune; [done|lia].
Qed.

(** A routed or refreshed source has armed its rules when the call returns. *)
Lemma source_arms t0 src r0 r1 i inh :
  r0.(ro_inhibitions) !! i = Some inh → MatchLabels src inh.(In_Source) = true → src.(a_Resolved) = false →
  (∃ t1 t2 t3 sinks, Route t1 t2 t3 t0 src r0 = (RouteTo sinks, r1)) ∨ ArmInhibitions t0 src r0 = r1 →
  r1.(ro_inhibitions) = r0.(ro_inhibitions)
  ∧ armed_until (t0 + DurationParsed inh) i (GroupKey src inh.(In_Equal)) r1.
Proof.
  intros Hi Hsrc Hres Hr.
  assert (r1 = maybeArmInhibition t0 src r0) as ->.
  { destruct Hr as [(t1 & t2 & t3 & sinks & Hr)|<-]; [|unfold ArmInhibitions; by rewrite Hres].
    revert Hr. unfold Route. rewrite Hres. simpl. destruct (silenced t1 src r0); [done|].
    destruct (inMaintenance src t2 r0); [done|]. destruct (inhibited t3 src r0); [done|]. by intros [= _ <-]. }
  split; [done|]. unfold armed_until. rewrite arm_lookup, Hi, Hsrc, streq_refl. by eexists.
Qed.

(** An entry of the table comes from a firing source of its rule: the calls that dropped their
    alert, and resolves, arm nothing. *)
Lemma armed_by_source calls r i s exp :
  (run_calls calls r).(ro_activeInhibits) !! (i, s) = Some exp →
  r.(ro_activeInhibits) !! (i, s) = Some exp
  ∨ ∃ k src inh, k ∈ calls ∧ r.(ro_inhibitions) !! i = Some inh ∧ src.(a_Resolved) = false
      ∧ MatchLabels src inh.(In_Source) = true ∧ GroupKey src inh.(In_Equal) = s
      ∧ exp = Add (call_clock k) (DurationParsed inh).
Proof.
  revert r. induction calls as [|k calls IH]; intros r Hl; [by left|].
  destruct (IH (run_call r k) Hl) as [Hl'|(k' & src & inh & Hk & Hi & Hx)].
  - destruct (run_call_cases k r) as [E|(a & Ha & E)]; rewrite E in Hl'; [by left|]. rewrite arm_lookup in Hl'.
    assert (Hold : pruneExpiredLocked (call_clock k) (ro_activeInhibits r) !! (i, s) = Some exp →
      ro_activeInhibits r !! (i, s) = Some exp).
    { unfold pruneExpiredLocked. rewrite lookup_delete_where. destruct (ro_activeInhibits r !! (i, s)); [|done].
      by destruct (negb _). }
    destruct (ro_inhibitions r !! i) as [inh|] eqn:Hi; [|by left; apply Hold].
    destruct (MatchLabels a (In_Source inh)) eqn:Hm; [|by left; apply Hold]. simpl in Hl'.
    destruct (streq _ s) eqn:Hs; [|by left; apply Hold]. apply streq_true in Hs. simplify_eq.
    right. exists k, a, inh. split_and!; [set_solver|done..].
  - right. exists k', src, inh. split; [set_solver|]. split; [|done]. by rewrite <- (run_calls_rules [k] r).
Qed.

(** C30: a source that fires suppresses its targets for the rule's duration. A firing source
    that [Route] let through, or that [ArmInhibitions] was called for, arms every rule it
    matches: whatever other alerts are routed, dropped or refreshed afterwards, each firing
    alert that matches the rule's target and agrees on the rule's [equal] fields is dropped
    until the duration has passed since the source's call read the clock. [lag] is how much
    older than that reading the clock of a call that overtook it may be (it is read before the
    lock is taken), and it shortens the suppression by as much. *)
Theorem inhibition_holds t0 src r0 r1 i inh lag calls t t1 t2 t4 a :
  r0.(ro_inhibitions) !! i = Some inh → MatchLabels src inh.(In_Source) = true → src.(a_Resolved) = false →
  (∃ t1 t2 t3 sinks, Route t1 t2 t3 t0 src r0 = (RouteTo sinks, r1)) ∨ ArmInhibitions t0 src r0 = r1 →
  0 <= lag → Forall (λ k, t0 - lag <= call_clock k <= t) calls → t < t0 + DurationParsed inh - lag →
  a.(a_Resolved) = false → MatchLabels a inh.(In_Target) = true →
  (∀ f, f ∈ inh.(In_Equal) → FieldValue a f = FieldValue src f) →
  ∃ why, Route t1 t2 t t4 a (run_calls calls r1) = (Dropped why, run_calls calls r1).
Proof.
  intros Hi Hsrc Hfire Hr1 Hlag Hcalls Ht Hres Htgt Heq.
  destruct (source_arms _ _ _ _ _ _ Hi Hsrc Hfire Hr1) as [Hrules (exp0 & Hexp0 & Hle0)].
  destruct (run_calls_keep (t0 + DurationParsed inh - lag) i inh (GroupKey src (In_Equal inh)) (t0 - lag) t calls r1)
    as (exp & Hexp & Hle); [done|by rewrite Hrules|lia|done|exists exp0; split; [done|lia]|].
  set (r := run_calls calls r1) in *.
  assert (Hin : inhibited t a r = true).
  { unfold inhibited. apply existsb_True. exists (i, inh). split.
    - apply list_elem_of_lookup. exists i. unfold r. by rewrite list_lookup_imap, run_calls_rules, Hrules, Hi.
    - unfold inhibited_by. cbn [fst snd]. rewrite Htgt, (GroupKey_eq a src _ (In_Equal inh)) by done. rewrite Hexp. simpl.
      apply Before_spec. lia. }
  unfold Route. rewrite Hres. simpl. destruct (silenced t1 a r); [by eexists|].
  destruct (inMaintenance a t2 r); [by eexists|]. rewrite Hin. by eexists.
Qed.

Lemma pick_route_first a routes d :
  (∃ i r, routes !! i = Some r ∧ MatchLabels a r.(Rt_Match) = true
     ∧ (∀ j r', (j < i)%nat → routes !! j = Some r' → MatchLabels a r'.(Rt_Match) = false)
     ∧ pick_route a routes d = r.(Rt_Sinks))
  ∨ (∀ r, r ∈ routes → MatchLabels a r.(Rt_Match) = false) ∧ pick_route a routes d = d.
Proof.
  induction routes as [|r routes IH]; simpl.
  { right. split; [|done]. intros r Hr. by apply elem_of_nil in Hr. }
  destruct (MatchLabels a (Rt_Match r)) eqn:E.
  - left. exists 0%nat, r. split_and!; [done|done|lia|done].
  - destruct IH as [(i & r' & Hi & Hm & Hbefore & Hp)|[Hall Hp]].
    + left. exists (S i), r'. split_and!; [done|done| |done].
      intros [|j] r'' Hj Hlk; [by simplify_eq/=|]. apply (Hbefore j); [lia|done].
    + right. split; [|done]. intros r' [->|Hr']%elem_of_cons; [done|by apply Hall].
Qed.

(** Marking an alert resolved does not change what it matches. *)
Lemma pick_route_resolved b a routes d : pick_route (with_Resolved b a) routes d = pick_route a routes d.
Proof.
  induction routes as [|rt l IH]; [done|]. cbn [pick_route]. rewrite IH.
  change (MatchLabels (with_Resolved b a) (Rt_Match rt)) with (MatchLabels a (Rt_Match rt)). done.
Qed.

(** Under a validated configuration every delivered alert goes to a nonempty list of known
    sinks, and it is the list of the first route that matches; a resolve is never suppressed,
    arms nothing and takes the same route whatever is silenced, in maintenance or inhibited. *)
Theorem Route_delivers t1 t2 t3 t4 a r c sinks :
  config_ok c → r.(ro_routes) = c.(Routing) → sinks_ok r.(ro_defaultSinks) →
  (Route t1 t2 t3 t4 a r).1 = RouteTo sinks →
  sinks_ok sinks
  ∧ ((∃ i rt, c.(Routing) !! i = Some rt ∧ MatchLabels a rt.(Rt_Match) = true ∧ sinks = rt.(Rt_Sinks)
        ∧ ∀ j rt', (j < i)%nat → c.(Routing) !! j = Some rt' → MatchLabels a rt'.(Rt_Match) = false)
     ∨ (∀ rt, rt ∈ c.(Routing) → MatchLabels a rt.(Rt_Match) = false) ∧ sinks = r.(ro_defaultSinks))
  ∧ (∀ b, b = with_Resolved true a →
       pick_route b r.(ro_routes) r.(ro_defaultSinks) = sinks
       ∧ Route t1 t2 t3 t4 b r = (RouteTo sinks, r)).
Proof.
  intros Hok Hr Hdef Hroute.
  assert (Hs : sinks = pick_route a (ro_routes r) (ro_defaultSinks r)).
  { revert Hroute. unfold Route. destruct (negb (a_Resolved a)); [|by intros [= ->]].
    destruct (silenced t1 a r); [done|]. destruct (inMaintenance a t2 r); [done|].
    destruct (inhibited t3 a r); [done|]. by intros [= ->]. }
  split_and!.
  - destruct (pick_route_first a (ro_routes r) (ro_defaultSinks r)) as [(i & rt & Hi & _ & _ & E)|[_ E]];
      rewrite Hs, E; [|done]. rewrite Hr in Hi. by destruct (ok_routes _ Hok i rt Hi).
  - rewrite Hs. rewrite <- Hr. destruct (pick_route_first a (ro_routes r) (ro_defaultSinks r))
      as [(i & rt & Hi & Hm & Hb & E)|[Hall E]]; [left; exists i, rt; by rewrite E|right; by rewrite E].
  - intros b ->.
    assert (E : pick_route (with_Resolved true a) (ro_routes r) (ro_defaultSinks r) = sinks).
    { rewrite Hs. apply pick_route_resolved. }
    split; [done|]. unfold Route. simpl. by rewrite E.
Qed.
End router.

(** * Concrete instances *)

Definition node_down : Inhibition :=
  MkInhibition {["kind" := "Node"; "reason" := "NodeNotReady"]} {["kind" := "Pod"]} ["node"] "10m".

Definition example_router : Router :=
  router_New [MkRoute {["severity" := "critical"]} ["pagerduty"; "slack"]] [node_down] [] ["slack"].

Definition node_alert : Alert :=
  MkAlert "fpn" KindNode "" "node-a" "node-a" SeverityCritical "NodeNotReady" "" "" ∅ ∅ ∅ 100 0 false false None.

#[local] Existing Instances mini_regexp mini_time mini_zone.

(** The node alert is routed at one minute; another alert is routed and a third refreshed
    before the pod's alert arrives at nine minutes. *)
Definition example_calls : list router_call := [CallRoute Minute Minute Minute (2 * Minute) zero_alert; CallArm (9 * Minute) zero_alert].
Definition example_armed : Router := run_calls example_calls (maybeArmInhibition Minute node_alert example_router).

Lemma inhibition_holds_witness :
  (Route 0 0 0 Minute node_alert example_router).2 = maybeArmInhibition Minute node_alert example_router
  ∧ ∃ why, Route 0 0 (9 * Minute) 0 example_alert example_armed = (Dropped why, example_armed).
Proof.
  split; [reflexivity|].
  refine (inhibition_holds Minute node_alert example_router _ 0 node_down 0 example_calls (9 * Minute) 0 0 0 example_alert
            eq_refl _ eq_refl _ _ _ _ eq_refl _ _).
  - vm_compute. reflexivity.
  - left. exists 0, 0, 0. eexists. reflexivity.
  - done.
  - repeat constructor; by vm_compute.
  - by vm_compute.
  - vm_compute. reflexivity.
  - intros f Hf. apply elem_of_cons in Hf as [->|Hf]; [reflexivity|by apply elem_of_nil in Hf].
Defined.

Lemma Route_delivers_witness :
  sinks_ok ["slack"] ∧ (Route 0 0 0 0 (with_Resolved true node_alert) (router_New [] [] [] ["slack"])).1 = RouteTo ["slack"].
Proof.
  assert (Hs : sinks_ok ["slack"]).
  { split; [done|]. intros s Hs. apply elem_of_cons in Hs as [->|Hs]; [|by apply elem_of_nil in Hs].
    apply (bool_decide_unpack _). by vm_compute. }
  assert (Hr : (Route 0 0 0 0 node_alert (router_New [] [] [] ["slack"])).1 = RouteTo ["slack"])
    by (vm_compute; reflexivity).
  destruct (Route_delivers 0 0 0 0 node_alert (router_New [] [] [] ["slack"]) default_config ["slack"]
              default_ok eq_refl Hs Hr) as (H1 & _ & H2).
  split; [exact H1|]. by destruct (H2 _ eq_refl) as [_ ->].
Defined.
