(* ===== verification/Sources.v ===== *)
(** * internal/sources: polled cloud providers

    Models source.go, provider.go, cloud.go, list.go and the pagination helpers of the aws,
    azure and gcp packages (aws/helpers.go, azure/helpers.go, gcp/helpers.go, the pager of
    gcp/cloudsql.go). A poll is a program over a [Runtime]: an opaque world that answers the
    clock, [ctx.Err()], the rate limiter and the API calls; it leaves a trace of effects. The
    SDK clients and pagers are functions of the world. The runner is in [SourceRunner], the
    services are in [AwsEval], [AwsPoll], [CloudTrail] and [CloudSources]. *)
From S2P Require Import Prelude GoStd AlertModel.

(** ** Errors *)

(** [smithy.APIError] carries a code; [Errorf text err] is [fmt.Errorf("text: %w", err)]. *)
Inductive error :=
  | Canceled
  | DeadlineExceeded
  | APIError (code msg : string)
  | OtherError (msg : string)
  | Errorf (text : string) (err : error).

(** [errors.Is(err, context.Canceled)]. *)
Fixpoint IsCanceled (err : error) : bool :=
  match err with Canceled => true | Errorf _ err => IsCanceled err | _ => false end.

(** [errors.As(err, &ae)] with an [ae smithy.APIError]: its code. *)
Fixpoint AsAPIError (err : error) : option string :=
  match err with APIError code _ => Some code | Errorf _ err => AsAPIError err | _ => None end.

(** [aws.ToString], [azure.strVal]: nil is the empty string. *)
Definition ToString (s : option string) : string := default "" s.

(** ** The environment of a poll *)

Class Runtime := {
  world : Type;
  Now : world → time * world;
  ctx_Err : world → option error * world;
  (** [rate.Limiter.Wait] *)
  lim_Wait : world → option error * world;
}.

(** What a poll does that others can see: alerts emitted, the two metrics with their log
    lines, and the API calls with their answers. [N] is what a list call lists, [D] what the
    calls about one listed thing answer. A list source's answer is that of its lister, with
    the scope in the token's place. *)
Inductive effect {N D : Type} :=
  | Emitted (a : Alert)
  | PollError (source scope : string) (err : error)
  | Truncation (source scope why : string)
  | Listed (token : option string) (answer : error + list N * option string)
  | Described (x : N) (answer : D).
Arguments effect : clear implicits.

Section poll.
Context `{Runtime} {N D : Type}.

Abbreviation trace := (list (effect N D)).

Definition M (A : Type) : Type := world → A * world * trace.
Definition ret {A} (x : A) : M A := λ w, (x, w, []).
Definition bind {A B} (m : M A) (k : A → M B) : M B := λ w,
  let '(x, w, t) := m w in let '(y, w, t') := k x w in (y, w, t ++ t').
Definition tell (e : effect N D) : M unit := λ w, (tt, w, [e]).
(** A call of the environment that leaves no effect, and one that leaves [mark]. *)
Definition ask {A} (f : world → A * world) : M A := λ w, let '(x, w) := f w in (x, w, []).
Definition call {A} (f : world → A * world) (mark : A → effect N D) : M A := λ w,
  let '(x, w) := f w in (x, w, [mark x]).
End poll.

Declare Scope source_scope.
Delimit Scope source_scope with source.
Notation "'let!' x := m 'in' k" := (bind m (λ x, k)) (at level 100, x pattern, m at level 99, k at level 100) : source_scope.
Notation "m ;;! k" := (bind m (λ _, k)) (at level 100, k at level 100, right associativity) : source_scope.
Open Scope source_scope.

(** ** cloud.go *)

(** A call of [EmitFiring] or [EmitResolve]. The evaluators return the calls they make, in
    order; [perform] makes them. *)
Inductive verdict :=
  | Firing (k : KindT) (scope name reason summary : string) (sev : Severity) (labels details : gmap string string)
  | Resolve (k : KindT) (scope name : string).

Definition EmitFiring (now : time) (k : KindT) (scope name reason summary : string) (sev : Severity)
    (labels details : gmap string string) : Alert :=
  let a := New now k scope name reason sev in
  let a := with_Summary summary a in
  let a := with_Labels (labels ∪ a.(a_Labels)) a in
  with_Details (filter (λ kv, kv.2 ≠ "") details ∪ a.(a_Details)) a.

Definition EmitResolve (k : KindT) (scope name : string) : Alert :=
  MkAlert "" k scope name "" "" "" "" "" ∅ ∅ ∅ 0 0 true false None.

Definition MaxPages : nat := 1000.

Definition Scope (parent location : string) : string :=
  if streq location "" then parent else parent +:+ "/" +:+ location.

(** [nil] sources are [None]. *)
Definition Compact {S} (srcs : list (option S)) : list S := omap id srcs.

Fixpoint build_loop {S E} (builders : list (E + option S)) (srcs : list (option S)) : E + list (option S) :=
  match builders with
  | [] => inr srcs
  | inl err :: _ => inl err
  | inr s :: builders => build_loop builders (srcs ++ [s])
  end.

Definition BuildAll {S E} (builders : list (E + option S)) : E + list S :=
  match build_loop builders [] with inl err => inl err | inr srcs => inr (Compact srcs) end.

(** One scope of a list source, and one region of an AWS source. *)
Record Scoped `{Runtime} {N D : Type} := MkScoped { sc_Scope : string; sc_List : @M _ N D (error + list N) }.
Arguments Scoped {_} N D.
Arguments MkScoped {_ _ _} _ _.
Record regionClient {C : Type} := MkRegionClient { rc_region : string; rc_client : C }.
Arguments regionClient C : clear implicits.
Arguments MkRegionClient {C} _ _.

Section effects.
Context `{Runtime} {N D : Type}.

Definition PollErr (source scope : string) (err : option error) : @M _ N D unit :=
  match err with
  | None => ret tt
  | Some err => if IsCanceled err then ret tt else tell (PollError source scope err)
  end.

Definition PollTruncated (source scope why : string) : @M _ N D unit := tell (Truncation source scope why).

Definition perform (v : verdict) : @M _ N D unit :=
  match v with
  | Firing k scope name reason summary sev labels details =>
    let! now := ask Now in tell (Emitted (EmitFiring now k scope name reason summary sev labels details))
  | Resolve k scope name => tell (Emitted (EmitResolve k scope name))
  end.

Fixpoint emits (vs : list verdict) : @M _ N D unit :=
  match vs with [] => ret tt | v :: vs => perform v ;;! emits vs end.

(** ** list.go *)

Fixpoint list_items (eval : string → N → list verdict) (scope : string) (items : list N) : @M _ N D bool :=
  match items with
  | [] => ret true
  | x :: items =>
    let! done := ask ctx_Err in
    match done with
    | Some _ => ret false
    | None => emits (eval scope x) ;;! list_items eval scope items
    end
  end.

(** [listSource.Poll]. *)
Fixpoint list_Poll (name : string) (scopes : list (Scoped N D)) (eval : string → N → list verdict) : @M _ N D unit :=
  match scopes with
  | [] => ret tt
  | sc :: scopes =>
    let! done := ask ctx_Err in
    match done with
    | Some _ => ret tt
    | None =>
      let! out := sc.(sc_List) in
      tell (Listed (Some sc.(sc_Scope)) (match out with inl err => inl err | inr items => inr (items, None) end)) ;;!
      match out with
      | inl err => PollErr name sc.(sc_Scope) (Some err) ;;! list_Poll name scopes eval
      | inr items =>
        let! go := list_items eval sc.(sc_Scope) items in
        if (go : bool) then list_Poll name scopes eval else ret tt
      end
    end
  end.

(** ** aws/helpers.go *)

Definition waitDescribe : @M _ N D (option error) :=
  let! err := ask lim_Wait in ret (Errorf "describe rate limit" <$> err).

(** [*token == *next] when both are set. *)
Definition same_token (token : option string) (next : string) : bool :=
  match token with Some t => streq t next | None => false end.

Fixpoint walk_loop (pages : nat) (source region : string) (page : option string → @M _ N D (error + option string))
    (token : option string) : @M _ N D (option error) :=
  match pages with
  | O => PollTruncated source region ("hit the " +:+ Itoa (Z.of_nat MaxPages) +:+ "-page runaway guard") ;;! ret None
  | S pages =>
    let! err := ask ctx_Err in
    match err with
    | Some err => ret (Some err)
    | None =>
      let! out := page token in
      match out with
      | inl err => ret (Some err)
      | inr next =>
        if streq (ToString next) "" then ret None
        else if same_token token (ToString next)
             then PollTruncated source region "pagination token did not advance" ;;! ret None
             else walk_loop pages source region page next
      end
    end
  end.

Definition walkPages (source region : string) (page : option string → @M _ N D (error + option string)) : @M _ N D (option error) :=
  walk_loop MaxPages source region page None.

Definition forEachPage (source region : string) (page : option string → @M _ N D (error + option string)) : @M _ N D unit :=
  let! err := walkPages source region page in
  match err with Some err => PollErr source region (Some err) | None => ret tt end.

Fixpoint pollByRegion {C} (source : string) (regions : list (regionClient C))
    (pollOne : regionClient C → @M _ N D unit) : @M _ N D unit :=
  match regions with
  | [] => ret tt
  | rc :: regions =>
    let! err := ask ctx_Err in
    match err with
    | Some err => PollErr source rc.(rc_region) (Some (Errorf "region not polled" err)) ;;! pollByRegion source regions pollOne
    | None => pollOne rc ;;! pollByRegion source regions pollOne
    end
  end.

Definition dbStatusSeverity (status : string) (critical : gset string) : Severity * bool :=
  if decide (status ∈ critical) then (SeverityCritical, true)
  else if streq status "stopped" then (SeverityWarning, true)
  else (SeverityInfo, false).

(** The closure every AWS service passes to [forEachPage]: one list call, then the loop over
    what it listed, which an error of the loop body (a limiter wait) ends. *)
Fixpoint each (visit : N → @M _ N D (option error)) (items : list N) : @M _ N D (option error) :=
  match items with
  | [] => ret None
  | x :: items =>
    let! err := visit x in
    match err with Some err => ret (Some err) | None => each visit items end
  end.

Definition page_of (list_call : option string → world → (error + list N * option string) * world)
    (visit : N → @M _ N D (option error)) (token : option string) : @M _ N D (error + option string) :=
  let! out := call (list_call token) (Listed token) in
  match out with
  | inl err => ret (inl err)
  | inr (items, next) =>
    let! err := each visit items in
    match err with Some err => ret (inl err) | None => ret (inr next) end
  end.

(** A loop body that only evaluates. *)
Definition evaluates (eval : N → list verdict) (x : N) : @M _ N D (option error) := emits (eval x) ;;! ret None.

(** ** azure/helpers.go: [drainPager]. [More] and [NextPage] of the pager are calls. *)
Fixpoint drain_loop {R T} (pages : nat) (source : string) (more : world → bool * world)
    (next : world → (error + R) * world) (items : R → list T) (out : list T) : @M _ N D (error + list T) :=
  let! m := ask more in
  if (m : bool) then
    let! err := ask ctx_Err in
    match err with
    | Some err => ret (inl err)
    | None =>
      match pages with
      | O => PollTruncated source "" ("hit the " +:+ Itoa (Z.of_nat MaxPages) +:+ "-page runaway guard") ;;! ret (inr out)
      | S pages =>
        let! page := ask next in
        match page with
        | inl err => ret (inl err)
        | inr page => drain_loop pages source more next items (out ++ items page)
        end
      end
    end
  else ret (inr out).

Definition drainPager {R T} (source : string) (more : world → bool * world) (next : world → (error + R) * world)
    (items : R → list T) : @M _ N D (error + list T) :=
  drain_loop MaxPages source more next items [].

(** ** gcp/cloudsql.go: the token loop of [apiSQLLister.List]. [call token] is one request. *)
Fixpoint sql_loop (pages : nat) (source project : string)
    (request : string → world → (error + list N * string) * world) (token : string) (out : list N) : @M _ N D (error + list N) :=
  match pages with
  | O => PollTruncated source project ("hit the " +:+ Itoa (Z.of_nat MaxPages) +:+ "-page runaway guard") ;;! ret (inr out)
  | S pages =>
    let! resp := ask (request token) in
    match resp with
    | inl err => ret (inl err)
    | inr (items, next) =>
      let out := out ++ items in
      if streq next "" then ret (inr out)
      else if streq next token then PollTruncated source project "page token did not advance" ;;! ret (inr out)
      else sql_loop pages source project request next out
    end
  end.

End effects.

(** ** Observations of a trace *)

Section observe.
Context `{Runtime} {N D : Type}.
Implicit Types t : list (effect N D).

Definition emitted t : list Alert := omap (λ e, match e with Emitted a => Some a | _ => None end) t.
Definition listed t : list (option string * (error + list N * option string)) :=
  omap (λ e, match e with Listed tok ans => Some (tok, ans) | _ => None end) t.
Definition described t : list (N * D) := omap (λ e, match e with Described x d => Some (x, d) | _ => None end) t.

(** The things the answers of list calls name. *)
Definition page_items (ans : option string * (error + list N * option string)) : list N :=
  match ans.2 with inr (items, _) => items | inl _ => [] end.
Definition listed_items t : list N := concat (page_items <$> listed t).

(** The poll reported that it could not see everything in this scope. *)
Definition gap (source scope : string) t : Prop :=
  (∃ err, PollError source scope err ∈ t) ∨ (∃ why, Truncation source scope why ∈ t).

(** The requests follow the tokens from [token] on, and none repeats its answer's token. *)
Fixpoint follows (token : option string) (l : list (option string * (error + list N * option string))) : Prop :=
  match l with
  | [] => True
  | (tok, inl _) :: l => tok = token ∧ l = []
  | (tok, inr (_, next)) :: l =>
    tok = token ∧ (l = [] ∨ ToString next ≠ "" ∧ same_token token (ToString next) = false ∧ follows next l)
  end.

(** The last page was reached. *)
Definition complete (l : list (option string * (error + list N * option string))) : Prop :=
  ∃ tok items next, last l = Some (tok, inr (items, next)) ∧ ToString next = "".

(** An alert that [perform] makes of a verdict. *)
Definition issues (v : verdict) (a : Alert) : Prop :=
  match v with
  | Firing k scope name reason summary sev labels details => ∃ now, a = EmitFiring now k scope name reason summary sev labels details
  | Resolve k scope name => a = EmitResolve k scope name
  end.

Lemma emitted_app t t' : emitted (t ++ t') = emitted t ++ emitted t'.
Proof. apply omap_app. Qed.
Lemma listed_app t t' : listed (t ++ t') = listed t ++ listed t'.
Proof. apply omap_app. Qed.
Lemma described_app t t' : described (t ++ t') = described t ++ described t'.
Proof. apply omap_app. Qed.
Lemma listed_items_app t t' : listed_items (t ++ t') = listed_items t ++ listed_items t'.
Proof. unfold listed_items. by rewrite listed_app, fmap_app, concat_app. Qed.

Lemma gap_app_l source scope t t' : gap source scope t → gap source scope (t ++ t').
Proof. intros [[x Hx]|[x Hx]]; [left|right]; exists x; set_solver. Qed.
Lemma gap_app_r source scope t t' : gap source scope t' → gap source scope (t ++ t').
Proof. intros [[x Hx]|[x Hx]]; [left|right]; exists x; set_solver. Qed.

Lemma described_In t x d : (x, d) ∈ described t ↔ Described x d ∈ t.
Proof.
  unfold described. rewrite list_elem_of_omap. split.
  - intros ([] & Hin & E); simplify_eq; done.
  - intros Hin. by exists (Described x d).
Qed.

(** The effects of performing verdicts. *)
Definition only_emits t : Prop := Forall (λ e, ∃ a, e = Emitted a) t.

Lemma only_emits_quiet t : only_emits t → listed t = [] ∧ described t = [].
Proof. induction 1 as [|e t [a ->] _ [IH1 IH2]]; simpl; done. Qed.

Lemma emits_spec vs w :
  let '(_, _, t) := emits vs w in only_emits t ∧ Forall2 issues vs (emitted t).
Proof.
  revert w. induction vs as [|v vs IH]; intros w; simpl; [by split; constructor|].
  unfold bind at 1. destruct v; simpl.
  - unfold bind, ask, tell. destruct (Now w) as [now w1]. specialize (IH w1).
    destruct (emits vs w1) as [[u w2] t]. destruct IH as [H1 H2]. split.
    + constructor; [by eexists|done].
    + constructor; [by exists now|done].
  - unfold tell. specialize (IH w). destruct (emits vs w) as [[u w2] t]. destruct IH as [H1 H2].
    split; constructor; try done. by eexists.
Qed.

End observe.

(** ** Accounting for verdicts, compositionally

    [owes vs m]: whatever the world answers, [m] lists nothing and its alerts are the verdicts
    [vs] followed by those that the answers it gets itself call for. *)
Create HintDb accounting.

Section accounting.
Context `{Runtime} {N D : Type} (dv : N → D → list verdict).

Definition accounts (vs : list verdict) (t : list (effect N D)) : Prop :=
  listed t = [] ∧ Forall2 issues (vs ++ (described t ≫= λ xd, dv xd.1 xd.2)) (emitted t).
Definition owes {A} (vs : list verdict) (m : @M _ N D A) : Prop := ∀ w, accounts vs (m w).2.
(** Some answer about [x] is asked for unless [m] ends with an error. *)
Definition asks (x : N) (m : @M _ N D (option error)) : Prop := ∀ w, (m w).1.1 = None → ∃ d, Described x d ∈ (m w).2.

Lemma owes_ret {A} (x : A) : owes [] (ret x).
Proof. split; [done|constructor]. Qed.
Lemma owes_ask {A} (f : world → A * world) : owes [] (ask f).
Proof. intros w. unfold ask. destruct (f w). split; [done|constructor]. Qed.
Lemma owes_PollErr source scope err : owes [] (PollErr source scope err).
Proof. intros w. destruct err as [err|]; simpl; [destruct (IsCanceled err)|]; (split; [done|constructor]). Qed.
Lemma owes_PollTruncated source scope why : owes [] (PollTruncated source scope why).
Proof. split; [done|constructor]. Qed.
Lemma owes_emits vs : owes vs (emits vs).
Proof.
  intros w. pose proof (emits_spec (N:=N) (D:=D) vs w) as Hs. destruct (emits vs w) as [[u w'] t]. destruct Hs as [Ho Hf].
  destruct (only_emits_quiet t Ho) as [Hl Hd]. split; [done|]. simpl. by rewrite Hd, app_nil_r.
Qed.
Lemma owes_bind {A B} vs (m : @M _ N D A) (k : A → @M _ N D B) : owes vs m → (∀ x, owes [] (k x)) → owes vs (bind m k).
Proof.
  intros Hm Hk w. unfold bind. specialize (Hm w). destruct (m w) as [[x w'] t]. specialize (Hk x w').
  destruct (k x w') as [[y w''] t']. destruct Hm as [Hl Hf], Hk as [Hl' Hf']. simpl in *. split.
  - by rewrite listed_app, Hl, Hl'.
  - rewrite described_app, emitted_app, bind_app, app_assoc. by apply Forall2_app.
Qed.
Lemma owes_bind_assoc {A B C} vs (m : @M _ N D A) (k : A → @M _ N D B) (h : B → @M _ N D C) :
  owes vs (bind m (λ x, bind (k x) h)) → owes vs (bind (bind m k) h).
Proof.
  intros Hm w. specialize (Hm w). unfold bind in *. destruct (m w) as [[x w'] t]. destruct (k x w') as [[y w''] t'].
  destruct (h y w'') as [[z w3] t'']. simpl in *. by rewrite <- app_assoc.
Qed.
Lemma owes_bind_ret {A B} vs (x : A) (k : A → @M _ N D B) : owes vs (k x) → owes vs (bind (ret x) k).
Proof. intros Hk w. specialize (Hk w). unfold bind, ret. by destruct (k x w) as [[y w'] t]. Qed.
Lemma owes_call {A B} f x (g : A → D) (k : A → @M _ N D B) :
  (∀ r, owes (dv x (g r)) (k r)) → owes [] (bind (call f (λ r, Described x (g r))) k).
Proof.
  intros Hk w. unfold bind, call. destruct (f w) as [r w']. specialize (Hk r w').
  destruct (k r w') as [[y w''] t]. exact Hk.
Qed.
Lemma owes_call_nil {A} f x (g : A → D) : (∀ r, dv x (g r) = []) → owes [] (call f (λ r, Described x (g r))).
Proof.
  intros Hg w. unfold call. destruct (f w) as [r w']. split; [done|]. simpl. rewrite Hg. constructor.
Qed.

Lemma owes_walk_loop pages source region page token :
  (∀ token, owes [] (page token)) → owes [] (walk_loop pages source region page token).
Proof.
  intros Hp. revert token. induction pages as [|pages IH]; intros token; simpl walk_loop.
  - apply owes_bind; [apply owes_PollTruncated|intros; apply owes_ret].
  - apply owes_bind; [apply owes_ask|]. intros [err|]; [apply owes_ret|].
    apply owes_bind; [done|]. intros [err|next]; [apply owes_ret|].
    destruct (streq _ _); [apply owes_ret|]. destruct (same_token _ _); [|done].
    apply owes_bind; [apply owes_PollTruncated|intros; apply owes_ret].
Qed.

Lemma owes_drain_loop {R T} pages source more next (items : R → list T) out : owes [] (drain_loop pages source more next items out).
Proof.
  revert out. induction pages as [|pages IH]; intros out; simpl drain_loop.
  all: apply owes_bind; [apply owes_ask|]; intros [|]; [|apply owes_ret].
  all: apply owes_bind; [apply owes_ask|]; intros [err|]; [apply owes_ret|].
  - apply owes_bind; [apply owes_PollTruncated|intros; apply owes_ret].
  - apply owes_bind; [apply owes_ask|]. intros [err|page]; [apply owes_ret|apply IH].
Qed.
Lemma owes_sql_loop pages source project request token out : owes [] (sql_loop pages source project request token out).
Proof.
  revert token out. induction pages as [|pages IH]; intros token out; simpl sql_loop.
  - apply owes_bind; [apply owes_PollTruncated|intros; apply owes_ret].
  - apply owes_bind; [apply owes_ask|]. intros [err|[items next]]; [apply owes_ret|]. cbn zeta.
    destruct (streq next ""); [apply owes_ret|]. destruct (streq next token); [|apply IH].
    apply owes_bind; [apply owes_PollTruncated|intros; apply owes_ret].
Qed.

Lemma asks_call {A} f x (g : A → D) (k : A → @M _ N D (option error)) : asks x (bind (call f (λ r, Described x (g r))) k).
Proof.
  intros w _. unfold bind, call. destruct (f w) as [r w']. destruct (k r w') as [[y w''] t]. exists (g r). left.
Qed.
Lemma asks_bind_l {A} x (m : @M _ N D A) (k : A → @M _ N D (option error)) :
  (∀ w, ∃ d, Described x d ∈ (m w).2) → asks x (bind m k).
Proof.
  intros Hm w _. unfold bind. destruct (Hm w) as [d Hd]. destruct (m w) as [[a w'] t]. destruct (k a w') as [[y w''] t'].
  exists d. apply elem_of_app. by left.
Qed.
Lemma asks_bind {A} x (m : @M _ N D A) (k : A → @M _ N D (option error)) :
  (∀ a, asks x (k a)) → asks x (bind m k).
Proof.
  intros Hk w. unfold bind. destruct (m w) as [[a w'] t]. specialize (Hk a w').
  destruct (k a w') as [[y w''] t']. simpl in *. intros Hy. destruct (Hk Hy) as [d Hd]. exists d. apply elem_of_app. by right.
Qed.
Lemma asks_error x err : asks x (ret (Some err)).
Proof. intros w. discriminate. Qed.
End accounting.
#[export] Hint Resolve owes_ret owes_ask owes_PollErr owes_PollTruncated owes_emits owes_bind owes_bind_ret owes_call owes_drain_loop owes_sql_loop asks_call asks_bind asks_error : accounting.

(** ** The interface of a paged service

    What the closures that the AWS services pass to [forEachPage] have in common: a list call,
    a loop body [visit], and which verdicts are owed for a listed thing and for the answer of
    a call about it. A body either only evaluates what was listed, or makes its verdicts from
    further answers, of which it asks one at least for every thing that is [wanted]. *)
Class Paged `{Runtime} {N D : Type} (visit : N → @M _ N D (option error)) := {
  item_verdicts : N → list verdict;
  detail_verdicts : N → D → list verdict;
  wanted : N → bool;
  visit_unlisted x w : listed (visit x w).2 = [];
  visit_asks x w : (visit x w).1.1 = None → wanted x = true → ∃ d, Described x d ∈ (visit x w).2;
  visit_emits :
    (∀ x w, (visit x w).1.1 = None ∧ described (visit x w).2 = [] ∧ Forall2 issues (item_verdicts x) (emitted (visit x w).2))
    ∨ ((∀ x, item_verdicts x = []) ∧
       ∀ x w, Forall2 issues (described (visit x w).2 ≫= λ xd, detail_verdicts xd.1 xd.2) (emitted (visit x w).2));
}.
Arguments item_verdicts {_ _ _} _ {_} _.
Arguments detail_verdicts {_ _ _} _ {_} _ _.
Arguments wanted {_ _ _} _ {_} _.

Section paged.
Context `{Runtime} {N D : Type} (visit : N → @M _ N D (option error)) {P : Paged visit}.
Context (list_call : option string → world → (error + list N * option string) * world).
Implicit Types t : list (effect N D).

(** The verdicts owed for an effect, and for a trace. *)
Definition owed (e : effect N D) : list verdict :=
  match e with
  | Listed _ (inr (items, _)) => items ≫= item_verdicts visit
  | Described x d => detail_verdicts visit x d
  | _ => []
  end.

Lemma owed_described t : listed t = [] → t ≫= owed = described t ≫= λ xd, detail_verdicts visit xd.1 xd.2.
Proof.
  induction t as [|e t IH]; [done|]. rewrite bind_cons. destruct e; simpl; intros E; try (by apply IH); [discriminate|].
  by rewrite IH.
Qed.

Lemma each_spec items w :
  let '(err, _, t) := each visit items w in
  listed t = []
  ∧ Forall2 issues ((items ≫= item_verdicts visit) ++ (t ≫= owed)) (emitted t)
  ∧ (err = None → ∀ x, x ∈ items → wanted visit x = true → ∃ d, Described x d ∈ t).
Proof using Type P.
  revert w. induction items as [|x items IH]; intros w; simpl each; [split_and!; [done|constructor|set_solver]|].
  rewrite bind_cons. unfold bind. pose proof (visit_unlisted x w) as Hl. pose proof (visit_asks x w) as Ha.
  destruct (visit x w) as [[err w1] t1] eqn:E. simpl in *.
  specialize (IH w1).
  assert (Hv : (err = None ∧ described t1 = [] ∧ Forall2 issues (item_verdicts visit x) (emitted t1))
    ∨ ((∀ x, item_verdicts visit x = []) ∧ Forall2 issues (t1 ≫= owed) (emitted t1))).
  { destruct visit_emits as [Hv|[Hv1 Hv2]]; [left|right].
    - specialize (Hv x w). by rewrite E in Hv.
    - split; [done|]. specialize (Hv2 x w). rewrite E in Hv2. by rewrite owed_described. }
  assert (Hnone : (∀ x, item_verdicts visit x = []) → ∀ l, l ≫= item_verdicts visit = []).
  { intros Hz l. induction l as [|y l IHl]; [done|]. by rewrite bind_cons, Hz, IHl. }
  destruct err as [err|]; simpl.
  { destruct Hv as [(? & _)|[Hz Hf]]; [done|].
    rewrite app_nil_r. split_and!; [done| |done]. by rewrite (Hnone Hz), app_nil_r, Hz. }
  destruct (each visit items w1) as [[err w2] t2]. destruct IH as (IH1 & IH2 & IH3). simpl.
  rewrite listed_app, emitted_app, bind_app, Hl, IH1. split_and!; [done| |].
  - destruct Hv as [(_ & Hd & Hf)|[Hz Hf]].
    + rewrite (owed_described t1 Hl), Hd. simpl. rewrite <- app_assoc. by apply Forall2_app.
    + rewrite (Hnone Hz) in IH2 |- *. rewrite Hz, !app_nil_l in *. by apply Forall2_app.
  - intros -> y [->|Hy]%elem_of_cons Hw.
    + destruct (Ha eq_refl Hw) as [d Hd]. exists d. set_solver.
    + destruct (IH3 eq_refl y Hy Hw) as [d Hd]. exists d. set_solver.
Qed.

Lemma page_spec token w :
  let '(out, _, t) := page_of list_call visit token w in
  ∃ ans, listed t = [(token, ans)]
  ∧ Forall2 issues (t ≫= owed) (emitted t)
  ∧ match out with
    | inr next => ∃ items, ans = inr (items, next) ∧ (∀ x, x ∈ items → wanted visit x = true → ∃ d, Described x d ∈ t)
    | inl _ => True
    end.
Proof using Type P.
  unfold page_of, bind at 1, call. destruct (list_call token w) as [[err|[items next]] w1].
  { simpl. exists (inl err). by repeat split. }
  unfold bind. pose proof (each_spec items w1) as He. destruct (each visit items w1) as [[err w2] t].
  destruct He as (Hl & Hf & Hw).
  destruct err as [err|]; simpl; exists (inr (items, next)).
  all: rewrite app_nil_r.
  all: rewrite Hl.
  - done.
  - split_and!; [done..|]. exists items. split; [done|]. intros x Hx Hwx.
    destruct (Hw eq_refl x Hx Hwx) as [d Hd]. exists d. set_solver.
Qed.

(** What walking the pages leaves behind, from any token on. *)
Lemma walk_spec source region pages token w :
  let '(err, _, t) := walk_loop pages source region (page_of list_call visit) token w in
  Forall2 issues (t ≫= owed) (emitted t)
  ∧ follows token (listed t) ∧ (length (listed t) <= pages)%nat
  ∧ (err = None →
     ((complete (listed t) ∧ ∀ x, x ∈ listed_items t → wanted visit x = true → ∃ d, Described x d ∈ t)
      ∨ ∃ why, Truncation source region why ∈ t)).
Proof using Type P.
  revert token w. induction pages as [|pages IH]; intros token w; simpl walk_loop.
  { unfold bind, PollTruncated, tell, ret. cbn -[MaxPages Itoa]. split_and!; [constructor|done|lia|].
    intros _. right. eexists. left. }
  unfold bind at 1, ask. destruct (ctx_Err w) as [[err|] w1]; simpl.
  { split_and!; [constructor|done|lia|done]. }
  unfold bind at 1. pose proof (page_spec token w1) as Hp.
  destruct (page_of list_call visit token w1) as [[out w2] t1]. destruct Hp as (ans & Hl & Hf & Hout).
  destruct out as [err|next]; simpl.
  { rewrite app_nil_r, Hl. split_and!; [done|destruct ans as [?|[? ?]]; simpl; auto|simpl; lia|done]. }
  destruct Hout as (items & -> & Hw).
  assert (Hi : listed_items t1 = items) by (unfold listed_items; rewrite Hl; simpl; by rewrite app_nil_r).
  destruct (streq (ToString next) "") eqn:Hn; simpl.
  { rewrite app_nil_r, Hl. apply streq_true in Hn. split_and!; [done|simpl; auto|simpl; lia|].
    intros _. left. split; [by exists token, items, next|by rewrite Hi]. }
  destruct (same_token token (ToString next)) eqn:Hs; simpl.
  { rewrite listed_app, emitted_app, bind_app, Hl. simpl. rewrite !app_nil_r.
    split_and!; [done|done|by left|lia|]. intros _. right. eexists. apply elem_of_app. right. left. }
  specialize (IH next w2). destruct (walk_loop pages source region (page_of list_call visit) next w2) as [[err w3] t2].
  destruct IH as (IH1 & IH2 & IH3 & IH4). rewrite listed_app, emitted_app, bind_app, Hl. simpl.
  split; [by apply Forall2_app|]. apply streq_false in Hn. split; [by split; [|right]|]. split; [lia|].
  intros He. destruct (IH4 He) as [[Hc Ha]|[why Hwhy]]; [left|right; exists why; set_solver]. split.
  - destruct Hc as (tok & its & nx & Hlast & Hnx). exists tok, its, nx. split; [|done].
    change (last ([(token, inr (items, next))] ++ listed t2) = Some (tok, inr (its, nx))).
    by rewrite last_app, Hlast.
  - intros x. rewrite listed_items_app, Hi, elem_of_app. intros [Hx|Hx] Hwx.
    + destruct (Hw x Hx Hwx) as [d Hd]. exists d. set_solver.
    + destruct (Ha x Hx Hwx) as [d Hd]. exists d. set_solver.
Qed.

(** C24: a poll of a paged service is complete or says that it is not. It makes one request per
    page, following the tokens, at most 1000; the alerts it emits are exactly the verdicts owed
    for the answers it got, in order; and either the last page was reached and every wanted
    resource on any page was asked about, or a poll error or a truncation is recorded for the
    region, or the controller is shutting down. *)
Theorem poll_accounts source region w :
  let '(_, _, t) := forEachPage source region (page_of list_call visit) w in
  Forall2 issues (t ≫= owed) (emitted t)
  ∧ follows None (listed t) ∧ (length (listed t) <= 1000)%nat
  ∧ ((complete (listed t) ∧ ∀ x, x ∈ listed_items t → wanted visit x = true → ∃ d, Described x d ∈ t)
     ∨ gap source region t
     ∨ ∃ err, (walkPages source region (page_of list_call visit) w).1.1 = Some err ∧ IsCanceled err = true).
Proof using Type P.
  unfold forEachPage, bind. pose proof (walk_spec source region MaxPages None w) as Hs. fold (walkPages source region (page_of list_call visit)) in Hs.
  destruct (walkPages source region (page_of list_call visit) w) as [[err w1] t] eqn:E.
  destruct Hs as (H1 & H2 & H3 & H4).
  destruct err as [err|]; simpl.
  - destruct (IsCanceled err) eqn:Hc; simpl.
    + rewrite app_nil_r. split_and!; [done..|]. right; right. exists err. done.
    + rewrite emitted_app, listed_app, bind_app. simpl. rewrite !app_nil_r. split_and!; [done..|].
      right; left. apply gap_app_r. left. exists err. set_solver.
  - rewrite app_nil_r. split_and!; [done..|]. destruct (H4 eq_refl) as [Hx|Hx]; [by left|right; left; by right].
Qed.
End paged.

(** ** List sources *)

Section list_source.
Context `{Runtime} {N D : Type} (name : string) (eval : string → N → list verdict).

(** A lister emits nothing itself. *)
Definition quiet {A} (m : @M _ N D A) : Prop := owes (λ _ _, []) [] m.

Lemma quiet_spec {A} (m : @M _ N D A) w : quiet m → listed (m w).2 = [] ∧ emitted (m w).2 = [].
Proof.
  intros Hm. destruct (Hm w) as [Hl Hf]. split; [done|]. simpl in Hf.
  assert (E : ∀ l : list (N * D), l ≫= (λ _, []) = ([] : list verdict)) by (induction l as [|x l IH]; [done|by rewrite bind_cons, IH]).
  rewrite E in Hf. by inversion Hf.
Qed.

(** The verdicts owed for the listers' answers. *)
Definition list_owed (t : list (effect N D)) : list verdict :=
  listed t ≫= λ ans, page_items ans ≫= eval (ToString ans.1).

(** The poll ended at a check that found its context done. *)
Definition cut_short (w' : world) : Prop := ∃ w err, ctx_Err w = (Some err, w').

Lemma list_owed_app t t' : list_owed (t ++ t') = list_owed t ++ list_owed t'.
Proof. unfold list_owed. by rewrite listed_app, bind_app. Qed.

Lemma list_items_spec scope items w :
  let '(go, w', t) := list_items (D := D) eval scope items w in
  only_emits t ∧ ∃ vs, Forall2 issues vs (emitted t)
    ∧ if (go : bool) then vs = items ≫= eval scope else vs `prefix_of` (items ≫= eval scope) ∧ cut_short w'.
Proof.
  revert w. induction items as [|x items IH]; intros w; simpl list_items.
  { split; [constructor|]. by exists []. }
  rewrite bind_cons. unfold bind at 1, ask. destruct (ctx_Err w) as [[err|] w1] eqn:E; simpl.
  { split; [constructor|]. exists []. split; [constructor|]. split; [apply prefix_nil|by exists w, err]. }
  unfold bind. pose proof (emits_spec (N := N) (D := D) (eval scope x) w1) as He.
  destruct (emits (eval scope x) w1) as [[u w2] t1]. destruct He as [Ho Hf]. specialize (IH w2).
  destruct (list_items eval scope items w2) as [[go w3] t2]. destruct IH as (Ho2 & vs & Hf2 & Hgo). simpl.
  split; [by apply Forall_app|]. exists (eval scope x ++ vs). rewrite emitted_app. split; [by apply Forall2_app|].
  destruct go; [by subst|]. destruct Hgo as [Hp Hc]. split; [by apply prefix_app|done].
Qed.

(** Errors of listers are recorded, and the alerts are those owed, for all scopes or, cut
    short, for a prefix. *)
Definition recorded (t : list (effect N D)) : Prop :=
  ∀ scope err, (Some scope, inl err) ∈ listed t → IsCanceled err = false → PollError name scope err ∈ t.
Definition covered (scopes : list (Scoped N D)) (w' : world) (t : list (effect N D)) : Prop :=
  ∃ vs, Forall2 issues vs (emitted t)
    ∧ ((vs = list_owed t ∧ (listed t).*1 = (λ sc, Some sc.(sc_Scope)) <$> scopes)
       ∨ (vs `prefix_of` list_owed t ∧ (listed t).*1 `prefix_of` ((λ sc, Some sc.(sc_Scope)) <$> scopes) ∧ cut_short w')).

Definition answer_of (out : error + list N) : error + list N * option string :=
  match out with inl err => inl err | inr items => inr (items, None) end.
Definition answer_verdicts (scope : string) (out : error + list N) : list verdict :=
  match out with inl _ => [] | inr items => items ≫= eval scope end.

Lemma scope_trace sc out t1 t2 t3 :
  listed t1 = [] → listed t2 = [] → let t := t1 ++ Listed (Some sc.(sc_Scope)) (answer_of out) :: t2 ++ t3 in
  listed t = (Some sc.(sc_Scope), answer_of out) :: listed t3 ∧ list_owed t = answer_verdicts (@sc_Scope _ N D sc) out ++ list_owed t3.
Proof.
  intros H1 H2 t. assert (E : listed t = (Some sc.(sc_Scope), answer_of out) :: listed t3).
  { unfold t. rewrite listed_app, H1. simpl. by rewrite listed_app, H2. }
  split; [done|]. unfold list_owed. rewrite E. simpl. by destruct out.
Qed.

(** A scope that was polled to its end, before the others. *)
Lemma covered_cons sc scopes out t1 t2 t3 w' :
  listed t1 = [] → emitted t1 = [] → listed t2 = [] →
  Forall2 issues (answer_verdicts sc.(sc_Scope) out) (emitted t2) →
  (∀ err, out = inl err → IsCanceled err = false → PollError name sc.(sc_Scope) err ∈ t2) →
  recorded t3 ∧ covered scopes w' t3 →
  let t := t1 ++ Listed (Some sc.(sc_Scope)) (answer_of out) :: t2 ++ t3 in recorded t ∧ covered (sc :: scopes) w' t.
Proof.
  intros H1 He1 H2 Hf2 Herr (Hrec & vs & Hf & Hcase) t. destruct (scope_trace sc out t1 t2 t3 H1 H2) as [El Eo]. fold t in El, Eo.
  split.
  - intros scope err. rewrite El. intros [Heq|Hin]%elem_of_cons Hc.
    + destruct out; simplify_eq/=. specialize (Herr _ eq_refl Hc). set_solver.
    + specialize (Hrec _ _ Hin Hc). set_solver.
  - exists (answer_verdicts sc.(sc_Scope) out ++ vs). unfold t. rewrite emitted_app, He1. simpl. fold t. rewrite emitted_app, El, Eo.
    split; [by apply Forall2_app|]. destruct Hcase as [[-> Hs]|(Hp & Hs & Hc)]; [left; split; [done|by rewrite !fmap_cons, Hs]|right].
    split_and!; [by apply prefix_app|by apply prefix_cons|done].
Qed.

(** C25: a poll of a list source covers every scope, or the context ended. It asks the scopes
    in order and its alerts are exactly the verdicts owed for the items listed; an error of a
    scope's lister is recorded for that scope, unless it is a cancellation, and the others are
    still polled. If the context ends at a check between items or scopes, a prefix of that has
    happened. *)
Theorem list_poll_accounts scopes w :
  Forall (λ sc, quiet sc.(sc_List)) scopes →
  let '(_, w', t) := list_Poll name scopes eval w in recorded t ∧ covered scopes w' t.
Proof.
  revert w. induction scopes as [|sc scopes IH]; intros w Hq; simpl list_Poll.
  { split; [intros scope err Hin; by apply elem_of_nil in Hin|]. exists []. split; [constructor|by left]. }
  apply Forall_cons in Hq as [Hsc Hq]. unfold bind at 1, ask. destruct (ctx_Err w) as [[err|] w1] eqn:E; simpl.
  { split; [intros scope err' Hin; by apply elem_of_nil in Hin|]. exists []. split; [constructor|]. right.
    split_and!; [done|apply prefix_nil|by exists w, err]. }
  unfold bind at 1. destruct (quiet_spec _ w1 Hsc) as [Hl He]. destruct (sc_List sc w1) as [[out w2] t1]. simpl in Hl, He.
  unfold bind at 1, tell. destruct out as [err|items]; unfold bind.
  - destruct (IsCanceled err) eqn:Hc; simpl; unfold PollErr, ret, tell; rewrite ?Hc; [specialize (IH w2 Hq)|specialize (IH w2 Hq)].
    all: destruct (list_Poll name scopes eval w2) as [[u' w4] t3].
    + apply (covered_cons sc scopes (inl err) t1 [] t3 w4); try done. intros err' [= ->] Hc'. congruence.
    + apply (covered_cons sc scopes (inl err) t1 [PollError name sc.(sc_Scope) err] t3 w4); try done.
      intros err' [= ->] _. left.
  - pose proof (list_items_spec sc.(sc_Scope) items w2) as Hi.
    destruct (list_items eval (sc_Scope sc) items w2) as [[go w3] t2]. destruct Hi as (Hoe & vs1 & Hf1 & Hgo).
    destruct (only_emits_quiet t2 Hoe) as [Hl2 _]. destruct go.
    + subst vs1. specialize (IH w3 Hq). destruct (list_Poll name scopes eval w3) as [[u' w4] t3].
      by apply (covered_cons sc scopes (inr items) t1 t2 t3 w4).
    + simpl. destruct (scope_trace sc (inr items) t1 t2 [] Hl Hl2) as [El Eo]. simpl in El, Eo. destruct Hgo as [Hp Hcut]. split.
      * intros scope err. rewrite El. intros [Heq|Hin]%elem_of_cons _; [done|by apply elem_of_nil in Hin].
      * exists vs1. rewrite El, Eo, emitted_app, He. simpl. rewrite !app_nil_r. split; [done|right].
        split_and!; [done|apply prefix_cons, prefix_nil|done].
Qed.
End list_source.

(** ** Wiring

    A [Source] hides the types of its answers: its poll leaves the emitted alerts and the
    recorded gaps. [src_State] is what the source keeps between polls. A poll is a relation
    because one source polls its regions concurrently. *)
Record Source `{Runtime} := MkSource {
  Name : string;
  src_State : Type;
  src_init : src_State;
  Poll : src_State → world → src_State → world → list (effect Empty_set Empty_set) → Prop;
}.
Arguments MkSource {_} _ _ _ _.

(** aws/helpers.go; [Cfg] is an SDK config. *)
Record regionConfig {Cfg : Type} := MkRegionConfig { cf_region : string; cf_cfg : Cfg }.
Arguments regionConfig Cfg : clear implicits.
Arguments MkRegionConfig {Cfg} _ _.

Section wiring.
Context `{Runtime}.

Definition reported {N D} (e : effect N D) : option (effect Empty_set Empty_set) :=
  match e with
  | Emitted a => Some (Emitted a)
  | PollError source scope err => Some (PollError source scope err)
  | Truncation source scope why => Some (Truncation source scope why)
  | _ => None
  end.

Definition stateless {N D} (name : string) (poll : @M _ N D unit) : Source :=
  MkSource name unit tt (λ _ w _ w' t, ∃ t', poll w = (tt, w', t') ∧ t = omap reported t').

Definition NewListSource {N D} (name : string) (scopes : list (Scoped N D)) (eval : string → N → list verdict) : Source :=
  stateless name (list_Poll name scopes eval).

Definition regionalSource {Cfg C S} (enabled : bool) (regions : list (regionConfig Cfg)) (newClient : Cfg → C)
    (newSource : list (regionClient C) → S) : option S :=
  if negb enabled || (length regions =? 0)%nat then None
  else Some (newSource ((λ rc, MkRegionClient rc.(cf_region) (newClient rc.(cf_cfg))) <$> regions)).

Definition globalScope : string := "global".

(** [regions[0]] is in range: an empty list returned before. *)
Definition globalSource {Cfg S} (enabled : bool) (regions : list (regionConfig Cfg)) (newSource : Cfg → S) : option S :=
  if negb enabled then None else
  match regions with [] => None | rc :: _ => Some (newSource rc.(cf_cfg)) end.

(** azure/helpers.go *)
Fixpoint sub_scopes {E N D} (newLister : string → E + @M _ N D (error + list N)) (subs : list string)
    (scopes : list (Scoped N D)) : E + list (Scoped N D) :=
  match subs with
  | [] => inr scopes
  | sub :: subs =>
    match newLister sub with
    | inl err => inl err
    | inr list => sub_scopes newLister subs (scopes ++ [MkScoped sub list])
    end
  end.

Definition buildSub {E N D S} (enabled : bool) (subs : list string) (newLister : string → E + @M _ N D (error + list N))
    (newSource : list (Scoped N D) → S) : E + option S :=
  if negb enabled || (length subs =? 0)%nat then inr None
  else match sub_scopes newLister subs [] with inl err => inl err | inr scopes => inr (Some (newSource scopes)) end.

Definition azure_clientErr (service subscription : string) (err : error) : error :=
  Errorf ("azure: " +:+ service +:+ " client for subscription " +:+ subscription) err.

(** gcp/helpers.go *)
Definition perProject {N D} (projects : list string) (list_call : string → @M _ N D (error + list N)) : list (Scoped N D) :=
  (λ project, MkScoped project (list_call project)) <$> projects.

Definition buildProject {E S} (enabled : bool) (projects : list string) (newSource : E + option S) : E + option S :=
  if negb enabled || (length projects =? 0)%nat then inr None else newSource.

Definition gcp_clientErr (service : string) (err : error) : error := Errorf ("gcp: " +:+ service +:+ " client") err.

End wiring.

(** provider.go: the registry. [Cfg] is the configuration. *)
Record Bound {Cfg S E : Type} := MkBound { Enabled : bool; PollSeconds : Z; Build : E + list S }.
Arguments Bound : clear implicits.
Arguments MkBound {_ _ _} _ _ _.
Record Provider {Cfg S E : Type} := MkProvider { prov_Name : string; Bind : Cfg → Bound Cfg S E }.
Arguments Provider : clear implicits.
Arguments MkProvider {_ _ _} _ _.

Definition RegisterProvider {Cfg S E} (p : Provider Cfg S E) (providers : list (Provider Cfg S E)) : list (Provider Cfg S E) :=
  providers ++ [p].

(** ** A small world for examples: a clock in seconds, and a context that ends at [deadline]. *)
Module Toy.
Definition runtime (deadline : nat) : Runtime := {|
  world := nat;
  Now w := (Z.of_nat w * Second, w);
  ctx_Err w := (if (w <? deadline)%nat then None else Some DeadlineExceeded, w);
  lim_Wait w := (None, S w);
|}.
End Toy.
