(* ===== verification/AwsEval.v ===== *)
(** * internal/sources/aws: what each service's state means

    The evaluate functions of the aws package: one API object in, the calls of [emitFiring]
    and [emitResolve] out. SDK records carry the fields that are read; [*string] is [option
    string]. The SDK's enum constants are the class [AwsTypes]. [Evaluator] is the contract
    the store relies on: which verdict a resource gets depends on its state, but for which
    identity it gets one does not. *)
From S2P Require Import Prelude GoStd AlertModel Sources.

(** ** The contract of an evaluator *)

Abbreviation identity := (KindT * string * string)%type (only parsing).

Definition verdict_id (v : verdict) : identity :=
  match v with Firing k scope name _ _ _ _ _ => (k, scope, name) | Resolve k scope name => (k, scope, name) end.

(** A known kind; a firing verdict has a valid severity and a reason and names its provider. *)
Definition sound_verdict (provider : string) (v : verdict) : bool :=
  match v with
  | Firing k _ _ reason _ sev labels _ =>
    Kind_valid k && Severity_Valid sev && negb (streq reason "") && bool_decide (labels !! "provider" = Some provider)
  | Resolve k _ _ => Kind_valid k
  end.

(** [ids] is what identifies an item. Every evaluation of it yields one verdict for each of
    its identities, in order, firing or resolve. *)
Class Evaluator {N : Type} (provider : string) (ids : string → N → list identity) (eval : string → N → list verdict) := {
  eval_identities scope x : verdict_id <$> eval scope x = ids scope x;
  eval_sound scope x : forallb (sound_verdict provider) (eval scope x) = true;
}.

(** ** aws.go *)

Definition provider : string := "aws".

Definition emitFiring (k : KindT) (region name reason summary : string) (sev : Severity) (details : gmap string string) : list verdict :=
  [Firing k region name reason summary sev {["provider" := provider; "region" := region]} details].

Definition emitResolve (k : KindT) (region name : string) : list verdict := [Resolve k region name].

(** The constants of the SDK's [types] packages. *)
Class AwsTypes := {
  ClusterStatusActive : string; ClusterStatusFailed : string; ClusterStatusDeleting : string;
  NodegroupStatusActive : string; NodegroupStatusCreateFailed : string; NodegroupStatusDeleteFailed : string;
  NodegroupStatusDegraded : string;
  StateValueAlarm : string; AlarmTypeMetricAlarm : string; AlarmTypeCompositeAlarm : string;
  SummaryStatusImpaired : string; SummaryStatusNotApplicable : string;
  LoadBalancerStateEnumActive : string; LoadBalancerStateEnumFailed : string; LoadBalancerStateEnumActiveImpaired : string;
  TargetHealthStateEnumHealthy : string; TargetHealthStateEnumUnhealthy : string;
  TableStatusInaccessibleEncryptionCredentials : string; TableStatusArchived : string;
  LifecycleStateInService : string;
  KeyManagerTypeCustomer : string; KeyStateEnabled : string; KeyStatePendingDeletion : string;
  KeyStatePendingReplicaDeletion : string; KeyStateUnavailable : string; KeyStateDisabled : string;
  VolumeStatusInfoStatusOk : string; VolumeStatusInfoStatusImpaired : string; VolumeStatusInfoStatusInsufficientData : string;
  NatGatewayStateFailed : string;
  LifeCycleStateError : string;
  CertificateStatusExpired : string; CertificateStatusRevoked : string; CertificateStatusFailed : string;
  CertificateStatusValidationTimedOut : string; CertificateStatusIssued : string; KeyAlgorithm_Values : list string;
  TelemetryStatusDown : string; VpnStateAvailable : string;
}.

(** The documented values, for examples. *)
Definition documented_values : AwsTypes := {|
  ClusterStatusActive := "ACTIVE"; ClusterStatusFailed := "FAILED"; ClusterStatusDeleting := "DELETING";
  NodegroupStatusActive := "ACTIVE"; NodegroupStatusCreateFailed := "CREATE_FAILED"; NodegroupStatusDeleteFailed := "DELETE_FAILED";
  NodegroupStatusDegraded := "DEGRADED";
  StateValueAlarm := "ALARM"; AlarmTypeMetricAlarm := "MetricAlarm"; AlarmTypeCompositeAlarm := "CompositeAlarm";
  SummaryStatusImpaired := "impaired"; SummaryStatusNotApplicable := "not-applicable";
  LoadBalancerStateEnumActive := "active"; LoadBalancerStateEnumFailed := "failed"; LoadBalancerStateEnumActiveImpaired := "active_impaired";
  TargetHealthStateEnumHealthy := "healthy"; TargetHealthStateEnumUnhealthy := "unhealthy";
  TableStatusInaccessibleEncryptionCredentials := "INACCESSIBLE_ENCRYPTION_CREDENTIALS"; TableStatusArchived := "ARCHIVED";
  LifecycleStateInService := "InService";
  KeyManagerTypeCustomer := "CUSTOMER"; KeyStateEnabled := "Enabled"; KeyStatePendingDeletion := "PendingDeletion";
  KeyStatePendingReplicaDeletion := "PendingReplicaDeletion"; KeyStateUnavailable := "Unavailable"; KeyStateDisabled := "Disabled";
  VolumeStatusInfoStatusOk := "ok"; VolumeStatusInfoStatusImpaired := "impaired"; VolumeStatusInfoStatusInsufficientData := "insufficient-data";
  NatGatewayStateFailed := "failed"; LifeCycleStateError := "error";
  CertificateStatusExpired := "EXPIRED"; CertificateStatusRevoked := "REVOKED"; CertificateStatusFailed := "FAILED";
  CertificateStatusValidationTimedOut := "VALIDATION_TIMED_OUT"; CertificateStatusIssued := "ISSUED"; KeyAlgorithm_Values := ["RSA_2048"];
  TelemetryStatusDown := "DOWN"; VpnStateAvailable := "available";
|}.

Section evaluators.
Context `{AwsTypes}.

(** ** eks.go *)

Record Issue := MkIssue { is_Code : string; is_Message : option string }.
Record Nodegroup := MkNodegroup { ng_Name : option string; ng_Status : string; ng_Issues : option (list Issue) }.
Record Cluster := MkCluster { cl_Name : option string; cl_Status : string; cl_Issues : option (list Issue) }.

Definition issueSummary (issues : list Issue) : string :=
  Join (issues ≫= λ i,
    let code := i.(is_Code) in let msg := ToString i.(is_Message) in
    if negb (streq code "") && negb (streq msg "") then [code +:+ ": " +:+ msg]
    else if negb (streq code "") then [code]
    else if negb (streq msg "") then [msg] else []) "; ".

Definition evaluateNodegroup (region cluster : string) (ng : Nodegroup) : list verdict :=
  let name := ToString ng.(ng_Name) in
  if streq name "" then []
  else
    let id := cluster +:+ "/" +:+ name in
    let status := ng.(ng_Status) in
    let details := {["cluster" := cluster; "status" := status]} in
    if streq status NodegroupStatusActive then
      let issues := default [] ng.(ng_Issues) in
      if (0 <? length issues)%nat then
        let summary := issueSummary issues in
        emitFiring KindEKSNodegroup region id "EKSNodegroupHealthIssue"
          ("EKS node group " +:+ id +:+ " reports health issues: " +:+ summary) SeverityWarning
          {["cluster" := cluster; "status" := status; "issues" := summary]}
      else emitResolve KindEKSNodegroup region id
    else if streq status NodegroupStatusCreateFailed || streq status NodegroupStatusDeleteFailed || streq status NodegroupStatusDegraded then
      emitFiring KindEKSNodegroup region id "EKSNodegroupUnhealthy"
        ("EKS node group " +:+ id +:+ " status is " +:+ status) SeverityCritical details
    else
      emitFiring KindEKSNodegroup region id "EKSNodegroupNotActive"
        ("EKS node group " +:+ id +:+ " is not active (status " +:+ status +:+ ")") SeverityWarning details.

Definition evaluateEKSCluster (region : string) (c : Cluster) : list verdict :=
  let name := ToString c.(cl_Name) in
  if streq name "" then []
  else
    let status := c.(cl_Status) in
    if streq status ClusterStatusActive then
      let issues := default [] c.(cl_Issues) in
      if (0 <? length issues)%nat then
        let summary := issueSummary issues in
        emitFiring KindEKSCluster region name "EKSClusterHealthIssue"
          ("EKS cluster " +:+ name +:+ " reports health issues: " +:+ summary) SeverityWarning
          {["status" := status; "issues" := summary]}
      else emitResolve KindEKSCluster region name
    else if streq status ClusterStatusFailed then
      emitFiring KindEKSCluster region name "EKSClusterFailed"
        ("EKS cluster " +:+ name +:+ " is in FAILED state") SeverityCritical {["status" := status]}
    else if streq status ClusterStatusDeleting then
      emitFiring KindEKSCluster region name "EKSClusterDeleting"
        ("EKS cluster " +:+ name +:+ " is being deleted") SeverityCritical {["status" := status]}
    else
      emitFiring KindEKSCluster region name "EKSClusterNotActive"
        ("EKS cluster " +:+ name +:+ " is not ACTIVE (status " +:+ status +:+ ")") SeverityWarning {["status" := status]}.

(** ** cloudwatch.go *)

Record Alarm := MkAlarm { al_Name : option string; al_State : string; al_Reason : option string;
                          al_Metric : option string; al_Namespace : option string }.

Definition evaluateAlarm (region name state stateReason : string) (details : gmap string string) : list verdict :=
  if streq name "" then []
  else if streq state StateValueAlarm then
    let details := <["stateReason" := stateReason]> details in
    emitFiring KindCloudWatchAlarm region name "CloudWatchAlarm"
      ("CloudWatch alarm " +:+ name +:+ " is in ALARM: " +:+ stateReason) SeverityWarning details
  else emitResolve KindCloudWatchAlarm region name.

(** ** ec2.go *)

Record InstanceStatus := MkInstanceStatus { in_Id : option string; in_System : option string; in_Instance : option string; in_AZ : option string }.

Definition summaryStatus (s : option string) : string := default SummaryStatusNotApplicable s.

Definition evaluateInstance (region : string) (st : InstanceStatus) : list verdict :=
  let id := ToString st.(in_Id) in
  if streq id "" then []
  else
    let sys := summaryStatus st.(in_System) in
    let inst := summaryStatus st.(in_Instance) in
    let impaired := (if streq sys SummaryStatusImpaired then ["system"] else [])
                    ++ (if streq inst SummaryStatusImpaired then ["instance"] else []) in
    if (0 <? length impaired)%nat then
      emitFiring KindEC2Instance region id "EC2StatusCheckFailed"
        ("EC2 instance " +:+ id +:+ " status check impaired: " +:+ Join impaired ", ") SeverityCritical
        {["az" := ToString st.(in_AZ); "systemStatus" := sys; "instanceStatus" := inst]}
    else emitResolve KindEC2Instance region id.

(** ** elbv2.go. The state of a load balancer is a code with a reason. *)

Record LoadBalancer := MkLoadBalancer { lb_Name : option string; lb_State : option (string * option string); lb_Type : string }.

Definition evaluateLoadBalancer (region : string) (lb : LoadBalancer) : list verdict :=
  let name := ToString lb.(lb_Name) in
  if streq name "" then []
  else
    let '(code, reason) := match lb.(lb_State) with
                           | Some (code, reason) => (code, ToString reason)
                           | None => (LoadBalancerStateEnumActive, "")
                           end in
    let details := {["lbType" := lb.(lb_Type); "stateReason" := reason]} in
    if streq code LoadBalancerStateEnumActive then emitResolve KindLoadBalancer region name
    else if streq code LoadBalancerStateEnumFailed then
      emitFiring KindLoadBalancer region name "LoadBalancerFailed"
        ("Load balancer " +:+ name +:+ " is in FAILED state") SeverityCritical details
    else if streq code LoadBalancerStateEnumActiveImpaired then
      emitFiring KindLoadBalancer region name "LoadBalancerImpaired"
        ("Load balancer " +:+ name +:+ " is active_impaired (some zones not functioning)") SeverityCritical details
    else
      emitFiring KindLoadBalancer region name "LoadBalancerNotActive"
        ("Load balancer " +:+ name +:+ " is not active (state " +:+ code +:+ ")") SeverityWarning details.

(** The registered targets, [None] without a health. *)
Fixpoint count_targets (descs : list (option string)) (healthy unhealthy : Z) : Z * Z :=
  match descs with
  | [] => (healthy, unhealthy)
  | None :: descs => count_targets descs healthy unhealthy
  | Some state :: descs =>
    if streq state TargetHealthStateEnumHealthy then count_targets descs (healthy + 1) unhealthy
    else if streq state TargetHealthStateEnumUnhealthy then count_targets descs healthy (unhealthy + 1)
    else count_targets descs healthy unhealthy
  end.

Definition evaluateTargetGroup (region name : string) (descs : list (option string)) : list verdict :=
  let '(healthy, unhealthy) := count_targets descs 0 0 in
  let total := Z.of_nat (length descs) in
  let details := {["healthy" := Itoa healthy; "unhealthy" := Itoa unhealthy; "total" := Itoa total]} in
  if (0 <? unhealthy) && (healthy =? 0) then
    emitFiring KindTargetGroup region name "TargetGroupNoHealthyTargets"
      ("Target group " +:+ name +:+ " has no healthy targets (" +:+ Itoa unhealthy +:+ " unhealthy)") SeverityCritical details
  else if 0 <? unhealthy then
    emitFiring KindTargetGroup region name "TargetGroupDegraded"
      ("Target group " +:+ name +:+ " has " +:+ Itoa unhealthy +:+ " unhealthy of " +:+ Itoa total +:+ " targets") SeverityWarning details
  else emitResolve KindTargetGroup region name.

(** ** rds.go and aurora.go *)

Record DBInstance := MkDBInstance { db_Id : option string; db_Status : option string; db_Engine : option string }.

Definition rdsCriticalStatuses : gset string :=
  {["failed"; "storage-full"; "incompatible-restore"; "incompatible-network"; "incompatible-parameters";
    "incompatible-option-group"; "restore-error"; "inaccessible-encryption-credentials"]}.
Definition rdsSeverity (status : string) : Severity * bool := dbStatusSeverity status rdsCriticalStatuses.

Definition evaluateDBInstance (region : string) (db : DBInstance) : list verdict :=
  let id := ToString db.(db_Id) in
  if streq id "" then []
  else
    let status := ToString db.(db_Status) in
    let '(sev, firing) := rdsSeverity status in
    if negb firing then emitResolve KindRDSInstance region id
    else emitFiring KindRDSInstance region id "RDSInstanceUnhealthy" ("RDS instance " +:+ id +:+ " status is " +:+ status) sev
           {["status" := status; "engine" := ToString db.(db_Engine)]}.

Definition auroraCriticalStatuses : gset string :=
  {["failed"; "storage-failure"; "inaccessible-encryption-credentials"; "incompatible-parameters";
    "incompatible-network"; "migration-failed"]}.
Definition auroraSeverity (status : string) : Severity * bool := dbStatusSeverity status auroraCriticalStatuses.

Definition evaluateDBCluster (region : string) (c : DBInstance) : list verdict :=
  let id := ToString c.(db_Id) in
  if streq id "" then []
  else
    let status := ToString c.(db_Status) in
    let '(sev, firing) := auroraSeverity status in
    if negb firing then emitResolve KindAuroraCluster region id
    else emitFiring KindAuroraCluster region id "AuroraClusterUnhealthy" ("Aurora cluster " +:+ id +:+ " status is " +:+ status) sev
           {["status" := status; "engine" := ToString c.(db_Engine)]}.

(** ** dynamodb.go, elasticache.go *)

Definition evaluateDynamoTable (region name status : string) : list verdict :=
  if streq name "" then []
  else if streq status TableStatusInaccessibleEncryptionCredentials then
    emitFiring KindDynamoDBTable region name "DynamoDBTableInaccessible"
      ("DynamoDB table " +:+ name +:+ " cannot access its encryption credentials") SeverityCritical {["status" := status]}
  else if streq status TableStatusArchived then
    emitFiring KindDynamoDBTable region name "DynamoDBTableArchived"
      ("DynamoDB table " +:+ name +:+ " is archived") SeverityWarning {["status" := status]}
  else emitResolve KindDynamoDBTable region name.

Record CacheCluster := MkCacheCluster { cc_Id : option string; cc_Status : option string; cc_Engine : option string }.

Definition evaluateCacheCluster (region id status engine : string) : list verdict :=
  if streq id "" then []
  else if streq status "incompatible-network" || streq status "restore-failed" then
    emitFiring KindElastiCacheCluster region id "ElastiCacheClusterUnhealthy"
      ("ElastiCache cluster " +:+ id +:+ " status is " +:+ status) SeverityCritical {["status" := status; "engine" := engine]}
  else emitResolve KindElastiCacheCluster region id.

(** ** asg.go. An instance is its health status and lifecycle state. *)

Record AutoScalingGroup := MkASG { as_Name : option string; as_Desired : option Z; as_Instances : list (option string * string) }.

Definition in_service (i : option string * string) : bool :=
  streq (ToString i.1) "Healthy" && streq i.2 LifecycleStateInService.

Definition evaluateASG (region : string) (g : AutoScalingGroup) : list verdict :=
  let name := ToString g.(as_Name) in
  if streq name "" then []
  else
    let desired := default 0 g.(as_Desired) in
    let healthy := Z.of_nat (length (List.filter in_service g.(as_Instances))) in
    let details := {["desired" := Itoa desired; "healthyInService" := Itoa healthy]} in
    if (0 <? desired) && (healthy =? 0) then
      emitFiring KindASG region name "ASGNoHealthyCapacity"
        ("Auto Scaling group " +:+ name +:+ " has no healthy in-service instances") SeverityCritical details
    else if healthy <? desired then
      emitFiring KindASG region name "ASGCapacityShortfall"
        ("Auto Scaling group " +:+ name +:+ " has " +:+ Itoa healthy +:+ " healthy of " +:+ Itoa desired +:+ " desired") SeverityWarning details
    else emitResolve KindASG region name.

(** ** kms.go *)

Record KeyMetadata := MkKeyMetadata { km_Id : option string; km_Manager : string; km_State : string }.

Definition evaluateKMSKey (region : string) (md : KeyMetadata) : list verdict :=
  let id := ToString md.(km_Id) in
  if streq id "" || negb (streq md.(km_Manager) KeyManagerTypeCustomer) then []
  else
    let st := md.(km_State) in
    let details := {["keyState" := st]} in
    if streq st KeyStateEnabled then emitResolve KindKMSKey region id
    else if streq st KeyStatePendingDeletion || streq st KeyStatePendingReplicaDeletion then
      emitFiring KindKMSKey region id "KMSKeyPendingDeletion" ("KMS key " +:+ id +:+ " is scheduled for deletion") SeverityCritical details
    else if streq st KeyStateUnavailable then
      emitFiring KindKMSKey region id "KMSKeyUnavailable" ("KMS key " +:+ id +:+ " is unavailable") SeverityCritical details
    else if streq st KeyStateDisabled then
      emitFiring KindKMSKey region id "KMSKeyDisabled" ("KMS key " +:+ id +:+ " is disabled") SeverityWarning details
    else emitResolve KindKMSKey region id.

(** ** ebs.go, nat.go, efs.go *)

Record VolumeStatusItem := MkVolume { vs_Id : option string; vs_Status : option string; vs_AZ : option string }.

Definition evaluateVolume (region : string) (vs : VolumeStatusItem) : list verdict :=
  let id := ToString vs.(vs_Id) in
  if streq id "" then []
  else
    let status := default VolumeStatusInfoStatusOk vs.(vs_Status) in
    let details := {["az" := ToString vs.(vs_AZ); "status" := status]} in
    if streq status VolumeStatusInfoStatusImpaired then
      emitFiring KindEBSVolume region id "EBSVolumeImpaired" ("EBS volume " +:+ id +:+ " status check impaired") SeverityCritical details
    else if streq status VolumeStatusInfoStatusInsufficientData then
      emitFiring KindEBSVolume region id "EBSVolumeStatusUnknown" ("EBS volume " +:+ id +:+ " status is insufficient-data") SeverityWarning details
    else emitResolve KindEBSVolume region id.

Record NatGateway := MkNat { nat_Id : option string; nat_State : string; nat_Vpc : option string; nat_Subnet : option string;
                             nat_FailureCode : option string; nat_FailureMessage : option string }.

Definition evaluateNatGateway (region : string) (ng : NatGateway) : list verdict :=
  let id := ToString ng.(nat_Id) in
  if streq id "" then []
  else if streq ng.(nat_State) NatGatewayStateFailed then
    emitFiring KindNATGateway region id "NATGatewayFailed" ("NAT gateway " +:+ id +:+ " is in failed state") SeverityCritical
      {["state" := ng.(nat_State); "vpcId" := ToString ng.(nat_Vpc); "subnetId" := ToString ng.(nat_Subnet);
        "failureCode" := ToString ng.(nat_FailureCode); "failureMessage" := ToString ng.(nat_FailureMessage)]}
  else emitResolve KindNATGateway region id.

Record FileSystem := MkFileSystem { fs_Id : option string; fs_Name : option string; fs_State : string }.

Definition evaluateFileSystem (region : string) (fs : FileSystem) : list verdict :=
  let id := ToString fs.(fs_Id) in
  if streq id "" then []
  else if streq fs.(fs_State) LifeCycleStateError then
    emitFiring KindEFSFileSystem region id "EFSFileSystemError" ("EFS file system " +:+ id +:+ " is in error state") SeverityCritical
      {["name" := ToString fs.(fs_Name); "lifeCycleState" := fs.(fs_State)]}
  else emitResolve KindEFSFileSystem region id.

(** ** acm.go *)

Record CertificateSummary := MkCertificate { ce_Arn : option string; ce_Domain : option string; ce_Status : string; ce_NotAfter : option time }.

Definition acmExpiryWindow : duration := 30 * 24 * Hour.
Definition acmKeyTypes : list string := KeyAlgorithm_Values.

Definition evaluateCertificate `{TimeLib} (region : string) (now : time) (c : CertificateSummary) : list verdict :=
  let arn := ToString c.(ce_Arn) in
  if streq arn "" then []
  else
    let domain := ToString c.(ce_Domain) in
    let st := c.(ce_Status) in
    let details := {["domain" := domain; "status" := st]} in
    if streq st CertificateStatusExpired || streq st CertificateStatusRevoked
       || streq st CertificateStatusFailed || streq st CertificateStatusValidationTimedOut then
      emitFiring KindACMCertificate region arn "ACMCertificateUnusable" ("ACM certificate " +:+ domain +:+ " is " +:+ st) SeverityCritical details
    else
      match (if streq st CertificateStatusIssued then c.(ce_NotAfter) else None) with
      | Some notAfter =>
        if Sub notAfter now <? acmExpiryWindow then
          let details := <["notAfter" := FormatRFC3339 notAfter]> details in
          emitFiring KindACMCertificate region arn "ACMCertificateExpiringSoon"
            ("ACM certificate " +:+ domain +:+ " expires " +:+ FormatRFC3339 notAfter) SeverityWarning details
        else emitResolve KindACMCertificate region arn
      | None => emitResolve KindACMCertificate region arn
      end.

(** ** vpn.go. The telemetry is the status of each tunnel. *)

Record VpnConnection := MkVpn { vpn_Id : option string; vpn_State : string; vpn_Telemetry : list string }.

Definition evaluateVpnConnection (region : string) (vc : VpnConnection) : list verdict :=
  let id := ToString vc.(vpn_Id) in
  if streq id "" then []
  else
    let total := Z.of_nat (length vc.(vpn_Telemetry)) in
    let down := Z.of_nat (length (List.filter (λ st, streq st TelemetryStatusDown) vc.(vpn_Telemetry))) in
    if negb (streq vc.(vpn_State) VpnStateAvailable) || (total =? 0) || (down =? 0) then emitResolve KindVPNConnection region id
    else
      let details := {["state" := vc.(vpn_State); "tunnelsDown" := Itoa down; "tunnelsTotal" := Itoa total]} in
      if down =? total then
        emitFiring KindVPNConnection region id "VPNConnectionDown"
          ("VPN connection " +:+ id +:+ " has all " +:+ Itoa total +:+ " tunnels down") SeverityCritical details
      else
        emitFiring KindVPNConnection region id "VPNTunnelDegraded"
          ("VPN connection " +:+ id +:+ " has " +:+ Itoa down +:+ " of " +:+ Itoa total +:+ " tunnels down") SeverityWarning details.

(** ** s3.go: the classification; the two checks are in [AwsPoll]. *)

Definition FormatBool (b : bool) : string := if b then "true" else "false".

Definition evaluate_bucket (name : string) (isPublic blocked : bool) : list verdict :=
  if isPublic then
    emitFiring KindS3Bucket globalScope name "S3BucketPublic"
      ("S3 bucket " +:+ name +:+ " is publicly accessible via its bucket policy") SeverityCritical {["publicAccessBlock" := FormatBool blocked]}
  else if negb blocked then
    emitFiring KindS3Bucket globalScope name "S3BucketPublicAccessNotBlocked"
      ("S3 bucket " +:+ name +:+ " does not fully enable the public-access block") SeverityWarning {["publicAccessBlock" := "false"]}
  else emitResolve KindS3Bucket globalScope name.

(** ** route53.go: the observations of the checkers, [None] without a report or a status. *)

Definition evaluate_observations (id : string) (observations : list (option string)) : list verdict :=
  let reports := omap (λ o, o) observations in
  let total := Z.of_nat (length reports) in
  let failing := Z.of_nat (length (List.filter (λ s, HasPrefix s "Failure") reports)) in
  if (0 <? total) && (total <? failing * 2) then
    emitFiring KindRoute53HealthCheck globalScope id "Route53HealthCheckFailing"
      ("Route53 health check " +:+ id +:+ " failing from a majority of health checkers") SeverityCritical
      {["failingCheckers" := Itoa failing; "totalCheckers" := Itoa total]}
  else emitResolve KindRoute53HealthCheck globalScope id.

End evaluators.

(** ** Every evaluator keeps the contract *)

(** What is named gets one identity. *)
Definition named (k : KindT) (scope name : string) : list identity :=
  if streq name "" then [] else [(k, scope, name)].

(** A status that decides between the known severities. *)
Lemma dbStatusSeverity_valid status critical : Severity_Valid (dbStatusSeverity status critical).1 = true.
Proof. unfold dbStatusSeverity. destruct (decide _); [done|]. by destruct (streq status "stopped"). Qed.

Lemma sound_firing k region name reason summary sev details :
  Kind_valid k = true → Severity_Valid sev = true → reason ≠ "" →
  forallb (sound_verdict provider) (emitFiring k region name reason summary sev details) = true.
Proof.
  intros Hk Hs Hr%streq_false. simpl. by rewrite Hk, Hs, Hr.
Qed.
Lemma sound_resolve k region name : Kind_valid k = true → forallb (sound_verdict provider) (emitResolve k region name) = true.
Proof. intros Hk. simpl. by rewrite Hk. Qed.

(** Splits an evaluator into its branches, each a single verdict. *)
Ltac branches :=
  repeat match goal with
  | |- context [if ?b then _ else _] => destruct b
  | |- context [match ?o with Some _ => _ | None => _ end] => destruct o
  end.
Ltac sound_branch :=
  lazymatch goal with
  | |- _ <$> _ = _ => reflexivity
  | |- forallb _ [] = true => reflexivity
  | |- forallb _ (emitResolve _ _ _) = true => apply sound_resolve; vm_compute; reflexivity
  | |- forallb _ (emitFiring _ _ _ _ _ _ _) = true => apply sound_firing; [vm_compute; reflexivity|try assumption; vm_compute; reflexivity|discriminate]
  end.
Tactic Notation "evaluator" reference(f) :=
  split; intros scope x; unfold f, named; cbn beta zeta;
  [branches; reflexivity|branches; sound_branch].

Section contract.
Context `{AwsTypes}.

#[global] Instance evaluateEKSCluster_sound :
  Evaluator provider (λ s c, named KindEKSCluster s (ToString c.(cl_Name))) evaluateEKSCluster.
Proof. evaluator evaluateEKSCluster. Qed.
#[global] Instance evaluateNodegroup_sound :
  Evaluator provider (λ s cn, if streq (ToString cn.2.(ng_Name)) "" then [] else [(KindEKSNodegroup, s, cn.1 +:+ "/" +:+ ToString cn.2.(ng_Name))])
    (λ s cn, evaluateNodegroup s cn.1 cn.2).
Proof. evaluator evaluateNodegroup. Qed.
#[global] Instance evaluateAlarm_sound :
  Evaluator provider (λ s (a : string * string * string * gmap string string), named KindCloudWatchAlarm s a.1.1.1)
    (λ s a, evaluateAlarm s a.1.1.1 a.1.1.2 a.1.2 a.2).
Proof. evaluator evaluateAlarm. Qed.
#[global] Instance evaluateInstance_sound :
  Evaluator provider (λ s st, named KindEC2Instance s (ToString st.(in_Id))) evaluateInstance.
Proof. evaluator evaluateInstance. Qed.
#[global] Instance evaluateLoadBalancer_sound :
  Evaluator provider (λ s lb, named KindLoadBalancer s (ToString lb.(lb_Name))) evaluateLoadBalancer.
Proof.
  split; intros scope x; unfold evaluateLoadBalancer, named; destruct (lb_State x) as [[code reason]|]; cbn beta zeta.
  all: branches; sound_branch.
Qed.
#[global] Instance evaluateTargetGroup_sound :
  Evaluator provider (λ s nd, [(KindTargetGroup, s, nd.1)]) (λ s nd, evaluateTargetGroup s nd.1 nd.2).
Proof.
  split; intros scope x; unfold evaluateTargetGroup; destruct (count_targets x.2 0 0) as [healthy unhealthy]; cbn beta zeta.
  all: branches; sound_branch.
Qed.
#[global] Instance evaluateDBInstance_sound :
  Evaluator provider (λ s db, named KindRDSInstance s (ToString db.(db_Id))) evaluateDBInstance.
Proof.
  split; intros scope x; unfold evaluateDBInstance, rdsSeverity, named; destruct (streq _ ""); try sound_branch.
  all: cbn beta zeta; pose proof (dbStatusSeverity_valid (ToString (db_Status x)) rdsCriticalStatuses) as Hs.
  all: destruct (dbStatusSeverity _ _) as [sev []]; cbn [fst negb] in *; sound_branch.
Qed.
#[global] Instance evaluateDBCluster_sound :
  Evaluator provider (λ s db, named KindAuroraCluster s (ToString db.(db_Id))) evaluateDBCluster.
Proof.
  split; intros scope x; unfold evaluateDBCluster, auroraSeverity, named; destruct (streq _ ""); try sound_branch.
  all: cbn beta zeta; pose proof (dbStatusSeverity_valid (ToString (db_Status x)) auroraCriticalStatuses) as Hs.
  all: destruct (dbStatusSeverity _ _) as [sev []]; cbn [fst negb] in *; sound_branch.
Qed.
#[global] Instance evaluateDynamoTable_sound :
  Evaluator provider (λ s ns, named KindDynamoDBTable s ns.1) (λ s ns, evaluateDynamoTable s ns.1 ns.2).
Proof. evaluator evaluateDynamoTable. Qed.
#[global] Instance evaluateCacheCluster_sound :
  Evaluator provider (λ s c, named KindElastiCacheCluster s (ToString c.(cc_Id)))
    (λ s c, evaluateCacheCluster s (ToString c.(cc_Id)) (ToString c.(cc_Status)) (ToString c.(cc_Engine))).
Proof. evaluator evaluateCacheCluster. Qed.
#[global] Instance evaluateASG_sound : Evaluator provider (λ s g, named KindASG s (ToString g.(as_Name))) evaluateASG.
Proof. evaluator evaluateASG. Qed.
#[global] Instance evaluateKMSKey_sound :
  Evaluator provider (λ s md, if streq md.(km_Manager) KeyManagerTypeCustomer then named KindKMSKey s (ToString md.(km_Id)) else []) evaluateKMSKey.
Proof.
  split; intros scope x; unfold evaluateKMSKey, named; cbn beta zeta; destruct (streq (km_Manager x) _), (streq _ ""); cbn [orb negb]; try sound_branch.
  all: branches; sound_branch.
Qed.
#[global] Instance evaluateVolume_sound : Evaluator provider (λ s vs, named KindEBSVolume s (ToString vs.(vs_Id))) evaluateVolume.
Proof. evaluator evaluateVolume. Qed.
#[global] Instance evaluateNatGateway_sound :
  Evaluator provider (λ s ng, named KindNATGateway s (ToString ng.(nat_Id))) evaluateNatGateway.
Proof. evaluator evaluateNatGateway. Qed.
#[global] Instance evaluateFileSystem_sound :
  Evaluator provider (λ s fs, named KindEFSFileSystem s (ToString fs.(fs_Id))) evaluateFileSystem.
Proof. evaluator evaluateFileSystem. Qed.
#[global] Instance evaluateCertificate_sound `{TimeLib} now :
  Evaluator provider (λ s c, named KindACMCertificate s (ToString c.(ce_Arn))) (λ s c, evaluateCertificate s now c).
Proof. evaluator evaluateCertificate. Qed.
#[global] Instance evaluateVpnConnection_sound :
  Evaluator provider (λ s vc, named KindVPNConnection s (ToString vc.(vpn_Id))) evaluateVpnConnection.
Proof. evaluator evaluateVpnConnection. Qed.
#[global] Instance evaluate_bucket_sound :
  Evaluator provider (λ _ b, [(KindS3Bucket, globalScope, b.1.1)]) (λ _ b, evaluate_bucket b.1.1 b.1.2 b.2).
Proof. evaluator evaluate_bucket. Qed.
#[global] Instance evaluate_observations_sound :
  Evaluator provider (λ _ io, [(KindRoute53HealthCheck, globalScope, io.1)]) (λ _ io, evaluate_observations io.1 io.2).
Proof. evaluator evaluate_observations. Qed.
End contract.
