(* ===== verification/AwsPoll.v ===== *)
(** * internal/sources/aws: the polls

    The Poll methods of the aws package over its narrow client interfaces; CloudTrail and
    [buildSources] are in [CloudTrail]. Each loop body is shown to be a [Paged] service, so that
    [Sources.poll_accounts] applies to it. *)
From S2P Require Import Prelude GoStd AlertModel Config Sources AwsEval.

(** A variable that a closure captures and assigns is part of the world while it runs. *)
Definition with_var (V : Type) (R : Runtime) : Runtime := {|
  world := @world R * V;
  Now := λ '(w, v), let '(x, w) := @Now R w in (x, (w, v));
  ctx_Err := λ '(w, v), let '(x, w) := @ctx_Err R w in (x, (w, v));
  lim_Wait := λ '(w, v), let '(x, w) := @lim_Wait R w in (x, (w, v));
|}.

Section var.
Context `{R : Runtime} {N D : Type} {V : Type}.

(** Runs a body with the variable set to [v]; gives its last value. *)
Definition run_var {A} (v : V) (m : @M (with_var V R) N D A) : @M R N D (A * V) := λ w,
  let '(x, (w, v), t) := m (w, v) in ((x, v), w, t).
Definition lift {A} (m : @M R N D A) : @M (with_var V R) N D A := λ '(w, v), let '(x, w, t) := m w in (x, (w, v), t).
Definition assign (f : V → V) : @M (with_var V R) N D unit := λ '(w, v), (tt, (w, f v), []).
End var.

(** ** Clients

    An interface with one method is that method. A list call takes the token and gives a page
    and the next token. *)
Section clients.
Context `{Runtime}.

Abbreviation lists X := (option string → world → (error + list X * option string) * world).
Abbreviation answers X := (world → (error + X) * world).

Definition acmAPI := list string → lists CertificateSummary.
Definition autoscalingAPI := lists AutoScalingGroup.
Definition auroraAPI := lists DBInstance.
Definition cloudwatchAPI := list string → option string → answers (list Alarm * list Alarm * option string).
Record dynamoDBAPI := MkDynamoDBAPI { ListTables : lists string; DescribeTable : string → answers (option string) }.
Definition ebsAPI := lists VolumeStatusItem.
Definition ec2API := lists InstanceStatus.
Definition efsAPI := lists FileSystem.
Record eksAPI := MkEksAPI {
  ListClusters : lists string;
  DescribeCluster : string → answers (option Cluster);
  ListNodegroups : string → lists string;
  DescribeNodegroup : string → string → answers (option Nodegroup);
}.
Definition elastiCacheAPI := lists CacheCluster.
(** A target group is its name and ARN. *)
Record elbv2API := MkElbv2API {
  DescribeLoadBalancers : lists LoadBalancer;
  DescribeTargetGroups : lists (option string * option string);
  DescribeTargetHealth : option string → answers (list (option string));
}.
Record kmsAPI := MkKmsAPI { ListKeys : lists (option string); DescribeKey : option string → answers (option KeyMetadata) }.
Definition natAPI := lists NatGateway.
Definition rdsAPI := lists DBInstance.
Record route53API := MkRoute53API {
  ListHealthChecks : option string → answers (list (option string) * bool * option string); (** with [IsTruncated] *)
  GetHealthCheckStatus : string → answers (list (option string));
}.
(** A bucket is its name and region. The policy status is [None] when missing, else
    [IsPublic]; the access block is [None] when missing, else its four settings. *)
Record s3API := MkS3API {
  ListBuckets : lists (option string * option string);
  GetBucketPolicyStatus : string → string → answers (option (option bool));
  GetPublicAccessBlock : string → string → answers (option (option bool * option bool * option bool * option bool));
}.
Definition vpnAPI := answers (list VpnConnection).

(** ** Services that only list *)

Context `{AwsTypes} `{TimeLib}.
Abbreviation P := (@M _ _ Empty_set unit).

Definition sourceASG : string := "aws-asg".
Definition asg_pollRegion (rc : regionClient autoscalingAPI) : P :=
  forEachPage sourceASG rc.(rc_region) (page_of rc.(rc_client) (evaluates (evaluateASG rc.(rc_region)))).
Definition asg_Poll (regions : list (regionClient autoscalingAPI)) : P := pollByRegion sourceASG regions asg_pollRegion.

Definition sourceAurora : string := "aws-aurora".
Definition aurora_pollRegion (rc : regionClient auroraAPI) : P :=
  forEachPage sourceAurora rc.(rc_region) (page_of rc.(rc_client) (evaluates (evaluateDBCluster rc.(rc_region)))).
Definition aurora_Poll (regions : list (regionClient auroraAPI)) : P := pollByRegion sourceAurora regions aurora_pollRegion.

Definition sourceRDS : string := "aws-rds".
Definition rds_pollRegion (rc : regionClient rdsAPI) : P :=
  forEachPage sourceRDS rc.(rc_region) (page_of rc.(rc_client) (evaluates (evaluateDBInstance rc.(rc_region)))).
Definition rds_Poll (regions : list (regionClient rdsAPI)) : P := pollByRegion sourceRDS regions rds_pollRegion.

Definition sourceEBS : string := "aws-ebs".
Definition ebs_pollRegion (rc : regionClient ebsAPI) : P :=
  forEachPage sourceEBS rc.(rc_region) (page_of rc.(rc_client) (evaluates (evaluateVolume rc.(rc_region)))).
Definition ebs_Poll (regions : list (regionClient ebsAPI)) : P := pollByRegion sourceEBS regions ebs_pollRegion.

Definition sourceEC2 : string := "aws-ec2".
Definition ec2_pollRegion (rc : regionClient ec2API) : P :=
  forEachPage sourceEC2 rc.(rc_region) (page_of rc.(rc_client) (evaluates (evaluateInstance rc.(rc_region)))).
Definition ec2_Poll (regions : list (regionClient ec2API)) : P := pollByRegion sourceEC2 regions ec2_pollRegion.

Definition sourceEFS : string := "aws-efs".
Definition efs_pollRegion (rc : regionClient efsAPI) : P :=
  forEachPage sourceEFS rc.(rc_region) (page_of rc.(rc_client) (evaluates (evaluateFileSystem rc.(rc_region)))).
Definition efs_Poll (regions : list (regionClient efsAPI)) : P := pollByRegion sourceEFS regions efs_pollRegion.

Definition sourceNAT : string := "aws-nat".
Definition nat_pollRegion (rc : regionClient natAPI) : P :=
  forEachPage sourceNAT rc.(rc_region) (page_of rc.(rc_client) (evaluates (evaluateNatGateway rc.(rc_region)))).
Definition nat_Poll (regions : list (regionClient natAPI)) : P := pollByRegion sourceNAT regions nat_pollRegion.

Definition sourceElastiCache : string := "aws-elasticache".
Definition elasticache_pollRegion (rc : regionClient elastiCacheAPI) : P :=
  forEachPage sourceElastiCache rc.(rc_region) (page_of rc.(rc_client)
    (evaluates (λ cc, evaluateCacheCluster rc.(rc_region) (ToString cc.(cc_Id)) (ToString cc.(cc_Status)) (ToString cc.(cc_Engine))))).
Definition elasticache_Poll (regions : list (regionClient elastiCacheAPI)) : P :=
  pollByRegion sourceElastiCache regions elasticache_pollRegion.

(** The clock is read once per poll. *)
Definition sourceACM : string := "aws-acm".
Definition acm_pollRegion (now : time) (rc : regionClient acmAPI) : P :=
  forEachPage sourceACM rc.(rc_region) (page_of (rc.(rc_client) acmKeyTypes) (evaluates (evaluateCertificate rc.(rc_region) now))).
Definition acm_Poll (regions : list (regionClient acmAPI)) : P :=
  let! now := ask Now in pollByRegion sourceACM regions (acm_pollRegion now).

(** Metric alarms first, then composite ones. *)
Definition evaluate_alarm (region : string) (a : Alarm + Alarm) : list verdict :=
  match a with
  | inl a => evaluateAlarm region (ToString a.(al_Name)) a.(al_State) (ToString a.(al_Reason))
               {["type" := "metric"; "metric" := ToString a.(al_Metric); "awsService" := ToString a.(al_Namespace)]}
  | inr a => evaluateAlarm region (ToString a.(al_Name)) a.(al_State) (ToString a.(al_Reason)) {["type" := "composite"]}
  end.
Definition DescribeAlarms (c : cloudwatchAPI) : lists (Alarm + Alarm) := λ token w,
  let '(out, w) := c [AlarmTypeMetricAlarm; AlarmTypeCompositeAlarm] token w in
  (match out with inl err => inl err | inr (metric, composite, next) => inr ((inl <$> metric) ++ (inr <$> composite), next) end, w).
Definition sourceCloudWatch : string := "aws-cloudwatch".
Definition cloudwatch_pollRegion (rc : regionClient cloudwatchAPI) : P :=
  forEachPage sourceCloudWatch rc.(rc_region) (page_of (DescribeAlarms rc.(rc_client)) (evaluates (evaluate_alarm rc.(rc_region)))).
Definition cloudwatch_Poll (regions : list (regionClient cloudwatchAPI)) : P :=
  pollByRegion sourceCloudWatch regions cloudwatch_pollRegion.

(** One call, no pages. *)
Definition sourceVPN : string := "aws-vpn".
Definition vpn_pollRegion (rc : regionClient vpnAPI) : P :=
  let! out := call rc.(rc_client) (λ r, Listed None (match r with inl err => inl err | inr l => inr (l, None) end)) in
  match out with
  | inl err => PollErr sourceVPN rc.(rc_region) (Some err)
  | inr l => emits (l ≫= evaluateVpnConnection rc.(rc_region))
  end.
Definition vpn_Poll (regions : list (regionClient vpnAPI)) : P := pollByRegion sourceVPN regions vpn_pollRegion.

(** ** Services that list, then describe

    [waitDescribe] before each call about one resource; its error ends the listing, an error
    of the call skips the resource. *)
Definition limited {D N} (k : @M _ N D (option error)) : @M _ N D (option error) :=
  let! err := waitDescribe in match err with Some err => ret (Some err) | None => k end.

(** A table's status, [None] when the answer has no table. *)
Definition sourceDynamoDB : string := "aws-dynamodb".
Definition dynamodb_visit (rc : regionClient dynamoDBAPI) (name : string) : M (option error) :=
  limited (
    let! out := call (rc.(rc_client).(DescribeTable) name) (Described name) in
    match out with
    | inl err => PollErr sourceDynamoDB rc.(rc_region) (Some err) ;;! ret None
    | inr None => ret None
    | inr (Some status) => emits (evaluateDynamoTable rc.(rc_region) name status) ;;! ret None
    end).
Definition dynamodb_pollRegion (rc : regionClient dynamoDBAPI) : M unit :=
  forEachPage sourceDynamoDB rc.(rc_region) (page_of rc.(rc_client).(ListTables) (dynamodb_visit rc)).
Definition dynamodb_Poll (regions : list (regionClient dynamoDBAPI)) : M unit := pollByRegion sourceDynamoDB regions dynamodb_pollRegion.

Definition sourceKMS : string := "aws-kms".
Definition kms_visit (rc : regionClient kmsAPI) (k : option string) : M (option error) :=
  if streq (ToString k) "" then ret None
  else limited (
    let! desc := call (rc.(rc_client).(DescribeKey) k) (Described k) in
    match desc with
    | inl err => PollErr sourceKMS rc.(rc_region) (Some err) ;;! ret None
    | inr None => ret None
    | inr (Some md) => emits (evaluateKMSKey rc.(rc_region) md) ;;! ret None
    end).
Definition kms_pollRegion (rc : regionClient kmsAPI) : M unit :=
  forEachPage sourceKMS rc.(rc_region) (page_of rc.(rc_client).(ListKeys) (kms_visit rc)).
Definition kms_Poll (regions : list (regionClient kmsAPI)) : M unit := pollByRegion sourceKMS regions kms_pollRegion.

(** Load balancers, then target groups. *)
Definition sourceELBV2 : string := "aws-elbv2".
Definition page_map {X Y} (f : X → Y) (l : lists X) : lists Y := λ token w,
  let '(out, w) := l token w in (match out with inl err => inl err | inr (items, next) => inr (f <$> items, next) end, w).
Definition lb_visit {D} (region : string) (x : LoadBalancer + option string * option string) : @M _ _ D (option error) :=
  evaluates (λ x, match x with inl lb => evaluateLoadBalancer region lb | inr _ => [] end) x.
Definition pollLoadBalancers {D} (rc : regionClient elbv2API) : @M _ _ D unit :=
  forEachPage sourceELBV2 rc.(rc_region) (page_of (page_map inl rc.(rc_client).(DescribeLoadBalancers)) (lb_visit rc.(rc_region))).
Definition tg_visit (rc : regionClient elbv2API) (x : LoadBalancer + option string * option string) : M (option error) :=
  match x with
  | inl _ => ret None
  | inr (tg_name, arn) =>
    let name := ToString tg_name in
    if streq name "" then ret None
    else limited (
      let! h := call (rc.(rc_client).(DescribeTargetHealth) arn) (Described x) in
      match h with
      | inl err => PollErr sourceELBV2 rc.(rc_region) (Some err) ;;! ret None
      | inr descs => emits (evaluateTargetGroup rc.(rc_region) name descs) ;;! ret None
      end)
  end.
Definition pollTargetGroups (rc : regionClient elbv2API) : M unit :=
  forEachPage sourceELBV2 rc.(rc_region) (page_of (page_map inr rc.(rc_client).(DescribeTargetGroups)) (tg_visit rc)).
Definition elbv2_Poll (regions : list (regionClient elbv2API)) : M unit :=
  pollByRegion sourceELBV2 regions (λ rc, pollLoadBalancers rc ;;! pollTargetGroups rc).

Definition sourceRoute53 : string := "aws-route53".
Definition health_check_pages (c : route53API) : lists (option string) := λ token w,
  let '(out, w) := c.(ListHealthChecks) token w in
  (match out with inl err => inl err | inr (ids, IsTruncated, next) => inr (ids, if (IsTruncated : bool) then next else None) end, w).
Definition route53_evaluate (c : route53API) (x : option string) : M (option error) :=
  let id := ToString x in
  if streq id "" then ret None
  else limited (
    let! st := call (c.(GetHealthCheckStatus) id) (Described x) in
    match st with
    | inl err => PollErr sourceRoute53 globalScope (Some err) ;;! ret None
    | inr observations => emits (evaluate_observations id observations) ;;! ret None
    end).
Definition route53_Poll (c : route53API) : M unit :=
  forEachPage sourceRoute53 globalScope (page_of (health_check_pages c) (route53_evaluate c)).

(** The answer about a bucket's access block is recorded with what its policy said. *)
Definition sourceS3 : string := "aws-s3".
Inductive bucket_answer :=
  | PolicyStatus (r : error + option (option bool))
  | AccessBlock (isPublic : bool) (r : error + option (option bool * option bool * option bool * option bool)).
Definition isAPIErrCode (err : error) (code : string) : bool :=
  match AsAPIError err with Some c => streq c code | None => false end.
Definition ToBool (b : option bool) : bool := default false b.
Definition policy_public (out : error + option (option bool)) : option bool :=
  match out with
  | inl err => if isAPIErrCode err "NoSuchBucketPolicy" then Some false else None
  | inr None => Some false
  | inr (Some IsPublic) => Some (ToBool IsPublic)
  end.
Definition block_enabled (out : error + option (option bool * option bool * option bool * option bool)) : option bool :=
  match out with
  | inl err => if isAPIErrCode err "NoSuchPublicAccessBlockConfiguration" then Some false else None
  | inr None => Some false
  | inr (Some (BlockPublicAcls, IgnorePublicAcls, BlockPublicPolicy, RestrictPublicBuckets)) =>
    Some (ToBool BlockPublicAcls && ToBool IgnorePublicAcls && ToBool BlockPublicPolicy && ToBool RestrictPublicBuckets)
  end.
Definition s3_err {A} (out : error + A) (ok : option bool) : @M _ (option string * option string) bucket_answer unit :=
  match out, ok with inl err, None => PollErr sourceS3 globalScope (Some err) | _, _ => ret tt end.
Definition bucketIsPublic (c : s3API) (b : option string * option string) (bucket region : string) : M (option bool) :=
  let! out := call (c.(GetBucketPolicyStatus) bucket region) (λ r, Described b (PolicyStatus r)) in
  s3_err out (policy_public out) ;;! ret (policy_public out).
Definition publicAccessBlocked (c : s3API) (b : option string * option string) (isPublic : bool) (bucket region : string) : M (option bool) :=
  let! out := call (c.(GetPublicAccessBlock) bucket region) (λ r, Described b (AccessBlock isPublic r)) in
  s3_err out (block_enabled out) ;;! ret (block_enabled out).
Definition evaluateBucket (c : s3API) (b : option string * option string) : M (option error) :=
  let name := ToString b.1 in
  let region := ToString b.2 in
  if streq name "" then ret None
  else limited (
    let! public := bucketIsPublic c b name region in
    match public with
    | None => ret None
    | Some isPublic =>
      limited (
        let! ok := publicAccessBlocked c b isPublic name region in
        match ok with
        | None => ret None
        | Some blocked => emits (evaluate_bucket name isPublic blocked) ;;! ret None
        end)
    end).
Definition s3_Poll (c : s3API) : M unit := forEachPage sourceS3 globalScope (page_of c.(ListBuckets) (evaluateBucket c)).

(** ** eks.go *)

Inductive eks_answer :=
  | ClusterAnswer (r : error + option Cluster)
  | NodegroupPage (token : option string) (r : error + list string * option string)
  | NodegroupAnswer (name : string) (r : error + option Nodegroup).

Definition sourceEKS : string := "aws-eks".
Definition listNodegroups (rc : regionClient eksAPI) (cluster : string) : @M _ string eks_answer (error + list string) :=
  let! out := run_var [] (walkPages sourceEKS rc.(rc_region) (λ token,
    let! page := lift (call (rc.(rc_client).(ListNodegroups) cluster token) (λ r, Described cluster (NodegroupPage token r))) in
    match page with
    | inl err => ret (inl err)
    | inr (page, next) => assign (λ names, names ++ page) ;;! ret (inr next)
    end)) in
  let '(err, names) := out in
  match err with
  | None => ret (inr names)
  | Some err =>
    let! done := ask ctx_Err in
    match done with
    | Some _ => ret (inl err)
    | None => PollErr sourceEKS rc.(rc_region) (Some err) ;;! ret (inr names)
    end
  end.

Fixpoint describe_nodegroups (rc : regionClient eksAPI) (cluster : string) (names : list string) : @M _ string eks_answer (option error) :=
  match names with
  | [] => ret None
  | ng :: names =>
    limited (
      let! out := call (rc.(rc_client).(DescribeNodegroup) cluster ng) (λ r, Described cluster (NodegroupAnswer ng r)) in
      match out with
      | inl err => PollErr sourceEKS rc.(rc_region) (Some err)
      | inr None => ret tt
      | inr (Some n) => emits (evaluateNodegroup rc.(rc_region) cluster n)
      end ;;! describe_nodegroups rc cluster names)
  end.

Definition pollNodegroups (rc : regionClient eksAPI) (cluster : string) : @M _ string eks_answer (option error) :=
  let! names := listNodegroups rc cluster in
  match names with inl err => ret (Some err) | inr names => describe_nodegroups rc cluster names end.

Definition eks_visit (rc : regionClient eksAPI) (name : string) : @M _ string eks_answer (option error) :=
  limited (
    let! out := call (rc.(rc_client).(DescribeCluster) name) (λ r, Described name (ClusterAnswer r)) in
    match out with
    | inl err => PollErr sourceEKS rc.(rc_region) (Some err) ;;! ret None
    | inr None => ret None
    | inr (Some c) => emits (evaluateEKSCluster rc.(rc_region) c) ;;! pollNodegroups rc name
    end).
Definition eks_pollRegion (rc : regionClient eksAPI) : @M _ string eks_answer unit :=
  forEachPage sourceEKS rc.(rc_region) (page_of rc.(rc_client).(ListClusters) (eks_visit rc)).
Definition eks_Poll (regions : list (regionClient eksAPI)) : @M _ string eks_answer unit := pollByRegion sourceEKS regions eks_pollRegion.

End clients.

(** ** Accounting for the polls *)

Section var_lemmas.
Context `{R : Runtime} {N D V : Type} (dv : N → D → list verdict).

Lemma owes_run_var {A} vs (v : V) (m : @M (with_var V R) N D A) : owes dv vs m → owes dv vs (run_var v m).
Proof. intros Hm w. specialize (Hm (w, v)). unfold run_var. by destruct (m (w, v)) as [[x [w' v']] t]. Qed.
Lemma owes_lift {A} vs (m : @M R N D A) : owes dv vs m → owes dv vs (lift (V := V) m).
Proof. intros Hm [w v]. specialize (Hm w). unfold lift. by destruct (m w) as [[x w'] t]. Qed.
Lemma owes_assign (f : V → V) : owes (N := N) (D := D) dv [] (assign f).
Proof. intros [w v]. split; [done|constructor]. Qed.
End var_lemmas.

Section paged_services.
Context `{Runtime} `{AwsTypes} `{TimeLib}.

Lemma owes_limited {N D} (dv : N → D → list verdict) k : owes dv [] k → owes dv [] (limited k).
Proof.
  intros Hk. apply owes_bind; [apply owes_bind; auto with accounting|]. intros [err|]; auto with accounting.
Qed.
Lemma asks_limited {N D} (x : N) k : asks (D := D) x k → asks x (limited k).
Proof. intros Hk. apply asks_bind. intros [err|]; auto with accounting. Qed.

(** A loop body that only evaluates. *)
#[global] Instance evaluates_paged {N D} (eval : N → list verdict) : Paged (N := N) (D := D) (evaluates eval).
Proof.
  refine {| item_verdicts := eval; detail_verdicts _ _ := []; wanted _ := false |}.
  - intros x w. eapply (owes_bind (λ _ _, []) (eval x) (emits (eval x)) (λ _, ret None)); auto with accounting.
  - done.
  - left. intros x w. unfold evaluates, bind. pose proof (emits_spec (N := N) (D := D) (eval x) w) as Hs.
    destruct (emits (eval x) w) as [[u w'] t]. destruct Hs as [Ho Hf]. simpl. rewrite app_nil_r.
    split_and!; [done|by apply only_emits_quiet|done].
Defined.

(** A loop body that describes: it owes nothing and asks about every wanted thing. *)
Definition describing {N D} (visit : N → @M _ N D (option error)) (dv : N → D → list verdict) (want : N → bool)
    (Ho : ∀ x, owes dv [] (visit x)) (Ha : ∀ x, want x = true → asks x (visit x)) : Paged visit.
Proof.
  refine {| item_verdicts _ := []; detail_verdicts := dv; wanted := want |}.
  - intros x w. apply Ho.
  - intros x w Hn Hw. by apply Ha.
  - right. split; [done|]. intros x w. destruct (Ho x w) as [_ Hf]. exact Hf.
Defined.

Definition dynamodb_verdicts (rc : regionClient dynamoDBAPI) (name : string) (d : error + option string) : list verdict :=
  match d with inr (Some status) => evaluateDynamoTable rc.(rc_region) name status | _ => [] end.
#[global] Instance dynamodb_paged rc : Paged (dynamodb_visit rc).
Proof.
  apply (describing _ (dynamodb_verdicts rc) (λ _, true)).
  - intros name. apply owes_limited, (owes_call _ _ _ (λ r, r)). intros [err|[status|]]; cbn [dynamodb_verdicts]; auto with accounting.
  - intros name _. apply asks_limited, (asks_call _ _ (λ r, r)).
Defined.

Definition kms_verdicts (rc : regionClient kmsAPI) (k : option string) (d : error + option KeyMetadata) : list verdict :=
  match d with inr (Some md) => evaluateKMSKey rc.(rc_region) md | _ => [] end.
#[global] Instance kms_paged rc : Paged (kms_visit rc).
Proof.
  apply (describing _ (kms_verdicts rc) (λ k, negb (streq (ToString k) ""))); intros k; unfold kms_visit; destruct (streq _ ""); auto with accounting.
  - apply owes_limited, (owes_call _ _ _ (λ r, r)). intros [err|[md|]]; cbn [kms_verdicts]; auto with accounting.
  - done.
  - intros _. apply asks_limited, (asks_call _ _ (λ r, r)).
Defined.

Definition tg_verdicts (rc : regionClient elbv2API) (x : LoadBalancer + option string * option string)
    (d : error + list (option string)) : list verdict :=
  match x, d with inr (tg_name, _), inr descs => evaluateTargetGroup rc.(rc_region) (ToString tg_name) descs | _, _ => [] end.
#[global] Instance tg_paged rc : Paged (tg_visit rc).
Proof.
  apply (describing _ (tg_verdicts rc) (λ x, match x with inr (tg_name, _) => negb (streq (ToString tg_name) "") | inl _ => false end));
    intros [lb|[tg_name arn]]; unfold tg_visit; try destruct (streq _ ""); auto with accounting; try done.
  - apply owes_limited, (owes_call _ _ _ (λ r, r)). intros [err|descs]; cbn [tg_verdicts]; auto with accounting.
  - intros _. apply asks_limited, (asks_call _ _ (λ r, r)).
Defined.
#[global] Instance lb_paged {D} region : Paged (D := D) (lb_visit region) := evaluates_paged _.

Definition route53_verdicts (x : option string) (d : error + list (option string)) : list verdict :=
  match d with inr observations => evaluate_observations (ToString x) observations | _ => [] end.
#[global] Instance route53_paged c : Paged (route53_evaluate c).
Proof.
  apply (describing _ route53_verdicts (λ x, negb (streq (ToString x) ""))); intros x; unfold route53_evaluate; cbn zeta;
    destruct (streq _ ""); auto with accounting; try done.
  - apply owes_limited, (owes_call _ _ _ (λ r, r)). intros [err|obs]; cbn [route53_verdicts]; auto with accounting.
  - intros _. apply asks_limited, (asks_call _ _ (λ r, r)).
Defined.

Definition bucket_verdicts (b : option string * option string) (d : bucket_answer) : list verdict :=
  match d with
  | PolicyStatus _ => []
  | AccessBlock isPublic r => match block_enabled r with Some blocked => evaluate_bucket (ToString b.1) isPublic blocked | None => [] end
  end.
Lemma owes_s3_err {A} (out : error + A) ok : owes bucket_verdicts [] (s3_err out ok).
Proof. unfold s3_err. destruct out, ok; auto with accounting. Qed.
#[global] Instance s3_paged c : Paged (evaluateBucket c).
Proof.
  apply (describing _ bucket_verdicts (λ b, negb (streq (ToString b.1) ""))); intros b; unfold evaluateBucket; cbn zeta;
    destruct (streq _ ""); auto with accounting; try done.
  - apply owes_limited, owes_bind.
    { apply owes_call. intros r. apply owes_bind; [apply owes_s3_err|auto with accounting]. }
    intros [isPublic|]; auto with accounting. apply owes_limited.
    apply owes_bind_assoc, owes_call. intros r. apply owes_bind_assoc. cbn [bucket_verdicts].
    destruct (block_enabled r) as [blocked|].
    + destruct r; repeat apply owes_bind_ret; auto with accounting.
    + apply owes_bind; [apply owes_s3_err|auto with accounting].
  - intros _. apply asks_limited, asks_bind_l. intros w. unfold bucketIsPublic, bind, call.
    destruct (GetBucketPolicyStatus _ _ _ w) as [r w']. exists (PolicyStatus r). destruct (s3_err _ _ w') as [[u w2] t2]. left.
Defined.

Definition eks_verdicts (rc : regionClient eksAPI) (cluster : string) (d : eks_answer) : list verdict :=
  match d with
  | ClusterAnswer (inr (Some c)) => evaluateEKSCluster rc.(rc_region) c
  | NodegroupAnswer _ (inr (Some n)) => evaluateNodegroup rc.(rc_region) cluster n
  | _ => []
  end.
Lemma owes_listNodegroups rc cluster : owes (eks_verdicts rc) [] (listNodegroups rc cluster).
Proof.
  apply owes_bind.
  - apply owes_run_var, owes_walk_loop. intros token. apply owes_bind; [by apply owes_lift, owes_call_nil|].
    intros [err|[page next]]; auto with accounting. apply owes_bind; [apply owes_assign|auto with accounting].
  - intros [[err|] names]; auto with accounting. apply owes_bind; [auto with accounting|]. intros [done|]; auto with accounting.
Qed.
Lemma owes_describe_nodegroups rc cluster names : owes (eks_verdicts rc) [] (describe_nodegroups rc cluster names).
Proof.
  induction names as [|ng names IH]; cbn [describe_nodegroups]; [auto with accounting|].
  apply owes_limited, owes_call. intros [err|[n|]]; cbn [eks_verdicts]; auto with accounting.
Qed.
#[global] Instance eks_paged rc : Paged (eks_visit rc).
Proof.
  apply (describing _ (eks_verdicts rc) (λ _, true)).
  - intros name. apply owes_limited, owes_call. intros [err|[c|]]; cbn [eks_verdicts]; auto with accounting.
    apply owes_bind; [auto with accounting|]. intros _. apply owes_bind; [apply owes_listNodegroups|].
    intros [err|names]; [auto with accounting|apply owes_describe_nodegroups].
  - intros name _. apply asks_limited, asks_call.
Defined.
End paged_services.

(** Two pages of Auto Scaling groups. *)
Definition example_pages : @autoscalingAPI (Toy.runtime 10) := λ token w,
  (match token with
   | None => inr ([MkASG (Some "web") (Some 2) []], Some "page-2")
   | Some _ => inr ([MkASG (Some "db") (Some 0) []], None)
   end, S w).

Lemma poll_accounts_witness :
  let t := (@asg_pollRegion (Toy.runtime 10) documented_values (MkRegionClient "eu" example_pages) 0%nat).2 in
  (a_Reason <$> emitted t = ["ASGNoHealthyCapacity"; ""])
  ∧ Forall2 issues
      (t ≫= @owed (Toy.runtime 10) AutoScalingGroup Empty_set _ (evaluates_paged (@evaluateASG documented_values "eu")))
      (emitted t).
Proof.
  intros t. split; [vm_compute; reflexivity|].
  pose proof (@poll_accounts (Toy.runtime 10) AutoScalingGroup Empty_set _
    (evaluates_paged (@evaluateASG documented_values "eu")) example_pages sourceASG "eu" 0%nat) as Hp.
  match type of Hp with context [match ?r with _ => _ end] => change t with r.2; destruct r as [[u w] t'] end.
  exact (proj1 Hp).
Defined.
