(* ===== verification/CloudTrail.v ===== *)
(** * internal/sources/aws: CloudTrail, and the assembly of the AWS sources

    cloudtrail.go: the lookup windows, the lookups per region and event name, and the alert an
    event becomes. Regions are polled concurrently: a poll's trace is any interleaving of the
    traces of its regions, and a region that panics leaves a prefix of its own. aws.go:
    [buildSources], whose SDK constructors are the class [AwsSdk]. *)
From S2P Require Import Prelude GoStd AlertModel Config Sources AwsEval AwsPoll.

Record Event := MkEvent {
  ev_EventId : option string; ev_EventName : option string; ev_Username : option string;
  ev_EventSource : option string; ev_EventTime : option time;
  ev_Resources : list (option string); (** their names *)
}.

Definition defaultCloudTrailEvents : list string :=
  ["AuthorizeSecurityGroupIngress"; "AuthorizeSecurityGroupEgress";
   "RevokeSecurityGroupIngress"; "RevokeSecurityGroupEgress";
   "CreateSecurityGroup"; "DeleteSecurityGroup"; "ModifySecurityGroupRules";
   "PutBucketPolicy"; "DeleteBucketPolicy"; "PutBucketAcl";
   "PutBucketPublicAccessBlock"; "DeletePublicAccessBlock";
   "CreateUser"; "DeleteUser"; "CreateAccessKey"; "DeleteAccessKey";
   "AttachUserPolicy"; "AttachRolePolicy"; "PutUserPolicy"; "PutRolePolicy";
   "CreateRole"; "DeleteRole"].

Definition sourceCloudTrail : string := "aws-cloudtrail".

Fixpoint first_name (resources : list (option string)) : string :=
  match resources with
  | [] => ""
  | r :: resources => let n := ToString r in if negb (streq n "") then n else first_name resources
  end.
Definition firstResourceName (e : Event) : string := first_name e.(ev_Resources).

Definition cloudTrailSummary (eventName user resource : string) : string :=
  let s := eventName in
  let s := if negb (streq user "") then s +:+ " by " +:+ user else s in
  if negb (streq resource "") then s +:+ " on " +:+ resource else s.

(** ** The window of a poll *)

Definition lookback_of (PollSeconds : Z) : duration := Seconds (wrap64 (2 * PollSeconds)).

(** [s.prevEnd] is the state: the window, and the state after. *)
Definition window (lookback : duration) (prevEnd now : time) : time * time * time :=
  let start := Add now (- lookback) in
  let start := if negb (IsZero prevEnd) && Before prevEnd start then prevEnd else start in
  (start, now, now).

(** The windows of the polls at the given readings of the clock. *)
Fixpoint windows (lookback : duration) (prevEnd : time) (nows : list time) : list (time * time) :=
  match nows with
  | [] => []
  | now :: nows => let '(start, stop, prevEnd) := window lookback prevEnd now in (start, stop) :: windows lookback prevEnd nows
  end.

Section cloudtrail.
Context `{Runtime} `{AwsTypes} `{TimeLib}.
Abbreviation P := (@M _ Event Empty_set).

(** ** Events *)

Definition event_alert (now : time) (region : string) (e : Event) : Alert :=
  let id := ToString e.(ev_EventId) in
  let eventName := ToString e.(ev_EventName) in
  let user := ToString e.(ev_Username) in
  let resource := firstResourceName e in
  let name := resource in
  let name := if streq name "" then user else name in
  let name := if streq name "" then eventName else name in
  let labels := {["provider" := provider; "region" := region; "eventSource" := ToString e.(ev_EventSource)]} in
  let details : gmap string string := {["eventId" := id; "eventName" := eventName]} in
  let details := if negb (streq user "") then <["user" := user]> details else details in
  let details := if negb (streq resource "") then <["resource" := resource]> details else details in
  let details := match e.(ev_EventTime) with Some t => <["eventTime" := FormatRFC3339 t]> details | None => details end in
  let startsAt := default now e.(ev_EventTime) in
  let a := New now KindCloudTrailEvent region name eventName SeverityWarning in
  MkAlert id a.(a_Kind) a.(a_Namespace) a.(a_Name) a.(a_NodeName) a.(a_Severity) a.(a_Reason)
    (cloudTrailSummary eventName user resource) a.(a_Cluster) details labels a.(a_Annotations)
    startsAt a.(a_EndsAt) a.(a_Resolved) true a.(a_Correlation).

Definition eventToAlert (region : string) (e : Event) : P (option Alert) :=
  if streq (ToString e.(ev_EventId)) "" then ret None
  else let! now := ask Now in ret (Some (event_alert now region e)).

Fixpoint emit_events (region : string) (events : list Event) : P unit :=
  match events with
  | [] => ret tt
  | e :: events =>
    let! a := eventToAlert region e in
    match a with Some a => tell (Emitted a) | None => ret tt end ;;! emit_events region events
  end.

(** ** Lookups. A client takes the window, the event name and the token. *)

Definition cloudTrailAPI := time → time → string → option string → world → (error + list Event * option string) * world.

(** The variable is [limited]. *)
Definition lookupEvent (rc : regionClient cloudTrailAPI) (eventName : string) (start stop : time) : P (option error) :=
  let! out := run_var false (walkPages sourceCloudTrail rc.(rc_region) (λ token,
    let! err := lift (ask lim_Wait) in
    match err with
    | Some err => assign (λ _, true) ;;! ret (inl (Errorf "lookup rate limit" err))
    | None =>
      let! out := lift (call (rc.(rc_client) start stop eventName token) (Listed token)) in
      match out with
      | inl err => ret (inl err)
      | inr (events, next) => lift (emit_events rc.(rc_region) events) ;;! ret (inr next)
      end
    end)) in
  let '(err, limited) := out in
  match err with
  | None => ret None
  | Some err =>
    PollErr sourceCloudTrail rc.(rc_region) (Some err) ;;!
    if (limited : bool) then ret (Some err)
    else let! done := ask ctx_Err in match done with Some _ => ret (Some err) | None => ret None end
  end.

Fixpoint ct_pollRegion (rc : regionClient cloudTrailAPI) (events : list string) (start stop : time) : P unit :=
  match events with
  | [] => ret tt
  | name :: events =>
    let! err := ask ctx_Err in
    match err with
    | Some err => PollErr sourceCloudTrail rc.(rc_region) (Some err)
    | None =>
      let! err := lookupEvent rc name start stop in
      match err with Some _ => ret tt | None => ct_pollRegion rc events start stop end
    end
  end.

(** ** The concurrent poll *)

Inductive interleaving {A : Type} : list (list A) → list A → Prop :=
  | interleaving_done ts : Forall (λ t, t = []) ts → interleaving ts []
  | interleaving_step ts i e r t : ts !! i = Some (e :: r) → interleaving (<[i := r]> ts) t → interleaving ts (e :: t).

(** A region's goroutine ran to its end, or panicked and was recovered. *)
Definition region_ran (events : list string) (start stop : time) (rc : regionClient cloudTrailAPI) (t : list (effect Event Empty_set)) : Prop :=
  ∃ w, t `prefix_of` (ct_pollRegion rc events start stop w).2.

Inductive ct_Poll (regions : list (regionClient cloudTrailAPI)) (events : list string) (lookback : duration) :
    time → world → time → world → list (effect Empty_set Empty_set) → Prop :=
  | ct_polled prevEnd w now w1 w' start stop prevEnd' ts t :
    Now w = (now, w1) →
    window lookback prevEnd now = (start, stop, prevEnd') →
    Forall2 (region_ran events start stop) regions ts →
    interleaving ts t →
    ct_Poll regions events lookback prevEnd w prevEnd' w' (omap reported t).

Definition newCloudTrailSource (cfg : AWS) (regions : list (regionClient cloudTrailAPI)) : Source :=
  let events := cfg.(Aws_CloudTrailEvents) in
  let events := if (length events =? 0)%nat then defaultCloudTrailEvents else events in
  MkSource sourceCloudTrail time 0 (ct_Poll regions events (lookback_of cfg.(Aws_PollSeconds))).

(** ** aws.go: [buildSources] *)

Class AwsSdk := {
  Cfg : Type;
  LoadDefaultConfig : string → error + Cfg;
  new_eks : Cfg → eksAPI; new_cloudwatch : Cfg → cloudwatchAPI; new_ec2 : Cfg → ec2API; new_elbv2 : Cfg → elbv2API;
  new_rds : Cfg → rdsAPI; new_dynamodb : Cfg → dynamoDBAPI; new_elasticache : Cfg → elastiCacheAPI; new_s3 : Cfg → s3API;
  new_cloudtrail : Cfg → cloudTrailAPI; new_autoscaling : Cfg → autoscalingAPI; new_kms : Cfg → kmsAPI; new_ebs : Cfg → ebsAPI;
  new_aurora : Cfg → auroraAPI; new_nat : Cfg → natAPI; new_efs : Cfg → efsAPI; new_acm : Cfg → acmAPI; new_vpn : Cfg → vpnAPI;
  new_route53 : Cfg → route53API;
}.
Context `{AwsSdk}.

Fixpoint load_regions (names : list string) (regions : list (regionConfig Cfg)) : error + list (regionConfig Cfg) :=
  match names with
  | [] => inr regions
  | region :: names =>
    match LoadDefaultConfig region with
    | inl err => inl (Errorf ("aws: load config for region " +:+ region) err)
    | inr cfg => load_regions names (regions ++ [MkRegionConfig region cfg])
    end
  end.

Definition aws_sources (cfg : AWS) (regions : list (regionConfig Cfg)) : list (option Source) :=
  [regionalSource cfg.(Aws_EKS) regions new_eks (λ rs, stateless sourceEKS (eks_Poll rs));
   regionalSource cfg.(Aws_CloudWatch) regions new_cloudwatch (λ rs, stateless sourceCloudWatch (cloudwatch_Poll rs));
   regionalSource cfg.(Aws_EC2) regions new_ec2 (λ rs, stateless sourceEC2 (ec2_Poll rs));
   regionalSource cfg.(Aws_ELBV2) regions new_elbv2 (λ rs, stateless sourceELBV2 (elbv2_Poll rs));
   regionalSource cfg.(Aws_RDS) regions new_rds (λ rs, stateless sourceRDS (rds_Poll rs));
   regionalSource cfg.(Aws_DynamoDB) regions new_dynamodb (λ rs, stateless sourceDynamoDB (dynamodb_Poll rs));
   regionalSource cfg.(Aws_ElastiCache) regions new_elasticache (λ rs, stateless sourceElastiCache (elasticache_Poll rs));
   globalSource cfg.(Aws_S3) regions (λ c, stateless sourceS3 (s3_Poll (new_s3 c)));
   regionalSource cfg.(Aws_CloudTrail) regions new_cloudtrail (newCloudTrailSource cfg);
   regionalSource cfg.(Aws_ASG) regions new_autoscaling (λ rs, stateless sourceASG (asg_Poll rs));
   regionalSource cfg.(Aws_KMS) regions new_kms (λ rs, stateless sourceKMS (kms_Poll rs));
   regionalSource cfg.(Aws_EBS) regions new_ebs (λ rs, stateless sourceEBS (ebs_Poll rs));
   regionalSource cfg.(Aws_Aurora) regions new_aurora (λ rs, stateless sourceAurora (aurora_Poll rs));
   regionalSource cfg.(Aws_NAT) regions new_nat (λ rs, stateless sourceNAT (nat_Poll rs));
   regionalSource cfg.(Aws_EFS) regions new_efs (λ rs, stateless sourceEFS (efs_Poll rs));
   regionalSource cfg.(Aws_ACM) regions new_acm (λ rs, stateless sourceACM (acm_Poll rs));
   regionalSource cfg.(Aws_VPN) regions new_vpn (λ rs, stateless sourceVPN (vpn_Poll rs));
   globalSource cfg.(Aws_Route53) regions (λ c, stateless sourceRoute53 (route53_Poll (new_route53 c)))].

Definition aws_buildSources (cfg : AWS) : error + list Source :=
  match load_regions cfg.(Aws_Regions) [] with
  | inl err => inl err
  | inr regions => inr (Compact (aws_sources cfg regions))
  end.

(** The provider registered in [init]. *)
Definition aws_provider : @Provider Config Source error :=
  MkProvider provider (λ c, MkBound c.(Cf_AWS).(Aws_Enabled) c.(Cf_AWS).(Aws_PollSeconds) (aws_buildSources c.(Cf_AWS))).

End cloudtrail.

(** ** The windows leave no gap *)

Lemma window_reaches lookback prevEnd now :
  IsZero prevEnd = false → (window lookback prevEnd now).1.1 <= prevEnd.
Proof.
  intros Hz. unfold window. rewrite Hz. simpl. destruct (Before prevEnd _) eqn:E; [lia|].
  by apply Before_false in E.
Qed.

Lemma default_last {A} (a b y : A) l : default a (last (y :: l)) = default b (last (y :: l)).
Proof. destruct (last (y :: l)) eqn:E; [done|]. by apply last_None in E. Qed.

Lemma windows_reach lookback prevEnd nows t start :
  Forall (λ now, IsZero now = false) nows →
  match windows lookback prevEnd nows with [] => False | (s, _) :: _ => s = start end →
  start <= t → t <= default prevEnd (last nows) → ∃ s e, (s, e) ∈ windows lookback prevEnd nows ∧ s <= t <= e.
Proof.
  revert prevEnd start. induction nows as [|now nows IH]; intros prevEnd start Hz Hs Hst Hte; [done|].
  apply Forall_cons in Hz as [Hnow Hz]. simpl in *.
  set (s0 := if negb (IsZero prevEnd) && Before prevEnd (Add now (- lookback)) then prevEnd else Add now (- lookback)) in *.
  subst start. destruct (decide (t <= now)) as [Hle|Hgt]; [exists s0, now; split; [left|lia]|].
  destruct nows as [|now2 nows]; [simpl in Hte; lia|].
  pose proof (window_reaches lookback now now2 Hnow) as Hr. simpl in Hr.
  destruct (IH now _ Hz eq_refl) as (s & e & Hin & Hse); [lia|by rewrite (default_last now prevEnd)|].
  exists s, e. split; [by right|done].
Qed.

(** C29: the windows of successive CloudTrail polls leave no gap, however late a poll starts or
    however the clock moves. Every instant from the start of the first window to the end of the
    last lies in a window that is looked up, and each window reaches back at least the
    lookback. *)
Theorem windows_cover lookback nows t :
  Forall (λ now, IsZero now = false) nows →
  let ws := windows lookback 0 nows in
  Forall (λ se, se.1 <= Add se.2 (- lookback)) ws
  ∧ (∀ first last_, head ws = Some first → last ws = Some last_ → first.1 <= t <= last_.2 →
       ∃ s e, (s, e) ∈ ws ∧ s <= t <= e).
Proof.
  intros Hz ws. split.
  - subst ws. clear Hz t. generalize 0. induction nows as [|now nows IH]; intros prevEnd; [constructor|].
    simpl. constructor; [|apply IH]. simpl. destruct (negb (IsZero prevEnd) && Before prevEnd _) eqn:E; [|lia].
    apply andb_true_iff in E as [_ E%Before_spec]. lia.
  - intros first last_ Hf Hl [H1 H2]. subst ws.
    assert (Hlast : last_.2 = default 0 (last nows)).
    { clear -Hl. revert Hl. generalize 0. induction nows as [|now nows IH]; intros prevEnd Hl; [done|].
      destruct nows as [|now2 nows]; [by simplify_eq/=|]. change (last (now :: now2 :: nows)) with (last (now2 :: nows)).
      etrans; [eapply IH; exact Hl|]. apply default_last. }
    destruct (windows_reach lookback 0 nows t first.1 Hz) as (s & e & Hin & Hse); [|done|lia|by exists s, e].
    destruct (windows lookback 0 nows) as [|[s e] ws]; [done|]. by simplify_eq/=.
Qed.

Lemma windows_cover_witness :
  ∃ s e, (s, e) ∈ windows (4 * Minute) 0 [Hour; Hour + 2 * Minute; Hour + 17 * Minute] ∧ s <= Hour + 9 * Minute <= e.
Proof.
  assert (Hz : Forall (λ now, IsZero now = false) [Hour; Hour + 2 * Minute; Hour + 17 * Minute])
    by (repeat constructor).
  refine (proj2 (windows_cover (4 * Minute) _ (Hour + 9 * Minute) Hz) _ _ eq_refl eq_refl _).
  split; by vm_compute.
Defined.

(** ** What is assembled *)

Section assembly.
Context `{Runtime} `{AwsTypes} `{TimeLib} `{@AwsSdk _}.

(** The services in the order of [buildSources] with their toggles. *)
Definition aws_services (cfg : AWS) : list (bool * string) :=
  [(cfg.(Aws_EKS), sourceEKS); (cfg.(Aws_CloudWatch), sourceCloudWatch); (cfg.(Aws_EC2), sourceEC2); (cfg.(Aws_ELBV2), sourceELBV2);
   (cfg.(Aws_RDS), sourceRDS); (cfg.(Aws_DynamoDB), sourceDynamoDB); (cfg.(Aws_ElastiCache), sourceElastiCache); (cfg.(Aws_S3), sourceS3);
   (cfg.(Aws_CloudTrail), sourceCloudTrail); (cfg.(Aws_ASG), sourceASG); (cfg.(Aws_KMS), sourceKMS); (cfg.(Aws_EBS), sourceEBS);
   (cfg.(Aws_Aurora), sourceAurora); (cfg.(Aws_NAT), sourceNAT); (cfg.(Aws_EFS), sourceEFS); (cfg.(Aws_ACM), sourceACM);
   (cfg.(Aws_VPN), sourceVPN); (cfg.(Aws_Route53), sourceRoute53)].

Lemma load_regions_spec names regions :
  match load_regions names regions with
  | inl err => ∃ region e, region ∈ names ∧ LoadDefaultConfig region = inl e
                 ∧ err = Errorf ("aws: load config for region " +:+ region) e
  | inr rs => cf_region <$> rs = (cf_region <$> regions) ++ names
  end.
Proof.
  revert regions. induction names as [|region names IH]; intros regions; simpl; [by rewrite app_nil_r|].
  destruct (LoadDefaultConfig region) as [e|cfg] eqn:E.
  - exists region, e. split; [left|done].
  - specialize (IH (regions ++ [MkRegionConfig region cfg])). destruct (load_regions _ _) as [err|rs].
    + destruct IH as (r & e & Hin & ?). exists r, e. split; [by right|done].
    + by rewrite IH, fmap_app, <- app_assoc.
Qed.

Lemma regionalSource_nil {Cfg C S} on (f : Cfg → C) (g : list (regionClient C) → S) : regionalSource on [] f g = None.
Proof. by destruct on. Qed.
Lemma globalSource_nil {Cfg S} on (g : Cfg → S) : globalSource on [] g = None.
Proof. by destruct on. Qed.

(** A candidate is built under its name exactly when its toggle is on. *)
Definition toggled (o : option Source) (t : bool * string) : Prop := Name <$> o = if (t.1 : bool) then Some t.2 else None.
Lemma regionalSource_name {Cfg C} on rc regions (f : Cfg → C) g name :
  (∀ rs, Name (g rs) = name) → toggled (regionalSource on (rc :: regions) f g) (on, name).
Proof. intros Hg. destruct on; [|done]. unfold toggled. simpl. by rewrite Hg. Qed.
Lemma globalSource_name {Cfg} on (rc : regionConfig Cfg) regions g name :
  (∀ c, Name (g c) = name) → toggled (globalSource on (rc :: regions) g) (on, name).
Proof. intros Hg. destruct on; [|done]. unfold toggled. simpl. by rewrite Hg. Qed.
Lemma compact_names srcs ts : Forall2 toggled srcs ts → Name <$> Compact srcs = omap (λ t, if (t.1 : bool) then Some t.2 else None) ts.
Proof.
  induction 1 as [|o t srcs ts Ht _ IH]; [done|]. unfold toggled in Ht. unfold Compact in *. simpl.
  destruct o as [src|], (t.1); simplify_eq/=; f_equal; done.
Qed.

(** The enabled AWS services are assembled, in a fixed order, whenever a region is
    configured; the only error is a region whose configuration does not load. *)
Lemma aws_builds_enabled cfg :
  match aws_buildSources cfg with
  | inl err => ∃ region e, region ∈ cfg.(Aws_Regions) ∧ LoadDefaultConfig region = inl e
                 ∧ err = Errorf ("aws: load config for region " +:+ region) e
  | inr srcs => Name <$> srcs = if (length cfg.(Aws_Regions) =? 0)%nat then [] else omap (λ t, if (t.1 : bool) then Some t.2 else None) (aws_services cfg)
  end.
Proof.
  unfold aws_buildSources. pose proof (load_regions_spec cfg.(Aws_Regions) []) as Hl.
  destruct (load_regions _ []) as [err|regions]; [done|]. simpl in Hl. rewrite <- Hl, length_fmap. clear Hl.
  destruct regions as [|rc regions].
  - replace (Name <$> Compact (aws_sources cfg [])) with ([] : list string); [done|]. unfold aws_sources.
    rewrite !regionalSource_nil, !globalSource_nil. done.
  - apply compact_names. repeat (constructor; [first [by apply regionalSource_name|by apply globalSource_name]|]). constructor.
Qed.
End assembly.
