(* ===== verification/CloudSources.v ===== *)
(** * internal/sources/azure and internal/sources/gcp

    The evaluate functions of the Azure and GCP services, their listers over SDK pagers, and
    the assembly of both providers. All are list sources ([Sources.list_Poll]). SDK records
    carry the fields that are read; the SDK's constants are the classes [AzureTypes] and
    [GcpTypes], its constructors [AzureSdk] and [GcpSdk]. *)
From S2P Require Import Prelude GoStd AlertModel Config Sources AwsEval.

(** ** Azure *)

Module Azure.

Definition provider : string := "azure".

Definition emitFiring (k : KindT) (scope name reason summary : string) (sev : Severity) (details : gmap string string) : list verdict :=
  [Firing k scope name reason summary sev {["provider" := provider]} details].

Class AzureTypes := {
  CodeStopped : string;
  MonitorConditionResolved : string;
  ProvisioningStateFailed : string; ProvisioningStateRecoveringScaleFailure : string;
  DatabaseStatusSuspect : string; DatabaseStatusOffline : string; DatabaseStatusInaccessible : string;
  DatabaseStatusEmergencyMode : string; DatabaseStatusShutdown : string;
  AccountStatusUnavailable : string;
}.

(** aks.go. A power state is its code, [None] when either pointer is nil. *)
Record AgentPool := MkAgentPool { ap_Name : option string; ap_State : option string; ap_Power : option string }.
Record ClusterProperties := MkProperties { mp_State : option string; mp_Power : option string; mp_Pools : list (option AgentPool) }.
Record ManagedCluster := MkManagedCluster { mc_Name : option string; mc_Location : option string; mc_Properties : option ClusterProperties }.

(** monitor.go *)
Record Essentials := MkEssentials { es_Condition : option string; es_Severity : option string; es_Rule : option string; es_Target : option string }.
Record MonitorAlert := MkMonitorAlert { al_Name : option string; al_Essentials : option Essentials }.

(** redis.go, storage.go, vm.go: a name, a location and a state *)
Record Resource := MkResource { rs_Name : option string; rs_Location : option string; rs_State : option string }.

(** sql.go *)
Record sqlDatabase := MkSqlDatabase { sq_server : string; sq_name : string; sq_location : string; sq_status : string }.

Section azure.
Context `{AzureTypes}.

Definition aksHealth (state power : string) : string * Severity * bool :=
  if streq state "" then ("", "", false)
  else if streq state "Succeeded" then
    if streq power CodeStopped then ("Stopped", SeverityWarning, true) else ("", "", false)
  else if streq state "Failed" || streq state "Canceled" then ("ProvisioningFailed", SeverityCritical, true)
  else ("NotReady", SeverityWarning, true).

Definition aksSummary (noun id state suffix : string) : string :=
  if streq suffix "Stopped" then noun +:+ " " +:+ id +:+ " is stopped"
  else if streq suffix "ProvisioningFailed" then noun +:+ " " +:+ id +:+ " provisioning state is " +:+ state
  else noun +:+ " " +:+ id +:+ " is not ready (provisioning state " +:+ state +:+ ")".

Definition aksPower (ps : option string) : string := ToString ps.

Definition evaluateAKSCluster (subscription : string) (c : option ManagedCluster) : list verdict :=
  match c with
  | None => []
  | Some c =>
    let name := ToString c.(mc_Name) in
    if streq name "" then []
    else
      let region := ToString c.(mc_Location) in
      let scope := Scope subscription region in
      let '(state, power) := match c.(mc_Properties) with
                             | Some p => (ToString p.(mp_State), aksPower p.(mp_Power))
                             | None => ("", "")
                             end in
      let '(suffix, sev, firing) := aksHealth state power in
      if negb firing then [Resolve KindAKSCluster scope name]
      else emitFiring KindAKSCluster scope name ("AKSCluster" +:+ suffix) (aksSummary "AKS cluster" name state suffix) sev
             {["provisioningState" := state; "powerState" := power; "location" := region]}
  end.

Definition evaluate_pool (scope cluster : string) (p : option AgentPool) : list verdict :=
  match p with
  | None => []
  | Some p =>
    let pool := ToString p.(ap_Name) in
    if streq pool "" then []
    else
      let id := cluster +:+ "/" +:+ pool in
      let state := ToString p.(ap_State) in
      let power := aksPower p.(ap_Power) in
      let '(suffix, sev, firing) := aksHealth state power in
      if negb firing then [Resolve KindAKSNodePool scope id]
      else emitFiring KindAKSNodePool scope id ("AKSNodePool" +:+ suffix) (aksSummary "AKS node pool" id state suffix) sev
             {["cluster" := cluster; "provisioningState" := state; "powerState" := power]}
  end.

Definition evaluateAKSNodePools (subscription : string) (c : option ManagedCluster) : list verdict :=
  match c with
  | None => []
  | Some c =>
    let cluster := ToString c.(mc_Name) in
    match c.(mc_Properties) with
    | Some p =>
      if streq cluster "" then []
      else
        let scope := Scope subscription (ToString c.(mc_Location)) in
        p.(mp_Pools) ≫= evaluate_pool scope cluster
    | None => []
    end
  end.

Definition evaluateAKS (subscription : string) (c : option ManagedCluster) : list verdict :=
  evaluateAKSCluster subscription c ++ evaluateAKSNodePools subscription c.

Definition azureSeverity (sev : string) : Severity :=
  if streq sev "Sev0" || streq sev "Sev1" then SeverityCritical
  else if streq sev "Sev4" then SeverityInfo
  else SeverityWarning.

Definition azureAlertSummary (rule target : string) : string :=
  let s := "Azure Monitor alert" in
  let s := if negb (streq rule "") then s +:+ " " +:+ rule else s in
  if negb (streq target "") then s +:+ " on " +:+ target else s.

Definition evaluateAzureAlert (subscription : string) (al : option MonitorAlert) : list verdict :=
  match al with
  | None => []
  | Some al =>
    let name := ToString al.(al_Name) in
    if streq name "" then []
    else match al.(al_Essentials) with
    | Some e =>
      match e.(es_Condition) with
      | None => []
      | Some condition =>
        let sev := match e.(es_Severity) with Some s => azureSeverity s | None => SeverityWarning end in
        let rule := ToString e.(es_Rule) in
        let target := ToString e.(es_Target) in
        if streq condition MonitorConditionResolved then [Resolve KindAzureMonitorAlert subscription name]
        else emitFiring KindAzureMonitorAlert subscription name "AzureMonitorAlert" (azureAlertSummary rule target) sev
               {["alertRule" := rule; "targetResource" := target; "monitorCondition" := condition]}
      end
    | None => []
    end
  end.

(** The name is not tested for being empty here, only for nil. *)
Definition evaluateRedisCache (subscription : string) (c : option Resource) : list verdict :=
  match c with
  | None => []
  | Some c =>
    match c.(rs_Name) with
    | None => []
    | Some name =>
      let scope := Scope subscription (ToString c.(rs_Location)) in
      let state := ToString c.(rs_State) in
      if streq state ProvisioningStateFailed then
        emitFiring KindAzureRedis scope name "AzureRedisFailed"
          ("Azure Redis cache " +:+ name +:+ " provisioning state is Failed") SeverityCritical {["provisioningState" := state]}
      else if streq state ProvisioningStateRecoveringScaleFailure then
        emitFiring KindAzureRedis scope name "AzureRedisScaleRecovering"
          ("Azure Redis cache " +:+ name +:+ " is recovering from a scale failure") SeverityWarning {["provisioningState" := state]}
      else [Resolve KindAzureRedis scope name]
    end
  end.

Definition sqlStatusCritical (status : string) : bool :=
  streq status DatabaseStatusSuspect || streq status DatabaseStatusOffline || streq status DatabaseStatusInaccessible
  || streq status DatabaseStatusEmergencyMode || streq status DatabaseStatusShutdown.

Definition evaluateSQLDatabase (subscription : string) (db : sqlDatabase) : list verdict :=
  if streq db.(sq_name) "" then []
  else
    let scope := Scope subscription db.(sq_location) in
    let id := db.(sq_server) +:+ "/" +:+ db.(sq_name) in
    if negb (sqlStatusCritical db.(sq_status)) then [Resolve KindAzureSQLDatabase scope id]
    else emitFiring KindAzureSQLDatabase scope id "AzureSQLDatabaseUnhealthy"
           ("Azure SQL database " +:+ id +:+ " status is " +:+ db.(sq_status)) SeverityCritical
           {["status" := db.(sq_status); "server" := db.(sq_server)]}.

Definition evaluateStorageAccount (subscription : string) (acct : option Resource) : list verdict :=
  match acct with
  | None => []
  | Some acct =>
    let name := ToString acct.(rs_Name) in
    if streq name "" then []
    else
      let region := ToString acct.(rs_Location) in
      let scope := Scope subscription region in
      let status := ToString acct.(rs_State) in
      if streq status AccountStatusUnavailable then
        emitFiring KindAzureStorage scope name "AzureStorageUnavailable"
          ("Azure Storage account " +:+ name +:+ " primary endpoint is unavailable") SeverityCritical
          {["statusOfPrimary" := status; "location" := region]}
      else [Resolve KindAzureStorage scope name]
  end.

Definition evaluateVM (subscription : string) (vm : option Resource) : list verdict :=
  match vm with
  | None => []
  | Some vm =>
    let name := ToString vm.(rs_Name) in
    if streq name "" then []
    else
      let region := ToString vm.(rs_Location) in
      let scope := Scope subscription region in
      let state := ToString vm.(rs_State) in
      if streq state "Failed" then
        emitFiring KindAzureVM scope name "AzureVMProvisioningFailed"
          ("Azure VM " +:+ name +:+ " provisioning state is Failed") SeverityCritical
          {["provisioningState" := state; "location" := region]}
      else [Resolve KindAzureVM scope name]
  end.

End azure.

(** ** The listers. A pager is its [More] and its [NextPage]. *)

Section listers.
Context `{Runtime} `{AzureTypes}.

Record Pager (T : Type) := MkPager { More : world → bool * world; NextPage : world → (error + list T) * world }.
Arguments More {T} _.
Arguments NextPage {T} _.

Definition sourceAKS : string := "azure-aks".
Definition sourceAzureMonitor : string := "azure-monitor".
Definition sourceAzureRedis : string := "azure-redis".
Definition sourceAzureSQL : string := "azure-sql".
Definition sourceAzureStorage : string := "azure-storage".
Definition sourceAzureVM : string := "azure-vm".

(** Every lister but the SQL one drains one pager. *)
Definition arm_List {T} (source : string) (p : Pager T) : @M _ T Empty_set (error + list T) :=
  drainPager source p.(More) p.(NextPage) (λ page, page).

(** [strings.EqualFold] with an ASCII argument: besides case, the long s (C5 BF) folds to s
    and the Kelvin sign (E2 84 AA) to k; no other character outside ASCII folds into it. *)
Fixpoint fold_ascii (l : list ascii) : list ascii :=
  match l with
  | [] => []
  | a :: r =>
    match r with
    | b :: r' =>
      if (byte_of a =? 197) && (byte_of b =? 191) then "s"%char :: fold_ascii r'
      else match r' with
           | c :: r'' => if (byte_of a =? 226) && (byte_of b =? 132) && (byte_of c =? 170) then "k"%char :: fold_ascii r''
                         else lower a :: fold_ascii r
           | [] => lower a :: fold_ascii r
           end
    | [] => [lower a]
    end
  end.
Definition EqualFold (s ascii_text : string) : bool := streq (of_chars (fold_ascii (chars s))) (ToLower ascii_text).

(** The loop over [parts[i]], [parts[i+1]]. *)
Fixpoint group_after (parts : list string) : string :=
  match parts with
  | p :: parts => match parts with
                  | q :: _ => if EqualFold p "resourceGroups" then q else group_after parts
                  | [] => ""
                  end
  | [] => ""
  end.
Definition resourceGroupFromID (id : string) : string := group_after (Split id "/"%char).

Record Server := MkServer { sv_Name : option string; sv_ID : option string; sv_Location : option string }.
(** A database is its name and status. *)
Definition Database : Type := option string * option string.

Definition database_of (server location : string) (db : option Database) : list sqlDatabase :=
  match db with
  | Some (Some name, status) => [MkSqlDatabase server name location (ToString status)]
  | _ => []
  end.

Fixpoint sql_servers (databases : string → string → Pager (option Database)) (servers : list (option Server)) (dbs : list sqlDatabase)
    : @M _ sqlDatabase Empty_set (error + list sqlDatabase) :=
  match servers with
  | [] => ret (inr dbs)
  | Some (MkServer (Some name) (Some id) location) :: servers =>
    let rg := resourceGroupFromID id in
    if streq rg "" then sql_servers databases servers dbs
    else
      let p := databases rg name in
      let! serverDBs := drainPager sourceAzureSQL p.(More) p.(NextPage) (λ page, page) in
      match serverDBs with
      | inl err => PollErr sourceAzureSQL name (Some err) ;;! sql_servers databases servers dbs
      | inr serverDBs => sql_servers databases servers (dbs ++ (serverDBs ≫= database_of name (ToString location)))
      end
  | _ :: servers => sql_servers databases servers dbs
  end.

Definition sql_List (servers : Pager (option Server)) (databases : string → string → Pager (option Database))
    : @M _ sqlDatabase Empty_set (error + list sqlDatabase) :=
  let! servers := drainPager sourceAzureSQL servers.(More) servers.(NextPage) (λ page, page) in
  match servers with inl err => ret (inl err) | inr servers => sql_servers databases servers [] end.

(** The client constructors: a client is the pagers it makes. *)
Class AzureSdk := {
  Cred : Type;
  NewDefaultAzureCredential : error + Cred;
  NewManagedClustersClient : string → Cred → error + Pager (option ManagedCluster);
  NewAlertsClient : string → Cred → error + Pager (option MonitorAlert);
  NewVirtualMachinesClient : string → Cred → error + Pager (option Resource);
  NewAccountsClient : string → Cred → error + Pager (option Resource);
  NewServersClient : string → Cred → error + Pager (option Server);
  NewDatabasesClient : string → Cred → error + (string → string → Pager (option Database));
  NewRedisClient : string → Cred → error + Pager (option Resource);
}.
Context `{AzureSdk}.

Definition arm_lister {T} (source service : string) (client : string → Cred → error + Pager T) (cred : Cred) (sub : string)
    : error + @M _ T Empty_set (error + list T) :=
  match client sub cred with
  | inl err => inl (azure_clientErr service sub err)
  | inr client => inr (arm_List source client)
  end.

Definition sql_lister (cred : Cred) (sub : string) : error + @M _ sqlDatabase Empty_set (error + list sqlDatabase) :=
  match NewServersClient sub cred with
  | inl err => inl (azure_clientErr "sql servers" sub err)
  | inr servers =>
    match NewDatabasesClient sub cred with
    | inl err => inl (azure_clientErr "sql databases" sub err)
    | inr databases => inr (sql_List servers databases)
    end
  end.

Definition buildSources (cfg : Config.Azure) : error + list Source :=
  match NewDefaultAzureCredential with
  | inl err => inl (Errorf "azure: default credential" err)
  | inr cred =>
    let subs := cfg.(Az_Subscriptions) in
    BuildAll
      [buildSub cfg.(Az_AKS) subs (arm_lister sourceAKS "managed-clusters" NewManagedClustersClient cred)
         (λ scopes, NewListSource sourceAKS scopes evaluateAKS);
       buildSub cfg.(Az_Monitor) subs (arm_lister sourceAzureMonitor "alerts" NewAlertsClient cred)
         (λ scopes, NewListSource sourceAzureMonitor scopes evaluateAzureAlert);
       buildSub cfg.(Az_VMs) subs (arm_lister sourceAzureVM "virtual-machines" NewVirtualMachinesClient cred)
         (λ scopes, NewListSource sourceAzureVM scopes evaluateVM);
       buildSub cfg.(Az_Storage) subs (arm_lister sourceAzureStorage "storage-accounts" NewAccountsClient cred)
         (λ scopes, NewListSource sourceAzureStorage scopes evaluateStorageAccount);
       buildSub cfg.(Az_SQL) subs (sql_lister cred) (λ scopes, NewListSource sourceAzureSQL scopes evaluateSQLDatabase);
       buildSub cfg.(Az_Redis) subs (arm_lister sourceAzureRedis "redis" NewRedisClient cred)
         (λ scopes, NewListSource sourceAzureRedis scopes evaluateRedisCache)]
  end.

End listers.
End Azure.

(** ** GCP *)

Module Gcp.

Definition provider : string := "gcp".

Definition emitFiring (k : KindT) (scope name reason summary : string) (sev : Severity) (details : gmap string string) : list verdict :=
  [Firing k scope name reason summary sev {["provider" := provider]} details].

(** The protobuf enums with their names. *)
Class GcpTypes := {
  Cluster_RUNNING : Z; Cluster_ERROR : Z; Cluster_DEGRADED : Z; Cluster_Status_String : Z → string;
  NodePool_RUNNING : Z; NodePool_ERROR : Z; NodePool_RUNNING_WITH_ERROR : Z; NodePool_Status_String : Z → string;
}.

(** gke.go *)
Record NodePool := MkNodePool { np_Name : string; np_Status : Z }.
Record Cluster := MkCluster { gc_Name : string; gc_Location : string; gc_Status : Z; gc_NodePools : list (option NodePool) }.
(** monitoring.go. [Enabled] is [None] when the wrapper is nil. *)
Record AlertPolicy := MkAlertPolicy { pl_Name : string; pl_DisplayName : string; pl_Enabled : option bool }.
(** compute.go *)
Record Instance_ := MkInstance { gi_Name : string; gi_Zone : string; gi_Status : string }.
(** cloudsql.go *)
Record DatabaseInstance := MkDatabaseInstance { di_Name : string; di_Region : string; di_State : string; di_Version : string }.

Section gcp.
Context `{GcpTypes}.

Definition evaluateGKECluster (project : string) (c : option Cluster) : list verdict :=
  match c with
  | None => []
  | Some c =>
    let name := c.(gc_Name) in
    if streq name "" then []
    else
      let location := c.(gc_Location) in
      let scope := Scope project location in
      let status := c.(gc_Status) in
      let text := Cluster_Status_String status in
      let details := {["status" := text; "location" := location]} in
      if status =? Cluster_RUNNING then [Resolve KindGKECluster scope name]
      else if (status =? Cluster_ERROR) || (status =? Cluster_DEGRADED) then
        emitFiring KindGKECluster scope name "GKEClusterUnhealthy" ("GKE cluster " +:+ name +:+ " status is " +:+ text) SeverityCritical details
      else
        emitFiring KindGKECluster scope name "GKEClusterNotRunning"
          ("GKE cluster " +:+ name +:+ " is not running (status " +:+ text +:+ ")") SeverityWarning details
  end.

Definition evaluate_pool (scope cluster : string) (np : option NodePool) : list verdict :=
  match np with
  | None => []
  | Some np =>
    if streq np.(np_Name) "" then []
    else
      let id := cluster +:+ "/" +:+ np.(np_Name) in
      let status := np.(np_Status) in
      let text := NodePool_Status_String status in
      let details := {["cluster" := cluster; "status" := text]} in
      if status =? NodePool_RUNNING then [Resolve KindGKENodePool scope id]
      else if (status =? NodePool_ERROR) || (status =? NodePool_RUNNING_WITH_ERROR) then
        emitFiring KindGKENodePool scope id "GKENodePoolUnhealthy" ("GKE node pool " +:+ id +:+ " status is " +:+ text) SeverityCritical details
      else
        emitFiring KindGKENodePool scope id "GKENodePoolNotRunning"
          ("GKE node pool " +:+ id +:+ " is not running (status " +:+ text +:+ ")") SeverityWarning details
  end.

Definition evaluateGKENodePools (project : string) (c : option Cluster) : list verdict :=
  match c with
  | None => []
  | Some c =>
    let cluster := c.(gc_Name) in
    if streq cluster "" then []
    else
      let scope := Scope project c.(gc_Location) in
      c.(gc_NodePools) ≫= evaluate_pool scope cluster
  end.

Definition evaluateGKE (project : string) (c : option Cluster) : list verdict :=
  evaluateGKECluster project c ++ evaluateGKENodePools project c.

Definition evaluateAlertPolicy (project : string) (p : option AlertPolicy) : list verdict :=
  match p with
  | None => []
  | Some p =>
    let name := p.(pl_Name) in
    if streq name "" then []
    else
      let display := p.(pl_DisplayName) in
      if default false p.(pl_Enabled) then [Resolve KindGCPAlertPolicy project name]
      else emitFiring KindGCPAlertPolicy project name "GCPAlertPolicyDisabled"
             ("Cloud Monitoring alert policy is disabled: " +:+ display) SeverityWarning {["displayName" := display]}
  end.

(** [strings.LastIndex]. *)
Definition shortZone (zoneURL : string) : string := default zoneURL (last (Split zoneURL "/"%char)).

Definition evaluateGCEInstance (project : string) (i : option Instance_) : list verdict :=
  match i with
  | None => []
  | Some i =>
    if streq i.(gi_Name) "" then []
    else
      let zone := shortZone i.(gi_Zone) in
      let scope := Scope project zone in
      if streq i.(gi_Status) "REPAIRING" then
        emitFiring KindGCEInstance scope i.(gi_Name) "GCEInstanceRepairing"
          ("Compute Engine instance " +:+ i.(gi_Name) +:+ " is REPAIRING") SeverityCritical {["status" := i.(gi_Status); "zone" := zone]}
      else [Resolve KindGCEInstance scope i.(gi_Name)]
  end.

Definition evaluateCloudSQL (project : string) (i : option DatabaseInstance) : list verdict :=
  match i with
  | None => []
  | Some i =>
    let name := i.(di_Name) in
    if streq name "" then []
    else
      let scope := Scope project i.(di_Region) in
      let st := i.(di_State) in
      let details := {["state" := st; "databaseVersion" := i.(di_Version); "region" := i.(di_Region)]} in
      let summary := "Cloud SQL instance " +:+ name +:+ " state is " +:+ st in
      if streq st "RUNNABLE" then [Resolve KindCloudSQLInstance scope name]
      else if streq st "FAILED" || streq st "SUSPENDED" then
        emitFiring KindCloudSQLInstance scope name "CloudSQLInstanceUnhealthy" summary SeverityCritical details
      else emitFiring KindCloudSQLInstance scope name "CloudSQLInstanceNotRunnable" summary SeverityWarning details
  end.

End gcp.

(** ** The listers. An iterator or page callback of the SDK is what it yields before it ends,
    with the error it ends with. *)

Section listers.
Context `{Runtime} `{GcpTypes} `{MapRange}.

Definition sourceGKE : string := "gcp-gke".
Definition sourceGCPMonitoring : string := "gcp-monitoring".
Definition sourceGCE : string := "gcp-compute".
Definition sourceCloudSQL : string := "gcp-cloudsql".

(** A client is its list call, given the project. *)
Definition ClusterManagerClient : Type := string → world → (error + list (option Cluster) * list string) * world.
Definition AlertPolicyClient : Type := string → world → (list (option AlertPolicy) * option error) * world.
Definition ComputeService : Type := string → world → (list (gmap string (list (option Instance_))) * option error) * world.
Definition SqlService : Type := string → string → world → (error + list (option DatabaseInstance) * string) * world.

Definition gke_List (client : ClusterManagerClient) (project : string) : @M _ (option Cluster) Empty_set (error + list (option Cluster)) :=
  let! resp := ask (client project) in
  match resp with
  | inl err => ret (inl err)
  | inr (clusters, zones) =>
    (if (0 <? length zones)%nat
     then PollErr sourceGKE project (Some (OtherError ("gke list incomplete, missing zones: [" +:+ Join zones " " +:+ "]")))
     else ret tt) ;;! ret (inr clusters)
  end.

Definition policy_List (client : AlertPolicyClient) (project : string) : @M _ (option AlertPolicy) Empty_set (error + list (option AlertPolicy)) :=
  let! resp := ask (client project) in
  ret (match resp with (out, None) => inr out | (_, Some err) => inl err end).

(** Within a page the instances come in the order of a map iteration over the zones. *)
Definition gce_List (client : ComputeService) (project : string) : @M _ (option Instance_) Empty_set (error + list (option Instance_)) :=
  let! resp := ask (client project) in
  ret (match resp with
       | (pages, None) => inr (pages ≫= λ page, concat (range page).*2)
       | (_, Some err) => inl err
       end).

Definition sql_List (svc : SqlService) (project : string) : @M _ (option DatabaseInstance) Empty_set (error + list (option DatabaseInstance)) :=
  sql_loop MaxPages sourceCloudSQL project (svc project) "" [].

Class GcpSdk := {
  NewClusterManagerClient : error + ClusterManagerClient;
  NewAlertPolicyClient : error + AlertPolicyClient;
  NewComputeService : error + ComputeService;
  NewSqlService : error + SqlService;
}.
Context `{GcpSdk}.

Definition list_source {C N} (name service : string) (projects : list string) (client : error + C)
    (list_call : C → string → @M _ N Empty_set (error + list N)) (eval : string → N → list verdict) : error + option Source :=
  match client with
  | inl err => inl (gcp_clientErr service err)
  | inr client => inr (Some (NewListSource name (perProject projects (list_call client)) eval))
  end.

Definition buildSources (cfg : GCP) : error + list Source :=
  let projects := cfg.(Gc_Projects) in
  BuildAll
    [buildProject cfg.(Gc_GKE) projects (list_source sourceGKE "cluster manager" projects NewClusterManagerClient gke_List evaluateGKE);
     buildProject cfg.(Gc_Monitoring) projects
       (list_source sourceGCPMonitoring "alert policy" projects NewAlertPolicyClient policy_List evaluateAlertPolicy);
     buildProject cfg.(Gc_Compute) projects (list_source sourceGCE "compute" projects NewComputeService gce_List evaluateGCEInstance);
     buildProject cfg.(Gc_CloudSQL) projects (list_source sourceCloudSQL "sqladmin" projects NewSqlService sql_List evaluateCloudSQL)].

End listers.
End Gcp.

(** ** Every evaluator keeps the contract *)

(** [Reason] prefixes are never empty. *)
Lemma app_nonempty c s t : String c s +:+ t ≠ "".
Proof. done. Qed.

Lemma sound_one provider k scope name reason summary sev details :
  Kind_valid k = true → Severity_Valid sev = true → streq reason "" = false →
  forallb (sound_verdict provider) [Firing k scope name reason summary sev {["provider" := provider]} details] = true.
Proof. intros Hk Hs Hr. simpl. rewrite Hk, Hs, Hr. simpl. by rewrite lookup_singleton_eq, bool_decide_eq_true_2. Qed.
Lemma sound_clear provider k scope name : Kind_valid k = true → forallb (sound_verdict provider) [Resolve k scope name] = true.
Proof. intros Hk. simpl. by rewrite Hk. Qed.

Ltac cloud_branch :=
  try unfold Azure.emitFiring; try unfold Gcp.emitFiring;
  lazymatch goal with
  | |- _ <$> _ = _ => reflexivity
  | |- forallb _ [] = true => reflexivity
  | |- forallb _ [Resolve _ _ _] = true => apply sound_clear; vm_compute; reflexivity
  | |- forallb _ [Firing _ _ _ _ _ _ _ _] = true => apply sound_one; [vm_compute; reflexivity|try assumption; vm_compute; reflexivity|reflexivity]
  end.

(** Flattening the verdicts of embedded pools. *)
Lemma bind_contract {X} provider (ids : X → list identity) (eval : X → list verdict) (l : list X) :
  (∀ x, verdict_id <$> eval x = ids x) → (∀ x, forallb (sound_verdict provider) (eval x) = true) →
  verdict_id <$> (l ≫= eval) = l ≫= ids ∧ forallb (sound_verdict provider) (l ≫= eval) = true.
Proof.
  intros Hi Hs. induction l as [|x l [IH1 IH2]]; [done|].
  by rewrite !bind_cons, fmap_app, forallb_app, Hi, IH1, Hs, IH2.
Qed.

Section azure_contract.
Import Azure.
Context `{AzureTypes}.

Lemma aksHealth_valid state power : (aksHealth state power).2 = true → Severity_Valid (aksHealth state power).1.2 = true.
Proof. unfold aksHealth. by branches. Qed.

Definition aks_ids (subscription : string) (c : option ManagedCluster) : list identity :=
  match c with Some c => named KindAKSCluster (Scope subscription (ToString c.(mc_Location))) (ToString c.(mc_Name)) | None => [] end.
Definition pool_ids (scope cluster : string) (p : option AgentPool) : list identity :=
  match p with
  | Some p => if streq (ToString p.(ap_Name)) "" then [] else [(KindAKSNodePool, scope, cluster +:+ "/" +:+ ToString p.(ap_Name))]
  | None => []
  end.
Definition aks_pool_ids (subscription : string) (c : option ManagedCluster) : list identity :=
  match c with
  | Some (MkManagedCluster name location (Some p)) =>
    if streq (ToString name) "" then [] else p.(mp_Pools) ≫= pool_ids (Scope subscription (ToString location)) (ToString name)
  | _ => []
  end.

#[global] Instance evaluateAKSCluster_sound : Evaluator provider aks_ids evaluateAKSCluster.
Proof.
  split; intros scope [c|]; try done; unfold evaluateAKSCluster, aks_ids, named; cbn zeta.
  all: destruct (streq _ ""); [done|].
  all: destruct (match mc_Properties c with Some _ => _ | None => _ end) as [state power].
  all: pose proof (aksHealth_valid state power) as Hv; destruct (aksHealth state power) as [[suffix sev] []]; cbn [fst snd negb] in *.
  all: try specialize (Hv eq_refl); cloud_branch.
Qed.
Lemma pool_contract scope cluster p :
  verdict_id <$> evaluate_pool scope cluster p = pool_ids scope cluster p
  ∧ forallb (sound_verdict provider) (evaluate_pool scope cluster p) = true.
Proof.
  split; destruct p as [p|]; try done; unfold evaluate_pool, pool_ids; cbn zeta.
  all: destruct (streq _ ""); [done|].
  all: pose proof (aksHealth_valid (ToString p.(ap_State)) (aksPower p.(ap_Power))) as Hv.
  all: destruct (aksHealth _ _) as [[suffix sev] []]; cbn [fst snd negb] in *; try specialize (Hv eq_refl); cloud_branch.
Qed.
#[global] Instance evaluateAKS_sound : Evaluator provider (λ s c, aks_ids s c ++ aks_pool_ids s c) evaluateAKS.
Proof.
  assert (Hp : ∀ s c, verdict_id <$> evaluateAKSNodePools s c = aks_pool_ids s c
                      ∧ forallb (sound_verdict provider) (evaluateAKSNodePools s c) = true).
  { intros s [[name location [p|]]|]; try done. unfold evaluateAKSNodePools, aks_pool_ids. cbn.
    destruct (streq _ ""); [done|]. apply bind_contract; intros x; apply pool_contract. }
  split; intros s c; unfold evaluateAKS; destruct (Hp s c) as [H1 H2].
  - by rewrite fmap_app, eval_identities, H1.
  - by rewrite forallb_app, eval_sound, H2.
Qed.
#[global] Instance evaluateAzureAlert_sound :
  Evaluator provider (λ s al, match al with
    | Some (MkMonitorAlert name (Some e)) => match e.(es_Condition) with Some _ => named KindAzureMonitorAlert s (ToString name) | None => [] end
    | _ => [] end) evaluateAzureAlert.
Proof.
  assert (Hsev : ∀ s, Severity_Valid (azureSeverity s) = true) by (intros s; unfold azureSeverity; by branches).
  split; intros s [[name [e|]]|]; unfold evaluateAzureAlert, named; cbn -[ToString]; try done; try (by destruct (streq _ "")).
  all: destruct (streq (ToString name) ""), (es_Condition e); try done; destruct (streq _ _); try cloud_branch.
  apply sound_one; [by vm_compute| |done]. by destruct (es_Severity e).
Qed.
#[global] Instance evaluateRedisCache_sound :
  Evaluator provider (λ s c, match c with
    | Some (MkResource (Some name) location _) => [(KindAzureRedis, Scope s (ToString location), name)] | _ => [] end) evaluateRedisCache.
Proof. split; intros s [[[name|] location state]|]; try done; unfold evaluateRedisCache; cbn; branches; cloud_branch. Qed.
#[global] Instance evaluateSQLDatabase_sound :
  Evaluator provider (λ s db, if streq db.(sq_name) "" then [] else [(KindAzureSQLDatabase, Scope s db.(sq_location), db.(sq_server) +:+ "/" +:+ db.(sq_name))])
    evaluateSQLDatabase.
Proof. split; intros s db; unfold evaluateSQLDatabase; cbn zeta; branches; cloud_branch. Qed.
#[global] Instance evaluateStorageAccount_sound :
  Evaluator provider (λ s a, match a with Some a => named KindAzureStorage (Scope s (ToString a.(rs_Location))) (ToString a.(rs_Name)) | None => [] end)
    evaluateStorageAccount.
Proof. split; intros s [a|]; try done; unfold evaluateStorageAccount, named; cbn zeta; branches; cloud_branch. Qed.
#[global] Instance evaluateVM_sound :
  Evaluator provider (λ s a, match a with Some a => named KindAzureVM (Scope s (ToString a.(rs_Location))) (ToString a.(rs_Name)) | None => [] end)
    evaluateVM.
Proof. split; intros s [a|]; try done; unfold evaluateVM, named; cbn zeta; branches; cloud_branch. Qed.
End azure_contract.

Section gcp_contract.
Import Gcp.
Context `{GcpTypes}.

Definition gke_ids (project : string) (c : option Cluster) : list identity :=
  match c with Some c => named KindGKECluster (Scope project c.(gc_Location)) c.(gc_Name) | None => [] end.
Definition node_pool_ids (scope cluster : string) (p : option NodePool) : list identity :=
  match p with
  | Some p => if streq p.(np_Name) "" then [] else [(KindGKENodePool, scope, cluster +:+ "/" +:+ p.(np_Name))]
  | None => []
  end.
Definition gke_pool_ids (project : string) (c : option Cluster) : list identity :=
  match c with
  | Some c => if streq c.(gc_Name) "" then [] else c.(gc_NodePools) ≫= node_pool_ids (Scope project c.(gc_Location)) c.(gc_Name)
  | None => []
  end.

#[global] Instance evaluateGKECluster_sound : Evaluator provider gke_ids evaluateGKECluster.
Proof. split; intros s [c|]; try done; unfold evaluateGKECluster, gke_ids, named; cbn zeta; branches; cloud_branch. Qed.
#[global] Instance evaluateGKE_sound : Evaluator provider (λ s c, gke_ids s c ++ gke_pool_ids s c) evaluateGKE.
Proof.
  assert (Hp : ∀ s c, verdict_id <$> evaluateGKENodePools s c = gke_pool_ids s c
                      ∧ forallb (sound_verdict provider) (evaluateGKENodePools s c) = true).
  { intros s [c|]; [|done]. unfold evaluateGKENodePools, gke_pool_ids. cbn zeta.
    destruct (streq _ ""); [done|].
    apply bind_contract; intros [np|]; try done; unfold evaluate_pool, node_pool_ids; cbn zeta; branches; cloud_branch. }
  split; intros s c; unfold evaluateGKE; destruct (Hp s c) as [H1 H2].
  - by rewrite fmap_app, eval_identities, H1.
  - by rewrite forallb_app, eval_sound, H2.
Qed.
#[global] Instance evaluateAlertPolicy_sound :
  Evaluator provider (λ s p, match p with Some p => named KindGCPAlertPolicy s p.(pl_Name) | None => [] end) evaluateAlertPolicy.
Proof. split; intros s [p|]; try done; unfold evaluateAlertPolicy, named; cbn zeta; branches; cloud_branch. Qed.
#[global] Instance evaluateGCEInstance_sound :
  Evaluator provider (λ s i, match i with Some i => named KindGCEInstance (Scope s (shortZone i.(gi_Zone))) i.(gi_Name) | None => [] end) evaluateGCEInstance.
Proof. split; intros s [i|]; try done; unfold evaluateGCEInstance, named; cbn zeta; branches; cloud_branch. Qed.
#[global] Instance evaluateCloudSQL_sound :
  Evaluator provider (λ s i, match i with Some i => named KindCloudSQLInstance (Scope s i.(di_Region)) i.(di_Name) | None => [] end) evaluateCloudSQL.
Proof. split; intros s [i|]; try done; unfold evaluateCloudSQL, named; cbn zeta; branches; cloud_branch. Qed.
End gcp_contract.

(** ** The listers emit nothing themselves *)

Section quiet.
Context `{Runtime}.

Lemma arm_List_quiet {T} source (p : Azure.Pager T) : quiet (Azure.arm_List source p).
Proof. apply owes_drain_loop. Qed.
Lemma azure_sql_quiet servers databases : quiet (Azure.sql_List servers databases).
Proof.
  apply owes_bind; [apply owes_drain_loop|]. intros [err|servers']; [apply owes_ret|]. generalize ([] : list Azure.sqlDatabase).
  induction servers' as [|[[[name|] [id|] location]|] servers' IH]; intros dbs; cbn [Azure.sql_servers]; try apply IH; [apply owes_ret|].
  cbn zeta. destruct (streq _ ""); [apply IH|]. apply owes_bind; [apply owes_drain_loop|].
  intros [err|dbs']; [|apply IH]. apply owes_bind; [apply owes_PollErr|intros; apply IH].
Qed.
Lemma gke_quiet client project : quiet (Gcp.gke_List client project).
Proof.
  apply owes_bind; [apply owes_ask|]. intros [err|[clusters zones]]; [apply owes_ret|].
  apply owes_bind; [|intros; apply owes_ret]. destruct (0 <? length zones)%nat; [apply owes_PollErr|apply owes_ret].
Qed.
Lemma policy_quiet client project : quiet (Gcp.policy_List client project).
Proof. apply owes_bind; [apply owes_ask|intros; apply owes_ret]. Qed.
Lemma gce_quiet `{MapRange} client project : quiet (Gcp.gce_List client project).
Proof. apply owes_bind; [apply owes_ask|intros; apply owes_ret]. Qed.
Lemma gcp_sql_quiet svc project : quiet (Gcp.sql_List svc project).
Proof. apply owes_sql_loop. Qed.
End quiet.

(** Two projects; the second one's list fails, and the first one's instance is repaired. *)
Definition example_gce : @Gcp.ComputeService (Toy.runtime 10) := λ project w,
  (if streq project "p1" then ([{["zones/a" := [Some (Gcp.MkInstance "vm" "https://gcp/zones/a" "REPAIRING")]]}], None)
   else ([], Some (APIError "Forbidden" "no")), S w).
Definition example_scopes := perProject ["p1"; "p2"] (@Gcp.gce_List (Toy.runtime 10) canonical_range example_gce).

Lemma list_poll_accounts_witness :
  let t := (list_Poll Gcp.sourceGCE example_scopes Gcp.evaluateGCEInstance 0%nat).2 in
  ((λ a, (a_Namespace a, a_Name a, a_Reason a)) <$> emitted t = [("p1/a", "vm", "GCEInstanceRepairing")])
  ∧ PollError Gcp.sourceGCE "p2" (APIError "Forbidden" "no") ∈ t.
Proof.
  intros t. assert (Hq : Forall (λ sc, quiet sc.(sc_List)) example_scopes).
  { repeat constructor; apply gce_quiet. }
  pose proof (list_poll_accounts Gcp.sourceGCE Gcp.evaluateGCEInstance example_scopes 0%nat Hq) as Hp.
  split; [vm_compute; reflexivity|].
  assert (Ht : t = (list_Poll Gcp.sourceGCE example_scopes Gcp.evaluateGCEInstance 0%nat).2) by reflexivity.
  assert (Hin : (Some "p2", inl (APIError "Forbidden" "no")) ∈ listed t) by (vm_compute; right; left).
  revert Hin. rewrite Ht. clear t Ht. destruct (list_Poll _ _ _ _) as [[u w] t]. destruct Hp as [Hr _].
  intros Hin. by apply (Hr "p2").
Defined.
