(* ===== verification/SourceRunner.v ===== *)
(** * internal/sources: the poll loop, and what polls mean to the alert store

    runner.go: [runOne] as a timed step relation. The state is the clock, what the goroutine is
    doing, the ticker (its next tick and whether its one-slot channel is full), the context,
    and the times at which polls started. Time passes only where the program waits: a poll may
    take up to its deadline and [slack] more to return, because sources return promptly when
    their context ends; a goroutine with a full channel proceeds at once. A poll that panics is
    recovered and ends like any other, so one step ends both. [Run] starts one such loop per
    source, and they share nothing but the emitter. *)
From S2P Require Import Prelude GoStd AlertModel AlertStore Config Sources AwsEval.

Definition maxStartupJitter : duration := 5 * Second.
Definition pollDeadlineFactor : Z := PollDeadlineFactor.

(** [rand n] is [rand.Int64N(n)]. *)
Definition startupJitter (rand : Z → Z) (interval : duration) : duration :=
  let limit := maxStartupJitter in
  let limit := if interval <? limit then interval else limit in
  if limit <=? 0 then 0 else rand limit.

(** The timeout of a poll's context. *)
Definition poll_timeout (interval : duration) : duration := wrap64 (pollDeadlineFactor * interval).

(** [Run] starts nothing without sources or with a non-positive interval. *)
Definition Run_starts {S} (interval : duration) (srcs : list S) : list S :=
  if (length srcs =? 0)%nat || (interval <=? 0) then [] else srcs.

Inductive phase := Jitter (until : time) | Polling (start : time) | Waiting | Stopped.

Record runner := MkRunner {
  r_now : time;
  r_phase : phase;
  r_ticker : option (time * bool); (** next tick, channel full *)
  r_cancelled : bool;
  r_starts : list time;            (** of the polls, latest first *)
}.

Section runOne.
Variables (interval slack : duration).

(** Time may pass until [t] while the goroutine is in this phase. *)
Definition may_wait (st : runner) (t : time) : Prop :=
  match st.(r_phase) with
  | Jitter until => t <= until
  | Polling start => t <= start + poll_timeout interval + slack
  | Waiting => ∃ next, st.(r_ticker) = Some (next, false)
  | Stopped => True
  end
  ∧ match st.(r_ticker) with Some (next, _) => t <= next | None => True end.

Inductive run_step : runner → runner → Prop :=
  | step_elapse st t :
      st.(r_now) < t → may_wait st t →
      run_step st (MkRunner t st.(r_phase) st.(r_ticker) st.(r_cancelled) st.(r_starts))
  | step_tick st full :
      st.(r_ticker) = Some (st.(r_now), full) →
      run_step st (MkRunner st.(r_now) st.(r_phase) (Some (st.(r_now) + interval, true)) st.(r_cancelled) st.(r_starts))
  | step_cancel st : run_step st (MkRunner st.(r_now) st.(r_phase) st.(r_ticker) true st.(r_starts))
  (** the first poll, unless the context is done already *)
  | step_first now starts :
      run_step (MkRunner now (Jitter now) None false starts) (MkRunner now (Polling now) None false (now :: starts))
  | step_skip now starts :
      run_step (MkRunner now (Jitter now) None true starts) (MkRunner now Waiting (Some (now + interval, false)) true starts)
  (** it returns and the ticker is made *)
  | step_first_return now start cancelled starts :
      run_step (MkRunner now (Polling start) None cancelled starts) (MkRunner now Waiting (Some (now + interval, false)) cancelled starts)
  | step_return now start next full cancelled starts :
      run_step (MkRunner now (Polling start) (Some (next, full)) cancelled starts) (MkRunner now Waiting (Some (next, full)) cancelled starts)
  (** [case <-t.C]; when the context is done as well, either case may be taken *)
  | step_poll now next cancelled starts :
      run_step (MkRunner now Waiting (Some (next, true)) cancelled starts) (MkRunner now (Polling now) (Some (next, false)) cancelled (now :: starts))
  (** [case <-ctx.Done()] *)
  | step_stop now until ticker starts :
      run_step (MkRunner now (Jitter until) ticker true starts) (MkRunner now Stopped None true starts)
  | step_done now ticker starts :
      run_step (MkRunner now Waiting ticker true starts) (MkRunner now Stopped None true starts).

Definition launch (now : time) (jitter : duration) : runner := MkRunner now (Jitter (now + jitter)) None false [].

(** ** How far apart polls start *)

(** From the latest start on: at most this long until the next. After the first poll the
    ticker is only made when it returns. *)
Definition allowance (earlier : list time) : duration :=
  match earlier with [] => 3 * interval + slack | _ => 2 * interval + slack end.

Fixpoint spaced (starts : list time) : Prop :=
  match starts with
  | later :: ((start :: earlier) as starts) => start <= later <= start + allowance earlier ∧ spaced starts
  | _ => True
  end.

(** The next poll is not overdue. *)
Definition recent (st : runner) : Prop :=
  match st.(r_starts) with
  | start :: earlier => start <= st.(r_now) ∧ (st.(r_phase) ≠ Stopped → st.(r_now) <= start + allowance earlier)
  | [] => True
  end.

Definition run_inv (first : time) (st : runner) : Prop :=
  spaced st.(r_starts)
  ∧ match st.(r_phase), st.(r_ticker) with
    | Jitter until, None => st.(r_starts) = [] ∧ until = first ∧ st.(r_now) <= first
    | Polling start, None => st.(r_starts) = [start] ∧ start = first ∧ start <= st.(r_now) <= start + 2 * interval + slack
    | Polling start, Some (next, full) =>
        ∃ earlier, st.(r_starts) = start :: earlier ∧ start <= st.(r_now) <= start + 2 * interval + slack
        ∧ st.(r_now) <= next <= st.(r_now) + interval ∧ (full = false → next <= start + interval)
    | Waiting, Some (next, full) =>
        st.(r_now) <= next <= st.(r_now) + interval
        ∧ match st.(r_starts) with
          | start :: earlier => start <= st.(r_now) <= start + allowance earlier ∧ (full = false → next <= start + allowance earlier)
          | [] => True
          end
    | Stopped, None => st.(r_cancelled) = true ∧ match st.(r_starts) with start :: _ => start <= st.(r_now) | [] => True end
    | _, _ => False
    end.

Hypothesis interval_pos : 0 < interval.
Hypothesis interval_fits : 2 * interval < 2 ^ 63.
Hypothesis slack_pos : 0 <= slack.

Lemma poll_timeout_exact : poll_timeout interval = 2 * interval.
Proof using interval_pos interval_fits. apply wrap64_small. unfold in64, pollDeadlineFactor, PollDeadlineFactor. lia. Qed.

Lemma allowance_ge earlier : 2 * interval + slack <= allowance earlier.
Proof using interval_pos. destruct earlier; simpl; lia. Qed.

Lemma run_inv_step first st st' : run_inv first st → run_step st st' → run_inv first st'.
Proof using Type*.
  intros [Hsp Hi] Hstep. pose proof poll_timeout_exact as Ht.
  destruct Hstep; unfold run_inv, may_wait in *; simpl in *; (split; [try done|]).
  - destruct st as [now ph tk c starts]; simpl in *. destruct H0 as [Hw Hn].
    destruct ph as [until|start| |], tk as [[next full]|]; simpl in *; try done.
    + naive_solver lia.
    + destruct Hi as (e & -> & ? & ? & ?). exists e. split_and!; try done; lia.
    + naive_solver lia.
    + destruct Hw as [n Hw]. injection Hw as <- ->. destruct Hi as [? Hi]. split; [lia|].
      destruct starts as [|s e]; [done|]. destruct Hi as [? Hf]. split; [|done]. specialize (Hf eq_refl). lia.
    + split; [apply Hi|]. destruct starts; [done|lia].
  - destruct st as [now ph tk c starts]; simpl in *. subst tk.
    destruct ph as [until|start| |]; try done.
    + destruct Hi as (e & -> & ? & ? & ?). exists e. split_and!; try done; lia.
    + destruct Hi as [? Hi]. split; [lia|]. destruct starts as [|s e]; [done|]. split; [lia|done].
  - destruct st as [now ph tk c starts]; simpl in *. destruct ph, tk as [[? ?]|]; naive_solver.
  - destruct Hi as (-> & _). done.
  - destruct Hi as (-> & -> & ?). split_and!; try done; lia.
  - destruct Hi as (-> & _). split; [lia|done].
  - destruct Hi as (-> & -> & ?). split; [lia|]. simpl. split; [lia|]. intros _. lia.
  - destruct Hi as (e & -> & ? & ? & Hf). split; [lia|]. pose proof (allowance_ge e).
    split; [lia|]. intros E. specialize (Hf E). lia.
  - destruct starts as [|s e]; [done|]. destruct Hi as (? & ? & _). by split.
  - destruct Hi as [? Hi]. exists starts. split_and!; try done; lia.
  - destruct ticker as [[? ?]|]; [done|]. by destruct Hi as (-> & _).
  - destruct ticker as [[? ?]|]; [|done]. destruct Hi as [_ Hi]. split; [done|]. destruct starts; [done|lia].
Qed.

Lemma run_inv_launch now jitter : 0 <= jitter → run_inv (now + jitter) (launch now jitter).
Proof using Type. intros Hj. split; [done|]. simpl. split_and!; [done|done|lia]. Qed.

Lemma run_inv_run first st st' : run_inv first st → rtc run_step st st' → run_inv first st'.
Proof using Type*. intros H0 Hr. induction Hr as [|st0 st1 st2 Hs _ IH]; [done|]. apply IH. by eapply run_inv_step. Qed.

Lemma run_inv_recent first st : run_inv first st → recent st.
Proof using interval_pos.
  intros [_ Hi]. unfold recent. destruct st as [t ph tk c starts]; simpl in *. destruct starts as [|s e]; [done|].
  pose proof (allowance_ge e). destruct ph as [u|p| |], tk as [[n f]|]; try done; naive_solver lia.
Qed.

(** While the context lives, the goroutine waits out its jitter or made its first poll then. *)
Definition begun (first : time) (st : runner) : Prop :=
  match st.(r_phase) with
  | Jitter until => until = first ∧ st.(r_starts) = []
  | _ => last st.(r_starts) = Some first
  end.

Lemma begun_run first st st' :
  (st.(r_cancelled) = false → begun first st) → rtc run_step st st' → st'.(r_cancelled) = false → begun first st'.
Proof using Type.
  unfold begun. intros H0 Hr. induction Hr as [|st0 st1 st2 Hs _ IH]; [done|]. apply IH.
  destruct Hs; simpl in *; try done.
  - intros E. destruct (H0 E) as [-> ->]. done.
  - intros E. specialize (H0 E). by destruct starts.
Qed.

(** Each poll buys the loop two intervals and the slack, the first one an interval more. *)
Lemma spaced_length starts first now :
  spaced starts → last starts = Some first →
  match starts with start :: earlier => now <= start + allowance earlier | [] => True end →
  now <= first + (2 * interval + slack) * Z.of_nat (length starts) + interval.
Proof using Type.
  revert now. induction starts as [|later starts IH]; intros now Hsp Hl Hn; [done|].
  destruct starts as [|start earlier]; simpl in Hl; [simplify_eq; cbn [allowance length] in *; lia|].
  destruct Hsp as [Hd Hsp]. cbn [allowance] in Hn.
  specialize (IH later Hsp Hl ltac:(lia)). cbn [length] in *. lia.
Qed.

(** ** The loop goes on *)

(** From the select, one tick on: the tick, the poll it starts, and its return. *)
Lemma one_round now next starts :
  now <= next →
  ∃ starts', rtc run_step (MkRunner now Waiting (Some (next, false)) false starts)
                          (MkRunner next Waiting (Some (next + interval, false)) false starts').
Proof using Type.
  intros Hle. exists (next :: starts).
  assert (Hw : rtc run_step (MkRunner now Waiting (Some (next, false)) false starts) (MkRunner next Waiting (Some (next, false)) false starts)).
  { destruct (decide (now = next)) as [->|Hne]; [done|]. apply rtc_once.
    apply (step_elapse (MkRunner now Waiting (Some (next, false)) false starts) next); simpl; [lia|].
    split; simpl; [by eexists|lia]. }
  etrans; [exact Hw|]. eapply rtc_l; [by apply (step_tick (MkRunner next Waiting (Some (next, false)) false starts) false)|].
  eapply rtc_l; [apply step_poll|]. apply rtc_once, step_return.
Qed.

Lemma rounds (n : nat) now next starts :
  now <= next →
  ∃ starts', rtc run_step (MkRunner now Waiting (Some (next, false)) false starts)
      (MkRunner (next + Z.of_nat n * interval) Waiting (Some (next + Z.of_nat n * interval + interval, false)) false starts').
Proof using interval_pos.
  revert now next starts. induction n as [|n IH]; intros now next starts Hle.
  - replace (next + Z.of_nat 0 * interval) with next by lia. by apply one_round.
  - destruct (one_round now next starts Hle) as [s1 H1]. destruct (IH next (next + interval) s1 ltac:(lia)) as [s2 H2].
    exists s2. etrans; [exact H1|]. by replace (next + Z.of_nat (S n) * interval) with (next + interval + Z.of_nat n * interval) by lia.
Qed.

(** Whatever the goroutine is doing, it gets to the select, with an empty channel. *)
Lemma gets_to_select first st :
  run_inv first st → st.(r_cancelled) = false →
  ∃ now next starts, now <= next ∧ rtc run_step st (MkRunner now Waiting (Some (next, false)) false starts).
Proof using interval_pos.
  intros [_ Hi] Hc. destruct st as [now ph tk c starts]. cbn [r_cancelled] in Hc. subst c.
  assert (Hselect : ∀ now next full starts, now <= next → ∃ now' next' starts', now' <= next' ∧
    rtc run_step (MkRunner now Waiting (Some (next, full)) false starts) (MkRunner now' Waiting (Some (next', false)) false starts')).
  { clear. intros now next [] starts Hle; exists now, next; [|by exists starts].
    exists (now :: starts). split; [done|]. eapply rtc_l; [apply step_poll|]. apply rtc_once, step_return. }
  destruct ph as [until|start| |], tk as [[next full]|]; simpl in Hi; try done; [| | | |by destruct Hi].
  - destruct Hi as (-> & -> & Hle). exists first, (first + interval), [first]. split; [lia|].
    assert (Hw : rtc run_step (MkRunner now (Jitter first) None false []) (MkRunner first (Jitter first) None false [])).
    { destruct (decide (now = first)) as [->|Hne]; [done|]. apply rtc_once.
      apply (step_elapse (MkRunner now (Jitter first) None false []) first); simpl; [lia|split; simpl; [lia|done]]. }
    etrans; [exact Hw|]. eapply rtc_l; [apply step_first|]. apply rtc_once, step_first_return.
  - destruct Hi as (e & -> & _ & Hn & _). destruct (Hselect now next full (start :: e)) as (n' & x' & s' & Hle & Hr); [lia|].
    exists n', x', s'. split; [done|]. eapply rtc_l; [apply step_return|done].
  - exists now, (now + interval), starts. split; [lia|]. apply rtc_once, step_first_return.
  - apply Hselect. lia.
Qed.

(** C26: a running source is polled again and again, one poll at a time, until its context is
    cancelled. The first poll starts right when the jitter ends; each later one starts within
    twice the interval and [slack] of the one before (the second one within three times, since
    the ticker is made when the first poll has returned), where [slack] is how long after its
    deadline a poll may take to return; until the loop has stopped the next poll is never
    overdue by that measure. So at any time the number of polls started is at least the time
    since the jitter, less an interval, divided by two intervals and the slack; and the loop
    never gets stuck: from every state it can reach it can go on past any time, whatever polls
    did before - return, hang until their deadline, or panic. *)
Theorem polls_recur now jitter st :
  0 <= jitter → rtc run_step (launch now jitter) st →
  spaced st.(r_starts) ∧ recent st
  ∧ (st.(r_cancelled) = false →
       (if decide (st.(r_starts) = []) then st.(r_now) <= now + jitter else last st.(r_starts) = Some (now + jitter))
       ∧ st.(r_now) <= now + jitter + (2 * interval + slack) * Z.of_nat (length st.(r_starts)) + interval
       ∧ ∀ T, ∃ st', rtc run_step st st' ∧ st'.(r_cancelled) = false ∧ T <= st'.(r_now)).
Proof using Type*.
  intros Hj Hr. assert (Hinv := run_inv_run _ _ _ (run_inv_launch now jitter Hj) Hr).
  split; [apply Hinv|]. split; [by eapply run_inv_recent|]. intros Hc.
  assert (Hb : begun (now + jitter) st) by (apply (begun_run _ (launch now jitter) st); [by split|done|done]).
  assert (Hfirst : if decide (r_starts st = []) then r_now st <= now + jitter else last (r_starts st) = Some (now + jitter)).
  { destruct Hinv as [_ Hi]. unfold begun in Hb. destruct st as [t ph tk c starts]; simpl in *.
    case_decide as E; [subst starts|by destruct ph as [u|p| |]; [destruct Hb as [_ Hb]|..]].
    destruct ph as [u|p| |], tk as [[? ?]|]; try done. lia. }
  split; [done|]. split.
  - case_decide as E; [rewrite E; cbn [length]; lia|].
    apply spaced_length; [apply Hinv|done|]. pose proof (run_inv_recent _ _ Hinv) as Hrec. unfold recent in Hrec.
    destruct (r_starts st) as [|s e]; [done|]. apply Hrec. intros Hst. destruct Hinv as [_ Hi]. rewrite Hst in Hi.
    destruct (r_ticker st) as [[? ?]|]; [done|]. rewrite Hc in Hi. by destruct Hi.
  - intros T. destruct (gets_to_select _ _ Hinv Hc) as (t & next & starts & Hle & H1).
    destruct (rounds (Z.to_nat (T - next)) t next starts Hle) as [starts' H2].
    eexists. split; [etrans; [exact H1|exact H2]|]. split; [done|]. simpl. nia.
Qed.

End runOne.

Lemma polls_recur_witness :
  let st := MkRunner 122 Waiting (Some (182, false)) false [2] in spaced 60 1 st.(r_starts) ∧ recent 60 1 st.
Proof.
  assert (Hr : rtc (run_step 60 1) (launch 0 2) (MkRunner 122 Waiting (Some (182, false)) false [2])).
  { apply (rtc_l _ _ (MkRunner 2 (Jitter 2) None false [])); [apply (step_elapse 60 1 (launch 0 2) 2); [done|by split]|].
    eapply rtc_l; [apply step_first|].
    eapply rtc_l; [apply (step_elapse 60 1 (MkRunner 2 (Polling 2) None false [2]) 122); [done|by split]|].
    eapply rtc_l; [apply step_first_return|]. apply rtc_refl. }
  destruct (polls_recur 60 1 eq_refl eq_refl ltac:(lia) 0 2 _ ltac:(lia) Hr) as (H1 & H2 & _). by split.
Defined.

(** The second poll can start three intervals after the first. *)
Example second_poll_late :
  rtc (run_step 60 0) (launch 0 2) (MkRunner 182 (Polling 182) (Some (242, false)) false [182; 2]).
Proof.
  apply (rtc_l _ _ (MkRunner 2 (Jitter 2) None false [])); [apply (step_elapse 60 0 (launch 0 2) 2); [done|by split]|].
  eapply rtc_l; [apply step_first|].
  eapply rtc_l; [apply (step_elapse 60 0 (MkRunner 2 (Polling 2) None false [2]) 122); [done|by split]|].
  eapply rtc_l; [apply step_first_return|].
  eapply rtc_l; [apply (step_elapse 60 0 (MkRunner 122 Waiting (Some (182, false)) false [2]) 182); [done|split; [by eexists|done]]|].
  eapply rtc_l; [by apply (step_tick 60 0 (MkRunner 182 Waiting (Some (182, false)) false [2]) false)|].
  eapply rtc_l; [apply step_poll|]. apply rtc_refl.
Qed.

(** ** Polls and the store *)

Section store.
Context `{MapRange}.

Definition identity_of (a : Alert) : identity := (a.(a_Kind), a.(a_Namespace), a.(a_Name)).
Definition is_resolve (v : verdict) : bool := match v with Resolve _ _ _ => true | _ => false end.

(** What the emitter does to the store with resolved alerts, each at its reading of the clock. *)
Fixpoint resolve_emitted (l : list (time * Alert)) (s : Store) : Store :=
  match l with
  | [] => s
  | (now, a) :: l => resolve_emitted l (ResolveObject now a.(a_Kind) a.(a_Namespace) a.(a_Name) s).1
  end.

Lemma ResolveObject_active now id s fp a :
  (ResolveObject now id.1.1 id.1.2 id.2 s).1.(st_active) !! fp = Some a ↔ s.(st_active) !! fp = Some a ∧ identity_of a ≠ id.
Proof.
  unfold ResolveObject. simpl. rewrite resolve_all_active.
  assert (Hof : ∀ b, of_object id.1.1 id.1.2 id.2 b = true ↔ identity_of b = id).
  { intros b. unfold of_object, identity_of. rewrite !andb_true_iff, !streq_true. destruct id as [[k ns] n]. simpl. naive_solver. }
  case_decide as Hin.
  - split; [done|]. intros [Ha Hne]. apply object_alerts_fst in Hin as (b & Hb & Ho%Hof). simplify_eq.
  - split; [|by intros [-> _]]. intros Ha. split; [done|]. intros Hid. apply Hin, object_alerts_fst.
    exists a. by rewrite Hof.
Qed.

Lemma resolve_emitted_active l s fp a :
  (resolve_emitted l s).(st_active) !! fp = Some a ↔ s.(st_active) !! fp = Some a ∧ identity_of a ∉ identity_of <$> l.*2.
Proof.
  revert s. induction l as [|[now b] l IH]; intros s; simpl; [set_solver|].
  pose proof (ResolveObject_active now (identity_of b) s fp a) as Hb. simpl in Hb.
  rewrite IH, Hb, not_elem_of_cons. tauto.
Qed.

(** A poll that finds a resource healthy clears all that earlier polls may have fired for
    it and nothing else. For an evaluator of any cloud service: if it judges a resource and
    everything embedded in it healthy, then after the resolves it emits an alert is active
    exactly if it was before and belongs to none of the resource's identities, which do not
    depend on its state. *)
Theorem healthy_poll_clears {N} (provider : string) (ids : string → N → list identity) (eval : string → N → list verdict)
    (E : Evaluator provider ids eval) scope x l s :
  (∀ v, v ∈ eval scope x → is_resolve v = true) → Forall2 issues (eval scope x) l.*2 →
  (∀ a, a ∈ l.*2 → a.(a_Resolved) = true)
  ∧ ∀ fp a, (resolve_emitted l s).(st_active) !! fp = Some a ↔ s.(st_active) !! fp = Some a ∧ identity_of a ∉ ids scope x.
Proof.
  intros Hres Hiss. rewrite <- (eval_identities scope x).
  assert (Hg : (∀ a, a ∈ l.*2 → a_Resolved a = true) ∧ identity_of <$> l.*2 = verdict_id <$> eval scope x).
  { revert Hres. induction Hiss as [|v a vs as_ Hv _ IH]; intros Hres; [split; [set_solver|done]|].
    destruct IH as [IH1 IH2]; [set_solver|]. specialize (Hres v ltac:(left)).
    destruct v as [|k sc n]; [done|]. simpl in Hv. subst a. simpl. split; [|by f_equal].
    intros a [->|Ha]%elem_of_cons; [done|by apply IH1]. }
  destruct Hg as [Hg1 Hg2]. split; [done|]. intros fp a. by rewrite resolve_emitted_active, Hg2.
Qed.
End store.

(** An instance whose checks pass again clears the alert that its failed check fired. *)
#[local] Existing Instance documented_values.
Definition failed_instance : InstanceStatus := MkInstanceStatus (Some "i-1") (Some "impaired") (Some "ok") None.
Definition healthy_instance : InstanceStatus := MkInstanceStatus (Some "i-1") (Some "ok") None None.

Lemma healthy_poll_clears_witness :
  let fired := omap (λ v, match v with Firing k s n r su se la de => Some (EmitFiring t100 k s n r su se la de) | _ => None end)
                 (evaluateInstance "eu" failed_instance) in
  let store := foldl (λ s a, (ShouldSend t100 a s).1.2) (NewStore Minute Hour false) fired in
  size store.(st_active) = 1%nat
  ∧ ∀ fp a, (resolve_emitted [(t100, EmitResolve KindEC2Instance "eu" "i-1")] store).(st_active) !! fp ≠ Some a.
Proof.
  intros fired store.
  assert (Hres : ∀ v, v ∈ evaluateInstance "eu" healthy_instance → is_resolve v = true).
  { intros v Hv. vm_compute in Hv. apply list_elem_of_singleton in Hv as ->. reflexivity. }
  assert (Hiss : Forall2 issues (evaluateInstance "eu" healthy_instance) [(t100, EmitResolve KindEC2Instance "eu" "i-1")].*2)
    by (repeat constructor).
  split; [vm_compute; reflexivity|]. intros fp a Ha.
  apply (healthy_poll_clears provider _ evaluateInstance evaluateInstance_sound "eu" healthy_instance _ store Hres Hiss) in Ha as [Ha Hid].
  apply Hid. clear Hid Hres Hiss.
  assert (Hall : map_Forall (λ _ a, identity_of a = (KindEC2Instance, "eu", "i-1")) store.(st_active)).
  { refine (bool_decide_eq_true_1 _ _). vm_compute. reflexivity. }
  rewrite (Hall fp a Ha). left.
Defined.
