(* ===== verification/Crd.v ===== *)
(** * internal/crd: silences from custom resources

    Models internal/crd/silence.go: the cached store, the conversion of one custom resource,
    and the rebuild the informer's events run. The informer's cache and the decoding into the
    published type are arguments. *)
From stdpp Require Import sorting.
From S2P Require Import Prelude GoStd AlertModel Config ConfigTheory Router.

Definition maxSilenceDuration : duration := 30 * 24 * Hour.

(** ** SilenceStore *)

(** [cloneSilences]: the copies share nothing, so as values they are the originals. *)
Definition cloneSilences (items : list CfgSilence) : list CfgSilence := items.

Definition until_le (a b : CfgSilence) : Prop := String.le a.(Cs_Until) b.(Cs_Until).
#[global] Instance until_le_dec a b : Decision (until_le a b).
Proof. unfold until_le. apply _. Defined.

Record CrdStore := MkCrdStore { crd_items : list CfgSilence }.
Definition NewCrdStore : CrdStore := MkCrdStore [].

(** [replace]: sorted by the until text. *)
Definition crd_replace (items : list CfgSilence) (_ : CrdStore) : CrdStore :=
  MkCrdStore (merge_sort until_le (cloneSilences items)).

Definition crd_List (s : CrdStore) : list CfgSilence := cloneSilences s.(crd_items).

(** ** Custom resources *)

(** A cached object: its metadata and what decoding into [v1alpha1.Silence] gave. *)
Record CustomResource := MkCR {
  cr_Namespace : string;
  cr_Name : string;
  cr_Created : time;
  cr_Spec : option (gmap string string * string); (** matchers and until; [None] when undecodable *)
}.

Section crd.
Context `{RegexpLib} `{MapRange} `{TimeLib}.

Definition parseSilence (u : CustomResource) (now : time) : option CfgSilence :=
  match u.(cr_Spec) with
  | None => None
  | Some (matchers, until_text) =>
    if (size matchers =? 0)%nat then None
    else
      let ns := u.(cr_Namespace) in
      let other := match matchers !! "namespace" with Some want => negb (streq want ns) | None => false end in
      if negb (streq ns "") && other then None
      else
        let matchers := if negb (streq ns "") then <["namespace" := ns]> matchers else matchers in
        match SelectiveMatchers "spec.matchers" matchers with
        | Some _ => None
        | None =>
          if streq until_text "" then None
          else match ParseRFC3339 until_text with
               | None => None
               | Some until =>
                 let base := if IsZero u.(cr_Created) then now else u.(cr_Created) in
                 let capAt := Add base maxSilenceDuration in
                 let until := if After until capAt then capAt else until in
                 Some (MkCfgSilence matchers (FormatRFC3339 until))
               end
        end
  end.

(** Objects of another type ([None]) are skipped. *)
Fixpoint crd_snapshot (objs : list (option CustomResource)) (now : time) : list CfgSilence :=
  match objs with
  | [] => []
  | None :: objs => crd_snapshot objs now
  | Some u :: objs => match parseSilence u now with
                      | Some sil => sil :: crd_snapshot objs now
                      | None => crd_snapshot objs now
                      end
  end.

(** The informer's handlers: every event rebuilds from the whole cache. *)
Inductive cr_event := CrAdd (key : string) (u : CustomResource) | CrUpdate (key : string) (u : CustomResource) | CrDelete (key : string).

Definition cache_apply (e : cr_event) (cache : gmap string CustomResource) : gmap string CustomResource :=
  match e with
  | CrAdd k u | CrUpdate k u => <[k := u]> cache
  | CrDelete k => delete k cache
  end.

Definition rebuild (now : time) (cache : gmap string CustomResource) (s : CrdStore) : CrdStore :=
  crd_replace (crd_snapshot (Some <$> (range cache).*2) now) s.

Definition syncer_event (now : time) (e : cr_event) (st : gmap string CustomResource * CrdStore)
    : gmap string CustomResource * CrdStore :=
  let cache := cache_apply e st.1 in (cache, rebuild now cache st.2).

Definition syncer_run (events : list (time * cr_event)) (st : gmap string CustomResource * CrdStore) :=
  fold_left (λ st e, syncer_event e.1 e.2 st) events st.
End crd.

Definition scopeLabel (ns : string) : string := if streq ns "" then "cluster-wide" else "namespace " +:+ ns.

(** A Kubernetes namespace name. *)
Definition dns_char (c : ascii) : bool :=
  bool_decide (c = "-"%char) || ((48 <=? byte_of c) && (byte_of c <=? 57)) || ((97 <=? byte_of c) && (byte_of c <=? 122)).
Definition dns_label (ns : string) : bool := negb (streq ns "") && forallb dns_char (chars ns).

(** * Theorems *)

Section theorems.
Context `{RegexpLib} `{MapRange} `{TimeLib}.

(** The cap of one resource, at a rebuild. *)
Definition cap_of (u : CustomResource) (now : time) : time :=
  (if IsZero u.(cr_Created) then now else u.(cr_Created)) + maxSilenceDuration.

(** When a resource gives a silence, and which one. *)
Lemma parseSilence_Some u now sil :
  parseSilence u now = Some sil ↔
  ∃ matchers until_text until,
    u.(cr_Spec) = Some (matchers, until_text) ∧ matchers ≠ ∅
    ∧ (u.(cr_Namespace) ≠ "" → matchers !! "namespace" = None ∨ matchers !! "namespace" = Some u.(cr_Namespace))
    ∧ sil.(Cs_Matchers) = (if streq u.(cr_Namespace) "" then matchers else <["namespace" := u.(cr_Namespace)]> matchers)
    ∧ selective sil.(Cs_Matchers)
    ∧ until_text ≠ "" ∧ ParseRFC3339 until_text = Some until
    ∧ sil.(Cs_Until) = FormatRFC3339 (Z.min until (cap_of u now)).
Proof.
  assert (Hmin : ∀ x, (if After x (cap_of u now) then cap_of u now else x) = Z.min x (cap_of u now)).
  { intros x. destruct (After x (cap_of u now)) eqn:E; [apply After_spec in E|apply After_false in E]; lia. }
  unfold parseSilence. fold (cap_of u now). unfold Add. split.
  - destruct (cr_Spec u) as [[m ut]|]; [|done]. destruct (Nat.eqb_spec (size m) 0) as [|Hsz]; [done|].
    rewrite map_size_empty_iff in Hsz.
    destruct (negb (streq (cr_Namespace u) "") && _) eqn:Eo; [done|].
    destruct (SelectiveMatchers _ _) eqn:Es; [done|]. apply SelectiveMatchers_None in Es.
    destruct (streq ut "") eqn:Eu; [done|]. apply streq_false in Eu. destruct (ParseRFC3339 ut) as [t|] eqn:Ep; [|done].
    change (((if IsZero (cr_Created u) then now else cr_Created u) + maxSilenceDuration)) with (cap_of u now).
    rewrite Hmin. intros [= <-]. exists m, ut, t. simpl. split_and!; try done.
    + intros Hns. rewrite (proj2 (streq_false _ _) Hns) in Eo. simpl in Eo.
      destruct (m !! "namespace") as [want|]; [|by left]. apply negb_false_iff, streq_true in Eo as ->. by right.
    + by destruct (streq (cr_Namespace u) "").
  - intros (m & ut & t & -> & Hm & Hns & Hsm & Hsel & Hut & Hp & Hu). rewrite <- map_size_empty_iff in Hm.
    rewrite (proj2 (Nat.eqb_neq _ _) Hm).
    assert (negb (streq (cr_Namespace u) "") && match m !! "namespace" with Some want => negb (streq want (cr_Namespace u)) | None => false end = false) as ->.
    { destruct (streq (cr_Namespace u) "") eqn:En; [done|]. apply streq_false in En.
      destruct (Hns En) as [-> | ->]; [done|]. by rewrite streq_refl. }
    assert (Hmm : (if negb (streq (cr_Namespace u) "") then <["namespace" := cr_Namespace u]> m else m) = Cs_Matchers sil)
      by (rewrite Hsm; by destruct (streq (cr_Namespace u) "")).
    rewrite Hmm, (proj2 (SelectiveMatchers_None _ _) Hsel), (proj2 (streq_false _ _) Hut), Hp.
    change (((if IsZero (cr_Created u) then now else cr_Created u) + maxSilenceDuration)) with (cap_of u now).
    rewrite Hmin, <- Hu. by destruct sil.
Qed.

(** The stored set is the parsed set. *)
Lemma crd_snapshot_elem objs now sil :
  sil ∈ crd_snapshot objs now ↔ ∃ u, Some u ∈ objs ∧ parseSilence u now = Some sil.
Proof.
  induction objs as [|[u|] objs IH]; simpl.
  - split; [by intros ?%not_elem_of_nil|by intros (? & ?%not_elem_of_nil & _)].
  - destruct (parseSilence u now) as [s|] eqn:E; rewrite ?elem_of_cons, IH; setoid_rewrite elem_of_cons; naive_solver congruence.
  - rewrite IH. setoid_rewrite elem_of_cons. naive_solver.
Qed.

Lemma rebuild_elem now cache s sil :
  sil ∈ crd_List (rebuild now cache s) ↔ ∃ k u, cache !! k = Some u ∧ parseSilence u now = Some sil.
Proof.
  unfold rebuild, crd_replace, crd_List, cloneSilences. simpl. rewrite merge_sort_Permutation, crd_snapshot_elem.
  split.
  - intros (u & Hin & Hp). apply list_elem_of_fmap in Hin as (u' & [= <-] & Hin).
    apply list_elem_of_fmap in Hin as ([k v] & -> & Hin). apply range_In in Hin. eauto.
  - intros (k & u & Hk & Hp). exists u. split; [|done]. apply list_elem_of_fmap. exists u. split; [done|].
    apply list_elem_of_fmap. exists (k, u). by rewrite range_In.
Qed.

(** A resource with a creation time is read the same at every resync. *)
Lemma parseSilence_stable u now now' : IsZero u.(cr_Created) = false → parseSilence u now = parseSilence u now'.
Proof. intros Hc. unfold parseSilence. by rewrite Hc. Qed.

Lemma syncer_run_last events now e cache s :
  syncer_run (events ++ [(now, e)]) (cache, s)
  = (cache_apply e (syncer_run events (cache, s)).1,
     rebuild now (cache_apply e (syncer_run events (cache, s)).1) (syncer_run events (cache, s)).2).
Proof. unfold syncer_run. by rewrite fold_left_app. Qed.

Lemma MatchLabels_namespace a m ns :
  m !! "namespace" = Some ns → MatchLabels a m = true → match_value a.(a_Namespace) ns = true.
Proof.
  intros Hm. unfold MatchLabels. rewrite forallb_forall. intros Hall.
  exact (Hall ("namespace", ns) (proj1 (list_elem_of_In _ _) (proj2 (elem_of_map_to_list _ _ _) Hm))).
Qed.

(** C22: what a Silence resource can mute. After any sequence of informer events, an alert
    muted by the cached silences is muted by a resource in the cluster now, whose own matchers
    (selective, never matching everything) match it, before the resource's until and at most 30
    days after its creation; and a namespaced resource mutes alerts of its own namespace only. *)
Theorem crd_silence_contained events now e t a :
  (∀ t t', ParseRFC3339 (FormatRFC3339 t) = Some t' → t' <= t) →
  (∀ ns s, dns_label ns = true → match_value s ns = true → s = ns) →
  let '(cache, store) := syncer_run (events ++ [(now, e)]) (∅, NewCrdStore) in
  cfg_silenced t a (crd_List store) = true →
  ∃ key u matchers until_text until,
    cache !! key = Some u ∧ u.(cr_Spec) = Some (matchers, until_text) ∧ ParseRFC3339 until_text = Some until
    ∧ t < until ∧ t < cap_of u now
    ∧ matchers ≠ ∅ ∧ (∃ effective, selective effective ∧ matchers ⊆ effective ∧ MatchLabels a effective = true)
    ∧ (dns_label u.(cr_Namespace) = true → a.(a_Namespace) = u.(cr_Namespace)).
Proof.
  intros Hformat Hliteral. rewrite syncer_run_last. set (cache := cache_apply _ _).
  unfold cfg_silenced. rewrite existsb_exists. intros (sil & Hin & Hsil).
  apply list_elem_of_In, rebuild_elem in Hin as (key & u & Hk & Hp).
  apply parseSilence_Some in Hp as (m & ut & until & Hspec & Hne & Hns & Hm & Hsel & _ & Hpu & Hu).
  apply andb_true_iff in Hsil as [Hmatch Hun]. unfold until_after in Hun. rewrite Hu in Hun.
  destruct (ParseRFC3339 (FormatRFC3339 _)) as [t'|] eqn:Ef; [|done]. apply Hformat in Ef. apply Before_spec in Hun.
  exists key, u, m, ut, until. split_and!; [done..|lia|lia|done| |].
  - exists (Cs_Matchers sil). split_and!; [done| |done]. rewrite Hm. destruct (streq (cr_Namespace u) "") eqn:En; [done|].
    apply streq_false in En. destruct (Hns En) as [E|E]; [by apply insert_subseteq|by rewrite insert_id].
  - intros Hd. apply Hliteral; [done|]. unfold dns_label in Hd. apply andb_true_iff in Hd as [En _]. apply negb_true_iff in En.
    eapply MatchLabels_namespace; [|exact Hmatch]. rewrite Hm, En. apply lookup_insert_eq.
Qed.
End theorems.

(** * Witness *)

Lemma star_case {A} (d : ascii) (x y : A) : d ≠ "*"%char → match d with "*"%char => x | _ => y end = y.
Proof. destruct d as [[] [] [] [] [] [] [] []]; done. Qed.

(** A name in the small engine matches itself only. *)
Lemma mini_parse_name l b e :
  forallb dns_char l = true → MiniRegexp.parse (l ++ ["$"%char]) = Some (b, e) →
  b = (λ c, (MiniRegexp.Lit c, false)) <$> l ∧ e = true.
Proof.
  revert b e. induction l as [|c l IH]; intros b e Hl; cbn [app]; [by intros [= <- <-]|].
  cbn [forallb] in Hl. apply andb_true_iff in Hl as [Hc Hl].
  assert (Hcc : c ≠ "$"%char ∧ ContainsByte MiniRegexp.meta c = false ∧ c ≠ "."%char ∧ c ≠ "*"%char)
    by (clear -Hc; destruct c as [[] [] [] [] [] [] [] []]; vm_compute in Hc |- *; done).
  destruct Hcc as (H1 & H2 & H3 & H4). cbn [MiniRegexp.parse]. rewrite (decide_False (P := c = "$"%char)) by done.
  rewrite H2, (decide_False (P := c = "."%char)) by done.
  assert (Hstar : ∀ l' : list ascii, l ++ ["$"%char] = "*"%char :: l' → False).
  { intros l'. destruct l as [|d l]; [done|]. intros [= -> _]. cbn in Hl. done. }
  destruct (l ++ ["$"%char]) as [|d l'] eqn:El; [by destruct l|].
  rewrite star_case by (intros ->; by eapply Hstar).
  destruct (MiniRegexp.parse (d :: l')) as [[b' e']|] eqn:Ep; [|done]. simpl. intros [= <- <-].
  destruct (IH b' e' Hl eq_refl) as [-> ->]. done.
Qed.

Lemma mini_match_name l t :
  MiniRegexp.match_here ((λ c, (MiniRegexp.Lit c, false)) <$> l) true t = true → t = l.
Proof.
  revert t. induction l as [|c l IH]; intros t; [by destruct t|]. destruct t as [|d t]; [done|].
  cbn. intros [->%bool_decide_eq_true E]%andb_true_iff. f_equal. by apply IH.
Qed.

Lemma mini_literal ns s : dns_label ns = true → match_value (H := mini_regexp) s ns = true → s = ns.
Proof.
  intros [Hne%negb_true_iff Hd]%andb_true_iff. unfold match_value. destruct (streq s ns) eqn:E; [by apply streq_true in E|].
  cbn [orb]. unfold CompilePattern. destruct (regexp_Compile (anchored ns)) as [re|] eqn:Ec; [|done].
  assert (Ha : chars (anchored ns) = "^"%char :: chars ns ++ ["$"%char]).
  { assert (Hc : ∀ c, c ∈ chars ns → c ≠ "^"%char ∧ c ≠ "$"%char).
    { intros c Hin. pose proof (proj1 (forallb_forall _ _) Hd c (proj1 (list_elem_of_In _ _) Hin)) as Hc.
      split; intros ->; by vm_compute in Hc. }
    unfold anchored. assert (HasPrefix ns "^" = false) as ->.
    { destruct (HasPrefix ns "^") eqn:Ep; [|done]. apply HasPrefix_spec in Ep as [t ->]. destruct (Hc "^"%char); [|done].
      rewrite chars_app. by left. }
    destruct (HasSuffix ("^" +:+ ns) "$") eqn:Es.
    - apply HasSuffix_spec in Es as [t Et]. apply (f_equal chars) in Et. rewrite !chars_app in Et.
      change (chars "^") with ["^"%char] in Et. change (chars "$") with ["$"%char] in Et.
      destruct (chars ns) as [|x l] eqn:Ex using rev_ind; [destruct t; [done|by destruct t]|].
      rewrite app_assoc in Et. apply app_inj_tail in Et as [_ ->]. destruct (Hc "$"%char); [set_solver|done].
    - rewrite !chars_app. done. }
  cbn in Ec. unfold MiniRegexp.compile in Ec. rewrite Ha in Ec.
  destruct (MiniRegexp.parse (chars ns ++ ["$"%char])) as [[b e]|] eqn:Ep; [|done]. apply (mini_parse_name _ _ _ Hd) in Ep as [-> ->].
  injection Ec as <-. cbn. unfold MiniRegexp.search. cbn. intros Hm%mini_match_name. by apply chars_inj.
Qed.

(** A clock with one printable instant. *)
Definition one_instant : TimeLib := {|
  ParseRFC3339 s := if streq s "noon" then Some (12 * Hour) else None;
  FormatRFC3339 t := if 12 * Hour <=? t then "noon" else "before noon";
  ParseDuration _ := None;
|}.

Definition example_cr : CustomResource :=
  MkCR "payments" "deploy-window" Hour (Some ({["reason" := "CrashLoopBackOff"]}, "noon")).
Definition example_cr_alert : Alert :=
  New (2 * Hour) KindPod "payments" "api-0" "CrashLoopBackOff" SeverityWarning.

Lemma crd_silence_contained_witness :
  ∃ u : CustomResource, 2 * Hour < cap_of u Hour ∧ example_cr_alert.(a_Namespace) = u.(cr_Namespace).
Proof.
  assert (Hf : ∀ t t', ParseRFC3339 (TimeLib := one_instant) (FormatRFC3339 (TimeLib := one_instant) t) = Some t' → t' <= t).
  { intros t t'. cbn. destruct (Z.leb_spec (12 * Hour) t); [|done]. cbn. by intros [= <-]. }
  pose proof (crd_silence_contained (H := mini_regexp) (H1 := one_instant) [] Hour (CrAdd "payments/deploy-window" example_cr)
    (2 * Hour) example_cr_alert Hf mini_literal) as Hc.
  assert (Hs : syncer_run (H := mini_regexp) (H1 := one_instant) ([] ++ [(Hour, CrAdd "payments/deploy-window" example_cr)]) (∅, NewCrdStore)
               = ({["payments/deploy-window" := example_cr]},
                  MkCrdStore [MkCfgSilence {["reason" := "CrashLoopBackOff"; "namespace" := "payments"]} "noon"]))
    by (vm_compute; reflexivity).
  rewrite Hs in Hc. destruct Hc as (key & u & m & ut & until & Hk & _ & _ & _ & Hcap & _ & _ & Hns); [by vm_compute|].
  exists u. split; [exact Hcap|]. apply lookup_singleton_Some in Hk as [_ <-]. by apply Hns.
Defined.
