(* ===== verification/Group.v ===== *)
(** * internal/group: storm folding

    Models internal/group/group.go. [Offer], [flushExpired] and [FlushAll] each hold the
    grouper's mutex once and hand the buckets they close to [emitSummary] afterwards, so each
    is a function to the decision, the next state and the closed buckets; [group_Run] is the
    flush goroutine with its recovered panics. *)
From S2P Require Import Prelude GoStd AlertModel.

Definition defaultBy : list string := ["kind"; "namespace"; "reason"; "severity"].
Definition memberListCap : nat := 10.
Definition memberDetailCap : nat := 50.

Record bucket := MkBucket {
  bk_first : Alert;
  bk_members : list string;
  bk_count : nat;
  bk_deadline : time;
}.

Record Grouper := MkGrouper {
  gp_window : duration;
  gp_by : list string;
  gp_buckets : gmap string bucket;
  gp_closing : bool;
}.

Definition group_New (window : duration) (by_ : list string) : Grouper :=
  MkGrouper window (match by_ with [] => defaultBy | _ => by_ end) ∅ false.

Definition set_buckets (m : gmap string bucket) (g : Grouper) : Grouper :=
  MkGrouper g.(gp_window) g.(gp_by) m g.(gp_closing).

(** The bucket key: triggers and resolves are grouped apart. *)
Definition group_key (g : Grouper) (a : Alert) : string :=
  let key := GroupKey a g.(gp_by) in
  if a.(a_Resolved) then key +:+ "|resolved" else key.

(** The identity a new bucket retains. *)
Definition group_first (a : Alert) : Alert :=
  MkAlert "" a.(a_Kind) a.(a_Namespace) a.(a_Name) "" a.(a_Severity) a.(a_Reason) "" a.(a_Cluster) ∅ ∅ ∅
    0 0 a.(a_Resolved) false None.

(** [Offer]: whether to dispatch now, the next state, and the bucket whose summary is due. *)
Definition Offer (now : time) (a : Alert) (g : Grouper) : bool * Grouper * list bucket :=
  let key := group_key g a in
  if g.(gp_closing) then (true, g, [])
  else
    let fresh := MkBucket (group_first a) [] 0 (Add now g.(gp_window)) in
    match g.(gp_buckets) !! key with
    | None => (true, set_buckets (<[key := fresh]> g.(gp_buckets)) g, [])
    | Some b =>
      if After now b.(bk_deadline) then (true, set_buckets (<[key := fresh]> g.(gp_buckets)) g, [b])
      else
        let members := if (length b.(bk_members) <? memberDetailCap)%nat
                       then b.(bk_members) ++ [a.(a_Namespace) +:+ "/" +:+ a.(a_Name)] else b.(bk_members) in
        (false, set_buckets (<[key := MkBucket b.(bk_first) members (S b.(bk_count)) b.(bk_deadline)]> g.(gp_buckets)) g, [])
    end.

Section group.
Context `{MapRange}.

Definition flushExpired (now : time) (g : Grouper) : Grouper * list bucket :=
  (set_buckets (delete_where (λ _ b, After now b.(bk_deadline)) g.(gp_buckets)) g,
   filter (λ b, After now b.(bk_deadline) = true) (range g.(gp_buckets)).*2).

Definition FlushAll (g : Grouper) : Grouper * list bucket :=
  (MkGrouper g.(gp_window) g.(gp_by) ∅ true, (range g.(gp_buckets)).*2).

(** [emitSummary]: [None] when the bucket absorbed nothing. *)
Definition emitSummary (now : time) (g : Grouper) (b : bucket) : option Alert :=
  let n := Z.of_nat b.(bk_count) in
  if n =? 0 then None
  else
    let f := b.(bk_first) in
    let s := New now f.(a_Kind) f.(a_Namespace) (Itoa n +:+ "-grouped") f.(a_Reason) f.(a_Severity) in
    let s := with_Cluster f.(a_Cluster) s in
    let s := with_Resolved f.(a_Resolved) s in
    let s := with_Labels (<["alertkube-grouped" := "true"]> s.(a_Labels)) s in
    let verb := if f.(a_Resolved) then "resolved" else "fired" in
    let '(listed, suffix) :=
      if (memberListCap <? length b.(bk_members))%nat
      then (take memberListCap b.(bk_members), " (+" +:+ Itoa (n - Z.of_nat memberListCap) +:+ " more)")
      else (b.(bk_members), "") in
    let s := with_Summary
      (Itoa n +:+ " more " +:+ f.(a_Kind) +:+ " " +:+ f.(a_Reason) +:+ " alert(s) " +:+ verb +:+ " within "
       +:+ Duration_String g.(gp_window) +:+ " of " +:+ f.(a_Namespace) +:+ "/" +:+ f.(a_Name) +:+ ": "
       +:+ Join listed ", " +:+ suffix) s in
    Some (with_Details (<["Grouped Resources" := Join b.(bk_members) (String "010" "")]> s.(a_Details)) s).

Definition emitSummaries (now : time) (g : Grouper) (bs : list bucket) : list Alert := omap (emitSummary now g) bs.

(** ** Executions *)

Inductive gop := GOffer (a : Alert) | GFlush | GFlushAll.

(** One step: the next state, the closed buckets, and whether an alert was absorbed. *)
Definition gstep (now : time) (o : gop) (g : Grouper) : Grouper * list bucket * nat :=
  match o with
  | GOffer a => let '(pass, g, bs) := Offer now a g in (g, bs, if (pass : bool) then 0 else 1)%nat
  | GFlush => let '(g, bs) := flushExpired now g in (g, bs, 0%nat)
  | GFlushAll => let '(g, bs) := FlushAll g in (g, bs, 0%nat)
  end.

(** A run with everything it closed and the number of alerts it absorbed. *)
Inductive grun : time → Grouper → time → Grouper → list bucket → nat → Prop :=
  | grun_done t g : grun t g t g [] 0
  | grun_step t g t' o t'' g' bs n :
      t <= t' →
      grun t' (gstep t' o g).1.1 t'' g' bs n →
      grun t g t'' g' ((gstep t' o g).1.2 ++ bs) ((gstep t' o g).2 + n).

(** Alerts counted by a list of buckets. *)
Definition counted (bs : list bucket) : nat := foldr (λ b n, (b.(bk_count) + n)%nat) 0%nat bs.

Definition open_count (g : Grouper) : nat := counted (map_to_list g.(gp_buckets)).*2.

(** ** Lemmas *)

Lemma counted_cons b l : counted (b :: l) = (bk_count b + counted l)%nat.
Proof. done. Qed.

Lemma counted_app l l' : counted (l ++ l') = (counted l + counted l')%nat.
Proof. induction l as [|b l IH]; [done|]. rewrite <- app_comm_cons, !counted_cons. lia. Qed.

Lemma counted_perm l l' : l ≡ₚ l' → counted l = counted l'.
Proof. induction 1; rewrite ?counted_cons; lia. Qed.

Lemma counted_filter (P : bucket → bool) l :
  counted l = (counted (filter (λ b, P b = true) l) + counted (filter (λ b, P b = false) l))%nat.
Proof.
  induction l as [|b l IH]; [done|]. rewrite !filter_cons. destruct (P b) eqn:E.
  - rewrite decide_True, decide_False by (done || congruence). rewrite !counted_cons. lia.
  - rewrite decide_False, decide_True by (done || congruence). rewrite !counted_cons. lia.
Qed.

Lemma open_count_insert_new g key b :
  g.(gp_buckets) !! key = None →
  open_count (set_buckets (<[key := b]> g.(gp_buckets)) g) = (bk_count b + open_count g)%nat.
Proof.
  intros Hk. unfold open_count. simpl.
  rewrite (counted_perm _ ((key, b) :: map_to_list (gp_buckets g)).*2); [done|].
  by rewrite map_to_list_insert.
Qed.

Lemma open_count_lookup g key b :
  g.(gp_buckets) !! key = Some b →
  open_count g = (bk_count b + open_count (set_buckets (delete key g.(gp_buckets)) g))%nat.
Proof.
  intros Hk.
  assert (E : g = set_buckets (<[key := b]> (delete key (gp_buckets g))) g)
    by (destruct g; unfold set_buckets; simpl in *; by rewrite insert_delete_id).
  rewrite E at 1. pose proof (open_count_insert_new (set_buckets (delete key (gp_buckets g)) g) key b) as Hi.
  simpl in Hi. unfold set_buckets in *. simpl in *. rewrite Hi; [done|apply lookup_delete_eq].
Qed.

Lemma open_count_update g key b b' :
  g.(gp_buckets) !! key = Some b →
  (open_count (set_buckets (<[key := b']> g.(gp_buckets)) g) + bk_count b = open_count g + bk_count b')%nat.
Proof.
  intros Hk. rewrite (open_count_lookup g key b Hk).
  rewrite (open_count_lookup (set_buckets (<[key := b']> (gp_buckets g)) g) key b') by apply lookup_insert_eq.
  unfold set_buckets. simpl. rewrite delete_insert_eq. lia.
Qed.

Lemma delete_where_snd (f : bucket → bool) (m : gmap string bucket) :
  (map_to_list (delete_where (λ _ b, f b) m)).*2 ≡ₚ filter (λ b, f b = false) (map_to_list m).*2.
Proof.
  unfold delete_where. induction m as [|k b m Hk IH] using map_ind.
  - by rewrite map_filter_empty, map_to_list_empty.
  - rewrite map_to_list_insert by done. rewrite fmap_cons. cbn [snd]. rewrite filter_cons.
    destruct (decide (f b = false)) as [Hb|Hb].
    + rewrite map_filter_insert_True by done. rewrite map_to_list_insert; [|by apply map_lookup_filter_None; left].
      rewrite fmap_cons. cbn [snd]. by rewrite IH.
    + rewrite map_filter_insert_False by done. by rewrite delete_id.
Qed.

(** One step moves each absorbed alert into a count and each closed count out. *)
Lemma gstep_conserves t o g :
  (open_count g + (gstep t o g).2
   = counted (gstep t o g).1.2 + open_count (gstep t o g).1.1)%nat.
Proof.
  destruct o as [a| |]; simpl.
  - unfold Offer. destruct (gp_closing g); [simpl; lia|].
    destruct (gp_buckets g !! group_key g a) as [b|] eqn:E.
    + destruct (After t (bk_deadline b)); cbn [fst snd].
      * pose proof (open_count_update g _ b (MkBucket (group_first a) [] 0 (Add t (gp_window g))) E) as Hu.
        rewrite counted_cons. simpl in *. lia.
      * match goal with |- context [<[_ := ?b']> _] => pose proof (open_count_update g _ b b' E) as Hu end.
        simpl in *. lia.
    + cbn [fst snd]. rewrite open_count_insert_new by done. simpl. lia.
  - unfold open_count. simpl.
    rewrite (counted_perm (filter _ (range _).*2) (filter (λ b, After t (bk_deadline b) = true) (map_to_list (gp_buckets g)).*2))
      by (by rewrite range_perm).
    rewrite (counted_perm (map_to_list (delete_where _ _)).*2
               (filter (λ b, After t (bk_deadline b) = false) (map_to_list (gp_buckets g)).*2))
      by apply (delete_where_snd (λ b, After t (bk_deadline b))).
    rewrite (counted_filter (λ b, After t (bk_deadline b))) at 1. lia.
  - unfold open_count. simpl. rewrite map_to_list_empty. simpl.
    rewrite (counted_perm (range _).*2 (map_to_list (gp_buckets g)).*2) by (by rewrite range_perm). simpl. lia.
Qed.

Lemma grun_conserves t g t' g' bs n :
  grun t g t' g' bs n → (open_count g + n = counted bs + open_count g')%nat.
Proof.
  induction 1 as [|t g t' o t'' g' bs n _ _ IH]; [simpl; lia|].
  pose proof (gstep_conserves t' o g). rewrite counted_app. lia.
Qed.

(** C4: no absorbed alert is lost or reported twice: over any interleaving of offers and
    flushes from a fresh grouper, the alerts absorbed are exactly those counted by the closed
    buckets plus those still in an open window; each closed bucket that counts any yields one
    summary naming its count; and once [FlushAll] has run nothing is left open and every later
    alert passes through. *)
Theorem group_conserves t0 window by_ t g bs n :
  grun t0 (group_New window by_) t g bs n →
  n = (counted bs + open_count g)%nat
  ∧ (∀ now b, b ∈ bs → b.(bk_count) ≠ 0%nat →
       ∃ s, emitSummary now g b = Some s ∧ s.(a_Name) = Itoa (Z.of_nat b.(bk_count)) +:+ "-grouped")
  ∧ open_count (FlushAll g).1 = 0%nat
  ∧ (∀ now a, Offer now a (FlushAll g).1 = (true, (FlushAll g).1, [])).
Proof.
  intros Hrun. split_and!.
  - apply grun_conserves in Hrun. unfold open_count at 1 in Hrun. simpl in Hrun.
    by rewrite map_to_list_empty in Hrun.
  - intros now b _ Hb. unfold emitSummary. rewrite (proj2 (Z.eqb_neq (Z.of_nat (bk_count b)) 0)) by lia.
    destruct (_ <? _)%nat; eauto.
  - unfold open_count. simpl. by rewrite map_to_list_empty.
  - done.
Qed.

(** ** Windows *)

Lemma group_key_spec g a b :
  group_key g a = group_key g b ↔
  a.(a_Resolved) = b.(a_Resolved) ∧ ∀ k, k ∈ g.(gp_by) → FieldValue a k = FieldValue b k.
Proof.
  assert (Hpipe : ∀ c d, GroupKey c (gp_by g) +:+ "|resolved" ≠ GroupKey d (gp_by g)).
  { intros c d E. apply (Encode_no_pipe (group_fields d (gp_by g))). change (Encode _) with (GroupKey d (gp_by g)).
    rewrite <- E, chars_app. apply elem_of_app. right. left. }
  assert (Heq : GroupKey a (gp_by g) = GroupKey b (gp_by g) ↔ ∀ k, k ∈ g.(gp_by) → FieldValue a k = FieldValue b k).
  { split; [intros E k Hk; by eapply GroupKey_field|by apply GroupKey_eq]. }
  rewrite <- Heq. unfold group_key. destruct (a_Resolved a), (a_Resolved b).
  - split; [|by intros [_ ->]]. intros E. split; [done|].
    apply chars_inj. apply (f_equal chars) in E. rewrite !chars_app in E. by apply app_inv_tail in E.
  - split; [|by intros []]. intros E. by apply Hpipe in E.
  - split; [|by intros []]. intros E. symmetry in E. by apply Hpipe in E.
  - split; [done|by intros [_ ?]].
Qed.

(** The key's window is open with its deadline not before [d]. *)
Definition open_until (d : time) (key : string) (g : Grouper) : Prop :=
  g.(gp_closing) = false ∧ ∃ b, g.(gp_buckets) !! key = Some b ∧ d <= b.(bk_deadline).

Inductive gquiet : time → Grouper → time → Grouper → Prop :=
  | gquiet_done t g : gquiet t g t g
  | gquiet_step t g t' o t'' g' :
      t <= t' → o ≠ GFlushAll → gquiet t' (gstep t' o g).1.1 t'' g' → gquiet t g t'' g'.

Lemma gstep_params t o g :
  (gstep t o g).1.1.(gp_window) = g.(gp_window) ∧ (gstep t o g).1.1.(gp_by) = g.(gp_by).
Proof.
  destruct o as [a| |]; simpl; [|done|done]. unfold Offer. destruct (gp_closing g); [done|].
  destruct (_ !! _) as [b|]; [|done]. by destruct (After t (bk_deadline b)).
Qed.

Lemma gstep_open_until d t o g key :
  t <= d → o ≠ GFlushAll → open_until d key g → open_until d key (gstep t o g).1.1.
Proof.
  intros Ht Ho (Hc & b & Hb & Hd). destruct o as [a| |]; simpl; [| |done].
  - unfold Offer. rewrite Hc. destruct (decide (group_key g a = key)) as [<-|Hk].
    + rewrite Hb, (proj2 (After_false t (bk_deadline b))) by lia. simpl. split; [done|].
      eexists. split; [apply lookup_insert_eq|done].
    + assert (Hk' : ∀ b', <[group_key g a := b']> (gp_buckets g) !! key = Some b) by (intros; by rewrite lookup_insert_ne).
      destruct (gp_buckets g !! group_key g a) as [b0|]; [destruct (After t (bk_deadline b0))|];
        (split; [done|]); exists b; (split; [apply Hk'|done]).
  - split; [done|]. exists b. simpl. rewrite lookup_delete_where, Hb.
    by rewrite (proj2 (After_false t (bk_deadline b))) by lia.
Qed.

Lemma gquiet_open t g t' g' d key :
  gquiet t g t' g' → t' <= d → open_until d key g → open_until d key g' ∧ g'.(gp_by) = g.(gp_by).
Proof.
  induction 1 as [|t1 g1 t2 o t3 g3 Hle Hno Hq IH]; intros Ht Ho; [done|].
  assert (Hm : t2 <= t3) by (clear -Hq; induction Hq; lia).
  destruct IH as [H1 H2]; [done|apply gstep_open_until; [lia|done|done]|].
  split; [done|]. by rewrite H2, (proj2 (gstep_params t2 o g1)).
Qed.

(** Within one group window at most one alert of a group passes: after an offer passed,
    any later offer that agrees on the grouping fields and on being a trigger or a resolve is
    absorbed, until the window has passed or shutdown drains the grouper, whatever else is
    offered or flushed in between. *)
Theorem one_pass_per_window t0 a g t g' b :
  g.(gp_closing) = false → 0 <= g.(gp_window) →
  (Offer t0 a g).1.1 = true →
  gquiet t0 (Offer t0 a g).1.2 t g' → t <= t0 + g.(gp_window) →
  b.(a_Resolved) = a.(a_Resolved) → (∀ k, k ∈ g.(gp_by) → FieldValue b k = FieldValue a k) →
  (Offer t b g').1.1 = false.
Proof.
  intros Hc Hw Hpass Hq Ht Hres Hf.
  assert (Ho : open_until (t0 + gp_window g) (group_key g a) (Offer t0 a g).1.2).
  { unfold Offer in *. rewrite Hc in *. destruct (gp_buckets g !! group_key g a) as [b0|].
    - destruct (After t0 (bk_deadline b0)); [|done]. split; [done|]. simpl. rewrite lookup_insert_eq. by eexists.
    - split; [done|]. simpl. rewrite lookup_insert_eq. by eexists. }
  assert (Hby : (Offer t0 a g).1.2.(gp_by) = g.(gp_by)).
  { pose proof (gstep_params t0 (GOffer a) g) as [_ E]. simpl in E. by destruct (Offer t0 a g) as [[? ?] ?]. }
  assert (Hend : open_until (t0 + gp_window g) (group_key g a) g' ∧ gp_by g' = gp_by g).
  { destruct (gquiet_open _ _ _ _ _ _ Hq Ht Ho) as [H1 H2]. split; [done|congruence]. }
  destruct Hend as [(Hc' & b0 & Hb0 & Hd) Hby']. unfold Offer. rewrite Hc'.
  assert (Hkey : group_key g' b = group_key g a).
  { transitivity (group_key g b); [unfold group_key; by rewrite Hby'|]. by apply group_key_spec. }
  by rewrite Hkey, Hb0, (proj2 (After_false t (bk_deadline b0))) by lia.
Qed.
End group.

(** ** The flush loop

    [Run] is a goroutine of its own: [flush] is the callback it hands summaries to, which may
    offer alerts to the grouper again and may panic. *)
Section run.
Context `{MapRange}.
Context (flush : Alert → Grouper → Grouper * bool).

(** The grouper and the summaries handed to [flush] so far. *)
Record running := MkRunning { rn_g : Grouper; rn_sent : list Alert }.

(** A call with whether it panicked; [recovered] stops the panic and keeps what was done. *)
Definition recovered (fn : running → running * bool) (s : running) : running * bool := ((fn s).1, false).

Definition send_summary (now : time) (b : bucket) (s : running) : running * bool :=
  match emitSummary now s.(rn_g) b with
  | None => (s, false)
  | Some a => let '(g, panic) := flush a s.(rn_g) in (MkRunning g (s.(rn_sent) ++ [a]), panic)
  end.

(** [emitSummaries] as the loop it is. *)
Fixpoint send_summaries (now : time) (bs : list bucket) (s : running) : running * bool :=
  match bs with
  | [] => (s, false)
  | b :: bs =>
    let '(s, panic) := recovered (send_summary now b) s in
    if panic then (s, true) else send_summaries now bs s
  end.

Definition run_flush (now : time) (s : running) : running * bool :=
  let '(g, bs) := flushExpired now s.(rn_g) in send_summaries now bs (MkRunning g s.(rn_sent)).
Definition run_final (now : time) (s : running) : running * bool :=
  let '(g, bs) := FlushAll s.(rn_g) in send_summaries now bs (MkRunning g s.(rn_sent)).

(** What the [select] of [Run] receives, with an offer of another goroutine in between. *)
Inductive run_event := Ticked (now : time) | Offered (now : time) (a : Alert) | Cancelled (now : time).

(** [None] while the loop runs; the deferred final flush ends it. *)
Fixpoint group_Run (events : list run_event) (s : running) : option running :=
  match events with
  | [] => None
  | Ticked now :: events => group_Run events (recovered (run_flush now) s).1
  | Offered now a :: events =>
    let '(_, g, bs) := Offer now a s.(rn_g) in group_Run events (send_summaries now bs (MkRunning g s.(rn_sent))).1
  | Cancelled now :: _ => Some (recovered (run_final now) s).1
  end.

(** What the callback is trusted with: it reaches the grouper through [Offer] only, which
    keeps the window and does nothing once the drain has begun. *)
Class FlushOffers : Prop := {
  flush_window a g : (flush a g).1.(gp_window) = g.(gp_window);
  flush_closing a g : g.(gp_closing) = true → (flush a g).1 = g;
}.
Context `{!FlushOffers}.

(** A summary depends on the grouper through its window only. *)
Lemma emitSummaries_window now g g' bs :
  g.(gp_window) = g'.(gp_window) → emitSummaries now g bs = emitSummaries now g' bs.
Proof using Type.
  intros E. unfold emitSummaries. induction bs as [|b bs IH]; [done|]. cbn [omap list_omap]. rewrite IH.
  unfold emitSummary at 1. rewrite E. done.
Qed.

(** The summaries of all buckets are handed over, whichever of them make [flush] panic. *)
Lemma send_summaries_sent now bs s :
  (send_summaries now bs s).1.(rn_sent) = s.(rn_sent) ++ emitSummaries now s.(rn_g) bs
  ∧ (send_summaries now bs s).2 = false.
Proof using Type*.
  revert s. induction bs as [|b bs IH]; intros s; [by rewrite app_nil_r|]. simpl. destruct (IH (send_summary now b s).1) as [-> ->].
  split; [|done]. unfold emitSummaries. simpl. unfold send_summary.
  destruct (emitSummary now (rn_g s) b) as [a|]; [|done]. pose proof (flush_window a (rn_g s)) as Hf.
  destruct (flush a (rn_g s)) as [g panic]. simpl in *. rewrite <- app_assoc. cbn [app]. do 2 f_equal.
  by apply emitSummaries_window.
Qed.

Lemma send_summaries_closing now bs s : s.(rn_g).(gp_closing) = true → (send_summaries now bs s).1.(rn_g) = s.(rn_g).
Proof using Type*.
  revert s. induction bs as [|b bs IH]; intros s Hc; [done|]. simpl. unfold send_summary.
  destruct (emitSummary now (rn_g s) b) as [a|]; simpl; [|by apply IH]. pose proof (flush_closing a _ Hc) as Hf.
  destruct (flush a (rn_g s)) as [g panic]. simpl in *. subst g. by rewrite IH.
Qed.

(** When [Run] has returned, no window is open and none can open, and the summary of every
    window that was open at the end was handed over, panics of the callback or not. *)
Lemma Run_ends before now after s :
  group_Run before s = None →
  ∃ s1, group_Run (before ++ Cancelled now :: after) s = Some s1
    ∧ s1.(rn_g).(gp_buckets) = ∅
    ∧ (∀ t a, Offer t a s1.(rn_g) = (true, s1.(rn_g), []))
    ∧ ∃ g sent, s1.(rn_sent) = sent ++ emitSummaries now (FlushAll g).1 (FlushAll g).2 ∧ s1.(rn_g) = (FlushAll g).1.
Proof using Type*.
  revert s. induction before as [|e before IH]; intros s Hrun.
  - simpl. unfold run_final. eexists. split; [done|]. cbn [FlushAll].
    set (g0 := MkGrouper _ _ ∅ true). set (s0 := MkRunning g0 _).
    assert (Hg : (send_summaries now (range (gp_buckets (rn_g s))).*2 s0).1.(rn_g) = g0) by (by apply send_summaries_closing).
    destruct (send_summaries_sent now (range (gp_buckets (rn_g s))).*2 s0) as [Hs _].
    rewrite Hg. split_and!; [done|done|]. by exists (rn_g s), (rn_sent s).
  - destruct e as [t|t a|t]; simpl in *; [by apply IH| |done].
    destruct (Offer t a (rn_g s)) as [[pass g] bs]. by apply IH.
Qed.
End run.

(** * Concrete instances *)

Definition storm_pod (n : string) : Alert := with_NodeName n example_alert.

Definition storm_start : Grouper := (gstep 0 (GOffer example_alert) (group_New (30 * Second) [])).1.1.
Definition storm_joined : Grouper := (gstep 1 (GOffer (storm_pod "b")) storm_start).1.1.

Lemma group_conserves_witness : open_count storm_joined = 1%nat ∧ (1 = counted [] + open_count storm_joined)%nat.
Proof.
  split; [vm_compute; reflexivity|].
  assert (Hle : 0 <= 1) by lia.
  pose proof (grun_step 0 (group_New (30 * Second) []) 0 (GOffer example_alert) 1 storm_joined _ _ (Z.le_refl 0)
       (grun_step 0 storm_start 1 (GOffer (storm_pod "b")) 1 storm_joined _ _ Hle (grun_done 1 storm_joined))) as Hrun.
  destruct (group_conserves 0 (30 * Second) [] 1 storm_joined _ _ Hrun) as [E _].
  vm_compute in E |- *. exact E.
Defined.

Lemma one_pass_per_window_witness :
  (Offer (20 * Second) (storm_pod "b")
     (gstep (20 * Second) GFlush (Offer 0 example_alert (group_New (30 * Second) [])).1.2).1.1).1.1 = false.
Proof.
  refine (one_pass_per_window 0 example_alert (group_New (30 * Second) []) (20 * Second) _ (storm_pod "b")
    eq_refl _ eq_refl (gquiet_step _ _ (20 * Second) GFlush _ _ _ _ (gquiet_done _ _)) _ eq_refl _);
    try (by vm_compute).
  intros k Hk. repeat (apply elem_of_cons in Hk as [->|Hk]; [reflexivity|]). by apply elem_of_nil in Hk.
Defined.

(** A callback that offers what it gets back to the grouper, and always panics. *)
Definition panicking_flush (a : Alert) (g : Grouper) : Grouper * bool := ((Offer 0 a g).1.2, true).
#[local] Instance panicking_laws : FlushOffers panicking_flush.
Proof.
  split; intros a g; unfold panicking_flush; cbn [fst].
  - pose proof (proj1 (gstep_params 0 (GOffer a) g)) as Hw. simpl in Hw. by destruct (Offer 0 a g) as [[pass g'] bs].
  - unfold Offer. by intros ->.
Qed.

Example panics_are_contained s :
  group_Run panicking_flush [Offered 0 example_alert; Offered 1 (storm_pod "b"); Cancelled 2]
    (MkRunning (group_New (30 * Second) []) []) = Some s → a_Name <$> s.(rn_sent) = ["1-grouped"].
Proof. vm_compute. by intros [= <-]. Qed.
