(* ===== verification/RulesEngine.v ===== *)
(** * internal/rules: correlation rules

    Models internal/rules/rules.go. [rule_state] is the [i]-th entry of the engine's three
    parallel slices; [Observe] and [evalAbsent] each touch rule [i]'s entry only, under one
    mutex. [now] is the engine's clock, [wall] the [time.Now()] of [alert.New]. *)
From stdpp Require Import sorting.
From S2P Require Import Prelude GoStd AlertModel Config.

Definition absentTick : duration := 30 * Second.
Definition derivedReason : string := "DerivedRule".

Record rule_state := MkRuleState {
  rs_seen : list time;           (** Count: match timestamps *)
  rs_allSeen : list (list time); (** All: per-group timestamps *)
  rs_last : time;                (** Absent: last match, zero = never *)
}.

Record Engine := MkEngine {
  eg_rules : list Rule;
  eg_start : time;
  eg_state : list rule_state;
}.

(** [rules.New]. *)
Definition rule_init (r : Rule) : rule_state :=
  MkRuleState [] (match r.(Ru_All) with [] => [] | l => (λ _, []) <$> l end) 0.

Definition engine_New (now : time) (rules : list Rule) : Engine := MkEngine rules now (rule_init <$> rules).

Definition engine_Enabled (e : option Engine) : bool :=
  match e with Some e => (0 <? length e.(eg_rules))%nat | None => false end.

Definition secs (n : Z) : duration := Seconds n.

(** The leading trim. *)
Fixpoint trim_before (cutoff : time) (ts : list time) : list time :=
  match ts with
  | t :: ts' => if Before t cutoff then trim_before cutoff ts' else ts
  | [] => []
  end.

Definition prune (ts : list time) (now : time) (d : duration) : list time := trim_before (Add now (- d)) ts.

Definition allGroupsActive (groups : list (list time)) : bool :=
  match groups with
  | [] => false
  | _ => forallb (λ g, negb (length g =? 0)%nat) groups
  end.

Definition derived (wall : time) (r : Rule) : Alert :=
  let a := New wall KindDerived "" r.(Ru_Name) derivedReason r.(Ru_Severity) in
  let a := with_Summary (if negb (streq r.(Ru_Summary) "") then r.(Ru_Summary)
                         else "rule " +:+ r.(Ru_Name) +:+ " fired") a in
  with_Labels (<["rule" := r.(Ru_Name)]> a.(a_Labels)) a.

Section rules.
Context `{RegexpLib}.

(** [if a.MatchLabels(m) { ts = append(ts, now) }; ts = prune(ts, now, window)]. *)
Definition record_match (now : time) (a : Alert) (m : gmap string string) (window : duration) (ts : list time)
  : list time :=
  prune (if MatchLabels a m then ts ++ [now] else ts) now window.

(** The body of [Observe]'s loop: the rule's next entry and whether it fires. *)
Definition observe_rule (now : time) (a : Alert) (r : Rule) (s : rule_state) : rule_state * bool :=
  match r.(Ru_Count) with
  | Some c =>
    let seen := record_match now a c.(Rn_Match) (secs r.(Ru_WindowSeconds)) s.(rs_seen) in
    (MkRuleState seen s.(rs_allSeen) s.(rs_last), c.(Threshold) <=? Z.of_nat (length seen))
  | None =>
    match r.(Ru_All) with
    | _ :: _ =>
      let all := zip_with (λ m ts, record_match now a m (secs r.(Ru_WindowSeconds)) ts) r.(Ru_All) s.(rs_allSeen) in
      (MkRuleState s.(rs_seen) all s.(rs_last), allGroupsActive all)
    | [] =>
      match r.(Ru_Absent) with
      | Some ab => (MkRuleState s.(rs_seen) s.(rs_allSeen)
                      (if MatchLabels a ab.(Ab_Match) then now else s.(rs_last)), false)
      | None => (s, false)
      end
    end
  end.

(** Alerts [Observe] ignores. *)
Definition unobserved (a : Alert) : bool := a.(a_Resolved) || streq a.(a_Kind) KindDerived.

Definition Observe (now wall : time) (a : Alert) (e : Engine) : Engine * list Alert :=
  if unobserved a then (e, [])
  else
    let res := zip_with (observe_rule now a) e.(eg_rules) e.(eg_state) in
    (MkEngine e.(eg_rules) e.(eg_start) res.*1,
     omap (λ p : Rule * (rule_state * bool), if p.2.2 then Some (derived wall p.1) else None) (zip e.(eg_rules) res)).

Definition hasAbsent (e : Engine) : bool := existsb (λ r, non_nil r.(Ru_Absent)) e.(eg_rules).

(** The body of [evalAbsent]'s loop. *)
Definition absent_fires (now start : time) (r : Rule) (s : rule_state) : bool :=
  match r.(Ru_Absent) with
  | None => false
  | Some ab =>
    let ref := if IsZero s.(rs_last) then start else s.(rs_last) in
    secs ab.(ForSeconds) <? Sub now ref
  end.

Definition evalAbsent (now wall : time) (e : Engine) : list Alert :=
  omap (λ p : Rule * rule_state, if absent_fires now e.(eg_start) p.1 p.2 then Some (derived wall p.1) else None)
    (zip e.(eg_rules) e.(eg_state)).

(** [Run] does nothing without an Absent rule; otherwise each tick evaluates them. *)
Definition tick (now wall : time) (e : Engine) : list Alert := if hasAbsent e then evalAbsent now wall e else [].

(** ** Runs *)

(** The engine after observing a stream, oldest first. *)
Definition observe_run (e : Engine) (obs : list (time * Alert)) : Engine :=
  fold_left (λ e p, (Observe p.1 p.1 p.2 e).1) obs e.

Definition rule_run (r : Rule) (s : rule_state) (obs : list (time * Alert)) : rule_state :=
  fold_left (λ s p, if unobserved p.2 then s else (observe_rule p.1 p.2 r s).1) obs s.

(** Timestamps of the stream's occurrences of a matcher. *)
Definition occurrences (m : gmap string string) (obs : list (time * Alert)) : list time :=
  omap (λ p : time * Alert, if negb (unobserved p.2) && MatchLabels p.2 m then Some p.1 else None) obs.

Definition since (cutoff : time) (ts : list time) : list time := filter (λ t, cutoff <= t) ts.

(** One matcher's timestamps along the stream. *)
Definition track (m : gmap string string) (d : duration) (obs : list (time * Alert)) : list time :=
  fold_left (λ ts p, if unobserved p.2 then ts else record_match p.1 p.2 m d ts) obs [].

(** What a rule's condition means for the stream up to [now]. *)
Definition condition_holds (r : Rule) (obs : list (time * Alert)) (now : time) : Prop :=
  let recent m := since (Add now (- secs r.(Ru_WindowSeconds))) (occurrences m obs) in
  match r.(Ru_Count), r.(Ru_All) with
  | Some c, _ => c.(Threshold) <= Z.of_nat (length (recent c.(Rn_Match)))
  | None, _ :: _ => ∀ m, m ∈ r.(Ru_All) → recent m ≠ []
  | None, [] => False
  end.

(** Nondecreasing clock readings. *)
Definition ascending (obs : list (time * Alert)) : Prop := StronglySorted Z.le obs.*1.

(** ** Lemmas *)

Lemma filter_all {A} (P : A → Prop) `{∀ x, Decision (P x)} (l : list A) : (∀ x, x ∈ l → P x) → filter P l = l.
Proof.
  induction l as [|x l IH]; intros Hall; [done|]. rewrite filter_cons_True by (apply Hall; left).
  f_equal. apply IH. intros y Hy. apply Hall. by right.
Qed.

Lemma zip_with_fmap_self {A B C} (f : A → B → C) (g : A → B) (l : list A) :
  zip_with f l (g <$> l) = (λ x, f x (g x)) <$> l.
Proof. induction l as [|x l IH]; [done|]. rewrite !fmap_cons. cbn [zip_with]. by rewrite IH. Qed.

Lemma trim_since cutoff ts : StronglySorted Z.le ts → trim_before cutoff ts = since cutoff ts.
Proof.
  unfold since. induction 1 as [|t ts Hs IH Hf]; [done|]. simpl. rewrite Forall_forall in Hf.
  destruct (Before t cutoff) eqn:Eb.
  - apply Before_spec in Eb. rewrite IH, filter_cons_False; [done|lia].
  - apply Before_false in Eb. rewrite filter_all; [done|].
    intros x [->|Hx]%elem_of_cons; [done|]. specialize (Hf x Hx). lia.
Qed.

Lemma since_since c c' ts : c <= c' → since c' (since c ts) = since c' ts.
Proof.
  intros Hle. unfold since. induction ts as [|t ts IH]; [done|]. rewrite (filter_cons (λ t0, c <= t0)).
  destruct (decide (c <= t)).
  - by rewrite !filter_cons, IH.
  - rewrite IH, filter_cons_False; [done|lia].
Qed.

Lemma since_app c ts ts' : since c (ts ++ ts') = since c ts ++ since c ts'.
Proof. apply filter_app. Qed.

Lemma occurrences_snoc m obs now a :
  occurrences m (obs ++ [(now, a)])
  = occurrences m obs ++ (if negb (unobserved a) && MatchLabels a m then [now] else []).
Proof. unfold occurrences. rewrite omap_app. f_equal. simpl. by destruct (_ && _). Qed.

Lemma ascending_snoc obs now a :
  ascending (obs ++ [(now, a)]) ↔ ascending obs ∧ ∀ t, t ∈ obs.*1 → t <= now.
Proof.
  unfold ascending. rewrite fmap_app. simpl. split.
  - intros Hs. apply StronglySorted_app in Hs as (Hx & Hl & _); [|done..].
    split; [done|]. intros t Ht. apply Hx; [done|left].
  - intros [Hl Hx]. apply StronglySorted_app_2; [|done|repeat constructor].
    intros x y Hin Hy. apply list_elem_of_singleton in Hy as ->. by apply Hx.
Qed.

Lemma track_snoc m d obs now a :
  track m d (obs ++ [(now, a)])
  = if unobserved a then track m d obs else record_match now a m d (track m d obs).
Proof. unfold track. by rewrite fold_left_app. Qed.

Lemma StronglySorted_since c ts : StronglySorted Z.le ts → StronglySorted Z.le (since c ts).
Proof.
  unfold since. induction 1 as [|t ts _ IH Hf]; [constructor|]. rewrite filter_cons.
  destruct (decide (c <= t)); [|done]. constructor; [done|]. rewrite Forall_forall in *.
  intros x (_ & Hx)%list_elem_of_filter. by apply Hf.
Qed.

(** The kept timestamps agree with the occurrences beyond every later cutoff. *)
Lemma track_agrees m d obs :
  ascending obs →
  StronglySorted Z.le (track m d obs) ∧ (∀ t, t ∈ track m d obs → t ∈ obs.*1)
  ∧ ∀ later, (∀ t, t ∈ obs.*1 → t <= later) →
      since (Add later (- d)) (track m d obs) = since (Add later (- d)) (occurrences m obs).
Proof.
  induction obs as [|[now a] obs IH] using rev_ind.
  { intros _. split; [constructor|]. split; [|done]. intros t Ht. by apply elem_of_nil in Ht. }
  intros [Hasc Hle]%ascending_snoc. destruct (IH Hasc) as (Hs & Hin & Hag). clear IH.
  rewrite track_snoc, occurrences_snoc, fmap_app. cbn [fmap list_fmap fst].
  destruct (unobserved a) eqn:Eu.
  { split; [done|]. split; [intros t Ht; apply elem_of_app; left; by apply Hin|].
    intros later Hl. simpl. rewrite app_nil_r. apply Hag. intros t Ht. apply Hl, elem_of_app. by left. }
  simpl. unfold record_match, prune.
  assert (Hs' : StronglySorted Z.le (track m d obs ++ if MatchLabels a m then [now] else [])).
  { apply StronglySorted_app_2; [|done|destruct (MatchLabels a m); repeat constructor].
    intros x y Hx Hy. assert (y = now) as -> by (destruct (MatchLabels a m); set_solver). apply Hle, Hin, Hx. }
  assert (E : (if MatchLabels a m then track m d obs ++ [now] else track m d obs)
              = track m d obs ++ if MatchLabels a m then [now] else [])
    by (destruct (MatchLabels a m); [done|by rewrite app_nil_r]).
  rewrite E, trim_since by done. split; [by apply StronglySorted_since|]. split.
  - intros t (_ & Ht)%list_elem_of_filter. apply elem_of_app in Ht as [Ht|Ht]; apply elem_of_app.
    + left. by apply Hin.
    + right. destruct (MatchLabels a m); set_solver.
  - intros later Hl. assert (now <= later) by (apply Hl, elem_of_app; right; left).
    rewrite since_since by (unfold Add; lia). rewrite !since_app. f_equal.
    apply Hag. intros t Ht. apply Hl, elem_of_app. by left.
Qed.

Lemma track_now m d obs now a :
  ascending (obs ++ [(now, a)]) → unobserved a = false →
  record_match now a m d (track m d obs) = since (Add now (- d)) (occurrences m (obs ++ [(now, a)])).
Proof.
  intros Hasc Hu. destruct (track_agrees m d _ Hasc) as (_ & _ & Hag).
  destruct (proj1 (ascending_snoc _ _ _) Hasc) as [Hasc0 Hle].
  rewrite <- Hag, track_snoc, Hu.
  2:{ intros t Ht. rewrite fmap_app in Ht. apply elem_of_app in Ht as [Ht|Ht]; [by apply Hle|set_solver]. }
  unfold record_match, prune. destruct (track_agrees m d obs Hasc0) as (Hs & Hin & _).
  rewrite trim_since; [by rewrite since_since by lia|].
  destruct (MatchLabels a m); [|done]. apply StronglySorted_app_2; [|done|repeat constructor].
  intros x y Hx ->%list_elem_of_singleton. by apply Hle, Hin.
Qed.

(** ** One rule along the stream *)

Lemma rule_run_snoc r s obs now a :
  rule_run r s (obs ++ [(now, a)])
  = if unobserved a then rule_run r s obs else (observe_rule now a r (rule_run r s obs)).1.
Proof. unfold rule_run. by rewrite fold_left_app. Qed.

Lemma rule_run_count r c obs :
  r.(Ru_Count) = Some c →
  rs_seen (rule_run r (rule_init r) obs) = track c.(Rn_Match) (secs r.(Ru_WindowSeconds)) obs.
Proof.
  intros Hc. induction obs as [|[now a] obs IH] using rev_ind; [done|]. rewrite rule_run_snoc, track_snoc.
  destruct (unobserved a); [done|]. unfold observe_rule. rewrite Hc. simpl. by rewrite IH.
Qed.

Lemma rule_run_all r obs :
  r.(Ru_Count) = None → r.(Ru_All) ≠ [] →
  rs_allSeen (rule_run r (rule_init r) obs) = (λ m, track m (secs r.(Ru_WindowSeconds)) obs) <$> r.(Ru_All).
Proof.
  intros Hc Ha. induction obs as [|[now a] obs IH] using rev_ind.
  { simpl. by destruct (Ru_All r). }
  rewrite rule_run_snoc. setoid_rewrite track_snoc. destruct (unobserved a); [done|]. unfold observe_rule. rewrite Hc.
  destruct (Ru_All r) as [|m0 ms] eqn:E; [done|]. rewrite <- E in *. simpl. rewrite IH.
  apply zip_with_fmap_self.
Qed.

Lemma rule_run_last r ab obs :
  r.(Ru_Count) = None → r.(Ru_All) = [] → r.(Ru_Absent) = Some ab →
  rs_last (rule_run r (rule_init r) obs) = default 0 (last (occurrences ab.(Ab_Match) obs)).
Proof.
  intros Hc Ha Hab. induction obs as [|[now a] obs IH] using rev_ind; [done|].
  rewrite rule_run_snoc, occurrences_snoc. destruct (unobserved a); simpl; [by rewrite app_nil_r|].
  unfold observe_rule. rewrite Hc, Ha, Hab. simpl. destruct (MatchLabels a (Ab_Match ab)).
  - by rewrite last_snoc.
  - by rewrite app_nil_r.
Qed.

Lemma allGroupsActive_spec groups :
  groups ≠ [] → allGroupsActive groups = true ↔ ∀ g, g ∈ groups → g ≠ [].
Proof.
  unfold allGroupsActive. intros Hne. destruct groups as [|g0 gs]; [done|]. rewrite forallb_True.
  split; intros Hall g Hg; specialize (Hall g Hg); by destruct g.
Qed.

(** The condition the loop tests is the meaning. *)
Lemma observe_rule_fires r obs now a :
  ascending (obs ++ [(now, a)]) → unobserved a = false →
  (observe_rule now a r (rule_run r (rule_init r) obs)).2 = true ↔ condition_holds r (obs ++ [(now, a)]) now.
Proof.
  intros Hasc Hu. unfold observe_rule, condition_holds. destruct (Ru_Count r) as [c|] eqn:Ec.
  - simpl. rewrite (rule_run_count r c obs Ec), track_now by done. apply Z.leb_le.
  - destruct (Ru_All r) as [|m0 ms] eqn:Ea; [by destruct (Ru_Absent r)|]. cbn [snd]. rewrite <- Ea.
    rewrite rule_run_all, zip_with_fmap_self by (done || by rewrite Ea).
    rewrite allGroupsActive_spec by (by rewrite Ea). split.
    + intros Hall m Hm. rewrite <- (track_now m (secs (Ru_WindowSeconds r)) obs now a Hasc Hu).
      apply Hall. by apply (list_elem_of_fmap_2 (λ m, record_match now a m _ (track m _ obs))).
    + intros Hall ts (m & -> & Hm)%list_elem_of_fmap. rewrite track_now by done. by apply Hall.
Qed.

(** ** The whole engine *)

Lemma observe_run_snoc e obs now a :
  observe_run e (obs ++ [(now, a)]) = (Observe now now a (observe_run e obs)).1.
Proof. unfold observe_run. by rewrite fold_left_app. Qed.

Lemma zip_with_fmap_fst {A B C D} (f : A → B → C * D) (l : list A) (l' : list B) :
  (zip_with f l l').*1 = zip_with (λ x y, (f x y).1) l l'.
Proof. revert l'. induction l as [|x l IH]; intros [|y l']; [done..|]. cbn [zip_with]. rewrite fmap_cons. by rewrite IH. Qed.

Lemma observe_run_state now rules obs :
  observe_run (engine_New now rules) obs
  = MkEngine rules now ((λ r, rule_run r (rule_init r) obs) <$> rules).
Proof.
  induction obs as [|[t a] obs IH] using rev_ind; [done|]. rewrite observe_run_snoc, IH. unfold Observe. simpl.
  setoid_rewrite rule_run_snoc. destruct (unobserved a); [done|]. cbn [fst]. f_equal.
  by rewrite zip_with_fmap_fst, (zip_with_fmap_self (λ r s, (observe_rule t a r s).1)).
Qed.

Lemma derived_name wall r : a_Name (derived wall r) = r.(Ru_Name).
Proof. done. Qed.

(** With unique names an emitted alert identifies its rule. *)
Lemma omap_derived (f : Rule → bool) wall rules r :
  NoDup (Ru_Name <$> rules) → r ∈ rules →
  derived wall r ∈ omap (λ r, if f r then Some (derived wall r) else None) rules ↔ f r = true.
Proof.
  intros Hnd Hr. rewrite list_elem_of_omap. split.
  - intros (r' & Hr' & E). destruct (f r') eqn:Ef; [|done]. apply (inj Some) in E.
    apply (f_equal a_Name) in E. rewrite !derived_name in E.
    apply list_elem_of_lookup in Hr as [i Hi], Hr' as [j Hj].
    assert (i = j) as ->; [|by simplify_eq].
    eapply (NoDup_lookup _ i j (Ru_Name r)); [done|by rewrite list_lookup_fmap, Hi|by rewrite list_lookup_fmap, Hj; simpl; rewrite E].
  - intros Ef. exists r. by rewrite Ef.
Qed.

Lemma zip_fmap_self {A B} (g : A → B) (l : list A) : zip l (g <$> l) = (λ x, (x, g x)) <$> l.
Proof. apply (zip_with_fmap_self pair). Qed.

Lemma omap_fmap_eq {A B C} (f : B → option C) (g : A → B) (l : list A) : omap f (g <$> l) = omap (λ x, f (g x)) l.
Proof.
  induction l as [|x l IH]; [done|].
  change (match f (g x) with Some y => y :: omap f (g <$> l) | None => omap f (g <$> l) end
          = match f (g x) with Some y => y :: omap (λ x, f (g x)) l | None => omap (λ x, f (g x)) l end).
  by rewrite IH.
Qed.

(** C32: on every observed alert the engine emits a rule's derived alert exactly when the
    rule's condition holds of the stream so far: enough occurrences of the Count matcher, or
    one of each All matcher, within the window - although only trimmed timestamp lists are
    kept; and a derived alert fed back changes nothing and fires nothing, so no rule can
    trigger itself. *)
Theorem rules_fire_exactly t0 rules obs now wall a r e :
  NoDup (Ru_Name <$> rules) → r ∈ rules →
  ascending (obs ++ [(now, a)]) → unobserved a = false →
  e = observe_run (engine_New t0 rules) obs →
  (derived wall r ∈ (Observe now wall a e).2 ↔ condition_holds r (obs ++ [(now, a)]) now)
  ∧ ∀ w' r', Observe now wall (derived w' r') e = (e, []).
Proof.
  intros Hnd Hr Hasc Hu ->. split; [|done]. rewrite observe_run_state. unfold Observe. rewrite Hu. cbn [snd eg_rules eg_state].
  rewrite zip_with_fmap_self, zip_fmap_self, omap_fmap_eq. cbn [fst snd].
  rewrite (omap_derived (λ r, (observe_rule now a r (rule_run r (rule_init r) obs)).2)) by done.
  by apply observe_rule_fires.
Qed.

(** A heartbeat rule fires on a tick exactly when more than its period has passed since
    the last matching alert of the stream, or since the engine started when there was none. *)
Theorem absent_fires_exactly t0 rules obs now wall r ab :
  NoDup (Ru_Name <$> rules) → r ∈ rules →
  r.(Ru_Count) = None → r.(Ru_All) = [] → r.(Ru_Absent) = Some ab →
  (∀ t, t ∈ obs.*1 → 0 < t) →
  derived wall r ∈ tick now wall (observe_run (engine_New t0 rules) obs) ↔
  secs ab.(ForSeconds) < Sub now (default t0 (last (occurrences ab.(Ab_Match) obs))).
Proof.
  intros Hnd Hr Hc Ha Hab Hpos. unfold tick. rewrite observe_run_state.
  assert (hasAbsent (MkEngine rules t0 ((λ r, rule_run r (rule_init r) obs) <$> rules)) = true) as ->.
  { apply existsb_True. exists r. by rewrite Hab. }
  unfold evalAbsent. cbn [eg_rules eg_state eg_start]. rewrite zip_fmap_self, omap_fmap_eq. cbn [fst snd].
  rewrite (omap_derived (λ r, absent_fires now t0 r (rule_run r (rule_init r) obs))) by done.
  unfold absent_fires. rewrite Hab, (rule_run_last r ab) by done. rewrite Z.ltb_lt.
  destruct (last (occurrences (Ab_Match ab) obs)) as [t|] eqn:El; [|done]. simpl.
  assert (Ht : 0 < t).
  { apply last_Some_elem_of in El. unfold occurrences in El. apply list_elem_of_omap in El as ([t' b] & Hin & E).
    destruct (_ && _); [|done]. simplify_eq/=. apply Hpos, list_elem_of_fmap. by exists (t, b). }
  unfold IsZero. by rewrite (proj2 (Z.eqb_neq t 0)) by lia.
Qed.
End rules.

(** * Concrete instances *)

Definition storm_rule : Rule :=
  MkRule "pod-storm" SeverityCritical "" 60 (Some (MkRuleCount {["kind" := "Pod"]} 2)) [] None.
Definition beat_rule : Rule :=
  MkRule "beat" SeverityWarning "" 0 None [] (Some (MkRuleAbsent {["reason" := "OOMKilled"]} 120)).

#[local] Existing Instance mini_regexp.

Lemma example_names : NoDup (Ru_Name <$> [storm_rule; beat_rule]).
Proof. apply (bool_decide_unpack _). by vm_compute. Qed.

Lemma rules_fire_exactly_witness :
  derived 7 storm_rule ∈
    (Observe (50 * Second) 7 example_alert
       (observe_run (engine_New 0 [storm_rule; beat_rule]) [(10 * Second, example_alert)])).2.
Proof.
  assert (Hasc : ascending ([(10 * Second, example_alert)] ++ [(50 * Second, example_alert)])).
  { repeat constructor. by vm_compute. }
  assert (Hr : storm_rule ∈ [storm_rule; beat_rule]) by left.
  apply (proj1 (rules_fire_exactly 0 [storm_rule; beat_rule] [(10 * Second, example_alert)] (50 * Second) 7
                  example_alert storm_rule _ example_names Hr Hasc eq_refl eq_refl)).
  vm_compute. discriminate.
Defined.

Lemma absent_fires_exactly_witness :
  derived 7 beat_rule ∈
    tick (200 * Second) 7 (observe_run (engine_New 1 [storm_rule; beat_rule]) [(10 * Second, example_alert)]).
Proof.
  assert (Hr : beat_rule ∈ [storm_rule; beat_rule]) by (right; left).
  assert (Hpos : ∀ t, t ∈ [(10 * Second, example_alert)].*1 → 0 < t).
  { intros t Ht. apply list_elem_of_singleton in Ht as ->. by vm_compute. }
  apply (absent_fires_exactly 1 [storm_rule; beat_rule] [(10 * Second, example_alert)] (200 * Second) 7
           beat_rule (MkRuleAbsent {["reason" := "OOMKilled"]} 120) example_names Hr eq_refl eq_refl eq_refl Hpos).
  by vm_compute.
Defined.
