(* ===== verification/Sinks.v ===== *)
(** * internal/sinks: circuit breaker and registry fan-out

    Models internal/sinks/breaker.go and sink.go. The outcome of a sink's [Send] (and of the
    rate limiter before it) is an argument of [Dispatch]: the sink and the limiter are code
    outside the registry. Each breaker method holds the breaker's mutex once. *)
From S2P Require Import Prelude GoStd AlertModel.

(** ** breaker.go *)

Definition breakerThreshold : Z := 5.
Definition breakerCooldown : duration := 30 * Second.
Definition breakerSlowThreshold : duration := 5 * Second.
Definition breakerSlowRun : Z := 5.

Inductive breakerState := breakerClosed | breakerOpen | breakerHalfOpen.

#[global] Instance breakerState_eq_dec : EqDecision breakerState.
Proof. solve_decision. Defined.

Record breaker := MkBreaker {
  br_failures : Z;
  br_slow : Z;
  br_state : breakerState;
  br_openUntil : time;
}.

Definition newBreaker : breaker := MkBreaker 0 0 breakerClosed 0.

(** [(ok, probe)] and the next state. *)
Definition Allow (now : time) (b : breaker) : bool * bool * breaker :=
  match b.(br_state) with
  | breakerOpen =>
    if Before now b.(br_openUntil) then (false, false, b)
    else (true, true, MkBreaker b.(br_failures) b.(br_slow) breakerHalfOpen b.(br_openUntil))
  | breakerHalfOpen => (false, false, b)
  | breakerClosed => (true, false, b)
  end.

Definition breaker_Record (now : time) (success : bool) (b : breaker) : breaker :=
  if success then MkBreaker 0 b.(br_slow) breakerClosed b.(br_openUntil)
  else
    let failures := b.(br_failures) + 1 in
    if bool_decide (b.(br_state) = breakerHalfOpen) || (breakerThreshold <=? failures)
    then MkBreaker failures b.(br_slow) breakerOpen (Add now breakerCooldown)
    else MkBreaker failures b.(br_slow) b.(br_state) b.(br_openUntil).

Definition RecordLatency (now : time) (took : duration) (b : breaker) : breaker :=
  if took <? breakerSlowThreshold then MkBreaker b.(br_failures) 0 b.(br_state) b.(br_openUntil)
  else
    let slow := b.(br_slow) + 1 in
    if breakerSlowRun <=? slow
    then MkBreaker b.(br_failures) 0 breakerOpen (Add now breakerCooldown)
    else MkBreaker b.(br_failures) slow b.(br_state) b.(br_openUntil).

Definition breaker_Open (now : time) (b : breaker) : bool :=
  match b.(br_state) with
  | breakerHalfOpen => true
  | breakerOpen => Before now b.(br_openUntil)
  | breakerClosed => false
  end.

(** ** sink.go *)

(** A sink is what the registry asks of it: the severities it supports. *)
Record Registry := MkRegistry {
  rg_sinks : gmap string (Severity → bool);
  rg_limiters : gmap string (float64 * Z);
  rg_breakers : gmap string breaker;
}.

Definition NewRegistry : Registry := MkRegistry ∅ ∅ ∅.

Definition defaultSinkRate : float64 := FFinite 1 1.
Definition defaultSinkBurst : Z := 5.

Definition registry_Add (name : string) (supports : Severity → bool) (r : Registry) : Registry :=
  MkRegistry (<[name := supports]> r.(rg_sinks))
    (match r.(rg_limiters) !! name with
     | Some _ => r.(rg_limiters)
     | None => <[name := (defaultSinkRate, defaultSinkBurst)]> r.(rg_limiters)
     end)
    (match r.(rg_breakers) !! name with
     | Some _ => r.(rg_breakers)
     | None => <[name := newBreaker]> r.(rg_breakers)
     end).

Definition Has (name : string) (r : Registry) : bool := bool_decide (is_Some (r.(rg_sinks) !! name)).
Definition Names (r : Registry) : list string := SortedKeys r.(rg_sinks).
Definition SetRate (name : string) (limit : float64) (burst : Z) (r : Registry) : Registry :=
  MkRegistry r.(rg_sinks) (<[name := (limit, burst)]> r.(rg_limiters)) r.(rg_breakers).

(** What happens to one attempt: no token in time, a panic, or a send with its duration. *)
Inductive outcome :=
  | RateLimited
  | Panicked
  | Sent (ok : bool) (took : duration).

Definition outcome_ok (o : outcome) : bool := match o with Sent ok _ => ok | _ => false end.

(** [!ok || (!a.Resolved && !s.Supports(a.Severity))], negated. *)
Definition eligible (a : Alert) (r : Registry) (name : string) : bool :=
  match r.(rg_sinks) !! name with
  | Some supports => a.(a_Resolved) || supports a.(a_Severity)
  | None => false
  end.

Definition set_breaker (name : string) (b : breaker) (r : Registry) : Registry :=
  MkRegistry r.(rg_sinks) r.(rg_limiters) (<[name := b]> r.(rg_breakers)).

(** The loop on the caller's goroutine for one name: [None] skips an ineligible sink,
    [Some None] is a short-circuit, [Some (Some probe)] an attempt. *)
Definition admit_sink (now : time) (a : Alert) (name : string) (r : Registry) : option (option bool) * Registry :=
  if negb (eligible a r name) then (None, r)
  else match r.(rg_breakers) !! name with
       | Some b =>
         if a.(a_Resolved) then (Some (Some false), r)
         else let '(ok, probe, b) := Allow now b in
              (Some (if (ok : bool) then Some probe else None), set_breaker name b r)
       | None => (Some (Some false), r)
       end.

(** The goroutine of one attempt, as far as it changes the registry. *)
Definition finish (now : time) (name : string) (probe : bool) (o : outcome) (r : Registry) : Registry :=
  match r.(rg_breakers) !! name with
  | None => r
  | Some b =>
    match o with
    | RateLimited => if probe then set_breaker name (breaker_Record now false b) r else r
    | Panicked => set_breaker name (breaker_Record now false b) r
    | Sent ok took => set_breaker name (RecordLatency now took (breaker_Record now ok b)) r
    end
  end.

(** The admission loop: the attempts with their probe flag, the number short-circuited. *)
Fixpoint admit_all (now : time) (a : Alert) (names : list string) (r : Registry)
  : list (string * bool) * nat * Registry :=
  match names with
  | [] => ([], 0%nat, r)
  | name :: names =>
    let '(d, r) := admit_sink now a name r in
    let '(atts, skipped, r) := admit_all now a names r in
    match d with
    | None => (atts, skipped, r)
    | Some None => (atts, S skipped, r)
    | Some (Some probe) => ((name, probe) :: atts, skipped, r)
    end
  end.

(** [Dispatch]: admission at [now], then every attempt finishes at [later] with its outcome. *)
Definition Dispatch (now later : time) (out : string → outcome) (a : Alert) (names : list string) (r : Registry)
  : bool * Registry :=
  let '(atts, skipped, r) := admit_all now a names r in
  let r := fold_left (λ r p, finish later p.1 p.2 (out p.1) r) atts r in
  let succeeded := length (filter (λ p : string * bool, outcome_ok (out p.1) = true) atts) in
  (if (0 <? length atts)%nat then (0 <? succeeded)%nat else (skipped =? 0)%nat, r).

(** [TestSend]: [None] is success; an error names the sink. *)
Inductive test_error := EUnknown (name : string) | EPanic (name : string) | ESend.
Definition TestSend (out : outcome) (name : string) (r : Registry) : option test_error :=
  match r.(rg_sinks) !! name with
  | None => Some (EUnknown name)
  | Some _ => match out with Panicked => Some (EPanic name) | Sent true _ => None | _ => Some ESend end
  end.

(** ** Breaker invariants *)

Inductive breaker_op := BAllow | BRecord (success : bool) | BLatency (took : duration).

Definition apply_breaker (now : time) (o : breaker_op) (b : breaker) : breaker :=
  match o with
  | BAllow => (Allow now b).2
  | BRecord success => breaker_Record now success b
  | BLatency took => RecordLatency now took b
  end.

Inductive breaker_reach : time → breaker → Prop :=
  | br_new t : breaker_reach t newBreaker
  | br_op t t' o b : breaker_reach t b → t <= t' → breaker_reach t' (apply_breaker t' o b).

Definition breaker_inv (now : time) (b : breaker) : Prop :=
  0 <= b.(br_failures) ∧ 0 <= b.(br_slow) < breakerSlowRun
  ∧ (b.(br_state) = breakerClosed → b.(br_failures) < breakerThreshold)
  ∧ (b.(br_state) = breakerOpen → b.(br_openUntil) <= now + breakerCooldown).

Lemma breaker_inv_op t t' o b : t <= t' → breaker_inv t b → breaker_inv t' (apply_breaker t' o b).
Proof.
  intros Ht (Hf & Hs & Hc & Ho). unfold breaker_inv.
  destruct o as [|success|took]; simpl; unfold Allow, breaker_Record, RecordLatency, Add.
  - destruct (br_state b) eqn:E; [|destruct (Before t' (br_openUntil b))|]; simpl; rewrite ?E;
      split_and!; try done; try lia; intros _; specialize (Ho eq_refl); lia.
  - destruct success; [|destruct (_ || _) eqn:E]; simpl; bool_hyps; split_and!; try done; try lia;
      intros Hst; specialize (Ho Hst); lia.
  - destruct (took <? breakerSlowThreshold); [|destruct (Z.leb_spec breakerSlowRun (br_slow b + 1))]; simpl;
      split_and!; try done; try lia; intros Hst; specialize (Ho Hst); lia.
Qed.

(** The breaker never gives up on a sink and never stays open past one cooldown: in every
    reachable state in which no probe is in flight, a send asked for one cooldown later is
    admitted; while a probe is in flight none is; and a success closes it at once. *)
Theorem breaker_recovers t b later :
  breaker_reach t b → t + breakerCooldown <= later →
  (b.(br_state) ≠ breakerHalfOpen → (Allow later b).1.1 = true)
  ∧ (b.(br_state) = breakerHalfOpen → Allow later b = (false, false, b))
  ∧ (∀ now, (breaker_Record now true b).(br_state) = breakerClosed)
  ∧ (∀ now, b.(br_state) = breakerHalfOpen →
       (breaker_Record now false b).(br_state) = breakerOpen
       ∧ (Allow now (breaker_Record now false b)).1.1 = false).
Proof.
  intros Hr Hle.
  assert (Hinv : breaker_inv t b).
  { clear Hle. induction Hr as [t|t t' o b _ IH Ht]; [split_and!; simpl; done|by apply (breaker_inv_op t)]. }
  destruct Hinv as (_ & _ & _ & Ho). unfold Allow. split_and!.
  - destruct (br_state b) eqn:E; [done| |done]. intros _. specialize (Ho eq_refl).
    by rewrite (proj2 (Before_false later (br_openUntil b))) by lia.
  - by intros ->.
  - done.
  - intros now Hst. unfold breaker_Record. rewrite bool_decide_true by done. simpl. split; [done|].
    by rewrite (proj2 (Before_spec now _)) by (unfold Add, breakerCooldown, Second; lia).
Qed.

(** Consecutive failures or slow successes reported to one breaker. *)
Fixpoint repeat_op (n : nat) (now : time) (o : breaker_op) (b : breaker) : breaker :=
  match n with O => b | S n => repeat_op n now o (apply_breaker now o b) end.

(** A run of failures as long as the threshold opens the breaker. *)
Lemma failures_open now b :
  breaker_inv now b → (repeat_op (Z.to_nat breakerThreshold) now (BRecord false) b).(br_state) = breakerOpen.
Proof.
  intros (Hf & _). unfold repeat_op, apply_breaker. cbn [Z.to_nat breakerThreshold Pos.to_nat Pos.iter_op Nat.add].
  assert (Hlast : ∀ b', breakerThreshold <= br_failures b' + 1 → br_state (breaker_Record now false b') = breakerOpen).
  { intros b' Hb. unfold breaker_Record. by rewrite (proj2 (Z.leb_le _ _) Hb), orb_true_r. }
  assert (Hinc : ∀ b', br_failures (breaker_Record now false b') = br_failures b' + 1)
    by (intros b'; unfold breaker_Record; by destruct (_ || _)).
  apply Hlast. rewrite !Hinc. unfold breakerThreshold. lia.
Qed.

(** ** Fan-out *)

Lemma admit_sinks now a name r : (admit_sink now a name r).2.(rg_sinks) = r.(rg_sinks).
Proof.
  unfold admit_sink. destruct (negb _); [done|]. destruct (rg_breakers r !! name) as [b|]; [|done].
  destruct (a_Resolved a); [done|]. by destruct (Allow now b) as [[[] ?] ?].
Qed.

Lemma eligible_admit now a name r n : eligible a (admit_sink now a name r).2 n = eligible a r n.
Proof. unfold eligible. by rewrite admit_sinks. Qed.

Lemma admit_None now a name r : (admit_sink now a name r).1 = None ↔ eligible a r name = false.
Proof.
  unfold admit_sink. destruct (eligible a r name); simpl; [|done]. destruct (rg_breakers r !! name) as [b|]; [|done].
  destruct (a_Resolved a); [done|]. by destruct (Allow now b) as [[[] ?] ?].
Qed.

(** The attempts and the number short-circuited, by the first name. *)
Lemma admit_all_cons now a name names r :
  admit_all now a (name :: names) r =
  (match (admit_sink now a name r).1 with
   | Some (Some probe) => (name, probe) :: (admit_all now a names (admit_sink now a name r).2).1.1
   | _ => (admit_all now a names (admit_sink now a name r).2).1.1
   end,
   match (admit_sink now a name r).1 with
   | Some None => S (admit_all now a names (admit_sink now a name r).2).1.2
   | _ => (admit_all now a names (admit_sink now a name r).2).1.2
   end,
   (admit_all now a names (admit_sink now a name r).2).2).
Proof.
  cbn [admit_all]. destruct (admit_sink now a name r) as [d r']. cbn [fst snd].
  destruct (admit_all now a names r') as [[atts sk] r'']. by destruct d as [[]|].
Qed.

Lemma admit_all_attempts now a names r n p :
  (n, p) ∈ (admit_all now a names r).1.1 → n ∈ names ∧ eligible a r n = true.
Proof.
  revert r. induction names as [|name names IH]; intros r; [intros Hin; by apply elem_of_nil in Hin|].
  rewrite admit_all_cons. cbn [fst].
  assert (Hrec : (n, p) ∈ (admit_all now a names (admit_sink now a name r).2).1.1 → n ∈ name :: names ∧ eligible a r n = true).
  { intros Hin. apply IH in Hin as [? He]. rewrite eligible_admit in He. split; [by right|done]. }
  destruct (admit_sink now a name r).1 as [[probe|]|] eqn:E; [|done|done].
  intros [Heq|Hin]%elem_of_cons; [|by apply Hrec]. simplify_eq. split; [left|].
  apply not_false_is_true. intros Hf. apply (admit_None now) in Hf. congruence.
Qed.

Lemma admit_all_none now a names r :
  (admit_all now a names r).1.1 = [] ∧ (admit_all now a names r).1.2 = 0%nat
  ↔ ∀ n, n ∈ names → eligible a r n = false.
Proof.
  revert r. induction names as [|name names IH]; intros r.
  { split; [|done]. intros _ n Hn. by apply elem_of_nil in Hn. }
  rewrite admit_all_cons. cbn [fst snd]. setoid_rewrite elem_of_cons.
  specialize (IH (admit_sink now a name r).2). setoid_rewrite eligible_admit in IH.
  pose proof (admit_None now a name r) as Hn.
  destruct (admit_sink now a name r).1 as [[probe|]|]; naive_solver.
Qed.

Lemma admit_all_resolved now a names r n :
  a.(a_Resolved) = true → n ∈ names → eligible a r n = true → (n, false) ∈ (admit_all now a names r).1.1.
Proof.
  intros Hres. assert (Hadm : ∀ name r0, (admit_sink now a name r0).1 = None ∨ (admit_sink now a name r0).1 = Some (Some false)).
  { intros name r0. unfold admit_sink. destruct (negb _); [by left|right].
    rewrite Hres. by destruct (rg_breakers r0 !! name). }
  revert r. induction names as [|name names IH]; intros r Hn He; [by apply elem_of_nil in Hn|].
  rewrite admit_all_cons. cbn [fst].
  assert (Hrec : n ∈ names → (n, false) ∈ (admit_all now a names (admit_sink now a name r).2).1.1).
  { intros Hin. apply IH; [done|]. by rewrite eligible_admit. }
  destruct (Hadm name r) as [E|E]; rewrite E; apply elem_of_cons in Hn as [->|Hn]; auto.
  - apply admit_None in E. congruence.
  - left.
  - right. auto.
Qed.

(** The return value of a fan-out means what its callers rely on: it is true exactly when
    some attempted sink accepted the alert or there was nothing to deliver (no routed sink is
    registered and supports the severity), so a firing alert that every open breaker skipped
    reports failure; only eligible routed sinks are attempted; and a resolve attempts all of
    them, open breakers included. *)
Theorem Dispatch_contract now later out a names r :
  let attempts := (admit_all now a names r).1.1 in
  ((Dispatch now later out a names r).1 = true ↔
     (∃ n p, (n, p) ∈ attempts ∧ outcome_ok (out n) = true) ∨ ∀ n, n ∈ names → eligible a r n = false)
  ∧ (∀ n p, (n, p) ∈ attempts → n ∈ names ∧ eligible a r n = true)
  ∧ (a.(a_Resolved) = true → ∀ n, n ∈ names → eligible a r n = true → (n, false) ∈ attempts).
Proof.
  intros attempts. split; [|split; [apply admit_all_attempts|intros; by apply admit_all_resolved]].
  unfold Dispatch. subst attempts. pose proof (admit_all_none now a names r) as Hnone.
  destruct (admit_all now a names r) as [[atts sk] r']. cbn [fst snd] in *. rewrite <- Hnone. clear Hnone.
  destruct (Nat.ltb_spec 0 (length atts)) as [Hl|Hl].
  - rewrite Nat.ltb_lt. split.
    + intros Hs. left. destruct (filter _ atts) as [|[n p] l] eqn:E; [simpl in Hs; lia|].
      assert (Hin : (n, p) ∈ filter (λ p : string * bool, outcome_ok (out p.1) = true) atts) by (rewrite E; left).
      apply list_elem_of_filter in Hin as [Hok Hin]. by exists n, p.
    + intros [(n & p & Hin & Hok)|[-> _]]; [|simpl in Hl; lia].
      assert (Hf : (n, p) ∈ filter (λ p : string * bool, outcome_ok (out p.1) = true) atts) by (by apply list_elem_of_filter).
      destruct (filter _ atts); [by apply elem_of_nil in Hf|simpl; lia].
  - destruct atts; [|simpl in Hl; lia]. rewrite Nat.eqb_eq. split; [by right|].
    intros [(n & p & Hin & _)|[_ ?]]; [by apply elem_of_nil in Hin|done].
Qed.

(** A probe is in flight at a sink. *)
Definition stranded (n : string) (r : Registry) : Prop :=
  ∃ b, r.(rg_breakers) !! n = Some b ∧ b.(br_state) = breakerHalfOpen.

Lemma stranded_set n name b r :
  stranded n (set_breaker name b r) → (n = name ∧ b.(br_state) = breakerHalfOpen) ∨ (n ≠ name ∧ stranded n r).
Proof.
  intros (b' & Hb & Hs). simpl in Hb. destruct (decide (name = n)) as [->|Hne].
  - rewrite lookup_insert_eq in Hb. left. by simplify_eq.
  - rewrite lookup_insert_ne in Hb by done. right. split; [done|by exists b'].
Qed.

Lemma admit_stranded now a name r n :
  stranded n (admit_sink now a name r).2 → stranded n r ∨ (n = name ∧ (admit_sink now a name r).1 = Some (Some true)).
Proof.
  unfold admit_sink. destruct (negb _); [by left|]. destruct (rg_breakers r !! name) as [b|] eqn:Eb; [|by left].
  destruct (a_Resolved a); [by left|]. unfold Allow. destruct (br_state b) eqn:Est.
  - simpl. intros [[-> E]|[_ ?]]%stranded_set; [congruence|by left].
  - destruct (Before now (br_openUntil b)); simpl; intros [[-> E]|[_ ?]]%stranded_set; [congruence|by left|by right|by left].
  - simpl. intros [[-> E]|[_ ?]]%stranded_set; [|by left]. left. by exists b.
Qed.

Lemma admit_all_stranded now a names r n :
  stranded n (admit_all now a names r).2 → stranded n r ∨ (n, true) ∈ (admit_all now a names r).1.1.
Proof.
  revert r. induction names as [|name names IH]; intros r; [by left|]. rewrite admit_all_cons. cbn [fst snd].
  intros [Hs|Hin]%IH.
  - apply admit_stranded in Hs as [?|[-> E]]; [by left|]. rewrite E. right. left.
  - right. destruct (admit_sink now a name r).1 as [[probe|]|]; [by right|done|done].
Qed.

Lemma finish_stranded later name probe o r n :
  stranded n (finish later name probe o r) → stranded n r ∧ (n, true) ≠ (name, probe).
Proof.
  unfold finish. destruct (rg_breakers r !! name) as [b|] eqn:Eb.
  2:{ intros Hs. split; [done|]. intros [= -> _]. destruct Hs as (b & Hb & _). congruence. }
  assert (Hrec : ∀ ok b, br_state (breaker_Record later ok b) ≠ breakerHalfOpen).
  { intros ok b0. unfold breaker_Record. destruct ok; [done|].
    destruct (bool_decide_reflect (br_state b0 = breakerHalfOpen)); simpl; [done|]. by destruct (_ <=? _). }
  destruct o as [| |ok took]; [destruct probe| |].
  - intros [[_ E]|[Hne Hs]]%stranded_set; [by apply Hrec in E|]. split; [done|congruence].
  - intros Hs. split; [done|congruence].
  - intros [[_ E]|[Hne Hs]]%stranded_set; [by apply Hrec in E|]. split; [done|congruence].
  - intros [[_ E]|[Hne Hs]]%stranded_set; [|split; [done|congruence]].
    revert E. unfold RecordLatency. destruct (_ <? _); [|destruct (_ <=? _)]; simpl; intros E; [by apply Hrec in E|done|by apply Hrec in E].
Qed.

(** No fan-out leaves a breaker stranded half-open: whatever each attempt ends in - sent,
    failed, slow, panicked, or dropped by the rate limiter after taking the probe - a breaker
    that was not probing before is not probing after, so later sends are not blocked. *)
Theorem Dispatch_never_strands now later out a names r :
  (∀ n, ¬ stranded n r) → ∀ n, ¬ stranded n (Dispatch now later out a names r).2.
Proof.
  intros Hr n. unfold Dispatch. pose proof (admit_all_stranded now a names r n) as Hadm.
  destruct (admit_all now a names r) as [[atts sk] r']. cbn [fst snd] in *. intros Hs.
  assert (Hfold : ∀ l r0, stranded n (fold_left (λ r p, finish later p.1 p.2 (out p.1) r) l r0) →
            stranded n r0 ∧ (n, true) ∉ l).
  { induction l as [|[name probe] l IH]; intros r0 H0; [split; [done|apply not_elem_of_nil]|].
    cbn [fold_left fst snd] in H0. apply IH in H0 as [H0 Hnin]. apply finish_stranded in H0 as [H0 Hne].
    split; [done|]. rewrite not_elem_of_cons. done. }
  apply Hfold in Hs as [Hs Hnin]. destruct (Hadm Hs) as [?|?]; [by apply (Hr n)|done].
Qed.

(** * Concrete instances *)

Definition example_registry : Registry :=
  set_breaker "slack" (MkBreaker 5 0 breakerOpen (10 * Second)) (registry_Add "slack" (λ _, true) NewRegistry).

Lemma example_not_stranded n : ¬ stranded n example_registry.
Proof.
  intros [[_ E]|[_ (b & Hb & E)]]%stranded_set; [done|]. simpl in Hb.
  apply lookup_insert_Some in Hb as [[_ <-]|[_ Hb]]; [done|by rewrite lookup_empty in Hb].
Qed.

Lemma Dispatch_never_strands_witness :
  ¬ stranded "slack" (Dispatch (11 * Second) (12 * Second) (λ _, RateLimited) example_alert ["slack"] example_registry).2
  ∧ stranded "slack" (admit_all (11 * Second) example_alert ["slack"] example_registry).2.
Proof.
  split.
  - exact (Dispatch_never_strands (11 * Second) (12 * Second) (λ _, RateLimited) example_alert ["slack"]
             example_registry example_not_stranded "slack").
  - eexists. split; vm_compute; reflexivity.
Defined.

Lemma breaker_recovers_witness :
  let b := breaker_Record 0 false (breaker_Record 0 false (breaker_Record 0 false
             (breaker_Record 0 false (breaker_Record 0 false newBreaker)))) in
  (Allow 0 b).1.1 = false ∧ (Allow (30 * Second) b).1.1 = true.
Proof.
  intros b. split; [vm_compute; reflexivity|].
  assert (Hr : breaker_reach 0 b).
  { do 5 (apply (br_op 0 0 (BRecord false)); [|apply Z.le_refl]). apply br_new. }
  refine (proj1 (breaker_recovers 0 b (30 * Second) Hr _) _); by vm_compute.
Defined.
