(* ===== verification/Fanout.v ===== *)
(** * Fan-outs that run at the same time

    [Sinks.Dispatch] runs a fan-out alone. In the process every dispatch worker runs one, the
    attempts of a fan-out are goroutines of their own, and all of them share the breakers, while
    the console's test-fire sends on the side. This file is internal/sinks/sink.go as a machine:
    a command is one step of one goroutine - a critical section of a breaker, a sample - and
    any list of commands that executes is an interleaving. Ghost fields remember what became of
    each sink a fan-out looked at, the probes, and the breakers the gauge was set from. *)
From Stdlib Require Import Sorting.Sorted.
From S2P Require Import Prelude GoStd Metrics AlertModel Sinks.

(** ** The goroutine of an attempt *)

(** Its actions once the send has ended: a sample, [succeeded.Add(1)], and the breaker's methods
    with [setBreakerGauge] after them. *)
Inductive action :=
  | ASample (m : sample)
  | ASucceed
  | ARecord (success : bool)
  | ALatency (took : duration)
  | AGauge.
#[global] Instance outcome_eq_dec : EqDecision outcome.
Proof. solve_decision. Defined.
#[global] Instance action_eq_dec : EqDecision action.
Proof. solve_decision. Defined.

Definition inflight (name : string) (d : Z) : sample := Added DispatchInflight [name] d.
Definition result_label (ok : bool) : string := if ok then "ok" else "error".

Definition attempt_actions (name : string) (guarded probe : bool) (o : outcome) : list action :=
  match o with
  | RateLimited =>
    ASample (Incd AlertsSuppressed [SuppressRateLimited]) :: (if guarded && probe then [ARecord false; AGauge] else [])
  | Panicked => ASample (Incd SinkErrors [name]) :: (if guarded then [ARecord false; AGauge] else [])
  | Sent ok took =>
    (if ok then ASucceed else ASample (Incd SinkErrors [name]))
    :: (if guarded then [ARecord ok; ALatency took; AGauge] else [])
    ++ [ASample (Observed SinkSendDuration [name; result_label ok] took)]
  end ++ [ASample (inflight name (-1))].

(** [setBreakerGauge] reads the breaker in one critical section and sets the gauge after it. *)
Definition breaker_gauge (name : string) (open : bool) : sample := Gauged SinkBreakerOpen [name] (if open then 1 else 0).

Inductive phase := Launched | Sending | Settling (l : list action).

Record send_attempt := MkAttempt {
  at_fan : nat;
  at_name : string;
  at_guarded : bool;
  at_probe : bool;
  at_phase : phase;
}.

Definition set_phase (p : phase) (t : send_attempt) : send_attempt :=
  MkAttempt t.(at_fan) t.(at_name) t.(at_guarded) t.(at_probe) p.

(** ** The fan-outs and what they share *)

Record fanout := MkFanout {
  fn_a : Alert;
  fn_route : list string;
  fn_names : list string;
  fn_attempted : nat;
  fn_skipped : nat;
  fn_succeeded : nat;
  fn_result : option bool;
}.

(** What became of an eligible sink: short-circuited, or tried, as a probe or not, with an
    outcome. *)
Inductive sink_fate := Skipped | Tried (probe : bool) (o : outcome).
#[global] Instance fate_eq_dec : EqDecision sink_fate.
Proof. solve_decision. Defined.

Record fanouts := MkFanouts {
  fo_now : time;
  fo_reg : Registry;
  fo_fans : list fanout;
  fo_atts : list send_attempt;
  fo_log : list sample;
  fo_fates : list (nat * string * sink_fate);
  fo_probes : list (string * time);
  fo_tests : list (string * outcome);
  fo_reads : list (string * time * breaker);
}.

Definition set_fans (l : list fanout) (s : fanouts) : fanouts :=
  MkFanouts s.(fo_now) s.(fo_reg) l s.(fo_atts) s.(fo_log) s.(fo_fates) s.(fo_probes) s.(fo_tests) s.(fo_reads).
Definition set_atts (l : list send_attempt) (s : fanouts) : fanouts :=
  MkFanouts s.(fo_now) s.(fo_reg) s.(fo_fans) l s.(fo_log) s.(fo_fates) s.(fo_probes) s.(fo_tests) s.(fo_reads).
Definition set_reg (r : Registry) (s : fanouts) : fanouts :=
  MkFanouts s.(fo_now) r s.(fo_fans) s.(fo_atts) s.(fo_log) s.(fo_fates) s.(fo_probes) s.(fo_tests) s.(fo_reads).
Definition tell (m : list sample) (s : fanouts) : fanouts :=
  MkFanouts s.(fo_now) s.(fo_reg) s.(fo_fans) s.(fo_atts) (s.(fo_log) ++ m) s.(fo_fates) s.(fo_probes) s.(fo_tests) s.(fo_reads).
Definition decide_fate (i : nat) (name : string) (x : sink_fate) (s : fanouts) : fanouts :=
  MkFanouts s.(fo_now) s.(fo_reg) s.(fo_fans) s.(fo_atts) s.(fo_log) ((i, name, x) :: s.(fo_fates)) s.(fo_probes) s.(fo_tests) s.(fo_reads).
Definition note_probe (name : string) (s : fanouts) : fanouts :=
  MkFanouts s.(fo_now) s.(fo_reg) s.(fo_fans) s.(fo_atts) s.(fo_log) s.(fo_fates) ((name, s.(fo_now)) :: s.(fo_probes)) s.(fo_tests) s.(fo_reads).
Definition note_read (name : string) (b : breaker) (s : fanouts) : fanouts :=
  MkFanouts s.(fo_now) s.(fo_reg) s.(fo_fans) s.(fo_atts) s.(fo_log) s.(fo_fates) s.(fo_probes) s.(fo_tests)
    ((name, s.(fo_now), b) :: s.(fo_reads)).

Definition guarded_by (name : string) (r : Registry) : bool := bool_decide (is_Some (r.(rg_breakers) !! name)).
Definition on_breaker (name : string) (f : breaker → breaker) (r : Registry) : Registry :=
  match r.(rg_breakers) !! name with Some b => set_breaker name (f b) r | None => r end.

(** The loop's next name, and its counters. *)
Definition fan_next (attempted skipped : nat) (f : fanout) : fanout :=
  MkFanout f.(fn_a) f.(fn_route) (tail f.(fn_names)) (f.(fn_attempted) + attempted) (f.(fn_skipped) + skipped)
    f.(fn_succeeded) f.(fn_result).
Definition fan_succeed (f : fanout) : fanout :=
  MkFanout f.(fn_a) f.(fn_route) f.(fn_names) f.(fn_attempted) f.(fn_skipped) (S f.(fn_succeeded)) f.(fn_result).
Definition fan_return (f : fanout) : fanout :=
  MkFanout f.(fn_a) f.(fn_route) f.(fn_names) f.(fn_attempted) f.(fn_skipped) f.(fn_succeeded)
    (Some (if (0 <? f.(fn_attempted))%nat then (0 <? f.(fn_succeeded))%nat else (f.(fn_skipped) =? 0)%nat)).

(** ** The steps *)

Inductive command :=
  | Tick (t : time)
  | Call (a : Alert) (names : list string)
  | Admit (i : nat)
  | Start (k : nat)
  | Outcome (k : nat) (o : outcome)
  | Act (k : nat)
  | Exit (k : nat)
  | Return (i : nat)
  | Test (name : string) (o : outcome).

Definition circuit_open (name : string) : list sample :=
  [Incd AlertsSuppressed [SuppressCircuitOpen]; breaker_gauge name true].

(** One turn of the loop over the route, on the caller's goroutine. *)
Definition exec_admit (i : nat) (f : fanout) (s : fanouts) : option fanouts :=
  match f.(fn_names) with
  | [] => None
  | name :: _ =>
    let '(d, r) := admit_sink s.(fo_now) f.(fn_a) name s.(fo_reg) in
    Some match d with
    | None => set_fans (<[i := fan_next 0 0 f]> s.(fo_fans)) s
    | Some None =>
      decide_fate i name Skipped (tell (circuit_open name) (set_reg r (set_fans (<[i := fan_next 0 1 f]> s.(fo_fans)) s)))
    | Some (Some probe) =>
      let s := if probe then note_probe name s else s in
      set_atts (s.(fo_atts) ++ [MkAttempt i name (guarded_by name s.(fo_reg)) probe Launched])
        (set_reg r (set_fans (<[i := fan_next 1 0 f]> s.(fo_fans)) s))
    end
  end.

(** One action of the goroutine [t], with what remains of its actions. *)
Definition exec_action (t : send_attempt) (x : action) (rest : list action) (s : fanouts) : list action * fanouts :=
  match x with
  | ASample m => (rest, tell [m] s)
  | ASucceed => (rest, set_fans (alter fan_succeed t.(at_fan) s.(fo_fans)) s)
  | ARecord ok => (rest, set_reg (on_breaker t.(at_name) (breaker_Record s.(fo_now) ok) s.(fo_reg)) s)
  | ALatency took => (rest, set_reg (on_breaker t.(at_name) (RecordLatency s.(fo_now) took) s.(fo_reg)) s)
  | AGauge =>
    match s.(fo_reg).(rg_breakers) !! t.(at_name) with
    | Some b => (ASample (breaker_gauge t.(at_name) (breaker_Open s.(fo_now) b)) :: rest, note_read t.(at_name) b s)
    | None => (rest, s)
    end
  end.

(** The samples of a test-fire, which takes no token and leaves the breaker alone. *)
Definition test_samples (p : string * outcome) : list sample :=
  let '(name, o) := p in
  inflight name 1 ::
  match o with
  | Sent ok took =>
    (if (ok : bool) then [] else [Incd SinkErrors [name]])
    ++ [Observed SinkSendDuration [name; result_label ok] took; inflight name (-1)]
  | _ => [inflight name (-1); Incd SinkErrors [name]]
  end.

Definition exec (c : command) (s : fanouts) : option fanouts :=
  match c with
  | Tick t =>
    if s.(fo_now) <=? t
    then Some (MkFanouts t s.(fo_reg) s.(fo_fans) s.(fo_atts) s.(fo_log) s.(fo_fates) s.(fo_probes) s.(fo_tests) s.(fo_reads))
    else None
  | Call a names => Some (set_fans (s.(fo_fans) ++ [MkFanout a names names 0 0 0 None]) s)
  | Admit i => f ← s.(fo_fans) !! i; exec_admit i f s
  | Start k =>
    t ← s.(fo_atts) !! k;
    match t.(at_phase) with
    | Launched => Some (tell [inflight t.(at_name) 1] (set_atts (<[k := set_phase Sending t]> s.(fo_atts)) s))
    | _ => None
    end
  | Outcome k o =>
    t ← s.(fo_atts) !! k;
    match t.(at_phase) with
    | Sending =>
      let acts := attempt_actions t.(at_name) t.(at_guarded) t.(at_probe) o in
      Some (decide_fate t.(at_fan) t.(at_name) (Tried t.(at_probe) o) (set_atts (<[k := set_phase (Settling acts) t]> s.(fo_atts)) s))
    | _ => None
    end
  | Act k =>
    t ← s.(fo_atts) !! k;
    match t.(at_phase) with
    | Settling (x :: rest) =>
      let '(l, s) := exec_action t x rest s in Some (set_atts (<[k := set_phase (Settling l) t]> s.(fo_atts)) s)
    | _ => None
    end
  | Exit k =>
    t ← s.(fo_atts) !! k;
    match t.(at_phase) with Settling [] => Some (set_atts (delete k s.(fo_atts)) s) | _ => None end
  | Return i =>
    f ← s.(fo_fans) !! i;
    match f.(fn_names), f.(fn_result) with
    | [], None =>
      if forallb (λ t, negb (t.(at_fan) =? i)%nat) s.(fo_atts)
      then Some (set_fans (<[i := fan_return f]> s.(fo_fans)) s) else None
    | _, _ => None
    end
  | Test name o =>
    if bool_decide (is_Some (s.(fo_reg).(rg_sinks) !! name) ∧ o ≠ RateLimited)
    then Some (MkFanouts s.(fo_now) s.(fo_reg) s.(fo_fans) s.(fo_atts) (s.(fo_log) ++ test_samples (name, o))
                 s.(fo_fates) s.(fo_probes) ((name, o) :: s.(fo_tests)) s.(fo_reads))
    else None
  end.

Fixpoint exec_all (l : list command) (s : fanouts) : option fanouts :=
  match l with [] => Some s | c :: l => s ← exec c s; exec_all l s end.

Definition started (now : time) (r : Registry) : fanouts := MkFanouts now r [] [] [] [] [] [] [].

(** The states of a process whose registry was [r] when the first alert came. *)
Inductive freach (now : time) (r : Registry) : fanouts → Prop :=
  | freach_start : freach now r (started now r)
  | freach_exec c s s' : freach now r s → exec c s = Some s' → freach now r s'.

(** ** Totals over lists *)

Section totals.
Context {A : Type} (w : A → nat).

Definition total (l : list A) : nat := sum_list_with w l.

Lemma total_app l l' : total (l ++ l') = (total l + total l')%nat.
Proof. apply sum_list_with_app. Qed.
Lemma total_nil : total [] = 0%nat.
Proof. done. Qed.
Lemma total_cons x l : total (x :: l) = (w x + total l)%nat.
Proof. done. Qed.
Lemma total_delete l k x : l !! k = Some x → (total (delete k l) + w x = total l)%nat.
Proof. intros H. unfold total. rewrite (delete_Permutation l k x H) at 2. simpl. lia. Qed.
Lemma total_insert l k x y : l !! k = Some x → (total (<[k := y]> l) + w x = total l + w y)%nat.
Proof.
  intros H. pose proof (total_delete l k x H) as Hd. rewrite delete_take_drop, total_app in Hd.
  rewrite insert_take_drop by (by eapply lookup_lt_Some). rewrite total_app, total_cons. lia.
Qed.
Lemma total_zero l : total l = 0%nat ↔ ∀ x, x ∈ l → w x = 0%nat.
Proof.
  unfold total. induction l as [|x l IH]; simpl; [split; [intros _ x Hx; by apply elem_of_nil in Hx|done]|].
  rewrite Nat.eq_add_0, IH. split; [|by intros H; split; [apply H; left|intros; apply H; by right]].
  intros [? H] y [->|]%elem_of_cons; auto.
Qed.
End totals.

Lemma total_null {A} (w w' : A → nat) l : (∀ x, w x = 0%nat → w' x = 0%nat) → total w l = 0%nat → total w' l = 0%nat.
Proof. rewrite !total_zero. auto. Qed.

Definition occ (m : sample) (l : list sample) : nat := total (λ x, Nat.b2n (bool_decide (x = m))) l.
#[global] Arguments occ : simpl never.

(** ** The fan-outs' accounts *)

Definition undecided (t : send_attempt) : bool := match t.(at_phase) with Settling _ => false | _ => true end.
Definition is_succeed (x : action) : nat := match x with ASucceed => 1 | _ => 0 end.
Definition settling (t : send_attempt) : list action := match t.(at_phase) with Settling l => l | _ => [] end.

(** The weights of attempts and of fates in the accounts of fan-out [i]. *)
Definition at_mine (i : nat) (t : send_attempt) : nat := Nat.b2n (t.(at_fan) =? i)%nat.
Definition at_open (i : nat) (t : send_attempt) : nat := Nat.b2n ((t.(at_fan) =? i)%nat && undecided t).
Definition at_open_on (i : nat) (n : string) (t : send_attempt) : nat :=
  Nat.b2n ((t.(at_fan) =? i)%nat && undecided t && streq t.(at_name) n).
Definition at_owes (i : nat) (t : send_attempt) : nat := if (t.(at_fan) =? i)%nat then total is_succeed (settling t) else 0.

Definition is_skipped (x : sink_fate) : bool := match x with Skipped => true | Tried _ _ => false end.
Definition fate_mine (i : nat) (e : nat * string * sink_fate) : nat := Nat.b2n (e.1.1 =? i)%nat.
Definition fate_on (i : nat) (n : string) (e : nat * string * sink_fate) : nat := Nat.b2n ((e.1.1 =? i)%nat && streq e.1.2 n).
Definition fate_skipped (i : nat) (e : nat * string * sink_fate) : nat :=
  Nat.b2n ((e.1.1 =? i)%nat && is_skipped e.2).
Definition fate_tried (i : nat) (e : nat * string * sink_fate) : nat :=
  Nat.b2n ((e.1.1 =? i)%nat && negb (is_skipped e.2)).
Definition fate_ok (i : nat) (e : nat * string * sink_fate) : nat :=
  Nat.b2n ((e.1.1 =? i)%nat && match e.2 with Tried _ o => outcome_ok o | Skipped => false end).
Definition wanted (r : Registry) (a : Alert) (n name : string) : nat := Nat.b2n (eligible a r name && streq name n).

Record fan_inv (r : Registry) (s : fanouts) (i : nat) (f : fanout) : Prop := {
  fv_names n : (total (fate_on i n) s.(fo_fates) + total (at_open_on i n) s.(fo_atts)
                + total (wanted r f.(fn_a) n) f.(fn_names) = total (wanted r f.(fn_a) n) f.(fn_route))%nat;
  fv_attempted : f.(fn_attempted) = (total (fate_tried i) s.(fo_fates) + total (at_open i) s.(fo_atts))%nat;
  fv_skipped : f.(fn_skipped) = total (fate_skipped i) s.(fo_fates);
  fv_succeeded : (f.(fn_succeeded) + total (at_owes i) s.(fo_atts))%nat = total (fate_ok i) s.(fo_fates);
  fv_resolved : f.(fn_a).(a_Resolved) = true → total (fate_skipped i) s.(fo_fates) = 0%nat;
  fv_result b : f.(fn_result) = Some b →
    f.(fn_names) = [] ∧ total (at_mine i) s.(fo_atts) = 0%nat ∧ fn_result (fan_return f) = Some b;
}.

Record fanouts_inv (r : Registry) (s : fanouts) : Prop := {
  fi_sinks : s.(fo_reg).(rg_sinks) = r.(rg_sinks);
  fi_new i : (length s.(fo_fans) <= i)%nat → total (at_mine i) s.(fo_atts) = 0%nat ∧ total (fate_mine i) s.(fo_fates) = 0%nat;
  fi_fans i f : s.(fo_fans) !! i = Some f → fan_inv r s i f;
}.

Create HintDb accounts.
#[local] Hint Unfold at_mine at_open at_open_on at_owes undecided settling fate_mine fate_on fate_skipped fate_tried
  fate_ok : accounts.

(** Replaces a total over a changed list by its equation with the old one. *)
Ltac weigh :=
  repeat match goal with
    | H : ?l !! ?k = Some _ |- context [total ?w (<[?k := ?y]> ?l)] =>
      let E := fresh "Ew" in
      pose proof (total_insert w l k _ y H) as E; revert E; generalize (total w (<[k := y]> l)); intros ? E
    | H : ?l !! ?k = Some _ |- context [total ?w (delete ?k ?l)] =>
      let E := fresh "Ew" in
      pose proof (total_delete w l k _ H) as E; revert E; generalize (total w (delete k l)); intros ? E
    | |- context [total ?w (?l ++ _)] => rewrite (total_app w l)
    | |- context [total ?w (?x :: ?l)] => rewrite (total_cons w x l)
    end.
Ltac settle_accounts :=
  repeat autounfold with accounts in *;
  cbn [at_fan at_name at_phase at_guarded at_probe set_phase fst snd] in *;
  repeat match goal with H : at_phase ?t = _, H' : context [at_phase ?t] |- _ =>
    lazymatch H with H' => fail | _ => rewrite H in H' end end;
  repeat match goal with
    | |- context [(?i =? ?j)%nat] => destruct (Nat.eqb_spec i j)
    | H : context [(?i =? ?j)%nat] |- _ => destruct (Nat.eqb_spec i j)
    end;
  rewrite ?total_cons, ?total_nil in *; cbn [andb negb Nat.b2n is_succeed is_skipped] in *.
(** A goal about totals after a step. *)
Ltac account := weigh; settle_accounts; try lia.

Lemma started_inv now r : fanouts_inv r (started now r).
Proof. constructor; simpl; [done|done|intros i f H; by rewrite lookup_nil in H]. Qed.

Lemma call_inv r a names s s' : fanouts_inv r s → exec (Call a names) s = Some s' → fanouts_inv r s'.
Proof.
  intros [Hs Hnew Hi] [= <-]. constructor; simpl; [done| |].
  - intros i Hl. apply Hnew. rewrite length_app in Hl. lia.
  - intros i f [Hl|[Hl Hf]]%lookup_app_Some; [destruct (Hi i f Hl); by constructor|].
    apply list_lookup_singleton_Some in Hf as [Hi0 <-].
    destruct (Hnew i) as [H1 H2]; [lia|].
    assert (Ha : ∀ w, (∀ t, at_mine i t = 0%nat → w t = 0%nat) → total w s.(fo_atts) = 0%nat)
      by (intros w Hw; by eapply total_null).
    assert (He : ∀ w, (∀ e, fate_mine i e = 0%nat → w e = 0%nat) → total w s.(fo_fates) = 0%nat)
      by (intros w Hw; by eapply total_null).
    constructor; simpl; [intros n| | | | |done]; rewrite ?Ha, ?He; try done; intros x; settle_accounts; done.
Qed.

(** Carries the accounts of a fan-out that a step leaves alone over that step. *)
Ltac keep_books H :=
  destruct H as [Hn Hat Hsk Hsu Hre Hr]; constructor; simpl;
  [intros n; specialize (Hn n); account | account | account | account
  | intros Hres; specialize (Hre Hres); account
  | intros b Hb; destruct (Hr b Hb) as (Hleft & Hmine & Hv); split_and!; [exact Hleft | account | exact Hv]].

Lemma begin_inv r k s s' : fanouts_inv r s → exec (Start k) s = Some s' → fanouts_inv r s'.
Proof.
  intros [Hs Hnew Hi] H. simpl in H. destruct (fo_atts s !! k) as [t|] eqn:Hk; [|done]. simpl in H.
  destruct (at_phase t) eqn:Hp; [|done|done]. simplify_eq. constructor; simpl; [done| |].
  - intros i [H1 H2]%Hnew. split; [|done]. account.
  - intros i f Hl. keep_books (Hi i f Hl).
Qed.

#[local] Arguments attempt_actions : simpl never.
Lemma attempt_succeeds name guarded probe o :
  total is_succeed (attempt_actions name guarded probe o) = Nat.b2n (outcome_ok o).
Proof. by destruct o as [| |[] took], guarded, probe. Qed.

Lemma outcome_inv r k o s s' : fanouts_inv r s → exec (Outcome k o) s = Some s' → fanouts_inv r s'.
Proof.
  intros [Hs Hnew Hi] H. simpl in H. destruct (fo_atts s !! k) as [t|] eqn:Hk; [|done]. simpl in H.
  destruct (at_phase t) eqn:Hp; [done| |done]. simplify_eq. constructor; simpl; [done| |].
  - intros i [H1 H2]%Hnew. pose proof (total_delete (at_mine i) _ _ _ Hk). split; account.
  - intros i f Hl. pose proof (attempt_succeeds (at_name t) (at_guarded t) (at_probe t) o). keep_books (Hi i f Hl).
Qed.

Lemma on_breaker_sinks name g r : (on_breaker name g r).(rg_sinks) = r.(rg_sinks).
Proof. unfold on_breaker. by destruct (rg_breakers r !! name). Qed.

Lemma succeed_inv r k t rest s :
  fanouts_inv r s → s.(fo_atts) !! k = Some t → t.(at_phase) = Settling (ASucceed :: rest) →
  fanouts_inv r (set_atts (<[k := set_phase (Settling rest) t]> s.(fo_atts))
                   (set_fans (alter fan_succeed t.(at_fan) s.(fo_fans)) s)).
Proof.
  intros [Hs Hnew Hi] Hk Hp. constructor; simpl; [done| |].
  { intros i. rewrite length_alter. intros [H1 H2]%Hnew. split; [account|done]. }
  intros i f Hl. destruct (decide (t.(at_fan) = i)) as [Hti|Hti].
  - rewrite Hti, list_lookup_alter_eq in Hl. destruct (s.(fo_fans) !! i) as [f0|] eqn:Hf0; [|done]. simplify_eq/=.
    destruct (Hi _ f0 Hf0) as [Hn Hat Hsk Hsu Hre Hr]. constructor; simpl; [intros n; specialize (Hn n)| | | |done|].
    1-4: account.
    intros b Hb. apply Hr in Hb as (_ & Hmine & _).
    pose proof (total_delete (at_mine (at_fan t)) _ _ _ Hk). exfalso. account.
  - rewrite list_lookup_alter_ne in Hl by done. keep_books (Hi i f Hl).
Qed.

(** Samples are not part of the accounts; neither are breakers, as long as the sinks stay. *)
Lemma tell_inv r m s : fanouts_inv r s → fanouts_inv r (tell m s).
Proof. intros [Hs Hnew Hi]. constructor; [done|done|]. intros i f Hf. by destruct (Hi i f Hf). Qed.
Lemma read_inv r n b s : fanouts_inv r s → fanouts_inv r (note_read n b s).
Proof. intros [Hs Hnew Hi]. constructor; [done|done|]. intros i f Hf. by destruct (Hi i f Hf). Qed.
Lemma reg_inv r r' s : r'.(rg_sinks) = s.(fo_reg).(rg_sinks) → fanouts_inv r s → fanouts_inv r (set_reg r' s).
Proof.
  intros Hr' [Hs Hnew Hi]. constructor; [by rewrite <- Hs|done|]. intros i f Hf. by destruct (Hi i f Hf).
Qed.

Lemma rest_inv r k t x rest l s :
  fanouts_inv r s → s.(fo_atts) !! k = Some t → t.(at_phase) = Settling (x :: rest) →
  total is_succeed l = total is_succeed (x :: rest) →
  fanouts_inv r (set_atts (<[k := set_phase (Settling l) t]> s.(fo_atts)) s).
Proof.
  intros [Hs Hnew Hi] Hk Hp Hl. constructor; simpl; [done| |].
  - intros i [H1 H2]%Hnew. split; [account|done].
  - intros i f Hf. keep_books (Hi i f Hf).
Qed.

Lemma act_inv r k s s' : fanouts_inv r s → exec (Act k) s = Some s' → fanouts_inv r s'.
Proof.
  intros Hinv H. simpl in H. destruct (fo_atts s !! k) as [t|] eqn:Hk; [|done]. simpl in H.
  destruct (at_phase t) as [| |[|x rest]] eqn:Hp; [done|done|done|]. destruct x as [m| |ok|took|]; simpl in H.
  - simplify_eq. by apply (tell_inv r [m] (set_atts _ s)), (rest_inv r k t (ASample m) rest).
  - simplify_eq. by apply (succeed_inv r k t rest).
  - simplify_eq. apply (reg_inv r _ (set_atts _ s)); [by apply on_breaker_sinks|]. by apply (rest_inv r k t (ARecord ok) rest).
  - simplify_eq. apply (reg_inv r _ (set_atts _ s)); [by apply on_breaker_sinks|]. by apply (rest_inv r k t (ALatency took) rest).
  - destruct (rg_breakers (fo_reg s) !! at_name t) as [b|]; simplify_eq; [|by eapply rest_inv].
    apply (read_inv r (at_name t) b (set_atts (<[k := set_phase (Settling (ASample _ :: rest)) t]> s.(fo_atts)) s)).
    by eapply rest_inv.
Qed.

Lemma exit_inv r k s s' : fanouts_inv r s → exec (Exit k) s = Some s' → fanouts_inv r s'.
Proof.
  intros [Hs Hnew Hi] H. simpl in H. destruct (fo_atts s !! k) as [t|] eqn:Hk; [|done]. simpl in H.
  destruct (at_phase t) as [| |[|]] eqn:Hp; [done|done| |done]. simplify_eq. constructor; simpl; [done| |].
  - intros i [H1 H2]%Hnew. split; [account|done].
  - intros i f Hl. keep_books (Hi i f Hl).
Qed.

Lemma return_inv r i s s' : fanouts_inv r s → exec (Return i) s = Some s' → fanouts_inv r s'.
Proof.
  intros [Hs Hnew Hi] H. simpl in H. destruct (fo_fans s !! i) as [f|] eqn:Hf; [|done]. simpl in H.
  destruct (fn_names f) eqn:Hnm; [|done]. destruct (fn_result f) eqn:Hres; [done|].
  destruct (forallb _ (fo_atts s)) eqn:Hall; [|done]. simplify_eq. constructor; simpl; [done| |].
  { intros j. rewrite length_insert. apply Hnew. }
  intros j f' Hl. destruct (decide (i = j)) as [<-|Hne].
  - rewrite list_lookup_insert_eq in Hl by (by eapply lookup_lt_Some). simplify_eq.
    destruct (Hi i f Hf) as [Hn Hat Hsk Hsu Hre Hr]. constructor; simpl; try done.
    intros b Hb. split_and!; [done| |done]. apply total_zero. intros t Ht.
    rewrite List.forallb_forall in Hall. apply list_elem_of_In, Hall, negb_true_iff in Ht. unfold at_mine. by rewrite Ht.
  - rewrite list_lookup_insert_ne in Hl by done. destruct (Hi j f' Hl). by constructor.
Qed.

Lemma wanted_is r a n name b : eligible a r name = b → wanted r a n name = Nat.b2n (b && streq name n).
Proof. by intros <-. Qed.

(** A turn of the loop keeps the books of its own fan-out and, with their indices apart, of the others. *)
Lemma admit_inv r i s s' : fanouts_inv r s → exec (Admit i) s = Some s' → fanouts_inv r s'.
Proof.
  intros Hinv H. simpl in H. destruct (fo_fans s !! i) as [f|] eqn:Hf; [|done]. simpl in H.
  unfold exec_admit in H. destruct (fn_names f) as [|name names] eqn:Hnm; [done|].
  pose proof (admit_sinks s.(fo_now) f.(fn_a) name s.(fo_reg)) as Hsinks.
  pose proof (admit_None s.(fo_now) f.(fn_a) name s.(fo_reg)) as Hnone.
  assert (Hrd : (admit_sink s.(fo_now) f.(fn_a) name s.(fo_reg)).1 = Some None → f.(fn_a).(a_Resolved) = false).
  { unfold admit_sink. destruct (negb _); [done|]. destruct (rg_breakers _ !! name); [|done]. by destruct (a_Resolved (fn_a f)). }
  destruct (admit_sink _ _ _ _) as [d r']. cbn [fst snd] in *. destruct Hinv as [Hs Hnew Hi].
  assert (Hel : eligible f.(fn_a) r name = match d with None => false | _ => true end).
  { assert (He : eligible (fn_a f) (fo_reg s) name = eligible (fn_a f) r name) by (unfold eligible; by rewrite Hs).
    rewrite He in Hnone. destruct d, (eligible (fn_a f) r name); naive_solver. }
  pose proof (lookup_lt_Some _ _ _ Hf) as Hlt.
  destruct d as [[probe|]|]; [destruct probe| |]; simplify_eq; (constructor; simpl; [by try rewrite Hsinks| |];
    [intros j; rewrite length_insert; intros Hj; destruct (Hnew j Hj) as [H1 H2]; split; account|]);
    intros j f' Hl.
  all: destruct (decide (i = j)) as [<-|Hne];
    [rewrite list_lookup_insert_eq in Hl by done; simplify_eq|rewrite list_lookup_insert_ne in Hl by done; keep_books (Hi j f' Hl)].
  all: pose proof (Hi i f Hf) as Hfi.
  all: destruct Hfi as [Hn Hat Hskp Hsu Hre Hr]; constructor; simpl;
    [intros n; specialize (Hn n); rewrite Hnm, total_cons, (wanted_is _ _ _ _ _ Hel) in Hn| | | |intros Hres; specialize (Hre Hres); try (specialize (Hrd eq_refl); congruence)|intros b Hb; destruct (Hr b Hb) as (Hleft & _); congruence].
  all: rewrite ?Hnm; simpl; account.
Qed.

Lemma freach_fanouts now r s : freach now r s → fanouts_inv r s.
Proof.
  induction 1 as [|c s s' _ IH H]; [apply started_inv|]. destruct c.
  - simpl in H. destruct (_ <=? _); simplify_eq. destruct IH as [Hs Hnew Hi]. constructor; [done|done|].
    intros i f Hf. by destruct (Hi i f Hf).
  - by eapply call_inv.
  - by eapply admit_inv.
  - by eapply begin_inv.
  - by eapply outcome_inv.
  - by eapply act_inv.
  - by eapply exit_inv.
  - by eapply return_inv.
  - simpl in H. destruct (bool_decide _); simplify_eq. destruct IH as [Hs Hnew Hi]. constructor; [done|done|].
    intros j f Hf. by destruct (Hi j f Hf).
Qed.

(** ** The samples *)

(** What the fate of a sink leaves in the counters, the inflight gauge and the histogram, and
    in the breaker's gauge when the sink was refused. *)
Definition fate_samples (e : nat * string * sink_fate) : list sample :=
  let '(_, name, x) := e in
  match x with
  | Skipped => [Incd AlertsSuppressed [SuppressCircuitOpen]; Gauged SinkBreakerOpen [name] 1]
  | Tried _ RateLimited => [inflight name 1; Incd AlertsSuppressed [SuppressRateLimited]; inflight name (-1)]
  | Tried _ Panicked => [inflight name 1; Incd SinkErrors [name]; inflight name (-1)]
  | Tried _ (Sent ok took) =>
    inflight name 1 :: (if ok then [] else [Incd SinkErrors [name]])
    ++ [Observed SinkSendDuration [name; result_label ok] took; inflight name (-1)]
  end.
(** The gauge as set from a breaker at a time: 1 when it refuses then. *)
Definition read_sample (x : string * time * breaker) : sample :=
  Gauged SinkBreakerOpen [x.1.1] (if breaker_Open x.1.2 x.2 then 1 else 0).

Definition sampled (x : action) : list sample := match x with ASample m => [m] | _ => [] end.
Definition at_samples (m : sample) (t : send_attempt) : nat := occ m (settling t ≫= sampled).
Definition at_begun (m : sample) (t : send_attempt) : nat :=
  match t.(at_phase) with Sending => occ m [inflight t.(at_name) 1] | _ => 0 end.

(** What was sampled so far: all that the fates say, less what attempts under way still owe. *)
Definition samples_inv (s : fanouts) : Prop :=
  ∀ m,
    (occ m s.(fo_log) + total (at_samples m) s.(fo_atts))%nat
    = (total (λ e, occ m (fate_samples e)) s.(fo_fates) + total (at_begun m) s.(fo_atts)
       + total (λ p, occ m (test_samples p)) s.(fo_tests) + total (λ x, occ m [read_sample x]) s.(fo_reads))%nat.

#[local] Arguments fate_samples : simpl never.
#[local] Arguments test_samples : simpl never.
Lemma occ_nil m : occ m [] = 0%nat.
Proof. done. Qed.
Lemma occ_app m l l' : occ m (l ++ l') = (occ m l + occ m l')%nat.
Proof. apply total_app. Qed.

Lemma occ_cons m x l : occ m (x :: l) = (occ m [x] + occ m l)%nat.
Proof. apply (occ_app m [x]). Qed.

Lemma attempt_samples m name guarded probe o i :
  (occ m (attempt_actions name guarded probe o ≫= sampled) + occ m [inflight name 1])%nat
  = occ m (fate_samples (i, name, Tried probe o)).
Proof.
  unfold attempt_actions, fate_samples. destruct o as [| |[] took], guarded, probe; simpl; unfold occ; rewrite ?total_cons, ?total_nil; lia.
Qed.

Create HintDb samples.
#[local] Hint Unfold at_samples at_begun settling : samples.
Ltac count_samples :=
  repeat autounfold with samples in *; cbn [at_name at_phase set_phase sampled mbind list_bind] in *;
  repeat match goal with H : at_phase ?t = _, H' : context [at_phase ?t] |- _ =>
    lazymatch H with H' => fail | _ => rewrite H in H' end end;
  cbn [sampled mbind list_bind app] in *; rewrite ?occ_app, ?occ_nil in *.

Lemma exec_samples c s s' : samples_inv s → exec c s = Some s' → samples_inv s'.
Proof.
  intros Hinv H m. specialize (Hinv m). destruct c; simpl in H.
  - destruct (_ <=? _); by simplify_eq.
  - by simplify_eq.
  - destruct (fo_fans s !! i) as [f|]; [|done]. simpl in H. unfold exec_admit in H.
    destruct (fn_names f) as [|name names]; [done|]. destruct (admit_sink _ _ _ _) as [[[probe|]|] r']; simplify_eq/=; [| |done].
    + destruct probe; simpl; rewrite !total_app, !total_cons, !total_nil; unfold at_samples at 2, at_begun at 2; simpl; lia.
    + rewrite occ_app. change (fate_samples (i, name, Skipped)) with (circuit_open name). lia.
  - destruct (fo_atts s !! k) as [t|] eqn:Hk; [|done]. simpl in H. destruct (at_phase t) eqn:Hp; simplify_eq/=.
    weigh. count_samples. lia.
  - destruct (fo_atts s !! k) as [t|] eqn:Hk; [|done]. simpl in H. destruct (at_phase t) eqn:Hp; simplify_eq/=.
    pose proof (attempt_samples m (at_name t) (at_guarded t) (at_probe t) o (at_fan t)). weigh. count_samples. lia.
  - destruct (fo_atts s !! k) as [t|] eqn:Hk; [|done]. simpl in H.
    destruct (at_phase t) as [| |[|x rest]] eqn:Hp; [done|done|done|]. destruct x; simplify_eq/=.
    + weigh. count_samples. rewrite (occ_cons m _ (mbind _ _)) in Ew. lia.
    + weigh. count_samples. lia.
    + weigh. count_samples. lia.
    + weigh. count_samples. lia.
    + destruct (rg_breakers _ !! _) as [b|]; simplify_eq/=; weigh; count_samples; [|lia].
      change (read_sample (at_name t, fo_now s, b)) with (breaker_gauge (at_name t) (breaker_Open (fo_now s) b)).
      rewrite (occ_cons m _ (mbind _ _)) in Ew. lia.
  - destruct (fo_atts s !! k) as [t|] eqn:Hk; [|done]. simpl in H. destruct (at_phase t) as [| |[|]] eqn:Hp; simplify_eq/=.
    weigh. count_samples. lia.
  - destruct (fo_fans s !! i) as [f|]; [|done]. simpl in H. destruct (fn_names f); [|done]. destruct (fn_result f); [done|].
    destruct (forallb _ _); by simplify_eq.
  - destruct (bool_decide _); simplify_eq. cbn [fo_log fo_atts fo_fates fo_tests fo_reads].
    rewrite occ_app, total_cons. lia.
Qed.

Lemma freach_samples now r s : freach now r s → samples_inv s.
Proof. induction 1; [by intros m|by eapply exec_samples]. Qed.

(** ** The breaker's gauge *)

(** An attempt that records its outcome in a breaker and mirrors it onto the gauge. *)
Definition records (r : Registry) (e : nat * string * sink_fate) : bool :=
  match e.2 with
  | Skipped => false
  | Tried probe o => guarded_by e.1.2 r && match o with RateLimited => probe | _ => true end
  end.
Definition records_on (r : Registry) (n : string) (e : nat * string * sink_fate) : nat := Nat.b2n (records r e && streq e.1.2 n).
Definition read_on (n : string) (x : string * time * breaker) : nat := Nat.b2n (streq x.1.1 n).
Definition is_AGauge (x : action) : nat := match x with AGauge => 1 | _ => 0 end.
Definition at_gauges (n : string) (t : send_attempt) : nat := if streq t.(at_name) n then total is_AGauge (settling t) else 0.

(** Every attempt that records is, or will be, read once for the gauge. *)
Record gauges_inv (r : Registry) (s : fanouts) : Prop := {
  gi_dom n : guarded_by n s.(fo_reg) = guarded_by n r;
  gi_atts t : t ∈ s.(fo_atts) → t.(at_guarded) = guarded_by t.(at_name) r ∧ (AGauge ∈ settling t → t.(at_guarded) = true);
  gi_count n : (total (read_on n) s.(fo_reads) + total (at_gauges n) s.(fo_atts))%nat = total (records_on r n) s.(fo_fates);
}.

Lemma on_breaker_guarded name g r n : guarded_by n (on_breaker name g r) = guarded_by n r.
Proof.
  unfold guarded_by, on_breaker. destruct (rg_breakers r !! name) as [b|] eqn:E; [|done]. apply bool_decide_ext. simpl.
  rewrite lookup_insert_is_Some. destruct (decide (name = n)) as [->|]; [rewrite E|]; naive_solver.
Qed.
Lemma admit_guarded now a name r n : guarded_by n (admit_sink now a name r).2 = guarded_by n r.
Proof.
  unfold admit_sink. destruct (negb _); [done|]. destruct (rg_breakers r !! name) as [b|] eqn:E; [|done].
  destruct (a_Resolved a); [done|]. destruct (Allow now b) as [[[] probe] b']; simpl; unfold guarded_by; apply bool_decide_ext; simpl;
    rewrite lookup_insert_is_Some; destruct (decide (name = n)) as [->|]; rewrite ?E; naive_solver.
Qed.

Lemma attempt_gauges name guarded probe o :
  total is_AGauge (attempt_actions name guarded probe o) = Nat.b2n (guarded && match o with RateLimited => probe | _ => true end)
  ∧ (AGauge ∈ attempt_actions name guarded probe o → guarded = true).
Proof.
  split; [by destruct o as [| |[] took], guarded, probe|]. destruct guarded; [done|]. intros Hin.
  destruct o as [| |[] took]; unfold attempt_actions in Hin; simpl in Hin; rewrite ?elem_of_cons, ?elem_of_nil in Hin; naive_solver.
Qed.

(** The goroutine goes on with [l]. *)
Lemma phase_gauges r s k t p reads :
  gauges_inv r s → s.(fo_atts) !! k = Some t →
  (AGauge ∈ settling (set_phase p t) → t.(at_guarded) = true) →
  (∀ n, (total (read_on n) reads + at_gauges n (set_phase p t))%nat = (total (read_on n) s.(fo_reads) + at_gauges n t)%nat) →
  ∀ s', s'.(fo_reg) = s.(fo_reg) ∨ (∃ name g, s'.(fo_reg) = on_breaker name g s.(fo_reg)) →
  s'.(fo_atts) = <[k := set_phase p t]> s.(fo_atts) → s'.(fo_reads) = reads → s'.(fo_fates) = s.(fo_fates) →
  gauges_inv r s'.
Proof.
  intros [Hd Ha Hc] Hk Hp Hn s' Hreg Hatts Hreads Hfates. constructor.
  - intros n. destruct Hreg as [->|(name & g & ->)]; rewrite ?on_breaker_guarded; apply Hd.
  - rewrite Hatts. intros u Hin. apply list_elem_of_lookup in Hin as [j Hj].
    apply list_lookup_insert_Some in Hj as [(-> & <- & _)|[_ Hj]]; [|apply Ha; by eapply list_elem_of_lookup_2].
    split; [|done]. apply (Ha t). by eapply list_elem_of_lookup_2.
  - intros n. rewrite Hatts, Hreads, Hfates, <- Hc. specialize (Hn n).
    pose proof (total_insert (at_gauges n) _ _ _ (set_phase p t) Hk). lia.
Qed.

Lemma act_gauges r k s s' : gauges_inv r s → exec (Act k) s = Some s' → gauges_inv r s'.
Proof.
  intros Hinv H. simpl in H. destruct (fo_atts s !! k) as [t|] eqn:Hk; [|done]. simpl in H.
  destruct (at_phase t) as [| |[|x rest]] eqn:Hp; [done|done|done|].
  assert (Ht : settling t = x :: rest) by (unfold settling; by rewrite Hp).
  destruct (gi_atts r s Hinv t) as [Hg Hgauge]; [by eapply list_elem_of_lookup_2|]. rewrite Ht in Hgauge.
  assert (Hrest : AGauge ∈ rest → at_guarded t = true) by (intros ?; apply Hgauge; by right).
  assert (Hw : ∀ n, at_gauges n t = if streq (at_name t) n then (is_AGauge x + total is_AGauge rest)%nat else 0%nat)
    by (intros n; unfold at_gauges; rewrite Ht; by destruct (streq _ n)).
  destruct x as [m| |ok|took|]; simpl in H.
  1-4: simplify_eq; eapply (phase_gauges r s k t (Settling rest) s.(fo_reads)); try done; eauto;
    intros n; rewrite Hw; unfold at_gauges; simpl; by destruct (streq _ n).
  destruct (rg_breakers (fo_reg s) !! at_name t) as [b|] eqn:Hb; simplify_eq.
  - eapply (phase_gauges r s k t _ ((at_name t, fo_now s, b) :: fo_reads s) Hinv Hk); [| |by left|done|done|done].
    + simpl. intros [?|Hin]%elem_of_cons; [done|by apply Hrest].
    + intros n. rewrite Hw, total_cons. unfold at_gauges, read_on. simpl.
      destruct (streq (at_name t) n); simpl; rewrite ?total_cons; simpl; lia.
  - exfalso. specialize (Hgauge ltac:(left)). rewrite Hg, <- (gi_dom r s Hinv) in Hgauge. unfold guarded_by in Hgauge.
    apply bool_decide_eq_true in Hgauge as [b' Hb']. congruence.
Qed.

Lemma exec_gauges r c s s' : gauges_inv r s → exec c s = Some s' → gauges_inv r s'.
Proof.
  intros Hinv H. destruct c; simpl in H.
  - destruct (_ <=? _); simplify_eq. by destruct Hinv.
  - simplify_eq. by destruct Hinv.
  - destruct (fo_fans s !! i) as [f|]; [|done]. simpl in H. unfold exec_admit in H.
    destruct (fn_names f) as [|name names]; [done|].
    pose proof (admit_guarded s.(fo_now) f.(fn_a) name s.(fo_reg)) as Hg. destruct Hinv as [Hd Ha Hc].
    destruct (admit_sink _ _ _ _) as [[[probe|]|] r']; cbn [snd] in Hg; simplify_eq; [|by constructor; simpl; [intros n; rewrite Hg|..]|by constructor].
    assert (Hnew : ∀ t, t ∈ s.(fo_atts) ++ [MkAttempt i name (guarded_by name s.(fo_reg)) probe Launched] →
      t.(at_guarded) = guarded_by t.(at_name) r ∧ (AGauge ∈ settling t → t.(at_guarded) = true)).
    { intros t [Hin| ->%list_elem_of_singleton]%elem_of_app; [by apply Ha|]. simpl. split; [apply Hd|by intros ?%elem_of_nil]. }
    assert (Htot : ∀ n, total (at_gauges n) (s.(fo_atts) ++ [MkAttempt i name (guarded_by name s.(fo_reg)) probe Launched]) = total (at_gauges n) s.(fo_atts)).
    { intros n. rewrite total_app, total_cons, total_nil. unfold at_gauges at 2. simpl. destruct (streq name n); lia. }
    destruct probe; constructor; simpl; try done; intros n; by rewrite ?Htot, ?Hg.
  - destruct (fo_atts s !! k) as [t|] eqn:Hk; [|done]. simpl in H. destruct (at_phase t) eqn:Hp; simplify_eq.
    eapply (phase_gauges r s k t Sending s.(fo_reads)); try done; [by intros ?%elem_of_nil| |by left].
    intros n. unfold at_gauges, settling. rewrite Hp. simpl. by destruct (streq _ n).
  - destruct (fo_atts s !! k) as [t|] eqn:Hk; [|done]. simpl in H. destruct (at_phase t) eqn:Hp; simplify_eq.
    destruct Hinv as [Hd Ha Hc]. destruct (Ha t) as [Hg _]; [by eapply list_elem_of_lookup_2|].
    destruct (attempt_gauges (at_name t) (at_guarded t) (at_probe t) o) as [Hcount Hguard]. constructor; simpl; [done| |].
    + intros u Hin. apply list_elem_of_lookup in Hin as [j Hj].
      apply list_lookup_insert_Some in Hj as [(-> & <- & _)|[_ Hj]]; [done|apply Ha; by eapply list_elem_of_lookup_2].
    + intros n. rewrite <- Hc. pose proof (total_insert (at_gauges n) _ _ _ (set_phase (Settling (attempt_actions (at_name t) (at_guarded t) (at_probe t) o)) t) Hk) as Hi.
      assert (Ht : at_gauges n t = 0%nat) by (unfold at_gauges, settling; rewrite Hp; by destruct (streq _ n)).
      rewrite Ht in Hi. unfold at_gauges at 3 in Hi. cbn [set_phase settling at_phase at_name] in Hi. rewrite Hcount in Hi.
      unfold records_on, records. cbn [fst snd]. rewrite <- Hg. destruct (streq (at_name t) n); rewrite ?andb_true_r, ?andb_false_r; simpl; lia.
  - by eapply act_gauges.
  - destruct (fo_atts s !! k) as [t|] eqn:Hk; [|done]. simpl in H. destruct (at_phase t) as [| |[|]] eqn:Hp; simplify_eq.
    destruct Hinv as [Hd Ha Hc]. constructor; simpl; [done| |].
    + intros u Hin. apply Ha. by eapply list_elem_of_delete_inv.
    + intros n. rewrite <- Hc. pose proof (total_delete (at_gauges n) _ _ _ Hk).
      assert (Ht : at_gauges n t = 0%nat) by (unfold at_gauges, settling; rewrite Hp; by destruct (streq _ n)). lia.
  - destruct (fo_fans s !! i) as [f|]; [|done]. simpl in H. destruct (fn_names f); [|done]. destruct (fn_result f); [done|].
    destruct (forallb _ _); simplify_eq. by destruct Hinv.
  - destruct (bool_decide _); simplify_eq. by destruct Hinv.
Qed.

Lemma freach_gauges now r s : freach now r s → gauges_inv r s.
Proof. induction 1; [constructor; [done|by intros ? ?%elem_of_nil|done]|by eapply exec_gauges]. Qed.

(** ** Labels *)

Definition labelled_action (x : action) : bool := match x with ASample m => well_labelled m | _ => true end.
Definition labelled (s : fanouts) : Prop :=
  Forall (λ m, well_labelled m = true) s.(fo_log)
  ∧ Forall (λ t, Forall (λ x, labelled_action x = true) (settling t)) s.(fo_atts).

Lemma inflight_labelled n d : well_labelled (inflight n d) = true.
Proof. by vm_compute. Qed.
Lemma gauge_labelled n b : well_labelled (breaker_gauge n b) = true.
Proof. by vm_compute. Qed.
Lemma errors_labelled n : well_labelled (Incd SinkErrors [n]) = true.
Proof. by vm_compute. Qed.
Lemma suppressed_labelled x : well_labelled (Incd AlertsSuppressed [x]) = true.
Proof. by vm_compute. Qed.
Lemma duration_labelled n x d : well_labelled (Observed SinkSendDuration [n; x] d) = true.
Proof. by vm_compute. Qed.
Create HintDb labels.
#[local] Hint Resolve inflight_labelled gauge_labelled errors_labelled suppressed_labelled duration_labelled : labels.

Lemma attempt_labelled name guarded probe o : Forall (λ x, labelled_action x = true) (attempt_actions name guarded probe o).
Proof.
  unfold attempt_actions. destruct o as [| |[] took], guarded, probe; simpl; repeat constructor; simpl; auto with labels.
Qed.
Lemma test_labelled p : Forall (λ m, well_labelled m = true) (test_samples p).
Proof. unfold test_samples. destruct p as [n [| |[] took]]; repeat constructor; auto with labels. Qed.

Lemma exec_labelled c s s' : labelled s → exec c s = Some s' → labelled s'.
Proof.
  intros [Hl Ha] H. destruct c; simpl in H.
  - destruct (_ <=? _); by simplify_eq.
  - by simplify_eq.
  - destruct (fo_fans s !! i) as [f|]; [|done]. simpl in H. unfold exec_admit in H.
    destruct (fn_names f) as [|name names]; [done|].
    destruct (admit_sink _ _ _ _) as [[[[]|]|] r']; simplify_eq; (split; simpl; [|try apply Forall_app; try done]); try done.
    + split; [done|]. repeat constructor.
    + split; [done|]. repeat constructor.
    + apply Forall_app. split; [done|]. unfold circuit_open. repeat constructor; auto with labels.
  - destruct (fo_atts s !! k) as [t|] eqn:Hk; [|done]. simpl in H. destruct (at_phase t); simplify_eq. split; simpl.
    + apply Forall_app. split; [done|]. repeat constructor; auto with labels.
    + by apply Forall_insert.
  - destruct (fo_atts s !! k) as [t|] eqn:Hk; [|done]. simpl in H. destruct (at_phase t); simplify_eq. split; simpl; [done|].
    apply Forall_insert; [done|]. apply attempt_labelled.
  - destruct (fo_atts s !! k) as [t|] eqn:Hk; [|done]. simpl in H.
    pose proof (Forall_lookup_1 _ _ _ _ Ha Hk) as Ht. unfold settling in Ht.
    destruct (at_phase t) as [| |[|x rest]]; [done|done|done|]. apply Forall_cons in Ht as [Hx Hrest].
    destruct x; simplify_eq/=; try destruct (rg_breakers _ !! _); simplify_eq; split; simpl; try apply Forall_app; try apply Forall_insert;
      repeat constructor; auto with labels.
  - destruct (fo_atts s !! k) as [t|] eqn:Hk; [|done]. simpl in H. destruct (at_phase t) as [| |[|]]; simplify_eq.
    split; simpl; [done|by apply Forall_delete].
  - destruct (fo_fans s !! i) as [f|]; [|done]. simpl in H. destruct (fn_names f); [|done]. destruct (fn_result f); [done|].
    destruct (forallb _ _); by simplify_eq.
  - destruct (bool_decide _); simplify_eq. split; simpl; [|done]. apply Forall_app. split; [done|apply test_labelled].
Qed.

Lemma freach_labelled now r s : freach now r s → labelled s.
Proof. induction 1; [by split; constructor|by eapply exec_labelled]. Qed.

(** ** The breakers *)

(** The attempt holds a probe it has not recorded yet. *)
Definition holds_probe (n : string) (t : send_attempt) : Prop :=
  t.(at_name) = n ∧ t.(at_guarded) = true ∧ t.(at_probe) = true
  ∧ match t.(at_phase) with Settling l => ∃ ok, ARecord ok ∈ l | _ => True end.

Definition spaced (p q : string * time) : Prop := p.1 = q.1 → q.2 + breakerCooldown <= p.2.

Record breakers_inv (r : Registry) (s : fanouts) : Prop := {
  bi_dom n : is_Some (s.(fo_reg).(rg_breakers) !! n) ↔ is_Some (r.(rg_breakers) !! n);
  bi_guarded t : t ∈ s.(fo_atts) → t.(at_guarded) = guarded_by t.(at_name) r;
  bi_probe n : stranded n s.(fo_reg) → ∃ t, t ∈ s.(fo_atts) ∧ holds_probe n t;
  bi_until n b : s.(fo_reg).(rg_breakers) !! n = Some b → b.(br_state) = breakerOpen →
    b.(br_openUntil) <= s.(fo_now) + breakerCooldown
    ∧ ∀ u, (n, u) ∈ s.(fo_probes) → u + breakerCooldown <= b.(br_openUntil);
  bi_past n u : (n, u) ∈ s.(fo_probes) → u <= s.(fo_now);
  bi_spaced : StronglySorted spaced s.(fo_probes);
}.

(** What one critical section may do to the deadline of an open breaker. *)
Definition tame (now : time) (g : breaker → breaker) : Prop :=
  ∀ b, (g b).(br_state) = breakerOpen →
    (g b).(br_openUntil) = now + breakerCooldown
    ∨ (b.(br_state) = breakerOpen ∧ (g b).(br_openUntil) = b.(br_openUntil)).

Lemma record_tame now ok : tame now (breaker_Record now ok).
Proof.
  intros b. unfold breaker_Record. destruct ok; [done|]. destruct (_ || _); simpl; [by left|by right].
Qed.
Lemma latency_tame now took : tame now (RecordLatency now took).
Proof. intros b. unfold RecordLatency. destruct (_ <? _); [by right|]. destruct (_ <=? _); simpl; [by left|by right]. Qed.
Lemma record_settles now ok b : (breaker_Record now ok b).(br_state) ≠ breakerHalfOpen.
Proof.
  unfold breaker_Record. destruct ok; [done|].
  destruct (bool_decide_reflect (br_state b = breakerHalfOpen)); simpl; [done|]. by destruct (_ <=? _).
Qed.
Lemma latency_settled now took b :
  (RecordLatency now took b).(br_state) = breakerHalfOpen → b.(br_state) = breakerHalfOpen.
Proof. unfold RecordLatency. destruct (_ <? _); [done|]. by destruct (_ <=? _). Qed.

Lemma on_breaker_lookup name g r n b :
  (on_breaker name g r).(rg_breakers) !! n = Some b →
  (n = name ∧ ∃ b0, r.(rg_breakers) !! name = Some b0 ∧ b = g b0) ∨ (n ≠ name ∧ r.(rg_breakers) !! n = Some b).
Proof.
  unfold on_breaker. destruct (rg_breakers r !! name) as [b0|] eqn:E; simpl.
  - intros [[<- <-]|[Hne H]]%lookup_insert_Some; [left; by eauto|right; by split].
  - intros H. destruct (decide (n = name)) as [->|]; [congruence|by right].
Qed.

Lemma reg_breakers r s name g :
  breakers_inv r s → tame s.(fo_now) g →
  (∀ b, (g b).(br_state) = breakerHalfOpen → b.(br_state) = breakerHalfOpen) →
  breakers_inv r (set_reg (on_breaker name g s.(fo_reg)) s).
Proof.
  intros [Hd Hg Hp Hu Ht Hs] Htame Hhalf. constructor; simpl; [|done| | |done|done].
  - intros n. rewrite <- Hd. unfold on_breaker. destruct (rg_breakers (fo_reg s) !! name) as [b0|] eqn:E; [|done].
    simpl. rewrite lookup_insert_is_Some. destruct (decide (name = n)) as [->|]; [rewrite E; naive_solver|naive_solver].
  - intros n (b & Hb & Hst). apply on_breaker_lookup in Hb as [(-> & b0 & Hb0 & ->)|[Hne Hb]]; apply Hp; eexists; split; eauto.
  - intros n b Hb Hst. apply on_breaker_lookup in Hb as [(-> & b0 & Hb0 & ->)|[Hne Hb]]; [|by apply Hu].
    destruct (Htame b0 Hst) as [->|[Hst0 ->]]; [|by apply Hu].
    split; [lia|]. intros u Hin%Ht. lia.
Qed.

Lemma holder_insert n (l : list send_attempt) k t t' :
  l !! k = Some t → (holds_probe n t → holds_probe n t') →
  (∃ u, u ∈ l ∧ holds_probe n u) → ∃ u, u ∈ <[k := t']> l ∧ holds_probe n u.
Proof.
  intros Hk Hh (u & [j Hj]%list_elem_of_lookup & Hu). destruct (decide (k = j)) as [->|Hne].
  - simplify_eq. exists t'. split; [|auto]. apply list_elem_of_lookup. exists j.
    apply list_lookup_insert_eq. by eapply lookup_lt_Some.
  - exists u. split; [|done]. apply list_elem_of_lookup. exists j. by rewrite list_lookup_insert_ne.
Qed.

(** A goroutine that goes on, still holding every probe that matters. *)
Lemma phase_breakers r s k t p :
  breakers_inv r s → s.(fo_atts) !! k = Some t →
  (∀ n, stranded n s.(fo_reg) → holds_probe n t → holds_probe n (set_phase p t)) →
  breakers_inv r (set_atts (<[k := set_phase p t]> s.(fo_atts)) s).
Proof.
  intros [Hd Hg Hp Hu Ht Hs] Hk Hh. constructor; simpl; [done| | |done|done|done].
  - intros u Hin. apply list_elem_of_lookup in Hin as [j Hj]. apply list_lookup_insert_Some in Hj as [(-> & <- & _)|[_ Hj]].
    + apply (Hg t). by eapply list_elem_of_lookup_2.
    + apply Hg. by eapply list_elem_of_lookup_2.
  - intros n Hn. by eapply holder_insert; [done|auto|apply Hp].
Qed.

Lemma admit_cases now a name r d r' :
  admit_sink now a name r = (d, r') →
  (r' = r ∧ d ≠ Some (Some true))
  ∨ ∃ b, r.(rg_breakers) !! name = Some b ∧ b.(br_state) = breakerOpen ∧ b.(br_openUntil) <= now
      ∧ d = Some (Some true) ∧ r' = on_breaker name (λ b, MkBreaker b.(br_failures) b.(br_slow) breakerHalfOpen b.(br_openUntil)) r.
Proof.
  assert (Hid : ∀ b, r.(rg_breakers) !! name = Some b → set_breaker name b r = r).
  { intros b Hb. destruct r. unfold set_breaker. simpl in *. by rewrite insert_id. }
  unfold admit_sink, on_breaker. destruct (negb _); [by intros [= <- <-]; left|].
  destruct (rg_breakers r !! name) as [b|] eqn:Hb; [|by intros [= <- <-]; left].
  destruct (a_Resolved a); [by intros [= <- <-]; left|]. unfold Allow. destruct (br_state b) eqn:Hst.
  - intros [= <- <-]. left. rewrite Hid by done. by split.
  - destruct (Before now (br_openUntil b)) eqn:E; intros [= <- <-]; [left; rewrite Hid by done; by split|].
    right. exists b. apply Before_false in E. by split_and!.
  - intros [= <- <-]. left. rewrite Hid by done. by split.
Qed.

Lemma same_breakers r s s' :
  breakers_inv r s → s'.(fo_reg) = s.(fo_reg) → s'.(fo_atts) = s.(fo_atts) → s'.(fo_probes) = s.(fo_probes) →
  s.(fo_now) <= s'.(fo_now) → breakers_inv r s'.
Proof.
  intros [Hd Hg Hp Hu Ht Hs] Er Ea Ep Hle. constructor; rewrite ?Er, ?Ea, ?Ep; try done.
  - intros n b Hb Hst. destruct (Hu n b Hb Hst). split; [lia|done].
  - intros n u Hin%Ht. lia.
Qed.

Lemma admit_breakers r i f s s' : breakers_inv r s → exec_admit i f s = Some s' → breakers_inv r s'.
Proof.
  intros Hinv H. unfold exec_admit in H. destruct (fn_names f) as [|name names]; [done|].
  destruct (admit_sink _ _ _ _) as [d r'] eqn:E. pose proof Hinv as [Hd Hg Hp Hu Ht Hs].
  assert (Hgn : guarded_by name (fo_reg s) = guarded_by name r) by (unfold guarded_by; by apply bool_decide_ext).
  assert (Hlaunch : ∀ probe p, s.(fo_atts) ⊆ s.(fo_atts) ++ [MkAttempt i name (guarded_by name s.(fo_reg)) probe p])
    by (intros; apply list_subseteq_app_l; done).
  apply admit_cases in E as [[-> Hd']|(b & Hb & Hst & Hle & -> & ->)].
  - destruct d as [[[]|]|]; [done| | |]; simplify_eq; [|by eapply same_breakers..].
    constructor; simpl; [done| | |done|done|done].
    + intros t [Hin| ->%list_elem_of_singleton]%elem_of_app; [by apply Hg|done].
    + intros n (t & Hin & Hh)%Hp. exists t. split; [by apply elem_of_app; left|done].
  - simplify_eq. constructor; simpl.
    + intros n. rewrite <- Hd. unfold on_breaker. rewrite Hb. simpl. rewrite lookup_insert_is_Some.
      destruct (decide (name = n)) as [->|]; [rewrite Hb; naive_solver|naive_solver].
    + intros t [Hin| ->%list_elem_of_singleton]%elem_of_app; [by apply Hg|done].
    + intros n (b' & Hb' & Hst'). destruct (decide (n = name)) as [->|Hne].
      * eexists. split; [apply elem_of_app; right; by apply list_elem_of_singleton|]. unfold holds_probe. simpl.
        split_and!; [done| |done|done]. unfold guarded_by. by apply bool_decide_eq_true.
      * apply on_breaker_lookup in Hb' as [[-> _]|[_ Hb']]; [done|].
        destruct (Hp n) as (t & Hin & Hh); [by exists b'|]. exists t. split; [by apply elem_of_app; left|done].
    + intros n b' Hb' Hst'. apply on_breaker_lookup in Hb' as [(-> & b0 & Hb0 & ->)|[Hne Hb']]; [done|].
      destruct (Hu n b' Hb' Hst') as [? Hall]. split; [done|]. intros u [[= -> ->]|Hin]%elem_of_cons; [done|auto].
    + intros n u [[= -> ->]|Hin]%elem_of_cons; [done|by eapply Ht].
    + constructor; [done|]. apply Forall_forall. intros [n u] Hin Heq. simpl in *. subst n.
      destruct (Hu name b Hb Hst) as [_ Hall]. specialize (Hall u Hin). lia.
Qed.

Lemma attempt_records name probe o : probe = true → ∃ ok, ARecord ok ∈ attempt_actions name true probe o.
Proof.
  intros ->. exists (outcome_ok o). unfold attempt_actions. by destruct o as [| |[] took]; simpl; rewrite !elem_of_cons; auto.
Qed.

(** The goroutine's next action, once the registry is as the action leaves it. *)
Lemma rest_breakers r s k t x rest l :
  breakers_inv r s → s.(fo_atts) !! k = Some t → t.(at_phase) = Settling (x :: rest) → rest ⊆ l →
  (∀ ok, x = ARecord ok → ¬ stranded t.(at_name) s.(fo_reg)) →
  breakers_inv r (set_atts (<[k := set_phase (Settling l) t]> s.(fo_atts)) s).
Proof.
  intros Hinv Hk Hp Hsub Hx. eapply phase_breakers; [done..|]. intros n Hn (<- & ? & ? & Hh). rewrite Hp in Hh.
  destruct Hh as [ok [Heq|Hin]%elem_of_cons]; [by destruct (Hx ok)|]. split_and!; [done..|]. exists ok. by apply Hsub.
Qed.

Lemma act_breakers r k s s' : breakers_inv r s → exec (Act k) s = Some s' → breakers_inv r s'.
Proof.
  intros Hinv H. simpl in H. destruct (fo_atts s !! k) as [t|] eqn:Hk; [|done]. simpl in H.
  destruct (at_phase t) as [| |[|x rest]] eqn:Hp; [done|done|done|]. destruct x as [m| |ok|took|]; simpl in H.
  - simplify_eq. eapply (same_breakers r (set_atts _ s)); [|done..]. by eapply rest_breakers.
  - simplify_eq. eapply (same_breakers r (set_atts _ s)); [|done..]. by eapply rest_breakers.
  - simplify_eq. refine (rest_breakers r (set_reg _ s) k t (ARecord ok) rest rest _ Hk Hp _ _); [|done|].
    + apply reg_breakers; [done|apply record_tame|]. by intros b ?%record_settles.
    + intros _ _ (b & Hb & Hst). apply on_breaker_lookup in Hb as [(_ & b0 & _ & ->)|[? _]]; [|done].
      by apply record_settles in Hst.
  - simplify_eq. refine (rest_breakers r (set_reg _ s) k t (ALatency took) rest rest _ Hk Hp _ _); [|done|done].
    apply reg_breakers; [done|apply latency_tame|]. apply latency_settled.
  - destruct (rg_breakers (fo_reg s) !! at_name t) as [b|]; simplify_eq; [|by eapply rest_breakers].
    apply (same_breakers r (set_atts (<[k := set_phase (Settling (ASample (breaker_gauge (at_name t) (breaker_Open (fo_now s) b)) :: rest)) t]> s.(fo_atts)) s));
      [|done..]. eapply rest_breakers; [done..| |done]. by right.
Qed.

Lemma exec_breakers r c s s' : breakers_inv r s → exec c s = Some s' → breakers_inv r s'.
Proof.
  intros Hinv H. destruct c; simpl in H.
  - destruct (Z.leb_spec (fo_now s) t); simplify_eq. by eapply same_breakers.
  - simplify_eq. by eapply same_breakers.
  - destruct (fo_fans s !! i) as [f|]; [|done]. by eapply admit_breakers.
  - destruct (fo_atts s !! k) as [t|] eqn:Hk; [|done]. simpl in H. destruct (at_phase t) eqn:Hp; simplify_eq.
    eapply (same_breakers r (set_atts _ s)); [|done..]. eapply phase_breakers; [done..|].
    intros n _ (? & ? & ? & _). by split_and!.
  - destruct (fo_atts s !! k) as [t|] eqn:Hk; [|done]. simpl in H. destruct (at_phase t) eqn:Hp; simplify_eq.
    eapply (same_breakers r (set_atts _ s)); [|done..]. eapply phase_breakers; [done..|].
    intros n _ (? & Hg & Hpr & _). split_and!; try done. simpl. rewrite Hg. by apply attempt_records.
  - by eapply act_breakers.
  - destruct (fo_atts s !! k) as [t|] eqn:Hk; [|done]. simpl in H. destruct (at_phase t) as [| |[|]] eqn:Hp; simplify_eq.
    destruct Hinv as [Hd Hg Hpr Hu Ht Hs]. constructor; simpl; [done| | |done|done|done].
    + intros u Hin. apply Hg. by eapply list_elem_of_delete_inv.
    + intros n (u & Hin & Hh)%Hpr. exists u. split; [|done]. rewrite (delete_Permutation _ _ _ Hk) in Hin.
      apply elem_of_cons in Hin as [->|?]; [|done]. destruct Hh as (_ & _ & _ & Hh). rewrite Hp in Hh.
      destruct Hh as [? Hh]. by apply elem_of_nil in Hh.
  - destruct (fo_fans s !! i) as [f|]; [|done]. simpl in H. destruct (fn_names f); [|done]. destruct (fn_result f); [done|].
    destruct (forallb _ _); simplify_eq. by eapply same_breakers.
  - destruct (bool_decide _); simplify_eq. by eapply same_breakers.
Qed.

Lemma freach_breakers now r s :
  (∀ n b, r.(rg_breakers) !! n = Some b → b = newBreaker) → freach now r s → breakers_inv r s.
Proof.
  intros Hnew. induction 1 as [|c s s' _ IH H]; [|by eapply exec_breakers].
  constructor; simpl; try done.
  - intros ? H. by apply elem_of_nil in H.
  - intros n (b & Hb & Hst). by rewrite (Hnew n b Hb) in Hst.
  - intros n b Hb Hst. by rewrite (Hnew n b Hb) in Hst.
  - intros ? ? H. by apply elem_of_nil in H.
  - constructor.
Qed.

(** ** Totals and permutations *)

Lemma perm_of_totals {A} `{EqDecision A} (l l' : list A) :
  (∀ x, total (λ y, Nat.b2n (bool_decide (y = x))) l = total (λ y, Nat.b2n (bool_decide (y = x))) l') → l ≡ₚ l'.
Proof.
  intros H. apply (Permutation_count_occ (λ a b : A, decide (a = b))). intros x. specialize (H x).
  assert (Hc : ∀ k : list A, count_occ (λ a b : A, decide (a = b)) k x = total (λ y, Nat.b2n (bool_decide (y = x))) k).
  { intros k. induction k as [|y k IH]; [done|]. rewrite total_cons, <- IH. simpl.
    by destruct (bool_decide_reflect (y = x)), (decide (y = x)). }
  by rewrite !Hc.
Qed.
Lemma total_filter {A} (p : A → bool) w l : total w (List.filter p l) = total (λ x, if p x then w x else 0%nat) l.
Proof. induction l as [|x l IH]; [done|]. cbn [List.filter]. rewrite total_cons, <- IH. by destruct (p x). Qed.
Lemma total_map {A B} (g : A → B) w l : total w (g <$> l) = total (λ x, w (g x)) l.
Proof. induction l as [|x l IH]; [done|]. by rewrite fmap_cons, !total_cons, IH. Qed.
Lemma total_bind {A B} (g : A → list B) w l : total w (l ≫= g) = total (λ x, total w (g x)) l.
Proof. induction l as [|x l IH]; [done|]. by rewrite bind_cons, total_app, total_cons, IH. Qed.
Lemma total_ext {A} (w w' : A → nat) l : (∀ x, w x = w' x) → total w l = total w' l.
Proof. intros H. induction l as [|x l IH]; [done|]. rewrite !total_cons. by rewrite H, IH. Qed.
Lemma total_plus {A} (w w' : A → nat) l : total (λ x, (w x + w' x)%nat) l = (total w l + total w' l)%nat.
Proof. induction l as [|x l IH]; [done|]. rewrite !total_cons, IH. lia. Qed.
Lemma total_pos {A} (w : A → nat) l : (0 < total w l)%nat ↔ ∃ x, x ∈ l ∧ (0 < w x)%nat.
Proof.
  induction l as [|x l IH]; [split; [rewrite total_nil; lia|by intros (? & ?%elem_of_nil & _)]|].
  rewrite total_cons. setoid_rewrite elem_of_cons. destruct (decide (0 < w x)%nat) as [H|H]; [split; [by eauto|lia]|].
  replace (w x) with 0%nat by lia. rewrite Nat.add_0_l, IH. split; [by naive_solver|].
  intros (y & [->|Hy] & Hw); [lia|by exists y].
Qed.
Lemma total_one {A} (l : list A) : total (λ _, 1%nat) l = length l.
Proof. induction l as [|x l IH]; [done|]. by rewrite total_cons, IH. Qed.

(** The eligible sinks of a route, and the sinks a fan-out decided about. *)
Definition eligible_sinks (a : Alert) (r : Registry) (route : list string) : list string :=
  List.filter (eligible a r) route.
Definition fates_of (i : nat) (s : fanouts) : list (nat * string * sink_fate) :=
  List.filter (λ e, (e.1.1 =? i)%nat) s.(fo_fates).

Lemma settled_names r s i f b :
  fan_inv r s i f → f.(fn_result) = Some b →
  (λ e, e.1.2) <$> fates_of i s ≡ₚ eligible_sinks f.(fn_a) r f.(fn_route).
Proof.
  intros [Hn _ _ _ _ Hr] Hb. destruct (Hr b Hb) as (Hleft & Hmine & _).
  apply perm_of_totals. intros n. specialize (Hn n). rewrite Hleft, total_nil in Hn.
  assert (Ho : total (at_open_on i n) (fo_atts s) = 0%nat).
  { eapply total_null; [|done]. intros t. unfold at_mine, at_open_on. by destruct (_ =? _)%nat. }
  rewrite total_map. unfold fates_of, eligible_sinks. rewrite !total_filter.
  erewrite (total_ext _ (fate_on i n)), (total_ext _ (wanted r (fn_a f) n)); [lia| |].
  - intros x. unfold wanted, streq. by destruct (eligible _ _ _).
  - intros e. unfold fate_on, streq. by destruct (_ =? _)%nat.
Qed.

Lemma verdict_means r s i f b :
  fan_inv r s i f → f.(fn_result) = Some b →
  b = true ↔ (∃ n probe took, (i, n, Tried probe (Sent true took)) ∈ s.(fo_fates)) ∨ eligible_sinks f.(fn_a) r f.(fn_route) = [].
Proof.
  intros Hfi Hb. pose proof (settled_names r s i f b Hfi Hb) as Hperm. destruct Hfi as [_ Ha Hsk Hsu _ Hr].
  destruct (Hr b Hb) as (_ & Hmine & Hv). simpl in Hv. injection Hv as <-.
  assert (Hz : ∀ w, (∀ t, at_mine i t = 0%nat → w t = 0%nat) → total w s.(fo_atts) = 0%nat)
    by (intros w Hw; by eapply total_null).
  assert (Ho : total (at_open i) s.(fo_atts) = 0%nat)
    by (apply Hz; intros t; unfold at_mine, at_open; by destruct (at_fan t =? i)%nat).
  assert (How : total (at_owes i) s.(fo_atts) = 0%nat)
    by (apply Hz; intros t; unfold at_mine, at_owes; by destruct (at_fan t =? i)%nat).
  rewrite Ho in Ha. rewrite How in Hsu. clear Hb Hr Hz.
  assert (Hok : (0 < fn_succeeded f)%nat ↔ ∃ n probe took, (i, n, Tried probe (Sent true took)) ∈ s.(fo_fates)).
  { replace (fn_succeeded f) with (total (fate_ok i) (fo_fates s)) by lia. rewrite total_pos. unfold fate_ok. split.
    - intros ([[j n] [|probe [| |[] took]]] & Hin & Hw); simpl in Hw; destruct (Nat.eqb_spec j i); simpl in Hw; try lia.
      subst j. by exists n, probe, took.
    - intros (n & probe & took & Hin). eexists. split; [exact Hin|]. simpl. rewrite Nat.eqb_refl. simpl. lia. }
  assert (Hlen : (fn_attempted f + fn_skipped f)%nat = length (eligible_sinks (fn_a f) r (fn_route f))).
  { rewrite <- (Permutation_length Hperm), length_fmap, <- total_one. unfold fates_of. rewrite total_filter, Ha, Hsk, Nat.add_0_r, <- total_plus.
    apply total_ext. intros e. unfold fate_tried, fate_skipped. destruct (e.1.1 =? i)%nat; [|done]. by destruct (is_skipped _). }
  assert (Hle : (fn_succeeded f <= fn_attempted f)%nat).
  { rewrite Ha, Nat.add_0_r. replace (fn_succeeded f) with (total (fate_ok i) (fo_fates s)) by lia.
    rewrite (total_ext (fate_tried i) (λ e, fate_ok i e + Nat.b2n ((e.1.1 =? i)%nat && match e.2 with Tried _ o => negb (outcome_ok o) | _ => false end))%nat);
      [rewrite total_plus; lia|].
    intros e. unfold fate_tried, fate_ok. destruct (e.1.1 =? i)%nat; [|done]. destruct (e.2) as [|? o]; [done|]. simpl.
    by destruct (outcome_ok o). }
  rewrite <- Hok. destruct (Nat.ltb_spec 0 (fn_attempted f)) as [Hat|Hat].
  - rewrite Nat.ltb_lt. split; [by left|]. intros [?|He]; [done|]. rewrite He in Hlen. simpl in Hlen. lia.
  - rewrite Nat.eqb_eq, <- length_zero_iff_nil, <- Hlen. lia.
Qed.

(** C9: every fan-out accounts for its sinks, however fan-outs, their attempts and test-fires
    interleave. When one returns, each registered sink of its route that supports the alert (any,
    for a resolve) has exactly one fate: it was tried once, or - never for a resolve - refused by
    its breaker. The result is true exactly when an attempt succeeded or no sink was eligible, so
    an alert that reached nobody is never reported as delivered. Whenever no attempt is under
    way, the samples are those of the fates (a refusal's count, its gauge at 1; an attempt's
    inflight changes, error or drop count and duration), those of the test-fires, and one of the
    breaker's gauge for each attempt that recorded an outcome in a breaker, with what the
    breaker, as it stood when the gauge was read, answered then; and nothing else. Every sample
    names a registered collector with its labels. The gauge is set at no other time, so it keeps
    its value when a cooldown ends by itself ([gauge_goes_stale]). *)
Theorem fanout_accounts now r s :
  freach now r s →
  (∀ i f b, s.(fo_fans) !! i = Some f → f.(fn_result) = Some b →
     ((λ e, e.1.2) <$> fates_of i s ≡ₚ eligible_sinks f.(fn_a) r f.(fn_route))
     ∧ (b = true ↔ (∃ n probe took, (i, n, Tried probe (Sent true took)) ∈ s.(fo_fates)) ∨ eligible_sinks f.(fn_a) r f.(fn_route) = [])
     ∧ (f.(fn_a).(a_Resolved) = true → ∀ n, (i, n, Skipped) ∉ s.(fo_fates)))
  ∧ (s.(fo_atts) = [] →
     s.(fo_log) ≡ₚ (s.(fo_fates) ≫= fate_samples) ++ (s.(fo_tests) ≫= test_samples) ++ (read_sample <$> s.(fo_reads))
     ∧ ((λ x, x.1.1) <$> s.(fo_reads) ≡ₚ (λ e, e.1.2) <$> List.filter (records r) s.(fo_fates)))
  ∧ Forall (λ m, well_labelled m = true) s.(fo_log).
Proof.
  intros Hr. split_and!; [| |by apply freach_labelled in Hr as [? _]].
  - intros i f b Hf Hb. apply freach_fanouts in Hr as [_ _ Hi]. pose proof (Hi i f Hf) as Hfi.
    pose proof (settled_names r s i f b Hfi Hb) as Hperm. split; [done|]. split; [by eapply verdict_means|].
    intros Hres n Hin. apply (fv_resolved _ _ _ _ Hfi) in Hres. rewrite total_zero in Hres. apply Hres in Hin.
    unfold fate_skipped in Hin. simpl in Hin. by rewrite Nat.eqb_refl in Hin.
  - intros Hnone. split; apply perm_of_totals.
    + intros m. apply freach_samples in Hr. specialize (Hr m). rewrite Hnone, !total_nil, !Nat.add_0_r in Hr.
      rewrite !total_app, !total_bind, total_map. unfold occ in Hr at 1. rewrite Hr, Nat.add_assoc. f_equal.
      apply total_ext. intros x. unfold occ. by rewrite total_cons, total_nil, Nat.add_0_r.
    + intros n. apply freach_gauges in Hr as [_ _ Hcount]. specialize (Hcount n). rewrite Hnone, total_nil, Nat.add_0_r in Hcount.
      rewrite !total_map, total_filter. etransitivity; [|etransitivity; [exact Hcount|]]; apply total_ext; intros x; [done|].
      unfold records_on, streq. by destruct (records r x).
Qed.

(** C10: the breakers hold up under concurrent fan-outs. From fresh breakers, in every
    interleaving: a half-open breaker has a probe under way whose goroutine has yet to record
    its outcome, so none is ever stranded; once no attempt for a sink is under way it takes
    traffic again one cooldown later at the latest; and two probes of one sink are at least a
    cooldown apart, so a dead endpoint is never hammered however many workers fan out. *)
Theorem fanouts_share_breakers now r s :
  (∀ n b, r.(rg_breakers) !! n = Some b → b = newBreaker) → freach now r s →
  (∀ n b, s.(fo_reg).(rg_breakers) !! n = Some b →
     (b.(br_state) = breakerHalfOpen → ∃ t, t ∈ s.(fo_atts) ∧ holds_probe n t)
     ∧ ((∀ t, t ∈ s.(fo_atts) → t.(at_name) ≠ n) → ∀ later, s.(fo_now) + breakerCooldown <= later → (Allow later b).1.1 = true))
  ∧ StronglySorted spaced s.(fo_probes).
Proof.
  intros Hnew Hr. destruct (freach_breakers now r s Hnew Hr) as [Hd Hg Hp Hu Ht Hs]. split; [|done].
  intros n b Hb. assert (Hhalf : br_state b = breakerHalfOpen → ∃ t, t ∈ fo_atts s ∧ holds_probe n t)
    by (intros Hst; apply Hp; by exists b).
  split; [done|]. intros Hidle later Hle. unfold Allow. destruct (br_state b) eqn:Hst; [done| |].
  - destruct (Hu n b Hb Hst) as [Hun _]. by rewrite (proj2 (Before_false later (br_openUntil b))) by lia.
  - destruct Hhalf as (t & Hin & Hn & _); [done|]. by apply Hidle in Hin.
Qed.

(** ** The fan-out that runs alone *)

Lemma exec_all_app l l' s : exec_all (l ++ l') s = (s ← exec_all l s; exec_all l' s).
Proof. revert s. induction l as [|c l IH]; intros s; [done|]. simpl. destruct (exec c s); [apply IH|done]. Qed.

Lemma on_breaker_twice name g g' r : on_breaker name g' (on_breaker name g r) = on_breaker name (g' ∘ g) r.
Proof.
  unfold on_breaker. destruct (rg_breakers r !! name) as [b|] eqn:E; [|by rewrite E].
  simpl. rewrite lookup_insert_eq. unfold set_breaker. simpl. by rewrite insert_insert_eq.
Qed.
(** [finish] in terms of the goroutine's actions. *)
Lemma finish_on_breaker now name probe o r :
  finish now name probe o r =
  match o with
  | RateLimited => if probe then on_breaker name (breaker_Record now false) r else r
  | Panicked => on_breaker name (breaker_Record now false) r
  | Sent ok took => on_breaker name (RecordLatency now took ∘ breaker_Record now ok) r
  end.
Proof. unfold finish, on_breaker. destruct (rg_breakers r !! name), o as [| |ok took]; try done; by destruct probe. Qed.

Lemma act_here x l t rest s :
  s.(fo_atts) = set_phase (Settling (x :: l)) t :: rest →
  exec (Act 0) s = let '(l', s1) := exec_action t x l s in Some (set_atts (set_phase (Settling l') t :: rest) s1).
Proof.
  intros Ha. simpl. rewrite Ha. simpl. destruct x as [m| |ok|took|]; simpl; try by rewrite Ha.
  destruct (rg_breakers (fo_reg s) !! at_name t); simpl; by rewrite Ha.
Qed.

(** The rest of a goroutine's life, when nothing else runs. *)
Lemma settle_alone l t s rest f :
  s.(fo_atts) = set_phase (Settling l) t :: rest → s.(fo_fans) = [f] → t.(at_fan) = 0%nat →
  ∃ cs s', exec_all cs s = Some s' ∧ s'.(fo_atts) = rest ∧ s'.(fo_now) = s.(fo_now)
    ∧ s'.(fo_fans) = [Nat.iter (total is_succeed l) fan_succeed f]
    ∧ s'.(fo_reg) = fold_left (λ r x, match x with
                                     | ARecord ok => on_breaker t.(at_name) (breaker_Record s.(fo_now) ok) r
                                     | ALatency took => on_breaker t.(at_name) (RecordLatency s.(fo_now) took) r
                                     | _ => r end) l s.(fo_reg).
Proof.
  revert s f. induction l as [|x l IH]; intros s f Ha Hf Ht.
  { exists [Exit 0], (set_atts rest s). simpl. rewrite Ha. by split_and!. }
  set (next := set_atts (set_phase (Settling l) t :: rest)). pose proof (act_here x l t rest s Ha) as Hact.
  destruct x as [m| |ok|took|]; cbn [exec_action] in Hact.
  - destruct (IH (next (tell [m] s)) f) as (cs & s' & Hcs & H); [done..|].
    exists (Act 0 :: cs), s'. cbn [exec_all]. rewrite Hact. by split.
  - rewrite Ht, Hf in Hact.
    destruct (IH (next (set_fans [fan_succeed f] s)) (fan_succeed f)) as (cs & s' & Hcs & H1 & H2 & H3 & H4); [done..|].
    exists (Act 0 :: cs), s'. cbn [exec_all]. rewrite Hact. split_and!; try done.
    rewrite H3. f_equal. symmetry. apply Nat.iter_succ_r.
  - destruct (IH (next (set_reg (on_breaker t.(at_name) (breaker_Record s.(fo_now) ok) s.(fo_reg)) s)) f)
      as (cs & s' & Hcs & H); [done..|].
    exists (Act 0 :: cs), s'. cbn [exec_all]. rewrite Hact. by split.
  - destruct (IH (next (set_reg (on_breaker t.(at_name) (RecordLatency s.(fo_now) took) s.(fo_reg)) s)) f)
      as (cs & s' & Hcs & H); [done..|].
    exists (Act 0 :: cs), s'. cbn [exec_all]. rewrite Hact. by split.
  - destruct (s.(fo_reg).(rg_breakers) !! t.(at_name)) as [b|] eqn:Hb.
    + set (m := breaker_gauge t.(at_name) (breaker_Open s.(fo_now) b)) in *.
      destruct (IH (next (tell [m] (note_read t.(at_name) b s))) f) as (cs & s' & Hcs & H); [done..|].
      exists (Act 0 :: Act 0 :: cs), s'. cbn [exec_all]. rewrite Hact. cbn [mbind option_bind].
      rewrite (act_here (ASample m) l t rest) by done. by split.
    + destruct (IH (next s) f) as (cs & s' & Hcs & H); [done..|].
      exists (Act 0 :: cs), s'. cbn [exec_all]. rewrite Hact. by split.
Qed.

(** One attempt, when nothing else runs: the machine does what [finish] says. *)
Lemma attempt_alone o t s rest f :
  s.(fo_atts) = t :: rest → s.(fo_fans) = [f] → t.(at_fan) = 0%nat → t.(at_phase) = Launched →
  t.(at_guarded) = guarded_by t.(at_name) s.(fo_reg) →
  ∃ cs s', exec_all cs s = Some s' ∧ s'.(fo_atts) = rest ∧ s'.(fo_now) = s.(fo_now)
    ∧ s'.(fo_fans) = [Nat.iter (Nat.b2n (outcome_ok o)) fan_succeed f]
    ∧ s'.(fo_reg) = finish s.(fo_now) t.(at_name) t.(at_probe) o s.(fo_reg).
Proof.
  intros Ha Hf Ht Hp Hg. set (acts := attempt_actions t.(at_name) t.(at_guarded) t.(at_probe) o).
  destruct (settle_alone acts t
              (decide_fate t.(at_fan) t.(at_name) (Tried t.(at_probe) o)
                 (set_atts (set_phase (Settling acts) t :: rest) (tell [inflight t.(at_name) 1] s))) rest f)
    as (cs & s' & Hcs & Hr & Hn & Hfan & Hreg); [done..|].
  exists (Start 0 :: Outcome 0 o :: cs), s'. split; [|split_and!; [done|done| |]].
  - simpl. rewrite Ha. simpl. rewrite Hp. simpl. exact Hcs.
  - rewrite Hfan. unfold acts. by rewrite attempt_succeeds.
  - rewrite Hreg, finish_on_breaker. unfold acts, attempt_actions. rewrite Hg. unfold guarded_by.
    destruct (bool_decide_reflect (is_Some (rg_breakers (fo_reg s) !! at_name t))) as [|Hno].
    + destruct o as [| |[] took]; [by destruct (at_probe t)|done|by rewrite <- on_breaker_twice..].
    + assert (Hid : ∀ g, on_breaker (at_name t) g (fo_reg s) = fo_reg s)
        by (intros g; unfold on_breaker; destruct (rg_breakers _ !! _) eqn:E; [by destruct Hno|done]).
      destruct o as [| |[] took]; simpl; rewrite ?Hid; by destruct (at_probe t).
Qed.

Lemma finish_guarded now name probe o r n : guarded_by n (finish now name probe o r) = guarded_by n r.
Proof. rewrite finish_on_breaker. destruct o; [destruct probe|..]; by rewrite ?on_breaker_guarded. Qed.
Definition launched_from (r : Registry) (p : string * bool) : send_attempt := MkAttempt 0 p.1 (guarded_by p.1 r) p.2 Launched.

Lemma admit_alone names s f :
  s.(fo_fans) = [f] → f.(fn_names) = names →
  let out := admit_all s.(fo_now) f.(fn_a) names s.(fo_reg) in
  ∃ s', exec_all (repeat (Admit 0) (length names)) s = Some s' ∧ s'.(fo_now) = s.(fo_now) ∧ s'.(fo_reg) = out.2
    ∧ s'.(fo_atts) = s.(fo_atts) ++ (launched_from s.(fo_reg) <$> out.1.1)
    ∧ s'.(fo_fans) = [MkFanout f.(fn_a) f.(fn_route) [] (f.(fn_attempted) + length out.1.1) (f.(fn_skipped) + out.1.2)
                        f.(fn_succeeded) f.(fn_result)].
Proof.
  revert s f. induction names as [|name names IH]; intros s f Hf Hnm.
  { exists s. simpl. rewrite app_nil_r, !Nat.add_0_r. split_and!; try done. rewrite Hf. by destruct f; simpl in *; subst. }
  cbv zeta. rewrite admit_all_cons. cbn [fst snd repeat length exec_all exec]. rewrite Hf. cbn [lookup list_lookup mbind option_bind].
  unfold exec_admit. rewrite Hnm. pose proof (admit_guarded s.(fo_now) f.(fn_a) name s.(fo_reg)) as Hg.
  destruct (admit_sink (fo_now s) (fn_a f) name (fo_reg s)) as [d r'] eqn:E. cbn [fst snd] in *.
  assert (Hl : ∀ l : list (string * bool), launched_from r' <$> l = launched_from s.(fo_reg) <$> l).
  { intros l. apply list_fmap_ext. intros _ p _. unfold launched_from. by rewrite Hg. }
  assert (Hnone : d = None → r' = s.(fo_reg)).
  { intros ->. by apply admit_cases in E as [[-> _]|(? & _ & _ & _ & ? & _)]. }
  assert (Hrest : ∀ s1 new att sk, s1.(fo_now) = s.(fo_now) → s1.(fo_reg) = r' → s1.(fo_atts) = s.(fo_atts) ++ new →
            s1.(fo_fans) = [fan_next att sk f] →
            let out := admit_all s.(fo_now) f.(fn_a) names r' in
            ∃ s', exec_all (repeat (Admit 0) (length names)) s1 = Some s' ∧ s'.(fo_now) = s.(fo_now) ∧ s'.(fo_reg) = out.2
              ∧ s'.(fo_atts) = s.(fo_atts) ++ (new ++ (launched_from s.(fo_reg) <$> out.1.1))
              ∧ s'.(fo_fans) = [MkFanout f.(fn_a) f.(fn_route) [] (f.(fn_attempted) + (att + length out.1.1))
                                  (f.(fn_skipped) + (sk + out.1.2)) f.(fn_succeeded) f.(fn_result)]).
  { intros s1 new att sk Hn1 Hr1 Ha1 Hf1. destruct (IH s1 (fan_next att sk f)) as (s' & Hs' & Hn & Hr & Ha & Hfs);
      [done|by simpl; rewrite Hnm|]. rewrite Hn1, Hr1 in *. exists s'.
    split_and!; try done; [by rewrite Ha, Ha1, Hl, <- app_assoc|]. rewrite Hfs. simpl. by rewrite !Nat.add_assoc. }
  destruct d as [[probe|]|].
  - destruct probe; apply (Hrest _ [_] 1%nat 0%nat); try done; by simpl; rewrite Hf.
  - apply (Hrest _ [] 0%nat 1%nat); rewrite ?app_nil_r; try done; by simpl; rewrite Hf.
  - apply (Hrest _ [] 0%nat 0%nat); rewrite ?app_nil_r; try done; [by rewrite Hnone|by simpl; rewrite Hf].
Qed.

Lemma attempts_alone out later l s f r0 :
  s.(fo_now) = later → s.(fo_fans) = [f] → s.(fo_atts) = (launched_from r0 <$> l) → (∀ n, guarded_by n s.(fo_reg) = guarded_by n r0) →
  ∃ cs s', exec_all cs s = Some s' ∧ s'.(fo_atts) = []
    ∧ s'.(fo_fans) = [Nat.iter (length (filter (λ p : string * bool, outcome_ok (out p.1) = true) l)) fan_succeed f]
    ∧ s'.(fo_reg) = fold_left (λ r p, finish later p.1 p.2 (out p.1) r) l s.(fo_reg).
Proof.
  revert s f. induction l as [|[n p] l IH]; intros s f Hn Hf Ha Hg; [by exists [], s|].
  destruct (attempt_alone (out n) (launched_from r0 (n, p)) s (launched_from r0 <$> l) f) as (cs & s1 & Hcs & Ha1 & Hn1 & Hf1 & Hr1);
    [done..|by simpl; rewrite Hg|].
  destruct (IH s1 _ ltac:(congruence) Hf1 Ha1) as (cs' & s' & Hcs' & Ha' & Hf' & Hr').
  { intros m. by rewrite Hr1, finish_guarded. }
  exists (cs ++ cs'), s'. rewrite exec_all_app, Hcs. split_and!; [done|done| |].
  - rewrite Hf'. f_equal. rewrite filter_cons. cbn [fst]. destruct (outcome_ok (out n)).
    + rewrite decide_True by done. symmetry. apply Nat.iter_succ_r.
    + by rewrite decide_False.
  - rewrite Hr', Hr1. cbn. by rewrite Hn.
Qed.

Lemma iter_succeed k f :
  Nat.iter k fan_succeed f = MkFanout f.(fn_a) f.(fn_route) f.(fn_names) f.(fn_attempted) f.(fn_skipped) (k + f.(fn_succeeded)) f.(fn_result).
Proof. induction k as [|k IH]; [by destruct f|]. simpl. by rewrite IH. Qed.

(** [Sinks.Dispatch] is one of the interleavings: a fan-out that runs alone admits its sinks,
    its attempts end one after the other, and it returns what [Dispatch] returns and leaves the
    breakers as [Dispatch] leaves them. In particular a fan-out can always be run to its end. *)
Lemma Dispatch_is_a_run now later out a names r :
  now <= later →
  ∃ cs s, exec_all cs (started now r) = Some s ∧ s.(fo_atts) = []
    ∧ s.(fo_reg) = (Dispatch now later out a names r).2
    ∧ (fn_result <$> s.(fo_fans)) = [Some (Dispatch now later out a names r).1].
Proof.
  intros Hle. set (f0 := MkFanout a names names 0 0 0 None).
  destruct (admit_alone names (set_fans [f0] (started now r)) f0) as (s1 & H1 & Hn1 & Hr1 & Ha1 & Hf1); [done..|].
  simpl in Hn1, Hr1, Ha1, Hf1. unfold Dispatch.
  set (s2 := MkFanouts later s1.(fo_reg) s1.(fo_fans) s1.(fo_atts) s1.(fo_log) s1.(fo_fates) s1.(fo_probes) s1.(fo_tests) s1.(fo_reads)).
  destruct (attempts_alone out later (admit_all now a names r).1.1 s2 _ r eq_refl Hf1 Ha1) as (cs & s3 & H3 & Ha3 & Hf3 & Hr3).
  { intros n. simpl. rewrite Hr1. clear. revert r. induction names as [|name names IH]; intros r; [done|].
    rewrite admit_all_cons. cbn [snd]. by rewrite IH, admit_guarded. }
  exists (Call a names :: repeat (Admit 0) (length names) ++ Tick later :: cs ++ [Return 0]).
  rewrite iter_succeed in Hf3. simpl in Hf3. match type of Hf3 with _ = [?x] => set (f3 := x) in Hf3 end.
  exists (set_fans [fan_return f3] s3).
  assert (Hret : exec_all [Return 0] s3 = Some (set_fans [fan_return f3] s3)).
  { cbn [exec_all exec]. rewrite Hf3, Ha3. done. }
  split; [|split_and!; [done| |]].
  - cbn [exec_all exec mbind option_bind]. change (set_fans _ (started now r)) with (set_fans [f0] (started now r)).
    rewrite exec_all_app, H1. cbn [exec_all exec mbind option_bind]. rewrite Hn1, (proj2 (Z.leb_le _ _) Hle). cbn [mbind option_bind].
    rewrite exec_all_app. unfold s2 in H3. rewrite H3. exact Hret.
  - simpl. rewrite Hr3. simpl. rewrite Hr1. by destruct (admit_all now a names r) as [[? ?] ?].
  - simpl. destruct (admit_all now a names r) as [[atts sk] r']. simpl. by rewrite Nat.add_0_r.
Qed.

(** * Concrete instances *)

Definition example_sinks : Registry := registry_Add "slack" (λ _, true) NewRegistry.

(** The whole life of one attempt of the fan-out [i] that is alone in flight. *)
Definition attempt_commands (i : nat) (o : outcome) (acts : nat) : list command :=
  [Call example_alert ["slack"]; Admit i; Start 0; Outcome 0 o] ++ repeat (Act 0) acts ++ [Exit 0; Return i].

(** The command list runs and ends in a reachable state. *)
Lemma exec_all_reach now r l s s' : freach now r s → exec_all l s = Some s' → freach now r s'.
Proof.
  revert s. induction l as [|c l IH]; intros s Hs H; simpl in H; [by simplify_eq|].
  destruct (exec c s) as [s1|] eqn:E; [|done]. apply (IH s1); [by eapply freach_exec|done].
Qed.

Definition five_failures : list command :=
  [0; 1; 2; 3; 4]%nat ≫= λ i, attempt_commands i (Sent false Second) 7.
Definition run_from_start (l : list command) : fanouts :=
  default (started 0 example_sinks) (exec_all l (started 0 example_sinks)).
Lemma run_reach l : freach 0 example_sinks (run_from_start l).
Proof.
  unfold run_from_start. destruct (exec_all l _) as [s|] eqn:E; [|constructor].
  eapply exec_all_reach; [constructor|exact E].
Qed.

Lemma fanout_accounts_witness :
  let s := run_from_start (five_failures ++ [Call example_alert ["slack"; "teams"]; Admit 5; Admit 5; Return 5]) in
  (fn_result <$> s.(fo_fans) !! 5%nat) = Some (Some false)
  ∧ ((λ e, e.1.2) <$> fates_of 5 s ≡ₚ ["slack"])
  ∧ s.(fo_log) ≡ₚ (s.(fo_fates) ≫= fate_samples) ++ (s.(fo_tests) ≫= test_samples) ++ (read_sample <$> s.(fo_reads))
  ∧ (λ x, x.1.1) <$> s.(fo_reads) = ["slack"; "slack"; "slack"; "slack"; "slack"].
Proof.
  intros s. split; [vm_compute; reflexivity|].
  pose proof (fanout_accounts 0 example_sinks s (run_reach _)) as (Hfan & Hlog & _).
  split; [|split; [apply Hlog; vm_compute; reflexivity|vm_compute; reflexivity]].
  destruct (Hfan 5%nat (MkFanout example_alert ["slack"; "teams"] [] 0 1 0 (Some false)) false) as [H _];
    [vm_compute; reflexivity|reflexivity|exact H].
Defined.

Lemma example_sinks_new n b : example_sinks.(rg_breakers) !! n = Some b → b = newBreaker.
Proof.
  change (rg_breakers example_sinks) with (<["slack" := newBreaker]> ∅ : gmap string breaker).
  intros [[_ <-]|[_ H]]%lookup_insert_Some; [done|by rewrite lookup_empty in H].
Qed.

Definition two_probes : list command :=
  five_failures ++ [Tick (30 * Second)] ++ attempt_commands 5 RateLimited 5
  ++ [Tick (60 * Second); Call example_alert ["slack"]; Admit 6; Start 0].

Lemma fanouts_share_breakers_witness :
  let s := run_from_start two_probes in
  s.(fo_probes) = [("slack", 60 * Second); ("slack", 30 * Second)] ∧ StronglySorted spaced s.(fo_probes)
  ∧ ∃ t, t ∈ s.(fo_atts) ∧ holds_probe "slack" t.
Proof.
  intros s. split; [vm_compute; reflexivity|].
  pose proof (fanouts_share_breakers 0 example_sinks s example_sinks_new (run_reach _)) as [Hb Hsp]. split; [exact Hsp|].
  apply (proj1 (Hb "slack" (MkBreaker 6 0 breakerHalfOpen (60 * Second)) ltac:(vm_compute; reflexivity))).
  reflexivity.
Defined.

(** The breaker's gauge is written only after an attempt or a refusal: with no alert for the
    sink it goes on saying open after the breaker stopped refusing. *)
Example gauge_goes_stale :
  let s := run_from_start (five_failures ++ [Tick Hour]) in
  s.(fo_atts) = []
  ∧ (breaker_Open s.(fo_now) <$> s.(fo_reg).(rg_breakers) !! "slack") = Some false
  ∧ last (List.filter (λ m, match m with Gauged _ _ _ => true | _ => false end) s.(fo_log)) = Some (breaker_gauge "slack" true).
Proof. vm_compute. split_and!; reflexivity. Qed.
