(* ===== verification/Dispatcher.v ===== *)
(** * internal/app: the delivery worker pool, its outbox and the dead-letter ring

    Models internal/app/{dispatcher,dispatcher_outbox,deadletter}.go. The executable
    operations are functions; the concurrent program is the step relation [dstep], whose steps
    are the critical sections of the code: a producer between [pendingAdd] and [submit] is in
    [d_submitting], one parked on a full queue (holding that queue's lock) in [w_parked], a
    retry timer in [d_timers], a job on a worker in [w_inflight]. The logs [w_pushed],
    [w_done], [d_dropped] and [d_settled] are history the theorems speak about; the code does
    not read them. *)
From stdpp Require Import sorting.
From S2P Require Import Prelude GoStd AlertModel SilenceStore AlertStore Shard.

Definition defaultDispatchWorkers : Z := 16.
Definition defaultDispatchQueueSize : Z := 2048.
Definition maxResolveRetries : Z := 3.

(** [onFail] is [None] for nil; the closures the program builds all roll back one
    fingerprint. *)
Record dispatchJob := MkJob {
  j_id : Z;
  j_a : Alert;
  j_route : list string;
  j_onFail : option string;
  j_retries : Z;
}.

(** One worker with its queue. *)
Record worker := MkWorker {
  w_queue : list dispatchJob;
  w_parked : option dispatchJob;
  w_draining : bool;
  w_inflight : option dispatchJob;
  w_pushed : list dispatchJob;
  w_done : list (dispatchJob * bool);
}.

Inductive fate := Delivered | RolledBack | DeadLettered.

Record dispatcher := MkDispatcher {
  d_workers : list worker;
  d_cap : nat;
  d_stop : bool;
  d_closed : bool;
  d_nextID : Z;
  d_pending : gmap Z PendingDelivery;
  d_pendingGen : Z;
  d_submitting : list dispatchJob;
  d_timers : list dispatchJob;
  d_dropped : list dispatchJob;
  d_settled : list (Z * fate);
}.

Definition idle_worker : worker := MkWorker [] None false None [] [].

Definition newDispatcher (workers queueSize : Z) : dispatcher :=
  let workers := if workers <=? 0 then defaultDispatchWorkers else workers in
  let queueSize := if queueSize <=? 0 then defaultDispatchQueueSize else queueSize in
  let perQueue := queueSize / workers in
  let perQueue := if perQueue <? 1 then 1 else perQueue in
  MkDispatcher (replicate (Z.to_nat workers) idle_worker) (Z.to_nat perQueue) false false 0 ∅ 0 [] [] [] [].

Definition queueIndex (a : Alert) (d : dispatcher) : nat :=
  let key := if streq a.(a_Fingerprint) "" then shardKey a else a.(a_Fingerprint) in
  Z.to_nat (fnv32a key mod Z.of_nat (length d.(d_workers))).

Definition queuedTotal (d : dispatcher) : nat := foldr (λ w n, (length w.(w_queue) + n)%nat) 0%nat d.(d_workers).

(** ** Field updates *)

Definition set_workers v d := MkDispatcher v d.(d_cap) d.(d_stop) d.(d_closed) d.(d_nextID) d.(d_pending) d.(d_pendingGen) d.(d_submitting) d.(d_timers) d.(d_dropped) d.(d_settled).
Definition set_pending v gen d := MkDispatcher d.(d_workers) d.(d_cap) d.(d_stop) d.(d_closed) d.(d_nextID) v gen d.(d_submitting) d.(d_timers) d.(d_dropped) d.(d_settled).
Definition set_submitting v d := MkDispatcher d.(d_workers) d.(d_cap) d.(d_stop) d.(d_closed) d.(d_nextID) d.(d_pending) d.(d_pendingGen) v d.(d_timers) d.(d_dropped) d.(d_settled).
Definition set_timers v d := MkDispatcher d.(d_workers) d.(d_cap) d.(d_stop) d.(d_closed) d.(d_nextID) d.(d_pending) d.(d_pendingGen) d.(d_submitting) v d.(d_dropped) d.(d_settled).
Definition set_dropped v d := MkDispatcher d.(d_workers) d.(d_cap) d.(d_stop) d.(d_closed) d.(d_nextID) d.(d_pending) d.(d_pendingGen) d.(d_submitting) d.(d_timers) v d.(d_settled).
Definition set_settled v d := MkDispatcher d.(d_workers) d.(d_cap) d.(d_stop) d.(d_closed) d.(d_nextID) d.(d_pending) d.(d_pendingGen) d.(d_submitting) d.(d_timers) d.(d_dropped) v.
Definition set_nextID v d := MkDispatcher d.(d_workers) d.(d_cap) d.(d_stop) d.(d_closed) v d.(d_pending) d.(d_pendingGen) d.(d_submitting) d.(d_timers) d.(d_dropped) d.(d_settled).
Definition set_stop v d := MkDispatcher d.(d_workers) d.(d_cap) v d.(d_closed) d.(d_nextID) d.(d_pending) d.(d_pendingGen) d.(d_submitting) d.(d_timers) d.(d_dropped) d.(d_settled).
Definition set_closed v d := MkDispatcher d.(d_workers) d.(d_cap) d.(d_stop) v d.(d_nextID) d.(d_pending) d.(d_pendingGen) d.(d_submitting) d.(d_timers) d.(d_dropped) d.(d_settled).

(** ** Outbox *)

Definition pendingAdd (id : Z) (a : Alert) (route : list string) (d : dispatcher) : dispatcher :=
  set_pending (<[id := MkPending id (Some (CloneWithoutDetails a)) route]> d.(d_pending)) (incr64 d.(d_pendingGen)) d.

Definition pendingDone (id : Z) (d : dispatcher) : dispatcher :=
  match d.(d_pending) !! id with
  | Some _ => set_pending (delete id d.(d_pending)) (incr64 d.(d_pendingGen)) d
  | None => d
  end.

Definition by_id (a b : PendingDelivery) : Prop := a.(pd_ID) <= b.(pd_ID).
#[global] Instance by_id_dec a b : Decision (by_id a b).
Proof. unfold by_id. apply _. Defined.

Definition PendingSnapshot `{MapRange} (d : dispatcher) : list PendingDelivery :=
  merge_sort by_id (range d.(d_pending)).*2.

Definition PendingGeneration (d : dispatcher) : Z := d.(d_pendingGen).

(** ** Operations *)

(** The part of [enqueue] before [submit]; an empty route is a no-op. *)
Definition enqueue (a : Alert) (route : list string) (onFail : option string) (d : dispatcher) : dispatcher :=
  match route with
  | [] => d
  | _ =>
    let a := Clone a in
    let id := incr64 d.(d_nextID) in
    let d := pendingAdd id a route (set_nextID id d) in
    set_submitting (d.(d_submitting) ++ [MkJob id a route onFail 0]) d
  end.

(** The critical section of [submit]: pushed, dropped, or parked on a full queue. *)
Definition drop_job (j : dispatchJob) (d : dispatcher) : dispatcher := set_dropped (d.(d_dropped) ++ [j]) d.

Definition push_job (j : dispatchJob) (w : worker) : worker :=
  MkWorker (w.(w_queue) ++ [j]) w.(w_parked) w.(w_draining) w.(w_inflight) (w.(w_pushed) ++ [j]) w.(w_done).

Definition park_job (j : option dispatchJob) (w : worker) : worker :=
  MkWorker w.(w_queue) j w.(w_draining) w.(w_inflight) w.(w_pushed) w.(w_done).

Definition submit (j : dispatchJob) (d : dispatcher) : dispatcher :=
  if d.(d_closed) then drop_job j d
  else
    let i := queueIndex j.(j_a) d in
    match d.(d_workers) !! i with
    | None => d (* unreachable: the index is below the number of queues *)
    | Some w =>
      if w.(w_draining) then drop_job j d
      else if (length w.(w_queue) <? d.(d_cap))%nat
      then set_workers (<[i := push_job j w]> d.(d_workers)) d
      else set_workers (<[i := park_job (Some j) w]> d.(d_workers)) d
    end.

(** The second [select] of a parked producer: a freed slot, or [stop]. *)
Definition unpark_push (i : nat) (j : dispatchJob) (w : worker) (d : dispatcher) : dispatcher :=
  set_workers (<[i := push_job j (park_job None w)]> d.(d_workers)) d.

Definition unpark_drop (i : nat) (j : dispatchJob) (w : worker) (d : dispatcher) : dispatcher :=
  drop_job j (set_workers
    (<[i := MkWorker w.(w_queue) None true w.(w_inflight) w.(w_pushed) w.(w_done)]> d.(d_workers)) d).

(** [scheduleResolveRetry]: the job goes to a timer with its count incremented. *)
Definition scheduleResolveRetry (j : dispatchJob) (d : dispatcher) : dispatcher :=
  set_timers (d.(d_timers) ++ [MkJob j.(j_id) j.(j_a) j.(j_route) j.(j_onFail) (j.(j_retries) + 1)]) d.

Definition settle_as (f : fate) (id : Z) (d : dispatcher) : dispatcher :=
  set_settled (d.(d_settled) ++ [(id, f)]) (pendingDone id d).

Definition settle (j : dispatchJob) (delivered : bool) (d : dispatcher) : dispatcher :=
  if delivered then settle_as Delivered j.(j_id) d
  else match j.(j_onFail) with
       | Some _ => settle_as RolledBack j.(j_id) d
       | None =>
         if j.(j_a).(a_Resolved) && (j.(j_retries) <? maxResolveRetries)
         then scheduleResolveRetry j d
         else settle_as DeadLettered j.(j_id) d
       end.

(** A worker takes the head of its queue, and finishes the delivery. *)
Definition take_job (j : dispatchJob) (rest : list dispatchJob) (w : worker) : worker :=
  MkWorker rest w.(w_parked) w.(w_draining) (Some j) w.(w_pushed) w.(w_done).

Definition finish_job (j : dispatchJob) (delivered : bool) (w : worker) : worker :=
  MkWorker w.(w_queue) w.(w_parked) w.(w_draining) None w.(w_pushed) (w.(w_done) ++ [(j, delivered)]).

Definition unblockProducers (d : dispatcher) : dispatcher := set_stop true d.

(** [Shutdown] up to closing the queues; it waits for every producer inside [submit]. *)
Definition close_queues (d : dispatcher) : dispatcher := set_closed true d.

(** [ReplayPending]: the records it re-enqueues, in order, with their rollback. *)
Definition replayable (owns : option (Alert → bool)) (rollback : bool) (rec : PendingDelivery)
  : option (Alert * list string * option string) :=
  match rec.(pd_Alert), rec.(pd_Route) with
  | Some a, _ :: _ =>
    if match owns with Some f => negb (f a) | None => false end then None
    else
      let onFail := if rollback && negb a.(a_Resolved) && negb a.(a_Event)
                       && negb (streq (default "" (a.(a_Labels) !! "alertkube-grouped")) "true")
                       && negb (streq a.(a_Fingerprint) "")
                    then Some a.(a_Fingerprint) else None in
      Some (a, rec.(pd_Route), onFail)
  | _, _ => None
  end.

Definition ReplayPending (recs : list PendingDelivery) (owns : option (Alert → bool)) (rollback : bool)
    (d : dispatcher) : nat * dispatcher :=
  let jobs := omap (replayable owns rollback) (merge_sort by_id recs) in
  (length jobs, fold_left (λ d p, enqueue p.1.1 p.1.2 p.2 d) jobs d).

(** ** deadletter.go *)

Definition deadLetterCap : nat := 100.

Record deadLetterEntry := MkEntry {
  dl_Fingerprint : string; dl_Kind : string; dl_Namespace : string; dl_Name : string;
  dl_Reason : string; dl_Resolved : bool; dl_At : time }.

Definition deadletter_Record (now : time) (a : Alert) (entries : list deadLetterEntry) : list deadLetterEntry :=
  keep_last deadLetterCap
    (entries ++ [MkEntry a.(a_Fingerprint) a.(a_Kind) a.(a_Namespace) a.(a_Name) a.(a_Reason) a.(a_Resolved) now]).

Definition deadletter_List (entries : list deadLetterEntry) : list deadLetterEntry := entries.

(** ** The concurrent program *)

Inductive dstep : dispatcher → dispatcher → Prop :=
  | step_enqueue d a route onFail :
      d.(d_nextID) + 1 < 2 ^ 64 → (* fewer than 2^64 deliveries *)
      dstep d (enqueue a route onFail d)
  | step_submit d pre j post :
      d.(d_submitting) = pre ++ j :: post →
      (∀ w, d.(d_workers) !! queueIndex j.(j_a) d = Some w → w.(w_parked) = None) → (* the queue's lock is free *)
      dstep d (submit j (set_submitting (pre ++ post) d))
  | step_unpark_push d i w j :
      d.(d_workers) !! i = Some w → w.(w_parked) = Some j → (length w.(w_queue) < d.(d_cap))%nat →
      dstep d (unpark_push i j w d)
  | step_unpark_drop d i w j :
      d.(d_workers) !! i = Some w → w.(w_parked) = Some j → d.(d_stop) = true →
      dstep d (unpark_drop i j w d)
  | step_take d i w j rest :
      d.(d_workers) !! i = Some w → w.(w_inflight) = None → w.(w_queue) = j :: rest →
      dstep d (set_workers (<[i := take_job j rest w]> d.(d_workers)) d)
  | step_settle d i w j delivered :
      d.(d_workers) !! i = Some w → w.(w_inflight) = Some j →
      dstep d (settle j delivered (set_workers (<[i := finish_job j delivered w]> d.(d_workers)) d))
  | step_timer d pre j post :
      d.(d_timers) = pre ++ j :: post →
      dstep d (set_submitting (d.(d_submitting) ++ [j]) (set_timers (pre ++ post) d))
  | step_stop d : dstep d (unblockProducers d)
  | step_close d :
      d.(d_stop) = true → (∀ i w, d.(d_workers) !! i = Some w → w.(w_parked) = None) →
      dstep d (close_queues d).

Inductive dreach (n size : Z) : dispatcher → Prop :=
  | dreach_new : dreach n size (newDispatcher n size)
  | dreach_step d d' : dreach n size d → dstep d d' → dreach n size d'.

(** ** Invariant *)

(** Jobs a worker's queue is responsible for, and all jobs without a terminal outcome. *)
Definition w_live (w : worker) : list dispatchJob :=
  option_list w.(w_parked) ++ option_list w.(w_inflight) ++ w.(w_queue).

Definition live (d : dispatcher) : list dispatchJob :=
  d.(d_submitting) ++ d.(d_timers) ++ d.(d_dropped) ++ concat (w_live <$> d.(d_workers)).

Definition outbox_record (j : dispatchJob) : PendingDelivery :=
  MkPending j.(j_id) (Some (CloneWithoutDetails j.(j_a))) j.(j_route).

(** What holds of one worker at index [i] of [n]. *)
Record worker_ok (d : dispatcher) (i : nat) (w : worker) : Prop := {
  wk_fifo : w.(w_pushed) = w.(w_done).*1 ++ option_list w.(w_inflight) ++ w.(w_queue);
  wk_affine : ∀ j, j ∈ w.(w_pushed) ∨ w.(w_parked) = Some j → queueIndex j.(j_a) d = i;
  wk_cap : (length w.(w_queue) <= d.(d_cap))%nat;
}.

Record dinv (d : dispatcher) : Prop := {
  dv_ids : (j_id <$> live d) ++ d.(d_settled).*1 ≡ₚ seqZ 1 d.(d_nextID);
  dv_range : 0 <= d.(d_nextID) < 2 ^ 64;
  dv_pending : ∀ id r, d.(d_pending) !! id = Some r ↔ ∃ j, j ∈ live d ∧ j.(j_id) = id ∧ r = outbox_record j;
  dv_workers : ∀ i w, d.(d_workers) !! i = Some w → worker_ok d i w;
  dv_some : (0 < length d.(d_workers))%nat;
}.

(** Replacing one worker replaces its live jobs. *)
Lemma workers_live_split (ws : list worker) i w :
  ws !! i = Some w → ∃ rest, concat (w_live <$> ws) ≡ₚ w_live w ++ rest
    ∧ ∀ w', concat (w_live <$> <[i := w']> ws) ≡ₚ w_live w' ++ rest.
Proof.
  intros Hi. exists (concat (w_live <$> (take i ws ++ drop (S i) ws))).
  assert (Hmid : ∀ w', concat (w_live <$> (take i ws ++ w' :: drop (S i) ws))
                       ≡ₚ w_live w' ++ concat (w_live <$> (take i ws ++ drop (S i) ws))).
  { intros w'. rewrite !fmap_app, !concat_app, fmap_cons. cbn [concat].
    rewrite !app_assoc. apply Permutation_app_tail. by rewrite Permutation_app_comm. }
  split.
  - rewrite <- (take_drop_middle ws i w Hi) at 1. apply Hmid.
  - intros w'. rewrite insert_take_drop by (by eapply lookup_lt_Some). apply Hmid.
Qed.

Lemma queueIndex_length a d d' : length d'.(d_workers) = length d.(d_workers) → queueIndex a d' = queueIndex a d.
Proof. unfold queueIndex. by intros ->. Qed.

Lemma queueIndex_lt a d : (0 < length d.(d_workers))%nat → (queueIndex a d < length d.(d_workers))%nat.
Proof.
  intros Hl. unfold queueIndex. apply Nat2Z.inj_lt. rewrite Z2Nat.id; [apply Z.mod_pos_bound; lia|].
  apply Z.mod_pos_bound. lia.
Qed.

(** A step that only moves jobs about keeps the invariant. *)
Lemma dinv_moves d d' :
  dinv d → live d' ≡ₚ live d → d'.(d_settled) = d.(d_settled) → d'.(d_nextID) = d.(d_nextID) →
  d'.(d_pending) = d.(d_pending) → length d'.(d_workers) = length d.(d_workers) →
  (∀ i w, d'.(d_workers) !! i = Some w → worker_ok d' i w) → dinv d'.
Proof.
  intros [Hids Hr Hp Hw Hs] Hl Hset Hid Hpen Hlen Hw'. split; [|by rewrite Hid| |done|by rewrite Hlen].
  - by rewrite Hl, Hset, Hid.
  - intros id r. rewrite Hpen, Hp. by setoid_rewrite Hl.
Qed.

(** Worker facts survive a change elsewhere and an update of the worker itself. *)
Lemma workers_ok_update d d' i w' :
  length d'.(d_workers) = length d.(d_workers) → d'.(d_cap) = d.(d_cap) →
  d'.(d_workers) = <[i := w']> d.(d_workers) →
  (∀ k w, d.(d_workers) !! k = Some w → worker_ok d k w) → worker_ok d i w' →
  ∀ k w, d'.(d_workers) !! k = Some w → worker_ok d' k w.
Proof.
  intros Hlen Hcap Hws Hall Hi k w Hk. rewrite Hws in Hk.
  assert (Hok : worker_ok d k w).
  { destruct (decide (i = k)) as [->|Hne].
    - rewrite list_lookup_insert_eq in Hk; [by simplify_eq|].
      rewrite <- Hlen, Hws, length_insert. apply lookup_lt_Some in Hk. by rewrite length_insert in Hk.
    - rewrite list_lookup_insert_ne in Hk by done. by apply Hall. }
  destruct Hok as [H1 H2 H3]. split; [done| |by rewrite Hcap].
  intros j Hj. rewrite (queueIndex_length _ d) by done. by apply H2.
Qed.

Lemma workers_ok_same d d' :
  d'.(d_workers) = d.(d_workers) → d'.(d_cap) = d.(d_cap) →
  (∀ k w, d.(d_workers) !! k = Some w → worker_ok d k w) →
  ∀ k w, d'.(d_workers) !! k = Some w → worker_ok d' k w.
Proof.
  intros Hws Hcap Hall k w Hk. rewrite Hws in Hk. destruct (Hall k w Hk) as [H1 H2 H3].
  split; [done| |by rewrite Hcap]. intros j Hj. rewrite (queueIndex_length _ d) by (by rewrite Hws). by apply H2.
Qed.

Lemma live_unique d j j' : dinv d → j ∈ live d → j' ∈ live d → j.(j_id) = j'.(j_id) → j = j'.
Proof.
  intros Hd Hj Hj' E.
  assert (Hnd : NoDup (j_id <$> live d)).
  { assert (Hn : NoDup ((j_id <$> live d) ++ (d_settled d).*1)) by (rewrite (dv_ids d Hd); apply NoDup_seqZ).
    by apply NoDup_app in Hn as [? _]. }
  apply list_elem_of_lookup in Hj as [i Hi], Hj' as [k Hk].
  assert (i = k) as ->; [|by simplify_eq].
  eapply (NoDup_lookup _ i k (j_id j)); [done|by rewrite list_lookup_fmap, Hi|by rewrite list_lookup_fmap, Hk; simpl; rewrite E].
Qed.

(** ** Preservation *)

Lemma dinv_new n size : dinv (newDispatcher n size).
Proof.
  set (m := if n <=? 0 then defaultDispatchWorkers else n).
  assert (Hm : 0 < m) by (unfold m, defaultDispatchWorkers; destruct (Z.leb_spec n 0); lia).
  assert (Hlive : live (newDispatcher n size) = []).
  { unfold live. simpl. generalize (Z.to_nat (if n <=? 0 then defaultDispatchWorkers else n)).
    intros k. induction k as [|k IH]; [done|]. rewrite replicate_S, fmap_cons. done. }
  split.
  - rewrite Hlive. done.
  - simpl. lia.
  - intros id r. rewrite Hlive. simpl. rewrite lookup_empty. split; [done|].
    intros (j & Hj & _). by apply elem_of_nil in Hj.
  - intros i w Hi. unfold newDispatcher in Hi. simpl in Hi. apply lookup_replicate in Hi as [-> _].
    split; [done| |simpl; lia]. intros j [Hj|Hj]; [by apply elem_of_nil in Hj|done].
  - unfold newDispatcher. fold m. simpl. rewrite length_replicate. lia.
Qed.

Lemma dinv_enqueue a route onFail d :
  d.(d_nextID) + 1 < 2 ^ 64 → dinv d → dinv (enqueue a route onFail d).
Proof.
  intros Hlt Hd. unfold enqueue. destruct route as [|s route]; [done|].
  pose proof (dv_range d Hd) as Hr.
  assert (Hid : incr64 (d_nextID d) = d_nextID d + 1) by (unfold incr64; rewrite Z.mod_small; lia).
  rewrite Hid. set (j := MkJob (d_nextID d + 1) a (s :: route) onFail 0).
  set (d' := set_submitting _ _).
  assert (Hl : live d' ≡ₚ j :: live d).
  { subst d'. unfold live. simpl. rewrite <- app_assoc. simpl. by rewrite <- Permutation_middle. }
  assert (Hfresh : ∀ k, k ∈ live d → j_id k ≠ d_nextID d + 1).
  { intros k Hk E. assert (Hin : j_id k ∈ seqZ 1 (d_nextID d)).
    { rewrite <- (dv_ids d Hd). apply elem_of_app. left. apply list_elem_of_fmap. eauto. }
    apply elem_of_seqZ in Hin. lia. }
  split.
  - rewrite Hl, fmap_cons. change (d_nextID d') with (d_nextID d + 1). change (d_settled d') with (d_settled d).
    rewrite seqZ_app by lia. rewrite <- (dv_ids d Hd).
    change (seqZ (1 + d_nextID d) 1) with [1 + d_nextID d]. rewrite <- Permutation_cons_append.
    by replace (1 + d_nextID d) with (d_nextID d + 1) by lia.
  - change (d_nextID d') with (d_nextID d + 1). lia.
  - intros id r. change (d_pending d') with (<[d_nextID d + 1 := outbox_record j]> (d_pending d)).
    setoid_rewrite Hl. setoid_rewrite elem_of_cons. destruct (decide (id = d_nextID d + 1)) as [->|Hne].
    + rewrite lookup_insert_eq. split; [intros [= <-]; exists j; auto|].
      intros (k & [->|Hk] & Ek & ->); [done|]. by apply Hfresh in Hk.
    + rewrite lookup_insert_ne by done. rewrite (dv_pending d Hd). split.
      * intros (k & Hk & Ek & ->). exists k. auto.
      * intros (k & [->|Hk] & Ek & ->); [by simpl in Ek|]. exists k. auto.
  - apply (workers_ok_same d); [done|done|apply (dv_workers d Hd)].
  - apply (dv_some d Hd).
Qed.

Lemma dinv_submit pre j post d :
  d.(d_submitting) = pre ++ j :: post →
  (∀ w, d.(d_workers) !! queueIndex j.(j_a) d = Some w → w.(w_parked) = None) →
  dinv d → dinv (submit j (set_submitting (pre ++ post) d)).
Proof.
  intros Hsub Hlock Hd. unfold submit. set (d0 := set_submitting (pre ++ post) d).
  assert (Hl0 : live d ≡ₚ j :: live d0).
  { unfold live. rewrite Hsub. simpl. solve_Permutation. }
  assert (Hdrop : dinv (drop_job j d0)).
  { apply (dinv_moves d); try done.
    - rewrite Hl0. unfold live. simpl. solve_Permutation.
    - apply (workers_ok_same d); [done|done|apply (dv_workers d Hd)]. }
  destruct (d_closed d0); [done|].
  assert (Hi : d_workers d0 = d_workers d) by done.
  assert (Hq : queueIndex (j_a j) d0 = queueIndex (j_a j) d) by (by apply queueIndex_length).
  rewrite Hq, Hi. destruct (d_workers d !! queueIndex (j_a j) d) as [w|] eqn:Ew.
  2:{ apply lookup_ge_None in Ew. pose proof (queueIndex_lt (j_a j) d (dv_some d Hd)). lia. }
  destruct (w_draining w); [done|]. specialize (Hlock w eq_refl).
  destruct (dv_workers d Hd _ _ Ew) as [Hfifo Haff Hcap].
  destruct (workers_live_split _ _ _ Ew) as (rest & Hrest & Hupd).
  destruct (Nat.ltb_spec (length (w_queue w)) (d_cap d0)) as [Hlt|Hge].
  - apply (dinv_moves d); try done.
    + rewrite Hl0. unfold live. simpl. rewrite Hupd, Hrest. unfold w_live. simpl. rewrite Hlock. simpl.
      solve_Permutation.
    + simpl. by rewrite length_insert.
    + apply (workers_ok_update d _ (queueIndex (j_a j) d) (push_job j w)); simpl; [by rewrite length_insert|done|done|apply (dv_workers d Hd)|].
      split; simpl.
      * by rewrite Hfifo, <- !app_assoc.
      * intros k [[Hk|Hk]%elem_of_app|Hk]; [apply Haff; by left| |apply Haff; by right].
        by apply list_elem_of_singleton in Hk as ->.
      * rewrite length_app. simpl in *. lia.
  - apply (dinv_moves d); try done.
    + rewrite Hl0. unfold live. simpl. rewrite Hupd, Hrest. unfold w_live. simpl. rewrite Hlock. simpl.
      solve_Permutation.
    + simpl. by rewrite length_insert.
    + apply (workers_ok_update d _ (queueIndex (j_a j) d) (park_job (Some j) w)); simpl; [by rewrite length_insert|done|done|apply (dv_workers d Hd)|].
      split; simpl; [done| |done]. intros k [Hk|Hk]; [apply Haff; by left|by simplify_eq].
Qed.

(** A step that replaces worker [i] and leaves the other fields to [d1]. *)
Lemma dinv_worker_move d d' i w w' extra :
  dinv d → d.(d_workers) !! i = Some w → worker_ok d i w' →
  d'.(d_workers) = <[i := w']> d.(d_workers) → d'.(d_cap) = d.(d_cap) →
  d'.(d_settled) = d.(d_settled) → d'.(d_nextID) = d.(d_nextID) → d'.(d_pending) = d.(d_pending) →
  d'.(d_submitting) ++ d'.(d_timers) ++ d'.(d_dropped) ≡ₚ extra ++ d.(d_submitting) ++ d.(d_timers) ++ d.(d_dropped) →
  extra ++ w_live w' ≡ₚ w_live w →
  dinv d'.
Proof.
  intros Hd Hi Hw' Hws Hcap Hset Hid Hpen Hrest Hl.
  destruct (workers_live_split _ _ _ Hi) as (rest & Hr & Hupd).
  apply (dinv_moves d); [done| |done|done|done|by rewrite Hws, length_insert|].
  - unfold live. rewrite Hws, Hupd, Hr, <- Hl.
    transitivity ((d_submitting d' ++ d_timers d' ++ d_dropped d') ++ w_live w' ++ rest); [solve_Permutation|].
    rewrite Hrest. solve_Permutation.
  - apply (workers_ok_update d _ i w'); [by rewrite Hws, length_insert|done|done|apply (dv_workers d Hd)|done].
Qed.

Lemma dinv_unpark_push d i w j :
  d.(d_workers) !! i = Some w → w.(w_parked) = Some j → (length w.(w_queue) < d.(d_cap))%nat →
  dinv d → dinv (unpark_push i j w d).
Proof.
  intros Hi Hp Hlt Hd. destruct (dv_workers d Hd _ _ Hi) as [Hfifo Haff Hcap].
  apply (dinv_worker_move d _ i w (push_job j (park_job None w)) []); try done.
  - split; simpl.
    + by rewrite Hfifo, <- !app_assoc.
    + intros k [[Hk|Hk]%elem_of_app|Hk]; [apply Haff; by left| |done].
      apply list_elem_of_singleton in Hk as ->. apply Haff. by right.
    + rewrite length_app. simpl. lia.
  - unfold w_live. simpl. rewrite Hp. simpl. solve_Permutation.
Qed.

Lemma dinv_unpark_drop d i w j :
  d.(d_workers) !! i = Some w → w.(w_parked) = Some j → dinv d → dinv (unpark_drop i j w d).
Proof.
  intros Hi Hp Hd. destruct (dv_workers d Hd _ _ Hi) as [Hfifo Haff Hcap].
  apply (dinv_worker_move d _ i w (MkWorker (w_queue w) None true (w_inflight w) (w_pushed w) (w_done w)) [j]); try done.
  - split; simpl; [done| |done]. intros k [Hk|Hk]; [apply Haff; by left|done].
  - simpl. solve_Permutation.
  - unfold w_live. simpl. by rewrite Hp.
Qed.

Lemma dinv_take d i w j rest :
  d.(d_workers) !! i = Some w → w.(w_inflight) = None → w.(w_queue) = j :: rest →
  dinv d → dinv (set_workers (<[i := take_job j rest w]> d.(d_workers)) d).
Proof.
  intros Hi Hf Hq Hd. destruct (dv_workers d Hd _ _ Hi) as [Hfifo Haff Hcap].
  apply (dinv_worker_move d _ i w (take_job j rest w) []); try done.
  - split; simpl; [by rewrite Hfifo, Hf, Hq|done|]. rewrite Hq in Hcap. simpl in Hcap. lia.
  - unfold w_live. simpl. rewrite Hf, Hq. simpl. done.
Qed.

(** The worker side of a settlement. *)
Lemma finish_ok d i w j b :
  worker_ok d i w → w.(w_inflight) = Some j → worker_ok d i (finish_job j b w).
Proof.
  intros [Hfifo Haff Hcap] Hf. split; simpl; [|done|done].
  rewrite Hfifo, Hf, fmap_app. simpl. by rewrite <- app_assoc.
Qed.

Lemma dinv_settle_as d i w j b f :
  d.(d_workers) !! i = Some w → w.(w_inflight) = Some j → dinv d →
  dinv (settle_as f j.(j_id) (set_workers (<[i := finish_job j b w]> d.(d_workers)) d)).
Proof.
  intros Hi Hf Hd. set (d1 := set_workers _ d).
  destruct (workers_live_split _ _ _ Hi) as (rest & Hr & Hupd).
  assert (Hl : live d ≡ₚ j :: live d1).
  { unfold live. simpl. rewrite Hupd, Hr. unfold w_live. simpl. rewrite Hf. simpl. solve_Permutation. }
  assert (Hin : j ∈ live d) by (rewrite Hl; left).
  assert (Hp : d_pending d !! j_id j = Some (outbox_record j)) by (apply (dv_pending d Hd); eauto).
  assert (Hd1 : ∀ k, k ∈ live d1 → j_id k ≠ j_id j).
  { assert (Hn : NoDup ((j_id <$> live d) ++ (d_settled d).*1)) by (rewrite (dv_ids d Hd); apply NoDup_seqZ).
    rewrite Hl in Hn. apply NoDup_app in Hn as (Hn & _). rewrite fmap_cons in Hn. apply NoDup_cons in Hn as [Hn _].
    intros k Hk E. apply Hn. rewrite <- E. apply list_elem_of_fmap. eauto. }
  unfold settle_as, pendingDone. change (d_pending d1) with (d_pending d). rewrite Hp.
  split.
  - change (live _) with (live d1). change (d_nextID _) with (d_nextID d). rewrite <- (dv_ids d Hd), Hl. simpl.
    rewrite fmap_app. simpl. solve_Permutation.
  - apply (dv_range d Hd).
  - intros id r. change (live _) with (live d1). change (d_pending _) with (delete (j_id j) (d_pending d)).
    rewrite lookup_delete_Some, (dv_pending d Hd). setoid_rewrite Hl. setoid_rewrite elem_of_cons. split.
    + intros (Hne & k & [->|Hk] & Ek & ->); [done|]. eauto.
    + intros (k & Hk & <- & ->). split; [symmetry; by apply Hd1|]. exists k. auto.
  - apply (workers_ok_update d _ i (finish_job j b w)); simpl; [by rewrite length_insert|done|done|apply (dv_workers d Hd)|].
    apply finish_ok; [by apply (dv_workers d Hd)|done].
  - simpl. rewrite length_insert. apply (dv_some d Hd).
Qed.

Lemma dinv_retry d i w j b :
  d.(d_workers) !! i = Some w → w.(w_inflight) = Some j → dinv d →
  dinv (scheduleResolveRetry j (set_workers (<[i := finish_job j b w]> d.(d_workers)) d)).
Proof.
  intros Hi Hf Hd. set (d1 := set_workers _ d). unfold scheduleResolveRetry.
  set (j' := MkJob _ _ _ _ _).
  destruct (workers_live_split _ _ _ Hi) as (rest & Hr & Hupd).
  assert (Hl : live d ≡ₚ j :: live d1).
  { unfold live. simpl. rewrite Hupd, Hr. unfold w_live. simpl. rewrite Hf. simpl. solve_Permutation. }
  set (d2 := set_timers _ d1).
  assert (Hl2 : live d2 ≡ₚ j' :: live d1) by (unfold live; simpl; solve_Permutation).
  split.
  - rewrite Hl2. change (d_nextID _) with (d_nextID d). rewrite <- (dv_ids d Hd), Hl. done.
  - apply (dv_range d Hd).
  - intros id r. change (d_pending d2) with (d_pending d). rewrite (dv_pending d Hd).
    setoid_rewrite Hl. setoid_rewrite Hl2. setoid_rewrite elem_of_cons. split.
    + intros (k & [->|Hk] & Ek & ->); [exists j'; auto|eauto].
    + intros (k & [->|Hk] & Ek & ->); [exists j; auto|eauto].
  - apply (workers_ok_update d _ i (finish_job j b w)); simpl; [by rewrite length_insert|done|done|apply (dv_workers d Hd)|].
    apply finish_ok; [by apply (dv_workers d Hd)|done].
  - simpl. rewrite length_insert. apply (dv_some d Hd).
Qed.

Lemma dinv_step d d' : dstep d d' → dinv d → dinv d'.
Proof.
  intros [d0 a route onFail Hlt|d0 pre j post Hs Hlock|d0 i w j Hi Hp Hl|d0 i w j Hi Hp Hst|d0 i w j rest Hi Hf Hq
         |d0 i w j b Hi Hf|d0 pre j post Ht|d0|d0 Hst Hpk] Hd.
  - by apply dinv_enqueue.
  - by apply dinv_submit.
  - by apply dinv_unpark_push.
  - by apply dinv_unpark_drop.
  - by apply dinv_take.
  - unfold settle. destruct b; [by apply dinv_settle_as|]. destruct (j_onFail j); [by apply dinv_settle_as|].
    destruct (_ && _); [by apply dinv_retry|by apply dinv_settle_as].
  - apply (dinv_moves d0); try done.
    + unfold live. simpl. rewrite Ht. solve_Permutation.
    + apply (workers_ok_same d0); [done|done|apply (dv_workers _ Hd)].
  - apply (dinv_moves d0); try done. apply (workers_ok_same d0); [done|done|apply (dv_workers _ Hd)].
  - apply (dinv_moves d0); try done. apply (workers_ok_same d0); [done|done|apply (dv_workers _ Hd)].
Qed.

Lemma dreach_inv n size d : dreach n size d → dinv d.
Proof. induction 1 as [|d d' _ IH Hs]; [apply dinv_new|by apply (dinv_step d)]. Qed.

(** ** The outbox loses nothing *)

(** C2: In every interleaving of producers, workers, retry timers and shutdown, each of the
    delivery ids minted so far is in exactly one of two states: it is in the outbox, as the
    record of the one job that carries it (queued, in flight, waiting for a retry, parked or
    dropped by shutdown), or it left the outbox with exactly one terminal outcome. In
    particular every job a shutdown dropped is still in the outbox. *)
Theorem outbox_complete n size d :
  dreach n size d →
  (∀ id, 1 <= id <= d.(d_nextID) →
    (∃ j, j ∈ live d ∧ j.(j_id) = id ∧ d.(d_pending) !! id = Some (outbox_record j) ∧ id ∉ d.(d_settled).*1)
    ∨ (d.(d_pending) !! id = None ∧ ∃ pre f post, d.(d_settled) = pre ++ (id, f) :: post ∧ id ∉ pre.*1 ++ post.*1))
  ∧ (∀ j, j ∈ d.(d_dropped) → d.(d_pending) !! j.(j_id) = Some (outbox_record j)).
Proof.
  intros Hd%dreach_inv.
  assert (Hn : NoDup ((j_id <$> live d) ++ (d_settled d).*1)) by (rewrite (dv_ids d Hd); apply NoDup_seqZ).
  apply NoDup_app in Hn as (_ & Hdisj & Hns). split.
  - intros id Hid. assert (Hin : id ∈ seqZ 1 (d_nextID d)) by (apply elem_of_seqZ; lia).
    rewrite <- (dv_ids d Hd) in Hin. apply elem_of_app in Hin as [Hin|Hin].
    + left. pose proof (Hdisj id Hin). apply list_elem_of_fmap in Hin as (j & -> & Hj). exists j.
      split_and!; [done|done|by apply (dv_pending d Hd); eauto|done].
    + right. split.
      * destruct (d_pending d !! id) as [r|] eqn:E; [|done].
        apply (dv_pending d Hd) in E as (j & Hj & <- & _). exfalso. eapply Hdisj; [|exact Hin].
        apply list_elem_of_fmap. eauto.
      * apply list_elem_of_fmap in Hin as ([id' f] & -> & Hp). simpl.
        apply list_elem_of_split in Hp as (pre & post & E). exists pre, f, post. split; [done|].
        rewrite E, fmap_app, fmap_cons in Hns. simpl in Hns.
        rewrite <- Permutation_middle in Hns. by apply NoDup_cons in Hns as [? _].
  - intros j Hj. apply (dv_pending d Hd). exists j. split; [|done].
    unfold live. rewrite !elem_of_app. auto.
Qed.

Definition w_alert : Alert := with_Fingerprint "ab" zero_alert.

(** A run: one worker with one slot, two deliveries, the second parked and dropped at
    shutdown. *)
Definition run_d1 : dispatcher := enqueue w_alert ["slack"] (Some "ab") (newDispatcher 1 1).

Lemma outbox_complete_witness :
  run_d1.(d_pending) !! 1 = Some (outbox_record (MkJob 1 w_alert ["slack"] (Some "ab") 0)).
Proof.
  assert (Hr : dreach 1 1 run_d1).
  { refine (dreach_step 1 1 _ _ (dreach_new 1 1) _). apply step_enqueue. reflexivity. }
  destruct (proj1 (outbox_complete 1 1 run_d1 Hr) 1) as [(j & Hj & E & Hp & _)|[Hp _]].
  - vm_compute. split; discriminate.
  - rewrite Hp. vm_compute in Hj. apply list_elem_of_singleton in Hj as ->. reflexivity.
  - vm_compute in Hp. discriminate.
Defined.

(** ** Per-fingerprint order *)

Lemma queueIndex_fingerprint a b d :
  a.(a_Fingerprint) = b.(a_Fingerprint) → a.(a_Fingerprint) ≠ "" → queueIndex a d = queueIndex b d.
Proof.
  intros E Hne. unfold queueIndex. rewrite <- E. by rewrite (proj2 (streq_false _ _) Hne).
Qed.

(** C6: Deliveries for one fingerprint are never reordered: they all go through one worker,
    and that worker finishes them in the order they were accepted, so whatever was accepted
    before a finished delivery is finished too. Each queue stays within its capacity. *)
Theorem deliveries_in_order n size d i1 i2 w1 w2 p1 p2 j1 j2 :
  dreach n size d →
  d.(d_workers) !! i1 = Some w1 → d.(d_workers) !! i2 = Some w2 →
  w1.(w_pushed) !! p1 = Some j1 → w2.(w_pushed) !! p2 = Some j2 →
  j1.(j_a).(a_Fingerprint) = j2.(j_a).(a_Fingerprint) → j1.(j_a).(a_Fingerprint) ≠ "" →
  i1 = i2 ∧ w1 = w2 ∧ (length w1.(w_queue) <= d.(d_cap))%nat
  ∧ ((p1 <= p2)%nat → w2.(w_done).*1 !! p2 = Some j2 → w1.(w_done).*1 !! p1 = Some j1).
Proof.
  intros Hd%dreach_inv H1 H2 Hp1 Hp2 E Hne.
  destruct (dv_workers d Hd _ _ H1) as [Hf1 Ha1 Hc1], (dv_workers d Hd _ _ H2) as [Hf2 Ha2 Hc2].
  assert (i1 = i2) as ->.
  { rewrite <- (Ha1 j1), <- (Ha2 j2) by (left; by eapply list_elem_of_lookup_2). by apply queueIndex_fingerprint. }
  simplify_eq. split_and!; [done|done|done|]. intros Hle Hdone.
  apply lookup_lt_Some in Hdone. rewrite Hf1, lookup_app_l in Hp1 by lia. done.
Qed.

Definition run_d2 : dispatcher := submit (MkJob 1 w_alert ["slack"] (Some "ab") 0) (set_submitting ([] ++ []) run_d1).

Lemma deliveries_in_order_witness :
  let w := MkWorker [MkJob 1 w_alert ["slack"] (Some "ab") 0] None false None [MkJob 1 w_alert ["slack"] (Some "ab") 0] [] in
  run_d2.(d_workers) !! 0%nat = Some w ∧ (length w.(w_queue) <= run_d2.(d_cap))%nat.
Proof.
  intros w. assert (Hw : run_d2.(d_workers) !! 0%nat = Some w) by reflexivity. split; [exact Hw|].
  assert (Hr : dreach 1 1 run_d2).
  { refine (dreach_step 1 1 run_d1 run_d2 (dreach_step 1 1 _ _ (dreach_new 1 1) _) _).
    - apply step_enqueue. reflexivity.
    - refine (step_submit run_d1 [] _ [] eq_refl _). intros w' Hw'. vm_compute in Hw'. by simplify_eq. }
  refine (proj1 (proj2 (proj2 (deliveries_in_order 1 1 run_d2 0 0 w w 0 0 _ _ Hr Hw Hw eq_refl eq_refl eq_refl _)))).
  discriminate.
Defined.

(** ** A drop freezes its queue *)

(** The queue of worker [i] accepts nothing any more. *)
Definition frozen (d : dispatcher) (i : nat) : Prop :=
  d.(d_closed) = true ∨ ∃ w, d.(d_workers) !! i = Some w ∧ w.(w_draining) = true.

Record drain_inv (d : dispatcher) : Prop := {
  dr_parked : ∀ i w j, d.(d_workers) !! i = Some w → w.(w_parked) = Some j → ¬ frozen d i;
  dr_dropped : ∀ j, j ∈ d.(d_dropped) → frozen d (queueIndex j.(j_a) d);
}.

Definition pushed_at (d : dispatcher) (i : nat) : list dispatchJob :=
  match d.(d_workers) !! i with Some w => w.(w_pushed) | None => [] end.

(** What a step that updates at most worker [i] must satisfy. *)
Lemma update_lookup (ws : list worker) i w w' k v :
  ws !! i = Some w → <[i := w']> ws !! k = Some v → (k = i ∧ v = w') ∨ (k ≠ i ∧ ws !! k = Some v).
Proof.
  intros Hi Hk. destruct (decide (k = i)) as [->|Hne].
  - rewrite list_lookup_insert_eq in Hk by (by eapply lookup_lt_Some). left. by simplify_eq.
  - rewrite list_lookup_insert_ne in Hk by done. by right.
Qed.

Lemma frozen_update d d' i w w' :
  d.(d_workers) !! i = Some w → d'.(d_workers) = <[i := w']> d.(d_workers) → d'.(d_closed) = d.(d_closed) →
  w'.(w_draining) = w.(w_draining) → ∀ k, frozen d' k ↔ frozen d k.
Proof.
  intros Hi Hws Hc Hdr k. unfold frozen. rewrite Hws, Hc. apply or_iff_compat_l. split.
  - intros (v & Hv & Ed). apply (update_lookup _ _ _ _ _ _ Hi) in Hv as [[-> ->]|[_ Hv]]; [|eauto].
    exists w. by rewrite <- Hdr.
  - intros (v & Hv & Ed). destruct (decide (k = i)) as [->|Hne].
    + exists w'. rewrite list_lookup_insert_eq by (by eapply lookup_lt_Some). split; [done|]. simplify_eq. congruence.
    + exists v. by rewrite list_lookup_insert_ne.
Qed.

(** A step that keeps the drain flags, the dropped jobs and the producers' places. *)
Lemma drain_keep d d' i w w' :
  drain_inv d → d.(d_workers) !! i = Some w → d'.(d_workers) = <[i := w']> d.(d_workers) →
  d'.(d_closed) = d.(d_closed) → d'.(d_dropped) = d.(d_dropped) → w'.(w_draining) = w.(w_draining) →
  (∀ j, w'.(w_parked) = Some j → w.(w_parked) = Some j ∨ ¬ frozen d i) →
  drain_inv d'.
Proof.
  intros [Hp Hdr] Hi Hws Hc Hdp Hw Hpk. pose proof (frozen_update d d' i w w' Hi Hws Hc Hw) as Hf. split.
  - intros k v j Hk Hj. rewrite Hf. rewrite Hws in Hk.
    apply (update_lookup _ _ _ _ _ _ Hi) in Hk as [[-> ->]|[_ Hk]]; [|by eapply Hp].
    destruct (Hpk j Hj) as [Hq|Hq]; [by eapply Hp|done].
  - intros j Hj. rewrite Hf. rewrite (queueIndex_length _ d) by (by rewrite Hws, length_insert).
    apply Hdr. by rewrite <- Hdp.
Qed.

Lemma drain_same d d' :
  drain_inv d → d'.(d_workers) = d.(d_workers) → d'.(d_closed) = d.(d_closed) →
  (∀ j, j ∈ d'.(d_dropped) → j ∈ d.(d_dropped) ∨ frozen d (queueIndex j.(j_a) d)) → drain_inv d'.
Proof.
  intros [Hp Hdr] Hws Hc Hdp.
  assert (Hf : ∀ k, frozen d' k ↔ frozen d k) by (intros k; unfold frozen; by rewrite Hws, Hc). split.
  - intros k v j Hk Hj. rewrite Hf. rewrite Hws in Hk. by eapply Hp.
  - intros j Hj. rewrite Hf, (queueIndex_length _ d) by (by rewrite Hws). destruct (Hdp j Hj); auto.
Qed.

Lemma drop_frozen d j : drain_inv d → frozen d (queueIndex j.(j_a) d) → drain_inv (drop_job j d).
Proof.
  intros Hd Hf. apply (drain_same d); [done|done|done|]. simpl. intros k [Hk|Hk]%elem_of_app; [by left|].
  apply list_elem_of_singleton in Hk as ->. by right.
Qed.

Lemma drain_submit j d : drain_inv d → drain_inv (submit j d).
Proof.
  intros Hd. unfold submit. destruct (d_closed d) eqn:Ec; [apply drop_frozen; [done|by left]|].
  destruct (d_workers d !! queueIndex (j_a j) d) as [w|] eqn:Ew; [|done].
  destruct (w_draining w) eqn:Edr; [apply drop_frozen; [done|right; eauto]|].
  assert (Hnf : ¬ frozen d (queueIndex (j_a j) d)).
  { intros [H|(v & Hv & Hdr)]; congruence. }
  destruct (_ <? _)%nat; by (eapply (drain_keep d); eauto).
Qed.

Lemma drain_unpark_drop d i w j :
  d.(d_workers) !! i = Some w → w.(w_parked) = Some j → queueIndex j.(j_a) d = i →
  drain_inv d → drain_inv (unpark_drop i j w d).
Proof.
  intros Hi Hpk Hq [Hp Hdr]. unfold unpark_drop. set (w' := MkWorker _ _ _ _ _ _).
  set (d1 := drop_job j _).
  assert (Hf : ∀ k, frozen d k → frozen d1 k).
  { intros k [Hc|(v & Hv & Ed)]; [by left|]. right. destruct (decide (k = i)) as [->|Hne].
    - exists w'. simpl. by rewrite list_lookup_insert_eq by (by eapply lookup_lt_Some).
    - exists v. simpl. by rewrite list_lookup_insert_ne. }
  assert (Hfi : frozen d1 i).
  { right. exists w'. simpl. by rewrite list_lookup_insert_eq by (by eapply lookup_lt_Some). }
  split.
  - intros k v jj Hk Hj. simpl in Hk. apply (update_lookup _ _ _ _ _ _ Hi) in Hk as [[-> ->]|[Hne Hk]]; [done|].
    intros [Hc|(u & Hu & Ed)]; [apply (Hp k v jj Hk Hj); by left|].
    simpl in Hu. rewrite list_lookup_insert_ne in Hu by done. apply (Hp k v jj Hk Hj). right. eauto.
  - intros jj Hj. rewrite (queueIndex_length _ d) by (simpl; by rewrite length_insert).
    simpl in Hj. apply elem_of_app in Hj as [Hj|Hj]; [by apply Hf, Hdr|].
    apply list_elem_of_singleton in Hj as ->. by rewrite Hq.
Qed.

Lemma drain_settle j b d : drain_inv d → drain_inv (settle j b d).
Proof.
  intros Hd. assert (Has : ∀ f, drain_inv (settle_as f (j_id j) d)).
  { intros f. unfold settle_as, pendingDone. apply (drain_same d); [done|..]; case_match; auto. }
  unfold settle. destruct b; [done|]. destruct (j_onFail j); [done|]. destruct (_ && _); [|done].
  apply (drain_same d); auto.
Qed.

Lemma drain_step d d' : dinv d → dstep d d' → drain_inv d → drain_inv d'.
Proof.
  intros Hinv Hs Hd.
  destruct Hs as [d0 a route onFail Hlt|d0 pre j post Hs Hlock|d0 i w j Hi Hp Hl|d0 i w j Hi Hp Hst|d0 i w j rest Hi Hf Hq
         |d0 i w j b Hi Hf|d0 pre j post Ht|d0|d0 Hst Hpk].
  - unfold enqueue. destruct route; [done|]. apply (drain_same d0); auto.
  - apply drain_submit. apply (drain_same d0); auto.
  - eapply (drain_keep d0); eauto. done.
  - apply drain_unpark_drop; [done|done|apply (wk_affine _ _ _ (dv_workers _ Hinv _ _ Hi)); by right|done].
  - eapply (drain_keep d0); eauto.
  - apply drain_settle. eapply (drain_keep d0); eauto.
  - apply (drain_same d0); auto.
  - apply (drain_same d0); auto.
  - split; [|intros j Hj; by left]. intros i w j Hi Hj. simpl in Hi. by rewrite (Hpk i w Hi) in Hj.
Qed.

Lemma dreach_drain n size d : dreach n size d → drain_inv d.
Proof.
  induction 1 as [|d d' Hr IH Hs]; [|by eapply drain_step; [eapply dreach_inv| |]].
  split; [|intros j Hj; by apply elem_of_nil in Hj].
  intros i w j Hi Hj. unfold newDispatcher in Hi. simpl in Hi. apply lookup_replicate in Hi as [-> _]. done.
Qed.

(** A step that updates one worker leaves the accepted deliveries of a frozen queue alone. *)
Lemma frozen_keep d d' i w w' k :
  d.(d_workers) !! i = Some w → d'.(d_workers) = <[i := w']> d.(d_workers) → d'.(d_closed) = d.(d_closed) →
  (frozen d i → w'.(w_pushed) = w.(w_pushed)) → (w.(w_draining) = true → w'.(w_draining) = true) →
  frozen d k → frozen d' k ∧ pushed_at d' k = pushed_at d k.
Proof.
  intros Hi Hws Hc Hpu Hdr Hf. assert (Hlt : (i < length (d_workers d))%nat) by (by eapply lookup_lt_Some).
  unfold pushed_at. rewrite Hws. destruct (decide (k = i)) as [->|Hne].
  - rewrite list_lookup_insert_eq, Hi by done. split; [|by apply Hpu].
    destruct Hf as [Hf|(v & Hv & Ed)]; [left; congruence|]. right. exists w'.
    rewrite Hws, list_lookup_insert_eq by done. simplify_eq. auto.
  - rewrite list_lookup_insert_ne by done. split; [|done].
    destruct Hf as [Hf|(v & Hv & Ed)]; [left; congruence|]. right. exists v.
    by rewrite Hws, list_lookup_insert_ne.
Qed.

Lemma frozen_same d d' k :
  d'.(d_workers) = d.(d_workers) → (d.(d_closed) = true → d'.(d_closed) = true) →
  frozen d k → frozen d' k ∧ pushed_at d' k = pushed_at d k.
Proof.
  intros Hws Hc Hf. unfold pushed_at, frozen. rewrite Hws. split; [|done]. destruct Hf as [Hf|Hf]; auto.
Qed.

Lemma frozen_submit j d k : frozen d k → frozen (submit j d) k ∧ pushed_at (submit j d) k = pushed_at d k.
Proof.
  intros Hf. unfold submit. destruct (d_closed d) eqn:Ec; [by apply frozen_same|].
  destruct (d_workers d !! queueIndex (j_a j) d) as [w|] eqn:Ew; [|done].
  destruct (w_draining w) eqn:Edr; [by apply frozen_same|].
  assert (Hnf : ¬ frozen d (queueIndex (j_a j) d)) by (intros [H|(v & Hv & Hdr)]; congruence).
  destruct (_ <? _)%nat; by (eapply (frozen_keep d); eauto).
Qed.

Lemma frozen_settle j b d k : frozen d k → frozen (settle j b d) k ∧ pushed_at (settle j b d) k = pushed_at d k.
Proof.
  intros Hf. assert (Has : ∀ f, frozen (settle_as f (j_id j) d) k ∧ pushed_at (settle_as f (j_id j) d) k = pushed_at d k).
  { intros f. unfold settle_as, pendingDone. apply frozen_same; [..|done]; by case_match. }
  unfold settle. destruct b; [done|]. destruct (j_onFail j); [done|]. destruct (_ && _); [|done].
  by apply frozen_same.
Qed.

Lemma frozen_step d d' k :
  drain_inv d → dstep d d' → frozen d k → frozen d' k ∧ pushed_at d' k = pushed_at d k.
Proof.
  intros Hd Hs Hk.
  destruct Hs as [d0 a route onFail Hlt|d0 pre j post Hs Hlock|d0 i w j Hi Hp Hl|d0 i w j Hi Hp Hst|d0 i w j rest Hi Hf Hq
         |d0 i w j b Hi Hf|d0 pre j post Ht|d0|d0 Hst Hpk].
  - unfold enqueue. destruct route; [done|]. by apply frozen_same.
  - by apply (frozen_submit j (set_submitting (pre ++ post) d0) k).
  - eapply (frozen_keep d0); eauto. intros Hfi. by destruct (dr_parked _ Hd _ _ _ Hi Hp).
  - eapply (frozen_keep d0); eauto; done.
  - eapply (frozen_keep d0); eauto.
  - eapply (frozen_keep d0 (set_workers (<[i:=finish_job j b w]> (d_workers d0)) d0)) in Hk as [Hk E]; eauto.
    destruct (frozen_settle j b _ _ Hk) as [Hk2 E2]. by rewrite E2.
  - by apply frozen_same.
  - by apply frozen_same.
  - by apply frozen_same.
Qed.

(** Once a shutdown has dropped a delivery into the outbox, its queue accepts nothing
    more, in any continuation: no later delivery for the same queue (a RESOLVE behind its
    dropped FIRE) can be sent ahead of it, and replaying the outbox by id keeps the order. *)
Theorem drop_is_final n size d d' j :
  dreach n size d → j ∈ d.(d_dropped) → rtc dstep d d' →
  pushed_at d' (queueIndex j.(j_a) d) = pushed_at d (queueIndex j.(j_a) d).
Proof.
  intros Hr Hj Hs. pose proof (dr_dropped _ (dreach_drain _ _ _ Hr) j Hj) as Hf.
  revert Hf. generalize (queueIndex (j_a j) d). clear Hj. intros k Hf.
  induction Hs as [|d d1 d2 H1 _ IH]; [done|].
  destruct (frozen_step d d1 k (dreach_drain _ _ _ Hr) H1 Hf) as [Hf1 E]. rewrite <- E.
  apply IH; [by eapply dreach_step|done].
Qed.

(** The queue closed, then one more submission. *)
Definition run_d3 : dispatcher := close_queues (unblockProducers run_d1).
Definition run_d4 : dispatcher := submit (MkJob 1 w_alert ["slack"] (Some "ab") 0) (set_submitting ([] ++ []) run_d3).

Lemma drop_is_final_witness :
  run_d4.(d_dropped) = [MkJob 1 w_alert ["slack"] (Some "ab") 0]
  ∧ pushed_at (enqueue w_alert ["slack"] None run_d4) 0 = pushed_at run_d4 0.
Proof.
  split; [reflexivity|].
  assert (Hr : dreach 1 1 run_d4).
  { refine (dreach_step 1 1 run_d3 run_d4 (dreach_step 1 1 (unblockProducers run_d1) _ (dreach_step 1 1 run_d1 _
      (dreach_step 1 1 _ _ (dreach_new 1 1) _) (step_stop run_d1)) (step_close (unblockProducers run_d1) eq_refl _)) (step_submit run_d3 [] _ [] eq_refl _)).
    - apply step_enqueue. reflexivity.
    - intros [|i] w Hw; vm_compute in Hw; by simplify_eq.
    - intros w Hw. vm_compute in Hw. by simplify_eq. }
  refine (drop_is_final 1 1 run_d4 _ (MkJob 1 w_alert ["slack"] (Some "ab") 0) Hr _ (rtc_once _ _ _)).
  - left.
  - apply step_enqueue. reflexivity.
Defined.

(** ** Bounded attempts *)

(** Finished attempts of all workers, and those of one delivery. *)
Definition finished (d : dispatcher) : list (dispatchJob * bool) := concat (w_done <$> d.(d_workers)).
Definition attempts (id : Z) (d : dispatcher) : nat :=
  length (filter (λ p : dispatchJob * bool, j_id p.1 = id) (finished d)).

Lemma finished_update (ws : list worker) i w w' extra :
  ws !! i = Some w → w'.(w_done) = w.(w_done) ++ extra →
  concat (w_done <$> <[i := w']> ws) ≡ₚ extra ++ concat (w_done <$> ws).
Proof.
  intros Hi E. rewrite insert_take_drop by (by eapply lookup_lt_Some).
  rewrite <- (take_drop_middle ws i w Hi) at 3. rewrite !fmap_app, !concat_app, !fmap_cons. simpl.
  rewrite E. solve_Permutation.
Qed.

(** How a step changes the live jobs and the finished attempts. *)
Inductive effect (d d' : dispatcher) : Prop :=
  | eff_none : live d' ≡ₚ live d → finished d' ≡ₚ finished d → d'.(d_nextID) = d.(d_nextID) → effect d d'
  | eff_new j : j.(j_id) = d.(d_nextID) + 1 → j.(j_retries) = 0 → j.(j_route) ≠ [] → live d' ≡ₚ j :: live d →
      finished d' ≡ₚ finished d → d'.(d_nextID) = d.(d_nextID) + 1 → effect d d'
  | eff_settled j b : j ∈ live d → j :: live d' ≡ₚ live d →
      finished d' ≡ₚ (j, b) :: finished d → d'.(d_nextID) = d.(d_nextID) → effect d d'
  | eff_retry j b j' : j :: live d' ≡ₚ j' :: live d → j ∈ live d →
      j'.(j_id) = j.(j_id) → j'.(j_retries) = j.(j_retries) + 1 → j.(j_retries) < maxResolveRetries →
      j.(j_a).(a_Resolved) = true → j'.(j_a) = j.(j_a) → j'.(j_route) = j.(j_route) →
      finished d' ≡ₚ (j, b) :: finished d → d'.(d_nextID) = d.(d_nextID) → effect d d'.

Lemma effect_submit pre j post d :
  d.(d_submitting) = pre ++ j :: post → (0 < length d.(d_workers))%nat →
  (∀ w, d.(d_workers) !! queueIndex j.(j_a) d = Some w → w.(w_parked) = None) →
  effect d (submit j (set_submitting (pre ++ post) d)).
Proof.
  intros Hsub Hlen Hlock. unfold submit. set (d0 := set_submitting (pre ++ post) d).
  assert (Hl0 : live d ≡ₚ j :: live d0) by (unfold live; rewrite Hsub; simpl; solve_Permutation).
  assert (Hdrop : effect d (drop_job j d0)).
  { apply eff_none; [|done|done]. rewrite Hl0. unfold live. simpl. solve_Permutation. }
  destruct (d_closed d0); [done|]. change (d_workers d0) with (d_workers d).
  rewrite (queueIndex_length (j_a j) d d0) by done.
  destruct (d_workers d !! queueIndex (j_a j) d) as [w|] eqn:Ew.
  2:{ apply lookup_ge_None in Ew. pose proof (queueIndex_lt (j_a j) d Hlen). lia. }
  destruct (w_draining w); [done|]. specialize (Hlock w eq_refl).
  destruct (workers_live_split _ _ _ Ew) as (rest & Hrest & Hupd).
  destruct (_ <? _)%nat; (apply eff_none; [|apply (finished_update _ _ w _ []); [done|by rewrite app_nil_r]|done]);
    rewrite Hl0; unfold live; simpl; rewrite Hupd, Hrest; unfold w_live; simpl; rewrite Hlock; simpl; solve_Permutation.
Qed.

Lemma effect_settle d i w j b :
  d.(d_workers) !! i = Some w → w.(w_inflight) = Some j →
  effect d (settle j b (set_workers (<[i := finish_job j b w]> d.(d_workers)) d)).
Proof.
  intros Hi Hf. set (d1 := set_workers _ d).
  destruct (workers_live_split _ _ _ Hi) as (rest & Hr & Hupd).
  assert (Hl : live d ≡ₚ j :: live d1).
  { unfold live. simpl. rewrite Hupd, Hr. unfold w_live. simpl. rewrite Hf. simpl. solve_Permutation. }
  assert (Hin : j ∈ live d) by (rewrite Hl; left).
  assert (Hfin : finished d1 ≡ₚ (j, b) :: finished d) by (by apply (finished_update _ _ w _ [(j, b)])).
  assert (Has : ∀ f, effect d (settle_as f (j_id j) d1)).
  { intros f. apply (eff_settled _ _ j b); [done|rewrite Hl|..]; unfold settle_as, pendingDone; by case_match. }
  unfold settle. destruct b; [done|]. destruct (j_onFail j) eqn:Eo; [done|].
  destruct (a_Resolved (j_a j)) eqn:Er; simpl; [|apply Has].
  destruct (Z.ltb_spec (j_retries j) maxResolveRetries); [|apply Has].
  apply (eff_retry _ _ j false (MkJob (j_id j) (j_a j) (j_route j) None (j_retries j + 1))); try done.
  rewrite Hl. unfold scheduleResolveRetry, live. rewrite Eo. simpl. solve_Permutation.
Qed.

Lemma dstep_effect d d' : dinv d → dstep d d' → effect d d'.
Proof.
  intros Hd Hs.
  destruct Hs as [d0 a route onFail Hlt|d0 pre j post Hs Hlock|d0 i w j Hi Hp Hl|d0 i w j Hi Hp Hst|d0 i w j rest Hi Hf Hq
         |d0 i w j b Hi Hf|d0 pre j post Ht|d0|d0 Hst Hpk].
  - unfold enqueue. destruct route as [|s route]; [by apply eff_none|].
    assert (Hid : incr64 (d_nextID d0) = d_nextID d0 + 1).
    { pose proof (dv_range _ Hd). unfold incr64. rewrite Z.mod_small; lia. }
    rewrite Hid. apply (eff_new _ _ (MkJob (d_nextID d0 + 1) a (s :: route) onFail 0)); try done.
    unfold live. simpl. solve_Permutation.
  - apply effect_submit; [done|apply (dv_some _ Hd)|done].
  - destruct (workers_live_split _ _ _ Hi) as (rest & Hr & Hupd).
    apply eff_none; [|apply (finished_update _ _ w _ []); [done|by rewrite app_nil_r]|done].
    unfold live. simpl. rewrite Hupd, Hr. unfold w_live. simpl. rewrite Hp. simpl. solve_Permutation.
  - destruct (workers_live_split _ _ _ Hi) as (rest & Hr & Hupd).
    apply eff_none; [|apply (finished_update _ _ w _ []); [done|by rewrite app_nil_r]|done].
    unfold live. simpl. rewrite Hupd, Hr. unfold w_live. simpl. rewrite Hp. simpl. solve_Permutation.
  - destruct (workers_live_split _ _ _ Hi) as (rest' & Hr & Hupd).
    apply eff_none; [|apply (finished_update _ _ w _ []); [done|by rewrite app_nil_r]|done].
    unfold live. simpl. rewrite Hupd, Hr. unfold w_live. simpl. rewrite Hf, Hq. simpl. solve_Permutation.
  - by apply effect_settle.
  - apply eff_none; [|done|done]. unfold live. simpl. rewrite Ht. solve_Permutation.
  - by apply eff_none.
  - by apply eff_none.
Qed.

Record retry_inv (d : dispatcher) : Prop := {
  rt_live : ∀ j, j ∈ live d → 0 <= j.(j_retries) <= maxResolveRetries ∧ attempts j.(j_id) d = Z.to_nat j.(j_retries)
                             ∧ (0 < j.(j_retries) → j.(j_a).(a_Resolved) = true);
  rt_fresh : ∀ id, d.(d_nextID) < id → attempts id d = 0%nat;
  rt_bound : ∀ id, (attempts id d <= Z.to_nat maxResolveRetries + 1)%nat;
  rt_same : ∀ j b k, (j, b) ∈ finished d → k ∈ live d → j.(j_id) = k.(j_id) → j.(j_a) = k.(j_a);
  rt_fire : ∀ j b, (j, b) ∈ finished d → j.(j_a).(a_Resolved) = false → attempts j.(j_id) d = 1%nat;
}.

Lemma attempts_perm id d d' : finished d' ≡ₚ finished d → attempts id d' = attempts id d.
Proof. unfold attempts. by intros ->. Qed.

Lemma attempts_cons id j b d d' :
  finished d' ≡ₚ (j, b) :: finished d →
  attempts id d' = ((if decide (j_id j = id) then 1 else 0) + attempts id d)%nat.
Proof. unfold attempts. intros ->. rewrite filter_cons. simpl. by case_decide. Qed.

Lemma attempts_pos j b d : (j, b) ∈ finished d → (0 < attempts j.(j_id) d)%nat.
Proof.
  intros Hj. unfold attempts.
  assert (Hin : (j, b) ∈ filter (λ p : dispatchJob * bool, j_id p.1 = j_id j) (finished d)) by (by apply list_elem_of_filter).
  destruct (filter _ _); [by apply elem_of_nil in Hin|simpl; lia].
Qed.

(** An attempt on the live job [j], after which it is gone or replaced by [rest]. *)
Lemma retry_attempt d d' j b others rest :
  dinv d → retry_inv d → live d ≡ₚ j :: others → live d' ≡ₚ rest ++ others →
  (∀ k, k ∈ rest → k.(j_id) = j.(j_id) ∧ k.(j_retries) = j.(j_retries) + 1 ∧ k.(j_a) = j.(j_a)
        ∧ j.(j_retries) < maxResolveRetries ∧ j.(j_a).(a_Resolved) = true) →
  finished d' ≡ₚ (j, b) :: finished d → d'.(d_nextID) = d.(d_nextID) → retry_inv d'.
Proof.
  intros Hd [Hlive Hfresh Hbound Hsame Hfire] Hl Hl' Hrest Hfin Hid.
  assert (Hj : j ∈ live d) by (rewrite Hl; left). destruct (Hlive j Hj) as (Hr & Ha & Hres).
  assert (Hoth : ∀ k, k ∈ others → k ∈ live d ∧ j_id j ≠ j_id k).
  { assert (Hn : NoDup ((j_id <$> live d) ++ (d_settled d).*1)) by (rewrite (dv_ids d Hd); apply NoDup_seqZ).
    rewrite Hl in Hn. apply NoDup_app in Hn as (Hn & _). rewrite fmap_cons in Hn. apply NoDup_cons in Hn as [Hn _].
    intros k Hk. split; [rewrite Hl; by right|]. intros E. apply Hn. rewrite E. apply list_elem_of_fmap. eauto. }
  assert (Hatt : ∀ id, attempts id d' = ((if decide (j_id j = id) then 1 else 0) + attempts id d)%nat)
    by (intros id; by apply (attempts_cons id j b)).
  assert (Hself : ∀ k b', (k, b') ∈ finished d → j_id k = j_id j → j_a k = j_a j) by (intros; by eapply Hsame).
  split.
  - intros k. rewrite Hl'. intros [Hk|Hk]%elem_of_app; rewrite Hatt.
    + destruct (Hrest k Hk) as (Ek & Er & Ea & Hlt & Hrs). rewrite Ek, Er, Ea, decide_True by done.
      rewrite Ha. split_and!; [lia|lia|lia|done].
    + destruct (Hoth k Hk) as [Hkl Hne]. rewrite decide_False by done. by apply Hlive.
  - intros id. rewrite Hid, Hatt. intros Hlt. rewrite decide_False; [by apply Hfresh|].
    intros E. assert (Hin : j_id j ∈ seqZ 1 (d_nextID d)).
    { rewrite <- (dv_ids d Hd). apply elem_of_app. left. apply list_elem_of_fmap. eauto. }
    apply elem_of_seqZ in Hin. lia.
  - intros id. rewrite Hatt. destruct (decide (j_id j = id)) as [<-|]; [rewrite Ha; lia|apply Hbound].
  - intros k b' k'. rewrite Hfin, Hl'. intros [[= -> ->]|Hk]%elem_of_cons [Hk'|Hk']%elem_of_app Eid.
    + symmetry. by apply Hrest.
    + by destruct (Hoth k' Hk').
    + destruct (Hrest k' Hk') as (Ek & _ & -> & _). eapply Hself; [done|]. congruence.
    + eapply Hsame; [done| |done]. by apply Hoth.
  - intros k b'. rewrite Hfin, Hatt. intros [[= -> ->]|Hk]%elem_of_cons Hnr.
    + rewrite decide_True by done. destruct (decide (0 < j_retries j)) as [Hpos|Hz]; [by rewrite Hres in Hnr|]. lia.
    + rewrite decide_False; [by eapply Hfire|]. intros E. pose proof (attempts_pos _ _ _ Hk) as Hpos.
      rewrite (Hself k b' Hk (eq_sym E)), Hres in Hnr; [done|]. rewrite E in Ha. lia.
Qed.

Lemma retry_effect d d' : dinv d → effect d d' → retry_inv d → retry_inv d'.
Proof.
  intros Hd He Hr. destruct He as [Hl Hf Hid|j Ej Er Hro Hl Hf Hid|j b Hj Hl Hf Hid|j b j' Hl Hj Ei Er Hlt Hrs Ea Hro Hf Hid].
  - destruct Hr as [Hlive Hfresh Hbound Hsame Hfire]. split; setoid_rewrite Hf || idtac; setoid_rewrite Hl || idtac.
    + intros k Hk. rewrite (attempts_perm _ d) by done. by apply Hlive.
    + intros id. rewrite Hid, (attempts_perm _ d) by done. apply Hfresh.
    + intros id. rewrite (attempts_perm _ d) by done. apply Hbound.
    + done.
    + intros k b' Hk. rewrite (attempts_perm _ d) by done. by apply Hfire with b'.
  - destruct Hr as [Hlive Hfresh Hbound Hsame Hfire].
    assert (Hz : attempts (j_id j) d = 0%nat) by (apply Hfresh; lia). split.
    + intros k. rewrite Hl, (attempts_perm _ d) by done. intros [->|Hk]%elem_of_cons; [|by apply Hlive].
      rewrite Hz, Er. unfold maxResolveRetries. split_and!; [lia|lia|done|lia].
    + intros id. rewrite Hid, (attempts_perm _ d) by done. intros. apply Hfresh. lia.
    + intros id. rewrite (attempts_perm _ d) by done. apply Hbound.
    + intros k b' k'. rewrite Hf, Hl. intros Hk [->|Hk']%elem_of_cons E; [|by eapply Hsame].
      apply attempts_pos in Hk. rewrite E in Hk. lia.
    + intros k b'. rewrite Hf, (attempts_perm _ d) by done. by apply Hfire.
  - apply (retry_attempt d d' j b (live d') []); [done|done|done|done| |done|done]. intros k Hk. by apply elem_of_nil in Hk.
  - assert (∃ others, live d ≡ₚ j :: others) as [others Ho].
    { apply list_elem_of_split in Hj as (l1 & l2 & ->). exists (l1 ++ l2). by rewrite Permutation_middle. }
    apply (retry_attempt d d' j b others [j']); [done|done|done| | |done|done].
    + simpl. apply (Permutation_cons_inv (a := j)). rewrite Hl, Ho. apply perm_swap.
    + intros k ->%list_elem_of_singleton. auto.
Qed.

Lemma dreach_retry n size d : dreach n size d → retry_inv d.
Proof.
  induction 1 as [|d d' Hr IH Hs].
  - assert (Hl : live (newDispatcher n size) = []).
    { unfold live. simpl. by induction (Z.to_nat _). }
    assert (Hf : finished (newDispatcher n size) = []).
    { unfold finished. simpl. by induction (Z.to_nat _). }
    split; unfold attempts; rewrite ?Hl, ?Hf; simpl; try lia; intros; by apply elem_of_nil in H.
  - apply (retry_effect d); [by eapply dreach_inv| |done]. apply dstep_effect; [by eapply dreach_inv|done].
Qed.

(** Every live job has somewhere to go. *)
Lemma live_routes n size d : dreach n size d → ∀ j, j ∈ live d → j.(j_route) ≠ [].
Proof.
  induction 1 as [|d d' Hr IH Hs].
  - assert (Hl : live (newDispatcher n size) = []) by (unfold live; simpl; by induction (Z.to_nat _)).
    rewrite Hl. intros j Hj. by apply elem_of_nil in Hj.
  - destruct (dstep_effect d d' (dreach_inv _ _ _ Hr) Hs) as [Hl _ _|k Ek _ Hro Hl _ _|k b Hk Hl _ _|k b k' Hl Hk _ _ _ _ _ Hro _ _].
    + intros j. rewrite Hl. apply IH.
    + intros j. rewrite Hl. intros [->|Hj]%elem_of_cons; [done|by apply IH].
    + intros j Hj. apply IH. rewrite <- Hl. by right.
    + intros j Hj. assert (Hj' : j ∈ k' :: live d) by (rewrite <- Hl; by right).
      apply elem_of_cons in Hj' as [->|Hj']; [rewrite Hro; by apply IH|by apply IH].
Qed.

(** No delivery is attempted more than [maxResolveRetries + 1] times, in any
    interleaving, and one that is not a resolve is attempted at most once: a failed firing
    is never re-sent by the dispatcher itself. *)
Theorem attempts_bounded n size d :
  dreach n size d →
  (∀ id, (attempts id d <= Z.to_nat maxResolveRetries + 1)%nat)
  ∧ (∀ j delivered, (j, delivered) ∈ finished d → j.(j_a).(a_Resolved) = false → attempts j.(j_id) d = 1%nat).
Proof. intros Hr%dreach_retry. split; [apply (rt_bound _ Hr)|apply (rt_fire _ Hr)]. Qed.

Lemma attempts_bounded_witness : (attempts 1 run_d2 <= 4)%nat.
Proof.
  refine (proj1 (attempts_bounded 1 1 run_d2 _) 1).
  refine (dreach_step 1 1 run_d1 run_d2 (dreach_step 1 1 _ _ (dreach_new 1 1) _) (step_submit run_d1 [] _ [] eq_refl _)).
  - apply step_enqueue. reflexivity.
  - intros w Hw. vm_compute in Hw. by simplify_eq.
Defined.

(** ** Restart *)

Section replay.
Context `{MapRange}.

#[local] Instance by_id_trans : Transitive by_id.
Proof. unfold by_id. intros x y z. lia. Qed.
#[local] Instance by_id_total : Total by_id.
Proof. unfold by_id. intros x y. lia. Qed.

Lemma PendingSnapshot_perm (d : dispatcher) : PendingSnapshot d ≡ₚ (range d.(d_pending)).*2.
Proof. apply merge_sort_Permutation. Qed.

Lemma PendingSnapshot_In d r : dinv d → r ∈ PendingSnapshot d ↔ d.(d_pending) !! r.(pd_ID) = Some r.
Proof.
  intros Hd. rewrite PendingSnapshot_perm, list_elem_of_fmap. split.
  - intros ([id r'] & -> & Hr%range_In). simpl. pose proof Hr as Hr'.
    apply (dv_pending d Hd) in Hr' as (j & _ & <- & ->). done.
  - intros Hr. exists (pd_ID r, r). split; [done|]. by apply range_In.
Qed.

Lemma snapshot_unique d (l : list PendingDelivery) :
  dinv d → Sorted by_id l → l ≡ₚ (range d.(d_pending)).*2 → PendingSnapshot d = l.
Proof.
  intros Hd Hs Hp.
  assert (Hp' : PendingSnapshot d ≡ₚ l) by (by rewrite PendingSnapshot_perm, Hp).
  apply (Sorted_unique_strong by_id); [|apply (Sorted_merge_sort by_id)|done|done].
  intros r1 r2 H1 H2 Hle1 Hle2. rewrite <- Hp' in H2. apply PendingSnapshot_In in H1, H2; try done.
  assert (pd_ID r1 = pd_ID r2) as E by (unfold by_id in *; lia). rewrite E in H1. congruence.
Qed.

Lemma snapshot_enqueue a route onFail d :
  dinv d → d.(d_nextID) + 1 < 2 ^ 64 → route ≠ [] →
  PendingSnapshot (enqueue a route onFail d)
  = PendingSnapshot d ++ [MkPending (d.(d_nextID) + 1) (Some (CloneWithoutDetails a)) route].
Proof.
  intros Hd Hlt Hr. pose proof (dinv_enqueue a route onFail d Hlt Hd) as Hd'.
  assert (Hid : incr64 (d_nextID d) = d_nextID d + 1).
  { pose proof (dv_range d Hd). unfold incr64. rewrite Z.mod_small; lia. }
  assert (Hle : ∀ id r, d_pending d !! id = Some r → pd_ID r = id ∧ id <= d_nextID d).
  { intros id r (j & Hj & <- & ->)%(dv_pending d Hd). split; [done|].
    assert (Hin : j_id j ∈ seqZ 1 (d_nextID d)).
    { rewrite <- (dv_ids d Hd). apply elem_of_app. left. apply list_elem_of_fmap. eauto. }
    apply elem_of_seqZ in Hin. lia. }
  apply snapshot_unique; [done| |].
  - apply StronglySorted_Sorted, StronglySorted_app. split_and!.
    + intros r1 r2 H1 ->%list_elem_of_singleton. apply PendingSnapshot_In in H1; [|done].
      apply Hle in H1. unfold by_id. simpl. lia.
    + apply Sorted_StronglySorted; [apply _|apply (Sorted_merge_sort by_id)].
    + apply SSorted_cons; constructor.
  - destruct route as [|s route]; [done|]. simpl. rewrite Hid, PendingSnapshot_perm, !range_perm.
    rewrite map_to_list_insert; [by rewrite Permutation_app_comm|].
    destruct (d_pending d !! (d_nextID d + 1)) eqn:E; [|done]. apply Hle in E. lia.
Qed.

Abbreviation payload := (λ r : PendingDelivery, (r.(pd_Alert), r.(pd_Route))).

Lemma replay_fold (recs : list PendingDelivery) rollback d :
  dinv d → d.(d_nextID) + Z.of_nat (length recs) < 2 ^ 64 →
  (∀ r, r ∈ recs → ∃ a, r.(pd_Alert) = Some a ∧ CloneWithoutDetails a = a ∧ r.(pd_Route) ≠ []) →
  let jobs := omap (replayable None rollback) recs in
  length jobs = length recs
  ∧ payload <$> PendingSnapshot (fold_left (λ d p, enqueue p.1.1 p.1.2 p.2 d) jobs d)
    = (payload <$> PendingSnapshot d) ++ (payload <$> recs).
Proof.
  revert d. induction recs as [|r recs IH]; intros d Hd Hlt Hall; [simpl; by rewrite app_nil_r|].
  destruct (Hall r (list_elem_of_here _ _)) as (a & Ea & Ec & Hroute).
  destruct r as [rid ral rroute]. simpl in Ea, Hroute. subst ral. destruct rroute as [|s route]; [done|].
  simpl length in Hlt.
  assert (∃ f, replayable None rollback (MkPending rid (Some a) (s :: route)) = Some (a, s :: route, f)) as [f Ef] by (simpl; eauto).
  cbn [omap list_omap]. rewrite Ef. cbn zeta. cbn [fold_left fst snd].
  assert (Hlt1 : d_nextID d + 1 < 2 ^ 64) by lia.
  pose proof (dinv_enqueue a (s :: route) f d Hlt1 Hd) as Hd'.
  destruct (IH (enqueue a (s :: route) f d)) as [Hlen Hsnap]; [done| |by intros; apply Hall; right|].
  - simpl. unfold incr64. rewrite Z.mod_small; [lia|]. pose proof (dv_range d Hd). lia.
  - split; [simpl; f_equal; exact Hlen|]. refine (eq_trans Hsnap _). rewrite snapshot_enqueue by done.
    rewrite !fmap_app. rewrite <- app_assoc. simpl. by rewrite Ec.
Qed.

Lemma PendingSnapshot_length (d : dispatcher) : dinv d → Z.of_nat (length (PendingSnapshot d)) <= d.(d_nextID).
Proof.
  intros Hd. rewrite PendingSnapshot_perm, length_fmap, range_length.
  rewrite <- (size_dom (D := gset Z)).
  assert (Hsub : dom (d_pending d) ⊆@{gset Z} list_to_set (seqZ 1 (d_nextID d))).
  { intros id [r Hr]%elem_of_dom. apply (dv_pending d Hd) in Hr as (j & Hj & <- & _).
    rewrite elem_of_list_to_set, <- (dv_ids d Hd), elem_of_app. left. apply list_elem_of_fmap. eauto. }
  apply subseteq_size in Hsub. rewrite size_list_to_set in Hsub by apply NoDup_seqZ. rewrite length_seqZ in Hsub.
  pose proof (dv_range d Hd). lia.
Qed.


(** A restart loses no accepted delivery: replaying the outbox of any reachable state into a
    fresh pool re-enqueues every record, and the new outbox holds the same alerts and routes in
    the same order. *)
Lemma replay_snapshot n size n' size' d rollback :
  dreach n size d →
  let '(k, d') := ReplayPending (PendingSnapshot d) None rollback (newDispatcher n' size') in
  k = length (PendingSnapshot d)
  ∧ (λ r, (r.(pd_Alert), r.(pd_Route))) <$> PendingSnapshot d' = (λ r, (r.(pd_Alert), r.(pd_Route))) <$> PendingSnapshot d.
Proof.
  intros Hr. pose proof (dreach_inv _ _ _ Hr) as Hd. unfold ReplayPending.
  assert (Hsort : merge_sort by_id (PendingSnapshot d) = PendingSnapshot d).
  { apply (Sorted_unique_strong by_id); [|apply (Sorted_merge_sort by_id)..|apply merge_sort_Permutation].
    intros r1 r2 H1 H2 Hle1 Hle2. rewrite merge_sort_Permutation in H1. apply PendingSnapshot_In in H1, H2; try done.
    assert (pd_ID r1 = pd_ID r2) as E by (unfold by_id in *; lia). rewrite E in H1. congruence. }
  rewrite Hsort.
  destruct (replay_fold (PendingSnapshot d) rollback (newDispatcher n' size')) as [Hlen Hsnap].
  - apply dinv_new.
  - simpl. pose proof (PendingSnapshot_length d Hd). pose proof (dv_range d Hd). lia.
  - intros r Hin. apply PendingSnapshot_In in Hin; [|done]. apply (dv_pending d Hd) in Hin as (j & Hj & _ & ->).
    exists (CloneWithoutDetails (j_a j)). split_and!; [done|done|by eapply live_routes].
  - split; [done|]. refine (eq_trans Hsnap _).
    rewrite (snapshot_unique (newDispatcher n' size') []); [done|apply dinv_new|constructor|].
    simpl. by rewrite range_empty.
Qed.
End replay.
