(* ===== verification/DispatchProgress.v ===== *)
(** * internal/app/dispatcher.go: the backlog drains, also after a crash

    Progress of the dispatcher of [Dispatcher]: its own steps ([dwork]: producers inside submit,
    workers, retry timers) always come to an end, never deadlock on the queues' locks, and
    leave nothing but what a shutdown dropped; an outbox saved before a crash is replayed
    into the next process and every delivery in it attempted. *)
From stdpp Require Import sorting.
From S2P Require Import Prelude AlertModel AlertStore Dispatcher.

(** The dispatcher's own steps: everything but a new delivery and the two shutdown calls. *)
Inductive dwork : dispatcher → dispatcher → Prop :=
  | work_submit d pre j post :
      d.(d_submitting) = pre ++ j :: post →
      (∀ w, d.(d_workers) !! queueIndex j.(j_a) d = Some w → w.(w_parked) = None) →
      dwork d (submit j (set_submitting (pre ++ post) d))
  | work_unpark_push d i w j :
      d.(d_workers) !! i = Some w → w.(w_parked) = Some j → (length w.(w_queue) < d.(d_cap))%nat →
      dwork d (unpark_push i j w d)
  | work_unpark_drop d i w j :
      d.(d_workers) !! i = Some w → w.(w_parked) = Some j → d.(d_stop) = true →
      dwork d (unpark_drop i j w d)
  | work_take d i w j rest :
      d.(d_workers) !! i = Some w → w.(w_inflight) = None → w.(w_queue) = j :: rest →
      dwork d (set_workers (<[i := take_job j rest w]> d.(d_workers)) d)
  | work_settle d i w j delivered :
      d.(d_workers) !! i = Some w → w.(w_inflight) = Some j →
      dwork d (settle j delivered (set_workers (<[i := finish_job j delivered w]> d.(d_workers)) d))
  | work_timer d pre j post :
      d.(d_timers) = pre ++ j :: post →
      dwork d (set_submitting (d.(d_submitting) ++ [j]) (set_timers (pre ++ post) d)).

Lemma dwork_dstep d d' : dwork d d' → dstep d d'.
Proof. destruct 1; by econstructor. Qed.

Lemma dwork_reach n size d d' : dreach n size d → rtc dwork d d' → dreach n size d'.
Proof. intros Hr. induction 1 as [|d d1 d' Hw _ IH]; [done|]. apply IH. eapply dreach_step; [done|by apply dwork_dstep]. Qed.

(** ** The work left *)

(** The attempts left to a job, and where it stands in the current one. *)
Definition cycles (j : dispatchJob) : nat := Z.to_nat (maxResolveRetries - j.(j_retries)).

Definition weigh (stage : nat) (l : list dispatchJob) : nat :=
  foldr (λ j n, (stage + 6 * cycles j + n)%nat) 0%nat l.

Definition worker_work (w : worker) : nat :=
  (weigh 3 (option_list w.(w_parked)) + weigh 2 w.(w_queue) + weigh 1 (option_list w.(w_inflight)))%nat.

Definition workers_work (ws : list worker) : nat := foldr (λ w n, (worker_work w + n)%nat) 0%nat ws.

Definition work (d : dispatcher) : nat :=
  (weigh 5 d.(d_timers) + weigh 4 d.(d_submitting) + workers_work d.(d_workers))%nat.

Lemma weigh_app s l l' : weigh s (l ++ l') = (weigh s l + weigh s l')%nat.
Proof. induction l as [|j l IH]; simpl; [done|]. rewrite IH. lia. Qed.

Lemma weigh_cons s j l : weigh s (j :: l) = (s + 6 * cycles j + weigh s l)%nat.
Proof. reflexivity. Qed.

Lemma workers_work_update ws i w w' :
  ws !! i = Some w → (workers_work (<[i := w']> ws) + worker_work w = workers_work ws + worker_work w')%nat.
Proof.
  revert i. induction ws as [|v ws IH]; intros [|i] E; simplify_eq/=; [lia|]. specialize (IH i E). lia.
Qed.

(** A retry uses up an attempt. *)
Lemma cycles_retry j :
  j.(j_retries) < maxResolveRetries →
  cycles j = S (cycles (MkJob j.(j_id) j.(j_a) j.(j_route) j.(j_onFail) (j.(j_retries) + 1))).
Proof. unfold cycles. simpl. intros H. lia. Qed.

Lemma work_submit_le j d :
  (∀ w, d.(d_workers) !! queueIndex j.(j_a) d = Some w → w.(w_parked) = None) →
  (work (submit j d) < 4 + 6 * cycles j + work d)%nat.
Proof.
  intros Hlock. unfold submit. destruct (d_closed d); [unfold work; simpl; lia|].
  destruct (d_workers d !! queueIndex (j_a j) d) as [w|] eqn:Ew; [|lia].
  destruct (w_draining w); [unfold work; simpl; lia|]. specialize (Hlock w eq_refl).
  destruct (_ <? _)%nat; unfold work; simpl.
  - pose proof (workers_work_update _ _ _ (push_job j w) Ew) as Hu.
    unfold worker_work at 2 in Hu; simpl in Hu. rewrite weigh_app in Hu. simpl in Hu. unfold worker_work in Hu. lia.
  - pose proof (workers_work_update _ _ _ (park_job (Some j) w) Ew) as Hu.
    unfold worker_work in Hu; simpl in Hu. rewrite Hlock in Hu. simpl in Hu. lia.
Qed.

Lemma work_settle_le j b d : (work (settle j b d) < 1 + 6 * cycles j + work d)%nat.
Proof.
  assert (Has : ∀ f, work (settle_as f (j_id j) d) = work d).
  { intros f. unfold settle_as, pendingDone. by destruct (d_pending d !! j_id j). }
  unfold settle. destruct b; [rewrite Has; lia|]. destruct (j_onFail j) eqn:Ef; [rewrite Has; lia|].
  destruct (_ && _) eqn:Er; [|rewrite Has; lia].
  apply andb_prop in Er as [_ Hlt%Z.ltb_lt]. pose proof (cycles_retry j Hlt) as Hc.
  unfold scheduleResolveRetry, work; simpl. rewrite weigh_app. simpl. rewrite Hc. lia.
Qed.

Lemma dwork_work d d' : dwork d d' → (work d' < work d)%nat.
Proof.
  destruct 1 as [d pre j post Hs Hlock|d i w j Hi Hp Hl|d i w j Hi Hp Hst|d i w j rest Hi Hf Hq|d i w j b Hi Hf|d pre j post Ht].
  - pose proof (work_submit_le j (set_submitting (pre ++ post) d) Hlock) as Hw.
    unfold work at 2 in Hw. unfold work at 2. rewrite Hs. simpl in *. rewrite !weigh_app, ?weigh_cons in *. lia.
  - unfold unpark_push, work; simpl. pose proof (workers_work_update _ _ _ (push_job j (park_job None w)) Hi) as Hu.
    unfold worker_work in Hu; simpl in Hu. rewrite Hp, weigh_app in Hu. simpl in Hu. lia.
  - unfold unpark_drop, work; simpl.
    pose proof (workers_work_update _ _ _ (MkWorker w.(w_queue) None true w.(w_inflight) w.(w_pushed) w.(w_done)) Hi) as Hu.
    unfold worker_work in Hu; simpl in Hu. rewrite Hp in Hu. simpl in Hu. lia.
  - unfold work; simpl. pose proof (workers_work_update _ _ _ (take_job j rest w) Hi) as Hu.
    unfold worker_work in Hu; simpl in Hu. rewrite Hq, Hf in Hu. simpl in Hu. lia.
  - pose proof (work_settle_le j b (set_workers (<[i:=finish_job j b w]> (d_workers d)) d)) as Hw.
    pose proof (workers_work_update _ _ _ (finish_job j b w) Hi) as Hu.
    unfold work at 2 in Hw. unfold work at 2. simpl in *. unfold worker_work in Hu; simpl in Hu. rewrite Hf in Hu. simpl in Hu. lia.
  - unfold work; simpl. rewrite Ht, !weigh_app, !weigh_cons. simpl. lia.
Qed.

(** ** No deadlock *)

(** Every job is settled or dropped. *)
Definition quiescent (d : dispatcher) : Prop :=
  d.(d_submitting) = [] ∧ d.(d_timers) = [] ∧ ∀ i w, d.(d_workers) !! i = Some w → w_live w = [].

Lemma dreach_cap n size d : dreach n size d → (1 <= d.(d_cap))%nat.
Proof.
  induction 1 as [|d d' _ IH Hs].
  - unfold newDispatcher. cbn [d_cap]. match goal with |- context [?a <? 1] => destruct (Z.ltb_spec a 1) end; lia.
  - destruct Hs; simpl; try done.
    + unfold enqueue. by destruct route.
    + unfold submit. simpl. repeat case_match; done.
    + unfold settle, settle_as, pendingDone. repeat case_match; done.
Qed.

(** A worker with anything to do can do something: a full queue under a parked producer has a
    job to take. *)
Lemma worker_progress d i w :
  (1 <= d.(d_cap))%nat → d.(d_workers) !! i = Some w → w_live w ≠ [] → ∃ d', dwork d d'.
Proof.
  intros Hcap Hi Hl. destruct (w_inflight w) as [j|] eqn:Hf.
  { eexists. by apply (work_settle d i w j true). }
  destruct (w_queue w) as [|j rest] eqn:Hq; [|eexists; by eapply (work_take d i w)].
  destruct (w_parked w) as [j|] eqn:Hp.
  - eexists. apply (work_unpark_push d i w j); [done|done|rewrite Hq; simpl; lia].
  - unfold w_live in Hl. by rewrite Hp, Hf, Hq in Hl.
Qed.

Lemma busy_dec (d : dispatcher) :
  (∃ i w, d.(d_workers) !! i = Some w ∧ w_live w ≠ []) ∨ (∀ i w, d.(d_workers) !! i = Some w → w_live w = []).
Proof.
  destruct (decide (Exists (λ w, w_live w ≠ []) d.(d_workers))) as [He|Hn].
  - left. apply Exists_exists in He as (w & Hw & Hl). apply list_elem_of_lookup in Hw as [i Hi]. eauto.
  - right. intros i w Hi. destruct (w_live w) eqn:E; [done|]. exfalso. apply Hn, Exists_exists.
    exists w. split; [by eapply list_elem_of_lookup_2|]. by rewrite E.
Qed.

Lemma progress d : (1 <= d.(d_cap))%nat → quiescent d ∨ ∃ d', dwork d d'.
Proof.
  intros Hcap. destruct (busy_dec d) as [(i & w & Hi & Hl)|Hidle]; [right; by eapply worker_progress|].
  destruct (d_submitting d) as [|j post] eqn:Hs.
  - destruct (d_timers d) as [|j post] eqn:Ht; [by left|right]. eexists. by apply (work_timer d [] j post).
  - right. eexists. apply (work_submit d [] j post); [done|].
    intros w Hw. apply Hidle in Hw. unfold w_live in Hw. by destruct (w_parked w).
Qed.

Lemma dwork_cap d d' : dwork d d' → d'.(d_cap) = d.(d_cap).
Proof.
  destruct 1; try done.
  - unfold submit. simpl. repeat case_match; done.
  - unfold settle, settle_as, pendingDone. repeat case_match; done.
Qed.

Lemma dwork_runs_out d : (1 <= d.(d_cap))%nat → ∃ d', rtc dwork d d' ∧ quiescent d'.
Proof.
  intros Hcap. remember (work d) as n eqn:Hn. revert d Hcap Hn.
  induction n as [n IH] using lt_wf_ind. intros d Hcap ->.
  destruct (progress d Hcap) as [Hq|[d1 H1]]; [by exists d|].
  destruct (IH (work d1) (dwork_work _ _ H1) d1) as (d' & Hr & Hq); [by rewrite (dwork_cap _ _ H1)|done|].
  exists d'. split; [by eapply rtc_l|done].
Qed.

(** ** Nothing is dropped while the controller runs *)

Record serving (d : dispatcher) : Prop := {
  sv_open : d.(d_closed) = false;
  sv_dropped : d.(d_dropped) = [];
  sv_flags : ∀ i w, d.(d_workers) !! i = Some w → w.(w_draining) = false;
}.

Lemma serving_update d d' i w w' :
  serving d → d.(d_workers) !! i = Some w → d'.(d_workers) = <[i := w']> d.(d_workers) →
  w'.(w_draining) = w.(w_draining) → d'.(d_closed) = d.(d_closed) → d'.(d_dropped) = d.(d_dropped) →
  serving d'.
Proof.
  intros [Ho Hd Hf] Hi Hws Hw Hc Hdp. split; [congruence..|].
  intros k v Hk. rewrite Hws in Hk. apply (update_lookup _ _ _ _ _ _ Hi) in Hk as [[-> ->]|[_ Hk]]; [|by eapply Hf].
  rewrite Hw. by eapply Hf.
Qed.

Lemma serving_same d d' :
  serving d → d'.(d_workers) = d.(d_workers) → d'.(d_closed) = d.(d_closed) → d'.(d_dropped) = d.(d_dropped) →
  serving d'.
Proof. intros [Ho Hd Hf] Hw Hc Hdp. split; [congruence..|]. by rewrite Hw. Qed.

Lemma serving_submit j d : serving d → serving (submit j d).
Proof.
  intros Hs. unfold submit. rewrite (sv_open _ Hs).
  destruct (d_workers d !! queueIndex (j_a j) d) as [w|] eqn:Ew; [|done].
  rewrite (sv_flags _ Hs _ _ Ew). destruct (_ <? _)%nat; by eapply serving_update.
Qed.

Lemma serving_settle j b d : serving d → serving (settle j b d).
Proof.
  intros Hs. assert (Has : ∀ f, serving (settle_as f (j_id j) d)).
  { intros f. unfold settle_as, pendingDone. apply (serving_same d); [done|..]; by case_match. }
  unfold settle. destruct b; [done|]. destruct (j_onFail j); [done|]. destruct (_ && _); [|done].
  by apply (serving_same d).
Qed.

Lemma dstep_stop d d' : dstep d d' → d'.(d_stop) = false → d.(d_stop) = false.
Proof.
  destruct 1; simpl; try done.
  - unfold enqueue. by destruct route.
  - unfold submit. simpl. repeat case_match; done.
  - unfold settle, settle_as, pendingDone. repeat case_match; done.
Qed.

Lemma dreach_serving n size d : dreach n size d → d.(d_stop) = false → serving d.
Proof.
  induction 1 as [|d d' _ IH Hs]; intros Hstop.
  - split; [done..|]. intros i w Hi. unfold newDispatcher in Hi. simpl in Hi. by apply lookup_replicate in Hi as [-> _].
  - specialize (IH (dstep_stop _ _ Hs Hstop)).
    destruct Hs as [d0 a route onFail Hlt|d0 pre j post Hs Hlock|d0 i w j Hi Hp Hl|d0 i w j Hi Hp Hst|d0 i w j rest Hi Hf Hq
           |d0 i w j b Hi Hf|d0 pre j post Ht|d0|d0 Hst Hpk].
    + unfold enqueue. destruct route; [done|]. by apply (serving_same d0).
    + apply serving_submit. by apply (serving_same d0).
    + by eapply serving_update.
    + simpl in Hstop. congruence.
    + by eapply serving_update.
    + apply serving_settle. by eapply serving_update.
    + by apply (serving_same d0).
    + done.
    + simpl in Hstop. congruence.
Qed.

(** ** The backlog drains *)

Lemma quiescent_live d : quiescent d → live d = d.(d_dropped).
Proof.
  intros (Hs & Ht & Hw). unfold live. rewrite Hs, Ht. simpl.
  assert (Hc : concat (w_live <$> d_workers d) = []); [|by rewrite Hc, app_nil_r].
  revert Hw. generalize (d_workers d) as ws. induction ws as [|w ws IH]; intros Hw; [done|].
  rewrite fmap_cons. simpl. rewrite (Hw O w eq_refl). apply IH. intros i v Hi. by apply (Hw (S i)).
Qed.

(** C5: The delivery pool never deadlocks and its backlog drains without any help: from every
    reachable state the producers inside submit, the workers and the retry timers take at most
    [work] more steps of their own, whatever the sinks answer and in whatever order they run,
    and they can always go on until no delivery is queued, parked, in flight or waiting for a
    retry. The outbox then holds exactly what a shutdown dropped; while the controller is not
    shutting down it is empty, so every delivery made has had its terminal outcome. *)
Theorem backlog_drains n size d :
  dreach n size d →
  (∀ k d', nsteps dwork k d d' → (k <= work d)%nat)
  ∧ (∀ d', rtc dwork d d' → quiescent d' ∨ ∃ d'', dwork d' d'')
  ∧ (∃ d', rtc dwork d d' ∧ quiescent d')
  ∧ (∀ d', rtc dwork d d' → quiescent d' →
       (∀ id r, d'.(d_pending) !! id = Some r ↔ ∃ j, j ∈ d'.(d_dropped) ∧ j.(j_id) = id ∧ r = outbox_record j)
       ∧ (d.(d_stop) = false → d'.(d_pending) = ∅ ∧ d'.(d_settled).*1 ≡ₚ seqZ 1 d'.(d_nextID))).
Proof.
  intros Hr. pose proof (dreach_cap _ _ _ Hr) as Hcap. split_and!.
  - intros k. clear Hr Hcap. revert d. induction k as [|k IH]; intros d d' Hk; [lia|].
    inversion Hk as [|? ? d1 ? H1 Hk']; subst. pose proof (dwork_work _ _ H1). specialize (IH _ _ Hk'). lia.
  - intros d' Hd'. apply progress. by apply (dreach_cap n size), (dwork_reach n size d).
  - by apply dwork_runs_out.
  - intros d' Hd' Hq. assert (Hr' : dreach n size d') by (by eapply dwork_reach).
    pose proof (dreach_inv _ _ _ Hr') as Hinv. pose proof (quiescent_live _ Hq) as Hl. split.
    + intros id r. rewrite (dv_pending _ Hinv), Hl. done.
    + intros Hst. assert (Hst' : d'.(d_stop) = false).
      { clear -Hst Hd'. induction Hd' as [|d d1 d' H1 _ IH]; [done|]. apply IH. revert Hst.
        destruct H1; simpl; try done; unfold submit, settle, settle_as, pendingDone; simpl; repeat case_match; done. }
      pose proof (dreach_serving _ _ _ Hr' Hst') as Hs. rewrite (sv_dropped _ Hs) in Hl. split.
      * apply map_eq. intros id. rewrite lookup_empty. destruct (d_pending d' !! id) as [r|] eqn:E; [|done].
        apply (dv_pending _ Hinv) in E as (j & Hj & _). rewrite Hl in Hj. by apply elem_of_nil in Hj.
      * pose proof (dv_ids _ Hinv) as Hids. by rewrite Hl in Hids.
Qed.

(** ** A crash loses nothing that was saved *)

(** A delivery is still to be made, or was attempted. *)
Definition tracked (d : dispatcher) (id : Z) (a : Alert) (route : list string) : Prop :=
  (∃ j, j ∈ live d ∧ j.(j_id) = id ∧ j.(j_a) = a ∧ j.(j_route) = route)
  ∨ (∃ j b, (j, b) ∈ finished d ∧ j.(j_id) = id ∧ j.(j_a) = a ∧ j.(j_route) = route).

Lemma tracked_effect d d' id a route : effect d d' → tracked d id a route → tracked d' id a route.
Proof.
  intros He [(j & Hj & Hid & Ha & Hr)|(j & b & Hj & Hx)]; cycle 1.
  { right. exists j, b. split; [|done]. destruct He as [_ -> _|k _ _ _ _ -> _|k c _ _ -> _|k c k' _ _ _ _ _ _ _ _ -> _];
      [done|done|by right..]. }
  destruct He as [Hl _ _|k _ _ _ Hl _ _|k c _ Hl Hf _|k c k' Hl Hk Ei _ _ _ Ea Er Hf _].
  - left. exists j. by rewrite Hl.
  - left. exists j. rewrite Hl. split; [by right|done].
  - rewrite <-Hl in Hj. apply elem_of_cons in Hj as [->|Hj]; [right; exists k, c|left; by exists j].
    by rewrite Hf; split; [left|].
  - assert (Hj' : j ∈ k' :: live d) by (by right). rewrite <-Hl in Hj'. apply elem_of_cons in Hj' as [->|Hj']; [|left; by exists j].
    right. exists k, c. by rewrite Hf; split; [left|].
Qed.

Lemma tracked_steps n size d d' id a route :
  dreach n size d → rtc dstep d d' → tracked d id a route → tracked d' id a route.
Proof.
  intros Hr Hs. induction Hs as [|d d1 d' H1 _ IH]; [done|]. intros Ht.
  apply IH; [by eapply dreach_step|]. eapply tracked_effect, Ht. apply dstep_effect; [by eapply dreach_inv|done].
Qed.

Lemma dsteps_reach n size d d' : dreach n size d → rtc dstep d d' → dreach n size d'.
Proof. intros Hr. induction 1 as [|d d1 d' H1 _ IH]; [done|]. apply IH. by eapply dreach_step. Qed.

Lemma replay_reach n size (jobs : list (Alert * list string * option string)) : ∀ d,
  dreach n size d → d.(d_nextID) + Z.of_nat (length jobs) < 2 ^ 64 →
  dreach n size (fold_left (λ d p, enqueue p.1.1 p.1.2 p.2 d) jobs d).
Proof.
  induction jobs as [|p jobs IH]; intros d Hr Hlt; [done|]. simpl in *. apply IH.
  - eapply dreach_step; [done|]. apply step_enqueue. lia.
  - assert (Hid : (enqueue p.1.1 p.1.2 p.2 d).(d_nextID) <= d.(d_nextID) + 1); [|lia].
    pose proof (dv_range _ (dreach_inv _ _ _ Hr)). unfold enqueue. destruct (p.1.2); simpl; [lia|].
    unfold incr64. rewrite Z.mod_small; lia.
Qed.

Lemma length_omap_le {A B} (f : A → option B) (l : list A) : (length (omap f l) <= length l)%nat.
Proof. induction l as [|x l IH]; [done|]. cbn [omap list_omap]. destruct (f x); cbn [length]; lia. Qed.

Section crash.
Context `{MapRange}.

Lemma replayed_reach n size n' size' d rollback :
  dreach n size d → dreach n' size' (ReplayPending (PendingSnapshot d) None rollback (newDispatcher n' size')).2.
Proof.
  intros Hr. pose proof (dreach_inv _ _ _ Hr) as Hd. unfold ReplayPending. simpl. apply replay_reach; [constructor|].
  pose proof (PendingSnapshot_length d Hd). pose proof (dv_range d Hd).
  pose proof (length_omap_le (replayable None rollback) (merge_sort by_id (PendingSnapshot d))) as Hle.
  rewrite merge_sort_Permutation in Hle at 2.
  simpl. lia.
Qed.

(** C12: A crash loses no delivery that was in a saved outbox: replaying it into the pool of the
    next process restores the same alerts and routes in the same order, and that process, taking
    new deliveries meanwhile or not, can always work its backlog off; whenever it has, short of a
    shutdown of its own, it has attempted every delivery of the saved outbox, with its alert
    (less details) and its route, and its own outbox is empty. *)
Theorem crash_replay_delivers n size n' size' d rollback :
  dreach n size d →
  let d1 := (ReplayPending (PendingSnapshot d) None rollback (newDispatcher n' size')).2 in
  (λ r, (r.(pd_Alert), r.(pd_Route))) <$> PendingSnapshot d1 = (λ r, (r.(pd_Alert), r.(pd_Route))) <$> PendingSnapshot d
  ∧ (∀ d2, rtc dstep d1 d2 → ∃ d3, rtc dwork d2 d3 ∧ quiescent d3)
  ∧ (∀ d2, rtc dstep d1 d2 → quiescent d2 → d2.(d_stop) = false →
       d2.(d_pending) = ∅
       ∧ ∀ r, r ∈ PendingSnapshot d → ∃ j delivered, (j, delivered) ∈ finished d2
           ∧ r.(pd_Alert) = Some (CloneWithoutDetails j.(j_a)) ∧ r.(pd_Route) = j.(j_route)).
Proof.
  intros Hr d1.
  assert (Hr1 : dreach n' size' d1) by (by eapply replayed_reach).
  assert (Hsnap : (λ r, (r.(pd_Alert), r.(pd_Route))) <$> PendingSnapshot d1 = (λ r, (r.(pd_Alert), r.(pd_Route))) <$> PendingSnapshot d)
    by exact (proj2 (replay_snapshot n size n' size' d rollback Hr)).
  clearbody d1. split; [exact Hsnap|]. split.
  { intros d2 H2. apply dwork_runs_out, (dreach_cap n' size'), (dsteps_reach _ _ _ _ Hr1 H2). }
  intros d2 H2 Hq Hst. pose proof (dsteps_reach _ _ _ _ Hr1 H2) as Hr2.
  pose proof (quiescent_live _ Hq) as Hl. rewrite (sv_dropped _ (dreach_serving _ _ _ Hr2 Hst)) in Hl. split.
  - apply map_eq. intros id. rewrite lookup_empty. destruct (d_pending d2 !! id) as [r|] eqn:E; [|done].
    apply (dv_pending _ (dreach_inv _ _ _ Hr2)) in E as (j & Hj & _). rewrite Hl in Hj. by apply elem_of_nil in Hj.
  - intros r Hin. assert (Hin1 : (r.(pd_Alert), r.(pd_Route)) ∈ (λ r, (r.(pd_Alert), r.(pd_Route))) <$> PendingSnapshot d1).
    { rewrite Hsnap. apply list_elem_of_fmap. eauto. }
    apply list_elem_of_fmap in Hin1 as (r1 & E & Hin1). injection E as Ea Ero.
    apply PendingSnapshot_In in Hin1; [|by eapply dreach_inv].
    apply (dv_pending _ (dreach_inv _ _ _ Hr1)) in Hin1 as (j & Hj & Hid & ->). simpl in Ea, Ero.
    destruct (tracked_steps n' size' d1 d2 (j_id j) (j_a j) (j_route j) Hr1 H2) as [(k & Hk & _)|(k & b & Hk & _ & Hka & Hkr)].
    + left. by exists j.
    + rewrite Hl in Hk. by apply elem_of_nil in Hk.
    + exists k, b. by rewrite Hka, Hkr.
Qed.
End crash.

(** A delivery just submitted to an idle pool of one. *)
Lemma backlog_drains_witness :
  dreach 1 1 run_d2 ∧ ∃ d', rtc dwork run_d2 d' ∧ d'.(d_pending) = ∅.
Proof.
  assert (Hr : dreach 1 1 run_d2).
  { refine (dreach_step 1 1 run_d1 run_d2 (dreach_step 1 1 _ _ (dreach_new 1 1) _) _).
    - apply step_enqueue. reflexivity.
    - refine (step_submit run_d1 [] _ [] eq_refl _). intros w' Hw'. vm_compute in Hw'. by simplify_eq. }
  split; [exact Hr|].
  destruct (backlog_drains 1 1 run_d2 Hr) as (_ & _ & (d' & Hd' & Hq) & Hend).
  exists d'. split; [exact Hd'|]. apply (Hend d' Hd' Hq). reflexivity.
Defined.

(** The process of one delivery crashes before the attempt; the next one makes it. *)
Lemma crash_replay_delivers_witness :
  ∃ d3, rtc dwork (ReplayPending (PendingSnapshot run_d2) None true (newDispatcher 4 8)).2 d3 ∧ quiescent d3.
Proof.
  assert (Hr : dreach 1 1 run_d2).
  { refine (dreach_step 1 1 run_d1 run_d2 (dreach_step 1 1 _ _ (dreach_new 1 1) _) _).
    - apply step_enqueue. reflexivity.
    - refine (step_submit run_d1 [] _ [] eq_refl _). intros w' Hw'. vm_compute in Hw'. by simplify_eq. }
  destruct (crash_replay_delivers 1 1 4 8 run_d2 true Hr) as (_ & Hgo & _).
  exact (Hgo _ (rtc_refl _ _)).
Defined.
