(* ===== verification/Tracing.v ===== *)
(** * internal/trace and internal/app/dispatch_trace.go: the spans of a delivery

    OpenTelemetry is not part of the repository: a span context is a parameter, [NewSpan] is
    the context the tracer gives the n-th span it starts under a parent, and what the code does
    to a span is a [call] in a log, in order. [traced] is the dispatcher of [Dispatcher] with
    what the tracing code adds to it: the context each job carries, the span each worker holds,
    and the log; [tstep] is the loop of the program with its tracing calls. *)
From S2P Require Import Prelude GoStd AlertModel AlertStore Dispatcher CloudSources.

(** ** trace.go, resource.go *)

Inductive attribute :=
  | AString (k v : string)
  | AStringSlice (k : string) (vs : list string)
  | ABool (k : string) (b : bool)
  | AInt (k : string) (n : Z).

Inductive code := Unset | Error | Ok.

Definition AlertAttrs (kind namespace name reason fingerprint : string) : list attribute :=
  [AString "alertkube.kind" kind; AString "alertkube.namespace" namespace; AString "alertkube.name" name;
   AString "alertkube.reason" reason; AString "alertkube.fingerprint" fingerprint].

Section resource.
Context (getenv : string → string).

(** The attributes [newResource] describes this process with. The semconv keys are
    OpenTelemetry's names for the service and the pod. *)
Definition resource_attrs (serviceVersion : string) : list attribute :=
  let env_attr var key := let v := getenv var in if streq v "" then [] else [AString key v] in
  [AString "service.name" "alertkube"; AString "service.version" serviceVersion]
  ++ env_attr "POD_NAME" "k8s.pod.name"
  ++ env_attr "POD_NAMESPACE" "k8s.namespace.name"
  ++ env_attr "ALERTKUBE_SHARD_INDEX" "alertkube.shard_index".

(** [Merge] is the SDK's merge with its default resource, [None] for an error. *)
Definition newResource (Merge : list attribute → option (list attribute)) (serviceVersion : string) : list attribute :=
  let attrs := resource_attrs serviceVersion in default attrs (Merge attrs).

(** What [Init] installs: nothing, or a provider that exports every span with a resource.
    [New] is the exporter's constructor, [false] for an error. *)
Inductive tracer_provider := NoopProvider | BatchProvider (resource : list attribute).

Definition tracing_enabled : bool := Azure.EqualFold (getenv "ALERTKUBE_TRACING_ENABLED") "true".

Definition Init (New : bool) (Merge : list attribute → option (list attribute)) (serviceVersion : string)
    (global : tracer_provider) : tracer_provider :=
  if negb tracing_enabled then global
  else if negb New then global
  else BatchProvider (newResource Merge serviceVersion).

(** Whatever the environment and the exporter answer, [Init] lets the start go on, and only an
    explicit opt-in with a working exporter changes the provider. *)
Lemma Init_opt_in New Merge v global :
  Init New Merge v global ≠ global → tracing_enabled = true ∧ New = true.
Proof. unfold Init. destruct tracing_enabled, New; simpl; auto. Qed.

(** The resource always names the service, with or without the merge. *)
Lemma newResource_service Merge v :
  (∀ l l' x, Merge l = Some l' → x ∈ l → x ∈ l') → AString "service.name" "alertkube" ∈ newResource Merge v.
Proof.
  intros Hm. assert (Hin : AString "service.name" "alertkube" ∈ resource_attrs v) by left.
  unfold newResource. destruct (Merge _) eqn:E; [by eapply Hm|done].
Qed.
End resource.

(** ** The tracer *)

Class Tracer (C : Type) := {
  no_span : C; (* the span context of a context that carries none *)
  IsValid : C → bool;
  TraceID : C → Z;
  NewSpan : nat → C → C;
}.

(** What OpenTelemetry documents of a recording tracer: a span has a context of its own, and
    is in the trace of its parent when that is valid, and in a new one otherwise. *)
Class TracerLaws (C : Type) `{Tracer C} := {
  new_valid n c : IsValid (NewSpan n c) = true;
  new_distinct n c m c' : NewSpan n c = NewSpan m c' → n = m;
  new_child n c : IsValid c = true → TraceID (NewSpan n c) = TraceID c;
  new_root n m c c' : IsValid c = false → IsValid c' = false → TraceID (NewSpan n c) = TraceID (NewSpan m c') → n = m;
  no_span_invalid : IsValid no_span = false;
}.

Section tracing.
Context {C : Type} `{!Tracer C}.

(** A [context.Context], as far as it matters here. *)
Record context := MkContext { ctx_done : bool; ctx_span : C }.
Definition Background : context := MkContext false no_span.

Inductive call :=
  | CStart (span parent : C) (name : string)
  | CSetAttributes (span : C) (attrs : list attribute)
  | CSetStatus (span : C) (c : code) (description : string)
  | CEnd (span : C).

Definition start_of (c : call) : option (C * C) :=
  match c with CStart s p _ => Some (s, p) | _ => None end.
Definition starts (log : list call) : list (C * C) := omap start_of log.

(** [Tracer().Start]. *)
Definition Start (ctx : context) (name : string) (log : list call) : context * C * list call :=
  let s := NewSpan (length (starts log)) ctx.(ctx_span) in
  (MkContext ctx.(ctx_done) s, s, log ++ [CStart s ctx.(ctx_span) name]).
Definition SetAttributes (s : C) (attrs : list attribute) (log : list call) : list call := log ++ [CSetAttributes s attrs].
Definition SetStatus (s : C) (c : code) (d : string) (log : list call) : list call := log ++ [CSetStatus s c d].
Definition End_ (s : C) (log : list call) : list call := log ++ [CEnd s].

Definition Detach (ctx : context) : context := MkContext Background.(ctx_done) ctx.(ctx_span).

Definition Dropped (s : C) (stage reason : string) (log : list call) : list call :=
  SetAttributes s [AString "alertkube.dropped_at" stage; AString "alertkube.drop_reason" reason] log.

(** ** dispatch_trace.go *)

Definition alert_attrs (a : Alert) : list attribute :=
  AlertAttrs a.(a_Kind) a.(a_Namespace) a.(a_Name) a.(a_Reason) a.(a_Fingerprint).

Definition enqueueSpan (ctx : context) (a : Alert) (route : list string) (log : list call) : context * C * list call :=
  let '(ctx, span, log) := Start ctx "alertkube.enqueue" log in
  let log := SetAttributes span (alert_attrs a) log in
  let log := SetAttributes span [AStringSlice "alertkube.route" route; ABool "alertkube.resolved" a.(a_Resolved);
                                 AString "alertkube.severity" a.(a_Severity)] log in
  (ctx, span, log).

Definition startDeliverySpan (traceCtx : option context) (j : dispatchJob) (log : list call) : C * list call :=
  let parent := default Background traceCtx in
  let '(_, span, log) := Start parent "alertkube.dispatch" log in
  let log := SetAttributes span (alert_attrs j.(j_a)) log in
  let log := SetAttributes span [AStringSlice "alertkube.route" j.(j_route); ABool "alertkube.resolved" j.(j_a).(a_Resolved);
                                 AInt "alertkube.retries" j.(j_retries)] log in
  (span, log).

Definition endDeliverySpan (span : C) (delivered : bool) (log : list call) : list call :=
  let log := if delivered then SetStatus span Ok "" log
             else Dropped span "dispatch" "all sinks failed" (SetStatus span Error "every routed sink failed" log) in
  End_ span log.

(** ** The traced dispatcher *)

(** [t_ctx] is the [traceCtx] of the jobs of each id (a retry copies its job); [t_open] the
    span each worker holds. *)
Record traced := MkTraced {
  t_d : dispatcher;
  t_ctx : gmap Z context;
  t_open : gmap nat C;
  t_log : list call;
}.

Definition t_new (n size : Z) : traced := MkTraced (newDispatcher n size) ∅ ∅ [].

(** [enqueue] up to [submit]. *)
Definition t_enqueue (a : Alert) (route : list string) (onFail : option string) (t : traced) : traced :=
  match route with
  | [] => t
  | _ =>
    let '(ctx, span, log) := enqueueSpan Background (Clone a) route t.(t_log) in
    MkTraced (enqueue a route onFail t.(t_d)) (<[incr64 t.(t_d).(d_nextID) := Detach ctx]> t.(t_ctx)) t.(t_open) log
  end.

(** [span.End()] of the producer once [submit] returned; a retry timer has no such span. *)
Definition submitted (j : dispatchJob) (t : traced) : list call :=
  if j.(j_retries) =? 0 then
    match t.(t_ctx) !! j.(j_id) with Some ctx => End_ ctx.(ctx_span) t.(t_log) | None => t.(t_log) end
  else t.(t_log).

(** Whether the producer is parked on the queue of [j]. *)
Definition parked (j : dispatchJob) (d : dispatcher) : bool :=
  match d.(d_workers) !! queueIndex j.(j_a) d with
  | Some w => bool_decide (is_Some w.(w_parked))
  | None => false
  end.

Definition t_set (d : dispatcher) (log : list call) (t : traced) : traced := MkTraced d t.(t_ctx) t.(t_open) log.

Definition t_take (i : nat) (j : dispatchJob) (rest : list dispatchJob) (w : worker) (t : traced) : traced :=
  let '(span, log) := startDeliverySpan (t.(t_ctx) !! j.(j_id)) j t.(t_log) in
  MkTraced (set_workers (<[i := take_job j rest w]> t.(t_d).(d_workers)) t.(t_d)) t.(t_ctx) (<[i := span]> t.(t_open)) log.

Definition t_settle (i : nat) (j : dispatchJob) (delivered : bool) (w : worker) (span : C) (t : traced) : traced :=
  MkTraced (settle j delivered (set_workers (<[i := finish_job j delivered w]> t.(t_d).(d_workers)) t.(t_d)))
    t.(t_ctx) (delete i t.(t_open)) (endDeliverySpan span delivered t.(t_log)).

Inductive tstep : traced → traced → Prop :=
  | t_step_enqueue t a route onFail :
      t.(t_d).(d_nextID) + 1 < 2 ^ 64 →
      tstep t (t_enqueue a route onFail t)
  | t_step_submit t pre j post d' :
      t.(t_d).(d_submitting) = pre ++ j :: post →
      (∀ w, t.(t_d).(d_workers) !! queueIndex j.(j_a) t.(t_d) = Some w → w.(w_parked) = None) →
      d' = submit j (set_submitting (pre ++ post) t.(t_d)) →
      tstep t (t_set d' (if parked j d' then t.(t_log) else submitted j t) t)
  | t_step_unpark_push t i w j :
      t.(t_d).(d_workers) !! i = Some w → w.(w_parked) = Some j → (length w.(w_queue) < t.(t_d).(d_cap))%nat →
      tstep t (t_set (unpark_push i j w t.(t_d)) (submitted j t) t)
  | t_step_unpark_drop t i w j :
      t.(t_d).(d_workers) !! i = Some w → w.(w_parked) = Some j → t.(t_d).(d_stop) = true →
      tstep t (t_set (unpark_drop i j w t.(t_d)) (submitted j t) t)
  | t_step_take t i w j rest :
      t.(t_d).(d_workers) !! i = Some w → w.(w_inflight) = None → w.(w_queue) = j :: rest →
      tstep t (t_take i j rest w t)
  | t_step_settle t i w j delivered span :
      t.(t_d).(d_workers) !! i = Some w → w.(w_inflight) = Some j → t.(t_open) !! i = Some span →
      tstep t (t_settle i j delivered w span t)
  | t_step_timer t pre j post :
      t.(t_d).(d_timers) = pre ++ j :: post →
      tstep t (t_set (set_submitting (t.(t_d).(d_submitting) ++ [j]) (set_timers (pre ++ post) t.(t_d))) t.(t_log) t)
  | t_step_stop t : tstep t (t_set (unblockProducers t.(t_d)) t.(t_log) t)
  | t_step_close t :
      t.(t_d).(d_stop) = true → (∀ i w, t.(t_d).(d_workers) !! i = Some w → w.(w_parked) = None) →
      tstep t (t_set (close_queues t.(t_d)) t.(t_log) t).

Inductive treach (n size : Z) : traced → Prop :=
  | treach_new : treach n size (t_new n size)
  | treach_step t t' : treach n size t → tstep t t' → treach n size t'.

(** ** What the log must hold *)

Definition same_delivery (j k : dispatchJob) : Prop :=
  j.(j_id) = k.(j_id) ∧ j.(j_a) = k.(j_a) ∧ j.(j_route) = k.(j_route).

(** One delivery attempt: its span, the span it is a child of, and the job. *)
Record delivery_attempt := MkAttempt { at_span : C; at_parent : C; at_job : dispatchJob }.

Definition root_calls (p : C * dispatchJob) : list call :=
  [CStart p.1 no_span "alertkube.enqueue"; CSetAttributes p.1 (alert_attrs p.2.(j_a));
   CSetAttributes p.1 [AStringSlice "alertkube.route" p.2.(j_route); ABool "alertkube.resolved" p.2.(j_a).(a_Resolved);
                       AString "alertkube.severity" p.2.(j_a).(a_Severity)]].

Definition attempt_calls (a : delivery_attempt) : list call :=
  [CStart a.(at_span) a.(at_parent) "alertkube.dispatch"; CSetAttributes a.(at_span) (alert_attrs a.(at_job).(j_a));
   CSetAttributes a.(at_span) [AStringSlice "alertkube.route" a.(at_job).(j_route);
                               ABool "alertkube.resolved" a.(at_job).(j_a).(a_Resolved);
                               AInt "alertkube.retries" a.(at_job).(j_retries)]].

Definition outcome_calls (s : C) (delivered : bool) : list call :=
  if delivered then [CSetStatus s Ok ""; CEnd s]
  else [CSetStatus s Error "every routed sink failed";
        CSetAttributes s [AString "alertkube.dropped_at" "dispatch"; AString "alertkube.drop_reason" "all sinks failed"];
        CEnd s].

(** Jobs whose producer is still inside [enqueue], or whose timer has fired. *)
Definition producing (d : dispatcher) : list dispatchJob :=
  d.(d_submitting) ++ concat (option_list <$> (w_parked <$> d.(d_workers))).
Definition inflight (d : dispatcher) (i : nat) : option dispatchJob := d.(d_workers) !! i ≫= w_inflight.

(** The log consists of the calls for the enqueue spans of all accepted deliveries, [ended] and
    [waiting] in their producers, for the spans of the attempts [made] and for those [held] by
    the workers, and of nothing else. *)
Record account (t : traced) (ended waiting : list (C * dispatchJob)) (made : list (delivery_attempt * bool))
    (held : gmap nat delivery_attempt) : Prop := {
  ac_log : t.(t_log) ≡ₚ (ended ≫= λ p, root_calls p ++ [CEnd p.1]) ++ (waiting ≫= root_calls)
             ++ (made ≫= λ p, attempt_calls p.1 ++ outcome_calls p.1.(at_span) p.2)
             ++ (map_to_list held ≫= λ p, attempt_calls p.2);
  ac_ids : (λ p, p.2.(j_id)) <$> (ended ++ waiting) ≡ₚ seqZ 1 t.(t_d).(d_nextID);
  ac_waiting : waiting.*2 ≡ₚ filter (λ j, j.(j_retries) = 0) (producing t.(t_d));
  ac_made : (λ p, (p.1.(at_job), p.2)) <$> made ≡ₚ finished t.(t_d);
  ac_held : ∀ i, at_job <$> held !! i = inflight t.(t_d) i;
  ac_child : ∀ a, a ∈ made.*1 ∨ (∃ i, held !! i = Some a) →
    ∃ p, p ∈ ended ++ waiting ∧ p.1 = a.(at_parent) ∧ same_delivery p.2 a.(at_job);
}.

(** What the proof needs besides: where the contexts and spans in the state come from. *)
Record linked (t : traced) (ended waiting : list (C * dispatchJob)) (held : gmap nat delivery_attempt) : Prop := {
  lk_open : t.(t_open) = at_span <$> held;
  lk_ctx : ∀ p, p ∈ ended ++ waiting → t.(t_ctx) !! p.2.(j_id) = Some (MkContext false p.1);
  lk_live : ∀ j, j ∈ live t.(t_d) → ∃ p, p ∈ ended ++ waiting ∧ same_delivery p.2 j;
  lk_timers : ∀ j, j ∈ t.(t_d).(d_timers) → 0 < j.(j_retries);
  lk_starts : ∀ k s p, starts t.(t_log) !! k = Some (s, p) → s = NewSpan k p;
}.

Lemma starts_app l l' : starts (l ++ l') = starts l ++ starts l'.
Proof. apply omap_app. Qed.

(** One more start keeps the numbering. *)
Lemma starts_grow log s p name l :
  (∀ k s p, starts log !! k = Some (s, p) → s = NewSpan k p) →
  s = NewSpan (length (starts log)) p → starts l = [] →
  ∀ k s' p', starts (log ++ CStart s p name :: l) !! k = Some (s', p') → s' = NewSpan k p'.
Proof.
  intros Hlog Hs Hl k s' p'. rewrite starts_app. intros [Hk|[Hge Hk]]%lookup_app_Some; [by apply Hlog|].
  change (starts (CStart s p name :: l)) with ((s, p) :: starts l) in Hk. rewrite Hl in Hk.
  apply list_lookup_singleton_Some in Hk as [Hz [= <- <-]]. rewrite Hs. f_equal. lia.
Qed.

Lemma starts_keep log l :
  (∀ k s p, starts log !! k = Some (s, p) → s = NewSpan k p) → starts l = [] →
  ∀ k s p, starts (log ++ l) !! k = Some (s, p) → s = NewSpan k p.
Proof. intros Hlog Hl. by rewrite starts_app, Hl, app_nil_r. Qed.

Lemma tstep_dstep t t' : tstep t t' → dstep t.(t_d) t'.(t_d).
Proof.
  destruct 1; subst; simpl; try by econstructor.
  replace (t_d (t_enqueue a route onFail t)) with (enqueue a route onFail (t_d t)) by (by destruct route).
  by constructor.
Qed.

Lemma treach_dreach n size t : treach n size t → dreach n size t.(t_d).
Proof. induction 1 as [|t t' _ IH Hs]; [constructor|]. eapply dreach_step; [done|by apply tstep_dstep]. Qed.

(** ** Steps that only move jobs about *)

Lemma fmap_insert_id {B} (f : worker → B) (ws : list worker) i w w' :
  ws !! i = Some w → f w' = f w → f <$> <[i := w']> ws = f <$> ws.
Proof. intros Hi Hf. rewrite list_fmap_insert, Hf. apply list_insert_id. by rewrite list_lookup_fmap, Hi. Qed.

Lemma inflight_insert d i w w' :
  d.(d_workers) !! i = Some w →
  ∀ k, inflight (set_workers (<[i := w']> d.(d_workers)) d) k = if decide (i = k) then w'.(w_inflight) else inflight d k.
Proof.
  intros Hi k. unfold inflight. simpl. case_decide as E; [subst|by rewrite list_lookup_insert_ne].
  rewrite list_lookup_insert_eq by (by eapply lookup_lt_Some). done.
Qed.

(** The jobs parked on the queues, of which an update concerns one. *)
Lemma parked_split (ws : list worker) i w :
  ws !! i = Some w → ∃ rest, concat (option_list <$> (w_parked <$> ws)) ≡ₚ option_list w.(w_parked) ++ rest
    ∧ ∀ w', concat (option_list <$> (w_parked <$> <[i := w']> ws)) ≡ₚ option_list w'.(w_parked) ++ rest.
Proof.
  intros Hi. exists (concat (option_list <$> (w_parked <$> (take i ws ++ drop (S i) ws)))).
  assert (Hmid : ∀ w', concat (option_list <$> (w_parked <$> (take i ws ++ w' :: drop (S i) ws)))
      ≡ₚ option_list w'.(w_parked) ++ concat (option_list <$> (w_parked <$> (take i ws ++ drop (S i) ws)))).
  { intros w'. rewrite !fmap_app, !concat_app, !fmap_cons. cbn [concat]. solve_Permutation. }
  split.
  - rewrite <- (take_drop_middle ws i w Hi) at 1. apply Hmid.
  - intros w'. rewrite insert_take_drop by (by eapply lookup_lt_Some). apply Hmid.
Qed.

Record quiet (d d' : dispatcher) : Prop := {
  qu_finished : finished d' = finished d;
  qu_nextID : d'.(d_nextID) = d.(d_nextID);
  qu_inflight : ∀ i, inflight d' i = inflight d i;
  qu_timers : ∀ j, j ∈ d'.(d_timers) → j ∈ d.(d_timers);
}.

Lemma quiet_update d d' i w w' :
  d.(d_workers) !! i = Some w → w'.(w_inflight) = w.(w_inflight) → w'.(w_done) = w.(w_done) →
  d'.(d_workers) = <[i := w']> d.(d_workers) → d'.(d_nextID) = d.(d_nextID) → d'.(d_timers) = d.(d_timers) →
  quiet d d'.
Proof.
  intros Hi Hf Hdn Hws Hid Ht. split; [|done| |by rewrite Ht].
  - unfold finished. by rewrite Hws, (fmap_insert_id _ _ _ w).
  - intros k. unfold inflight. rewrite Hws. destruct (decide (i = k)) as [<-|]; [|by rewrite list_lookup_insert_ne].
    rewrite list_lookup_insert_eq by (by eapply lookup_lt_Some). by rewrite Hi.
Qed.

Lemma quiet_same d d' :
  d'.(d_workers) = d.(d_workers) → d'.(d_nextID) = d.(d_nextID) → (∀ j, j ∈ d'.(d_timers) → j ∈ d.(d_timers)) → quiet d d'.
Proof. intros Hw Hid Ht. split; unfold finished, inflight; rewrite ?Hw; done. Qed.

Lemma quiet_live d d' : quiet d d' → effect d d' → live d' ≡ₚ live d.
Proof.
  intros [Hf Hid _ _] [Hl _ _|j _ _ _ _ _ E|j b _ _ E _|j b j' _ _ _ _ _ _ _ _ E _]; [done|lia|..];
    apply Permutation_length in E; rewrite Hf in E; simpl in E; lia.
Qed.

(** A submission leaves the queue's producer parked, or returns. *)
Lemma submit_quiet pre j post d :
  d.(d_submitting) = pre ++ j :: post → (0 < length d.(d_workers))%nat →
  (∀ w, d.(d_workers) !! queueIndex j.(j_a) d = Some w → w.(w_parked) = None) →
  let d' := submit j (set_submitting (pre ++ post) d) in
  quiet d d' ∧ (if parked j d' then producing d' ≡ₚ producing d else j :: producing d' ≡ₚ producing d).
Proof.
  intros Hs Hlen Hlock d'. unfold d', submit. set (d0 := set_submitting (pre ++ post) d).
  assert (Hp : ∀ ws, d.(d_submitting) ++ ws ≡ₚ j :: (pre ++ post) ++ ws) by (intros ws; rewrite Hs; solve_Permutation).
  assert (Hidle : parked j d0 = false).
  { unfold parked. rewrite (queueIndex_length _ d d0) by done. simpl.
    destruct (d_workers d !! _) as [w|] eqn:E; [|done]. by rewrite (Hlock w eq_refl). }
  assert (Hdrop : quiet d (drop_job j d0) ∧ (if parked j (drop_job j d0) then producing (drop_job j d0) ≡ₚ producing d
                                             else j :: producing (drop_job j d0) ≡ₚ producing d)).
  { split; [by apply quiet_same|]. change (parked j (drop_job j d0)) with (parked j d0). rewrite Hidle.
    unfold producing. simpl. by rewrite Hp. }
  destruct (d_closed d0); [done|]. change (d_workers d0) with (d_workers d).
  rewrite (queueIndex_length (j_a j) d d0) by done.
  destruct (d_workers d !! queueIndex (j_a j) d) as [w|] eqn:Ew.
  2:{ apply lookup_ge_None in Ew. pose proof (queueIndex_lt (j_a j) d Hlen). lia. }
  destruct (w_draining w); [done|]. specialize (Hlock w eq_refl).
  assert (Hlk : ∀ w', parked j (set_workers (<[queueIndex (j_a j) d := w']> (d_workers d)) d0) = bool_decide (is_Some w'.(w_parked))).
  { intros w'. unfold parked. rewrite (queueIndex_length _ d) by apply length_insert. simpl.
    by rewrite list_lookup_insert_eq by (by eapply lookup_lt_Some). }
  destruct (parked_split _ _ _ Ew) as (rest & Hr & Hupd). rewrite Hlock in Hr.
  destruct (_ <? _)%nat; (split; [by eapply quiet_update; [exact Ew|..|reflexivity| |]|]); rewrite Hlk; unfold producing; simpl; rewrite ?Hlock; simpl;
    rewrite Hp, Hr, Hupd; simpl; rewrite ?Hlock; solve_Permutation.
Qed.

Lemma unpark_push_quiet d i w j :
  d.(d_workers) !! i = Some w → w.(w_parked) = Some j →
  quiet d (unpark_push i j w d) ∧ j :: producing (unpark_push i j w d) ≡ₚ producing d.
Proof.
  intros Hi Hp. split; [by eapply quiet_update; [exact Hi|..|reflexivity| |]|].
  destruct (parked_split _ _ _ Hi) as (rest & Hr & Hupd). unfold producing. simpl. rewrite Hr, Hupd, Hp. simpl. solve_Permutation.
Qed.

Lemma unpark_drop_quiet d i w j :
  d.(d_workers) !! i = Some w → w.(w_parked) = Some j →
  quiet d (unpark_drop i j w d) ∧ j :: producing (unpark_drop i j w d) ≡ₚ producing d.
Proof.
  intros Hi Hp. split; [by eapply quiet_update; [exact Hi|..|reflexivity| |]|].
  destruct (parked_split _ _ _ Hi) as (rest & Hr & Hupd). unfold producing. simpl. rewrite Hr, Hupd, Hp. simpl. solve_Permutation.
Qed.

(** ** The account is kept *)

Definition accounted (t : traced) : Prop :=
  ∃ ended waiting made held, account t ended waiting made held ∧ linked t ended waiting held.

Section keep.
Context (t : traced) (d' : dispatcher).
Hypothesis Hacc : accounted t.
Hypothesis Hq : quiet t.(t_d) d'.
Hypothesis Hl : live d' ≡ₚ live t.(t_d).

(** A step without calls, whose producers stay, a retried one possibly added. *)
Lemma account_add extra :
  producing d' ≡ₚ extra ++ producing t.(t_d) → (∀ j, j ∈ extra → 0 < j.(j_retries)) → accounted (t_set d' t.(t_log) t).
Proof using Type*.
  intros Hp Hx. destruct Hacc as (e & w & m & h & [Hlog Hids Hw Hm Hh Hc] & [Ho Hctx Hlive Ht Hs]), Hq as [Hf Hid Hin Hti].
  exists e, w, m, h. split; split; simpl; rewrite ?Hf, ?Hid; [done|done| |done| |done|done|done| | |done].
  - rewrite Hw, Hp, filter_app. replace (filter (λ j, j_retries j = 0) extra) with (@nil dispatchJob); [done|].
    clear Hp. induction extra as [|k extra IH]; [done|]. rewrite filter_cons_False; [apply IH; intros; apply Hx; by right|].
    specialize (Hx k (list_elem_of_here _ _)). lia.
  - intros i. by rewrite Hin.
  - intros j. rewrite Hl. apply Hlive.
  - intros j Hj. apply Ht. by apply Hti.
Qed.

Lemma account_keep : producing d' ≡ₚ producing t.(t_d) → accounted (t_set d' t.(t_log) t).
Proof using Type*. intros Hp. apply (account_add []); [done|]. intros j Hj. by apply elem_of_nil in Hj. Qed.

(** A producer returns from [submit]. *)
Lemma account_return j : j :: producing d' ≡ₚ producing t.(t_d) → accounted (t_set d' (submitted j t) t).
Proof using Type*.
  intros Hp. unfold submitted. destruct (Z.eqb_spec (j_retries j) 0) as [Hz|Hz].
  2:{ destruct Hacc as (e & w & m & h & [Hlog Hids Hw Hm Hh Hc] & [Ho Hctx Hlive Ht Hs]), Hq as [Hf Hid Hin Hti].
      exists e, w, m, h. split; split; simpl; rewrite ?Hf, ?Hid; try done.
      - by rewrite Hw, <- Hp, filter_cons_False.
      - intros i. by rewrite Hin.
      - intros k. rewrite Hl. apply Hlive.
      - intros k Hk. apply Ht. by apply Hti. }
  destruct Hacc as (e & w & m & h & [Hlog Hids Hw Hm Hh Hc] & [Ho Hctx Hlive Ht Hs]), Hq as [Hf Hid Hin Hti].
  rewrite <- Hp, filter_cons_True in Hw by done.
  assert (Hin_w : j ∈ w.*2) by (rewrite Hw; left). apply list_elem_of_fmap in Hin_w as ([c j0] & -> & Hpw).
  rewrite (Hctx (c, j0)) by (apply elem_of_app; by right). simpl.
  apply list_elem_of_split in Hpw as (w1 & w2 & ->).
  assert (Hew : ((c, j0) :: e) ++ w1 ++ w2 ≡ₚ e ++ w1 ++ (c, j0) :: w2) by solve_Permutation.
  exists ((c, j0) :: e), (w1 ++ w2), m, h. split; split; simpl; rewrite ?Hf, ?Hid; try done.
  - unfold End_. rewrite Hlog, !bind_app, bind_cons. simpl. solve_Permutation.
  - change ((λ p, j_id p.2) <$> ((c, j0) :: e) ++ w1 ++ w2 ≡ₚ seqZ 1 (d_nextID (t_d t))). by rewrite Hew.
  - rewrite !fmap_app, fmap_cons in *. apply (Permutation_cons_inv (a := j0)). rewrite <- Hw. solve_Permutation.
  - intros i. by rewrite Hin.
  - intros a Ha. destruct (Hc a Ha) as (p & Hp' & Hx). exists p. split; [|done]. by rewrite (elem_of_Permutation_proper _ _ _ Hew).
  - intros p Hp'. apply Hctx. by rewrite <- Hew.
  - intros k. rewrite Hl. intros (p & Hp' & Hx)%Hlive. exists p. split; [|done]. by rewrite Hew.
  - intros k Hk. apply Ht. by apply Hti.
  - by apply starts_keep.
Qed.
End keep.

Lemma account_new n size : accounted (t_new n size).
Proof.
  assert (Hf : finished (newDispatcher n size) = []) by (unfold finished; simpl; by induction (Z.to_nat _)).
  assert (Hl : live (newDispatcher n size) = []) by (unfold live; simpl; by induction (Z.to_nat _)).
  assert (Hp : producing (newDispatcher n size) = []) by (unfold producing; simpl; by induction (Z.to_nat _)).
  assert (Hi : ∀ i, inflight (newDispatcher n size) i = None).
  { intros i. unfold inflight. simpl. destruct (replicate _ _ !! i) as [w|] eqn:E; [|done].
    by apply lookup_replicate in E as [-> _]. }
  exists [], [], [], ∅. split; split; simpl; rewrite ?Hf, ?Hl, ?Hp; try done.
  - intros a [Ha|[i Ha]]; [by apply elem_of_nil in Ha|]. by rewrite lookup_empty in Ha.
  - intros p Hp'. by apply elem_of_nil in Hp'.
  - intros j Hj. by apply elem_of_nil in Hj.
  - intros j Hj. by apply elem_of_nil in Hj.
Qed.

Lemma account_enqueue a route onFail t :
  dinv t.(t_d) → t.(t_d).(d_nextID) + 1 < 2 ^ 64 → accounted t → accounted (t_enqueue a route onFail t).
Proof.
  intros Hd Hlt Hacc. destruct route as [|r route]; [done|]. unfold t_enqueue, enqueueSpan, Start, SetAttributes.
  assert (Hnext : incr64 (d_nextID (t_d t)) = d_nextID (t_d t) + 1).
  { pose proof (dv_range _ Hd). unfold incr64. rewrite Z.mod_small; lia. }
  destruct Hacc as (e & w & m & h & [Hlog Hids Hw Hm Hh Hc] & [Ho Hctx Hlive Ht Hs]).
  set (c := NewSpan _ _). set (j := MkJob (d_nextID (t_d t) + 1) (Clone a) (r :: route) onFail 0).
  assert (Hew : e ++ (c, j) :: w ≡ₚ (c, j) :: e ++ w) by solve_Permutation.
  assert (Hold : ∀ p, p ∈ e ++ w → j_id p.2 ≠ d_nextID (t_d t) + 1).
  { intros p Hp E. assert (Hin : j_id p.2 ∈ seqZ 1 (d_nextID (t_d t))) by (rewrite <- Hids; apply list_elem_of_fmap; eauto).
    apply elem_of_seqZ in Hin. lia. }
  exists e, ((c, j) :: w), m, h. rewrite Hnext. split; split; simpl; rewrite ?Hnext; try done.
  - rewrite <- !app_assoc. simpl. rewrite Hlog. simpl. solve_Permutation.
  - rewrite Hew, fmap_cons. simpl. rewrite Hids. pose proof (dv_range _ Hd).
    rewrite seqZ_app by lia. change (seqZ (1 + d_nextID (t_d t)) 1) with [1 + d_nextID (t_d t)].
    rewrite <- Permutation_cons_append. by replace (1 + d_nextID (t_d t)) with (d_nextID (t_d t) + 1) by lia.
  - unfold producing. simpl. rewrite Hw. unfold producing. rewrite !filter_app. simpl.
    rewrite filter_cons_True by done. rewrite filter_nil. solve_Permutation.
  - intros x Hx. destruct (Hc x Hx) as (p & Hp & Hpx). exists p. split; [|done]. rewrite Hew. by right.
  - intros p Hp. rewrite Hew in Hp. apply elem_of_cons in Hp as [->|Hp]; simpl; [by rewrite lookup_insert_eq|].
    rewrite lookup_insert_ne; [by apply Hctx|]. intros E. by apply (Hold p Hp).
  - intros k Hk. assert (Hk' : k = j ∨ k ∈ live (t_d t)).
    { revert Hk. unfold live. simpl. rewrite !elem_of_app, list_elem_of_singleton. tauto. }
    destruct Hk' as [->|Hk']; [exists (c, j); split; [rewrite Hew; left|done]|].
    destruct (Hlive k Hk') as (p & Hp & Hpx). exists p. split; [|done]. rewrite Hew. by right.
  - rewrite <- !app_assoc. by apply starts_grow.
Qed.

Lemma account_take i w j rest t :
  dinv t.(t_d) → t.(t_d).(d_workers) !! i = Some w → w.(w_inflight) = None → w.(w_queue) = j :: rest →
  accounted t → accounted (t_take i j rest w t).
Proof.
  intros Hd Hi Hf Hqu (e & wt & m & h & [Hlog Hids Hw Hm Hh Hc] & [Ho Hctx Hlive Ht Hs]).
  assert (Hj : j ∈ live (t_d t)).
  { destruct (workers_live_split _ _ _ Hi) as (rest' & Hr & _). unfold live. rewrite Hr, !elem_of_app. unfold w_live.
    rewrite Hqu, !elem_of_app. do 3 right. left. do 2 right. left. }
  destruct (Hlive j Hj) as (p & Hp & Hpj). pose proof Hpj as (Eid & _).
  unfold t_take, startDeliverySpan, Start, SetAttributes. rewrite <- Eid, (Hctx p Hp). simpl. rewrite <- !app_assoc. simpl.
  set (s := NewSpan (length (starts (t_log t))) p.1). set (a := MkAttempt s p.1 j).
  assert (Hnone : h !! i = None).
  { specialize (Hh i). unfold inflight in Hh. rewrite Hi in Hh. simpl in Hh. rewrite Hf in Hh. by destruct (h !! i). }
  assert (Hfin : finished (set_workers (<[i := take_job j rest w]> (d_workers (t_d t))) (t_d t)) = finished (t_d t)).
  { unfold finished. simpl. by rewrite (fmap_insert_id _ _ _ w). }
  assert (Hl : live (set_workers (<[i := take_job j rest w]> (d_workers (t_d t))) (t_d t)) ≡ₚ live (t_d t)).
  { destruct (workers_live_split _ _ _ Hi) as (rest' & Hr & Hupd). unfold live. simpl. rewrite Hupd, Hr.
    unfold w_live. simpl. rewrite Hf, Hqu. simpl. solve_Permutation. }
  exists e, wt, m, (<[i := a]> h). split; split; simpl; rewrite ?Hfin; try done.
  - rewrite map_to_list_insert, bind_cons by done. rewrite Hlog. simpl. solve_Permutation.
  - unfold producing. simpl. by rewrite (fmap_insert_id _ _ _ w).
  - intros k. rewrite (inflight_insert _ _ w) by done. case_decide as E; [subst; by rewrite lookup_insert_eq|].
    by rewrite lookup_insert_ne.
  - intros x [Hx|[k Hk]]; [apply Hc; by left|]. apply lookup_insert_Some in Hk as [[_ <-]|[_ Hk]]; [by exists p|].
    apply Hc. right. by exists k.
  - by rewrite Ho, fmap_insert.
  - intros k. rewrite Hl. apply Hlive.
  - by apply starts_grow.
Qed.

(** The jobs a settled attempt leaves are the others, or the same delivery once more. *)
Lemma settle_live d d' k :
  effect d d' → d'.(d_nextID) = d.(d_nextID) → k ∈ live d' → ∃ k0, k0 ∈ live d ∧ same_delivery k0 k.
Proof.
  intros He Hid Hk. destruct He as [Hl _ _|j _ _ _ _ _ E|j b Hj Hl _ _|j b j' Hl Hj Ei _ _ _ Ea Er _ _].
  - exists k. by rewrite <- Hl.
  - lia.
  - exists k. rewrite <- Hl. split; [by right|done].
  - assert (Hin : k ∈ j' :: live d) by (rewrite <- Hl; by right). apply elem_of_cons in Hin as [->|Hin]; [by exists j|by exists k].
Qed.

Lemma settle_fields j b d :
  (settle j b d).(d_nextID) = d.(d_nextID) ∧ (settle j b d).(d_workers) = d.(d_workers)
  ∧ (settle j b d).(d_submitting) = d.(d_submitting)
  ∧ (∀ k, k ∈ (settle j b d).(d_timers) → k ∈ d.(d_timers) ∨ k.(j_retries) = j.(j_retries) + 1).
Proof.
  assert (Has : ∀ f, (settle_as f (j_id j) d).(d_nextID) = d.(d_nextID) ∧ (settle_as f (j_id j) d).(d_workers) = d.(d_workers)
    ∧ (settle_as f (j_id j) d).(d_submitting) = d.(d_submitting) ∧ (settle_as f (j_id j) d).(d_timers) = d.(d_timers)).
  { intros f. unfold settle_as, pendingDone. by destruct (d_pending d !! _). }
  unfold settle. repeat case_match;
    try (match goal with |- context [settle_as ?f] => destruct (Has f) as (-> & -> & -> & ->) end; by auto).
  simpl. split_and!; [done..|]. intros k [Hk| ->%list_elem_of_singleton]%elem_of_app; auto.
Qed.

Lemma account_settle i w j b span t :
  dinv t.(t_d) → retry_inv t.(t_d) →
  t.(t_d).(d_workers) !! i = Some w → w.(w_inflight) = Some j → t.(t_open) !! i = Some span →
  accounted t → accounted (t_settle i j b w span t).
Proof.
  intros Hd Hret Hi Hf Hsp (e & wt & m & h & [Hlog Hids Hw Hm Hh Hc] & [Ho Hctx Hlive Ht Hs]).
  assert (Hj : j ∈ live (t_d t)).
  { destruct (workers_live_split _ _ _ Hi) as (rest' & Hr & _). unfold live. rewrite Hr, !elem_of_app. unfold w_live.
    rewrite Hf, !elem_of_app. do 3 right. left. right. left. left. }
  assert (Ha : ∃ a, h !! i = Some a ∧ a.(at_job) = j ∧ a.(at_span) = span).
  { specialize (Hh i). unfold inflight in Hh. rewrite Hi in Hh. simpl in Hh. rewrite Hf in Hh.
    rewrite Ho, lookup_fmap in Hsp. destruct (h !! i) as [a|]; [|done]. simpl in *. simplify_eq. eauto. }
  destruct Ha as (a & Ha & Haj & <-).
  pose proof (effect_settle (t_d t) i w j b Hi Hf) as He.
  set (d1 := set_workers (<[i := finish_job j b w]> (d_workers (t_d t))) (t_d t)) in *.
  destruct (settle_fields j b d1) as (Hid & Hws & Hsub & Hti).
  exists e, wt, ((a, b) :: m), (delete i h). unfold t_settle. fold d1. split; split; simpl; rewrite ?Hid; try done.
  - rewrite <- (map_to_list_delete h i a Ha), bind_cons in Hlog.
    assert (Hout : endDeliverySpan (at_span a) b (t_log t) = t_log t ++ outcome_calls (at_span a) b).
    { unfold endDeliverySpan, Dropped, SetAttributes, SetStatus, End_. destruct b; by rewrite <- !app_assoc. }
    rewrite Hout, Hlog. simpl. solve_Permutation.
  - unfold producing. rewrite Hsub, Hws. simpl. by rewrite (fmap_insert_id _ _ _ w).
  - assert (Hfin : finished (settle j b d1) ≡ₚ (j, b) :: finished (t_d t)).
    { unfold finished. rewrite Hws. by apply (finished_update _ _ w _ [(j, b)]). }
    by rewrite Hfin, Hm, Haj.
  - intros k. unfold inflight at 1. rewrite Hws. fold (inflight d1 k). unfold d1.
    rewrite (inflight_insert _ _ w) by done. case_decide as E; [subst; by rewrite lookup_delete_eq|].
    by rewrite lookup_delete_ne.
  - intros x [Hx|[k Hk]]; [|apply lookup_delete_Some in Hk as [_ Hk]; apply Hc; right; by exists k].
    apply elem_of_cons in Hx as [->|Hx]; apply Hc; [right; by exists i|by left].
  - by rewrite Ho, fmap_delete.
  - intros k Hk. destruct (settle_live _ _ k He Hid Hk) as (k0 & Hk0 & Hsame).
    destruct (Hlive k0 Hk0) as (p & Hp & Hpk). exists p. split; [done|]. unfold same_delivery in *. intuition congruence.
  - intros k [Hk| ->]%Hti; [by apply Ht|]. pose proof (rt_live _ Hret j Hj). lia.
  - unfold endDeliverySpan, Dropped, SetAttributes, SetStatus, End_. destruct b; rewrite <- ?app_assoc; by apply starts_keep.
Qed.

Lemma treach_accounted n size t : treach n size t → accounted t.
Proof.
  induction 1 as [|t t' Hr IH Hs]; [apply account_new|]. pose proof (treach_dreach _ _ _ Hr) as Hd.
  pose proof (dreach_inv _ _ _ Hd) as Hinv. pose proof (dstep_effect _ _ Hinv (tstep_dstep _ _ Hs)) as He.
  destruct Hs as [t a route onFail Hlt|t pre j post d' Hsub Hlock ->|t i w j Hi Hp Hl|t i w j Hi Hp Hst|t i w j rest Hi Hf Hqu
         |t i w j b span Hi Hf Hsp|t pre j post Htm|t|t Hst Hpk].
  - by apply account_enqueue.
  - destruct (submit_quiet pre j post (t_d t) Hsub (dv_some _ Hinv) Hlock) as [Hq Hpr]. pose proof (quiet_live _ _ Hq He) as Hlv.
    destruct (parked _ _); [by apply (account_keep _ _ IH Hq Hlv)|by apply (account_return _ _ IH Hq Hlv)].
  - destruct (unpark_push_quiet _ _ _ _ Hi Hp) as [Hq Hpr]. by apply (account_return _ _ IH Hq (quiet_live _ _ Hq He)).
  - destruct (unpark_drop_quiet _ _ _ _ Hi Hp) as [Hq Hpr]. by apply (account_return _ _ IH Hq (quiet_live _ _ Hq He)).
  - by apply account_take.
  - apply account_settle; try done. by eapply dreach_retry.
  - assert (Hq : quiet (t_d t) (set_submitting (d_submitting (t_d t) ++ [j]) (set_timers (pre ++ post) (t_d t)))).
    { apply quiet_same; [done|done|]. simpl. rewrite Htm. intros k. rewrite !elem_of_app, elem_of_cons. tauto. }
    pose proof (quiet_live _ _ Hq He) as Hlv. apply (account_add _ _ IH Hq Hlv [j]).
    + unfold producing. simpl. solve_Permutation.
    + intros k ->%list_elem_of_singleton. destruct IH as (? & ? & ? & ? & _ & [_ _ _ Ht _]). apply Ht. rewrite Htm.
      apply elem_of_app. right. left.
  - assert (Hq : quiet (t_d t) (unblockProducers (t_d t))) by (by apply quiet_same).
    by apply (account_keep _ _ IH Hq (quiet_live _ _ Hq He)).
  - assert (Hq : quiet (t_d t) (close_queues (t_d t))) by (by apply quiet_same).
    by apply (account_keep _ _ IH Hq (quiet_live _ _ Hq He)).
Qed.

(** Tracing changes nothing about delivery: the dispatcher reaches the same states with it. *)
Lemma tracing_neutral n size d : dreach n size d ↔ ∃ t, treach n size t ∧ t.(t_d) = d.
Proof.
  split; [|intros (t & Ht & <-); by eapply treach_dreach].
  induction 1 as [|d d' _ (t & Ht & <-) Hs]; [eexists; split; [constructor|done]|].
  inversion Hs as [d0 a route onFail Hlt|d0 pre j post Hsub Hlock|d0 i w j Hi Hp Hl|d0 i w j Hi Hp Hst|d0 i w j rest Hi Hf Hqu
         |d0 i w j b Hi Hf|d0 pre j post Htm|d0|d0 Hst Hpk]; subst.
  - exists (t_enqueue a route onFail t). split; [|by destruct route]. eapply treach_step; [done|by constructor].
  - eexists. split; [eapply treach_step; [done|by eapply t_step_submit]|done].
  - eexists. split; [eapply treach_step; [done|by eapply t_step_unpark_push]|done].
  - eexists. split; [eapply treach_step; [done|by eapply t_step_unpark_drop]|done].
  - eexists. split; [eapply treach_step; [done|by eapply t_step_take]|done].
  - destruct (treach_accounted _ _ _ Ht) as (e & wt & m & h & [_ _ _ _ Hh _] & [Ho _ _ _ _]).
    specialize (Hh i). unfold inflight in Hh. rewrite Hi in Hh. simpl in Hh. rewrite Hf in Hh.
    assert (Hsp : ∃ s, t.(t_open) !! i = Some s).
    { rewrite Ho, lookup_fmap. destruct (h !! i); [by eexists|done]. }
    destruct Hsp as [s Hsp]. eexists. split; [eapply treach_step; [done|by eapply t_step_settle]|done].
  - eexists. split; [eapply treach_step; [done|by eapply t_step_timer]|done].
  - eexists. split; [eapply treach_step; [done|by apply t_step_stop]|done].
  - eexists. split; [eapply treach_step; [done|by apply t_step_close]|done].
Qed.

(** ** One trace per delivery *)

Lemma starts_bind {A} (f : A → list call) (g : A → C * C) (l : list A) :
  (∀ x, starts (f x) = [g x]) → starts (l ≫= f) = g <$> l.
Proof. intros Hf. induction l as [|x l IH]; [done|]. rewrite bind_cons, starts_app, Hf, IH. done. Qed.

Lemma NoDup_fmap_elem {A B} (f : A → B) (l : list A) x y :
  NoDup (f <$> l) → x ∈ l → y ∈ l → f x = f y → x = y.
Proof.
  intros Hn [i Hi]%list_elem_of_lookup_1 [k Hk]%list_elem_of_lookup_1 E.
  assert (i = k); [|by simplify_eq]. eapply (NoDup_lookup _ _ _ _ Hn); rewrite list_lookup_fmap.
  - by rewrite Hi.
  - by rewrite Hk, E.
Qed.

(** The spans of an account, with their parents. *)
Definition spans (ended waiting : list (C * dispatchJob)) (made : list (delivery_attempt * bool)) (held : gmap nat delivery_attempt) : list (C * C) :=
  ((λ p, (p.1, no_span)) <$> (ended ++ waiting)) ++ ((λ p, (p.1.(at_span), p.1.(at_parent))) <$> made)
  ++ ((λ p, (p.2.(at_span), p.2.(at_parent))) <$> map_to_list held).

Lemma starts_spans t e w m h : account t e w m h → starts t.(t_log) ≡ₚ spans e w m h.
Proof.
  intros [Hlog _ _ _ _ _]. unfold starts. rewrite Hlog. fold (starts (
    (e ≫= λ p, root_calls p ++ [CEnd p.1]) ++ (w ≫= root_calls)
    ++ (m ≫= λ p, attempt_calls p.1 ++ outcome_calls p.1.(at_span) p.2) ++ (map_to_list h ≫= λ p, attempt_calls p.2))).
  rewrite !starts_app.
  rewrite (starts_bind _ (λ p, (p.1, no_span)) e), (starts_bind _ (λ p, (p.1, no_span)) w),
    (starts_bind _ (λ p, (p.1.(at_span), p.1.(at_parent))) m), (starts_bind _ (λ p, (p.2.(at_span), p.2.(at_parent))) (map_to_list h));
    [|by intros [a []]..].
  unfold spans. by rewrite fmap_app, <- app_assoc.
Qed.

Lemma starts_distinct `{!TracerLaws C} log :
  (∀ k s p, starts log !! k = Some (s, p) → s = NewSpan k p) → NoDup (starts log).*1.
Proof.
  intros Hs. apply NoDup_alt. intros i k s Hi Hk. rewrite list_lookup_fmap in Hi, Hk.
  destruct (starts log !! i) as [[s1 p1]|] eqn:E1; [|done]. destruct (starts log !! k) as [[s2 p2]|] eqn:E2; [|done].
  simpl in *. apply Hs in E1, E2. simplify_eq. by eapply new_distinct.
Qed.

(** C11: Every delivery is one trace. In any interleaving the tracer is called for exactly one
    enqueue span per accepted delivery, ended when its producer returned, and one dispatch span
    per attempt, made or going on, which carries the alert, the route and the retry count and is
    closed with the attempt's outcome; nothing else is traced. No two spans are the same, a
    dispatch span belongs to the trace of its delivery's enqueue span, and different deliveries
    have different traces. *)
Theorem deliveries_traced `{!TracerLaws C} n size t :
  treach n size t →
  ∃ ended waiting made held, account t ended waiting made held
    ∧ NoDup (spans ended waiting made held).*1
    ∧ (∀ a, a ∈ made.*1 ∨ (∃ i, held !! i = Some a) → TraceID a.(at_span) = TraceID a.(at_parent))
    ∧ (∀ p q, p ∈ ended ++ waiting → q ∈ ended ++ waiting → TraceID p.1 = TraceID q.1 → p = q).
Proof.
  intros (e & w & m & h & Ha & Hlk)%treach_accounted. exists e, w, m, h. pose proof (starts_spans _ _ _ _ _ Ha) as Hsp.
  pose proof (lk_starts _ _ _ _ Hlk) as Hs. pose proof (starts_distinct _ Hs) as Hn. rewrite Hsp in Hn.
  assert (Hnum : ∀ s p, (s, p) ∈ spans e w m h → ∃ k, s = NewSpan k p).
  { intros s p. rewrite <- Hsp. intros [k Hk]%list_elem_of_lookup_1. exists k. by apply Hs. }
  assert (Hroot : ∀ p, p ∈ e ++ w → ∃ k, p.1 = NewSpan k no_span).
  { intros p Hp. apply Hnum, elem_of_app. left. by apply (list_elem_of_fmap_2 (λ p, (p.1, no_span))). }
  split_and!; [done|done| |].
  - intros a Ha'. destruct (ac_child _ _ _ _ _ Ha a Ha') as (p & Hp & Hpa & _). destruct (Hroot p Hp) as [k Hk].
    assert (Hin : (at_span a, at_parent a) ∈ spans e w m h).
    { apply elem_of_app. right. apply elem_of_app. destruct Ha' as [Ha'|[i Hi]].
      - left. apply list_elem_of_fmap in Ha' as (x & -> & Hx). by apply (list_elem_of_fmap_2 (λ p, (p.1.(at_span), p.1.(at_parent)))).
      - right. apply (list_elem_of_fmap_2 (λ p, (p.2.(at_span), p.2.(at_parent))) _ (i, a)). by apply elem_of_map_to_list. }
    destruct (Hnum _ _ Hin) as [k' ->]. apply new_child. rewrite <- Hpa, Hk. apply new_valid.
  - intros p q Hp Hq Et. destruct (Hroot p Hp) as [k Hk], (Hroot q Hq) as [k' Hk']. rewrite Hk, Hk' in Et.
    apply new_root in Et; [|apply no_span_invalid..]. subst k'.
    unfold spans in Hn. rewrite fmap_app in Hn. apply NoDup_app in Hn as [Hn _]. rewrite <- list_fmap_compose in Hn.
    eapply NoDup_fmap_elem; [exact Hn|done|done|]. simpl. congruence.
Qed.
End tracing.

(** A tracer that numbers its spans; a trace has the number of its first span. *)
#[local] Instance counting_tracer : Tracer (option (nat * nat)) := {
  no_span := None;
  IsValid c := bool_decide (is_Some c);
  TraceID c := match c with Some (trace, _) => Z.of_nat trace | None => -1 end;
  NewSpan n c := Some (match c with Some (trace, _) => trace | None => n end, n);
}.

#[local] Instance counting_laws : TracerLaws (option (nat * nat)).
Proof.
  split; simpl; try done.
  - intros n c m c' E. by simplify_eq.
  - by intros n [[trace k]|].
  - intros n m [] [] Hc Hc' E; try done. lia.
Qed.

(** A resolve that fails once and is taken up again by the only worker. *)
Definition w_resolve : Alert :=
  MkAlert "ab" "Pod" "shop" "web-1" "" "critical" "CrashLoop" "" "" ∅ ∅ ∅ 0 0 true false None.
Definition t_job (retries : Z) : dispatchJob := MkJob 1 w_resolve ["slack"] None retries.
Definition run_t1 := t_enqueue (C := option (nat * nat)) w_resolve ["slack"] None (t_new 1 1).
Definition run_t2 :=
  let d := submit (t_job 0) (set_submitting ([] ++ []) run_t1.(t_d)) in
  t_set d (if parked (t_job 0) d then run_t1.(t_log) else submitted (t_job 0) run_t1) run_t1.
Definition run_t3 := t_take 0 (t_job 0) [] (MkWorker [t_job 0] None false None [t_job 0] []) run_t2.
Definition run_t4 := t_settle 0 (t_job 0) false (MkWorker [] None false (Some (t_job 0)) [t_job 0] []) (Some (0, 1)%nat) run_t3.
Definition run_t5 := t_set (set_submitting (run_t4.(t_d).(d_submitting) ++ [t_job 1]) (set_timers ([] ++ []) run_t4.(t_d))) run_t4.(t_log) run_t4.
Definition run_t6 :=
  let d := submit (t_job 1) (set_submitting ([] ++ []) run_t5.(t_d)) in
  t_set d (if parked (t_job 1) d then run_t5.(t_log) else submitted (t_job 1) run_t5) run_t5.
Definition run_t7 := t_take 0 (t_job 1) [] (MkWorker [t_job 1] None false None [t_job 0; t_job 1] [(t_job 0, false)]) run_t6.

Lemma run_t7_reach : treach 1 1 run_t7.
Proof.
  assert (H1 : treach 1 1 run_t1) by (eapply treach_step; [constructor|by constructor]).
  assert (H2 : treach 1 1 run_t2).
  { eapply treach_step; [exact H1|]. apply (t_step_submit _ [] (t_job 0) []); [done| |done].
    intros w Hw. vm_compute in Hw. by simplify_eq. }
  assert (H3 : treach 1 1 run_t3) by (eapply treach_step; [exact H2|by apply t_step_take]).
  assert (H4 : treach 1 1 run_t4) by (eapply treach_step; [exact H3|by apply t_step_settle]).
  assert (H5 : treach 1 1 run_t5) by (eapply treach_step; [exact H4|by apply t_step_timer]).
  assert (H6 : treach 1 1 run_t6).
  { eapply treach_step; [exact H5|]. apply (t_step_submit _ [] (t_job 1) []); [done| |done].
    intros w Hw. vm_compute in Hw. by simplify_eq. }
  eapply treach_step; [exact H6|]. by apply t_step_take.
Qed.

(** Both attempts are children of the one enqueue span. *)
Example run_t7_starts :
  starts run_t7.(t_log) = [(Some (0, 0), None); (Some (0, 1), Some (0, 0)); (Some (0, 2), Some (0, 0))]%nat.
Proof. reflexivity. Qed.

Lemma deliveries_traced_witness :
  ∃ ended waiting made held, account run_t7 ended waiting made held ∧ NoDup (spans ended waiting made held).*1.
Proof.
  destruct (deliveries_traced 1 1 run_t7 run_t7_reach) as (e & w & m & h & Ha & Hn & _). by exists e, w, m, h.
Defined.
