(* ===== verification/DispatchMetrics.v ===== *)
(** * The delivery pool with its counters

    The steps of [Dispatcher] with the samples internal/app/{dispatcher,dispatcher_outbox,
    deadletter}.go record in them, in order: the outbox gauge, set under the outbox lock, and
    the counters of dropped, retried and dead-lettered deliveries and of full queues. The
    controller installs the dead-letter ring ([SetDeadLetter]), so a dead letter is counted.
    The depth gauge and the histogram of blocked time are left out: the first is read from the
    queues without a lock, the second holds times. *)
From S2P Require Import Prelude GoStd Metrics AlertModel AlertStore Dispatcher.

(** ** The samples of each operation *)

Definition pendingAdd_samples (id : Z) (r : PendingDelivery) (d : dispatcher) : list sample :=
  [Gauged OutboxPending [] (Z.of_nat (size (<[id := r]> d.(d_pending))))].

Definition pendingDone_samples (id : Z) (d : dispatcher) : list sample :=
  match d.(d_pending) !! id with
  | Some _ => [Gauged OutboxPending [] (Z.of_nat (size (delete id d.(d_pending))))]
  | None => []
  end.

Definition enqueue_samples (a : Alert) (route : list string) (d : dispatcher) : list sample :=
  match route with
  | [] => []
  | _ => let id := incr64 d.(d_nextID) in pendingAdd_samples id (MkPending id (Some (CloneWithoutDetails (Clone a))) route) d
  end.

Definition submit_samples (j : dispatchJob) (d : dispatcher) : list sample :=
  if d.(d_closed) then [Incd DispatchDropped []]
  else match d.(d_workers) !! queueIndex j.(j_a) d with
       | None => []
       | Some w =>
         if w.(w_draining) then [Incd DispatchDropped []]
         else if (length w.(w_queue) <? d.(d_cap))%nat then [] else [Incd DispatchQueueFull []]
       end.

Definition settle_samples (j : dispatchJob) (delivered : bool) (d : dispatcher) : list sample :=
  if delivered then pendingDone_samples j.(j_id) d
  else match j.(j_onFail) with
       | Some _ => pendingDone_samples j.(j_id) d
       | None =>
         if j.(j_a).(a_Resolved) && (j.(j_retries) <? maxResolveRetries) then [Incd DispatchResolveRetries []]
         else Incd DeadLetterTotal [] :: pendingDone_samples j.(j_id) d
       end.

(** ** The metered pool *)

Record metered := MkMetered { mt_d : dispatcher; mt_log : list sample }.
Definition m_new (n size : Z) : metered := MkMetered (newDispatcher n size) [].
Definition m_next (d : dispatcher) (s : list sample) (t : metered) : metered := MkMetered d (t.(mt_log) ++ s).

Inductive mstep : metered → metered → Prop :=
  | m_step_enqueue t a route onFail :
      t.(mt_d).(d_nextID) + 1 < 2 ^ 64 →
      mstep t (m_next (enqueue a route onFail t.(mt_d)) (enqueue_samples a route t.(mt_d)) t)
  | m_step_submit t pre j post :
      t.(mt_d).(d_submitting) = pre ++ j :: post →
      (∀ w, t.(mt_d).(d_workers) !! queueIndex j.(j_a) t.(mt_d) = Some w → w.(w_parked) = None) →
      mstep t (m_next (submit j (set_submitting (pre ++ post) t.(mt_d))) (submit_samples j (set_submitting (pre ++ post) t.(mt_d))) t)
  | m_step_unpark_push t i w j :
      t.(mt_d).(d_workers) !! i = Some w → w.(w_parked) = Some j → (length w.(w_queue) < t.(mt_d).(d_cap))%nat →
      mstep t (m_next (unpark_push i j w t.(mt_d)) [] t)
  | m_step_unpark_drop t i w j :
      t.(mt_d).(d_workers) !! i = Some w → w.(w_parked) = Some j → t.(mt_d).(d_stop) = true →
      mstep t (m_next (unpark_drop i j w t.(mt_d)) [Incd DispatchDropped []] t)
  | m_step_take t i w j rest :
      t.(mt_d).(d_workers) !! i = Some w → w.(w_inflight) = None → w.(w_queue) = j :: rest →
      mstep t (m_next (set_workers (<[i := take_job j rest w]> t.(mt_d).(d_workers)) t.(mt_d)) [] t)
  | m_step_settle t i w j delivered d :
      t.(mt_d).(d_workers) !! i = Some w → w.(w_inflight) = Some j →
      d = set_workers (<[i := finish_job j delivered w]> t.(mt_d).(d_workers)) t.(mt_d) →
      mstep t (m_next (settle j delivered d) (settle_samples j delivered d) t)
  | m_step_timer t pre j post :
      t.(mt_d).(d_timers) = pre ++ j :: post →
      mstep t (m_next (set_submitting (t.(mt_d).(d_submitting) ++ [j]) (set_timers (pre ++ post) t.(mt_d))) [] t)
  | m_step_stop t : mstep t (m_next (unblockProducers t.(mt_d)) [] t)
  | m_step_close t :
      t.(mt_d).(d_stop) = true → (∀ i w, t.(mt_d).(d_workers) !! i = Some w → w.(w_parked) = None) →
      mstep t (m_next (close_queues t.(mt_d)) [] t).

Inductive mreach (n size : Z) : metered → Prop :=
  | mreach_new : mreach n size (m_new n size)
  | mreach_step t t' : mreach n size t → mstep t t' → mreach n size t'.

Lemma mstep_dstep t t' : mstep t t' → dstep t.(mt_d) t'.(mt_d).
Proof. destruct 1; subst; by econstructor. Qed.
Lemma mreach_dreach n size t : mreach n size t → dreach n size t.(mt_d).
Proof. induction 1 as [|t t' _ IH Hs]; [constructor|]. eapply dreach_step; [done|by apply mstep_dstep]. Qed.

(** Counting changes nothing: the pool reaches the same states with it. *)
Lemma metering_neutral n size d : dreach n size d ↔ ∃ t, mreach n size t ∧ t.(mt_d) = d.
Proof.
  split; [|intros (t & Ht & <-); by eapply mreach_dreach].
  induction 1 as [|d d' _ (t & Ht & <-) Hs]; [eexists; split; [constructor|done]|].
  inversion Hs; subst; (eexists; split; [eapply mreach_step; [done|by econstructor]|done]).
Qed.

(** ** What the metrics show *)

Definition is_inc (c : collector) (s : sample) : bool :=
  match s with Incd c' _ => bool_decide (c' = c) | _ => false end.
Definition value_of (c : collector) (s : sample) : option Z :=
  match s with Gauged c' _ v => if bool_decide (c' = c) then Some v else None | _ => None end.

(** The value of a counter without labels, and of a gauge, after a list of samples. *)
Definition count (c : collector) (log : list sample) : nat := length (List.filter (is_inc c) log).
Definition gauge (c : collector) (log : list sample) : Z :=
  fold_left (λ v s, default v (value_of c s)) log 0.


#[global] Instance fate_eq_dec : EqDecision fate.
Proof. solve_decision. Defined.
Definition ended_as (f : fate) (d : dispatcher) : nat := length (List.filter (λ p, bool_decide (p.2 = f)) d.(d_settled)).

Lemma count_app c l l' : count c (l ++ l') = (count c l + count c l')%nat.
Proof. unfold count. by rewrite List.filter_app, length_app. Qed.
Lemma gauge_app c l l' : gauge c (l ++ l') = fold_left (λ v s, default v (value_of c s)) l' (gauge c l).
Proof. apply fold_left_app. Qed.

(** Evaluates counters and gauges on the samples of one step. *)
Ltac counted :=
  repeat match goal with
    | |- context [count ?c []] => change (count c []) with 0%nat
    | |- context [count ?c [Incd ?c' ?l]] => let v := eval vm_compute in (count c [Incd c' l]) in change (count c [Incd c' l]) with v
    | |- context [count ?c [Gauged ?c' ?l ?x]] => change (count c [Gauged c' l x]) with 0%nat
    | |- context [value_of ?c (Incd ?c' ?l)] => change (value_of c (Incd c' l)) with (@None Z)
    | |- context [value_of OutboxPending (Gauged OutboxPending [] ?x)] => change (value_of OutboxPending (Gauged OutboxPending [] x)) with (Some x)
    end.

Record metered_inv (t : metered) : Prop := {
  mi_gauge : gauge OutboxPending t.(mt_log) = Z.of_nat (size t.(mt_d).(d_pending));
  mi_dropped : count DispatchDropped t.(mt_log) = length t.(mt_d).(d_dropped);
  mi_dead : count DeadLetterTotal t.(mt_log) = ended_as DeadLettered t.(mt_d);
  mi_attempts : (count DispatchResolveRetries t.(mt_log) + length t.(mt_d).(d_settled) = length (finished t.(mt_d)))%nat;
}.

(** A step that settles nothing and keeps the outbox, with the deliveries it drops. *)
Lemma inv_moved t d' s dropped :
  metered_inv t → d'.(d_pending) = t.(mt_d).(d_pending) → d'.(d_settled) = t.(mt_d).(d_settled) →
  finished d' = finished t.(mt_d) → d'.(d_dropped) = t.(mt_d).(d_dropped) ++ dropped →
  (s = [] ∧ dropped = [] ∨ s = [Incd DispatchQueueFull []] ∧ dropped = [] ∨ s = [Incd DispatchDropped []] ∧ length dropped = 1%nat) →
  metered_inv (m_next d' s t).
Proof.
  intros [Hg Hd Hl Ha] Hp Hset Hf Hdr Hs. unfold m_next, ended_as in *.
  split; unfold ended_as; simpl; rewrite ?Hp, ?Hset, ?Hf, ?Hdr, ?count_app, ?gauge_app, ?length_app;
    destruct Hs as [[-> ->]|[[-> ->]|[-> Hone]]]; cbn [fold_left length]; counted; cbn [default]; try done; lia.
Qed.

Lemma finished_insert (d : dispatcher) i w w' :
  d.(d_workers) !! i = Some w → w'.(w_done) = w.(w_done) →
  concat (w_done <$> <[i := w']> d.(d_workers)) = finished d.
Proof.
  intros Hi Hd. unfold finished. f_equal. rewrite list_fmap_insert, Hd. apply list_insert_id.
  by rewrite list_lookup_fmap, Hi.
Qed.

Lemma inv_submit t pre j post :
  metered_inv t → t.(mt_d).(d_submitting) = pre ++ j :: post →
  let d := set_submitting (pre ++ post) t.(mt_d) in metered_inv (m_next (submit j d) (submit_samples j d) t).
Proof.
  intros Hi Hs d. unfold submit, submit_samples.
  assert (Hdrop : metered_inv (m_next (drop_job j d) [Incd DispatchDropped []] t)).
  { apply (inv_moved _ _ _ [j]); try done. right. right. done. }
  destruct (d_closed d); [done|]. destruct (d_workers d !! queueIndex (j_a j) d) as [w|] eqn:Ew.
  - destruct (w_draining w); [done|]. destruct (_ <? _)%nat; (apply (inv_moved _ _ _ []); try done);
      try (by rewrite app_nil_r); try (by left); try (by right; left); by apply (finished_insert d _ w).
  - apply (inv_moved _ _ _ []); try done; [by rewrite app_nil_r|by left].
Qed.

Lemma inv_enqueue t a route onFail :
  metered_inv t → metered_inv (m_next (enqueue a route onFail t.(mt_d)) (enqueue_samples a route t.(mt_d)) t).
Proof.
  intros Hi. destruct route as [|r route]; [apply (inv_moved _ _ _ []); try done; [by rewrite app_nil_r|by left]|].
  destruct Hi as [Hg Hd Hl Ha]. split; simpl; rewrite ?count_app, ?gauge_app; simpl; rewrite ?Nat.add_0_r; done.
Qed.

Lemma inv_settle t i w j b :
  t.(mt_d).(d_workers) !! i = Some w → w.(w_inflight) = Some j → metered_inv t →
  let d := set_workers (<[i := finish_job j b w]> t.(mt_d).(d_workers)) t.(mt_d) in
  metered_inv (m_next (settle j b d) (settle_samples j b d) t).
Proof.
  intros Hi Hf [Hg Hd Hl Ha] d.
  assert (Hfin : length (finished d) = S (length (finished t.(mt_d)))).
  { unfold finished. simpl. by rewrite (finished_update _ _ w _ [(j, b)]). }
  assert (Hend : ∀ f s0, count OutboxPending s0 = O → gauge OutboxPending (t.(mt_log) ++ s0) = gauge OutboxPending t.(mt_log) →
    count DispatchDropped s0 = O → count DispatchResolveRetries s0 = O →
    count DeadLetterTotal s0 = (if bool_decide (f = DeadLettered) then 1 else 0)%nat →
    metered_inv (m_next (settle_as f (j_id j) d) (s0 ++ pendingDone_samples (j_id j) d) t)).
  { intros f s0 _ H1 H2 H3 H4. unfold settle_as, pendingDone, pendingDone_samples.
    assert (Hset : ∀ x : Z * fate, length (List.filter (λ p, bool_decide (p.2 = DeadLettered)) [x]) = (if bool_decide (x.2 = DeadLettered) then 1 else 0)%nat)
      by (intros [y []]; reflexivity).
    split; simpl.
    - rewrite app_assoc, gauge_app, H1. destruct (d_pending t.(mt_d) !! j_id j) eqn:E; simpl; by rewrite ?E.
    - rewrite !count_app, H2, Hd. destruct (d_pending _ !! _); counted; simpl; lia.
    - rewrite !count_app, H4. unfold ended_as in *. simpl.
      destruct (d_pending _ !! _); counted; simpl; rewrite List.filter_app, length_app, Hset, Hl; simpl; lia.
    - rewrite !count_app, H3. destruct (d_pending _ !! _); counted; cbn [d_settled set_settled set_pending];
        rewrite length_app; change (finished _) with (finished d); rewrite Hfin; cbn [length]; change (d_settled d) with (d_settled (mt_d t)); lia. }
  unfold settle, settle_samples. destruct b; [apply (Hend Delivered []); rewrite ?app_nil_r; by counted|].
  destruct (j_onFail j); [apply (Hend RolledBack []); by rewrite ?app_nil_r|].
  destruct (a_Resolved (j_a j) && (j_retries j <? maxResolveRetries)); [|apply (Hend DeadLettered [Incd DeadLetterTotal []]); by rewrite ?gauge_app].
  split; simpl; rewrite ?count_app, ?gauge_app; counted; rewrite ?Nat.add_0_r; try done.
  change (finished _) with (finished d). rewrite Hfin. lia.
Qed.

Lemma inv_new n size : metered_inv (m_new n size).
Proof.
  assert (Hf : finished (newDispatcher n size) = []) by (unfold finished; simpl; by induction (Z.to_nat _)).
  split; simpl; by rewrite ?Hf.
Qed.

Lemma mreach_inv n size t : mreach n size t → metered_inv t.
Proof.
  induction 1 as [|t t' Hr IH Hs]; [apply inv_new|].
  destruct Hs as [t a route onFail Hlt|t pre j post Hsub Hlock|t i w j Hi Hp Hl|t i w j Hi Hp Hst|t i w j rest Hi Hf Hqu
         |t i w j b d Hi Hf ->|t pre j post Htm|t|t Hst Hpk].
  - by apply inv_enqueue.
  - by apply inv_submit.
  - apply (inv_moved _ _ _ []); try done; [by apply (finished_insert _ _ w)|by rewrite app_nil_r|by left].
  - apply (inv_moved _ _ _ [j]); try done; [by apply (finished_insert _ _ w)|by right; right].
  - apply (inv_moved _ _ _ []); try done; [by apply (finished_insert _ _ w)|by rewrite app_nil_r|by left].
  - by apply inv_settle.
  - apply (inv_moved _ _ _ []); try done; [by rewrite app_nil_r|by left].
  - apply (inv_moved _ _ _ []); try done; [by rewrite app_nil_r|by left].
  - apply (inv_moved _ _ _ []); try done; [by rewrite app_nil_r|by left].
Qed.

(** The outbox holds one record per delivery without a terminal outcome. *)
Lemma pending_size d : dinv d → (Z.of_nat (length d.(d_settled)) + Z.of_nat (size d.(d_pending)) = d.(d_nextID)).
Proof.
  intros Hd. pose proof (dv_ids _ Hd) as Hids.
  assert (Hn : NoDup ((j_id <$> live d) ++ (d_settled d).*1)) by (rewrite Hids; apply NoDup_seqZ).
  apply NoDup_app in Hn as (Hn & _).
  assert (Hdom : dom d.(d_pending) = list_to_set (C := gset Z) (j_id <$> live d)).
  { apply set_eq. intros id. rewrite elem_of_dom, elem_of_list_to_set, list_elem_of_fmap. split.
    - intros [r Hr]. apply (dv_pending _ Hd) in Hr as (j & Hj & <- & _). eauto.
    - intros (j & -> & Hj). exists (outbox_record j). apply (dv_pending _ Hd). eauto. }
  assert (Hsize : size d.(d_pending) = length (live d)).
  { rewrite <- size_dom, Hdom, size_list_to_set by done. apply length_fmap. }
  apply Permutation_length in Hids. rewrite length_app, !length_fmap, length_seqZ in Hids.
  pose proof (dv_range _ Hd). rewrite Hsize. lia.
Qed.

(** Every way out is counted. *)
Lemma ended_total d :
  (ended_as Delivered d + ended_as RolledBack d + ended_as DeadLettered d = length d.(d_settled))%nat.
Proof.
  unfold ended_as. induction d.(d_settled) as [|[id []] l IH]; [done|..]; simpl in *; lia.
Qed.

(** C8: The dispatcher's metrics are exact. In any interleaving the outbox gauge is the number
    of records in the outbox, the dead-letter counter the number of deliveries given up, the drop
    counter the number of jobs a shutdown left in the outbox, and every attempt was a terminal
    outcome or a counted retry; so the accepted deliveries are the delivered ones, the rolled
    back ones, the counted dead letters and what the gauge shows. *)
Theorem dispatch_metrics_exact n size t :
  mreach n size t →
  gauge OutboxPending t.(mt_log) = Z.of_nat (base.size t.(mt_d).(d_pending))
  ∧ count DispatchDropped t.(mt_log) = length t.(mt_d).(d_dropped)
  ∧ (count DispatchResolveRetries t.(mt_log) + length t.(mt_d).(d_settled) = length (finished t.(mt_d)))%nat
  ∧ count DeadLetterTotal t.(mt_log) = ended_as DeadLettered t.(mt_d)
  ∧ t.(mt_d).(d_nextID)
    = Z.of_nat (ended_as Delivered t.(mt_d) + ended_as RolledBack t.(mt_d) + count DeadLetterTotal t.(mt_log))
      + gauge OutboxPending t.(mt_log).
Proof.
  intros Hr. pose proof (dreach_inv _ _ _ (mreach_dreach _ _ _ Hr)) as Hd. destruct (mreach_inv _ _ _ Hr) as [Hg Hdr Hl Ha].
  split_and!; [done..|]. rewrite Hg, Hl, ended_total. symmetry. by apply pending_size.
Qed.

(** One accepted delivery. *)
Lemma dispatch_metrics_exact_witness :
  let t := m_next run_d1 (enqueue_samples w_alert ["slack"] (newDispatcher 1 1)) (m_new 1 1) in
  mreach 1 1 t ∧ gauge OutboxPending t.(mt_log) = 1.
Proof.
  assert (Hr : mreach 1 1 (m_next run_d1 (enqueue_samples w_alert ["slack"] (newDispatcher 1 1)) (m_new 1 1))).
  { eapply mreach_step; [constructor|]. apply (m_step_enqueue (m_new 1 1) w_alert ["slack"] (Some "ab")). reflexivity. }
  split; [exact Hr|]. destruct (dispatch_metrics_exact 1 1 _ Hr) as (-> & _). reflexivity.
Defined.
