(* ===== verification/Persist.v ===== *)
(** * internal/persist: the state snapshot in a ConfigMap

    Models internal/persist/{persist,store}.go. JSON and gzip are the class [Codec]; the API
    server is the class [KubeAPI], with the documented optimistic concurrency of its objects as
    [KubeLaws]. [Save] is a state machine whose steps are its API calls, so that several saves
    and foreign writers interleave; [Module AtomicStore] is the contract of store.go. *)
From S2P Require Import Prelude GoStd AlertModel AlertStore.

(** ** Libraries *)

(** [json.Marshal], [json.Unmarshal] of a snapshot and of its header, compress/gzip. *)
Class Codec := {
  Marshal : Snapshot → option string;
  Unmarshal : string → option Snapshot;
  UnmarshalHeader : string → option time;
  gzip_Write : string → option string;
  gzip_ReadAll : string → option string;
}.

(** What the code relies on: gzip round trips, and a gzip stream has a header. *)
Class CodecLaws `{Codec} := {
  gzip_roundtrip b gz : gzip_Write b = Some gz → gzip_ReadAll gz = Some b;
  gzip_nonempty b gz : gzip_Write b = Some gz → gz ≠ "";
}.

(** The fields of a [corev1.ConfigMap] the code reads or writes. *)
Record ConfigMap := MkConfigMap {
  cm_ResourceVersion : string;
  cm_Labels : gmap string string;
  cm_Data : gmap string string;
  cm_BinaryData : gmap string string;
}.

Inductive api_error := NotFound | Conflict | AlreadyExists | OtherError (msg : string).

(** The ConfigMap client for one namespace and name, on the server's state. *)
Class KubeAPI := {
  server : Type;
  api_Get : server → api_error + ConfigMap;
  api_Create : ConfigMap → server → option api_error * server;
  api_Update : ConfigMap → server → option api_error * server;
}.

(** ** persist.go *)

Definition dataKey : string := "snapshot.json".
Definition gzKey : string := "snapshot.json.gz".
Definition maxSnapshotBytes : Z := 900 * 1024.
Definition maxSavedAtSkew : duration := 2 * Minute.

Inductive load_result := NoSnapshot | Loaded (snap : Snapshot) | GetFailed (e : api_error) | DecompressFailed | ParseFailed.

Section persist.
Context `{Codec}.

Definition gzipBytes (b : string) : option string := gzip_Write b.
Definition gunzip (b : string) : option string := gzip_ReadAll b.

(** What [Load] makes of an object it got. *)
Definition read_snapshot (cm : ConfigMap) : load_result :=
  let legacy := match cm.(cm_Data) !! dataKey with
                | None => NoSnapshot
                | Some raw => if streq raw "" then NoSnapshot
                              else match Unmarshal raw with Some snap => Loaded snap | None => ParseFailed end
                end in
  match cm.(cm_BinaryData) !! gzKey with
  | None => legacy
  | Some gz => if streq gz "" then legacy
               else match gunzip gz with
                    | None => DecompressFailed
                    | Some raw => match Unmarshal raw with Some snap => Loaded snap | None => ParseFailed end
                    end
  end.

Definition snapshotSavedAt (cm : ConfigMap) : option time :=
  match cm.(cm_BinaryData) !! gzKey with
  | None => None
  | Some raw => match gunzip raw with
                | None => None
                | Some body => match UnmarshalHeader body with
                               | None => None
                               | Some t => if IsZero t then None else Some t
                               end
                end
  end.

(** Why a save did not happen; [ErrStaleSnapshot] is the sentinel error. *)
Inductive save_error := MarshalFailed | CompressFailed | TooLarge (size : Z) | ErrStaleSnapshot (saved : time) | APIFailed (e : api_error).

(** The bytes to store, or an error before any API call. *)
Definition prepare (snap : Snapshot) : save_error + string :=
  match Marshal snap with
  | None => inl MarshalFailed
  | Some body => match gzipBytes body with
                 | None => inl CompressFailed
                 | Some gz => if maxSnapshotBytes <? slen gz then inl (TooLarge (slen gz)) else inr gz
                 end
  end.

Definition retryable (e : api_error) : bool := match e with Conflict | AlreadyExists => true | _ => false end.

(** The guard of the update: a stored stamp that is later, but not by more than the skew. *)
Definition stale (saved : option time) (savedAt now : time) : option time :=
  match saved with
  | Some t => if After t savedAt && negb (After t (Add now maxSavedAtSkew)) then Some t else None
  | None => None
  end.

Definition new_object (gz : string) : ConfigMap :=
  MkConfigMap "" {["app.kubernetes.io/managed-by" := "alertkube"]} ∅ {[gzKey := gz]}.

Definition with_snapshot (gz : string) (cm : ConfigMap) : ConfigMap :=
  MkConfigMap cm.(cm_ResourceVersion) cm.(cm_Labels) (delete dataKey cm.(cm_Data)) (<[gzKey := gz]> cm.(cm_BinaryData)).

(** Where a save is inside [retry.OnError]; [more] counts the attempts after this one. *)
Inductive save_state :=
  | AtGet (more : nat)
  | AtCreate (more : nat)
  | AtUpdate (more : nat) (cm : ConfigMap)
  | Done (err : option save_error).

Context `{KubeAPI}.


(** An attempt ended with [err]: [retry.OnError] goes on while it is retryable. *)
Definition attempt_end (more : nat) (err : option api_error) : save_state :=
  match err with
  | None => Done None
  | Some e => match more with
              | S more => if retryable e then AtGet more else Done (Some (APIFailed e))
              | O => Done (Some (APIFailed e))
              end
  end.

(** One API call of the closure, with the code up to the next one. *)
Definition save_step (gz : string) (savedAt now : time) (st : save_state) (σ : server) : save_state * server :=
  match st with
  | AtGet more =>
    match api_Get σ with
    | inl NotFound => (AtCreate more, σ)
    | inl e => (attempt_end more (Some e), σ)
    | inr cm => match stale (snapshotSavedAt cm) savedAt now with
                | Some t => (Done (Some (ErrStaleSnapshot t)), σ)
                | None => (AtUpdate more cm, σ)
                end
    end
  | AtCreate more => let '(err, σ) := api_Create (new_object gz) σ in (attempt_end more err, σ)
  | AtUpdate more cm => let '(err, σ) := api_Update (with_snapshot gz cm) σ in (attempt_end more err, σ)
  | Done err => (Done err, σ)
  end.

(** Undisturbed execution: at most two calls per attempt. [clock i] is read at call [i]. *)
Fixpoint save_run (fuel i : nat) (gz : string) (savedAt : time) (clock : nat → time) (st : save_state) (σ : server)
    : save_state * server :=
  match st, fuel with
  | Done err, _ => (Done err, σ)
  | _, O => (st, σ)
  | _, S fuel => let '(st, σ) := save_step gz savedAt (clock i) st σ in save_run fuel (S i) gz savedAt clock st σ
  end.

(** [retry.DefaultRetry] makes [steps] attempts. *)
Variable steps : nat.

End persist.

(** ** The API server's contract *)

Definition same_content (a b : ConfigMap) : Prop := a.(cm_Data) = b.(cm_Data) ∧ a.(cm_BinaryData) = b.(cm_BinaryData).

(** The object a server holds and how a server's state can change. A write that reports a
    conflict, or any error but a foreign one, changed nothing; after another error (a timeout)
    it may or may not have been applied. A resource version never names two contents. *)
Class KubeLaws `{KubeAPI} := {
  stored : server → option ConfigMap;
  evolves : relation server;
  evolves_preorder :: PreOrder evolves;
  evolves_version σ σ' a b :
    evolves σ σ' → stored σ = Some a → stored σ' = Some b → a.(cm_ResourceVersion) = b.(cm_ResourceVersion) → a = b;
  get_sound σ cm : api_Get σ = inr cm → stored σ = Some cm;
  create_evolves cm σ : evolves σ (api_Create cm σ).2;
  update_evolves cm σ : evolves σ (api_Update cm σ).2;
  create_sound cm σ :
    match (api_Create cm σ).1 with
    | None => stored σ = None ∧ ∃ cm', stored (api_Create cm σ).2 = Some cm' ∧ same_content cm' cm
    | Some (OtherError _) =>
      stored (api_Create cm σ).2 = stored σ
      ∨ (stored σ = None ∧ ∃ cm', stored (api_Create cm σ).2 = Some cm' ∧ same_content cm' cm)
    | Some _ => stored (api_Create cm σ).2 = stored σ
    end;
  update_sound cm σ :
    let replaced := ∃ cur cm', stored σ = Some cur ∧ cur.(cm_ResourceVersion) = cm.(cm_ResourceVersion)
                               ∧ stored (api_Update cm σ).2 = Some cm' ∧ same_content cm' cm in
    match (api_Update cm σ).1 with
    | None => replaced
    | Some (OtherError _) => stored (api_Update cm σ).2 = stored σ ∨ replaced
    | Some _ => stored (api_Update cm σ).2 = stored σ
    end;
}.

(** ** store.go: the contract of a state backend *)

Module AtomicStore.
(** What a backend holds: what [Load] would answer, and the stamp later saves are ordered by. *)
Record state := MkState { loads : load_result; stamp : option time }.

(** A save of [w] replaces the state in one step, and only if the state is not newer. *)
Inductive label :=
  | Saved (w : nat) (now savedAt : time) (new : state)
  | Foreign (new : state).

Definition allowed (s : state) (l : label) : Prop :=
  match l with
  | Saved _ now savedAt _ => stale s.(stamp) savedAt now = None
  | Foreign _ => True
  end.

Definition target (l : label) : state := match l with Saved _ _ _ new => new | Foreign new => new end.

Inductive run : state → list label → state → Prop :=
  | run_nil s : run s [] s
  | run_snoc s log s' l : run s log s' → allowed s' l → run s (log ++ [l]) (target l).

(** How often [w] replaced the state. *)
Definition saved_by (w : nat) (l : label) : bool := match l with Saved w' _ _ _ => (w' =? w)%nat | Foreign _ => false end.
Definition saves (w : nat) (log : list label) : nat := length (List.filter (saved_by w) log).
End AtomicStore.

(** ** Concurrent saves *)

Section system.
Context `{Codec} `{KubeLaws}.
Variable steps : nat.

Record job := MkJob { j_gz : string; j_savedAt : time }.
Record system := MkSystem { s_server : server; s_writers : gmap nat (job * save_state) }.

(** What happens: a save starts, reads the object and the clock, or writes; somebody else acts
    on the server. *)
Inductive event := Started (w : nat) (j : job) | Read (w : nat) (now : time) | Wrote (w : nat) | Idle (w : nat) | Other.

Definition event_of (w : nat) (now : time) (st : save_state) : event :=
  match st with
  | AtGet _ => Read w now
  | AtCreate _ | AtUpdate _ _ => Wrote w
  | Done _ => Idle w
  end.

(** A new save starts, one takes its next step at some clock reading, or anybody else acts on
    the server. *)
Inductive sys_step : system → event → system → Prop :=
  | step_start srv ws w snap gz :
    ws !! w = None → prepare snap = inr gz →
    sys_step (MkSystem srv ws) (Started w (MkJob gz snap.(sn_SavedAt)))
      (MkSystem srv (<[w := (MkJob gz snap.(sn_SavedAt), AtGet (pred steps))]> ws))
  | step_save srv ws w j st now :
    ws !! w = Some (j, st) →
    sys_step (MkSystem srv ws) (event_of w now st)
      (MkSystem (save_step j.(j_gz) j.(j_savedAt) now st srv).2
                (<[w := (j, (save_step j.(j_gz) j.(j_savedAt) now st srv).1)]> ws))
  | step_foreign srv srv' ws : evolves srv srv' → sys_step (MkSystem srv ws) Other (MkSystem srv' ws).

(** An execution, as its events with the server after each. *)
Abbreviation trace := (list (event * server)) (only parsing).
Inductive traced (s0 : system) : trace → system → Prop :=
  | traced_nil : traced s0 [] s0
  | traced_snoc tr s e s' : traced s0 tr s → sys_step s e s' → traced s0 (tr ++ [(e, s'.(s_server))]) s'.

(** The last clock reading of save [w], and what it was started with. *)
Definition note_read (w : nat) (acc : option time) (ev : event * server) : option time :=
  match ev.1 with Read w' now => if (w' =? w)%nat then Some now else acc | _ => acc end.
Definition note_job (w : nat) (acc : option job) (ev : event * server) : option job :=
  match ev.1 with Started w' j => if (w' =? w)%nat then Some j else acc | _ => acc end.
Definition last_read (w : nat) (tr : trace) : option time := foldl (note_read w) None tr.
Definition job_of (w : nat) (tr : trace) : option job := foldl (note_job w) None tr.

(** The abstract state of a server. *)
Definition abs (σ : server) : AtomicStore.state :=
  match stored σ with
  | None => AtomicStore.MkState NoSnapshot None
  | Some cm => AtomicStore.MkState (read_snapshot cm) (snapshotSavedAt cm)
  end.

(** What a save leaves behind. *)
Definition saved_state (gz : string) : AtomicStore.state :=
  AtomicStore.MkState (read_snapshot (new_object gz)) (snapshotSavedAt (new_object gz)).

(** The events of an execution against the abstract store, one by one: an action of somebody
    else is a foreign replacement by what the server then holds; a write of a save replaces the
    state by its snapshot, under the guard at the clock that save read last, or changes nothing;
    and nothing else changes anything. After every event the server holds the abstract state. *)
Inductive history (a0 : AtomicStore.state) : trace → list AtomicStore.label → AtomicStore.state → Prop :=
  | history_nil : history a0 [] [] a0
  | history_silent tr log a e σ :
    history a0 tr log a → e ≠ Other → abs σ = a → history a0 (tr ++ [(e, σ)]) log a
  | history_other tr log a σ :
    history a0 tr log a → history a0 (tr ++ [(Other, σ)]) (log ++ [AtomicStore.Foreign (abs σ)]) (abs σ)
  | history_saved tr log a w j now σ :
    history a0 tr log a → job_of w tr = Some j → last_read w tr = Some now →
    stale a.(AtomicStore.stamp) j.(j_savedAt) now = None → abs σ = saved_state j.(j_gz) →
    history a0 (tr ++ [(Wrote w, σ)]) (log ++ [AtomicStore.Saved w now j.(j_savedAt) (abs σ)]) (abs σ).
End system.

(** * Theorems *)

Section theorems.
Context `{Codec} `{KubeLaws}.

Lemma read_snapshot_content a b : same_content a b → read_snapshot a = read_snapshot b ∧ snapshotSavedAt a = snapshotSavedAt b.
Proof. unfold read_snapshot, snapshotSavedAt. intros [-> ->]. done. Qed.

(** A written object is read as what was written, whatever else it holds. *)
Lemma read_with_snapshot gz cm :
  gz ≠ "" → read_snapshot (with_snapshot gz cm) = read_snapshot (new_object gz)
            ∧ snapshotSavedAt (with_snapshot gz cm) = snapshotSavedAt (new_object gz).
Proof.
  intros Hne. unfold read_snapshot, snapshotSavedAt, with_snapshot, new_object. simpl.
  rewrite lookup_insert_eq, lookup_singleton_eq. by rewrite (proj2 (streq_false gz "")).
Qed.

Lemma abs_written σ cm gz :
  gz ≠ "" → stored σ = Some cm → same_content cm (new_object gz) ∨ (∃ cm0, same_content cm (with_snapshot gz cm0)) →
  abs σ = saved_state gz.
Proof.
  intros Hne Hst Hc. unfold abs, saved_state. rewrite Hst.
  destruct Hc as [Hc|[cm0 Hc]]; apply read_snapshot_content in Hc as [-> ->]; [done|].
  by destruct (read_with_snapshot gz cm0 Hne) as [-> ->].
Qed.

Lemma abs_stored σ σ' : stored σ' = stored σ → abs σ' = abs σ.
Proof. unfold abs. by intros ->. Qed.

Lemma saves_snoc w log l :
  AtomicStore.saves w (log ++ [l]) = (AtomicStore.saves w log + if AtomicStore.saved_by w l then 1 else 0)%nat.
Proof. unfold AtomicStore.saves. rewrite List.filter_app, length_app. simpl. by destruct (AtomicStore.saved_by w l). Qed.

(** A history is a run of the abstract store. *)
Lemma history_run a0 tr log a : history a0 tr log a → AtomicStore.run a0 log a.
Proof.
  induction 1 as [|tr log a e σ _ IH _ _|tr log a σ _ IH|tr log a w j now σ _ IH _ _ Hs _]; [constructor|done|..].
  - exact (AtomicStore.run_snoc _ _ _ (AtomicStore.Foreign (abs σ)) IH I).
  - exact (AtomicStore.run_snoc _ _ _ (AtomicStore.Saved w now (j_savedAt j) (abs σ)) IH Hs).
Qed.

(** What is known of save [w] from the effects so far. *)
Definition accounted (σ : server) (tr : list (event * server)) (log : list AtomicStore.label) (w : nat) (savedAt : time)
    (st : save_state) : Prop :=
  match st with
  | AtGet _ => AtomicStore.saves w log = 0%nat
  | AtCreate _ => AtomicStore.saves w log = 0%nat ∧ is_Some (last_read w tr)
  | AtUpdate _ cm =>
    AtomicStore.saves w log = 0%nat
    ∧ ∃ σr now, last_read w tr = Some now ∧ evolves σr σ ∧ stored σr = Some cm ∧ stale (snapshotSavedAt cm) savedAt now = None
  | Done None => AtomicStore.saves w log = 1%nat
  | Done (Some (APIFailed (OtherError _))) => (AtomicStore.saves w log <= 1)%nat
  | Done (Some _) => AtomicStore.saves w log = 0%nat
  end.

Lemma accounted_evolves σ σ' tr tr' log log' w savedAt st :
  evolves σ σ' → AtomicStore.saves w log' = AtomicStore.saves w log → last_read w tr' = last_read w tr →
  accounted σ tr log w savedAt st → accounted σ' tr' log' w savedAt st.
Proof.
  intros He Hs Hl. unfold accounted. destruct st as [?|?|? cm|[[| | | |[]]|]]; rewrite ?Hs, ?Hl; try done.
  intros (H0s & σr & now & Hn & Hr & Hst & Hg). split; [done|]. exists σr, now. split_and!; [done|by etrans|done|done].
Qed.

Lemma accounted_unsaved σ tr log w savedAt more e :
  AtomicStore.saves w log = 0%nat → accounted σ tr log w savedAt (attempt_end more (Some e)).
Proof.
  intros Hs. unfold attempt_end. destruct more as [|more]; [simpl; destruct e; (done || lia)|].
  destruct (retryable e) eqn:Er; [done|]. simpl. destruct e; (done || lia).
Qed.

Lemma accounted_timeout σ tr log w savedAt more msg :
  AtomicStore.saves w log = 1%nat → accounted σ tr log w savedAt (attempt_end more (Some (OtherError msg))).
Proof. intros Hs. unfold attempt_end. destruct more; simpl; lia. Qed.

(** The effect of an event of [w] on the history: it goes on, and no other save is counted. *)
Definition goes_on (a0 : AtomicStore.state) (tr : list (event * server)) (log : list AtomicStore.label) (w : nat) (e : event)
    (savedAt : time) (σ' : server) (st' : save_state) : Prop :=
  ∃ log', history a0 (tr ++ [(e, σ')]) log' (abs σ')
    ∧ accounted σ' (tr ++ [(e, σ')]) log' w savedAt st'
    ∧ ∀ w', w' ≠ w → AtomicStore.saves w' log' = AtomicStore.saves w' log.

(** A write is one atomic save, or nothing. *)
Lemma write_sim a0 tr log σ σ' w j now more (err : option api_error) :
  history a0 tr log (abs σ) → AtomicStore.saves w log = 0%nat → job_of w tr = Some j → last_read w tr = Some now →
  let replaced := abs σ' = saved_state j.(j_gz) ∧ stale (AtomicStore.stamp (abs σ)) j.(j_savedAt) now = None in
  match err with
  | None => replaced
  | Some (OtherError _) => abs σ' = abs σ ∨ replaced
  | Some _ => abs σ' = abs σ
  end →
  goes_on a0 tr log w (Wrote w) j.(j_savedAt) σ' (attempt_end more err).
Proof.
  intros Hh Hs Hj Hnow replaced Herr.
  assert (Hsaved : replaced → ∃ log', history a0 (tr ++ [(Wrote w, σ')]) log' (abs σ')
    ∧ AtomicStore.saves w log' = 1%nat ∧ ∀ w', w' ≠ w → AtomicStore.saves w' log' = AtomicStore.saves w' log).
  { intros [E Hguard]. eexists. split; [by eapply history_saved|]. split.
    - rewrite saves_snoc, Hs. simpl. by rewrite Nat.eqb_refl.
    - intros w' Hne. rewrite saves_snoc. simpl. rewrite (proj2 (Nat.eqb_neq w w')) by done. lia. }
  destruct err as [e|].
  - assert (Hcase : abs σ' = abs σ ∨ (replaced ∧ ∃ m, e = OtherError m)).
    { destruct e; auto. destruct Herr as [E|E]; eauto. }
    destruct Hcase as [E|[E [m ->]]].
    + exists log. rewrite E. split_and!; [by apply history_silent|by apply accounted_unsaved|done].
    + destruct (Hsaved E) as (log' & Hr & Hs1 & Hw). exists log'. split_and!; [done|by apply accounted_timeout|done].
  - destruct (Hsaved Herr) as (log' & Hr & Hs1 & Hw). by exists log'.
Qed.

Lemma last_read_snoc w tr e σ : last_read w (tr ++ [(e, σ)]) = note_read w (last_read w tr) (e, σ).
Proof. unfold last_read. by rewrite foldl_app. Qed.
Lemma job_of_snoc w tr e σ : job_of w (tr ++ [(e, σ)]) = note_job w (job_of w tr) (e, σ).
Proof. unfold job_of. by rewrite foldl_app. Qed.

(** One step of a save is an atomic save or a stutter, and keeps the account. *)
Lemma save_step_sim a0 tr log σ w now j st :
  j.(j_gz) ≠ "" → history a0 tr log (abs σ) → job_of w tr = Some j → accounted σ tr log w j.(j_savedAt) st →
  let r := save_step j.(j_gz) j.(j_savedAt) now st σ in
  evolves σ r.2 ∧ goes_on a0 tr log w (event_of w now st) j.(j_savedAt) r.2 r.1.
Proof.
  intros Hgz Hh Hj Hacc. set (gz := j_gz j) in *.
  assert (Hread : last_read w (tr ++ [(Read w now, σ)]) = Some now)
    by (rewrite last_read_snoc; unfold note_read; simpl; by rewrite Nat.eqb_refl).
  destruct st as [more|more|more cm|err]; simpl.
  - simpl in Hacc. destruct (api_Get σ) as [e|cm] eqn:Eg.
    + destruct e; (split; [done|]); exists log; (split; [by apply history_silent|]); (split; [|done]);
        first [by apply accounted_unsaved|split; [done|by exists now]].
    + apply get_sound in Eg. destruct (stale (snapshotSavedAt cm) (j_savedAt j) now) eqn:Es; (split; [done|]); exists log;
        (split; [by apply history_silent|]); (split; [|done]); [done|]. split; [done|]. by exists σ, now.
  - destruct Hacc as [Hs0 [now0 Hn]].
    pose proof (create_evolves (new_object gz) σ) as He. pose proof (create_sound (new_object gz) σ) as Hc.
    destruct (api_Create (new_object gz) σ) as [err σ']. simpl in *. split; [done|].
    eapply (write_sim a0 tr log σ σ' w j now0); [done..|].
    assert (Hw : (stored σ = None ∧ ∃ cm', stored σ' = Some cm' ∧ same_content cm' (new_object gz)) →
      abs σ' = saved_state gz ∧ stale (AtomicStore.stamp (abs σ)) (j_savedAt j) now0 = None).
    { intros (Hno & cm' & E & Hsame). split; [eapply abs_written; eauto|]. unfold abs. by rewrite Hno. }
    destruct err as [[]|]; try (by apply abs_stored); [|by apply Hw].
    destruct Hc as [Hc|Hc]; [left; by apply abs_stored|right; by apply Hw].
  - destruct Hacc as (Hs0 & σr & now0 & Hn & Hr & Hst & Hg).
    pose proof (update_evolves (with_snapshot gz cm) σ) as He. pose proof (update_sound (with_snapshot gz cm) σ) as Hc.
    destruct (api_Update (with_snapshot gz cm) σ) as [err σ']. simpl in *. split; [done|].
    eapply (write_sim a0 tr log σ σ' w j now0); [done..|].
    assert (Hw : (∃ cur cm', stored σ = Some cur ∧ cm_ResourceVersion cur = cm_ResourceVersion cm
                    ∧ stored σ' = Some cm' ∧ same_content cm' (with_snapshot gz cm)) →
      abs σ' = saved_state gz ∧ stale (AtomicStore.stamp (abs σ)) (j_savedAt j) now0 = None).
    { intros (cur & cm' & Hcur & Hv & E & Hsame). split; [eapply abs_written; eauto|].
      rewrite <- (evolves_version σr σ cm cur Hr Hst Hcur) in Hcur by (by rewrite Hv). unfold abs. by rewrite Hcur. }
    destruct err as [[]|]; try (by apply abs_stored); [|by apply Hw].
    destruct Hc as [Hc|Hc]; [left; by apply abs_stored|right; by apply Hw].
  - split; [done|]. exists log. split_and!; [by apply history_silent|by destruct err as [[| | | |[]]|]|done].
Qed.

(** The invariant of the concurrent system. *)
Definition sys_inv (a0 : AtomicStore.state) (tr : list (event * server)) (s : system) : Prop :=
  ∃ log, history a0 tr log (abs s.(s_server))
    ∧ (∀ w j st, s.(s_writers) !! w = Some (j, st) →
         j.(j_gz) ≠ "" ∧ job_of w tr = Some j ∧ accounted s.(s_server) tr log w j.(j_savedAt) st)
    ∧ (∀ w, s.(s_writers) !! w = None → AtomicStore.saves w log = 0%nat).

Context {CL : CodecLaws}.

Lemma prepare_nonempty snap gz : prepare snap = inr gz → gz ≠ "".
Proof using Type CL.
  unfold prepare, gzipBytes. destruct (Marshal snap) as [body|]; [|done]. destruct (gzip_Write body) as [g|] eqn:Eg; [|done].
  destruct (maxSnapshotBytes <? slen g); [done|]. intros [= <-]. by eapply gzip_nonempty.
Qed.

(** An event of [w] is not noted for another save. *)
Lemma event_of_other w w' now st tr σ :
  w' ≠ w → last_read w' (tr ++ [(event_of w now st, σ)]) = last_read w' tr.
Proof using Type.
  intros Hne. rewrite last_read_snoc. unfold note_read.
  destruct st; simpl; try done. by rewrite (proj2 (Nat.eqb_neq w w')).
Qed.
Lemma event_of_job w w' now st tr σ : job_of w' (tr ++ [(event_of w now st, σ)]) = job_of w' tr.
Proof using Type. rewrite job_of_snoc. by destruct st. Qed.

Lemma sys_inv_step steps a0 tr s e s' :
  sys_inv a0 tr s → sys_step steps s e s' → sys_inv a0 (tr ++ [(e, s'.(s_server))]) s'.
Proof using Type CL.
  intros (log & Hh & Hacc & Hnew) Hstep. destruct Hstep as [srv ws w snap gz Hw Hp|srv ws w j st now Hw|srv srv' ws He]; simpl in *.
  - exists log. split_and!; simpl; [by apply history_silent| |].
    + intros w' j st. rewrite job_of_snoc. unfold note_job. simpl. destruct (decide (w' = w)) as [->|Hne].
      * rewrite lookup_insert_eq, Nat.eqb_refl. intros [= <- <-]. simpl. split_and!; [by eapply prepare_nonempty|done|by apply Hnew].
      * rewrite lookup_insert_ne, (proj2 (Nat.eqb_neq w w')) by done. intros Hl. destruct (Hacc _ _ _ Hl) as (Hg & Hj & Ha).
        split_and!; [done|done|]. eapply accounted_evolves; [reflexivity|done| |exact Ha]. by rewrite last_read_snoc.
    + intros w' [? ?]%lookup_insert_None. by apply Hnew.
  - destruct (Hacc w j st Hw) as (Hgz & Hj & Ha).
    destruct (save_step_sim a0 tr log srv w now j st Hgz Hh Hj Ha) as (He & log' & Hh' & Ha' & Hother).
    exists log'. split_and!; simpl; [done| |].
    + intros w' j' st'. rewrite event_of_job. destruct (decide (w' = w)) as [->|Hne].
      * rewrite lookup_insert_eq. by intros [= <- <-].
      * rewrite lookup_insert_ne by done. intros Hl. destruct (Hacc _ _ _ Hl) as (? & ? & Hl'). split_and!; [done|done|].
        eapply accounted_evolves; [exact He|by apply Hother|by apply event_of_other|done].
    + intros w' [Hn ?]%lookup_insert_None. rewrite Hother by done. by apply Hnew.
  - exists (log ++ [AtomicStore.Foreign (abs srv')]).
    assert (Hs : ∀ w, AtomicStore.saves w (log ++ [AtomicStore.Foreign (abs srv')]) = AtomicStore.saves w log)
      by (intros w; rewrite saves_snoc; simpl; lia).
    split_and!; simpl; [by eapply history_other| |intros w Hn; rewrite Hs; by apply Hnew].
    intros w j st Hl. destruct (Hacc _ _ _ Hl) as (? & ? & Ha). rewrite job_of_snoc. split_and!; [done|done|].
    eapply accounted_evolves; [done|apply Hs|by rewrite last_read_snoc|done].
Qed.

Lemma sys_inv_traced steps σ0 tr s : traced steps (MkSystem σ0 ∅) tr s → sys_inv (abs σ0) tr s.
Proof using Type CL.
  induction 1 as [|tr s e s' _ IH Hs]; [|by eapply sys_inv_step]. exists []. simpl.
  split_and!; [constructor|by intros ? ? ? ?%lookup_empty_Some|done].
Qed.

(** C19: the ConfigMap backend implements the atomic store. Whatever concurrent saves and
    foreign writers do to the object, step by step and in any order, the object goes event by
    event through a history of the abstract store: a save's Create or Update call either
    changes nothing or replaces the whole state by that save's snapshot, and the latter only if
    the state then held has no later stamp within the skew of the clock that save read last;
    foreign actions are the only other changes. A save that reported success replaced the state
    exactly once, one that was refused as stale or lost to conflicts never, and one that met
    another API error at most once. *)
Theorem Save_refines steps σ0 tr s :
  traced steps (MkSystem σ0 ∅) tr s →
  ∃ log, history (abs σ0) tr log (abs s.(s_server)) ∧ AtomicStore.run (abs σ0) log (abs s.(s_server))
    ∧ (∀ w j, s.(s_writers) !! w = Some (j, Done None) → AtomicStore.saves w log = 1%nat)
    ∧ (∀ w j err, s.(s_writers) !! w = Some (j, Done (Some err)) →
         (AtomicStore.saves w log <= 1)%nat
         ∧ ((∀ msg, err ≠ APIFailed (OtherError msg)) → AtomicStore.saves w log = 0%nat)).
Proof using Type CL.
  intros Hr. destruct (sys_inv_traced _ _ _ _ Hr) as (log & Hh & Hacc & _). exists log.
  split_and!; [done|by eapply history_run| |].
  - intros w j Hw. by apply (Hacc w j _ Hw).
  - intros w j err Hw. destruct (Hacc w j _ Hw) as (_ & _ & Ha). simpl in Ha. destruct err as [| | | |[]]; try (split; [lia|done]).
    split; [done|]. intros Hne. by destruct (Hne msg).
Qed.

(** ** Sequential behaviour *)

(** The machine never needs more than two calls per attempt. *)
Definition calls_left (st : save_state) : nat :=
  match st with AtGet more => 2 * more + 2 | AtCreate more | AtUpdate more _ => 2 * more + 1 | Done _ => 0 end.

Lemma calls_left_step gz savedAt now st σ :
  (∀ e, st ≠ Done e) → (calls_left (save_step gz savedAt now st σ).1 < calls_left st)%nat.
Proof using Type.
  assert (He : ∀ more err, (calls_left (attempt_end more err) <= 2 * more)%nat).
  { intros more [e|]; simpl; [|lia]. destruct more; simpl; [lia|]. destruct (retryable e); simpl; lia. }
  intros Hnd. destruct st as [more|more|more cm|e]; [| | |by destruct (Hnd e)]; unfold save_step.
  - destruct (api_Get σ) as [e|cm]; [|destruct (stale _ _ _); cbn; lia].
    destruct e; [cbn; lia|..]; cbn -[attempt_end];
      match goal with |- context [attempt_end _ (Some ?e)] => specialize (He more (Some e)); cbn in *; lia end.
  - destruct (api_Create _ σ) as [err σ']. cbn -[attempt_end]. specialize (He more err). cbn in *. lia.
  - destruct (api_Update _ σ) as [err σ']. cbn -[attempt_end]. specialize (He more err). cbn in *. lia.
Qed.

Lemma save_run_done fuel i gz savedAt clock st σ :
  (calls_left st <= fuel)%nat → ∃ err, (save_run fuel i gz savedAt clock st σ).1 = Done err.
Proof using Type.
  revert i st σ. induction fuel as [|fuel IH]; intros i st σ Hf.
  - destruct st; simpl in *; try lia. by eexists.
  - destruct st as [more|more|more cm|e]; [| | |by eexists];
      match goal with |- context [save_run _ _ _ _ _ ?st σ] =>
        pose proof (calls_left_step gz savedAt (clock i) st σ ltac:(done)) as Hlt; unfold save_run; fold save_run;
        destruct (save_step gz savedAt (clock i) st σ) as [st' σ']; apply IH; simpl in *; lia end.
Qed.





(** ** A save on any server *)









End theorems.

(** * A concrete server and codec, for the witnesses *)

Module Toy.
(** Every object ever written, newest last; the version is the number of writes. *)
Record srv := MkSrv { hist : list ConfigMap; present : bool }.

Definition versioned (σ : srv) (cm : ConfigMap) : ConfigMap :=
  MkConfigMap (Itoa (Z.of_nat (length σ.(hist)))) cm.(cm_Labels) cm.(cm_Data) cm.(cm_BinaryData).
Definition obj (σ : srv) : option ConfigMap :=
  if σ.(present) then versioned σ <$> last σ.(hist) else None.

Definition put (cm : ConfigMap) (σ : srv) : srv := MkSrv (σ.(hist) ++ [cm]) true.

#[export] Instance api : KubeAPI := {
  server := srv;
  api_Get σ := match obj σ with Some cm => inr cm | None => inl NotFound end;
  api_Create cm σ := match obj σ with Some _ => (Some AlreadyExists, σ) | None => (None, put cm σ) end;
  api_Update cm σ := match obj σ with
                     | None => (Some NotFound, σ)
                     | Some cur => if streq cur.(cm_ResourceVersion) cm.(cm_ResourceVersion) then (None, put cm σ)
                                   else (Some Conflict, σ)
                     end;
}.

Definition evolves_toy (σ σ' : srv) : Prop := σ.(hist) `prefix_of` σ'.(hist).

Lemma obj_put cm σ : obj (put cm σ) = Some (versioned (put cm σ) cm).
Proof. unfold obj, put. simpl. by rewrite last_snoc. Qed.

Lemma evolves_refl σ : evolves_toy σ σ.
Proof. by exists []; rewrite app_nil_r. Qed.
Lemma evolves_put cm σ : evolves_toy σ (put cm σ).
Proof. by exists [cm]. Qed.

#[export] Instance laws : KubeLaws.
Proof.
  refine {| stored := (obj : @server api → _); evolves := (evolves_toy : relation (@server api)) |}.
  - split; [intros ?; unfold evolves_toy; reflexivity|intros ? ? ?; unfold evolves_toy; intros; by etrans].
  - intros σ σ' a b [l El]. unfold obj. destruct (present σ); [|done]. destruct (present σ'); [|done].
    destruct (last (hist σ)) as [x|] eqn:Ex; [|done]. destruct (last (hist σ')) as [y|] eqn:Ey; [|done].
    intros [= <-] [= <-]. cbn. intros E%Itoa_inj. apply (f_equal length) in El as Hlen. rewrite length_app in Hlen.
    destruct l; [|simpl in *; lia]. rewrite app_nil_r in El. unfold versioned. rewrite El in Ey. rewrite Ex in Ey.
    injection Ey as ->. by rewrite El.
  - intros σ cm. cbn. destruct (obj σ); [|done]. congruence.
  - intros cm σ. cbn. destruct (obj σ); [apply evolves_refl|apply evolves_put].
  - intros cm σ. cbn. destruct (obj σ); [|apply evolves_refl]. destruct (streq _ _); [apply evolves_put|apply evolves_refl].
  - intros cm σ. cbn. destruct (obj σ) eqn:E; cbn; [done|]. split; [done|]. exists (versioned (put cm σ) cm). by rewrite <- obj_put.
  - intros cm σ. cbn. destruct (obj σ) as [cur|] eqn:E; cbn; [|done].
    destruct (streq (cm_ResourceVersion cur) (cm_ResourceVersion cm)) eqn:Es; cbn; [|done]. apply streq_true in Es.
    exists cur, (versioned (put cm σ) cm). by rewrite <- obj_put.
Defined.

(** Snapshots as the decimal of their stamp, compression as a one-byte header. *)
Definition stamp_only (t : time) : Snapshot := MkSnapshot SnapshotVersion t [] ∅ [] [] ∅.
#[export] Instance codec : Codec := {
  Marshal snap := Some (Itoa snap.(sn_SavedAt));
  Unmarshal body := stamp_only <$> Atoi body;
  UnmarshalHeader body := Atoi body;
  gzip_Write b := Some (String "z"%char b);
  gzip_ReadAll gz := match gz with String "z"%char b => Some b | _ => None end;
}.
#[export] Instance codec_laws : CodecLaws.
Proof. split; [by intros b gz [= <-]|by intros b gz [= <-]]. Qed.
Definition start : @server api := MkSrv [] false.
End Toy.
Import Toy.

(** An execution of [n] steps. *)
Ltac go_back n := lazymatch n with O => idtac | S ?m => eapply traced_snoc; [go_back m|] end.

(** Two first saves race: both find no object, one creates it, the other retries and, being
    newer, replaces it. *)
Lemma Save_refines_witness :
  ∃ tr s log, traced 5 (MkSystem Toy.start ∅) tr s
    ∧ history (abs Toy.start) tr log (abs s.(s_server))
    ∧ AtomicStore.saves 0 log = 1%nat ∧ AtomicStore.saves 1 log = 1%nat.
Proof.
  set (snap0 := Toy.stamp_only 100). set (snap1 := Toy.stamp_only 200).
  assert (Hreach : ∃ tr s, traced 5 (MkSystem Toy.start ∅) tr s
     ∧ (∃ j, s.(s_writers) !! 0%nat = Some (j, Done None)) ∧ (∃ j, s.(s_writers) !! 1%nat = Some (j, Done None))).
  { do 2 eexists. split.
    { go_back 8%nat; [apply traced_nil|eapply (step_start 5 _ _ 0%nat snap0); reflexivity|eapply (step_start 5 _ _ 1%nat snap1); reflexivity|..].
      - eapply (step_save 5 _ _ 0%nat _ _ 0); reflexivity.
      - eapply (step_save 5 _ _ 1%nat _ _ 0); reflexivity.
      - eapply (step_save 5 _ _ 0%nat _ _ 0); reflexivity.
      - eapply (step_save 5 _ _ 1%nat _ _ 0); reflexivity.
      - eapply (step_save 5 _ _ 1%nat _ _ 0); reflexivity.
      - eapply (step_save 5 _ _ 1%nat _ _ 0); reflexivity. }
    split; eexists; vm_compute; reflexivity. }
  destruct Hreach as (tr & s & Hr & [j0 Hw0] & [j1 Hw1]).
  destruct (Save_refines 5 Toy.start tr s Hr) as (log & Hh & _ & Hdone & _).
  exists tr, s, log. split_and!; [done|done|by eapply Hdone|by eapply Hdone].
Defined.



