(* ===== verification/Pipeline.v ===== *)
(** * internal/app: the alert pipeline

    Models internal/app/{event_emitter,pipeline,sweeper,controller}.go: the emitter and the
    resolver, the grouping gate, the sweep tick with its escalations and gated save, restoring
    and exporting state, and the shutdown sequence. The components are the ones of the other
    files; this file composes them as the code does, in a state monad over [controller]. Every
    [time.Now()] is one reading of [c_clock]. A call of [emit] or of a sweep tick is modelled
    as running alone; interference between goroutines inside one component is the subject of
    the component's own theorems. *)
From stdpp Require Import sorting.
From S2P Require Import Prelude GoStd AlertModel SilenceStore AlertStore Shard.
From S2P Require Import Config ConfigTheory Router Group RulesEngine Dispatcher.

(** A call of [enqueue]. *)
Abbreviation delivery := (Alert * list string * option string)%type (only parsing).

Record controller := MkController {
  c_cfg : Config;
  c_start : time;                   (** [controllerStart] *)
  c_store : Store;
  c_sil : SilStore;
  c_router : Router;
  c_grouper : option Grouper;
  c_engine : Engine;
  c_disp : dispatcher;
  c_saved : Z * Z * Z;              (** [savedGen], [savedSilGen], [savedPendGen] *)
  c_configmap : option Snapshot;    (** what the persister last saved *)
  c_clock : nat → time;
  c_reads : nat;
  c_enqueued : list delivery;       (** history: the calls of [enqueue], oldest first *)
}.

Definition set_store v c := MkController c.(c_cfg) c.(c_start) v c.(c_sil) c.(c_router) c.(c_grouper) c.(c_engine) c.(c_disp) c.(c_saved) c.(c_configmap) c.(c_clock) c.(c_reads) c.(c_enqueued).
Definition set_sil v c := MkController c.(c_cfg) c.(c_start) c.(c_store) v c.(c_router) c.(c_grouper) c.(c_engine) c.(c_disp) c.(c_saved) c.(c_configmap) c.(c_clock) c.(c_reads) c.(c_enqueued).
Definition set_router v c := MkController c.(c_cfg) c.(c_start) c.(c_store) c.(c_sil) v c.(c_grouper) c.(c_engine) c.(c_disp) c.(c_saved) c.(c_configmap) c.(c_clock) c.(c_reads) c.(c_enqueued).
Definition set_grouper v c := MkController c.(c_cfg) c.(c_start) c.(c_store) c.(c_sil) c.(c_router) v c.(c_engine) c.(c_disp) c.(c_saved) c.(c_configmap) c.(c_clock) c.(c_reads) c.(c_enqueued).
Definition set_engine v c := MkController c.(c_cfg) c.(c_start) c.(c_store) c.(c_sil) c.(c_router) c.(c_grouper) v c.(c_disp) c.(c_saved) c.(c_configmap) c.(c_clock) c.(c_reads) c.(c_enqueued).
Definition set_disp v c := MkController c.(c_cfg) c.(c_start) c.(c_store) c.(c_sil) c.(c_router) c.(c_grouper) c.(c_engine) v c.(c_saved) c.(c_configmap) c.(c_clock) c.(c_reads) c.(c_enqueued).
Definition set_saved v snap c := MkController c.(c_cfg) c.(c_start) c.(c_store) c.(c_sil) c.(c_router) c.(c_grouper) c.(c_engine) c.(c_disp) v snap c.(c_clock) c.(c_reads) c.(c_enqueued).
Definition set_reads v c := MkController c.(c_cfg) c.(c_start) c.(c_store) c.(c_sil) c.(c_router) c.(c_grouper) c.(c_engine) c.(c_disp) c.(c_saved) c.(c_configmap) c.(c_clock) v c.(c_enqueued).
Definition set_enqueued v c := MkController c.(c_cfg) c.(c_start) c.(c_store) c.(c_sil) c.(c_router) c.(c_grouper) c.(c_engine) c.(c_disp) c.(c_saved) c.(c_configmap) c.(c_clock) c.(c_reads) v.

(** ** The state monad *)

Definition M (A : Type) : Type := controller → A * controller.
Definition ret {A} (x : A) : M A := λ c, (x, c).
Definition bind {A B} (m : M A) (k : A → M B) : M B := λ c, let '(x, c) := m c in k x c.
Notation "'let!' x := m 'in' k" := (bind m (λ x, k)) (at level 100, x pattern, m at level 99, k at level 100) : go_scope.
Notation "m ;;! k" := (bind m (λ _, k)) (at level 100, k at level 100, right associativity) : go_scope.
Open Scope go_scope.

Fixpoint for_each {A} (f : A → M unit) (l : list A) : M unit :=
  match l with
  | [] => ret tt
  | x :: l => f x ;;! for_each f l
  end.

(** [time.Now()]. *)
Definition Now : M time := λ c, (c.(c_clock) c.(c_reads), set_reads (S c.(c_reads)) c).

(** Run an operation of the store. *)
Definition with_store {A} (f : Store → A * Store) : M A :=
  λ c, let '(x, s) := f c.(c_store) in (x, set_store s c).

Definition c_enqueue (a : Alert) (route : list string) (onFail : option string) : M unit :=
  λ c, (tt, set_enqueued (c.(c_enqueued) ++ [(a, route, onFail)]) (set_disp (enqueue a route onFail c.(c_disp)) c)).

(** ** pipeline.go *)

Definition statefulSinks : gset string := {["pagerduty"; "opsgenie"]}.
Definition is_stateful (s : string) : bool := bool_decide (s ∈ statefulSinks).

Definition filterRoute (route : list string) (keep : string → bool) : list string :=
  List.filter keep route.
Definition dropStateful (route : list string) : list string := filterRoute route (λ s, negb (is_stateful s)).
Definition keepStateful (route : list string) : list string := filterRoute route is_stateful.

Section pipeline.
Context `{RegexpLib} `{MapRange} `{TimeLib} `{ZoneLib}.

(** [r.Route(a)] with the live runtime silences: [None] is the nil slice. *)
Definition c_route (a : Alert) : M (option (list string)) :=
  let! t1 := Now in let! t2 := Now in let! t3 := Now in let! t4 := Now in
  λ c, let '(res, r) := Route t1 t2 t3 t4 a (SetRuntimeSilences (Some c.(c_sil)) c.(c_router)) in
       (match res with RouteTo sinks => Some sinks | Dropped _ => None end, set_router r c).

Definition c_arm (a : Alert) : M unit :=
  let! t := Now in λ c, (tt, set_router (ArmInhibitions t a c.(c_router)) c).

(** The flush callback [buildGrouper] installs. *)
Definition flush_summary (s : Alert) : M unit :=
  let! route := c_route s in
  c_enqueue s (dropStateful (default [] route)) None.

(** [g.Offer(a)], with the summary of a bucket it closes. *)
Definition c_offer (g : Grouper) (a : Alert) : M bool :=
  let! now := Now in
  let '(pass, g', closed) := Offer now a g in
  (λ c, (tt, set_grouper (Some g') c)) ;;!
  let! now := Now in
  for_each flush_summary (emitSummaries now g' closed) ;;!
  ret pass.

Definition groupRoute (a : Alert) (route : list string) : M (list string * bool) :=
  λ c, match c.(c_grouper) with
       | None => (route, false, c)
       | Some g => (let! pass := c_offer g a in
                    if (pass : bool) then ret (route, false) else ret (keepStateful route, true)) c
       end.

(** ** event_emitter.go *)

Definition makeResolver (a : Alert) : M unit :=
  let! route := c_route a in
  match route with
  | None => ret tt
  | Some route => let! res := groupRoute a route in c_enqueue a res.1 None
  end.

(** The store's [onResolved] callback is the resolver; [onChange] only sets a gauge. *)
Definition run_callback (cb : Callback) : M unit :=
  match cb with OnResolved a => makeResolver a | OnChange _ => ret tt end.

Fixpoint override_severity (ovs : list SeverityOverride) (a : Alert) : Alert :=
  match ovs with
  | [] => a
  | ov :: ovs => if MatchLabels a ov.(Ov_Match) then with_Severity ov.(Ov_Severity) a else override_severity ovs a
  end.

(** The muted branch: the condition persists. *)
Definition refresh (a : Alert) : M unit :=
  let! now := Now in
  with_store (λ s, (tt, Touch now a.(a_Fingerprint) s)) ;;!
  c_arm a.

Section emitter.
(** [emit] itself, for the alerts the rule engine derives. *)
Variable emit_derived : Alert → M unit.

Definition observe (a : Alert) : M unit :=
  let! now := Now in let! wall := Now in
  let! fired := (λ c, let '(e, fired) := Observe now wall a c.(c_engine) in (fired, set_engine e c)) in
  for_each emit_derived fired.

Definition emit_event (a : Alert) : M unit :=
  let! now := Now in
  let! ok := with_store (ShouldSendEvent now a) in
  if ok then
    observe a ;;!
    let! route := c_route a in
    c_enqueue a (dropStateful (default [] route)) None
  else ret tt.

(** After the mute check: observe, route, group, dedupe, enqueue. *)
Definition emit_unmuted (a : Alert) : M unit :=
  observe a ;;!
  let! route := c_route a in
  match route with
  | None => ret tt
  | Some route =>
    let! gr := groupRoute a route in
    let '(route, absorbed) := gr in
    if absorbed && (length route =? 0)%nat then
      let! now := Now in with_store (λ s, (tt, Seed now a.(a_Fingerprint) s))
    else
      let! now := Now in
      let! res := with_store (λ s, let '(ok, a', s', cbs) := ShouldSend now a s in ((ok, a', cbs), s')) in
      let '(ok, a', cbs) := res in
      for_each run_callback cbs ;;!
      if (ok : bool) then c_enqueue a' route (Some a'.(a_Fingerprint)) else refresh a'
  end.

(** The startup-grace test. *)
Definition in_grace (cfg : Config) (start : time) : M bool :=
  let grace := Seconds cfg.(Cf_Behavior).(StartupGraceSeconds) in
  if 0 <? grace then let! now := Now in ret (Sub now start <? grace) else ret false.

Definition emit_firing (a : Alert) : M unit :=
  λ c,
  let cfg := c.(c_cfg) in
  let a := override_severity cfg.(SeverityOverrides) (with_Cluster cfg.(Cluster) a) in
  (if a.(a_Event) then emit_event a
   else
     let! starting := in_grace cfg c.(c_start) in
     if starting then let! now := Now in with_store (λ s, (tt, Seed now a.(a_Fingerprint) s))
     else
       let! now := Now in
       let! muted := with_store (λ s, (Muted now a.(a_Fingerprint) s, s)) in
       if (muted : bool) then refresh a else emit_unmuted a) c.

Definition emit_body (a : Alert) : M unit :=
  if a.(a_Resolved) then
    let! now := Now in
    let! cbs := with_store (λ s, let '(s', cbs) := ResolveObject now a.(a_Kind) a.(a_Namespace) a.(a_Name) s in (cbs, s')) in
    for_each run_callback cbs
  else emit_firing a.
End emitter.

(** [makeEmitter]: the recursion through the rule engine, unrolled [n] times. *)
Fixpoint emit_n (n : nat) : Alert → M unit :=
  match n with
  | O => λ _, ret tt
  | S n => emit_body (emit_n n)
  end.

(** Derived alerts derive nothing ([emit_stable] below), so two levels are all of it. *)
Definition emit : Alert → M unit := emit_n 2.

(** [shardGate] around it. *)
Definition sharded_emit (s : option Sharder) (a : Alert) : M unit :=
  if negb (Enabled s) then emit a else if Owns s (shardKey a) then emit a else ret tt.

(** The receiver's resolve path ([setupReceiver]). *)
Definition receiver_resolve (a : Alert) : M unit :=
  let! cbs := with_store (λ s, let '(s', cbs) := Forget a.(a_Fingerprint) s in (cbs, s')) in
  for_each run_callback cbs ;;!
  makeResolver a.

(** ** sweeper.go *)

(** The copy [runEscalations] sends. *)
Definition escalated_copy (after : duration) (a : Alert) : Alert :=
  with_Summary ("[ESCALATED - unresolved after " +:+ Duration_String after +:+ "] " +:+ a.(a_Summary))
    (with_Labels (<["alertkube-escalated" := "true"]> a.(a_Labels)) a).

Definition escalate (esc : Escalation) : M unit :=
  let after := Minutes esc.(AfterMinutes) in
  let! now := Now in
  let! overdue := with_store (Overdue now after (EscalationKey esc) esc.(Es_Match)) in
  for_each (λ a, c_enqueue (escalated_copy after a) esc.(Es_Sinks) None) overdue.

Definition runEscalations (escalations : list Escalation) : M unit := for_each escalate escalations.

(** [exportState]. *)
Definition exportState (now : time) (store : Store) (sil : SilStore) (disp : dispatcher) : Snapshot :=
  let snap := Export now store in
  MkSnapshot snap.(sn_Version) snap.(sn_SavedAt) snap.(sn_Active) snap.(sn_LastSent)
    (SilList sil) (PendingSnapshot disp) snap.(sn_Escalated).

Definition generations (c : controller) : Z * Z * Z :=
  (Generation c.(c_store), c.(c_sil).(ss_gen), PendingGeneration c.(c_disp)).

(** The gated save of a tick; [saveOK] is whether the API server took it. *)
Definition save_tick (saveOK : bool) : M unit :=
  λ c,
  let gens := generations c in
  if bool_decide (gens = c.(c_saved)) then (tt, c)
  else
    let '(now, c) := Now c in
    let snap := exportState now c.(c_store) c.(c_sil) c.(c_disp) in
    if saveOK then (tt, set_saved gens (Some snap) c) else (tt, c).

(** One tick of [runSweeper]; [persister] is whether persistence is on. *)
Definition sweep_tick (persister saveOK : bool) : M unit :=
  let! now := Now in
  let! cbs := with_store (λ s, let '(s', cbs) := SweepResolved now s in (cbs, s')) in
  for_each run_callback cbs ;;!
  let! now := Now in
  with_store (λ s, (tt, CleanOldHistory now s)) ;;!
  let! now := Now in
  (λ c, (tt, set_sil (PruneExpired now c.(c_sil)).2 c)) ;;!
  (λ c, runEscalations c.(c_cfg).(Escalations) c) ;;!
  if persister then save_tick saveOK else ret tt.

(** ** controller.go *)

Definition defaultRoute : list string := ["slack"].

Definition buildGrouper (g : Grouping) : option Grouper :=
  if g.(Gr_Enabled) then Some (group_New (Seconds g.(Gr_WindowSeconds)) g.(Gr_By)) else None.

(** The state [runController] builds before restoring; the runtime silences are wired by
    [c_route]. *)
Definition runController_init (getenv : string → string) (clock : nat → time) (cfg : Config) : controller :=
  let r := router_New cfg.(Routing) cfg.(Inhibitions) cfg.(Silences) defaultRoute in
  let r := SetDisableAnnotationSilences cfg.(Cf_Behavior).(DisableAnnotationSilences) r in
  let r := SetMaintenance cfg.(Maintenance) r in
  let disp := newDispatcher (IntOr getenv "ALERTKUBE_DISPATCH_WORKERS" defaultDispatchWorkers)
                            (IntOr getenv "ALERTKUBE_DISPATCH_QUEUE" defaultDispatchQueueSize) in
  let store := SetOnChange (NewStore (Seconds cfg.(Cf_Behavior).(MuteSeconds))
                                     (Seconds cfg.(Cf_Behavior).(ResolveTTLSeconds)) true) in
  MkController cfg (clock 0%nat) store NewSilStore r (buildGrouper cfg.(Cf_Grouping))
    (engine_New (clock 1%nat) cfg.(Rules)) disp (0, 0, 0) None clock 2 [].

(** What [persister.Load] gave. *)
Inductive load_result := LoadError | LoadedSnapshot (snap : option Snapshot).

Definition replay_job (p : delivery) : M unit := c_enqueue p.1.1 p.1.2 p.2.

Definition restoreState (sharder : option Sharder) (loaded : load_result) : M bool :=
  λ c,
  if negb c.(c_cfg).(Cf_Persistence).(Ps_Enabled) then (false, c)
  else
    match loaded with
    | LoadError => (true, c)
    | LoadedSnapshot None => (true, c)
    | LoadedSnapshot (Some snap) =>
      if SnapshotVersion <? snap.(sn_Version) then (true, c)
      else
        (let! now := Now in
         let! cbs := with_store (λ s, let '(_, s', cbs) := Restore now (Some snap) s in (cbs, s')) in
         for_each run_callback cbs ;;!
         (λ c, (tt, set_sil (SilReplace snap.(sn_RuntimeSilences) c.(c_sil)) c)) ;;!
         for_each replay_job (omap (replayable (Some (λ a, Owns sharder (shardKey a))) true) (merge_sort by_id snap.(sn_Pending))) ;;!
         ret true) c
    end.

(** [setupReceiver]'s decision: off, refuse to start, or serve. *)
Inductive receiver_setup := ReceiverOff | ReceiverFatal | ReceiverOn (anonymous : bool).

Definition setupReceiver (cfg : Config) (token : string) : receiver_setup :=
  if negb cfg.(Cf_Receiver).(Rc_Enabled) then ReceiverOff
  else if streq token "" && negb cfg.(Cf_Receiver).(AllowAnonymous) then ReceiverFatal
  else ReceiverOn (streq token "").

(** The grouper's timer ([Run]) and its final flush. *)
Definition group_tick : M unit :=
  λ c, match c.(c_grouper) with
       | None => (tt, c)
       | Some g => (let! now := Now in
                    let '(g', closed) := flushExpired now g in
                    (λ c, (tt, set_grouper (Some g') c)) ;;!
                    let! now := Now in
                    for_each flush_summary (emitSummaries now g' closed)) c
       end.

Definition group_close : M unit :=
  λ c, match c.(c_grouper) with
       | None => (tt, c)
       | Some g => (let '(g', closed) := FlushAll g in
                    (λ c, (tt, set_grouper (Some g') c)) ;;!
                    let! now := Now in
                    for_each flush_summary (emitSummaries now g' closed)) c
       end.

(** [shutdown], between the waits for other goroutines; [enriched] are the alerts a watcher
    still emits while [drainWatchers] waits. *)
Definition shutdown (enriched : list Alert) (persister saveOK : bool) : M unit :=
  (λ c, (tt, set_disp (unblockProducers c.(c_disp)) c)) ;;!
  for_each emit enriched ;;!
  group_close ;;!
  (λ c, (tt, set_disp (close_queues c.(c_disp)) c)) ;;!
  if persister then
    let! now := Now in
    λ c, (tt, if saveOK then set_saved c.(c_saved) (Some (exportState now c.(c_store) c.(c_sil) c.(c_disp))) c else c)
  else ret tt.
End pipeline.

(** * Theorems *)

Section theorems.
Context `{RegexpLib} `{MapRange} `{TimeLib} `{ZoneLib}.
Implicit Types (c : controller) (a : Alert).

Lemma bind_ext {A B} (m m' : M A) (k k' : A → M B) c :
  m c = m' c → (∀ x c, k x c = k' x c) → bind m k c = bind m' k' c.
Proof. unfold bind. intros -> Hk. destruct (m' c) as [x c']. apply Hk. Qed.

Lemma for_each_ext {A} (f g : A → M unit) l c :
  (∀ x c, x ∈ l → f x c = g x c) → for_each f l c = for_each g l c.
Proof.
  revert c. induction l as [|x l IH]; intros c Hfg; [done|].
  apply bind_ext; [apply Hfg; left|]. intros _ c'. apply IH. intros y c'' Hy. apply Hfg. by right.
Qed.

(** ** The rule engine does not feed back *)

Lemma override_severity_Kind ovs a : (override_severity ovs a).(a_Kind) = a.(a_Kind).
Proof. induction ovs as [|ov ovs IH]; [done|]. simpl. by destruct (MatchLabels _ _). Qed.

Lemma Observe_derived_only now wall a e x : x ∈ (Observe now wall a e).2 → x.(a_Kind) = KindDerived.
Proof.
  unfold Observe. destruct (unobserved a); simpl; [by intros ?%elem_of_nil|].
  intros ([r [st b]] & _ & E)%list_elem_of_omap. simpl in E. destruct b; [|done]. by simplify_eq.
Qed.

(** Two emitters that agree on derived alerts are the same emitter. *)
Lemma emit_body_ext f g a c :
  (∀ x c, x.(a_Kind) = KindDerived → f x c = g x c) → emit_body f a c = emit_body g a c.
Proof.
  intros Hfg.
  assert (Hobs : ∀ a c, observe f a c = observe g a c).
  { intros a' c0. apply bind_ext; [done|]. intros now c1. apply bind_ext; [done|]. intros wall c2.
    unfold bind. destruct (Observe now wall a' (c_engine c2)) as [e fired] eqn:E. apply for_each_ext.
    intros x c' Hx. apply Hfg. eapply (Observe_derived_only now wall a' (c_engine c2)). by rewrite E. }
  unfold emit_body. destruct (a_Resolved a); [done|]. unfold emit_firing. destruct (a_Event _).
  - apply bind_ext; [done|]. intros now c1. apply bind_ext; [done|]. intros [] c2; [|done].
    apply bind_ext; [apply Hobs|done].
  - apply bind_ext; [done|]. intros [] c1; [done|]. apply bind_ext; [done|]. intros now c2.
    apply bind_ext; [done|]. intros [] c3; [done|]. apply bind_ext; [apply Hobs|done].
Qed.

Lemma emit_body_derived f g a c : a.(a_Kind) = KindDerived → emit_body f a c = emit_body g a c.
Proof.
  intros Hk. assert (Hobs : ∀ x c, x.(a_Kind) = KindDerived → observe f x c = observe g x c).
  { intros x c0 Hx. apply bind_ext; [done|]. intros now c1. apply bind_ext; [done|]. intros wall c2.
    unfold bind, Observe, unobserved. by rewrite Hx, streq_refl, orb_true_r. }
  unfold emit_body. destruct (a_Resolved a); [done|]. unfold emit_firing.
  set (a1 := override_severity _ _).
  assert (Hk1 : a1.(a_Kind) = KindDerived) by (unfold a1; by rewrite override_severity_Kind).
  destruct (a_Event a1).
  - apply bind_ext; [done|]. intros now c1. apply bind_ext; [done|]. intros [] c2; [|done].
    apply bind_ext; [by apply Hobs|done].
  - apply bind_ext; [done|]. intros [] c1; [done|]. apply bind_ext; [done|]. intros now c2.
    apply bind_ext; [done|]. intros [] c3; [done|]. apply bind_ext; [by apply Hobs|done].
Qed.

(** Alerts derived by the rule engine go back through the emitter but derive nothing
    themselves, so the emitter's recursion is at most one level deep: unrolling it further
    changes nothing, for any alert, rule set and state. *)
Theorem emit_stable n a c : emit_n (S (S n)) a c = emit a c.
Proof. unfold emit. simpl. apply emit_body_ext. intros x c' Hx. by apply emit_body_derived. Qed.

(** ** Incidents are closed *)

(** The sinks the routing table gives an alert. *)
Definition pick (r : Router) (a : Alert) : list string := pick_route a r.(ro_routes) r.(ro_defaultSinks).

(** Two controllers with the same routing table. *)
Definition same_table (c c' : controller) : Prop :=
  c'.(c_router).(ro_routes) = c.(c_router).(ro_routes)
  ∧ c'.(c_router).(ro_defaultSinks) = c.(c_router).(ro_defaultSinks).

(** An enqueue call that is neither a fire nor an event to a stateful sink. *)
Definition benign (d : delivery) : Prop :=
  d.2 = None ∧ (d.1.1.(a_Event) = true → keepStateful d.1.2 = []).

(** A computation that leaves the store and the routing table alone and only adds benign
    deliveries. *)
Definition frame (c c' : controller) : Prop :=
  c'.(c_store) = c.(c_store) ∧ same_table c c'
  ∧ ∃ l, c'.(c_enqueued) = c.(c_enqueued) ++ l ∧ ∀ d, d ∈ l → benign d.

Lemma frame_refl c : frame c c.
Proof. split; [done|]. split; [done|]. exists []. rewrite app_nil_r. split; [done|]. intros d Hd. by apply elem_of_nil in Hd. Qed.

Lemma frame_trans c1 c2 c3 : frame c1 c2 → frame c2 c3 → frame c1 c3.
Proof.
  intros (Hs1 & [Hr1 Hd1] & l1 & E1 & Hq1) (Hs2 & [Hr2 Hd2] & l2 & E2 & Hq2). split; [congruence|].
  split; [split; congruence|]. exists (l1 ++ l2). rewrite E2, E1, app_assoc. split; [done|].
  intros d [Hd|Hd]%elem_of_app; auto.
Qed.

(** [framed m]: every run of [m] is a frame. *)
Definition framed {A} (m : M A) : Prop := ∀ c, frame c (m c).2.

Lemma framed_ret {A} (x : A) : framed (ret x).
Proof. intros c. apply frame_refl. Qed.

Lemma framed_bind {A B} (m : M A) (k : A → M B) : framed m → (∀ x, framed (k x)) → framed (bind m k).
Proof.
  intros Hm Hk c. unfold bind. pose proof (Hm c) as Hf1. destruct (m c) as [x c1].
  eapply frame_trans; [exact Hf1|apply Hk].
Qed.

Lemma framed_for_each {A} (f : A → M unit) l : (∀ x, x ∈ l → framed (f x)) → framed (for_each f l).
Proof.
  induction l as [|x l IH]; intros Hf; [apply framed_ret|].
  apply framed_bind; [apply Hf; left|]. intros _. apply IH. intros y Hy. apply Hf. by right.
Qed.

(** A change of fields outside the frame. *)
Lemma framed_set {A} (f : controller → A * controller) :
  (∀ c, (f c).2.(c_store) = c.(c_store) ∧ same_table c (f c).2 ∧ (f c).2.(c_enqueued) = c.(c_enqueued)) → framed f.
Proof.
  intros Hf c. destruct (Hf c) as (Hs & Ht & He). split; [done|]. split; [done|]. exists [].
  rewrite app_nil_r. split; [done|]. intros d Hd. by apply elem_of_nil in Hd.
Qed.

Lemma framed_Now : framed Now.
Proof. by apply framed_set. Qed.

Lemma framed_enqueue a route : (a.(a_Event) = true → keepStateful route = []) → framed (c_enqueue a route None).
Proof.
  intros Hev c. split; [done|]. split; [done|]. exists [(a, route, None)]. split; [done|].
  intros d ->%list_elem_of_singleton. done.
Qed.

Lemma Route_table t1 t2 t3 t4 a r :
  (Route t1 t2 t3 t4 a r).2.(ro_routes) = r.(ro_routes) ∧ (Route t1 t2 t3 t4 a r).2.(ro_defaultSinks) = r.(ro_defaultSinks)
  ∧ ∀ sinks, (Route t1 t2 t3 t4 a r).1 = RouteTo sinks → sinks = pick r a.
Proof.
  unfold Route. repeat case_match; simpl; split_and!; try done; intros sinks E; by simplify_eq.
Qed.

Lemma framed_route a : framed (c_route a).
Proof.
  unfold c_route. do 4 (apply framed_bind; [apply framed_Now|]; intros ?). apply framed_set. intros c.
  match goal with |- context [Route ?a1 ?a2 ?a3 ?a4 ?x ?r] => pose proof (Route_table a1 a2 a3 a4 x r) as (H1' & H2' & _);
    destruct (Route a1 a2 a3 a4 x r) as [res r'] end.
  done.
Qed.

(** What [c_route] answers: the table's pick; always for a resolve. *)
Lemma c_route_spec a c :
  (∀ sinks, (c_route a c).1 = Some sinks → sinks = pick c.(c_router) a)
  ∧ (a.(a_Resolved) = true → (c_route a c).1 = Some (pick c.(c_router) a)).
Proof.
  unfold c_route, bind, Now. simpl.
  match goal with |- context [Route ?a1 ?a2 ?a3 ?a4 ?x ?r] => pose proof (Route_table a1 a2 a3 a4 x r) as (_ & _ & H3');
    assert (Hres : a_Resolved x = true → (Route a1 a2 a3 a4 x r).1 = RouteTo (pick r x));
    [intros Hr; unfold Route; by rewrite Hr|]; destruct (Route a1 a2 a3 a4 x r) as [res r'] end.
  simpl in *. split.
  - intros sinks E. destruct res; simplify_eq. by apply H3'.
  - intros Hr. by rewrite (Hres Hr).
Qed.

Lemma keepStateful_drop route : keepStateful (dropStateful route) = [].
Proof.
  unfold keepStateful, dropStateful, filterRoute. induction route as [|s route IH]; [done|]. simpl.
  destruct (is_stateful s) eqn:E; simpl; [done|]. by rewrite E.
Qed.

Lemma keepStateful_idem route : keepStateful (keepStateful route) = keepStateful route.
Proof.
  unfold keepStateful, filterRoute. induction route as [|s route IH]; [done|]. simpl.
  destruct (is_stateful s) eqn:E; simpl; [rewrite E; by f_equal|done].
Qed.

Lemma framed_flush s : framed (flush_summary s).
Proof.
  apply framed_bind; [apply framed_route|]. intros route. apply framed_enqueue. intros _. apply keepStateful_drop.
Qed.

Lemma framed_offer g a : framed (c_offer g a).
Proof.
  unfold c_offer. apply framed_bind; [apply framed_Now|]. intros now. destruct (Offer now a g) as [[pass g'] closed].
  apply framed_bind; [by apply framed_set|]. intros _. apply framed_bind; [apply framed_Now|]. intros now'.
  apply framed_bind; [apply framed_for_each; intros; apply framed_flush|]. intros _. apply framed_ret.
Qed.

(** The grouping gate never takes a stateful sink away. *)
Lemma groupRoute_spec a route c :
  frame c (groupRoute a route c).2 ∧ keepStateful (groupRoute a route c).1.1 = keepStateful route.
Proof.
  unfold groupRoute. destruct (c_grouper c) as [g|]; [|split; [apply frame_refl|done]].
  unfold bind. pose proof (framed_offer g a c) as Hf. destruct (c_offer g a c) as [[] c1]; simpl in *.
  - by split.
  - split; [done|apply keepStateful_idem].
Qed.

(** Alerts that agree on everything the routing table looks at. *)
Definition routed_alike (a b : Alert) : Prop :=
  a.(a_Fingerprint) = b.(a_Fingerprint) ∧ a.(a_Labels) = b.(a_Labels) ∧ a.(a_Event) = b.(a_Event)
  ∧ ∀ key, FieldValue a key = FieldValue b key.

Lemma match_alike a b m : routed_alike a b → MatchLabels a m = MatchLabels b m.
Proof.
  intros (_ & _ & _ & Hf). unfold MatchLabels. induction (map_to_list m) as [|kv l IH]; [done|].
  simpl. rewrite IH. unfold match_one. by rewrite Hf.
Qed.

Lemma pick_alike r a b : routed_alike a b → pick r a = pick r b.
Proof.
  intros Hab. unfold pick. induction (ro_routes r) as [|rt rts IH]; [done|]. simpl.
  by rewrite (match_alike a b), IH.
Qed.

Definition isFire (fp : string) (d : delivery) : Prop := d.2 = Some fp.

(** [owed] are resolves the store has recorded and the resolver has still to send. *)
Record ledger (owed : list Alert) (c : controller) : Prop := {
  lg_keyed : ∀ fp a, c.(c_store).(st_active) !! fp = Some a → a.(a_Fingerprint) = fp ∧ a.(a_Event) = false;
  lg_callback : c.(c_store).(st_onResolved) = true;
  lg_owed : ∀ r, r ∈ owed → r.(a_Resolved) = true ∧ r.(a_Event) = false;
  lg_events : ∀ d, d ∈ c.(c_enqueued) → d.1.1.(a_Event) = true → keepStateful d.1.2 = [];
  lg_fires : ∀ pre a route fp post,
    c.(c_enqueued) = pre ++ (a, route, Some fp) :: post → (∀ d, d ∈ post → ¬ isFire fp d) →
    (∃ s, c.(c_store).(st_active) !! fp = Some s ∧ keepStateful (pick c.(c_router) s) = keepStateful route)
    ∨ (∃ r, r ∈ owed ∧ r.(a_Fingerprint) = fp ∧ keepStateful (pick c.(c_router) r) = keepStateful route)
    ∨ (∃ r route', (r, route', None) ∈ post ∧ r.(a_Fingerprint) = fp ∧ r.(a_Resolved) = true
                   ∧ keepStateful route' = keepStateful route);
}.

Lemma pick_table c c' a : same_table c c' → pick c'.(c_router) a = pick c.(c_router) a.
Proof. intros [Hr Hd]. unfold pick. by rewrite Hr, Hd. Qed.

(** A fire found in an extended log with benign additions is in the old log. *)
Lemma fire_split (l l2 : list delivery) pre a route fp post :
  (∀ d, d ∈ l2 → d.2 = None) → l ++ l2 = pre ++ (a, route, Some fp) :: post →
  ∃ mid, l = pre ++ (a, route, Some fp) :: mid ∧ post = mid ++ l2.
Proof.
  intros Hq E. revert l E. induction pre as [|p pre IH]; intros l E.
  - destruct l as [|d l]; simpl in E.
    + destruct l2 as [|d l2]; simplify_eq/=. assert (Hc : @None string = Some fp) by (symmetry; apply (Hq (a, route, Some fp)); left). done.
    + simplify_eq. by exists l.
  - destruct l as [|d l]; simpl in E.
    + destruct l2 as [|d l2]; simplify_eq/=.
      assert (Hc : @None string = Some fp); [|done]. symmetry. apply (Hq (a, route, Some fp)). right.
      apply elem_of_app. right. left.
    + simplify_eq. destruct (IH l) as (mid & -> & ->); [done|]. by exists mid.
Qed.

(** A step that adds benign deliveries [l], where every live or owed resolve is still live,
    still owed, or among them. *)
Lemma ledger_step owed owed' c c' l :
  ledger owed c → same_table c c' → c'.(c_enqueued) = c.(c_enqueued) ++ l → (∀ d, d ∈ l → benign d) →
  (∀ fp a, c'.(c_store).(st_active) !! fp = Some a → a.(a_Fingerprint) = fp ∧ a.(a_Event) = false) →
  c'.(c_store).(st_onResolved) = true →
  (∀ r, r ∈ owed' → r.(a_Resolved) = true ∧ r.(a_Event) = false) →
  (∀ fp s, c.(c_store).(st_active) !! fp = Some s →
     (∃ s', c'.(c_store).(st_active) !! fp = Some s' ∧ routed_alike s' s)
     ∨ (∃ r, r ∈ owed' ∧ routed_alike r s)) →
  (∀ r, r ∈ owed → r ∈ owed'
     ∨ ∃ route, (r, route, None) ∈ l ∧ keepStateful route = keepStateful (pick c.(c_router) r)) →
  ledger owed' c'.
Proof.
  intros [Hk _ Ho Hev Hf] Ht El Hq Hk' Hcb Ho' Hact Howed.
  assert (Hp : ∀ a, pick c'.(c_router) a = pick c.(c_router) a) by (intros; by apply pick_table).
  split; [done|done|done| |].
  - rewrite El. intros d [Hd|Hd]%elem_of_app; [by apply Hev|by apply Hq].
  - intros pre a route fp post E Hlast. rewrite El in E.
    destruct (fire_split _ _ _ _ _ _ _ (λ d Hd, proj1 (Hq d Hd)) E) as (mid & Emid & ->).
    destruct (Hf pre a route fp mid Emid) as [(s & Hs & Hst)|[(r & Hr & Hrf & Hst)|(r & rt & Hr & Hrest)]].
    { intros d Hd. apply Hlast. apply elem_of_app. by left. }
    + destruct (Hact fp s Hs) as [(s' & Hs' & Hal)|(r & Hr & Hal)].
      * left. exists s'. split; [done|]. by rewrite Hp, (pick_alike _ s' s).
      * right; left. exists r. split_and!; [done| |by rewrite Hp, (pick_alike _ r s)].
        destruct Hal as (-> & _). by apply Hk.
    + destruct (Howed r Hr) as [Hr'|(rt & Hin & Hkeep)].
      * right; left. exists r. by rewrite Hp.
      * right; right. exists r, rt. split_and!; [apply elem_of_app; by right|done|by apply Ho|congruence].
    + right; right. exists r, rt. split; [apply elem_of_app; by left|done].
Qed.

Lemma alike_refl a : routed_alike a a.
Proof. done. Qed.

Lemma ledger_frame owed c c' : frame c c' → ledger owed c → ledger owed c'.
Proof.
  intros (Hs & Ht & l & El & Hq) Hl. apply (ledger_step owed owed c c' l); auto; rewrite ?Hs.
  - apply (lg_keyed _ _ Hl).
  - apply (lg_callback _ _ Hl).
  - apply (lg_owed _ _ Hl).
  - intros fp s Hfp. left. exists s. done.
Qed.

(** [makeResolver] pays one owed resolve. *)
Lemma ledger_resolver r owed c : ledger (r :: owed) c → ledger owed (makeResolver r c).2.
Proof.
  intros Hl. destruct (lg_owed _ _ Hl r (list_elem_of_here _ _)) as [Hr Hev].
  unfold makeResolver, bind. destruct (c_route_spec r c) as [_ Hroute]. specialize (Hroute Hr).
  pose proof (framed_route r c) as Hf1. destruct (c_route r c) as [route c1]. simpl in Hroute. subst route.
  destruct (groupRoute_spec r (pick (c_router c) r) c1) as [Hf2 Hkeep].
  destruct (groupRoute r (pick (c_router c) r) c1) as [[route absorbed] c2]. simpl in *.
  destruct (frame_trans _ _ _ Hf1 Hf2) as (Hs & Ht & l & El & Hq).
  apply (ledger_step (r :: owed) owed c _ (l ++ [(r, route, None)])); [done|done|simpl; by rewrite El, app_assoc| | | | | |].
  - intros d [Hd|Hd]%elem_of_app; [by apply Hq|]. apply list_elem_of_singleton in Hd as ->.
    split; [done|]. simpl. congruence.
  - simpl. rewrite Hs. apply (lg_keyed _ _ Hl).
  - simpl. rewrite Hs. apply (lg_callback _ _ Hl).
  - intros r' Hr'. apply (lg_owed _ _ Hl). by right.
  - simpl. rewrite Hs. intros fp s Hfp. left. by exists s.
  - intros r' [->|Hr']%elem_of_cons; [|by left]. right. exists route. split; [|done].
    apply elem_of_app. right. left.
Qed.

Definition owed_of (cbs : list Callback) : list Alert :=
  omap (λ cb, match cb with OnResolved a => Some a | OnChange _ => None end) cbs.

Lemma ledger_callbacks cbs c : ledger (owed_of cbs) c → ledger [] (for_each run_callback cbs c).2.
Proof.
  revert c. induction cbs as [|cb cbs IH]; intros c Hl; [done|]. simpl. unfold bind.
  destruct cb as [r|n]; simpl in *.
  - apply ledger_resolver in Hl. destruct (makeResolver r c) as [u c1]. by apply IH.
  - by apply IH.
Qed.

(** A store operation that changes active alerts only in ways routing does not see. *)
Definition alike_active (s s' : Store) : Prop :=
  ∀ fp, match s.(st_active) !! fp, s'.(st_active) !! fp with
        | Some a, Some a' => routed_alike a' a
        | None, None => True
        | _, _ => False
        end.

Lemma alike_active_same s s' : s'.(st_active) = s.(st_active) → alike_active s s'.
Proof. intros E fp. rewrite E. by destruct (st_active s !! fp). Qed.

Lemma alike_Touch now fp s : alike_active s (Touch now fp s).
Proof.
  unfold Touch. destruct (st_active s !! fp) as [a|] eqn:E; [|by apply alike_active_same].
  intros k. simpl. destruct (decide (fp = k)) as [->|Hne].
  - rewrite lookup_insert_eq, E. done.
  - rewrite lookup_insert_ne by done. by destruct (st_active s !! k).
Qed.

Lemma ledger_store owed c s' :
  ledger owed c → alike_active c.(c_store) s' → s'.(st_onResolved) = c.(c_store).(st_onResolved) →
  ledger owed (set_store s' c).
Proof.
  intros Hl Hal Hcb. apply (ledger_step owed owed c _ []); [done|done|..]; simpl; [..|by left].
  - by rewrite app_nil_r.
  - intros d Hd. by apply elem_of_nil in Hd.
  - intros fp a' Ha. specialize (Hal fp). rewrite Ha in Hal.
    destruct (st_active (c_store c) !! fp) as [a|] eqn:E; [|done].
    destruct Hal as (-> & _ & -> & _). by apply (lg_keyed _ _ Hl).
  - rewrite Hcb. apply (lg_callback _ _ Hl).
  - apply (lg_owed _ _ Hl).
  - intros fp a Ha. specialize (Hal fp). rewrite Ha in Hal.
    destruct (st_active s' !! fp) as [a'|] eqn:E; [|done]. left. by exists a'.
Qed.

Lemma owed_changed s b l : owed_of (changed s b ++ l) = owed_of l.
Proof. unfold changed. by destruct (_ && _). Qed.

Lemma owed_resolved l : owed_of (OnResolved <$> l) = l.
Proof. induction l as [|a l IH]; [done|]. simpl. f_equal. apply IH. Qed.

(** Resolving in the store leaves the resolves owed. *)
Lemma ledger_resolve cps c :
  ledger [] c →
  (∀ p, p ∈ cps → ∃ a, c.(c_store).(st_active) !! p.1 = Some a ∧ p.2.(a_Resolved) = true ∧ routed_alike p.2 a) →
  let s' := resolve_all cps c.(c_store) in
  ledger (owed_of (resolve_callbacks cps s')) (set_store s' c).
Proof.
  intros Hl Hcps s'. destruct (resolve_all_params cps (c_store c)) as (_ & _ & Hcb & _). fold s' in Hcb.
  unfold resolve_callbacks. rewrite owed_changed, Hcb, (lg_callback _ _ Hl), owed_resolved.
  apply (ledger_step [] cps.*2 c _ []); [done|done|..]; simpl.
  - by rewrite app_nil_r.
  - intros d Hd. by apply elem_of_nil in Hd.
  - intros fp a. unfold s'. rewrite resolve_all_active. case_decide; [done|]. apply (lg_keyed _ _ Hl).
  - rewrite Hcb. apply (lg_callback _ _ Hl).
  - intros r (p & -> & Hp)%list_elem_of_fmap. destruct (Hcps p Hp) as (a & Ha & Hr & (_ & _ & Hev & _)).
    split; [done|]. rewrite Hev. by apply (lg_keyed _ _ Hl) in Ha as [_ ?].
  - intros fp a Ha. unfold s'. rewrite resolve_all_active. case_decide as Hin; [|left; by exists a].
    apply list_elem_of_fmap in Hin as (p & -> & Hp). destruct (Hcps p Hp) as (a' & Ha' & Hr & Hal). simplify_eq.
    right. exists p.2. split; [|done]. apply list_elem_of_fmap. by exists p.
  - intros r Hr. by apply elem_of_nil in Hr.
Qed.

Lemma ledger_sweep now c :
  ledger [] c →
  ledger (owed_of (SweepResolved now c.(c_store)).2) (set_store (SweepResolved now c.(c_store)).1 c).
Proof.
  intros Hl. apply ledger_resolve; [done|]. intros p ([fp a] & Hin & E)%list_elem_of_omap.
  apply range_In in Hin. destruct (_ && _); simplify_eq. by exists a.
Qed.

Lemma ledger_object now kind ns name c :
  ledger [] c →
  ledger (owed_of (ResolveObject now kind ns name c.(c_store)).2) (set_store (ResolveObject now kind ns name c.(c_store)).1 c).
Proof.
  intros Hl. apply ledger_resolve; [done|]. intros p ([fp a] & Hin & E)%list_elem_of_omap.
  apply range_In in Hin. destruct (_ || _ || _); simplify_eq. by exists a.
Qed.

(** A new fire: the store holds the alert, and the delivery is logged. *)
Lemma ledger_fire a a' s' route c :
  ledger [] c → routed_alike a' a → a.(a_Event) = false → keepStateful route = keepStateful (pick c.(c_router) a) →
  s'.(st_active) = <[a.(a_Fingerprint) := a']> c.(c_store).(st_active) →
  s'.(st_onResolved) = c.(c_store).(st_onResolved) →
  ledger [] (c_enqueue a' route (Some a'.(a_Fingerprint)) (set_store s' c)).2.
Proof.
  intros Hl Hal Hev Hroute Hs Hcb.
  assert (Hev' : a_Event a' = false) by (destruct Hal as (_ & _ & -> & _); done).
  assert (Hfp : a_Fingerprint a' = a_Fingerprint a) by apply Hal. split; simpl; rewrite ?Hs.
  - intros fp b [[<- <-]|[_ Hb]]%lookup_insert_Some; [done|by apply (lg_keyed _ _ Hl)].
  - rewrite Hcb. apply (lg_callback _ _ Hl).
  - intros r Hr. by apply elem_of_nil in Hr.
  - intros d [Hd|Hd]%elem_of_app; [by apply (lg_events _ _ Hl)|]. apply list_elem_of_singleton in Hd as ->. simpl.
    congruence.
  - intros pre b rt fp post E Hlast. destruct post as [|x post _] using rev_ind.
    + apply app_inj_tail in E as [_ [= <- <- <-]]. left. exists a'. rewrite Hfp, lookup_insert_eq.
      split; [done|]. by rewrite (pick_alike _ a' a), Hroute.
    + rewrite app_comm_cons, app_assoc in E. apply app_inj_tail in E as [E <-].
      assert (Hne : a_Fingerprint a ≠ fp).
      { intros <-. apply (Hlast (a', route, Some (a_Fingerprint a'))); [apply elem_of_app; right; left|].
        unfold isFire. simpl. by rewrite Hfp. }
      destruct (lg_fires _ _ Hl pre b rt fp post E) as [(b0 & Hb0 & Hst)|[(r & Hr & _)|(r & rt' & Hr & Hrest)]].
      * intros d Hd. apply Hlast. apply elem_of_app. by left.
      * left. exists b0. by rewrite lookup_insert_ne.
      * by apply elem_of_nil in Hr.
      * right; right. exists r, rt'. split; [apply elem_of_app; by left|done].
Qed.

(** ** The invariant along every step *)

Definition keeps (m : M unit) : Prop := ∀ c, ledger [] c → ledger [] (m c).2.

Lemma keeps_framed (m : M unit) : framed m → keeps m.
Proof. intros Hm c Hl. by eapply ledger_frame; [apply Hm|]. Qed.

Lemma keeps_bind {A} (m : M A) (k : A → M unit) : framed m → (∀ x, keeps (k x)) → keeps (bind m k).
Proof.
  intros Hm Hk c Hl. unfold bind. pose proof (Hm c) as Hf. destruct (m c) as [x c1].
  apply Hk. by eapply ledger_frame.
Qed.

Lemma keeps_seq (m k : M unit) : keeps m → keeps k → keeps (m ;;! k).
Proof. intros Hm Hk c Hl. unfold bind. apply Hm in Hl. destruct (m c) as [[] c1]. by apply Hk. Qed.

Lemma keeps_for_each {A} (f : A → M unit) l : (∀ x, x ∈ l → keeps (f x)) → keeps (for_each f l).
Proof.
  induction l as [|x l IH]; intros Hf; [by intros c|]. apply keeps_seq; [apply Hf; left|].
  apply IH. intros y Hy. apply Hf. by right.
Qed.

(** A store operation routing does not see, then the rest. *)
Lemma keeps_store {A} (f : Store → A * Store) (k : A → M unit) :
  (∀ s, alike_active s (f s).2 ∧ (f s).2.(st_onResolved) = s.(st_onResolved)) →
  (∀ x, keeps (k x)) → keeps (bind (with_store f) k).
Proof.
  intros Hf Hk c Hl. unfold bind, with_store. destruct (Hf (c_store c)) as [Hal Hcb].
  destruct (f (c_store c)) as [x s']. apply Hk. by apply ledger_store.
Qed.

Lemma keeps_store1 (f : Store → unit * Store) :
  (∀ s, alike_active s (f s).2 ∧ (f s).2.(st_onResolved) = s.(st_onResolved)) → keeps (with_store f).
Proof.
  intros Hf c Hl. unfold with_store. destruct (Hf (c_store c)) as [Hal Hcb].
  destruct (f (c_store c)) as [x s']. by apply ledger_store.
Qed.

Lemma keeps_refresh a : keeps (refresh a).
Proof.
  apply keeps_bind; [apply framed_Now|]. intros now. apply keeps_seq.
  - apply keeps_store1. intros s. split; [apply alike_Touch|]. unfold Touch. simpl. by case_match.
  - apply keeps_framed. apply framed_bind; [apply framed_Now|]. intros t. apply framed_set. intros c. simpl.
    unfold ArmInhibitions. by destruct (a_Resolved a).
Qed.

Lemma keeps_seed now fp : keeps (with_store (λ s, (tt, Seed now fp s))).
Proof. apply keeps_store1. intros s. split; [by apply alike_active_same|done]. Qed.

Lemma for_each_changed s b c : for_each run_callback (changed s b) c = (tt, c).
Proof. unfold changed. by destruct (_ && _). Qed.

Section emitter_keeps.
Variable f : Alert → M unit.
Hypothesis f_keeps : ∀ x, keeps (f x).

Lemma keeps_observe a : keeps (observe f a).
Proof using f_keeps.
  apply keeps_bind; [apply framed_Now|]. intros now. apply keeps_bind; [apply framed_Now|]. intros wall.
  apply keeps_bind; [|intros fired; by apply keeps_for_each].
  apply framed_set. intros c. by destruct (Observe now wall a (c_engine c)).
Qed.

Lemma keeps_event a : keeps (emit_event f a).
Proof using f_keeps.
  apply keeps_bind; [apply framed_Now|]. intros now. apply keeps_store.
  - intros s. unfold ShouldSendEvent. destruct (mutedLocked _ _ _); split; try done; by apply alike_active_same.
  - intros []; [|by apply keeps_framed, framed_ret]. apply keeps_seq; [apply keeps_observe|]. apply keeps_framed.
    apply framed_bind; [apply framed_route|]. intros route. apply framed_enqueue. intros _. apply keepStateful_drop.
Qed.

(** Dedupe and enqueue an alert whose route keeps the stateful sinks of the table. *)
Lemma keeps_send now a route c :
  a.(a_Event) = false → keepStateful route = keepStateful (pick c.(c_router) a) → ledger [] c →
  ledger [] ((let! res := with_store (λ s, let '(ok, a', s', cbs) := ShouldSend now a s in ((ok, a', cbs), s')) in
      let '(ok, a', cbs) := res in
      for_each run_callback cbs ;;!
      if (ok : bool) then c_enqueue a' route (Some a'.(a_Fingerprint)) else refresh a') c).2.
Proof using Type.
  intros Hev Hroute Hl. unfold bind, with_store.
  destruct (mutedLocked now (a_Fingerprint a) (c_store c)) eqn:E.
  - rewrite ShouldSend_muted by done. cbn iota beta. simpl for_each. unfold ret.
    apply keeps_refresh. apply ledger_store; [done|by apply alike_active_same|done].
  - rewrite ShouldSend_unmuted by done. cbn iota beta. rewrite for_each_changed.
    apply (ledger_fire a); [done| |done|done|done|done].
    unfold sent_alert. by destruct (st_active (c_store c) !! a_Fingerprint a).
Qed.

Lemma keeps_unmuted a : a.(a_Event) = false → keeps (emit_unmuted f a).
Proof using f_keeps.
  intros Hev. apply keeps_seq; [apply keeps_observe|]. intros c Hl. unfold bind at 1.
  destruct (c_route_spec a c) as [Hroute _]. pose proof (framed_route a c) as Hf1.
  destruct (c_route a c) as [[route|] c1]; simpl in Hroute, Hf1; [|by eapply ledger_frame].
  specialize (Hroute route eq_refl). unfold bind at 1.
  destruct (groupRoute_spec a route c1) as [Hf2 Hkeep].
  destruct (groupRoute a route c1) as [[route' absorbed] c2]. simpl in Hf2, Hkeep.
  pose proof (frame_trans _ _ _ Hf1 Hf2) as Hf. assert (Hl2 : ledger [] c2) by (by eapply ledger_frame).
  destruct (absorbed && _).
  - revert c2 Hf2 Hf Hl2. intros c2 _ _. revert c2. apply keeps_bind; [apply framed_Now|]. intros now. apply keeps_seed.
  - unfold bind at 1. simpl. apply keeps_send; [done| |].
    + destruct Hf as (_ & Ht & _). change (keepStateful route' = keepStateful (pick (c_router c2) a)).
      by rewrite (pick_table c c2), Hkeep, Hroute.
    + eapply ledger_frame; [|exact Hl2]. apply (framed_Now c2).
Qed.

Lemma override_severity_Event ovs a : (override_severity ovs a).(a_Event) = a.(a_Event).
Proof using Type. induction ovs as [|ov ovs IH]; [done|]. simpl. by destruct (MatchLabels _ _). Qed.

Lemma keeps_body a : keeps (emit_body f a).
Proof using f_keeps.
  unfold emit_body. destruct (a_Resolved a).
  - apply keeps_bind; [apply framed_Now|]. intros now c Hl. unfold bind, with_store.
    apply (ledger_object now (a_Kind a) (a_Namespace a) (a_Name a)) in Hl.
    destruct (ResolveObject _ _ _ _ _) as [s' cbs]. by apply ledger_callbacks.
  - intros c Hl. unfold emit_firing. set (a1 := override_severity _ _).
    destruct (a_Event a1) eqn:Hev; [by apply keeps_event|].
    refine (keeps_bind _ _ _ _ c Hl).
    + unfold in_grace. destruct (0 <? _); [|apply framed_ret].
      apply framed_bind; [apply framed_Now|]. intros now. apply framed_ret.
    + intros []; [apply keeps_bind; [apply framed_Now|]; intros now; apply keeps_seed|].
      apply keeps_bind; [apply framed_Now|]. intros now. apply keeps_store.
      * intros s. split; [by apply alike_active_same|done].
      * intros []; [apply keeps_refresh|by apply keeps_unmuted].
Qed.
End emitter_keeps.

Lemma keeps_emit a : keeps (emit a).
Proof.
  apply keeps_body. intros x. apply keeps_body. intros y. by apply keeps_framed, framed_ret.
Qed.

Lemma keeps_escalate esc : keeps (escalate esc).
Proof.
  unfold escalate. apply keeps_bind; [apply framed_Now|]. intros now c Hl. unfold bind, with_store, Overdue.
  pose proof (overdue_fold_spec (Add now (- Minutes (AfterMinutes esc))) (EscalationKey esc) (Es_Match esc)
    (range (st_active (c_store c))) [] (c_store c) (range_NoDup_fst _)) as (Hout & _ & Hact & _ & _ & Hpar & _).
  destruct (fold_left _ _ _) as [out s']. simpl in Hout, Hact, Hpar. subst out.
  apply keeps_for_each; [|apply ledger_store; [done|by apply alike_active_same|apply Hpar]].
  intros a ([fp b] & -> & Hin)%list_elem_of_fmap. apply keeps_framed, framed_enqueue. simpl.
  apply list_elem_of_filter in Hin as [_ Hin]. apply range_In, (lg_keyed _ _ Hl) in Hin as [_ ->]. done.
Qed.

Lemma keeps_save b : keeps (save_tick b).
Proof.
  apply keeps_framed, framed_set. intros c. unfold save_tick. case_bool_decide; [done|]. simpl. by destruct b.
Qed.

Lemma keeps_sweep p b : keeps (sweep_tick p b).
Proof.
  unfold sweep_tick. apply keeps_bind; [apply framed_Now|]. intros now c Hl. unfold bind at 1, with_store at 1.
  apply (ledger_sweep now) in Hl. destruct (SweepResolved now (c_store c)) as [s' cbs].
  apply ledger_callbacks in Hl. simpl in Hl. unfold bind at 1. destruct (for_each run_callback cbs _) as [[] c1].
  refine (keeps_bind _ _ framed_Now _ c1 Hl). intros now2. apply keeps_store.
  - intros s. split; [by apply alike_active_same|done].
  - intros _. apply keeps_bind; [apply framed_Now|]. intros now3. apply keeps_bind; [by apply framed_set|].
    intros _. apply keeps_seq.
    + intros c2 Hl2. by apply keeps_for_each; [intros; apply keeps_escalate|].
    + destruct p; [apply keeps_save|apply keeps_framed, framed_ret].
Qed.

Lemma keeps_group_tick : keeps group_tick.
Proof.
  intros c Hl. unfold group_tick. destruct (c_grouper c) as [g|]; [|done].
  refine (keeps_bind _ _ framed_Now _ c Hl). intros now. destruct (flushExpired now g) as [g' closed].
  apply keeps_framed, framed_bind; [by apply framed_set|]. intros _. apply framed_bind; [apply framed_Now|].
  intros now'. apply framed_for_each. intros; apply framed_flush.
Qed.

(** ** Runs of the controller *)

Inductive cop :=
  | Emit (a : Alert)                    (** a watcher, a cloud poll, the receiver or an absence rule *)
  | SweepTick (persister saveOK : bool)
  | GroupTick.

Definition run_op (o : cop) : M unit :=
  match o with Emit a => emit a | SweepTick p b => sweep_tick p b | GroupTick => group_tick end.

(** C1: No dangling incident. Whatever sequence of alerts, sweeps and grouping windows the
    controller goes through, the last fire enqueued for a fingerprint is either still active
    in the store, so that its resolve is still to come, or is followed by a resolve for the
    same fingerprint that goes to exactly the stateful sinks (PagerDuty, Opsgenie) the fire
    went to, even when grouping absorbed one of the two. Events never reach a stateful sink,
    since nothing would resolve them. *)
Theorem no_dangling_incident c0 (ops : list cop) :
  c0.(c_enqueued) = [] → c0.(c_store).(st_onResolved) = true →
  (∀ fp a, c0.(c_store).(st_active) !! fp = Some a → a.(a_Fingerprint) = fp ∧ a.(a_Event) = false) →
  let c := (for_each run_op ops c0).2 in
  (∀ pre a route fp post,
     c.(c_enqueued) = pre ++ (a, route, Some fp) :: post → (∀ d, d ∈ post → d.2 ≠ Some fp) →
     is_Some (c.(c_store).(st_active) !! fp)
     ∨ ∃ r route', (r, route', None) ∈ post ∧ r.(a_Fingerprint) = fp ∧ r.(a_Resolved) = true
                   ∧ keepStateful route' = keepStateful route)
  ∧ (∀ d, d ∈ c.(c_enqueued) → d.1.1.(a_Event) = true → keepStateful d.1.2 = []).
Proof.
  intros Hlog Hcb Hkey c. assert (Hl : ledger [] c).
  { apply keeps_for_each.
    - intros [a|p b|] _; [apply keeps_emit|apply keeps_sweep|apply keeps_group_tick].
    - split; [done|done| | |]; rewrite ?Hlog; try (intros x Hx; by apply elem_of_nil in Hx).
      intros pre a route fp post E. by destruct pre. }
  split; [|apply (lg_events _ _ Hl)]. intros pre a route fp post E Hlast.
  destruct (lg_fires _ _ Hl pre a route fp post E Hlast) as [(s & Hs & _)|[(r & Hr & _)|Hr]]; [left; eauto| |by right].
  by apply elem_of_nil in Hr.
Qed.
End theorems.

(** ** Concrete runs *)

Definition w_config : Config :=
  MkConfig "prod" default_config.(Cf_Filters) (MkBehavior 600 0 false 600 0 300 false false) default_config.(Cf_Channels)
    [MkRoute ∅ ["pagerduty"; "slack"]] [] ∅ [] [] [] default_config.(Cf_Receiver) "" ""
    (MkGrouping true 60 []) default_config.(Cf_Persistence) default_config.(Cf_AWS) default_config.(Cf_Azure)
    default_config.(Cf_GCP) [] default_config.(Cf_Correlation) [].

Definition w_start : controller := runController_init (λ _, "") (λ n, Z.of_nat n * Second) w_config.

Definition w_pod (resolved : bool) : Alert :=
  MkAlert "ab" "Pod" "ns" "web" "" "critical" "OOMKilled" "" "" ∅ ∅ ∅ 5 0 resolved false None.

(** A pod fires, then is deleted. *)
Definition w_end : controller :=
  (for_each (@run_op mini_regexp canonical_range mini_time mini_zone) [Emit (w_pod false); Emit (w_pod true)] w_start).2.

Lemma no_dangling_incident_witness :
  ∃ r route, (r, route, None) ∈ w_end.(c_enqueued) ∧ r.(a_Fingerprint) = "ab" ∧ r.(a_Resolved) = true
             ∧ keepStateful route = ["pagerduty"].
Proof.
  pose (thm := @no_dangling_incident mini_regexp canonical_range mini_time mini_zone w_start
    [Emit (w_pod false); Emit (w_pod true)] eq_refl eq_refl).
  destruct (proj1 (thm ltac:(intros fp a Hin; vm_compute in Hin; discriminate))
    [] (default zero_alert (head (c_enqueued w_end).*1.*1)) ["pagerduty"; "slack"] "ab" (tail (c_enqueued w_end)))
    as [Hact|(r & route & Hin & Hfp & Hres & Hkeep)].
  - vm_compute. reflexivity.
  - intros d Hd. assert (Hall : forallb (λ d : delivery, bool_decide (d.2 = None)) (tail (c_enqueued w_end)) = true)
      by (vm_compute; reflexivity).
    apply forallb_True with (x := d) in Hall; [|exact Hd]. apply bool_decide_eq_true in Hall. rewrite Hall. discriminate.
  - destruct Hact as [x Hx]. vm_compute in Hx. discriminate.
  - exists r, route. split; [|split; [exact Hfp|split; [exact Hres|rewrite Hkeep; vm_compute; reflexivity]]].
    destruct (c_enqueued w_end) as [|d l]; [exact Hin|]. right. exact Hin.
Defined.

(** C40: Bounds of the configured mute window. A validated [muteSeconds] of at most 9223372036
    gives the controller's store exactly that many seconds, always more than one informer
    resync; the next value up still validates but wraps to a negative window, under which the
    controller's store mutes nothing, whatever it has sent. *)
Theorem mute_seconds_bounds getenv clock :
  (∀ c, validateBehavior c = None → c.(Cf_Behavior).(MuteSeconds) <= 9223372036 →
     let window := (runController_init getenv clock c).(c_store).(st_muteWindow) in
     window = c.(Cf_Behavior).(MuteSeconds) * Second ∧ InformerResyncSeconds * Second < window)
  ∧ ∃ c, validateBehavior c = None ∧ c.(Cf_Behavior).(MuteSeconds) = 9223372037
     ∧ ∀ now fp s, same_params (runController_init getenv clock c).(c_store) s →
         (∀ t, s.(st_lastSent) !! fp = Some t → t <= now) → mutedLocked now fp s = false.
Proof.
  split.
  - intros c Hv Hle. assert (Hlo : InformerResyncSeconds < MuteSeconds (Cf_Behavior c)).
    { unfold validateBehavior in Hv. destruct (Z.leb_spec (MuteSeconds (Cf_Behavior c)) InformerResyncSeconds); done. }
    simpl. unfold Seconds, InformerResyncSeconds, Second in *. rewrite wrap64_small by (unfold in64; lia). lia.
  - exists (MkConfig "" default_config.(Cf_Filters) (MkBehavior 9223372037 0 false 600 0 300 false false) default_config.(Cf_Channels)
      [] [] ∅ [] [] [] default_config.(Cf_Receiver) "" "" default_config.(Cf_Grouping) default_config.(Cf_Persistence)
      default_config.(Cf_AWS) default_config.(Cf_Azure) default_config.(Cf_GCP) [] default_config.(Cf_Correlation) []).
    split_and!; [reflexivity|reflexivity|]. intros now fp s (Hw & _) Ht. unfold mutedLocked.
    destruct (st_lastSent s !! fp) as [t|] eqn:E; [|done]. specialize (Ht t eq_refl). apply Z.ltb_ge. rewrite Hw. simpl.
    transitivity 0; [vm_compute; discriminate|]. unfold Sub, sat64. lia.
Qed.
