(* ===== verification/EmitMetrics.v ===== *)
(** * The alert pipeline with its counters

    The operations of [Pipeline] again, with the samples internal/app/{event_emitter,pipeline,
    sweeper,controller}.go and internal/router/router.go record on the way. A metered operation
    [W] also returns a log: the samples, the calls of enqueue that reached the queue, and under
    [Sub] what was done for another alert on the way (a derived alert, a summary, a resolve).
    Erasing the log gives back the operation of [Pipeline] ([erases]). *)
From S2P Require Import Prelude GoStd Metrics AlertModel SilenceStore AlertStore Shard.
From S2P Require Import Config ConfigTheory Router Group RulesEngine Dispatcher Pipeline.

Inductive entry :=
  | Sample (s : sample)
  | Queued (a : Alert) (route : list string) (onFail : option string)
  | Sub (for_ : Alert) (log : list entry).

(** ** The metered monad *)

Definition W (A : Type) : Type := controller → A * controller * list entry.
Definition wret {A} (x : A) : W A := λ c, (x, c, []).
Definition wbind {A B} (w : W A) (k : A → W B) : W B :=
  λ c, let '(x, c, log) := w c in let '(y, c, log') := k x c in (y, c, log ++ log').
Definition lift {A} (m : M A) : W A := λ c, (m c, []).
Definition tell (e : entry) : W unit := λ c, (tt, c, [e]).
Definition scope {A} (a : Alert) (w : W A) : W A := λ c, let '(x, c, log) := w c in (x, c, [Sub a log]).

Notation "'do!' x := w 'in' k" := (wbind w (λ x, k)) (at level 100, x pattern, w at level 99, k at level 100) : go_scope.
Notation "w ;;^ k" := (wbind w (λ _, k)) (at level 100, k at level 100, right associativity) : go_scope.

Fixpoint w_each {A} (f : A → W unit) (l : list A) : W unit :=
  match l with
  | [] => wret tt
  | x :: l => f x ;;^ w_each f l
  end.

(** [c.WithLabelValues(labels...).Inc()] and [c.Set(v)]. *)
Definition Inc (c : collector) (labels : list string) : W unit := tell (Sample (Incd c labels)).
Definition GaugeSet (c : collector) (v : Z) : W unit := tell (Sample (Gauged c [] v)).

(** [enqueue] returns at once on an empty route. *)
Definition w_enqueue (a : Alert) (route : list string) (onFail : option string) : W unit :=
  lift (c_enqueue a route onFail) ;;^ match route with [] => wret tt | _ => tell (Queued a route onFail) end.

Definition suppressed_as (why : suppression) : string :=
  match why with
  | Router.SuppressSilenced => Metrics.SuppressSilenced
  | Router.SuppressMaintenance => Metrics.SuppressMaintenance
  | Router.SuppressInhibited => Metrics.SuppressInhibited
  end.

Section metered.
Context `{RegexpLib} `{MapRange} `{TimeLib} `{ZoneLib}.

Definition w_route (a : Alert) : W (option (list string)) :=
  do! t1 := lift Now in do! t2 := lift Now in do! t3 := lift Now in do! t4 := lift Now in
  do! res := lift (λ c, let '(res, r) := Route t1 t2 t3 t4 a (SetRuntimeSilences (Some c.(c_sil)) c.(c_router)) in
                        (res, set_router r c)) in
  match res with
  | RouteTo sinks => wret (Some sinks)
  | Dropped why => Inc AlertsSuppressed [suppressed_as why] ;;^ wret None
  end.

Definition w_flush_summary (s : Alert) : W unit :=
  scope s (do! route := w_route s in w_enqueue s (dropStateful (default [] route)) None).

Definition w_offer (g : Grouper) (a : Alert) : W bool :=
  do! now := lift Now in
  let '(pass, g', closed) := Offer now a g in
  lift (λ c, (tt, set_grouper (Some g') c)) ;;^
  do! now := lift Now in
  w_each w_flush_summary (emitSummaries now g' closed) ;;^
  wret pass.

Definition w_groupRoute (a : Alert) (route : list string) : W (list string * bool) :=
  λ c, match c.(c_grouper) with
       | None => (route, false, c, [])
       | Some g => (do! pass := w_offer g a in
                    if (pass : bool) then wret (route, false)
                    else Inc AlertsSuppressed [SuppressGrouped] ;;^ wret (keepStateful route, true)) c
       end.

Definition w_makeResolver (a : Alert) : W unit :=
  do! route := w_route a in
  match route with
  | None => wret tt
  | Some route => do! res := w_groupRoute a route in w_enqueue a res.1 None
  end.

(** The store's [onChange] sets the gauge of active alerts. *)
Definition w_callback (cb : Callback) : W unit :=
  match cb with OnResolved a => scope a (w_makeResolver a) | OnChange n => GaugeSet ActiveAlerts (Z.of_nat n) end.

Definition w_refresh (a : Alert) : W unit := lift (refresh a).

Section emitter.
Variable emit_derived : Alert → W unit.

Definition w_observe (a : Alert) : W unit :=
  do! now := lift Now in do! wall := lift Now in
  do! fired := lift (λ c, let '(e, fired) := Observe now wall a c.(c_engine) in (fired, set_engine e c)) in
  w_each (λ x, scope x (emit_derived x)) fired.

Definition w_event (a : Alert) : W unit :=
  do! now := lift Now in
  do! ok := lift (with_store (ShouldSendEvent now a)) in
  if (ok : bool) then
    w_observe a ;;^
    do! route := w_route a in
    w_enqueue a (dropStateful (default [] route)) None
  else Inc AlertsSuppressed [SuppressMuted].

Definition w_unmuted (a : Alert) : W unit :=
  w_observe a ;;^
  do! route := w_route a in
  match route with
  | None => wret tt
  | Some route =>
    do! gr := w_groupRoute a route in
    let '(route, absorbed) := gr in
    if absorbed && (length route =? 0)%nat then
      do! now := lift Now in lift (with_store (λ s, (tt, Seed now a.(a_Fingerprint) s)))
    else
      do! now := lift Now in
      do! res := lift (with_store (λ s, let '(ok, a', s', cbs) := ShouldSend now a s in ((ok, a', cbs), s'))) in
      let '(ok, a', cbs) := res in
      w_each w_callback cbs ;;^
      if (ok : bool) then w_enqueue a' route (Some a'.(a_Fingerprint))
      else Inc AlertsSuppressed [SuppressMuted] ;;^ w_refresh a'
  end.

(** The label [reason] of [AlertsTotal]. *)
Definition reason_label (a : Alert) : string := if streq a.(a_Kind) KindExternal then "external" else a.(a_Reason).

Definition w_firing (a : Alert) : W unit :=
  λ c,
  let cfg := c.(c_cfg) in
  let a := override_severity cfg.(SeverityOverrides) (with_Cluster cfg.(Cluster) a) in
  (Inc AlertsTotal [a.(a_Kind); a.(a_Severity); reason_label a] ;;^
   if a.(a_Event) then w_event a
   else
     do! starting := lift (in_grace cfg c.(c_start)) in
     if (starting : bool) then
       do! now := lift Now in
       lift (with_store (λ s, (tt, Seed now a.(a_Fingerprint) s))) ;;^
       Inc AlertsSuppressed [SuppressStartup]
     else
       do! now := lift Now in
       do! muted := lift (with_store (λ s, (Muted now a.(a_Fingerprint) s, s))) in
       if (muted : bool) then Inc AlertsSuppressed [SuppressMuted] ;;^ w_refresh a else w_unmuted a) c.

Definition w_body (a : Alert) : W unit :=
  if a.(a_Resolved) then
    do! now := lift Now in
    do! cbs := lift (with_store (λ s, let '(s', cbs) := ResolveObject now a.(a_Kind) a.(a_Namespace) a.(a_Name) s in (cbs, s'))) in
    w_each w_callback cbs
  else w_firing a.
End emitter.

Fixpoint w_emit_n (n : nat) : Alert → W unit :=
  match n with
  | O => λ _, wret tt
  | S n => w_body (w_emit_n n)
  end.
Definition w_emit : Alert → W unit := w_emit_n 2.

Definition w_sharded_emit (s : option Sharder) (a : Alert) : W unit :=
  if negb (Enabled s) then w_emit a
  else if Owns s (shardKey a) then w_emit a
  else Inc AlertsSuppressed [SuppressForeignShard].

Definition w_escalate (esc : Escalation) : W unit :=
  let after := Minutes esc.(AfterMinutes) in
  do! now := lift Now in
  do! overdue := lift (with_store (Overdue now after (EscalationKey esc) esc.(Es_Match))) in
  w_each (λ a, Inc EscalationsTotal [] ;;^ scope a (w_enqueue (escalated_copy after a) esc.(Es_Sinks) None)) overdue.
End metered.

(** ** What a log says *)

(** All samples, and all calls of enqueue that reached the queue. *)
Fixpoint samples_of (e : entry) : list sample :=
  match e with Sample s => [s] | Queued _ _ _ => [] | Sub _ log => flat_map samples_of log end.
Fixpoint queued_of (e : entry) : list delivery :=
  match e with Sample _ => [] | Queued a route onFail => [(a, route, onFail)] | Sub _ log => flat_map queued_of log end.

(** The deliveries that are not no-ops. *)
Definition delivered (c : controller) : list delivery := filter (λ d : delivery, d.1.2 ≠ []) c.(c_enqueued).

(** A metered operation meters an operation of [Pipeline]: it does the same, records samples
    with a value for every label, and logs exactly the deliveries it adds to the queue. *)
Definition meters {A} (w : W A) (m : M A) : Prop :=
  ∀ c, (w c).1 = m c
       ∧ forallb well_labelled (flat_map samples_of (w c).2) = true
       ∧ delivered (m c).2 = delivered c ++ flat_map queued_of (w c).2.

Lemma meters_ret {A} (x : A) : meters (wret x) (ret x).
Proof. intros c. by rewrite app_nil_r. Qed.
Lemma meters_lift {A} (m : M A) : (∀ c, (m c).2.(c_enqueued) = c.(c_enqueued)) → meters (lift m) m.
Proof. intros Hm c. unfold delivered. simpl. by rewrite Hm, app_nil_r. Qed.
Lemma meters_scope {A} a (w : W A) m : meters w m → meters (scope a w) m.
Proof.
  intros Hw c. destruct (Hw c) as (<- & Hs & Hd). unfold scope. destruct (w c) as [[x c'] log]. simpl in *.
  by rewrite !app_nil_r.
Qed.
Lemma meters_bind {A B} (w : W A) (k : A → W B) m k' :
  meters w m → (∀ x, meters (k x) (k' x)) → meters (wbind w k) (bind m k').
Proof.
  intros Hw Hk c. destruct (Hw c) as (E & Hs & Hd). unfold wbind, bind. rewrite <- E in *.
  destruct (w c) as [[x c1] log]. cbn [fst snd] in *. destruct (Hk x c1) as (E' & Hs' & Hd'). rewrite <- E' in *.
  destruct (k x c1) as [[y c2] log']. cbn [fst snd] in *.
  rewrite !flat_map_app, forallb_app, Hs, Hs', Hd', Hd, app_assoc. done.
Qed.
Lemma meters_tell s : well_labelled s = true → meters (tell (Sample s)) (ret tt).
Proof. intros Hs c. simpl. by rewrite Hs, app_nil_r. Qed.
(** A sample before or after an operation. *)
Lemma meters_before {A} s (w : W A) m : well_labelled s = true → meters w m → meters (tell (Sample s) ;;^ w) m.
Proof. intros Hs Hw. exact (meters_bind (tell (Sample s)) (λ _, w) (ret tt) (λ _, m) (meters_tell s Hs) (λ _, Hw)). Qed.
Lemma meters_after (w k : W unit) m : meters w m → meters k (ret tt) → meters (w ;;^ k) m.
Proof.
  intros Hw Hk c. destruct (meters_bind w (λ _, k) m (λ _, ret tt) Hw (λ _, Hk) c) as (E & Hs & Hd).
  assert (Hm : bind m (λ _, ret tt) c = m c) by (unfold bind; destruct (m c) as [[] c']; done).
  by rewrite Hm in E, Hd.
Qed.
Lemma meters_each {A} (f : A → W unit) g l : (∀ x, meters (f x) (g x)) → meters (w_each f l) (for_each g l).
Proof. intros Hf. induction l as [|x l IH]; [apply meters_ret|]. by apply meters_bind. Qed.

Lemma meters_enqueue a route onFail : meters (w_enqueue a route onFail) (c_enqueue a route onFail).
Proof.
  intros c. unfold w_enqueue, wbind, lift, c_enqueue, delivered. destruct route as [|s route]; simpl; rewrite filter_app.
  - by rewrite filter_cons_False, filter_nil by (simpl; auto).
  - by rewrite filter_cons_True, filter_nil by done.
Qed.

Create HintDb metered.
#[export] Hint Resolve meters_ret meters_each meters_enqueue meters_scope : metered.
#[export] Hint Extern 2 (meters (lift _) _) => apply meters_lift; done : metered.
#[export] Hint Extern 2 (meters (Inc _ _) _) => apply meters_tell; reflexivity : metered.
#[export] Hint Extern 2 (meters (GaugeSet _ _) _) => apply meters_tell; reflexivity : metered.
#[export] Hint Extern 1 (meters (Inc _ _ ;;^ _) _) => apply meters_before; [reflexivity|] : metered.

(** Goes through the binds of an operation and its counterpart. *)
Ltac metered :=
  repeat (apply meters_bind; [solve [eauto with metered]|]; intros ?); eauto with metered.

Section metering.
Context `{RegexpLib} `{MapRange} `{TimeLib} `{ZoneLib}.

Lemma meters_route a : meters (w_route a) (c_route a).
Proof.
  unfold w_route, c_route. do 4 (apply meters_bind; [by apply meters_lift|]; intros ?). intros c. unfold wbind, lift.
  destruct (Route _ _ _ _ _ _) as [[why|sinks] r]; [|by rewrite app_nil_r].
  destruct why; unfold delivered; simpl; by rewrite app_nil_r.
Qed.
#[local] Hint Resolve meters_route : metered.

Lemma meters_flush s : meters (w_flush_summary s) (flush_summary s).
Proof. apply meters_scope. metered. Qed.
#[local] Hint Resolve meters_flush : metered.

Lemma meters_offer g a : meters (w_offer g a) (c_offer g a).
Proof.
  apply meters_bind; [by apply meters_lift|]. intros now. destruct (Offer now a g) as [[pass g'] closed]. metered.
Qed.
#[local] Hint Resolve meters_offer : metered.

Lemma meters_groupRoute a route : meters (w_groupRoute a route) (groupRoute a route).
Proof.
  intros c. unfold w_groupRoute, groupRoute. destruct (c_grouper c) as [g|]; [|by rewrite app_nil_r].
  apply meters_bind; [apply meters_offer|]. intros []; auto with metered.
Qed.
#[local] Hint Resolve meters_groupRoute : metered.

Lemma meters_makeResolver a : meters (w_makeResolver a) (makeResolver a).
Proof. apply meters_bind; [apply meters_route|]. intros [route|]; metered. Qed.
#[local] Hint Resolve meters_makeResolver : metered.

Lemma meters_callback cb : meters (w_callback cb) (run_callback cb).
Proof. destruct cb; simpl; auto with metered. Qed.
#[local] Hint Resolve meters_callback : metered.

Lemma meters_store {A} (f : Store → A * Store) : meters (lift (with_store f)) (with_store f).
Proof. apply meters_lift. intros c. unfold with_store. by destruct (f (c_store c)). Qed.
#[local] Hint Resolve meters_store : metered.

Lemma meters_refresh a : meters (w_refresh a) (refresh a).
Proof. by apply meters_lift. Qed.
#[local] Hint Resolve meters_refresh : metered.

Lemma meters_grace cfg start : meters (lift (in_grace cfg start)) (in_grace cfg start).
Proof. apply meters_lift. intros c. unfold in_grace. by destruct (0 <? _). Qed.
#[local] Hint Resolve meters_grace : metered.

Lemma meters_engine now wall a :
  let f : M (list Alert) := λ c, let '(e, fired) := Observe now wall a c.(c_engine) in (fired, set_engine e c) in meters (lift f) f.
Proof. apply meters_lift. intros c. by destruct (Observe now wall a (c_engine c)). Qed.
#[local] Hint Resolve meters_engine : metered.

Section emitter.
Context (f : Alert → W unit) (g : Alert → M unit) (f_meters : ∀ x, meters (f x) (g x)).
#[local] Hint Resolve f_meters : metered.

Lemma meters_observe a : meters (w_observe f a) (observe g a).
Proof using f_meters.
  do 2 (apply meters_bind; [by apply meters_lift|]; intros ?). apply meters_bind; [apply meters_engine|]. intros fired.
  metered.
Qed.
#[local] Hint Resolve meters_observe : metered.

Lemma meters_event a : meters (w_event f a) (emit_event g a).
Proof using f_meters.
  apply meters_bind; [by apply meters_lift|]. intros now. apply meters_bind; [apply meters_store|].
  intros []; metered.
Qed.

Lemma meters_unmuted a : meters (w_unmuted f a) (emit_unmuted g a).
Proof using f_meters.
  apply meters_bind; [apply meters_observe|]. intros _. apply meters_bind; [apply meters_route|].
  intros [route|]; [|apply meters_ret]. apply meters_bind; [apply meters_groupRoute|]. intros [route' absorbed].
  destruct (absorbed && _); (apply meters_bind; [by apply meters_lift|]; intros now); [apply meters_store|].
  apply meters_bind; [apply meters_store|]. intros [[ok a'] cbs].
  apply meters_bind; [auto with metered|]. intros _. destruct ok; auto with metered.
Qed.

Lemma meters_body a : meters (w_body f a) (emit_body g a).
Proof using f_meters.
  unfold w_body, emit_body. destruct (a_Resolved a).
  - apply meters_bind; [by apply meters_lift|]. intros now. apply meters_bind; [apply meters_store|]. intros cbs.
    auto with metered.
  - intros c. unfold w_firing, emit_firing. set (a' := override_severity _ _). apply meters_before; [reflexivity|].
    destruct (a_Event a'); [apply meters_event|]. apply meters_bind; [apply meters_grace|]. intros [].
    + apply meters_bind; [by apply meters_lift|]. intros now. apply meters_after; auto with metered.
    + apply meters_bind; [by apply meters_lift|]. intros now. apply meters_bind; [apply meters_store|]. intros [].
      * auto with metered.
      * apply meters_unmuted.
Qed.
End emitter.

Lemma meters_emit a : meters (w_emit a) (emit a).
Proof. apply meters_body. intros x. apply meters_body. intros y. apply meters_ret. Qed.

Lemma meters_sharded s a : meters (w_sharded_emit s a) (sharded_emit s a).
Proof.
  unfold w_sharded_emit, sharded_emit. destruct (Enabled s); simpl; [|apply meters_emit].
  destruct (Owns s _); [apply meters_emit|auto with metered].
Qed.

Lemma meters_escalate esc : meters (w_escalate esc) (escalate esc).
Proof.
  apply meters_bind; [by apply meters_lift|]. intros now. apply meters_bind; [apply meters_store|]. intros l.
  auto with metered.
Qed.
End metering.

(** ** What is done for the alert itself *)

Definition is_own (e : entry) : bool :=
  match e with Sample (Gauged _ _ _) | Sub _ _ => false | _ => true end.
Definition own (log : list entry) : list entry := List.filter is_own log.

Definition suppressed (r : string) : entry := Sample (Incd AlertsSuppressed [r]).
Definition to_queue (a : Alert) (route : list string) (onFail : option string) : list entry :=
  match route with [] => [] | _ => [Queued a route onFail] end.

Lemma own_app l l' : own (l ++ l') = own l ++ own l'.
Proof. apply List.filter_app. Qed.

Lemma own_bind {A B} (w : W A) (k : A → W B) c :
  own (wbind w k c).2 = own (w c).2 ++ own (k (w c).1.1 (w c).1.2).2.
Proof. unfold wbind. destruct (w c) as [[x c1] log]. simpl. destruct (k x c1) as [[y c2] log']. apply own_app. Qed.

Lemma own_lift {A B} (m : M A) (k : A → W B) c : own (wbind (lift m) k c).2 = own (k (m c).1 (m c).2).2.
Proof. by rewrite own_bind. Qed.

(** An operation that does nothing for the alert itself. *)
Definition silent {A} (w : W A) : Prop := ∀ c, own (w c).2 = [].

Lemma silent_ret {A} (x : A) : silent (wret x).
Proof. done. Qed.
Lemma silent_lift {A} (m : M A) : silent (lift m).
Proof. done. Qed.
Lemma silent_scope {A} a (w : W A) : silent (scope a w).
Proof. intros c. unfold scope. by destruct (w c) as [[x c'] log]. Qed.
Lemma silent_bind {A B} (w : W A) (k : A → W B) : silent w → (∀ x, silent (k x)) → silent (wbind w k).
Proof. intros Hw Hk c. by rewrite own_bind, Hw, Hk. Qed.
Lemma silent_each {A} (f : A → W unit) l : (∀ x, silent (f x)) → silent (w_each f l).
Proof. intros Hf. induction l as [|x l IH]; [done|]. by apply silent_bind. Qed.
#[export] Hint Resolve silent_ret silent_lift silent_scope silent_each : metered.

Section accounting.
Context `{RegexpLib} `{MapRange} `{TimeLib} `{ZoneLib}.

Lemma silent_callback cb : silent (w_callback cb).
Proof. destruct cb; [apply silent_scope|done]. Qed.
Lemma silent_observe f a : silent (w_observe f a).
Proof. do 3 (apply silent_bind; [apply silent_lift|]; intros ?). apply silent_each. intros y. apply silent_scope. Qed.
Lemma silent_offer g a : silent (w_offer g a).
Proof.
  apply silent_bind; [apply silent_lift|]. intros now. destruct (Offer now a g) as [[pass g'] closed].
  apply silent_bind; [apply silent_lift|]. intros _. apply silent_bind; [apply silent_lift|]. intros now'.
  apply silent_bind; [|auto with metered]. apply silent_each. intros y. apply silent_scope.
Qed.

Lemma own_enqueue a route onFail c : own (w_enqueue a route onFail c).2 = to_queue a route onFail.
Proof. by destruct route. Qed.

(** ** Why an alert is suppressed *)

(** The three clock readings and the router a routing decision in [c] consults. *)
Definition reading (i : nat) (c : controller) : time := c.(c_clock) (Nat.iter i S c.(c_reads)).
Definition consulted (c : controller) : Router := SetRuntimeSilences (Some c.(c_sil)) c.(c_router).

(** Why routing [a] in [c] drops it, by the label it must be counted under; and that nothing
    holds it back. *)
Inductive dropped (c : controller) (a : Alert) : string → Prop :=
  | dropped_silenced :
      silenced (reading 0 c) a (consulted c) = true → dropped c a Metrics.SuppressSilenced
  | dropped_maintenance :
      silenced (reading 0 c) a (consulted c) = false → inMaintenance a (reading 1 c) (consulted c) = true →
      dropped c a Metrics.SuppressMaintenance
  | dropped_inhibited :
      silenced (reading 0 c) a (consulted c) = false → inMaintenance a (reading 1 c) (consulted c) = false →
      inhibited (reading 2 c) a (consulted c) = true →
      dropped c a Metrics.SuppressInhibited.
Definition passes (c : controller) (a : Alert) : Prop :=
  silenced (reading 0 c) a (consulted c) = false ∧ inMaintenance a (reading 1 c) (consulted c) = false
  ∧ inhibited (reading 2 c) a (consulted c) = false.

(** The grouper, if there is one, takes the alert into an open bucket. *)
Definition absorbed (c : controller) (a : Alert) : Prop :=
  ∃ g, c.(c_grouper) = Some g ∧ (Offer (Now c).1 a g).1.1 = false.
(** The store mutes the fingerprint at the next clock reading. *)
Definition mute_now (c : controller) (a : Alert) : bool := mutedLocked (Now c).1 a.(a_Fingerprint) c.(c_store).

(** The states in which an alert of the emitter is routed: an event after the store took note
    of it, any other alert after the grace period and the mute were checked; both after the
    rules saw it. [g] emits what the rules derive. *)
Section stages.
Variable g : Alert → M unit.
Definition event_routed (a : Alert) (c : controller) : controller :=
  (observe g a (set_store (ShouldSendEvent (Now c).1 a c.(c_store)).2 (Now c).2)).2.
Definition after_grace (c : controller) : controller := (in_grace c.(c_cfg) c.(c_start) c).2.
Definition unmuted_routed (a : Alert) (c : controller) : controller := (observe g a (Now (after_grace c)).2).2.
(** Where it is offered to the grouper, and where it is sent. *)
Definition offered (a : Alert) (c : controller) : controller := (c_route a (unmuted_routed a c)).2.
Definition sending (a : Alert) (sinks : list string) (c : controller) : controller := (groupRoute a sinks (offered a c)).2.

(** How one ends that routing let through: absorbed by the grouper or not, and muted by then or
    queued. *)
Inductive passed (c : controller) (a : Alert) (sinks : list string) : list entry → Prop :=
  | passed_fired a' :
      ¬ absorbed (offered a c) a → mute_now (sending a sinks c) a = false → routed_alike a' a →
      passed c a sinks (to_queue a' sinks (Some a.(a_Fingerprint)))
  | passed_muted :
      ¬ absorbed (offered a c) a → mute_now (sending a sinks c) a = true →
      passed c a sinks [suppressed SuppressMuted]
  | passed_grouped :
      absorbed (offered a c) a → keepStateful sinks = [] →
      passed c a sinks [suppressed SuppressGrouped]
  | passed_grouped_fired a' :
      absorbed (offered a c) a → keepStateful sinks ≠ [] → mute_now (sending a sinks c) a = false → routed_alike a' a →
      passed c a sinks (suppressed SuppressGrouped :: to_queue a' (keepStateful sinks) (Some a.(a_Fingerprint)))
  | passed_grouped_muted :
      absorbed (offered a c) a → keepStateful sinks ≠ [] → mute_now (sending a sinks c) a = true →
      passed c a sinks [suppressed SuppressGrouped; suppressed SuppressMuted].

(** The ways an alert ends that the emitter is given in [c], after it was counted by
    [AlertsTotal]: what is on record for it, and why. [sinks] are the ones the routing table
    gives it. *)
Inductive accounted (c : controller) (a : Alert) (sinks : list string) : list entry → Prop :=
  (** an event: muted, dropped, or queued for the sinks that keep no incidents *)
  | acc_event_muted :
      a.(a_Event) = true → (ShouldSendEvent (Now c).1 a c.(c_store)).1 = false →
      accounted c a sinks [suppressed SuppressMuted]
  | acc_event_dropped why :
      a.(a_Event) = true → (ShouldSendEvent (Now c).1 a c.(c_store)).1 = true →
      dropped (event_routed a c) a why → accounted c a sinks [suppressed why]
  | acc_event :
      a.(a_Event) = true → (ShouldSendEvent (Now c).1 a c.(c_store)).1 = true → passes (event_routed a c) a →
      accounted c a sinks (to_queue a (dropStateful sinks) None)
  (** any other alert: within the startup grace, muted, or dropped *)
  | acc_startup :
      a.(a_Event) = false → (in_grace c.(c_cfg) c.(c_start) c).1 = true → accounted c a sinks [suppressed SuppressStartup]
  | acc_muted :
      a.(a_Event) = false → (in_grace c.(c_cfg) c.(c_start) c).1 = false → mute_now (after_grace c) a = true →
      accounted c a sinks [suppressed SuppressMuted]
  | acc_dropped why :
      a.(a_Event) = false → (in_grace c.(c_cfg) c.(c_start) c).1 = false → mute_now (after_grace c) a = false →
      dropped (unmuted_routed a c) a why → accounted c a sinks [suppressed why]
  (** or let through *)
  | acc_passed l :
      a.(a_Event) = false → (in_grace c.(c_cfg) c.(c_start) c).1 = false → mute_now (after_grace c) a = false →
      passes (unmuted_routed a c) a → passed c a sinks l → accounted c a sinks l.
End stages.

(** Routing counts exactly when it drops, under the cause. *)
Lemma own_route a c :
  a.(a_Resolved) = false →
  (passes c a ∧ (w_route a c).1.1 = Some (pick c.(c_router) a) ∧ own (w_route a c).2 = [])
  ∨ ∃ why, dropped c a why ∧ (w_route a c).1.1 = None ∧ own (w_route a c).2 = [suppressed why].
Proof.
  intros Hres. unfold w_route, wbind, lift, Now. simpl. unfold Route. rewrite Hres. cbn [negb].
  unfold passes. change (c_clock c (c_reads c)) with (reading 0 c). change (c_clock c (S (c_reads c))) with (reading 1 c).
  change (c_clock c (S (S (c_reads c)))) with (reading 2 c). fold (consulted c).
  destruct (silenced (reading 0 c) a (consulted c)) eqn:E1; [right; eexists; split; [by constructor|done]|].
  destruct (inMaintenance a (reading 1 c) (consulted c)) eqn:E2; [right; eexists; split; [by constructor|done]|].
  destruct (inhibited (reading 2 c) a (consulted c)) eqn:E3; [right; eexists; split; [by constructor|done]|by left].
Qed.

(** The grouping gate counts exactly what it absorbs. *)
Lemma own_groupRoute a route c :
  (¬ absorbed c a ∧ (w_groupRoute a route c).1.1 = (route, false) ∧ own (w_groupRoute a route c).2 = [])
  ∨ (absorbed c a ∧ (w_groupRoute a route c).1.1 = (keepStateful route, true)
     ∧ own (w_groupRoute a route c).2 = [suppressed SuppressGrouped]).
Proof.
  unfold absorbed, w_groupRoute. destruct (c_grouper c) as [g|]; [|by left; split; [intros (? & ? & _)|]].
  assert (Hpass : (w_offer g a c).1.1 = (Offer (Now c).1 a g).1.1).
  { unfold w_offer, wbind, lift. simpl. by destruct (Offer _ a g) as [[pass g'] closed], (w_each _ _ _) as [[? ?] ?]. }
  rewrite own_bind, silent_offer. unfold wbind. destruct (w_offer g a c) as [[[] c1] log]; cbn [fst] in Hpass |- *.
  - left. split; [|done]. intros (g' & [= <-] & Ho). congruence.
  - right. split; [|done]. by exists g.
Qed.

(** The routing table stays what it is. *)
Definition tabled {A} (m : M A) : Prop := ∀ c, same_table c (m c).2.

Lemma tabled_framed {A} (m : M A) : framed m → tabled m.
Proof. intros Hm c. apply (Hm c). Qed.
Lemma tabled_bind {A B} (m : M A) (k : A → M B) : tabled m → (∀ x, tabled (k x)) → tabled (bind m k).
Proof.
  intros Hm Hk c. unfold bind. pose proof (Hm c) as [Hr Hd]. destruct (m c) as [x c1]. simpl in *.
  destruct (Hk x c1) as [Hr' Hd']. split; congruence.
Qed.
Lemma tabled_each {A} (f : A → M unit) l : (∀ x, tabled (f x)) → tabled (for_each f l).
Proof. intros Hf. induction l as [|x l IH]; [done|]. by apply tabled_bind. Qed.
Lemma tabled_store {A} (f : Store → A * Store) : tabled (with_store f).
Proof. intros c. unfold with_store. by destruct (f (c_store c)). Qed.
Lemma tabled_arm a : tabled (c_arm a).
Proof.
  apply tabled_bind; [done|]. intros t c. unfold ArmInhibitions. simpl. destruct (a_Resolved a); done.
Qed.
Lemma tabled_refresh a : tabled (refresh a).
Proof. apply tabled_bind; [done|]. intros now. apply tabled_bind; [apply tabled_store|]. intros _. apply tabled_arm. Qed.
Lemma tabled_groupRoute a route : tabled (groupRoute a route).
Proof. intros c. apply (proj1 (groupRoute_spec a route c)). Qed.
Lemma tabled_route a : tabled (c_route a).
Proof. apply tabled_framed, framed_route. Qed.
Lemma tabled_callback cb : tabled (run_callback cb).
Proof.
  destruct cb as [a|n]; [|done]. apply tabled_bind; [apply tabled_route|]. intros [route|]; [|done].
  apply tabled_bind; [apply tabled_groupRoute|]. done.
Qed.

Section tabled_emitter.
Context (g : Alert → M unit) (g_tabled : ∀ x, tabled (g x)).

Lemma tabled_observe a : tabled (observe g a).
Proof using g_tabled.
  do 2 (apply tabled_bind; [done|]; intros ?). apply tabled_bind; [|intros fired; by apply tabled_each].
  intros c. by destruct (Observe _ _ _ _).
Qed.

Lemma tabled_body a : tabled (emit_body g a).
Proof using g_tabled.
  unfold emit_body. destruct (a_Resolved a).
  { apply tabled_bind; [done|]. intros now. apply tabled_bind; [apply tabled_store|]. intros cbs.
    apply tabled_each, tabled_callback. }
  intros c. unfold emit_firing. set (a' := override_severity _ _). clearbody a'. destruct (a_Event a').
  - refine (tabled_bind _ _ _ _ c); [done|]. intros now. apply tabled_bind; [apply tabled_store|]. intros []; [|done].
    apply tabled_bind; [apply tabled_observe|]. intros _. by apply tabled_bind; [apply tabled_route|].
  - refine (tabled_bind _ _ _ _ c); [intros c0; unfold in_grace; by destruct (0 <? _)|]. intros [].
    + apply tabled_bind; [done|]. intros now. apply tabled_store.
    + apply tabled_bind; [done|]. intros now. apply tabled_bind; [apply tabled_store|]. intros []; [apply tabled_refresh|].
      apply tabled_bind; [apply tabled_observe|]. intros _. apply tabled_bind; [apply tabled_route|]. intros [route|]; [|done].
      apply tabled_bind; [apply tabled_groupRoute|]. intros [route' absorbed].
      destruct (absorbed && _); (apply tabled_bind; [done|]; intros now'); [apply tabled_store|].
      apply tabled_bind; [apply tabled_store|]. intros [[ok a1] cbs].
      apply tabled_bind; [apply tabled_each, tabled_callback|]. intros _. destruct ok; [done|apply tabled_refresh].
Qed.
End tabled_emitter.

Lemma tabled_emit_n n a : tabled (emit_n n a).
Proof. revert a. induction n as [|n IH]; intros a; [done|]. by apply tabled_body. Qed.

(** ** Every emitted alert is accounted for *)

Section emitter.
Context (f : Alert → W unit) (g : Alert → M unit).
Context (f_meters : ∀ x, meters (f x) (g x)) (g_tabled : ∀ x, tabled (g x)).

Lemma pick_observe a b c : pick (w_observe f a c).1.2.(c_router) b = pick c.(c_router) b.
Proof using Type*.
  apply pick_table. rewrite (proj1 (meters_observe f g f_meters a c)). by apply tabled_observe.
Qed.

Lemma own_event a c :
  a.(a_Event) = true → a.(a_Resolved) = false → accounted g c a (pick c.(c_router) a) (own (w_event f a c).2).
Proof using Type*.
  intros Hev Hres. unfold w_event. rewrite !own_lift. set (c1 := (Now c).2).
  unfold with_store. change (c_store c1) with (c_store c). change (fst (Now c)) with (Now c).1.
  destruct (ShouldSendEvent (Now c).1 a (c_store c)) as [[] s'] eqn:Es; cbn [fst snd]; [|apply acc_event_muted; [done|by rewrite Es]].
  set (c2 := set_store s' c1). rewrite !own_bind, silent_observe.
  assert (Hc3 : (w_observe f a c2).1.2 = event_routed g a c)
    by (unfold event_routed; by rewrite Es, (proj1 (meters_observe f g f_meters a c2))).
  assert (Hp : pick (c_router (event_routed g a c)) a = pick (c_router c) a) by (by rewrite <- Hc3, pick_observe).
  rewrite Hc3. simpl.
  destruct (own_route a (event_routed g a c) Hres) as [(Hpass & -> & ->)|(why & Hwhy & -> & ->)]; rewrite own_enqueue; simpl.
  - rewrite Hp. apply acc_event; [done|by rewrite Es|done].
  - apply acc_event_dropped; [done|by rewrite Es|done].
Qed.

(** After the grouping gate. *)
Lemma own_send a route c :
  let w := do! now := lift Now in
    do! res := lift (with_store (λ s, let '(ok, a', s', cbs) := ShouldSend now a s in ((ok, a', cbs), s'))) in
    let '(ok, a', cbs) := res in
    w_each w_callback cbs ;;^
    if (ok : bool) then w_enqueue a' route (Some a'.(a_Fingerprint))
    else Inc AlertsSuppressed [SuppressMuted] ;;^ w_refresh a' in
  (mute_now c a = true ∧ own (w c).2 = [suppressed SuppressMuted])
  ∨ (mute_now c a = false ∧ ∃ a', routed_alike a' a ∧ own (w c).2 = to_queue a' route (Some a.(a_Fingerprint))).
Proof using Type.
  intros w. unfold w, mute_now. rewrite !own_lift. unfold with_store. set (now := (Now c).1). set (c1 := (Now c).2).
  change (c_store c) with (c_store c1). destruct (mutedLocked now (a_Fingerprint a) (c_store c1)) eqn:E.
  - rewrite ShouldSend_muted by done. by left.
  - rewrite ShouldSend_unmuted by done. cbn [fst snd]. right. split; [done|]. exists (sent_alert now (c_store c1) a). split.
    { unfold sent_alert. by destruct (st_active (c_store c1) !! a_Fingerprint a). }
    rewrite own_bind, own_enqueue.
    pose proof (silent_each w_callback (changed (sent_store now (c_store c1) a) true) silent_callback) as Hcb.
    unfold silent in Hcb. rewrite Hcb. unfold sent_alert. by destruct (st_active (c_store c1) !! a_Fingerprint a).
Qed.

(** From the rules on: [c] is after the grace period and the mute were checked. *)
Lemma own_unmuted a c0 c :
  a.(a_Event) = false → a.(a_Resolved) = false → (in_grace c0.(c_cfg) c0.(c_start) c0).1 = false →
  mute_now (after_grace c0) a = false → c = (Now (after_grace c0)).2 → pick c.(c_router) a = pick c0.(c_router) a →
  accounted g c0 a (pick c0.(c_router) a) (own (w_unmuted f a c).2).
Proof using Type*.
  intros Hev Hres Hgrace Hmute Hc Hpick. unfold w_unmuted. rewrite !own_bind, silent_observe.
  assert (Hc1 : (w_observe f a c).1.2 = unmuted_routed g a c0)
    by (unfold unmuted_routed; by rewrite <- Hc, (proj1 (meters_observe f g f_meters a c))).
  assert (Hp : pick (c_router (unmuted_routed g a c0)) a = pick (c_router c0) a) by (by rewrite <- Hc1, pick_observe).
  rewrite Hc1. cbn [app]. set (c1 := unmuted_routed g a c0) in *.
  assert (Hc2 : (w_route a c1).1.2 = offered g a c0) by (unfold offered; by rewrite (proj1 (meters_route a c1))).
  destruct (own_route a c1 Hres) as [(Hpass & -> & ->)|(why & Hwhy & -> & ->)]; simpl; [|by apply acc_dropped].
  apply acc_passed; [done..|]. rewrite Hp, Hc2. set (sinks := pick (c_router c0) a). rewrite own_bind.
  assert (Hc3 : (w_groupRoute a sinks (offered g a c0)).1.2 = sending g a sinks c0)
    by (unfold sending; by rewrite (proj1 (meters_groupRoute a sinks (offered g a c0)))).
  destruct (own_groupRoute a sinks (offered g a c0)) as [(Habs & -> & ->)|(Habs & -> & ->)]; rewrite Hc3; cbn [fst snd andb app].
  - destruct (own_send a sinks (sending g a sinks c0)) as [[Hm ->]|(Hm & a' & Ha' & ->)]; [by apply passed_muted|by apply passed_fired].
  - destruct (keepStateful sinks) as [|s sinks'] eqn:Ek; cbn [length Nat.eqb]; [by rewrite own_lift; apply passed_grouped|].
    rewrite <- Ek. destruct (own_send a (keepStateful sinks) (sending g a sinks c0)) as [[Hm ->]|(Hm & a' & Ha' & ->)];
      [apply passed_grouped_muted|apply passed_grouped_fired]; congruence.
Qed.

Lemma override_severity_Resolved ovs a : (override_severity ovs a).(a_Resolved) = a.(a_Resolved).
Proof using Type. induction ovs as [|ov ovs IH]; [done|]. simpl. by destruct (MatchLabels _ _). Qed.

Lemma own_firing a c :
  a.(a_Resolved) = false →
  let a' := override_severity c.(c_cfg).(SeverityOverrides) (with_Cluster c.(c_cfg).(Cluster) a) in
  ∃ log, own (w_firing f a c).2 = Sample (Incd AlertsTotal [a'.(a_Kind); a'.(a_Severity); reason_label a']) :: log
         ∧ accounted g c a' (pick c.(c_router) a') log.
Proof using Type*.
  intros Hres a'. unfold w_firing. fold a'. rewrite own_bind. simpl. eexists. split; [done|].
  assert (Hres' : a_Resolved a' = false) by (unfold a'; by rewrite override_severity_Resolved).
  destruct (a_Event a') eqn:Hev; [by apply own_event|]. rewrite own_lift.
  assert (Ht : same_table c (after_grace c)) by (unfold after_grace, in_grace; by destruct (0 <? _)).
  assert (Hgrace : snd (in_grace (c_cfg c) (c_start c) c) = after_grace c) by done.
  destruct (in_grace (c_cfg c) (c_start c) c) as [gr c1] eqn:Eg. cbn [fst snd] in Hgrace |- *. subst c1.
  destruct gr; [rewrite !own_lift; by apply acc_startup; [|rewrite Eg]|]. rewrite !own_lift.
  change (with_store (λ s, (Muted (Now (after_grace c)).1 (a_Fingerprint a') s, s)) (Now (after_grace c)).2)
    with (mute_now (after_grace c) a', set_store (c_store (Now (after_grace c)).2) (Now (after_grace c)).2).
  cbn [fst snd]. destruct (mute_now (after_grace c) a') eqn:Hm; [by apply acc_muted; [|rewrite Eg|]|].
  apply own_unmuted; [done|done|by rewrite Eg|done|by destruct (Now (after_grace c)).2|].
  apply pick_table. exact Ht.
Qed.
End emitter.

(** An alert leaves neither a delivery nor a reason only when its route has no sink for it. *)
Lemma nothing_vanishes g c a sinks :
  accounted g c a sinks [] → (if a.(a_Event) then dropStateful sinks else sinks) = [].
Proof.
  inversion 1 as [| |Hev ? ? E| | | |l Hev ? ? ? Hpassed]; subst; rewrite Hev; [by destruct (dropStateful sinks)|].
  inversion Hpassed as [a' ? ? ? E| | | |]. by destruct sinks.
Qed.

(** C7: The counters account for every alert. Each firing alert the emitter is given, in any
    state, is counted once in [AlertsTotal] under its own labels, and then it is either put on
    the queue once, for the sinks of its route, or counted as suppressed under the label of what
    held it back: the startup grace, the mute as found at the first or at the last look, a
    silence, a maintenance window or an inhibition in force when it was routed - the first of
    these in the router's order -, or the grouper. One that the grouper absorbed goes on to the
    stateful sinks of its route only, if any, unless it is muted by then. It leaves neither a
    delivery nor a reason only when its route has no sink for it; for an event that includes a
    route of stateful sinks alone, which is dropped with nothing counted ([event_vanishes]). An
    alert of another shard is counted as such and nothing is done. All samples have a value for
    every label, the log names exactly the deliveries added to the queue, and counting changes
    nothing else. *)
Theorem emitted_accounted s a c :
  let '(x, c', log) := w_sharded_emit s a c in
  (x, c') = sharded_emit s a c
  ∧ forallb well_labelled (flat_map samples_of log) = true
  ∧ delivered c' = delivered c ++ flat_map queued_of log
  ∧ (Enabled s && negb (Owns s (shardKey a)) = true → log = [suppressed SuppressForeignShard])
  ∧ (Enabled s && negb (Owns s (shardKey a)) = false → a.(a_Resolved) = false →
       let a' := override_severity c.(c_cfg).(SeverityOverrides) (with_Cluster c.(c_cfg).(Cluster) a) in
       ∃ rest, own log = Sample (Incd AlertsTotal [a'.(a_Kind); a'.(a_Severity); reason_label a']) :: rest
               ∧ accounted (emit_n 1) c a' (pick c.(c_router) a') rest
               ∧ (rest = [] → (if a'.(a_Event) then dropStateful (pick c.(c_router) a') else pick c.(c_router) a') = [])).
Proof.
  destruct (meters_sharded s a c) as (E & Hs & Hd).
  assert (Hlog : (Enabled s && negb (Owns s (shardKey a)) = true → (w_sharded_emit s a c).2 = [suppressed SuppressForeignShard])
    ∧ (Enabled s && negb (Owns s (shardKey a)) = false → (w_sharded_emit s a c).2 = (w_emit a c).2)).
  { unfold w_sharded_emit. destruct (Enabled s), (Owns s (shardKey a)); by split. }
  destruct (w_sharded_emit s a c) as [[x c'] log]. cbn [fst snd] in *. rewrite <- E in Hd. destruct Hlog as [Hf Ho].
  split_and!; [done|done|done|done|]. intros Hown Hres. rewrite (Ho Hown). unfold w_emit. cbn [w_emit_n].
  unfold w_body at 1. rewrite Hres. destruct (own_firing (w_emit_n 1) (emit_n 1)) with (a := a) (c := c) as (rest & Hr & Hacc).
  - intros y. apply meters_body. intros z. apply meters_ret.
  - apply tabled_emit_n.
  - done.
  - exists rest. split; [done|]. split; [done|]. intros ->. by eapply nothing_vanishes.
Qed.

End accounting.

(** The first fire of a pod, and an event whose only sink is stateful. *)
Lemma emitted_accounted_witness :
  ∃ rest, own (@w_sharded_emit mini_regexp canonical_range mini_time mini_zone None (w_pod false) w_start).2
    = Sample (Incd AlertsTotal ["Pod"; "critical"; "OOMKilled"]) :: rest.
Proof.
  pose proof (@emitted_accounted mini_regexp canonical_range mini_time mini_zone None (w_pod false) w_start) as Ht.
  destruct (w_sharded_emit None (w_pod false) w_start) as [[x c'] log].
  destruct Ht as (_ & _ & _ & _ & Ht). destruct (Ht eq_refl eq_refl) as (rest & Hr & _). by exists rest.
Defined.

Example event_vanishes :
  let a := MkAlert "ev" "Pod" "ns" "web" "" "critical" "Deleted" "" "" ∅ ∅ ∅ 5 0 false true None in
  let c := set_router (router_New [MkRoute ∅ ["pagerduty"]] [] [] ["slack"]) w_start in
  (@w_emit mini_regexp canonical_range mini_time mini_zone a c).2
    = [Sample (Incd AlertsTotal ["Pod"; "critical"; "Deleted"])].
Proof. vm_compute. reflexivity. Qed.
