(* ===== verification/Text.v ===== *)
(** * internal/textutil, internal/authz/bearer.go, internal/sinks/util.go: texts at the edge

    UTF-8-safe truncation, bearer tokens, and the helpers sinks render alert text with. *)
From S2P Require Import Prelude GoStd AlertModel.

(** ** textutil.go *)

(** The loop of [Head], with [i] running down from [limit]; reached with [i < len(s)]. *)
Fixpoint head_loop (l : list ascii) (i : nat) : list ascii :=
  match i with
  | O => []
  | S i' => match l !! i with
            | Some c => if RuneStart c then take i l else head_loop l i'
            | None => []
            end
  end.

(** A negative limit cuts everything. *)
Definition Head (s : string) (limit : Z) : string :=
  if slen s <=? limit then s else of_chars (head_loop (chars s) (Z.to_nat limit)).

Definition UTFMax : nat := 4.

(** The loop of [Tail]: at most [UTFMax] leading bytes are examined. *)
Fixpoint tail_loop (cut : list ascii) (l : list ascii) (fuel : nat) {struct fuel} : list ascii :=
  match fuel, l with
  | S fuel, c :: l' => if RuneStart c then l else tail_loop cut l' fuel
  | _, _ => cut
  end.

Definition Tail (s : string) (limit : nat) : string :=
  if (String.length s <=? limit)%nat then s
  else let cut := drop (String.length s - limit) (chars s) in of_chars (tail_loop cut cut UTFMax).

(** ** authz/bearer.go *)

(** [subtle.ConstantTimeCompare] is equality of the bytes. *)
Definition BearerEqual (authHeader token : string) : bool := streq (TrimPrefix authHeader "Bearer ") token.

(** ** sinks/util.go *)

Definition markdown_special : list ascii :=
  ["\"; "`"; "*"; "_"; "~"; "["; "]"; "("; ")"; ">"; "|"]%char.
Definition is_special (c : ascii) : bool := bool_decide (c ∈ markdown_special).

(** The replacer: every pattern is one byte, so one pass over the bytes. *)
Definition escape_char (c : ascii) : list ascii := if is_special c then ["\"%char; c] else [c].
Definition escapeMarkdown (s : string) : string := of_chars (concat (escape_char <$> chars s)).

Definition safeRunbookURL (raw : string) : bool :=
  if streq raw "" || (2048 <? slen raw) then false
  else if negb (HasPrefix raw "https://") then false
  else negb (ContainsAny raw (of_chars [" "; "009"; "013"; "010"; "034"; "'"; "<"; ">"]%char)).

Definition runbook (a : Alert) : string * bool :=
  let u := default "" (a.(a_Annotations) !! AnnotationRunbookURL) in (u, safeRunbookURL u).

Definition alertTitlePlain (a : Alert) : string :=
  let title := "[" +:+ a.(a_Severity) +:+ "] " +:+ a.(a_Kind) +:+ " " +:+ a.(a_Namespace) +:+ "/" +:+ a.(a_Name)
               +:+ ": " +:+ a.(a_Reason) in
  if a.(a_Resolved) then "[resolved] " +:+ title else title.

Definition alertTitle (a : Alert) : string := escapeMarkdown (alertTitlePlain a).

(** [html.EscapeString]. *)
Definition html_char (c : ascii) : string :=
  if bool_decide (c = "&"%char) then "&amp;" else if bool_decide (c = "'"%char) then "&#39;"
  else if bool_decide (c = "<"%char) then "&lt;" else if bool_decide (c = ">"%char) then "&gt;"
  else if bool_decide (c = "034"%char) then "&#34;" else String c "".
Definition EscapeString (s : string) : string := foldr (λ c r, html_char c +:+ r) "" (chars s).

Definition alertTitleHTML (a : Alert) : string := EscapeString (alertTitlePlain a).

Definition orDash (s : string) : string := if streq s "" then "-" else s.

Definition statusColorHex (a : Alert) : string := if a.(a_Resolved) then ResolvedColorHex else Color a.(a_Severity).

Definition severityTier (s : Severity) (critical warning other : string) : string :=
  if streq s SeverityCritical then critical else if streq s SeverityWarning then warning else other.

(** * Theorems *)

(** ** UTF-8 *)

(** The encodings of one rune, byte by byte ([unicode/utf8]'s acceptance table). *)
Definition within (lo hi : Z) (c : ascii) : bool := (lo <=? byte_of c) && (byte_of c <=? hi).
Definition rune_ok (r : list ascii) : bool :=
  match r with
  | [a] => within 0 127 a
  | [a; b] => within 194 223 a && within 128 191 b
  | [a; b; c] =>
    ((within 224 224 a && within 160 191 b) || ((within 225 236 a || within 238 239 a) && within 128 191 b)
     || (within 237 237 a && within 128 159 b)) && within 128 191 c
  | [a; b; c; d] =>
    ((within 240 240 a && within 144 191 b) || (within 241 243 a && within 128 191 b)
     || (within 244 244 a && within 128 143 b)) && within 128 191 c && within 128 191 d
  | _ => false
  end.

(** [utf8.ValidString]. *)
Inductive utf8 : list ascii → Prop :=
  | utf8_nil : utf8 []
  | utf8_rune r l : rune_ok r = true → utf8 l → utf8 (r ++ l).

Lemma RuneStart_range c : RuneStart c = negb (within 128 191 c).
Proof. destruct c as [[] [] [] [] [] [] [] []]; vm_compute; reflexivity. Qed.

Lemma within_spec lo hi c : within lo hi c = true ↔ lo <= byte_of c <= hi.
Proof. unfold within. rewrite andb_true_iff, !Z.leb_le. done. Qed.

#[local] Opaque within.

(** A rune starts with its only start byte and has at most four bytes. *)
Lemma rune_shape (r : list ascii) :
  rune_ok r = true → (0 < length r <= 4)%nat
  ∧ ∀ i c, r !! i = Some c → RuneStart c = (i =? 0)%nat.
Proof.
  assert (Hc : ∀ lo hi c, within lo hi c = true → 128 <= lo → hi <= 191 → RuneStart c = false).
  { intros lo hi c H%within_spec Hlo Hhi. rewrite RuneStart_range. apply negb_false_iff, within_spec. lia. }
  assert (Hs : ∀ lo hi c, within lo hi c = true → hi < 128 ∨ 191 < lo → RuneStart c = true).
  { intros lo hi c H%within_spec Hr. rewrite RuneStart_range. apply negb_true_iff.
    destruct (within 128 191 c) eqn:E; [|done]. apply within_spec in E. lia. }
  intros Hr. destruct r as [|a [|b [|c [|d [|e r]]]]]; try done; (split; [simpl; lia|]); intros i x Hx;
    simpl in Hr; repeat (apply andb_true_iff in Hr as [Hr ?]);
    repeat match goal with H : _ || _ = true |- _ => apply orb_true_iff in H as [H|H] end;
    repeat match goal with H : _ && _ = true |- _ => apply andb_true_iff in H as [? ?] end;
    repeat match goal with H : _ || _ = true |- _ => apply orb_true_iff in H as [H|H] end;
    destruct i as [|[|[|[|i]]]]; simpl in Hx; rewrite ?lookup_nil in Hx; try done; injection Hx as <-;
    first [eapply Hs; [eassumption|lia]|eapply Hc; [eassumption|lia|lia]].
Qed.
#[local] Transparent within.

(** A validly encoded text cut at a start byte is two valid texts. *)
Lemma utf8_cut l i c : utf8 l → l !! i = Some c → RuneStart c = true → utf8 (take i l) ∧ utf8 (drop i l).
Proof.
  intros Hl. revert i. induction Hl as [|r l Hr Hl IH]; intros i Hi Hc; [by rewrite lookup_nil in Hi|].
  destruct (rune_shape r Hr) as [Hlen Hshape]. destruct (decide (i < length r)%nat) as [Hlt|Hge].
  - rewrite lookup_app_l in Hi by done. rewrite (Hshape i c Hi) in Hc. apply Nat.eqb_eq in Hc as ->.
    split; [constructor|by apply utf8_rune].
  - rewrite lookup_app_r in Hi by lia. destruct (IH _ Hi Hc) as [Ht Hd].
    rewrite take_app_ge, drop_app_ge by lia. split; [by apply utf8_rune|done].
Qed.

(** Within three bytes before any position of a valid text there is a start byte. *)
Lemma utf8_start l i :
  utf8 l → (i < length l)%nat → ∃ j c, (j <= i <= j + 3)%nat ∧ l !! j = Some c ∧ RuneStart c = true.
Proof.
  intros Hl. revert i. induction Hl as [|r l Hr Hl IH]; intros i Hi; [simpl in Hi; lia|].
  destruct (rune_shape r Hr) as [Hlen Hshape]. destruct (decide (i < length r)%nat) as [Hlt|Hge].
  - destruct (lookup_lt_is_Some_2 r 0) as [c Hc]; [lia|]. exists 0%nat, c.
    rewrite lookup_app_l by lia. split_and!; [lia|lia|done|by rewrite (Hshape 0%nat c Hc)].
  - rewrite length_app in Hi. destruct (IH (i - length r)%nat) as (j & c & Hj & Hc & Hs); [lia|].
    exists (length r + j)%nat, c. rewrite lookup_app_r by lia. rewrite Nat.add_comm, Nat.add_sub. split; [lia|done].
Qed.

(** ** Strings in JSON *)

(** The length of the rune a text starts with, 0 when its first byte cannot be decoded. *)
Definition rune_len (l : list ascii) : nat :=
  if rune_ok (take 1 l) then 1 else if rune_ok (take 2 l) then 2
  else if rune_ok (take 3 l) then 3 else if rune_ok (take 4 l) then 4 else 0.

(** encoding/json writes the replacement character U+FFFD for every byte that it cannot decode
    and the other runes as they are (or as escapes that denote them), so this is the string a
    reader of the JSON gets. *)
Definition replacement : list ascii := ["239"; "191"; "189"]%char.
Fixpoint coerce (n : nat) (l : list ascii) : list ascii :=
  match n, l with
  | S n, _ :: l' =>
    match rune_len l with
    | O => replacement ++ coerce n l'
    | S _ as k => take k l ++ coerce n (drop k l)
    end
  | _, _ => []
  end.
Definition coerceUTF8 (s : string) : string := of_chars (coerce (String.length s) (chars s)).

(** A byte of a rune of several bytes. *)
Definition high (c : ascii) : Prop := 128 <= byte_of c.

Lemma rune_ascii c : rune_ok [c] = true ↔ byte_of c < 128.
Proof. cbn [rune_ok]. rewrite within_spec. unfold byte_of. lia. Qed.

#[local] Opaque within.
Lemma rune_high r : rune_ok r = true → (2 <= length r)%nat → Forall high r.
Proof.
  intros Hr Hl. destruct r as [|a [|b r]]; [simpl in Hl; lia..|].
  assert (Hall : ∀ c, RuneStart c = false → high c).
  { intros c E. rewrite RuneStart_range in E. apply negb_false_iff, within_spec in E. unfold high. lia. }
  constructor.
  - destruct r as [|c [|d [|e r]]]; try done; simpl in Hr; repeat (apply andb_true_iff in Hr as [Hr ?]);
      repeat match goal with H : _ || _ = true |- _ => apply orb_true_iff in H as [H|H] end;
      repeat match goal with H : _ && _ = true |- _ => apply andb_true_iff in H as [? ?] end;
      repeat match goal with H : _ || _ = true |- _ => apply orb_true_iff in H as [H|H] end;
      repeat match goal with H : within _ _ _ = true |- _ => apply within_spec in H end; unfold high; lia.
  - destruct (rune_shape _ Hr) as [_ Hs]. apply Forall_lookup_2. intros i c Hc. apply Hall. by rewrite (Hs (S i) c Hc).
Qed.
#[local] Transparent within.

Lemma rune_len_cases l :
  l ≠ [] → (rune_len l = 0%nat ∧ rune_ok (take 1 l) = false)
  ∨ (1 <= rune_len l)%nat ∧ rune_ok (take (rune_len l) l) = true ∧ (rune_len l = 1%nat ∨ rune_ok (take 1 l) = false).
Proof.
  intros _. unfold rune_len. destruct (rune_ok (take 1 l)) eqn:E1; [right; auto|].
  destruct (rune_ok (take 2 l)) eqn:E2; [right; auto|]. destruct (rune_ok (take 3 l)) eqn:E3; [right; auto|].
  destruct (rune_ok (take 4 l)) eqn:E4; [right; auto|left; auto].
Qed.

(** One step keeps an ASCII byte, or turns high bytes into high bytes. *)
Lemma coerce_step n c l :
  (byte_of c < 128 ∧ coerce (S n) (c :: l) = c :: coerce n l)
  ∨ ∃ p q l', Forall high p ∧ Forall high q ∧ q ≠ [] ∧ c :: l = p ++ l' ∧ (length l' <= length l)%nat
      ∧ coerce (S n) (c :: l) = q ++ coerce n l'.
Proof.
  assert (Htail : (if rune_len (c :: l) is O then replacement ++ coerce n l
                   else take (rune_len (c :: l)) (c :: l) ++ coerce n (drop (rune_len (c :: l)) (c :: l))) = coerce (S n) (c :: l))
    by (cbn [coerce]; by destruct (rune_len (c :: l))).
  destruct (rune_len_cases (c :: l)) as [[E H1]|(E & Hok & H1)]; [done| |].
  - right. exists [c], replacement, l. rewrite E in Htail. split_and!; [|by repeat constructor|done|done|lia|by rewrite <- Htail].
    apply Forall_singleton. unfold high. destruct (decide (byte_of c < 128)) as [Hc|]; [|lia].
    apply rune_ascii in Hc. change (take 1 (c :: l)) with [c] in H1. congruence.
  - destruct (rune_len (c :: l)) as [|k] eqn:Ek; [lia|]. destruct k as [|k].
    + left. split; [by apply rune_ascii|]. by rewrite <- Htail.
    + right. destruct H1 as [H1|H1]; [lia|]. exists (take (S (S k)) (c :: l)), (take (S (S k)) (c :: l)), (drop (S (S k)) (c :: l)).
      assert (Hh : Forall high (take (S (S k)) (c :: l))).
      { apply rune_high; [done|]. destruct l as [|d l]; [|cbn [take length]; lia]. by change (rune_ok (take 1 [c]) = true) in Hok; rewrite H1 in Hok. }
      split_and!; [done|done|done|by rewrite take_drop|cbn [drop length]; rewrite length_drop; lia|done].
Qed.

(** A valid text is kept, and every text becomes valid. *)
Lemma rune_len_rune r l : rune_ok r = true → rune_len (r ++ l) = length r.
Proof.
  intros Hr. destruct (rune_shape r Hr) as [Hlen Hs].
  assert (Hlow : ∀ k, (0 < k < length r)%nat → rune_ok (take k (r ++ l)) = false).
  { intros k Hk. apply not_true_is_false. intros Hok. rewrite take_app_le in Hok by lia.
    destruct (decide (k = 1%nat)) as [->|Hk1].
    - destruct r as [|a r]; [done|]. cbn [take] in Hok. apply rune_ascii in Hok.
      assert (Hh := rune_high _ Hr ltac:(lia)). inversion_clear Hh as [|? ? Ha]. unfold high in Ha. lia.
    - assert (Hrange : ∀ a lo hi, within lo hi a = true → lo <= byte_of a <= hi) by (intros; by apply within_spec).
      destruct r as [|a [|b [|c [|d [|e r]]]]]; cbn [length] in *; try lia;
        destruct k as [|[|[|[|k]]]]; try lia; cbn [take rune_ok] in Hok, Hr;
        repeat match goal with
          | H : _ || _ = true |- _ => apply orb_true_iff in H as [H|H]
          | H : _ && _ = true |- _ => apply andb_true_iff in H as [? ?]
          | H : within _ _ _ = true |- _ => apply within_spec in H
        end; lia. }
  assert (Hok : rune_ok (take (length r) (r ++ l)) = true) by (by rewrite take_app_length).
  unfold rune_len. destruct (length r) as [|[|[|[|[|n]]]]] eqn:E; try lia;
    rewrite ?(Hlow 1%nat), ?(Hlow 2%nat), ?(Hlow 3%nat) by lia; by rewrite Hok.
Qed.

Lemma coerce_valid n l : utf8 l → (length l <= n)%nat → coerce n l = l.
Proof.
  intros Hl. revert n. induction Hl as [|r l Hr Hl IH]; intros n Hn; [by destruct n|].
  destruct (rune_shape r Hr) as [Hlen _]. rewrite length_app in Hn. destruct n as [|n]; [lia|].
  assert (E := rune_len_rune r l Hr). destruct r as [|a r]; [cbn [length] in Hlen; lia|]. cbn [app] in *. cbn [coerce].
  rewrite E. cbn [length]. change (a :: r ++ l) with ((a :: r) ++ l). change (S (length r)) with (length (a :: r)).
  rewrite take_app_length, drop_app_length, IH; [done|]. cbn [length] in Hn. lia.
Qed.

Lemma coerce_is_utf8 n l : utf8 (coerce n l).
Proof.
  revert l. induction n as [|n IH]; intros [|c l]; [constructor..|]. cbn [coerce].
  destruct (rune_len_cases (c :: l)) as [[E _]|(E & Hok & _)]; [done|rewrite E; by apply (utf8_rune replacement)|].
  destruct (rune_len (c :: l)) as [|k]; [lia|]. by apply utf8_rune.
Qed.

Lemma coerceUTF8_valid s : utf8 (chars s) → coerceUTF8 s = s.
Proof.
  intros Hs. unfold coerceUTF8. rewrite coerce_valid; [apply of_chars_chars|done|by rewrite chars_length].
Qed.
Lemma coerceUTF8_utf8 s : utf8 (chars (coerceUTF8 s)).
Proof. unfold coerceUTF8. rewrite chars_of_chars. apply coerce_is_utf8. Qed.
Lemma coerceUTF8_idem s : coerceUTF8 (coerceUTF8 s) = coerceUTF8 s.
Proof. apply coerceUTF8_valid, coerceUTF8_utf8. Qed.
Lemma ascii_utf8 l : Forall (λ c, byte_of c < 128) l → utf8 l.
Proof. induction 1 as [|c l Hc Hl IH]; [constructor|]. apply (utf8_rune [c]); [by apply rune_ascii|done]. Qed.

(** Hexadecimal text is ASCII. *)
Lemma ascii_of_small n : 0 <= n < 128 → byte_of (ascii_of_Z n) < 128.
Proof. intros Hn. unfold byte_of, ascii_of_Z. rewrite Ascii.N_ascii_embedding by lia. lia. Qed.
Lemma EncodeToString_ascii bs :
  Forall (λ b, 0 <= b < 256) bs → Forall (λ c, byte_of c < 128) (chars (EncodeToString bs)).
Proof.
  unfold EncodeToString. rewrite chars_of_chars. induction 1 as [|b bs Hb _ IH]; [constructor|].
  assert (Hd : ∀ n, 0 <= n < 16 → byte_of (hexdigit false n) < 128).
  { intros n Hn. unfold hexdigit. destruct (n <? 10); apply ascii_of_small; lia. }
  rewrite fmap_cons. cbn [concat]. apply Forall_app_2; [|done]. pose proof (Z.mod_pos_bound b 16).
  repeat constructor; apply Hd; [|lia]. split; [apply Z.div_pos; lia|apply Z.div_lt_upper_bound; lia].
Qed.

Lemma sha256_bytes m : Forall (λ b, 0 <= b < 256) (sha256 m).
Proof.
  unfold sha256. induction (fold_left _ _ _) as [|w l IH]; [constructor|]. rewrite fmap_cons. cbn [concat].
  apply Forall_app_2; [|done]. unfold PutUint32. repeat constructor; apply Z.mod_pos_bound; lia.
Qed.

(** Only an ASCII text becomes that ASCII text. *)
Lemma coerce_ascii n l r : Forall (λ c, byte_of c < 128) r → (length l <= n)%nat → coerce n l = r → l = r.
Proof.
  intros Hr. revert l r Hr. induction n as [|n IH]; intros [|c l] r Hr Hn E; cbn [length] in Hn; try lia; try done.
  destruct (coerce_step n c l) as [[_ E']|(p & q & l' & _ & Hq & Hne & _ & _ & E')]; rewrite E' in E; subst r.
  - inversion_clear Hr as [|? ? _ Hr']. f_equal. by apply IH; [|lia|].
  - destruct q as [|x q]; [done|]. inversion_clear Hq as [|? ? Hx]. inversion_clear Hr as [|? ? Hx']. unfold high in Hx. lia.
Qed.
Lemma coerceUTF8_eqb s name :
  Forall (λ c, byte_of c < 128) (chars name) → String.eqb (coerceUTF8 s) name = String.eqb s name.
Proof.
  intros Hn. destruct (String.eqb_spec s name) as [->|Hne].
  - rewrite coerceUTF8_valid by (by apply ascii_utf8). apply String.eqb_refl.
  - apply String.eqb_neq. intros E. apply Hne, chars_inj.
    apply (coerce_ascii (String.length s)); [done|by rewrite chars_length|]. by rewrite <- E; unfold coerceUTF8; rewrite chars_of_chars.
Qed.

Example coerceUTF8_bytes :
  coerceUTF8 (of_chars ["a"; "255"; "226"; "130"; "172"; "226"; "130"]%char)
  = of_chars (["a"%char] ++ replacement ++ ["226"; "130"; "172"]%char ++ replacement ++ replacement).
Proof. reflexivity. Qed.

(** ** Head *)

Lemma head_loop_spec l i :
  (i < length l)%nat →
  ∃ j, (j <= i)%nat ∧ head_loop l i = take j l ∧ (j = 0%nat ∨ ∃ c, l !! j = Some c ∧ RuneStart c = true)
    ∧ ∀ k c, (j < k <= i)%nat → l !! k = Some c → RuneStart c = false.
Proof.
  induction i as [|i IH]; intros Hi; [exists 0%nat; split_and!; [lia|done|by left|lia]|].
  cbn [head_loop]. destruct (lookup_lt_is_Some_2 l (S i) Hi) as [c Hc]. rewrite Hc.
  destruct (RuneStart c) eqn:E.
  - exists (S i). split_and!; [lia|done|right; eauto|lia].
  - destruct IH as (j & Hj & Hl & Hs & Hn); [lia|]. exists j. split_and!; [lia|done|done|].
    intros k d Hk Hd. destruct (decide (k = S i)) as [->|]; [by simplify_eq|]. apply (Hn k d); [lia|done].
Qed.

Lemma Head_utf8 s limit :
  utf8 (chars s) →
  utf8 (chars (Head s limit)) ∧ (0 <= limit < slen s → limit - 3 <= slen (Head s limit)).
Proof.
  intros Hs. unfold Head. destruct (Z.leb_spec (slen s) limit) as [Hle|Hlt]; [split; [done|lia]|].
  rewrite chars_of_chars. unfold slen in *.
  destruct (decide (limit < 0)) as [Hneg|Hpos]; [destruct limit; try lia; simpl; split; [constructor|lia]|].
  destruct (head_loop_spec (chars s) (Z.to_nat limit)) as (j & Hj & -> & Hstart & Hno); [rewrite chars_length; lia|].
  split.
  - destruct Hstart as [->|(c & Hc & E)]; [constructor|by eapply utf8_cut].
  - intros _. destruct (utf8_start (chars s) (Z.to_nat limit) Hs) as (k & c & Hk & Hc & E); [rewrite chars_length; lia|].
    assert (Hkj : (k <= j)%nat).
    { destruct (decide (k <= j)%nat); [done|]. rewrite (Hno k c) in E; [done|lia|done]. }
    rewrite <- chars_length, chars_of_chars, length_take, chars_length. lia.
Qed.

Lemma Head_prefix s limit : HasPrefix s (Head s limit) = true ∧ slen (Head s limit) <= Z.max 0 limit.
Proof.
  unfold Head. destruct (Z.leb_spec (slen s) limit) as [Hle|Hlt].
  - split; [|lia]. rewrite <- (string_app_nil_r s) at 1. apply HasPrefix_app.
  - destruct (decide (limit < 0)) as [Hneg|Hpos]; [destruct limit; try lia; simpl; split; [by destruct s|unfold slen; simpl; lia]|].
    unfold slen in *. destruct (head_loop_spec (chars s) (Z.to_nat limit)) as (j & Hj & -> & _ & _); [rewrite chars_length; lia|].
    split.
    + apply HasPrefix_spec. exists (of_chars (drop j (chars s))). apply chars_inj.
      by rewrite chars_app, !chars_of_chars, take_drop.
    + rewrite <- chars_length, chars_of_chars, length_take. lia.
Qed.

(** ** Tail *)

Lemma tail_loop_spec cut l fuel k c :
  (k < fuel)%nat → l !! k = Some c → RuneStart c = true →
  ∃ j d, (j <= k)%nat ∧ l !! j = Some d ∧ RuneStart d = true ∧ tail_loop cut l fuel = drop j l.
Proof.
  revert l k. induction fuel as [|fuel IH]; intros l k Hk Hl Hc; [lia|].
  destruct l as [|x l]; [done|]. simpl. destruct (RuneStart x) eqn:Ex; [exists 0%nat, x; split_and!; [lia|done..]|].
  destruct k as [|k]; [simpl in Hl; congruence|]. destruct (IH l k) as (j & d & Hj & Hd & Hs & E); [lia|done|done|].
  exists (S j), d. split_and!; [lia|done|done|done].
Qed.

Lemma tail_loop_suffix cut l fuel : (∃ n, l = drop n cut) → ∃ n, tail_loop cut l fuel = drop n cut.
Proof.
  revert l. induction fuel as [|fuel IH]; intros l [n Hn]; [exists 0%nat; by rewrite drop_0|].
  destruct l as [|x l]; [exists 0%nat; by rewrite drop_0|]. simpl. destruct (RuneStart x); [by exists n|]. apply IH. exists (S n).
  rewrite <- (Nat.add_1_r n), <- drop_drop, <- Hn. done.
Qed.

Lemma Tail_utf8 s limit :
  (4 <= limit)%nat → utf8 (chars s) →
  utf8 (chars (Tail s limit)) ∧ ((limit < String.length s)%nat → limit - 3 <= String.length (Tail s limit))%nat.
Proof.
  intros H4 Hs. unfold Tail. destruct (Nat.leb_spec (String.length s) limit) as [Hle|Hlt]; [split; [done|lia]|].
  set (n := (String.length s - limit)%nat). set (cut := drop n (chars s)).
  destruct (utf8_start (chars s) (n + 3) Hs) as (k & c & Hk & Hc & E); [rewrite chars_length; lia|].
  destruct (tail_loop_spec cut cut UTFMax (k - n) c) as (j & d & Hj & Hd & Ed & ->); [unfold UTFMax; lia| |done|].
  { unfold cut. rewrite lookup_drop. by replace (n + (k - n))%nat with k by lia. }
  rewrite chars_of_chars. unfold cut in *. rewrite lookup_drop in Hd. rewrite drop_drop. split.
  - by eapply utf8_cut.
  - intros _. rewrite <- chars_length, chars_of_chars, length_drop, chars_length. lia.
Qed.

(** Truncation never breaks a text. [Head] gives a prefix of at most [limit] bytes and
    [Tail] a suffix of at most [limit] bytes; both turn valid UTF-8 into valid UTF-8 and lose at
    most three bytes of the budget. For [Tail] that needs a limit of at least four: below it, a
    cut inside one rune is returned as it is, invalid. *)
Theorem truncation_keeps_utf8 :
  (∀ s limit, HasPrefix s (Head s limit) = true ∧ slen (Head s limit) <= Z.max 0 limit)
  ∧ (∀ s limit, utf8 (chars s) →
       utf8 (chars (Head s limit)) ∧ (0 <= limit < slen s → limit - 3 <= slen (Head s limit)))
  ∧ (∀ s limit, (∃ t, s = t +:+ Tail s limit) ∧ (String.length (Tail s limit) <= limit)%nat)
  ∧ (∀ s limit, (4 <= limit)%nat → utf8 (chars s) →
       utf8 (chars (Tail s limit)) ∧ ((limit < String.length s)%nat → limit - 3 <= String.length (Tail s limit))%nat)
  ∧ (∃ s, utf8 (chars s) ∧ ¬ utf8 (chars (Tail s 2))).
Proof.
  split_and!; [apply Head_prefix|apply Head_utf8| |apply Tail_utf8|].
  - intros s limit. unfold Tail. destruct (Nat.leb_spec (String.length s) limit) as [Hle|Hlt]; [split; [by exists ""|done]|].
    set (cut := drop _ (chars s)).
    destruct (tail_loop_suffix cut cut UTFMax) as [n ->]; [by exists 0%nat|]. unfold cut. rewrite drop_drop. split.
    + exists (of_chars (take (String.length s - limit + n) (chars s))). apply chars_inj.
      by rewrite chars_app, !chars_of_chars, take_drop.
    + rewrite <- chars_length, chars_of_chars, length_drop, chars_length. lia.
  - (* the euro sign *)
    exists (String "226" (String "130" (String "172" ""))). split.
    + apply (utf8_rune ["226"; "130"; "172"]%char []); [vm_compute; reflexivity|constructor].
    + vm_compute. intros Hu. inversion Hu as [|r l Hr Hl E]. destruct (rune_shape r Hr) as [Hlen Hsh].
      destruct r as [|x r]; [simpl in Hlen; lia|]. injection E as -> _. specialize (Hsh 0%nat _ eq_refl). vm_compute in Hsh. done.
Qed.

(** ** Markdown *)

(** What the chat clients that render Markdown take for markup, by construct and by the
    characters it is written with: bold, italics, underline and strikethrough; code spans and
    fences; a masked link's text and target; the end of an autolink or of a bracketed mention,
    and a block quote; a spoiler or a table cell; and the escape itself. Not among them, and
    passed on as they are: a bare URL or an @-mention, and what only counts at the start of a
    line. *)
Inductive construct := Emphasis | Code | MaskedLink | Bracketed | Spoiler | Backslash.
Definition delimiters (k : construct) : list ascii :=
  match k with
  | Emphasis => ["*"; "_"; "~"]
  | Code => ["`"]
  | MaskedLink => ["["; "]"; "("; ")"]
  | Bracketed => [">"]
  | Spoiler => ["|"]
  | Backslash => ["\"]
  end%char.
Definition is_markup (c : ascii) : bool :=
  existsb (λ k, bool_decide (c ∈ delimiters k)) [Emphasis; Code; MaskedLink; Bracketed; Spoiler; Backslash].

(** The escaper covers every construct. *)
Lemma special_markup c : is_special c = is_markup c.
Proof. each_byte c; reflexivity. Qed.

(** What a client reads: a backslash before a delimiter makes it literal; a delimiter on its
    own is markup, here [None]. *)
Fixpoint md_read (l : list ascii) : option (list ascii) :=
  match l with
  | [] => Some []
  | c :: l' =>
    if bool_decide (c = "\"%char) then
      match l' with
      | d :: l'' => if is_markup d then cons d <$> md_read l'' else None
      | [] => None
      end
    else if is_markup c then None else cons c <$> md_read l'
  end.

(** Escaped text has no markup left and reads back as the text. *)
Lemma escapeMarkdown_literal s : md_read (chars (escapeMarkdown s)) = Some (chars s).
Proof.
  unfold escapeMarkdown. rewrite chars_of_chars. induction (chars s) as [|c l IH]; [done|].
  rewrite fmap_cons. cbn [concat]. unfold escape_char at 1. rewrite special_markup. destruct (is_markup c) eqn:E; simpl.
  - by rewrite E, IH.
  - case_bool_decide as Hc; [subst c; done|]. by rewrite E, IH.
Qed.

Example at_sign_passes : escapeMarkdown "@channel https://evil.example" = "@channel https://evil.example".
Proof. reflexivity. Qed.

(** ** Bearer tokens *)

(** The header passes exactly when it is the token behind the scheme, or the bare token of a
    header without the scheme. *)
Lemma BearerEqual_spec h token :
  BearerEqual h token = true ↔ h = "Bearer " +:+ token ∨ (h = token ∧ HasPrefix h "Bearer " = false).
Proof.
  unfold BearerEqual, TrimPrefix. rewrite streq_true. destruct (HasPrefix h "Bearer ") eqn:E.
  - apply HasPrefix_spec in E as [t ->].
    assert (Hsub : ∀ u, String.substring 0 (String.length u) u = u) by (induction u as [|c u IH]; simpl; [done|by rewrite IH]).
    assert (Hcut : String.substring (String.length "Bearer ") (String.length ("Bearer " +:+ t) - String.length "Bearer ")
                     ("Bearer " +:+ t) = t) by (simpl; rewrite ?Nat.sub_0_r; apply Hsub).
    rewrite Hcut. split; [intros ->; by left|]. intros [Ht|[_ Hc]]; [by apply string_app_inv_head in Ht|done].
  - split; [intros ->; by right|]. intros [->|[-> _]]; [|done]. by rewrite HasPrefix_app in E.
Qed.
