(* ===== verification/Collectors.v ===== *)
(** * internal/collectors: the texts of an alert's details

    The Kubernetes objects the watchers and collectors read; describe.go with text/tabwriter as
    it is configured there; events.go; and the log collector of logs.go, whose redactor is in
    Redact.v. The API server's answers are arguments, the clock is read once per rendering, and
    the texts of times, quoted strings and ages are the class [Texts]. *)
From stdpp Require Import sorting.
From S2P Require Import Prelude GoStd Text Redact.

(** ** Kubernetes objects *)

Record ObjectMeta := MkMeta {
  om_Namespace : string;
  om_Name : string;
  om_Generation : Z;
  om_CreationTimestamp : time;
  om_DeletionTimestamp : option time;
  om_Labels : gmap string string;
  om_Annotations : gmap string string;
}.

Record Terminated := MkTerminated {
  te_Reason : string; te_Message : string; te_ExitCode : Z; te_Signal : Z; te_StartedAt : time; te_FinishedAt : time }.

Record ContainerState := MkState {
  cs_Waiting : option string;    (** the reason *)
  cs_Running : option time;      (** since when *)
  cs_Terminated : option Terminated;
}.

Record ContainerStatus := MkStatus {
  st_Name : string;
  st_Ready : bool;
  st_RestartCount : Z;
  st_State : ContainerState;
  st_LastTerminationState : ContainerState;
}.

(** Resource lists with the text of each quantity. *)
Record Container := MkContainer { ct_Name : string; ct_Limits : gmap string string; ct_Requests : gmap string string }.

(** A status condition. *)
Record Condition := MkCondition { co_Type : string; co_Status : string; co_Reason : string; co_Message : string }.

Record Pod := MkPod {
  pod_Meta : ObjectMeta;
  pod_NodeName : string;
  pod_InitContainers : list Container;
  pod_Containers : list Container;
  pod_Phase : string;
  pod_Reason : string;
  pod_Conditions : list Condition;
  pod_InitContainerStatuses : list ContainerStatus;
  pod_ContainerStatuses : list ContainerStatus;
}.

Record Node := MkNode { no_Meta : ObjectMeta; no_Unschedulable : bool; no_Conditions : list Condition; no_KubeletVersion : string }.

Record Event := MkEvent { ev_LastTimestamp : time; ev_InvolvedObject : string; ev_Reason : string; ev_Message : string }.

(** [strconv.Quote], [metav1.Time.String], [duration.HumanDuration] and the RFC 1123 layout. *)
Class Texts := {
  Quote : string → string;
  TimeString : time → string;
  HumanDuration : duration → string;
  FormatRFC1123Z : time → string;
}.

(** ** text/tabwriter with minwidth 0, padding 2, blanks and no flags

    A cell ends at a tab; the cells of a column on consecutive lines get one width. The escape
    byte 0xff, which no UTF-8 text has, is not modelled. *)
Module Tabwriter.
Definition padding : nat := 2.

(** [utf8.RuneCount]: an invalid byte counts as one. *)
Fixpoint rune_count (fuel : nat) (l : list ascii) : nat :=
  match fuel, l with
  | S fuel, _ :: _ =>
    let size := if rune_ok (take 2 l) && (2 <=? length l)%nat then 2%nat
                else if rune_ok (take 3 l) && (3 <=? length l)%nat then 3%nat
                else if rune_ok (take 4 l) && (4 <=? length l)%nat then 4%nat else 1%nat in
    S (rune_count fuel (drop size l))
  | _, _ => 0%nat
  end.
Definition width (cell : list ascii) : nat := rune_count (length cell) cell.

Definition is_tab (c : ascii) : bool := bool_decide (c = "009"%char) || bool_decide (c = "011"%char).

Fixpoint split_at (p : ascii → bool) (l : list ascii) : list (list ascii) :=
  match l with
  | [] => [[]]
  | c :: l => if p c then [] :: split_at p l
              else match split_at p l with w :: ws => (c :: w) :: ws | [] => [[c]] end
  end.

(** A line's cells, padded where a width is given. *)
Fixpoint write_line (widths : list nat) (cells : list (list ascii)) : list ascii :=
  match cells with
  | [] => []
  | cell :: cells =>
    cell ++ match widths with
            | w :: widths => replicate (w - width cell) " "%char ++ write_line widths cells
            | [] => write_line [] cells
            end
  end.

(** Consecutive lines that have, or do not have, a cell that ends in the column. *)
Fixpoint runs (column : nat) (lines : list (list (list ascii))) : list (bool * list (list (list ascii))) :=
  match lines with
  | [] => []
  | line :: lines =>
    let has := (column <? length line - 1)%nat in
    match runs column lines with
    | (b, run) :: rest => if Bool.eqb b has then (b, line :: run) :: rest else (has, [line]) :: (b, run) :: rest
    | [] => [(has, [line])]
    end
  end.

(** [format]: one column per level. *)
Fixpoint format (fuel : nat) (widths : list nat) (lines : list (list (list ascii))) : list (list ascii) :=
  match fuel with
  | O => write_line widths <$> lines
  | S fuel =>
    let column := length widths in
    concat ((λ r : bool * list (list (list ascii)),
      if r.1 then
        let w := list_max ((λ line, width (default [] (line !! column)) + padding)%nat <$> r.2) in
        format fuel (widths ++ [w]) r.2
      else write_line widths <$> r.2) <$> runs column lines)
  end.

Fixpoint join_lines (lines : list (list ascii)) : list ascii :=
  match lines with
  | [] => []
  | [l] => l
  | l :: lines => l ++ "010"%char :: join_lines lines
  end.

(** A form feed ends the line and flushes what was formatted together. *)
Definition flush (l : list ascii) : list ascii :=
  let lines := split_at is_tab <$> split_at (λ c, bool_decide (c = "010"%char)) l in
  join_lines (format (list_max (length <$> lines)) [] lines).
Definition render (l : list ascii) : list ascii :=
  join_lines (flush <$> split_at (λ c, bool_decide (c = "012"%char)) l).
End Tabwriter.

(** ** describe.go *)

Definition level0 : nat := 0.
Definition level1 : nat := 1.
Definition level2 : nat := 2.

(** The replacer's patterns are single bytes. *)
Definition term_char (c : ascii) : list ascii :=
  if decide (c = "027"%char) then chars "^[" else if decide (c = "013"%char) then chars "\r" else [c].
Definition termEscaper (s : string) : string := of_chars (expand term_char (chars s)).

Definition tab : string := String "009"%char "".
Definition eol : string := String "010"%char "".

(** What [prefixWriter.write] writes for a formatted text. *)
Definition write (level : nat) (s : string) : string := termEscaper (of_chars (replicate (2 * level) " "%char) +:+ s).

Definition tabbedString (written : list string) : string :=
  of_chars (Tabwriter.render (chars (String.concat "" written))).

Definition printBool (b : bool) : string := if b then "True" else "False".

Section describe.
Context `{Texts}.

Definition translateTimestampSince (now timestamp : time) : string :=
  if IsZero timestamp then "<unknown>" else HumanDuration (Sub now timestamp).

Definition describeStatus (stateName : string) (state : ContainerState) : list string :=
  match state.(cs_Running), state.(cs_Waiting), state.(cs_Terminated) with
  | Some started, _, _ =>
    [write level1 (stateName +:+ ":" +:+ tab +:+ "Running" +:+ eol); write level2 ("Started:" +:+ tab +:+ FormatRFC1123Z started +:+ eol)]
  | None, Some reason, _ =>
    write level1 (stateName +:+ ":" +:+ tab +:+ "Waiting" +:+ eol)
    :: (if negb (streq reason "") then [write level2 ("Reason:" +:+ tab +:+ reason +:+ eol)] else [])
  | None, None, Some t =>
    [write level1 (stateName +:+ ":" +:+ tab +:+ "Terminated" +:+ eol)]
    ++ (if negb (streq t.(te_Reason) "") then [write level2 ("Reason:" +:+ tab +:+ t.(te_Reason) +:+ eol)] else [])
    ++ (if negb (streq t.(te_Message) "") then [write level2 ("Message:" +:+ tab +:+ t.(te_Message) +:+ eol)] else [])
    ++ [write level2 ("Exit Code:" +:+ tab +:+ Itoa t.(te_ExitCode) +:+ eol)]
    ++ (if 0 <? t.(te_Signal) then [write level2 ("Signal:" +:+ tab +:+ Itoa t.(te_Signal) +:+ eol)] else [])
    ++ [write level2 ("Started:" +:+ tab +:+ FormatRFC1123Z t.(te_StartedAt) +:+ eol);
        write level2 ("Finished:" +:+ tab +:+ FormatRFC1123Z t.(te_FinishedAt) +:+ eol)]
  | None, None, None => [write level1 (stateName +:+ ":" +:+ tab +:+ "Waiting" +:+ eol)]
  end.

Definition DescribeContainerState (status : ContainerStatus) : string :=
  tabbedString
    ([write level0 (status.(st_Name) +:+ ":" +:+ eol);
      write level1 ("Ready:" +:+ tab +:+ printBool status.(st_Ready) +:+ eol);
      write level1 ("Restart Count:" +:+ tab +:+ Itoa status.(st_RestartCount) +:+ eol)]
     ++ describeStatus "State" status.(st_State)
     ++ (if status.(st_LastTerminationState).(cs_Terminated) is Some _ then describeStatus "Last State" status.(st_LastTerminationState) else [])).

Definition resource_lines (label : string) (m : gmap string string) : list string :=
  (if (0 <? size m)%nat then [write level1 (label +:+ ":" +:+ eol)] else [])
  ++ ((λ name, write level2 (name +:+ ":" +:+ tab +:+ default "" (m !! name) +:+ eol)) <$> SortedKeys m).

Definition GetContainerResource (container : Container) : string :=
  tabbedString (resource_lines "Limits" container.(ct_Limits) ++ resource_lines "Requests" container.(ct_Requests)).

(** Sum of restarts, latest restart, status text. *)
Record pod_summary := MkSummary { ps_restarts : Z; ps_last : time; ps_reason : string }.

Definition count_restart (c : ContainerStatus) (s : pod_summary) : pod_summary :=
  let last := match c.(st_LastTerminationState).(cs_Terminated) with
              | Some t => if Before s.(ps_last) t.(te_FinishedAt) then t.(te_FinishedAt) else s.(ps_last)
              | None => s.(ps_last)
              end in
  MkSummary (s.(ps_restarts) + c.(st_RestartCount)) last s.(ps_reason).

Definition termination_reason (prefix : string) (t : Terminated) : string :=
  if negb (streq t.(te_Reason) "") then prefix +:+ t.(te_Reason)
  else if negb (t.(te_Signal) =? 0) then prefix +:+ "Signal:" +:+ Itoa t.(te_Signal)
  else prefix +:+ "ExitCode:" +:+ Itoa t.(te_ExitCode).

(** The loop over the init containers: up to the first that has not completed. *)
Fixpoint init_loop (total i : nat) (statuses : list ContainerStatus) (s : pod_summary) : pod_summary * bool :=
  match statuses with
  | [] => (s, false)
  | c :: statuses =>
    let s := count_restart c s in
    let stop reason := (MkSummary s.(ps_restarts) s.(ps_last) reason, true) in
    match c.(st_State).(cs_Terminated) with
    | Some t => if t.(te_ExitCode) =? 0 then init_loop total (S i) statuses s else stop (termination_reason "Init:" t)
    | None =>
      match c.(st_State).(cs_Waiting) with
      | Some r => if negb (streq r "") && negb (streq r "PodInitializing") then stop ("Init:" +:+ r)
                  else stop ("Init:" +:+ Itoa (Z.of_nat i) +:+ "/" +:+ Itoa (Z.of_nat total))
      | None => stop ("Init:" +:+ Itoa (Z.of_nat i) +:+ "/" +:+ Itoa (Z.of_nat total))
      end
    end
  end.

(** One container of the main loop: the summary, the ready count, [hasRunning]. *)
Definition container_step (acc : pod_summary * Z * bool) (c : ContainerStatus) : pod_summary * Z * bool :=
  let '(s, ready, hasRunning) := acc in
  let s := count_restart c s in
  let show reason := (MkSummary s.(ps_restarts) s.(ps_last) reason, ready, hasRunning) in
  let running := if c.(st_Ready) && (if c.(st_State).(cs_Running) is Some _ then true else false)
                 then (s, ready + 1, true) else (s, ready, hasRunning) in
  match c.(st_State).(cs_Waiting), c.(st_State).(cs_Terminated) with
  | Some r, t => if negb (streq r "") then show r else match t with Some t => show (termination_reason "" t) | None => running end
  | None, Some t => show (termination_reason "" t)
  | None, None => running
  end.

Definition hasPodReadyCondition (conditions : list Condition) : bool :=
  existsb (λ c, streq c.(co_Type) "Ready" && streq c.(co_Status) "True") conditions.

(** The status column, the restarts and the ready count. *)
Definition pod_status (pod : Pod) : pod_summary * Z :=
  let reason := if negb (streq pod.(pod_Reason) "") then pod.(pod_Reason) else pod.(pod_Phase) in
  let '(s, initializing) := init_loop (length pod.(pod_InitContainers)) 0 pod.(pod_InitContainerStatuses) (MkSummary 0 0 reason) in
  let '(s, ready) :=
    if (initializing : bool) then (s, 0)
    else
      let '(s, ready, hasRunning) := fold_left container_step (rev pod.(pod_ContainerStatuses)) (MkSummary 0 s.(ps_last) s.(ps_reason), 0, false) in
      if streq s.(ps_reason) "Completed" && hasRunning
      then (MkSummary s.(ps_restarts) s.(ps_last) (if hasPodReadyCondition pod.(pod_Conditions) then "Running" else "NotReady"), ready)
      else (s, ready) in
  match pod.(pod_Meta).(om_DeletionTimestamp) with
  | Some _ => (MkSummary s.(ps_restarts) s.(ps_last) (if streq pod.(pod_Reason) "NodeLost" then "Unknown" else "Terminating"), ready)
  | None => (s, ready)
  end.

Definition PrintPod (now : time) (pod : Pod) : string :=
  let '(s, ready) := pod_status pod in
  let restartsStr := if negb (IsZero s.(ps_last))
                     then Itoa s.(ps_restarts) +:+ " (" +:+ translateTimestampSince now s.(ps_last) +:+ " ago)"
                     else Itoa s.(ps_restarts) in
  tabbedString
    [write level0 ("NAME" +:+ tab +:+ "READY" +:+ tab +:+ "STATUS" +:+ tab +:+ "RESTARTS" +:+ tab +:+ "AGE" +:+ eol);
     write level0 (pod.(pod_Meta).(om_Name) +:+ tab +:+ Itoa ready +:+ "/" +:+ Itoa (Z.of_nat (length pod.(pod_Containers)))
                   +:+ tab +:+ s.(ps_reason) +:+ tab +:+ restartsStr
                   +:+ tab +:+ translateTimestampSince now pod.(pod_Meta).(om_CreationTimestamp) +:+ eol)].

Definition PrintNode (now : time) (obj : Node) : string :=
  let ready := fold_left (λ ready cond, if negb (streq cond.(co_Type) "Ready") then ready
                                        else if streq cond.(co_Status) "True" then cond.(co_Type) else "Not" +:+ cond.(co_Type))
                 obj.(no_Conditions) "Unknown" in
  let status := ready :: (if obj.(no_Unschedulable) then ["SchedulingDisabled"] else []) in
  tabbedString
    [write level0 ("NAME" +:+ tab +:+ "STATUS" +:+ tab +:+ "AGE" +:+ tab +:+ "VERSION" +:+ eol);
     write level0 (obj.(no_Meta).(om_Name) +:+ tab +:+ Join status "," +:+ tab
                   +:+ translateTimestampSince now obj.(no_Meta).(om_CreationTimestamp) +:+ tab +:+ obj.(no_KubeletVersion) +:+ eol)].

(** ** events.go *)

Definition eventListLimit : Z := 100.

Definition event_less (a b : Event) : bool :=
  if a.(ev_LastTimestamp) =? b.(ev_LastTimestamp) then String.ltb a.(ev_InvolvedObject) b.(ev_InvolvedObject)
  else Before a.(ev_LastTimestamp) b.(ev_LastTimestamp).
End describe.

(** [sort.Sort]: some order of the items without an inversion. *)
Class EventSort := {
  sort_events : list Event → list Event;
  sort_perm : ∀ l, sort_events l ≡ₚ l;
  sort_sorted : ∀ l, StronglySorted (λ a b, event_less b a = false) (sort_events l);
}.

(** An instance to evaluate with. *)
Lemma event_less_false a b :
  event_less b a = false ↔
  a.(ev_LastTimestamp) < b.(ev_LastTimestamp)
  ∨ a.(ev_LastTimestamp) = b.(ev_LastTimestamp) ∧ String.le a.(ev_InvolvedObject) b.(ev_InvolvedObject).
Proof.
  unfold event_less, String.le, String.leb, String.ltb, Before. destruct (Z.eqb_spec (ev_LastTimestamp b) (ev_LastTimestamp a)) as [->|Hne].
  - rewrite (String.compare_antisym (ev_InvolvedObject a)). destruct (String.compare (ev_InvolvedObject b) (ev_InvolvedObject a)); simpl; intuition (try lia; try congruence).
  - rewrite Z.ltb_ge. intuition lia.
Qed.

Definition event_le (a b : Event) : Prop := event_less b a = false.
#[global] Instance event_le_dec : RelDecision event_le.
Proof. intros a b. unfold event_le. apply _. Defined.

#[global] Program Instance merge_events : EventSort := {| sort_events := merge_sort event_le |}.
Next Obligation. intros l. apply merge_sort_Permutation. Qed.
Next Obligation.
  intros l. change (StronglySorted event_le (merge_sort event_le l)).
  assert (Htot : Total event_le).
  { intros a b. unfold event_le. rewrite !event_less_false.
    destruct (Z.lt_total (ev_LastTimestamp a) (ev_LastTimestamp b)) as [|[E|]]; [tauto| |tauto].
    destruct (String.le_total (ev_InvolvedObject a) (ev_InvolvedObject b)); [left|right]; right; by split. }
  apply Sorted_StronglySorted; [|by apply Sorted_merge_sort].
  - intros a b c. unfold event_le. rewrite !event_less_false. intros [H1|[H1 H1']] [H2|[H2 H2']]; try (left; lia).
    right. split; [lia|]. by etrans.
Qed.

(** ** logs.go: the collector *)

Definition logTailLines : Z := 50.
Record PodLogOptions := MkLogOptions { lo_Container : string; lo_Previous : bool; lo_Timestamps : bool; lo_TailLines : option Z }.

(** The API server: events by namespace, field selector and limit; a log by namespace, pod and
    options; [None] is an error of the call or of the stream. *)
Record kubeAPI := MkKubeAPI {
  ListEvents : string → string → Z → option (list Event);
  GetLogs : string → string → PodLogOptions → option string;
}.

Definition PreviousContainerLogs (c : kubeAPI) (ns pod container : string) : option string :=
  RedactSecrets <$> c.(GetLogs) ns pod (MkLogOptions container true true (Some logTailLines)).

Section events.
Context `{Texts} `{EventSort}.

Definition formatEvents (items : list Event) (name : string) : string :=
  let items := if (1 <? length items)%nat then sort_events items else items in
  String.concat "" ((λ e, TimeString e.(ev_LastTimestamp) +:+ ", " +:+ e.(ev_Reason) +:+ ", " +:+ e.(ev_Message) +:+ eol)
                    <$> filter (λ e, e.(ev_InvolvedObject) = name) items).

Definition PodEvents (c : kubeAPI) (ns name : string) : option string :=
  (λ items, formatEvents items name)
  <$> c.(ListEvents) ns ("involvedObject.kind=Pod,involvedObject.name=" +:+ name +:+ ",type!=Normal") eventListLimit.

Definition NodeEvents (c : kubeAPI) (nodeName : string) : option string :=
  (λ items, formatEvents items nodeName)
  <$> c.(ListEvents) "" ("involvedObject.kind=Node,involvedObject.name=" +:+ nodeName) eventListLimit.
End events.

(** ** The golden texts of describe_test.go *)

Section golden.
#[local] Instance golden_texts : Texts := {|
  Quote s := s; TimeString _ := ""; HumanDuration _ := ""; FormatRFC1123Z _ := "Fri, 02 Jan 2026 03:04:05 +0000" |}.

Definition lines (l : list string) : string := String.concat "" ((λ s, s +:+ eol) <$> l).
Definition meta (name : string) : ObjectMeta := MkMeta "" name 0 0 None ∅ ∅.
Definition nothing : ContainerState := MkState None None None.

Example golden_pod :
  PrintPod 0 (MkPod (meta (of_chars (chars "web" ++ ["027"%char] ++ chars "[31m"))) "" [] [MkContainer "web" ∅ ∅; MkContainer "side" ∅ ∅]
    "Running" "" [] []
    [MkStatus "web" false 7 (MkState (Some "CrashLoopBackOff") None None) nothing;
     MkStatus "side" true 0 (MkState None (Some 1) None) nothing])
  = lines ["NAME       READY  STATUS            RESTARTS  AGE"; "web^[[31m  1/2    CrashLoopBackOff  7         <unknown>"].
Proof. vm_compute. reflexivity. Qed.

Example golden_node :
  PrintNode 0 (MkNode (meta "node-1") true [MkCondition "MemoryPressure" "True" "" ""; MkCondition "Ready" "False" "" ""] "v1.31.0")
  = lines ["NAME    STATUS                       AGE        VERSION"; "node-1  NotReady,SchedulingDisabled  <unknown>  v1.31.0"].
Proof. vm_compute. reflexivity. Qed.

Example golden_container :
  DescribeContainerState (MkStatus "app" false 3 (MkState None (Some 1) None)
    (MkState None None (Some (MkTerminated "OOMKilled" (of_chars (chars "100% used" ++ ["013"; "010"]%char ++ chars "bye" ++ ["027"%char])) 137 9 1 1))))
  = lines ["app:"; "  Ready:          False"; "  Restart Count:  3"; "  State:          Running";
           "    Started:      Fri, 02 Jan 2026 03:04:05 +0000"; "  Last State:     Terminated"; "    Reason:       OOMKilled";
           "    Message:      100% used\r"; "bye^["; "    Exit Code:  137"; "    Signal:     9";
           "    Started:    Fri, 02 Jan 2026 03:04:05 +0000"; "    Finished:   Fri, 02 Jan 2026 03:04:05 +0000"].
Proof. vm_compute. reflexivity. Qed.

Example golden_resources :
  GetContainerResource (MkContainer "" {["memory" := "256Mi"; "cpu" := "1"]} {["cpu" := "50m"; "ephemeral-storage" := "1Gi"; "memory" := "64Mi"]})
  = lines ["  Limits:"; "    cpu:     1"; "    memory:  256Mi"; "  Requests:"; "    cpu:                50m"; "    ephemeral-storage:  1Gi"; "    memory:             64Mi"]
  ∧ GetContainerResource (MkContainer "" ∅ ∅) = "".
Proof. vm_compute. split; reflexivity. Qed.
End golden.

(** * Theorems *)

(** ** The table writer changes blanks only *)

(** A character that is neither a blank nor a control that the writer consumes. *)
Definition visible (c : ascii) : bool := negb (ContainsByte (of_chars [" "; "009"; "010"; "011"; "012"]%char) c).
Definition shown (l : list ascii) : list ascii := filter (λ c, visible c = true) l.

Lemma shown_app l l' : shown (l ++ l') = shown l ++ shown l'.
Proof. apply filter_app. Qed.

Lemma shown_concat ls : shown (concat ls) = concat (shown <$> ls).
Proof. induction ls as [|l ls IH]; [done|]. cbn [concat]. by rewrite shown_app, IH. Qed.

Lemma shown_cons c l : shown (c :: l) = (if visible c then [c] else []) ++ shown l.
Proof.
  unfold shown. destruct (visible c) eqn:E; [by rewrite filter_cons_True|]. rewrite filter_cons_False; [done|congruence].
Qed.

Lemma shown_blanks n : shown (replicate n " "%char) = [].
Proof. induction n as [|n IH]; [done|]. rewrite replicate_S, shown_cons, IH. done. Qed.

Import Tabwriter.

Lemma shown_split p l : (∀ c, p c = true → visible c = false) → concat (shown <$> split_at p l) = shown l.
Proof.
  intros Hp. induction l as [|c l IH]; [done|]. cbn [split_at]. rewrite shown_cons. destruct (p c) eqn:E.
  - rewrite (Hp c E). cbn. exact IH.
  - destruct (split_at p l) as [|w ws]; rewrite <- IH; cbn [fmap list_fmap concat]; rewrite shown_cons; [by rewrite app_nil_r|by rewrite app_assoc].
Qed.

Lemma shown_join ls : shown (join_lines ls) = concat (shown <$> ls).
Proof.
  induction ls as [|l ls IH]; [done|]. destruct ls as [|l' ls]; [cbn; by rewrite app_nil_r|].
  change (join_lines (l :: l' :: ls)) with (l ++ "010"%char :: join_lines (l' :: ls)).
  rewrite shown_app, shown_cons, IH. done.
Qed.

Definition line_shown (cells : list (list ascii)) : list ascii := concat (shown <$> cells).

Lemma shown_write_line ws cells : shown (write_line ws cells) = line_shown cells.
Proof.
  revert ws. induction cells as [|cell cells IH]; intros ws; [done|]. cbn [write_line]. rewrite shown_app.
  destruct ws as [|w ws]; rewrite ?shown_app, ?shown_blanks, IH; done.
Qed.

Lemma shown_write_lines ws lines : concat (shown <$> (write_line ws <$> lines)) = concat (line_shown <$> lines).
Proof. induction lines as [|l lines IH]; [done|]. rewrite !fmap_cons. cbn [concat]. by rewrite shown_write_line, IH. Qed.

Lemma runs_concat column lines : concat (snd <$> runs column lines) = lines.
Proof.
  induction lines as [|line lines IH]; [done|]. cbn [runs]. destruct (runs column lines) as [|[b run] rest].
  - cbn in *. by rewrite <- IH.
  - rewrite fmap_cons in IH. cbn [concat snd] in IH. destruct (Bool.eqb _ _); rewrite !fmap_cons; cbn [concat snd app]; by rewrite <- IH.
Qed.

Lemma shown_format fuel ws lines : concat (shown <$> format fuel ws lines) = concat (line_shown <$> lines).
Proof.
  revert ws lines. induction fuel as [|fuel IH]; intros ws lines; [apply shown_write_lines|]. cbn [format].
  rewrite <- (runs_concat (length ws) lines) at 2.
  induction (runs (length ws) lines) as [|[b run] rest IHr]; [done|]. rewrite !fmap_cons. cbn [concat snd fst].
  rewrite !fmap_app, !concat_app, IHr. f_equal. destruct b; [apply IH|apply shown_write_lines].
Qed.

Lemma shown_flush l : shown (flush l) = shown l.
Proof.
  unfold flush. rewrite shown_join, shown_format.
  rewrite <- (shown_split (λ c, bool_decide (c = "010"%char)) l).
  2: { by intros c ->%bool_decide_eq_true. }
  induction (split_at _ l) as [|w ws IH]; [done|]. rewrite !fmap_cons. cbn [concat]. rewrite IH. f_equal.
  apply shown_split. unfold is_tab. intros c [->%bool_decide_eq_true| ->%bool_decide_eq_true]%orb_true_iff; done.
Qed.

Lemma shown_render l : shown (render l) = shown l.
Proof.
  unfold render. rewrite shown_join. rewrite <- (shown_split (λ c, bool_decide (c = "012"%char)) l).
  2: { by intros c ->%bool_decide_eq_true. }
  f_equal. rewrite <- list_fmap_compose. apply list_fmap_ext. intros _ w _. apply shown_flush.
Qed.

Lemma shown_tabbed written : shown (chars (tabbedString written)) = shown (chars (String.concat "" written)).
Proof. unfold tabbedString. rewrite chars_of_chars. apply shown_render. Qed.

(** ** Nothing for a terminal to act on *)

Definition harmless (s : string) : Prop := ("027"%char ∉ chars s) ∧ ("013"%char ∉ chars s).

Lemma term_char_harmless c : ("027"%char ∉ term_char c) ∧ ("013"%char ∉ term_char c).
Proof.
  unfold term_char. destruct (decide (c = "027"%char)); [by split; apply (bool_decide_eq_true_1 (_ ∉ _))|].
  destruct (decide (c = "013"%char)); [by split; apply (bool_decide_eq_true_1 (_ ∉ _))|].
  split; intros <-%list_elem_of_singleton; done.
Qed.

Lemma write_harmless level s : harmless (write level s).
Proof.
  unfold write, termEscaper, harmless. rewrite chars_of_chars. generalize (chars (of_chars (replicate (2 * level) " "%char) +:+ s)) as l.
  intros l. induction l as [|c l IH]; [split; apply not_elem_of_nil|].
  change (expand term_char (c :: l)) with (term_char c ++ expand term_char l). pose proof (term_char_harmless c).
  rewrite !not_elem_of_app. tauto.
Qed.

Lemma tabbed_harmless written : (∀ w, w ∈ written → harmless w) → harmless (tabbedString written).
Proof.
  intros Hw.
  assert (Hc : ∀ c, visible c = true → (∀ w, w ∈ written → c ∉ chars w) → c ∉ chars (tabbedString written)).
  { intros c Hv Hno Hin. assert (Hs : c ∈ shown (chars (tabbedString written))) by (by apply list_elem_of_filter).
    rewrite shown_tabbed in Hs. apply list_elem_of_filter in Hs as [_ Hs]. revert Hs. change (c ∉ chars (String.concat "" written)).
    clear -Hno. induction written as [|w ws IH]; [apply not_elem_of_nil|]. destruct ws as [|w' ws].
    - apply Hno. left.
    - change (String.concat "" (w :: w' :: ws)) with (w +:+ String.concat "" (w' :: ws)). rewrite chars_app, not_elem_of_app. split.
      + apply Hno. left.
      + apply IH. intros x Hx. apply Hno. by right. }
  split; (apply Hc; [done|]; intros w Hin; by apply Hw).
Qed.

Section safety.
Context `{Texts}.

Create HintDb rendered.
Hint Resolve write_harmless : rendered.

Ltac each_write :=
  intros w; rewrite ?elem_of_app, ?elem_of_cons, ?elem_of_nil;
  intuition (subst; auto with rendered).

Lemma describeStatus_harmless name st w : w ∈ describeStatus name st → harmless w.
Proof. unfold describeStatus. revert w. repeat case_match; each_write. Qed.

Lemma resource_lines_harmless label m w : w ∈ resource_lines label m → harmless w.
Proof.
  unfold resource_lines. rewrite elem_of_app, list_elem_of_fmap. intros [Hw|(k & -> & _)]; [|apply write_harmless].
  destruct (0 <? size m)%nat; [apply list_elem_of_singleton in Hw as ->; apply write_harmless|by apply elem_of_nil in Hw].
Qed.

(** C14: the details rendered for an alert cannot drive a terminal and lose nothing. Pod, node,
    container and resource tables contain no escape character and no carriage return, whatever
    names, reasons and messages the objects carry; and laying out the columns moves blanks,
    tabs and line ends only: the visible characters of every table are those written, in order. *)
Theorem tables_safe_and_faithful :
  (∀ now pod, harmless (PrintPod now pod)) ∧ (∀ now node, harmless (PrintNode now node))
  ∧ (∀ status, harmless (DescribeContainerState status)) ∧ (∀ container, harmless (GetContainerResource container))
  ∧ ∀ written, shown (chars (tabbedString written)) = shown (chars (String.concat "" written)).
Proof.
  split_and!.
  - intros now pod. unfold PrintPod. destruct (pod_status pod) as [s ready]. apply tabbed_harmless. each_write.
  - intros now node. apply tabbed_harmless. each_write.
  - intros status. apply tabbed_harmless. intros w [Hw|[Hw|Hw]%elem_of_app]%elem_of_app; [revert w Hw; each_write|..].
    + by eapply describeStatus_harmless.
    + destruct (cs_Terminated _); [by eapply describeStatus_harmless|by apply elem_of_nil in Hw].
  - intros container. apply tabbed_harmless. intros w [Hw|Hw]%elem_of_app; by eapply resource_lines_harmless.
  - apply shown_tabbed.
Qed.
End safety.
