(* ===== verification/Escape.v ===== *)
(** * Escaped text: what a chat client reads as markup

    The chat sinks put alert text into messages that clients render. This file says when a text
    is inert for a client's dialect, and shows it of the escapers of internal/sinks: the Slack
    one (slack_blocks.go) with its truncations, [html.EscapeString] and the Markdown one
    (util.go). *)
From S2P Require Import Prelude GoStd AlertModel Text.

(** ** slack_blocks.go: the escaper and its two truncations *)

Definition slack_char (c : ascii) : list ascii :=
  if decide (c = "&"%char) then chars "&amp;" else if decide (c = "<"%char) then chars "&lt;"
  else if decide (c = ">"%char) then chars "&gt;" else [c].
Definition slackEscape (s : string) : string := of_chars (expand slack_char (chars s)).

Definition headEscaped (s : string) (limit : Z) : string :=
  let out := Head s limit in
  let i := LastIndexByte out "&" in
  if (0 <=? i) && negb (Contains (slice_from out (Z.to_nat i)) ";") then slice_to out (Z.to_nat i) else out.

Definition tailEscaped (s : string) (limit : nat) : string :=
  let out := Tail s limit in
  let cut := slen s - slen out in
  let from := Z.max (cut - 4) 0 in
  let i := LastIndexByte (slice_from (slice_to s (Z.to_nat cut)) (Z.to_nat from)) "&" in
  if 0 <=? i then
    let end_ := from + i + IndexByte (slice_from s (Z.to_nat (from + i))) ";" in
    if cut <=? end_ then slice_from s (Z.to_nat (end_ + 1)) else out
  else out.

Definition slackFence (s : string) : string := slackEscape (ReplaceAll s "```" "'''").
Definition slackCode (s : string) : string := slackEscape (ReplaceAll s "`" "'").

(** ** Dialects *)

(** In Slack's mrkdwn and in HTML some characters are active wherever they stand, and an
    ampersand is harmless only as the start of one of the entities the escaper writes. In
    Markdown a delimiter ([is_markup]) is harmless behind a backslash. *)
Inductive dialect := Mrkdwn | Html | Markdown.

Definition active (d : dialect) : string :=
  match d with Mrkdwn => "<>" | Html => of_chars ["<"; ">"; "'"; "034"]%char | Markdown => "" end.
Definition entities (d : dialect) : list string :=
  match d with
  | Mrkdwn => ["amp;"; "lt;"; "gt;"]
  | Html => ["amp;"; "lt;"; "gt;"; "#34;"; "#39;"]
  | Markdown => []
  end.

Fixpoint begins (p l : list ascii) : bool :=
  match p, l with
  | [], _ => true
  | c :: p, x :: l => bool_decide (c = x) && begins p l
  | _, _ => false
  end.

Fixpoint inert_entities (d : dialect) (l : list ascii) : bool :=
  match l with
  | [] => true
  | c :: l =>
    (if decide (c = "&"%char) then existsb (λ e, begins (chars e) l) (entities d) else negb (ContainsByte (active d) c))
    && inert_entities d l
  end.

(** A lone backslash at the end escapes nothing and is harmless. *)
Fixpoint inert_markdown (l : list ascii) : bool :=
  match l with
  | [] => true
  | c :: l =>
    if decide (c = "\"%char)
    then match l with [] => true | x :: l => is_markup x && inert_markdown l end
    else negb (is_markup c) && inert_markdown l
  end.

Definition inert (d : dialect) (s : string) : bool :=
  match d with Markdown => inert_markdown (chars s) | _ => inert_entities d (chars s) end.

(** ** Inert texts compose *)

Lemma begins_app p l l' : begins p l = true → begins p (l ++ l') = true.
Proof.
  revert l. induction p as [|c p IH]; intros [|x l]; try done. simpl.
  rewrite !andb_true_iff. intros [-> H]. split; [done|by apply IH].
Qed.

Lemma inert_entities_app d l l' :
  inert_entities d l = true → inert_entities d l' = true → inert_entities d (l ++ l') = true.
Proof.
  intros Hl Hl'. induction l as [|c l IH]; [done|]. cbn [app inert_entities] in *.
  apply andb_true_iff in Hl as [Hc Hl]. rewrite (IH Hl), andb_true_r. destruct (decide _); [|done].
  apply existsb_True in Hc as (ent & He & Hc). apply existsb_True. exists ent. split; [done|by apply begins_app].
Qed.

Lemma inert_markdown_app l l' :
  (l = [] ∨ last l ≠ Some "\"%char) → inert_markdown l = true → inert_markdown l' = true → inert_markdown (l ++ l') = true.
Proof.
  intros Hlast Hl Hl'. remember (length l) as n eqn:Hn. revert l Hn Hlast Hl.
  induction (lt_wf n) as [n _ IH]; intros l -> Hlast Hl. destruct l as [|c l]; [done|]. cbn [app inert_markdown] in *.
  destruct Hlast as [|Hlast]; [done|]. destruct (decide (c = "\"%char)) as [->|Hc].
  - destruct l as [|x l]; [done|]. cbn [app]. apply andb_true_iff in Hl as [-> Hl]. cbn [andb].
    apply (IH (length l)); [simpl; lia|done| |done]. destruct l; [by left|by right].
  - apply andb_true_iff in Hl as [-> Hl]. cbn [andb]. apply (IH (length l)); [simpl; lia|done| |done].
    destruct l; [by left|by right].
Qed.

Lemma inert_markdown_prefix l l' : inert_markdown (l ++ l') = true → inert_markdown l = true.
Proof.
  remember (length l) as n eqn:Hn. revert l Hn. induction (lt_wf n) as [n _ IH]; intros l -> Hl.
  destruct l as [|c l]; [done|]. cbn [app inert_markdown] in *. destruct (decide (c = "\"%char)) as [->|Hc].
  - destruct l as [|x l]; [done|]. cbn [app] in Hl. apply andb_true_iff in Hl as [-> Hl]. cbn [andb].
    apply (IH (length l)); [simpl; lia|done..].
  - apply andb_true_iff in Hl as [-> Hl]. cbn [andb]. apply (IH (length l)); [simpl; lia|done..].
Qed.

(** Text whose characters mean nothing to any client. *)
Definition plain (c : ascii) : bool :=
  (url_unreserved c || ContainsByte ": /,+=" c) && negb (ContainsByte "_~" c).
Definition plain_text (s : string) : bool := forallb plain (chars s).

Lemma inert_plain d s : plain_text s = true → inert d s = true.
Proof.
  unfold plain_text, inert. induction (chars s) as [|c l IH]; [by destruct d|]. cbn [forallb].
  rewrite andb_true_iff. intros [Hc Hl]. specialize (IH Hl).
  destruct d; cbn [inert_entities inert_markdown]; rewrite IH; clear -Hc; each_byte c; vm_compute in Hc |- *; congruence.
Qed.

Lemma inert_app d s t : d ≠ Markdown → inert d s = true → inert d t = true → inert d (s +:+ t) = true.
Proof. unfold inert. rewrite chars_app. destruct d; try done; intros _; apply inert_entities_app. Qed.

Lemma inert_nil d : inert d "" = true.
Proof. by destruct d. Qed.

Lemma inert_expand d f l :
  d ≠ Markdown → (∀ c, inert_entities d (f c) = true) → inert_entities d (expand f l) = true.
Proof.
  intros Hd Hf. induction l as [|c l IH]; [done|]. change (expand f (c :: l)) with (f c ++ expand f l).
  by apply inert_entities_app.
Qed.

(** ** The escapers *)

Lemma slackEscape_inert s : inert Mrkdwn (slackEscape s) = true.
Proof.
  unfold inert, slackEscape. rewrite chars_of_chars. apply inert_expand; [done|].
  intros c. each_byte c; reflexivity.
Qed.

Lemma EscapeString_expand s : chars (EscapeString s) = expand (λ c, chars (html_char c)) (chars s).
Proof.
  unfold EscapeString. induction (chars s) as [|c l IH]; [done|]. cbn [foldr]. by rewrite chars_app, IH.
Qed.

Lemma EscapeString_inert s : inert Html (EscapeString s) = true.
Proof.
  unfold inert. rewrite EscapeString_expand. apply inert_expand; [done|]. intros c. each_byte c; reflexivity.
Qed.

Lemma escapeMarkdown_inert s : inert Markdown (escapeMarkdown s) = true.
Proof.
  unfold inert, escapeMarkdown. rewrite chars_of_chars. induction (chars s) as [|c l IH]; [done|].
  rewrite fmap_cons. cbn [concat]. unfold escape_char at 1. rewrite special_markup. destruct (is_markup c) eqn:Hc.
  - cbn [app inert_markdown]. rewrite decide_True by done. by rewrite Hc, IH.
  - cbn [app inert_markdown]. rewrite decide_False by (intros ->; done). by rewrite Hc, IH.
Qed.

Lemma Head_markdown s limit : inert Markdown s = true → inert Markdown (Head s limit) = true.
Proof.
  destruct (Head_prefix s limit) as [Hp _]. apply HasPrefix_spec in Hp as [t Ht]. unfold inert. rewrite Ht at 1.
  rewrite chars_app. apply inert_markdown_prefix.
Qed.

(** ** Inert in JSON *)

Lemma high_inert d c : high c → bool_decide (c = "&"%char) = false ∧ ContainsByte (active d) c = false.
Proof. unfold high. intros Hc. destruct d; revert Hc; each_byte c; vm_compute; (done || (intros []; done)). Qed.
Lemma high_plain c : high c → bool_decide (c = "\"%char) = false ∧ is_markup c = false.
Proof. unfold high. revert c. intros c. each_byte c; vm_compute; (done || (intros []; done)). Qed.

Lemma inert_entities_high d p l : Forall high p → inert_entities d (p ++ l) = inert_entities d l.
Proof.
  induction 1 as [|c p Hc _ IH]; [done|]. cbn [app inert_entities]. destruct (high_inert d c Hc) as [E1 E2].
  rewrite decide_False by (by apply bool_decide_eq_false_1 in E1). by rewrite E2, IH.
Qed.
Lemma inert_markdown_high p l : Forall high p → inert_markdown (p ++ l) = inert_markdown l.
Proof.
  induction 1 as [|c p Hc _ IH]; [done|]. cbn [app inert_markdown]. destruct (high_plain c Hc) as [E1 E2].
  rewrite decide_False by (by apply bool_decide_eq_false_1 in E1). by rewrite E2, IH.
Qed.

Lemma begins_coerce p n l :
  Forall (λ c, byte_of c < 128) p → (length l <= n)%nat → begins p l = true → begins p (coerce n l) = true.
Proof.
  intros Hp. revert n l. induction Hp as [|c p Hc Hp IH]; intros n l Hn Hb; [done|].
  destruct l as [|x l]; [done|]. cbn [begins] in Hb. apply andb_true_iff in Hb as [Hx Hb]. apply bool_decide_eq_true in Hx as <-.
  destruct n as [|n]; [cbn [length] in Hn; lia|].
  destruct (coerce_step n c l) as [[_ ->]|(q & ? & l' & Hq & _ & _ & E & Hlen & _)].
  - cbn [begins]. rewrite bool_decide_true by done. apply IH; [cbn [length] in Hn; lia|done].
  - destruct q as [|y q]; [exfalso; cbn [app] in E; subst l'; cbn [length] in Hlen; lia|]. injection E as <- _. inversion_clear Hq as [|? ? Hy]. unfold high in Hy. lia.
Qed.

Lemma entities_ascii d e : e ∈ entities d → Forall (λ c, byte_of c < 128) (chars e).
Proof.
  intros He. destruct d; cbn [entities] in He;
    repeat (apply elem_of_cons in He as [->|He]; [repeat constructor|]); by apply elem_of_nil in He.
Qed.

Lemma inert_entities_coerce d n l : (length l <= n)%nat → inert_entities d l = true → inert_entities d (coerce n l) = true.
Proof.
  revert l. induction n as [|n IH]; intros [|c l] Hn Hl; try done. cbn [length] in Hn.
  destruct (coerce_step n c l) as [[_ ->]|(p & q & l' & Hp & Hq & _ & E & Hlen & ->)].
  - cbn [inert_entities] in *. apply andb_true_iff in Hl as [Hc Hl]. rewrite IH, andb_true_r by (done || lia).
    destruct (decide _); [|done]. apply existsb_True in Hc as (ent & He & Hb). apply existsb_True. exists ent. split; [done|].
    apply begins_coerce; [by eapply entities_ascii|lia|done].
  - rewrite inert_entities_high by done. rewrite E, inert_entities_high in Hl by done. apply IH; [lia|done].
Qed.

Lemma inert_markdown_coerce n l : (length l <= n)%nat → inert_markdown l = true → inert_markdown (coerce n l) = true.
Proof.
  revert l. induction (lt_wf n) as [n _ IH]. intros [|c l] Hn Hl; [by destruct n|]. destruct n as [|n]; [cbn [length] in Hn; lia|].
  cbn [length] in Hn. destruct (coerce_step n c l) as [[_ ->]|(p & q & l' & Hp & Hq & _ & E & Hlen & ->)].
  - cbn [inert_markdown] in *. destruct (decide (c = "\"%char)) as [_|_].
    + destruct l as [|x l]; [by destruct n|]. apply andb_true_iff in Hl as [Hx Hl]. destruct n as [|n]; [cbn [length] in Hn; lia|].
      cbn [length] in Hn. destruct (coerce_step n x l) as [[_ ->]|(p & q & l' & Hp & _ & _ & E & Hlen & _)].
      * rewrite Hx. apply IH; [lia|lia|done].
      * destruct p as [|y p]; [exfalso; cbn [app] in E; subst l'; cbn [length] in Hlen; lia|]. injection E as <- _.
        inversion_clear Hp as [|? ? Hy]. destruct (high_plain x Hy) as [_ Hm]. congruence.
    + apply andb_true_iff in Hl as [-> Hl]. apply IH; [lia|lia|done].
  - rewrite inert_markdown_high by done. rewrite E, inert_markdown_high in Hl by done. apply IH; [lia|lia|done].
Qed.

(** A text that is inert stays so when it is written into JSON and read back. *)
Lemma inert_coerce d s : inert d s = true → inert d (coerceUTF8 s) = true.
Proof.
  unfold inert, coerceUTF8. rewrite chars_of_chars. assert (length (chars s) <= String.length s)%nat by (by rewrite chars_length).
  destruct d; [by apply inert_entities_coerce..|by apply inert_markdown_coerce].
Qed.

(** ** Truncated escapes are escapes of truncations *)

(** A token of the Slack escaper cut in two. *)
Lemma slack_token c q r :
  slack_char c = q ++ r → q ≠ [] → r ≠ [] →
  ∃ w v, q = "&"%char :: w ∧ r = v ++ [";"%char] ∧ ("&"%char ∉ w) ∧ ("&"%char ∉ r) ∧ (";"%char ∉ q) ∧ (";"%char ∉ v)
    ∧ (length q <= 4)%nat.
Proof.
  unfold slack_char. intros E Hq Hr. repeat case_decide; simpl in E.
  4: { destruct q as [|x [|y q]]; try done; simplify_eq/=. }
  all: destruct q as [|c1 [|c2 [|c3 [|c4 [|c5 [|c6 q]]]]]]; try done; simplify_eq/=.
  all: eexists; lazymatch goal with
    | |- ∃ v, _ ∧ ?r = v ++ _ ∧ _ => exists (take (length r - 1) r)
    end; simpl; split_and!; try done; try lia;
    intros Hin; rewrite list_elem_of_In in Hin; simpl in Hin; intuition discriminate.
Qed.

(** In an escaped text every ampersand starts a whole entity. *)
Lemma whole_entity l l1 l2 :
  expand slack_char l = l1 ++ "&"%char :: l2 → ∃ w l3, l2 = w ++ ";"%char :: l3 ∧ ";"%char ∉ w.
Proof.
  intros E. destruct (expand_cut slack_char l (length l1)) as [(m & _ & _ & Hd)|(m & c & q & r & _ & Hf & Hq & Hr & _ & Hd)].
  { rewrite E, length_app. lia. }
  - rewrite E, drop_app_length in Hd. destruct (drop m l) as [|c l']; [done|].
    change (expand slack_char (c :: l')) with (slack_char c ++ expand slack_char l') in Hd.
    unfold slack_char in Hd at 1. repeat case_decide; simpl in Hd.
    + injection Hd as ->. exists (chars "amp"), (expand slack_char l'). split; [reflexivity|]. by apply (bool_decide_eq_true_1 (_ ∉ _)).
    + injection Hd as ->. exists (chars "lt"), (expand slack_char l'). split; [reflexivity|]. by apply (bool_decide_eq_true_1 (_ ∉ _)).
    + injection Hd as ->. exists (chars "gt"), (expand slack_char l'). split; [reflexivity|]. by apply (bool_decide_eq_true_1 (_ ∉ _)).
    + by injection Hd.
  - destruct (slack_token c q r Hf Hq Hr) as (w & v & _ & _ & _ & Hno & _).
    rewrite E, drop_app_length in Hd. destruct r as [|x r]; [done|]. injection Hd as <- _. set_solver.
Qed.

Lemma Head_take s limit : ∃ k, (k <= length (chars s))%nat ∧ chars (Head s limit) = take k (chars s).
Proof.
  destruct (Head_prefix s limit) as [Hp _]. apply HasPrefix_spec in Hp as [t Ht]. exists (length (chars (Head s limit))).
  assert (E : chars s = chars (Head s limit) ++ chars t) by (rewrite Ht at 1; apply chars_app).
  rewrite E, take_app_length, length_app. split; [lia|done].
Qed.

Lemma Tail_drop s limit :
  ∃ k, (k <= length (chars s))%nat ∧ chars (Tail s limit) = drop k (chars s) ∧ (String.length (Tail s limit) <= limit)%nat.
Proof.
  destruct truncation_keeps_utf8 as (_ & _ & Ht & _). destruct (Ht s limit) as [[t E] Hlen].
  exists (length (chars t)). assert (E' : chars s = chars t ++ chars (Tail s limit)) by (rewrite E at 1; apply chars_app).
  rewrite E', drop_app_length, length_app. split; [lia|done].
Qed.

Lemma headEscaped_spec s limit :
  ∃ p, HasPrefix s p = true ∧ headEscaped (slackEscape s) limit = slackEscape p ∧ slen (slackEscape p) <= Z.max 0 limit.
Proof.
  destruct (Head_take (slackEscape s) limit) as (k & Hk & Hout). destruct (Head_prefix (slackEscape s) limit) as [_ Hlen].
  unfold headEscaped, LastIndexByte. unfold slackEscape in Hk, Hout. rewrite chars_of_chars in Hk, Hout.
  set (out := Head (slackEscape s) limit) in *.
  change (Head (of_chars (expand slack_char (chars s))) limit) with out in Hout.
  assert (Hpre : ∀ m, HasPrefix s (of_chars (take m (chars s))) = true).
  { intros m. apply HasPrefix_chars. exists (drop m (chars s)). by rewrite chars_of_chars, take_drop. }
  destruct (expand_cut slack_char (chars s) k Hk) as [(m & _ & Ht & _)|(m & c & q & r & _ & Hf & Hq & Hr & Ht & _)];
    rewrite Ht in Hout; exists (of_chars (take m (chars s))).
  - assert (Eo : out = slackEscape (of_chars (take m (chars s)))).
    { apply chars_inj. unfold slackEscape. by rewrite !chars_of_chars. }
    rewrite <- Eo. split_and!; [apply Hpre| |done].
    destruct (last_index "&" (chars out)) as [i|] eqn:Ei; simpl; [|done].
    destruct (Z.leb_spec 0 (Z.of_nat i)); [|lia]. apply last_index_Some in Ei as (l1 & l2 & El & Hi & _).
    unfold Contains. destruct (Index _ _) eqn:Ex; [done|]. exfalso.
    rewrite Hout in El. apply whole_entity in El as Hw. destruct Hw as (w & l3 & Hw & _).
    apply (proj1 (Index_None _ _) Ex ("&"%char :: w) l3). unfold slice_from. rewrite chars_of_chars, Nat2Z.id, Hout, El.
    by rewrite <- Hi, drop_app_length, Hw.
  - destruct (slack_token c q r Hf Hq Hr) as (w & v & -> & _ & Hw & _ & Hsemi & _).
    rewrite Hout, (last_index_app "&" _ w Hw). simpl.
    destruct (Z.leb_spec 0 (Z.of_nat (length (expand slack_char (take m (chars s)))))); [|lia].
    unfold Contains. rewrite (proj2 (Index_None _ _)); simpl.
    + assert (Eo : slice_to out (Z.to_nat (Z.of_nat (length (expand slack_char (take m (chars s))))))
                   = slackEscape (of_chars (take m (chars s)))).
      { apply chars_inj. unfold slice_to, slackEscape. by rewrite !chars_of_chars, Nat2Z.id, Hout, take_app_length. }
      rewrite Eo. split_and!; [apply Hpre|done|]. rewrite <- Eo. etrans; [|exact Hlen].
      unfold slen, slice_to. rewrite <- !chars_length, chars_of_chars, length_take. lia.
    + intros x y. unfold slice_from. rewrite chars_of_chars, Nat2Z.id, Hout, drop_app_length. intros E.
      apply Hsemi. rewrite E. change (chars ";") with [";"%char]. set_solver.
Qed.

Lemma tailEscaped_spec s limit :
  ∃ p, HasSuffix s p = true ∧ tailEscaped (slackEscape s) limit = slackEscape p ∧ (String.length (slackEscape p) <= limit)%nat.
Proof.
  destruct (Tail_drop (slackEscape s) limit) as (k & Hk & Hout & Hlen).
  assert (Hsuf : ∀ m, HasSuffix s (of_chars (drop m (chars s))) = true).
  { intros m. apply HasSuffix_spec. exists (of_chars (take m (chars s))). apply chars_inj.
    by rewrite chars_app, !chars_of_chars, take_drop. }
  set (out := Tail (slackEscape s) limit) in *. set (l := expand slack_char (chars s)).
  assert (Hl : chars (slackEscape s) = l) by (unfold slackEscape; by rewrite chars_of_chars).
  rewrite Hl in Hk, Hout.
  assert (Hcut : slen (slackEscape s) - slen out = Z.of_nat k).
  { unfold slen. rewrite <- !chars_length, Hl, Hout, length_drop. lia. }
  unfold tailEscaped. fold out. rewrite Hcut. unfold LastIndexByte, IndexByte, slice_from, slice_to.
  rewrite !chars_of_chars, Nat2Z.id, Hl. set (from := Z.to_nat (Z.max (Z.of_nat k - 4) 0)).
  assert (Hfrom : Z.max (Z.of_nat k - 4) 0 = Z.of_nat from) by lia. rewrite !Hfrom.
  destruct (expand_cut slack_char (chars s) k Hk) as [(m & _ & Ht & Hd)|(m & c & q & r & _ & Hf & Hq & Hr & Ht & Hd)];
    fold l in Ht, Hd.
  - exists (of_chars (drop m (chars s))).
    assert (Eo : out = slackEscape (of_chars (drop m (chars s)))).
    { apply chars_inj. unfold slackEscape. rewrite !chars_of_chars. by rewrite Hout, Hd. }
    rewrite <- Eo. split_and!; [apply Hsuf| |done].
    destruct (last_index "&" (drop from (take k l))) as [i|] eqn:Ei; simpl; [|done].
    destruct (Z.leb_spec 0 (Z.of_nat i)); [|lia]. apply last_index_Some in Ei as (w1 & w2 & Ew & Hi & _).
    assert (Etk : take k l = (take from (take k l) ++ w1) ++ "&"%char :: w2).
    { rewrite <- app_assoc, <- Ew. by rewrite take_drop. }
    assert (Hlfrom : length (take from (take k l)) = from) by (rewrite length_take, length_take; lia).
    rewrite Ht in Etk at 1. apply whole_entity in Etk as Hw. destruct Hw as (w & l3 & -> & Hw). rewrite <- Ht in Etk.
    assert (Edr : drop (Z.to_nat (Z.of_nat from + Z.of_nat i)) l = ("&"%char :: w) ++ ";"%char :: (l3 ++ drop k l)).
    { rewrite <- (take_drop k l) at 1. rewrite Etk. rewrite <- (app_assoc _ _ (drop k l)).
      rewrite drop_app_length' by (rewrite length_app, Hlfrom; lia). cbn [app]. by rewrite <- app_assoc. }
    rewrite Edr, (first_index_app ";" ("&"%char :: w)) by (rewrite not_elem_of_cons; done). simpl.
    assert (Hk' : k = (from + i + 1 + length w + 1 + length l3)%nat).
    { apply (f_equal length) in Etk. rewrite length_take, !length_app, Hlfrom in Etk. cbn [length] in Etk.
      rewrite length_app in Etk. cbn [length] in Etk. lia. }
    destruct (Z.leb_spec (Z.of_nat k) (Z.of_nat from + Z.of_nat i + Z.of_nat (S (length w)))); [lia|done].
  - exists (of_chars (drop (S m) (chars s))).
    destruct (slack_token c q r Hf Hq Hr) as (w & v & -> & -> & Hw & _ & Hsemi & Hv & H4).
    set (pre := expand slack_char (take m (chars s))) in *.
    assert (Hkl : k = (length pre + S (length w))%nat).
    { apply (f_equal length) in Ht. rewrite length_take, length_app in Ht. cbn [length] in Ht. lia. }
    assert (Hwin : drop from (take k l) = drop from pre ++ "&"%char :: w).
    { rewrite Ht. apply drop_app_le. cbn [length] in H4. lia. }
    rewrite Hwin, (last_index_app "&" _ w Hw). simpl.
    destruct (Z.leb_spec 0 (Z.of_nat (length (drop from pre)))); [|lia]. rewrite length_drop.
    replace (Z.to_nat (Z.of_nat from + Z.of_nat (length pre - from))) with (length pre) by (cbn [length] in H4; lia).
    assert (Edr : drop (length pre) l = (("&"%char :: w) ++ v) ++ ";"%char :: expand slack_char (drop (S m) (chars s))).
    { rewrite <- (take_drop k l) at 1. rewrite Ht, Hd. rewrite <- (app_assoc pre), drop_app_length.
      by rewrite <- !app_assoc. }
    rewrite Edr, first_index_app by (rewrite elem_of_app; tauto). simpl. rewrite length_app.
    destruct (Z.leb_spec (Z.of_nat k) (Z.of_nat from + Z.of_nat (length pre - from) + Z.of_nat (S (length w + length v))));
      [|cbn [length] in H4; lia].
    assert (Eo : of_chars (drop (Z.to_nat (Z.of_nat from + Z.of_nat (length pre - from) + Z.of_nat (S (length w + length v)) + 1)) l)
                 = slackEscape (of_chars (drop (S m) (chars s)))).
    { unfold slackEscape. f_equal. rewrite chars_of_chars.
      replace (Z.to_nat _) with (k + S (length v))%nat by (cbn [length] in H4; lia).
      rewrite <- drop_drop, Hd, <- app_assoc. cbn [app].
      change (v ++ ";"%char :: ?x) with (v ++ [";"%char] ++ x). by rewrite app_assoc, drop_app_length' by (rewrite length_app; simpl; lia). }
    rewrite Eo. split_and!; [apply Hsuf|done|]. rewrite <- Eo.
    rewrite <- chars_length, chars_of_chars, length_drop. rewrite <- chars_length, Hout, length_drop in Hlen. cbn [length] in H4. lia.
Qed.

(** ** Code spans and fences *)

Lemma expand_tick l l1 r :
  expand slack_char l = l1 ++ "`"%char :: r →
  ∃ k1 k2, l = k1 ++ "`"%char :: k2 ∧ l1 = expand slack_char k1 ∧ r = expand slack_char k2.
Proof.
  revert l1. induction l as [|c l IH]; intros l1 E; [by destruct l1|].
  change (expand slack_char (c :: l)) with (slack_char c ++ expand slack_char l) in E.
  destruct (decide (c = "`"%char)) as [->|Hc].
  - change (slack_char "`") with ["`"%char] in E. destruct l1 as [|x l1]; injection E as E.
    + exists [], l. by rewrite E.
    + subst x. destruct (IH _ H) as (k1 & k2 & -> & -> & ->). by exists ("`"%char :: k1), k2.
  - assert (Hno : "`"%char ∉ slack_char c).
    { unfold slack_char. repeat case_decide; [by apply (bool_decide_eq_true_1 (_ ∉ _))..|].
      intros Hin%list_elem_of_singleton. congruence. }
    destruct (decide (length l1 < length (slack_char c))%nat) as [Hlt|Hge].
    + apply (f_equal (lookup (length l1))) in E. rewrite lookup_app_l in E by done.
      rewrite (list_lookup_middle l1 r) in E by done. by apply list_elem_of_lookup_2 in E.
    + apply (f_equal (drop (length (slack_char c)))) in E as E'. rewrite drop_app_length, drop_app_le in E' by lia.
      destruct (IH _ E') as (k1 & k2 & -> & Ed & ->). exists (c :: k1), k2. split_and!; [done| |done].
      change (expand slack_char (c :: k1)) with (slack_char c ++ expand slack_char k1). rewrite <- Ed.
      apply (f_equal (take (length (slack_char c)))) in E. rewrite take_app_length, take_app_le in E by lia.
      rewrite E at 1. by rewrite take_drop.
Qed.

Lemma expand_ticks n l y :
  expand slack_char l = replicate n "`"%char ++ y → ∃ k, l = replicate n "`"%char ++ k.
Proof.
  revert l. induction n as [|n IH]; intros l E; [by exists l|]. rewrite replicate_S in E.
  apply (expand_tick l []) in E as (j1 & j2 & -> & Ej & Ey). destruct j1 as [|c j1].
  - destruct (IH j2 (eq_sym Ey)) as [k ->]. by exists k.
  - change (expand slack_char (c :: j1)) with (slack_char c ++ expand slack_char j1) in Ej.
    unfold slack_char in Ej. repeat case_decide; done.
Qed.

(** Escaping makes no backticks, so neither a fence nor the end of a span. *)
Lemma slackEscape_ticks n s :
  Contains s (of_chars (replicate (S n) "`"%char)) = false →
  Contains (slackEscape s) (of_chars (replicate (S n) "`"%char)) = false.
Proof.
  unfold Contains. intros Hs. destruct (Index s _) eqn:E; [done|].
  rewrite (proj2 (Index_None _ _)); [done|]. intros x y. unfold slackEscape. rewrite !chars_of_chars, replicate_S.
  intros (k1 & k2 & Hk & _ & Ey)%expand_tick. symmetry in Ey. apply expand_ticks in Ey as [k3 ->].
  apply (proj1 (Index_None _ _) E k1 k3). by rewrite chars_of_chars.
Qed.

Lemma Contains_part s p x y t : chars s = x ++ chars t ++ y → Contains s p = false → Contains t p = false.
Proof.
  unfold Contains. intros Hs Hc. destruct (Index s p) eqn:E; [done|]. rewrite (proj2 (Index_None _ _)); [done|].
  intros a b Ht. rewrite Ht in Hs. apply (proj1 (Index_None _ _) E (x ++ a) (b ++ y)). rewrite Hs. by rewrite <- !app_assoc.
Qed.

Lemma tick_replaced s n :
  Contains (ReplaceAll s (of_chars (replicate (S n) "`"%char)) (of_chars (replicate (S n) "'"%char)))
    (of_chars (replicate (S n) "`"%char)) = false.
Proof.
  apply ReplaceAll_removes; [done|done|]. intros c. rewrite !chars_of_chars.
  rewrite !elem_of_replicate. intros [-> _] [? _]. done.
Qed.

(** A value in a code span does not end it. *)
Lemma slackCode_span s : inert Mrkdwn (slackCode s) = true ∧ Contains (slackCode s) "`" = false.
Proof. split; [apply slackEscape_inert|]. apply (slackEscape_ticks 0), (tick_replaced s 0). Qed.

(** A detail value cut to its last [limit] bytes stays inside its fence. *)
Lemma fenced_tail s limit :
  let v := tailEscaped (slackFence s) limit in
  inert Mrkdwn v = true ∧ Contains v "```" = false ∧ (String.length v <= limit)%nat.
Proof.
  intros v. unfold v, slackFence. destruct (tailEscaped_spec (ReplaceAll s "```" "'''") limit) as (p & Hp & -> & Hlen).
  split_and!; [apply slackEscape_inert| |done]. apply (slackEscape_ticks 2).
  apply HasSuffix_spec in Hp as [t Ht].
  eapply (Contains_part (ReplaceAll s "```" "'''") _ (chars t) []); [|apply (tick_replaced s 2)].
  rewrite app_nil_r. rewrite Ht at 1. apply chars_app.
Qed.
