(* ===== verification/Slack.v ===== *)
(** * internal/sinks/slack_blocks.go: what a Slack message says

    The Block Kit blocks and the attachment body of an alert. slack-go's types are the data its
    constructors are given; strings are bytes. The layout of the start time carries the zone of
    the value and is a class. *)
From stdpp Require Import sorting.
From S2P Require Import Prelude GoStd AlertModel Text Escape.

(** [Time.Format("2006-01-02 15:04:05 MST")]: digits, letters, blanks, signs and colons. *)
Class SlackTime := {
  FormatMST : time → string;
  FormatMST_plain : ∀ t, plain_text (FormatMST t) = true;
}.

Definition newline : string := String "010"%char "".

(** ** The data handed to slack-go *)

Inductive text_type := PlainTextType | MarkdownType.
Record TextBlockObject := NewTextBlockObject {
  tb_Type : text_type;
  tb_Text : string;
  tb_Emoji : bool;
  tb_Verbatim : bool;
}.

Inductive Block :=
  | NewHeaderBlock (text : TextBlockObject)
  | NewSectionBlock (text : option TextBlockObject) (fields : list TextBlockObject)
  | NewContextBlock (id : string) (elements : list TextBlockObject)
  | NewActionBlock (id : string) (actionID value : string) (text : TextBlockObject) (url : string).

Record Attachment := MkAttachment { at_Color : string; at_Text : string; at_MarkdownIn : list string; at_Footer : string }.

(** ** The blocks *)

Definition headerLimit : Z := 150.
Definition sectionTextLimit : Z := 3000.
Definition summaryPrefix : string := "*Summary:* ".
Definition attachmentTextLimit : Z := 7500.

Section slack.
Context `{SlackTime}.

Definition code_field (label value : string) : TextBlockObject :=
  NewTextBlockObject MarkdownType (label +:+ newline +:+ "`" +:+ slackCode value +:+ "`") false false.

Definition buildSlackBlocks (a : Alert) : list Block :=
  let title := if a.(a_Resolved) then "✅ RESOLVED: " +:+ a.(a_Kind) +:+ " " +:+ a.(a_Reason)
               else Emoji a.(a_Severity) +:+ " " +:+ ToUpper a.(a_Severity) +:+ ": " +:+ a.(a_Kind) +:+ " " +:+ a.(a_Reason) in
  let header := NewHeaderBlock (NewTextBlockObject PlainTextType (Head title headerLimit) true false) in
  let fields := [code_field "*Cluster:*" (orDash a.(a_Cluster)); code_field "*Namespace:*" (orDash a.(a_Namespace));
                 code_field "*Name:*" (orDash a.(a_Name)); code_field "*Reason:*" (orDash a.(a_Reason))]
                ++ (if negb (streq a.(a_NodeName) "") then [code_field "*Node:*" a.(a_NodeName)] else []) in
  let summaryText := headEscaped (slackEscape a.(a_Summary)) (sectionTextLimit - slen summaryPrefix) in
  let summary := NewSectionBlock (Some (NewTextBlockObject MarkdownType (summaryPrefix +:+ summaryText) false false)) [] in
  let context := NewTextBlockObject MarkdownType
                   ("fp: `" +:+ a.(a_Fingerprint) +:+ "` | started: " +:+ FormatMST a.(a_StartsAt)) false false in
  [header; NewSectionBlock None fields; summary; NewContextBlock "" [context]]
  ++ (let '(runbookURL, ok) := runbook a in
      if (ok : bool)
      then [NewActionBlock "" "runbook" "open" (NewTextBlockObject PlainTextType "📖 Runbook" false false) runbookURL]
      else []).
End slack.

(** ** The detail body *)

Definition orderedDetailKeys : list string :=
  ["Pod Status"; "Container State"; "Resource Spec";
   "Pod Events"; "Node Events"; "Pod Logs Before Restart";
   "Deployment Status"; "StatefulSet Status"; "DaemonSet Status";
   "Job Status"; "CronJob Status"; "HPA Status"; "Node Status";
   "Grouped Resources"].

Definition orderedDetails `{MapRange} (details : gmap string string) : list string :=
  let out := filter (λ k, is_Some (details !! k)) orderedDetailKeys in
  let rest := filter (.∉ out) (range details).*1 in
  out ++ merge_sort String.le rest.

Definition omittedLine (n : Z) : string :=
  if n =? 1 then "_1 section omitted to fit Slack's size limit_"
  else "_" +:+ Itoa n +:+ " sections omitted to fit Slack's size limit_".

Definition detail_section (key val : string) : string :=
  "*" +:+ slackEscape key +:+ ":*" +:+ newline +:+ "```" +:+ tailEscaped (slackFence val) 2800 +:+ "```".

(** The builder and the count of sections left out, over the keys in order. *)
Fixpoint detail_loop (details : gmap string string) (budget : Z) (keys : list string) (b : string) (omitted : Z) : string * Z :=
  match keys with
  | [] => (b, omitted)
  | key :: keys =>
    let val := default "" (details !! key) in
    if streq val "" then detail_loop details budget keys b omitted
    else
      let section := detail_section key val in
      let sep := if 0 <? slen b then newline else "" in
      if budget <? slen b + slen sep + slen section then detail_loop details budget keys b (omitted + 1)
      else detail_loop details budget keys (b +:+ sep +:+ section) omitted
  end.

Definition slackDetailBody `{MapRange} (a : Alert) : string :=
  let keys := orderedDetails a.(a_Details) in
  let budget := attachmentTextLimit - slen (newline +:+ omittedLine (Z.of_nat (length keys))) in
  let '(b, omitted) := detail_loop a.(a_Details) budget keys "" 0 in
  if 0 <? omitted then (if 0 <? slen b then b +:+ newline else b) +:+ omittedLine omitted else b.

(** * Theorems *)

(** ** The detail body *)

Section detail_body.
Context `{MapRange}.

Lemma orderedDetails_perm (m : gmap string string) : orderedDetails m ≡ₚ (range m).*1.
Proof.
  unfold orderedDetails. rewrite merge_sort_Permutation. apply NoDup_Permutation.
  - apply NoDup_app. split_and!.
    + apply NoDup_filter. by apply (bool_decide_eq_true_1 (NoDup _)).
    + intros k Hk Hr. by apply list_elem_of_filter in Hr as [Hr _].
    + apply NoDup_filter, range_NoDup_fst.
  - apply range_NoDup_fst.
  - intros k. rewrite elem_of_app, !list_elem_of_filter. split.
    + intros [[[v Hv] _]|[_ Hk]]; [|done]. apply list_elem_of_fmap. exists (k, v). split; [done|by apply range_In].
    + intros Hk. destruct (decide (is_Some (m !! k) ∧ k ∈ orderedDetailKeys)) as [Hin|Hn]; [by left|by right].
Qed.

(** The sections owed for the keys in order: one per detail that is not empty. *)
Definition detail_sections (details : gmap string string) (keys : list string) : list string :=
  (λ k, detail_section k (default "" (details !! k))) <$> filter (λ k, default "" (details !! k) ≠ "") keys.

Lemma sublist_whole {A} (l l' : list A) : l `sublist_of` l' → (length l' <= length l)%nat → l = l'.
Proof.
  induction 1 as [|x l l' _ IH|x l l' Hs _]; intros Hlen; cbn [length] in Hlen; [done|f_equal; apply IH; lia|].
  apply sublist_length in Hs. lia.
Qed.

Lemma detail_section_nonempty k v : detail_section k v ≠ "".
Proof. done. Qed.

Lemma detail_sections_nonempty details keys x : x ∈ detail_sections details keys → x ≠ "".
Proof. intros (k & -> & _)%list_elem_of_fmap. apply detail_section_nonempty. Qed.

Lemma detail_sections_cons details k keys :
  detail_sections details (k :: keys)
  = (if streq (default "" (details !! k)) "" then [] else [detail_section k (default "" (details !! k))])
    ++ detail_sections details keys.
Proof.
  unfold detail_sections. destruct (streq _ "") eqn:E.
  - apply streq_true in E. by rewrite filter_cons_False by (rewrite E; tauto).
  - apply streq_false in E. by rewrite filter_cons_True.
Qed.

Lemma detail_loop_spec details budget keys pre omitted :
  (∀ x, x ∈ pre → x ≠ "") → slen (Join pre newline) <= Z.max 0 budget →
  let secs := detail_sections details keys in
  ∃ shown, shown `sublist_of` secs
    ∧ detail_loop details budget keys (Join pre newline) omitted
      = (Join (pre ++ shown) newline, omitted + (Z.of_nat (length secs) - Z.of_nat (length shown)))
    ∧ slen (Join (pre ++ shown) newline) <= Z.max 0 budget
    ∧ (slen (Join (pre ++ secs) newline) <= budget → shown = secs).
Proof.
  revert pre omitted. induction keys as [|k keys IH]; intros pre omitted Hpre Hlen.
  { exists []. rewrite app_nil_r, Z.add_0_r. split_and!; [constructor|done..]. }
  cbn zeta. rewrite detail_sections_cons. cbn [detail_loop]. cbv zeta. destruct (streq _ "") eqn:Ev; [by apply IH|].
  set (sec := detail_section k (default "" (details !! k))).
  assert (Hsep : (if 0 <? slen (Join pre newline) then newline else "") = match pre with [] => "" | _ => newline end).
  { destruct pre as [|x pre]; [done|]. pose proof (Join_nonempty (x :: pre) newline ltac:(done) Hpre).
    by destruct (Z.ltb_spec 0 (slen (Join (x :: pre) newline))); [|lia]. }
  rewrite Hsep. assert (HJ : Join (pre ++ [sec]) newline = Join pre newline +:+ match pre with [] => "" | _ => newline end +:+ sec) by apply Join_snoc.
  rewrite <- HJ. replace (slen (Join pre newline) + slen (match pre with [] => "" | _ => newline end) + slen sec)
    with (slen (Join (pre ++ [sec]) newline)) by (rewrite HJ, !slen_app; lia).
  destruct (Z.ltb_spec budget (slen (Join (pre ++ [sec]) newline))) as [Hlt|Hge].
  - destruct (IH pre (omitted + 1) Hpre Hlen) as (shown & Hsub & -> & Hb & _). exists shown. split_and!.
    + by constructor.
    + f_equal. cbn [app length]. lia.
    + done.
    + intros Hall. exfalso. cbn [app] in Hall.
      assert (Hmono : ∀ l, slen (Join (pre ++ [sec]) newline) <= slen (Join ((pre ++ [sec]) ++ l) newline)).
      { induction l as [|x l IHl] using rev_ind; [by rewrite app_nil_r|]. etrans; [exact IHl|].
        rewrite (app_assoc _ l), Join_snoc, !slen_app. pose proof (slen_nonneg x).
        match goal with |- context[slen (match ?l with _ => _ end)] => pose proof (slen_nonneg (match l with [] => "" | _ => newline end)) end. lia. }
      specialize (Hmono (detail_sections details keys)). rewrite <- app_assoc in Hmono. cbn [app] in Hmono. lia.
  - destruct (IH (pre ++ [sec]) omitted) as (shown & Hsub & -> & Hb & Hfit).
    { intros x [Hx| ->%list_elem_of_singleton]%elem_of_app; [by apply Hpre|apply detail_section_nonempty]. }
    { lia. }
    exists (sec :: shown). rewrite <- !app_assoc in Hb, Hfit |- *. cbn [app length] in *. split_and!.
    + by constructor.
    + f_equal. lia.
    + done.
    + intros Hall. f_equal. by apply Hfit.
Qed.

Lemma omittedLine_mono n m : 1 <= n <= m → slen (omittedLine n) <= slen (omittedLine m).
Proof.
  intros Hn. unfold omittedLine. destruct (Z.eqb_spec n 1) as [->|].
  - destruct (Z.eqb_spec m 1); [done|]. rewrite !slen_app. pose proof (Itoa_mono 1 m). change (slen (Itoa 1)) with 1 in *.
    change (slen "_1 section omitted to fit Slack's size limit_") with 45.
    change (slen " sections omitted to fit Slack's size limit_") with 44. change (slen "_") with 1. lia.
  - destruct (Z.eqb_spec m 1); [lia|]. rewrite !slen_app. pose proof (Itoa_mono n m). lia.
Qed.

(** What is shown, and the closing line. *)
Lemma slackDetailBody_shape a :
  let keys := orderedDetails a.(a_Details) in
  let secs := detail_sections a.(a_Details) keys in
  let budget := attachmentTextLimit - slen (newline +:+ omittedLine (Z.of_nat (length keys))) in
  ∃ shown rest, shown `sublist_of` secs ∧ slackDetailBody a = Join (shown ++ rest) newline
    ∧ slen (Join shown newline) <= Z.max 0 budget
    ∧ (slen (Join secs newline) <= budget → shown = secs)
    ∧ (rest = [] ∧ shown = secs
       ∨ rest = [omittedLine (Z.of_nat (length secs) - Z.of_nat (length shown))] ∧ (length shown < length secs)%nat).
Proof.
  intros keys secs budget. unfold slackDetailBody. fold keys budget.
  destruct (detail_loop_spec (a_Details a) budget keys [] 0) as (shown & Hsub & E & Hlen & Hfit); [set_solver|unfold slen; simpl; lia|].
  change (Join [] newline) with "" in E. rewrite E. cbn [app] in *. fold secs in Hsub, Hfit |- *. rewrite Z.add_0_l.
  pose proof (sublist_length _ _ Hsub). destruct (Z.ltb_spec 0 (Z.of_nat (length secs) - Z.of_nat (length shown))) as [Hom|Hom].
  - exists shown. eexists. split_and!; [done| |done|done|right; split; [done|lia]]. rewrite Join_snoc.
    destruct shown as [|x shown]; [done|]. rewrite (proj2 (Z.ltb_lt 0 _)); [by rewrite string_app_assoc|].
    apply Join_nonempty; [done|]. intros y Hy. eapply detail_sections_nonempty, elem_of_sublist; [exact Hy|exact Hsub].
  - exists shown, []. rewrite app_nil_r. split_and!; [done..|left]. split; [done|]. apply sublist_whole; [done|lia].
Qed.

Lemma detail_sections_length details keys : (length (detail_sections details keys) <= length keys)%nat.
Proof. unfold detail_sections. rewrite length_fmap. apply length_filter. Qed.

(** C17: the attachment body keeps to Slack's cap and leaves nothing out silently. It consists
    of whole sections, in the curated order, one for each detail of the alert that is not empty;
    if some did not fit, a closing line says how many. When everything fits, everything is
    shown. *)
Theorem detail_body_accounts a :
  Z.of_nat (size a.(a_Details)) < 2 ^ 63 →
  let keys := orderedDetails a.(a_Details) in
  let secs := detail_sections a.(a_Details) keys in
  slen (slackDetailBody a) <= attachmentTextLimit
  ∧ keys ≡ₚ (map_to_list a.(a_Details)).*1
  ∧ ∃ shown rest, shown `sublist_of` secs ∧ slackDetailBody a = Join (shown ++ rest) newline
      ∧ (rest = [] ∧ shown = secs
         ∨ rest = [omittedLine (Z.of_nat (length secs) - Z.of_nat (length shown))] ∧ (length shown < length secs)%nat)
      ∧ (slen (Join secs newline) + slen (newline +:+ omittedLine (Z.of_nat (length keys))) <= attachmentTextLimit → shown = secs).
Proof.
  intros Hsize keys secs.
  assert (Hkeys : keys ≡ₚ (map_to_list (a_Details a)).*1) by (unfold keys; by rewrite orderedDetails_perm, range_perm).
  assert (Hlk : length keys = size (a_Details a)) by (by rewrite Hkeys, length_fmap, length_map_to_list).
  pose proof (detail_sections_length (a_Details a) keys) as Hls. fold secs in Hls.
  destruct (slackDetailBody_shape a) as (shown & rest & Hsub & -> & Hlen & Hfit & Hrest). fold keys secs in Hsub, Hlen, Hfit, Hrest.
  assert (Hline : ∀ n, 1 <= n <= Z.of_nat (length keys) → slen (omittedLine n) <= slen (omittedLine (Z.of_nat (length keys))) <= 64).
  { intros n Hn. split; [by apply omittedLine_mono|]. change 64 with (slen (omittedLine (2 ^ 63))). apply omittedLine_mono. lia. }
  rewrite slen_app in Hlen, Hfit. change (slen newline) with 1 in *. unfold attachmentTextLimit in *.
  split_and!; [|done|exists shown, rest; rewrite slen_app; change (slen newline) with 1; split_and!; try done; intros; apply Hfit; lia].
  destruct Hrest as [[-> ->]|[-> Hlt]].
  - rewrite app_nil_r. destruct (decide (length keys = 0%nat)) as [E|]; [rewrite E in *|specialize (Hline 1 ltac:(lia))].
    + change (slen (omittedLine (Z.of_nat 0))) with 46 in Hlen. lia.
    + pose proof (slen_nonneg (omittedLine (Z.of_nat (length keys)))). lia.
  - specialize (Hline (Z.of_nat (length secs) - Z.of_nat (length shown)) ltac:(lia)). rewrite Join_snoc, !slen_app.
    assert (slen (match shown with [] => "" | _ => newline end) <= 1) by (by destruct shown). lia.
Qed.
End detail_body.

(** Three long logs, of which two fit. *)
Definition long_log : string := of_chars (replicate 2900 "<"%char).
Definition long_alert : Alert :=
  with_Details {["Pod Logs Before Restart" := long_log; "Pod Events" := long_log; "extra" := long_log]} zero_alert.

Lemma detail_body_accounts_witness :
  slen (slackDetailBody long_alert) <= attachmentTextLimit
  ∧ HasPrefix (slackDetailBody long_alert) "*Pod Events:*" = true
  ∧ HasSuffix (slackDetailBody long_alert) "_1 section omitted to fit Slack's size limit_" = true.
Proof.
  split; [apply (detail_body_accounts long_alert); vm_compute; reflexivity|].
  split; vm_compute; reflexivity.
Defined.

(** ** Inert texts *)

#[local] Create HintDb inert.
#[local] Hint Resolve slackEscape_inert inert_plain : inert.
#[local] Hint Extern 1 (_ = true) => reflexivity : inert.
Ltac inert := repeat (apply inert_app; [done|auto with inert|]); auto with inert.

Lemma Itoa_plain z : plain_text (Itoa z) = true.
Proof.
  assert (Hgo : ∀ n s, plain_text s = true → plain_text (pretty_N_go n s) = true).
  { intros n. induction (N.lt_wf_0 n) as [n _ IH]; intros s Hs. destruct (decide (0 < n)%N).
    - rewrite pretty_N_go_step by done. apply IH; [by apply N.div_lt|].
      change (plain (pretty_N_char (n `mod` 10)) && plain_text s = true). rewrite Hs, andb_true_r.
      unfold pretty_N_char. by repeat case_match.
    - assert (n = 0%N) as -> by lia. done. }
  assert (Hp : ∀ p, plain_text (pretty_N (N.pos p)) = true) by (intros p; unfold pretty_N; case_decide; [done|by apply Hgo]).
  unfold Itoa. destruct z as [|p|p]; [done|exact (Hp p)|].
  change (plain "-" && plain_text (pretty_N (N.pos p)) = true). by rewrite Hp.
Qed.

Lemma omittedLine_inert n : inert Mrkdwn (omittedLine n) = true.
Proof. unfold omittedLine. destruct (n =? 1); [done|]. inert. apply inert_plain, Itoa_plain. Qed.

Lemma Join_inert d l sep :
  d ≠ Markdown → inert d sep = true → (∀ x, x ∈ l → inert d x = true) → inert d (Join l sep) = true.
Proof.
  intros Hd Hsep Hl. induction l as [|x l IH]; [by destruct d|]. rewrite Join_cons.
  apply inert_app; [done|apply Hl; left|]. destruct l; [by destruct d|]. apply inert_app; [done|done|].
  apply IH. intros y Hy. apply Hl. by right.
Qed.

Lemma detail_section_inert k v : inert Mrkdwn (detail_section k v) = true.
Proof.
  unfold detail_section. inert. apply fenced_tail.
Qed.

Lemma slackDetailBody_inert `{MapRange} a : inert Mrkdwn (slackDetailBody a) = true.
Proof.
  destruct (slackDetailBody_shape a) as (shown & rest & Hsub & -> & _ & _ & Hrest). apply Join_inert; [done|done|].
  intros x [Hx|Hx]%elem_of_app.
  - eapply elem_of_sublist, list_elem_of_fmap in Hx as (k & -> & _); [apply detail_section_inert|exact Hsub].
  - destruct Hrest as [[-> _]|[-> _]]; [by apply elem_of_nil in Hx|]. apply list_elem_of_singleton in Hx as ->. apply omittedLine_inert.
Qed.

(** ** The blocks *)

Section blocks.
Context `{SlackTime}.

Definition block_texts (b : Block) : list TextBlockObject :=
  match b with
  | NewHeaderBlock t | NewActionBlock _ _ _ t _ => [t]
  | NewSectionBlock t fields => option_list t ++ fields
  | NewContextBlock _ elements => elements
  end.

(** What Slack accepts of a block, and what it may link to. *)
Definition block_fits (b : Block) : Prop :=
  match b with
  | NewHeaderBlock t => slen t.(tb_Text) <= headerLimit
  | NewSectionBlock (Some t) _ => slen t.(tb_Text) <= sectionTextLimit
  | NewActionBlock _ _ _ _ url => safeRunbookURL url = true
  | _ => True
  end.

Lemma code_field_inert label value :
  inert Mrkdwn label = true → inert Mrkdwn (tb_Text (code_field label value)) = true.
Proof. intros Hl. cbn [code_field tb_Text]. inert. apply slackCode_span. Qed.

Lemma buildSlackBlocks_inert a b :
  plain_text a.(a_Fingerprint) = true → b ∈ buildSlackBlocks a →
  block_fits b ∧ ∀ t, t ∈ block_texts b → t.(tb_Type) = MarkdownType → inert Mrkdwn t.(tb_Text) = true.
Proof.
  intros Hfp. unfold buildSlackBlocks. rewrite elem_of_app.
  destruct (headEscaped_spec (a_Summary a) (sectionTextLimit - slen summaryPrefix)) as (p & _ & Hhead & Hlen).
  assert (Hruns : ∀ b, b ∈ (let '(u, ok) := runbook a in if ok then [NewActionBlock "" "runbook" "open" (NewTextBlockObject PlainTextType "📖 Runbook" false false) u] else []) →
    block_fits b ∧ ∀ t, t ∈ block_texts b → tb_Type t = MarkdownType → inert Mrkdwn (tb_Text t) = true).
  { clear. intros b. destruct (runbook a) as [u ok] eqn:E. destruct ok; [|by intros Hb%elem_of_nil].
    intros ->%list_elem_of_singleton. split; [|by intros t ->%list_elem_of_singleton]. unfold runbook in E. by injection E as <-. }
  intros [Hb|Hb]; [|by apply Hruns]. repeat (apply elem_of_cons in Hb as [->|Hb]); [..|by apply elem_of_nil in Hb].
  - split; [apply (Head_prefix _ headerLimit)|by intros t ->%list_elem_of_singleton].
  - split; [done|]. intros t. cbn [block_texts option_list app]. intros Ht _.
    repeat (apply elem_of_cons in Ht as [->|Ht]; [by apply code_field_inert|]).
    destruct (negb (streq (a_NodeName a) "")); [|by apply elem_of_nil in Ht].
    apply list_elem_of_singleton in Ht as ->. by apply code_field_inert.
  - split.
    + cbn [block_fits tb_Text]. rewrite Hhead, slen_app. change (slen summaryPrefix) with 11 in *. unfold sectionTextLimit in *. lia.
    + intros t ->%list_elem_of_singleton _. cbn [tb_Text]. rewrite Hhead. inert.
  - split; [done|]. intros t ->%list_elem_of_singleton _. cbn [tb_Text]. inert. apply inert_plain, FormatMST_plain.
Qed.
End blocks.
