(* ===== verification/Httpx.v ===== *)
(** * internal/httpx: retries and the egress guard

    Models internal/httpx/httpx.go. The outcomes of the attempts, of the sleeps and of the
    random jitter are arguments; [net/url], [net.ParseIP] and the resolver are the class
    [NetLib]. Addresses are byte lists of length 4 or 16, as [net.IP] is. *)
From S2P Require Import Prelude GoStd Text.

(** ** Errors *)

Inductive go_error :=
  | StatusError (status : Z) (url : string) (retryAfter : duration)
  | HTTPStatusCode (code : Z)               (** a third-party error that exposes a status *)
  | Canceled
  | DeadlineExceeded
  | TransportError (dest : string) (inner : go_error)
  | Wrapped (context : string) (inner : go_error)  (** [fmt.Errorf] with [%w] *)
  | OtherError (msg : string).

(** [errors.As(err, &se)]: the first [statusError] of the chain. *)
Fixpoint as_status (e : go_error) : option (Z * duration) :=
  match e with
  | StatusError s _ ra => Some (s, ra)
  | TransportError _ e => as_status e
  | Wrapped _ e => as_status e
  | _ => None
  end.

Fixpoint as_status_code (e : go_error) : option Z :=
  match e with
  | HTTPStatusCode c => Some c
  | TransportError _ e => as_status_code e
  | Wrapped _ e => as_status_code e
  | _ => None
  end.

(** [errors.Is(err, context.Canceled) || errors.Is(err, context.DeadlineExceeded)]. *)
Fixpoint is_context_error (e : go_error) : bool :=
  match e with
  | Canceled | DeadlineExceeded => true
  | TransportError _ e => is_context_error e
  | Wrapped _ e => is_context_error e
  | _ => false
  end.

Definition isRetriableStatus (code : Z) : bool :=
  existsb (Z.eqb code) [408; 425; 429; 500; 502; 503; 504].

Definition isRetriableErr (e : go_error) : bool := negb (is_context_error e).

Definition retriable (e : go_error) : bool :=
  match as_status e with
  | Some (s, _) => isRetriableStatus s
  | None => match as_status_code e with
            | Some c => isRetriableStatus c
            | None => isRetriableErr e
            end
  end.

(** ** Backoff *)

Definition DefaultTimeout : duration := 10 * Second.

Record RetryPolicy := MkPolicy { MaxAttempts : Z; BaseDelay : duration; MaxDelay : duration }.
Definition DefaultRetry : RetryPolicy := MkPolicy 3 (200 * Millisecond) Second.

Definition capDuration (d ceiling : duration) : duration :=
  if (ceiling <=? 0) || (d <=? ceiling) then d else ceiling.

(** [float64(z)] of a positive integer: the 53 leading bits, ties to even. *)
Definition to_float (z : Z) : Z :=
  if z <? 2 ^ 53 then z
  else let e := Z.log2 z - 52 in
       let q := z / 2 ^ e in
       let r := z mod 2 ^ e in
       if (r <? 2 ^ (e - 1)) || ((r =? 2 ^ (e - 1)) && Z.even q) then q * 2 ^ e else (q + 1) * 2 ^ e.

Section backoff.
(** Go leaves the conversion of an out-of-range float to the platform. *)
Variable float_overflow : Z → duration.

Definition of_float (x : Z) : duration := if (- 2 ^ 63 <=? x) && (x <? 2 ^ 63) then x else float_overflow x.

(** [random] is the value of [rand.Int64N(d/2+1)]; [int(1) << n] wraps. *)
Definition backoff_base (p : RetryPolicy) (attempt : Z) : duration :=
  let base := if p.(BaseDelay) <=? 0 then 200 * Millisecond else p.(BaseDelay) in
  capDuration (of_float (to_float base * wrap64 (Z.shiftl 1 (attempt - 1)))) p.(MaxDelay).

Definition backoffDelay (p : RetryPolicy) (attempt : Z) (lastErr : go_error) (random : Z) : duration :=
  match as_status lastErr with
  | Some (_, ra) => if 0 <? ra then capDuration ra p.(MaxDelay)
                    else Z.quot (backoff_base p attempt) 2 + random
  | None => Z.quot (backoff_base p attempt) 2 + random
  end.

(** ** The retry loop *)

(** What one call of [Retry] meets: the outcome of attempt [i], and for the sleep before
    attempt [i] the jitter and whether the context ended it. *)
Record world := MkWorld {
  w_fn : nat → option go_error;
  w_ctx : nat → option go_error;
  w_random : nat → Z;
}.

(** [sleepWithCtx]. *)
Definition sleepWithCtx (w : world) (attempt : nat) (d : duration) : option go_error :=
  if d <=? 0 then None else w.(w_ctx) attempt.

Record retried := MkRetried { re_err : option go_error; re_calls : nat; re_slept : list duration }.

(** The loop from [attempt], with [todo] attempts to go. *)
Fixpoint retry_loop (p : RetryPolicy) (w : world) (todo attempt : nat) (lastErr : option go_error)
    (slept : list duration) : retried :=
  match todo with
  | O => MkRetried (Wrapped ("after " +:+ Itoa p.(MaxAttempts) +:+ " attempts: ") <$> lastErr) attempt slept
  | S todo =>
    let d := backoffDelay p (Z.of_nat attempt) (default (OtherError "") lastErr) (w.(w_random) attempt) in
    let slept := if (0 <? attempt)%nat then slept ++ [d] else slept in
    match (if (0 <? attempt)%nat then sleepWithCtx w attempt d else None) with
    | Some err => MkRetried (Some err) attempt slept
    | None =>
      match w.(w_fn) attempt with
      | None => MkRetried None (S attempt) slept
      | Some err => if negb (retriable err) then MkRetried (Some err) (S attempt) slept
                    else retry_loop p w todo (S attempt) (Some err) slept
      end
    end
  end.

(** [Retry]'s first lines: at least one attempt. *)
Definition effective (p : RetryPolicy) : RetryPolicy :=
  if p.(MaxAttempts) <? 1 then MkPolicy 1 p.(BaseDelay) p.(MaxDelay) else p.

Definition Retry (p : RetryPolicy) (w : world) : retried :=
  let p := effective p in
  retry_loop p w (Z.to_nat p.(MaxAttempts)) 0 None [].
End backoff.

(** [parseRetryAfter]; [date] is [time.Until] of a parseable HTTP date. *)
Definition parseRetryAfter (h : string) (date : option duration) : duration :=
  if streq h "" then 0
  else match Atoi h with
       | Some secs => if 0 <=? secs then Seconds secs
                      else match date with Some d => if 0 <? d then d else 0 | None => 0 end
       | None => match date with Some d => if 0 <? d then d else 0 | None => 0 end
       end.

(** ** Addresses ([net.IP]) *)

Abbreviation IP := (list Z) (only parsing).

Definition v4InV6Prefix : IP := [0; 0; 0; 0; 0; 0; 0; 0; 0; 0; 255; 255].

Definition To4 (ip : IP) : option IP :=
  if (length ip =? 4)%nat then Some ip
  else if (length ip =? 16)%nat && bool_decide (take 12 ip = v4InV6Prefix) then Some (drop 12 ip) else None.

Definition at_ (ip : IP) (i : nat) : Z := nth i ip 0.

Definition IsLinkLocalUnicast (ip : IP) : bool :=
  match To4 ip with
  | Some v4 => (at_ v4 0 =? 169) && (at_ v4 1 =? 254)
  | None => (length ip =? 16)%nat && (at_ ip 0 =? 254) && (Z.land (at_ ip 1) 192 =? 128)
  end.

Definition IsLinkLocalMulticast (ip : IP) : bool :=
  match To4 ip with
  | Some v4 => (at_ v4 0 =? 224) && (at_ v4 1 =? 0) && (at_ v4 2 =? 0)
  | None => (length ip =? 16)%nat && (at_ ip 0 =? 255) && (Z.land (at_ ip 1) 15 =? 2)
  end.

(** [ip.Equal]: a 4-byte address equals its 16-byte form. *)
Definition ip_Equal (a b : IP) : bool :=
  bool_decide (a = b)
  || ((length a =? 4)%nat && bool_decide (v4InV6Prefix ++ a = b))
  || ((length b =? 4)%nat && bool_decide (a = v4InV6Prefix ++ b)).

Definition IPv6loopback : IP := [0; 0; 0; 0; 0; 0; 0; 0; 0; 0; 0; 0; 0; 0; 0; 1].
Definition IPv6unspecified : IP := replicate 16 0.
Definition IPv4zero : IP := v4InV6Prefix ++ [0; 0; 0; 0].

Definition IsLoopback (ip : IP) : bool :=
  match To4 ip with Some v4 => at_ v4 0 =? 127 | None => ip_Equal ip IPv6loopback end.

Definition IsPrivate (ip : IP) : bool :=
  match To4 ip with
  | Some v4 => (at_ v4 0 =? 10) || ((at_ v4 0 =? 172) && (Z.land (at_ v4 1) 240 =? 16))
               || ((at_ v4 0 =? 192) && (at_ v4 1 =? 168))
  | None => (length ip =? 16)%nat && (Z.land (at_ ip 0) 254 =? 252)
  end.

Definition IsUnspecified (ip : IP) : bool := ip_Equal ip IPv4zero || ip_Equal ip IPv6unspecified.

(** ** The guard *)

Inductive egress_error := ELinkLocal (ip : IP) | EPrivate (ip : IP) | EInvalidURL | EScheme (scheme : string) | ENoHost.

Definition ipBlocked (ip : IP) (strict : bool) : option egress_error :=
  if IsLinkLocalUnicast ip || IsLinkLocalMulticast ip then Some (ELinkLocal ip)
  else if strict && (IsLoopback ip || IsPrivate ip || IsUnspecified ip) then Some (EPrivate ip)
  else None.

Class NetLib := {
  url_Parse : string → option (string * string * string); (** scheme, host, hostname *)
  ParseIP : string → option IP;
  LookupIPAddr : string → option (list IP);
}.

Definition strictEgressEnv : string := "ALERTKUBE_STRICT_WEBHOOK_EGRESS".
Definition strictEgress (getenv : string → string) : bool := streq (ToLower (getenv strictEgressEnv)) "true".

Section guard.
Context `{NetLib}.

Definition guardDest (strict : bool) (dest : string) : option egress_error :=
  match url_Parse dest with
  | None => Some EInvalidURL
  | Some (scheme, _, host) =>
    if negb (streq scheme "http") && negb (streq scheme "https") then Some (EScheme scheme)
    else if streq host "" then Some ENoHost
    else match ParseIP host with
         | Some ip => ipBlocked ip strict
         | None => match LookupIPAddr host with
                   | None => None
                   | Some addrs => first_error (λ a, ipBlocked a strict) addrs
                   end
         end
  end.

(** The dialer's [Control] hook, for the host part of the address being connected. *)
Definition dial_control (strict : bool) (host : string) : option egress_error :=
  match ParseIP host with Some ip => ipBlocked ip strict | None => None end.

Definition sanitizeURL (raw : string) : string :=
  match url_Parse raw with
  | Some (scheme, host, _) => if streq host "" then "[invalid-url]" else scheme +:+ "://" +:+ host +:+ "/[REDACTED]"
  | None => "[invalid-url]"
  end.

Definition newStatusError (status : Z) (rawURL retryAfterHeader : string) (date : option duration) : go_error :=
  StatusError status (sanitizeURL rawURL) (parseRetryAfter retryAfterHeader date).

(** [statusError.Error] and [transportError.Error]. *)
Definition statusError_Error (url : string) (status : Z) : string := "POST " +:+ url +:+ " returned " +:+ Itoa status.
Definition transportError_Error (dest : string) : string := "POST " +:+ sanitizeURL dest +:+ " failed".

(** What one attempt meets: the request cannot be built, the round trip fails, or a status
    arrives with its [Retry-After] header. *)
Inductive response :=
  | RequestFailed (err : go_error)
  | TransportFailed (err : go_error)
  | Status (code : Z) (retryAfter : string) (date : option duration).

Definition post_attempt (dest : string) (r : response) : option go_error :=
  match r with
  | RequestFailed err => Some err
  | TransportFailed err => Some (TransportError dest err)
  | Status code ra date => if code <? 400 then None else Some (newStatusError code dest ra date)
  end.

Inductive post_result := Sent (r : retried) | Refused (e : egress_error) | MarshalFailed | NoDestination.

Definition PostJSONWithHeaders (float_overflow : Z → duration) (strict : bool) (dest : string) (marshals : bool)
    (policy : RetryPolicy) (responses : nat → response) (ctx : nat → option go_error) (random : nat → Z) : post_result :=
  if streq dest "" then NoDestination
  else match guardDest strict dest with
       | Some e => Refused e
       | None =>
         if negb marshals then MarshalFailed
         else Sent (Retry float_overflow policy (MkWorld (λ i, post_attempt dest (responses i)) ctx random))
       end.

Definition PostJSON (float_overflow : Z → duration) (strict : bool) (dest : string) (marshals : bool)
    (responses : nat → response) (ctx : nat → option go_error) (random : nat → Z) : post_result :=
  PostJSONWithHeaders float_overflow strict dest marshals DefaultRetry responses ctx random.
End guard.

(** ** What a blocked address is *)

(** An address in 16 bytes, the networks in CIDR notation, and membership by prefix. *)
Definition To16 (ip : IP) : IP := if (length ip =? 4)%nat then v4InV6Prefix ++ ip else ip.

Definition valid_ip (ip : IP) : Prop := (length ip = 4%nat ∨ length ip = 16%nat) ∧ Forall (λ b, 0 <= b < 256) ip.

Abbreviation network := (list Z * nat)%type (only parsing).
Definition net4 (a b c d : Z) (bits : nat) : network := (v4InV6Prefix ++ [a; b; c; d], 96 + bits)%nat.
Definition net6 (a b : Z) (bits : nat) : network := (a :: b :: replicate 14 0, bits).

Definition in_net (ip : IP) (net : network) : bool :=
  let k := (net.2 / 8)%nat in
  let r := 8 - Z.of_nat (net.2 mod 8) in
  bool_decide (take k ip = take k net.1) && (Z.shiftr (at_ ip k) r =? Z.shiftr (at_ net.1 k) r).

(** Link-local: 169.254/16, fe80::/10, 224.0.0/24, and ff[x]2::/16 for every flag nibble. *)
Definition linklocal_unicast_nets : list network := [net4 169 254 0 0 16; net6 254 128 10].
Definition linklocal_multicast_nets : list network :=
  net4 224 0 0 0 24 :: map (λ flags, net6 255 (16 * flags + 2) 16) (seqZ 0 16).
Definition loopback_nets : list network := [net4 127 0 0 0 8; (IPv6loopback, 128%nat)].
Definition private_nets : list network := [net4 10 0 0 0 8; net4 172 16 0 0 12; net4 192 168 0 0 16; net6 252 0 7].
Definition unspecified_nets : list network := [net4 0 0 0 0 32; (IPv6unspecified, 128%nat)].

Definition blocked_nets (strict : bool) : list network :=
  linklocal_unicast_nets ++ linklocal_multicast_nets
  ++ (if strict then loopback_nets ++ private_nets ++ unspecified_nets else []).

(** * Theorems *)

(** ** Retries *)

(** What the loop guarantees, from any attempt. *)
Lemma retry_loop_spec ov p w todo attempt lastErr slept :
  let r := retry_loop ov p w todo attempt lastErr slept in
  (attempt <= r.(re_calls) <= attempt + todo)%nat
  ∧ (∀ i, (attempt <= i)%nat → (S i < r.(re_calls))%nat → ∃ e, w.(w_fn) i = Some e ∧ retriable e = true)
  ∧ ((attempt < r.(re_calls))%nat → (r.(re_err) = None ↔ w.(w_fn) (r.(re_calls) - 1)%nat = None))
  ∧ (r.(re_calls) = attempt → is_Some lastErr → is_Some r.(re_err)).
Proof.
  revert attempt lastErr slept. induction todo as [|todo IH]; intros attempt lastErr slept.
  { simpl. split_and!; [lia|lia|lia|lia|]. intros _ [e ->]. by eexists. }
  cbn [retry_loop]. set (d := backoffDelay _ _ _ _ _). cbv zeta.
  destruct (if (0 <? attempt)%nat then _ else None) as [err|]; [simpl; split_and!; [lia|lia|lia|lia|by eexists]|].
  destruct (w_fn w attempt) as [err|] eqn:Efn.
  - destruct (retriable err) eqn:Er; simpl.
    + specialize (IH (S attempt) (Some err) (if (0 <? attempt)%nat then slept ++ [d] else slept)). cbv zeta in IH.
      destruct (retry_loop _ _ _ _ _ _ _) as [e calls sl]. simpl in *. destruct IH as ([Hc1 Hc2] & Hr & He & Hs).
      split_and!; [lia|lia| | |lia].
      * intros i Hi Hlt. destruct (decide (i = attempt)) as [->|Hne]; [eauto|]. apply Hr; lia.
      * intros _. destruct (decide (S attempt < calls)%nat) as [Hlt|Hge]; [by apply He|].
        assert (calls = S attempt) as -> by lia. replace (S attempt - 1)%nat with attempt by lia. rewrite Efn.
        destruct (Hs eq_refl) as [x ->]; [by eexists|]. done.
    + split_and!; [lia|lia|lia| |lia]. intros _. by rewrite Nat.sub_0_r, Efn.
  - simpl. split_and!; [lia|lia|lia| |lia]. intros _. by rewrite Nat.sub_0_r, Efn.
Qed.

Lemma retry_loop_slept ov p w todo attempt lastErr slept d :
  d ∈ (retry_loop ov p w todo attempt lastErr slept).(re_slept) →
  d ∈ slept ∨ ∃ k e, (0 < k < attempt + todo)%nat ∧ d = backoffDelay ov p (Z.of_nat k) e (w.(w_random) k).
Proof.
  revert attempt lastErr slept. induction todo as [|todo IH]; intros attempt lastErr slept; [by left|].
  cbn [retry_loop]. set (d' := backoffDelay _ _ _ _ _). cbv zeta.
  set (slept' := if (0 <? attempt)%nat then slept ++ [d'] else slept).
  assert (Hin : d ∈ slept' → d ∈ slept ∨ ∃ k e, (0 < k < attempt + S todo)%nat ∧ d = backoffDelay ov p (Z.of_nat k) e (w_random w k)).
  { unfold slept'. destruct (Nat.ltb_spec 0 attempt); [|by left]. intros [Hd|Hd]%elem_of_app; [by left|]. apply list_elem_of_singleton in Hd as ->.
    right. exists attempt, (default (OtherError "") lastErr). split; [lia|done]. }
  destruct (if (0 <? attempt)%nat then _ else None) as [err|]; [done|].
  destruct (w_fn w attempt) as [err|]; [|done]. destruct (negb (retriable err)); [done|].
  intros [Hd|(k & e & Hk & ->)]%IH; [by apply Hin|]. right. exists k, e. split; [lia|done].
Qed.

Lemma retry_loop_slept_length ov p w todo attempt lastErr slept :
  (length slept <= pred attempt)%nat →
  (length (retry_loop ov p w todo attempt lastErr slept).(re_slept) <= pred (attempt + todo))%nat.
Proof.
  revert attempt lastErr slept. induction todo as [|todo IH]; intros attempt lastErr slept Hl; [simpl; lia|].
  cbn [retry_loop]. set (d' := backoffDelay _ _ _ _ _). cbv zeta.
  set (slept' := if (0 <? attempt)%nat then slept ++ [d'] else slept).
  assert (Hl' : (length slept' <= attempt)%nat).
  { unfold slept'. destruct (Nat.ltb_spec 0 attempt); [rewrite length_app; simpl|]; lia. }
  destruct (if (0 <? attempt)%nat then sleepWithCtx w attempt d' else None) as [err|]; [simpl; lia|].
  destruct (w_fn w attempt) as [err|]; [|simpl; lia].
  destruct (negb (retriable err)); [simpl; lia|].
  specialize (IH (S attempt) (Some err) slept' Hl'). lia.
Qed.

(** The delay stays between zero and the policy's ceiling. *)
Lemma backoff_bounded ov p attempt e random :
  0 < p.(MaxDelay) → 1 <= attempt → p.(BaseDelay) < 2 ^ 53 →
  (if p.(BaseDelay) <=? 0 then 200 * Millisecond else p.(BaseDelay)) * 2 ^ (attempt - 1) < 2 ^ 63 →
  0 <= random < Z.quot (backoff_base ov p attempt) 2 + 1 →
  0 <= backoffDelay ov p attempt e random <= p.(MaxDelay).
Proof.
  intros Hmax Hatt H53 Hov Hrand.
  assert (Hb : 0 <= backoff_base ov p attempt <= MaxDelay p).
  { unfold backoff_base. set (base := if BaseDelay p <=? 0 then _ else _) in *.
    assert (Hbase : 0 < base < 2 ^ 53) by (unfold base; destruct (Z.leb_spec (BaseDelay p) 0); unfold Millisecond; lia).
    assert (Hpow : 0 < 2 ^ (attempt - 1)) by (apply Z.pow_pos_nonneg; lia).
    rewrite Z.shiftl_1_l. rewrite wrap64_small by (unfold in64; nia).
    unfold to_float. rewrite (proj2 (Z.ltb_lt base (2 ^ 53))) by lia.
    assert (Hprod : 0 <= base * 2 ^ (attempt - 1) < 2 ^ 63) by nia.
    unfold of_float. rewrite (proj2 (Z.leb_le (- 2 ^ 63) _)), (proj2 (Z.ltb_lt _ (2 ^ 63))) by lia. simpl.
    unfold capDuration. rewrite (proj2 (Z.leb_gt (MaxDelay p) 0)) by lia. simpl.
    destruct (Z.leb_spec (base * 2 ^ (attempt - 1)) (MaxDelay p)); lia. }
  assert (Hq : 0 <= Z.quot (backoff_base ov p attempt) 2 ∧ 2 * Z.quot (backoff_base ov p attempt) 2 <= backoff_base ov p attempt).
  { rewrite Z.quot_div_nonneg by lia. pose proof (Z.mul_div_le (backoff_base ov p attempt) 2).
    split; [apply Z.div_pos; lia|lia]. }
  unfold backoffDelay. destruct (as_status e) as [[s ra]|]; [|lia].
  destruct (Z.ltb_spec 0 ra); [|lia]. unfold capDuration. rewrite (proj2 (Z.leb_gt (MaxDelay p) 0)) by lia. simpl.
  destruct (Z.leb_spec ra (MaxDelay p)); lia.
Qed.

(** A loop that makes no attempt was stopped in its sleep. *)
Lemma retry_loop_idle ov p w todo attempt lastErr slept :
  let r := retry_loop ov p w (S todo) attempt lastErr slept in
  r.(re_calls) = attempt → ∃ c, w.(w_ctx) attempt = Some c ∧ r.(re_err) = Some c.
Proof.
  cbn [retry_loop]. set (d := backoffDelay _ _ _ _ _). cbv zeta.
  set (slept' := if (0 <? attempt)%nat then slept ++ [d] else slept).
  destruct (if (0 <? attempt)%nat then sleepWithCtx w attempt d else None) as [c|] eqn:Ec.
  - intros _. exists c. split; [|done]. unfold sleepWithCtx in Ec. by repeat case_match.
  - destruct (w_fn w attempt) as [e'|]; [|simpl; lia]. destruct (negb (retriable e')); [simpl; lia|].
    pose proof (retry_loop_spec ov p w todo (S attempt) (Some e') slept') as ([? _] & _). intros Heq. lia.
Qed.

(** A loop that stops early on a retriable failure was stopped by the context. *)
Lemma retry_loop_persists ov p w todo attempt lastErr slept e :
  let r := retry_loop ov p w todo attempt lastErr slept in
  (attempt < r.(re_calls) < attempt + todo)%nat →
  w.(w_fn) (r.(re_calls) - 1)%nat = Some e → retriable e = true →
  ∃ c, w.(w_ctx) r.(re_calls) = Some c ∧ r.(re_err) = Some c.
Proof.
  revert attempt lastErr slept. induction todo as [|todo IH]; intros attempt lastErr slept; [simpl; lia|].
  cbn [retry_loop]. set (d := backoffDelay _ _ _ _ _). cbv zeta.
  set (slept' := if (0 <? attempt)%nat then slept ++ [d] else slept).
  destruct (if (0 <? attempt)%nat then sleepWithCtx w attempt d else None) as [err|]; [simpl; lia|].
  destruct (w_fn w attempt) as [err|] eqn:Efn; [|simpl; intros _; rewrite Nat.sub_0_r, Efn; done].
  destruct (retriable err) eqn:Er; simpl; [|intros _; rewrite Nat.sub_0_r, Efn; congruence].
  specialize (IH (S attempt) (Some err) slept'). cbv zeta in IH. intros Hc He Hr.
  destruct (decide (re_calls (retry_loop ov p w todo (S attempt) (Some err) slept') = S attempt)) as [Heq|Hne];
    [|apply IH; [lia|done|done]].
  destruct todo as [|todo]; [simpl in Hc; lia|]. rewrite Heq. by apply retry_loop_idle.
Qed.

(** The first attempt needs no sleep. *)
Lemma retry_loop_first ov p w todo :
  (0 < todo)%nat → (1 <= (retry_loop ov p w todo 0 None []).(re_calls))%nat.
Proof.
  destruct todo as [|todo]; [lia|]. intros _. cbn [retry_loop]. cbn.
  destruct (w_fn w 0) as [err|]; [|simpl; lia]. destruct (negb (retriable err)); [simpl; lia|].
  pose proof (retry_loop_spec ov p w todo 1 (Some err) []) as ([? _] & _). lia.
Qed.

Lemma Retry_unfold ov p w :
  Retry ov p w = retry_loop ov (effective p) w (Z.to_nat (Z.max 1 p.(MaxAttempts))) 0 None [].
Proof. unfold Retry, effective. destruct (Z.ltb_spec (MaxAttempts p) 1); cbv zeta; f_equal; simpl; lia. Qed.

(** ** The egress guard *)

(** A property of a byte is checked on all 256. *)
Lemma byte_check (P : Z → bool) : forallb P (seqZ 0 256) = true → ∀ b, 0 <= b < 256 → P b = true.
Proof. rewrite forallb_forall. intros HP b Hb. apply HP, list_elem_of_In, elem_of_seqZ. lia. Qed.

(** The two shapes of an address. *)
Lemma ip_shape ip :
  valid_ip ip →
  (∃ a b c d, To4 ip = Some [a; b; c; d] ∧ To16 ip = v4InV6Prefix ++ [a; b; c; d] ∧ Forall (λ x, 0 <= x < 256) [a; b; c; d])
  ∨ (To4 ip = None ∧ To16 ip = ip ∧ length ip = 16%nat ∧ take 12 ip ≠ v4InV6Prefix).
Proof.
  intros [[Hl|Hl] Hb].
  - left. destruct ip as [|a [|b [|c [|d [|]]]]]; try done. exists a, b, c, d. by split_and!.
  - unfold To4, To16. rewrite Hl. simpl. destruct (decide (take 12 ip = v4InV6Prefix)) as [Ht|Ht].
    + left. rewrite (bool_decide_eq_true_2 _ Ht). rewrite <- (take_drop 12 ip) in Hb.
      apply Forall_app in Hb as [_ Hb]. rewrite <- (take_drop 12 ip), Ht.
      assert (Hd : length (drop 12 ip) = 4%nat) by (rewrite length_drop; lia).
      destruct (drop 12 ip) as [|a [|b [|c [|d [|]]]]]; try done. exists a, b, c, d. by split_and!.
    + right. rewrite (bool_decide_eq_false_2 _ Ht). by split_and!.
Qed.

Lemma in_net4 l m n : in_net (v4InV6Prefix ++ l) (v4InV6Prefix ++ m, 96 + n)%nat = in_net l (m, n).
Proof.
  unfold in_net, fst, snd. replace (96 + n)%nat with (n + 12 * 8)%nat by lia.
  rewrite Nat.div_add, Nat.Div0.mod_add by lia. replace (n / 8 + 12)%nat with (length v4InV6Prefix + n / 8)%nat by (change (length v4InV6Prefix) with 12%nat; lia).
  unfold at_. rewrite !take_app_add, !app_nth2_plus. f_equal. apply bool_decide_ext. split; [apply app_inv_head|by intros ->].
Qed.

(** Outside the v4-mapped range no IPv4 network matches. *)
Lemma in_net4_not_mapped ip m n : take 12 ip ≠ v4InV6Prefix → in_net ip (v4InV6Prefix ++ m, 96 + n)%nat = false.
Proof.
  intros Hne. unfold in_net, fst, snd. apply andb_false_iff. left. apply bool_decide_eq_false. intros Ht. apply Hne.
  assert (Hk : (12 <= (96 + n) / 8)%nat)
    by (replace (96 + n)%nat with (n + 12 * 8)%nat by lia; rewrite Nat.div_add by lia; lia).
  apply (f_equal (take 12)) in Ht. rewrite !take_take, Nat.min_l in Ht by done. by rewrite Ht, take_app_length'.
Qed.

Lemma byte_shiftr8 b : 0 <= b < 256 → Z.shiftr b 8 = 0.
Proof. intros Hb. rewrite Z.shiftr_div_pow2 by lia. by apply Z.div_small. Qed.

Lemma byte_mask192 b : 0 <= b < 256 → (Z.land b 192 =? 128) = (Z.shiftr b 6 =? 2).
Proof. intros Hb. by apply Bool.eqb_prop, (byte_check (λ b, Bool.eqb (Z.land b 192 =? 128) (Z.shiftr b 6 =? 2))). Qed.

Lemma byte_mask240 b : 0 <= b < 256 → (Z.land b 240 =? 16) = (Z.shiftr b 4 =? 1).
Proof. intros Hb. by apply Bool.eqb_prop, (byte_check (λ b, Bool.eqb (Z.land b 240 =? 16) (Z.shiftr b 4 =? 1))). Qed.

Lemma byte_mask254 b : 0 <= b < 256 → (Z.land b 254 =? 252) = (Z.shiftr b 1 =? 126).
Proof. intros Hb. by apply Bool.eqb_prop, (byte_check (λ b, Bool.eqb (Z.land b 254 =? 252) (Z.shiftr b 1 =? 126))). Qed.

Lemma byte_flags b : 0 <= b < 256 → (Z.land b 15 =? 2) = existsb (λ f, b =? 16 * f + 2) (seqZ 0 16).
Proof.
  intros Hb. by apply Bool.eqb_prop,
    (byte_check (λ b, Bool.eqb (Z.land b 15 =? 2) (existsb (λ f, b =? 16 * f + 2) (seqZ 0 16)))).
Qed.

Lemma bool_decide_cons (a b : Z) l m : bool_decide (a :: l = b :: m) = (a =? b) && bool_decide (l = m).
Proof. apply eq_true_iff_eq. rewrite andb_true_iff, Z.eqb_eq, !bool_decide_eq_true. split; [by intros [= -> ->]|by intros [-> ->]]. Qed.

Lemma ip16 (ip : IP) : length ip = 16%nat → ∃ b0 b1 t, ip = b0 :: b1 :: t ∧ length t = 14%nat.
Proof. intros Hl. destruct ip as [|b0 [|b1 t]]; try done. exists b0, b1, t. split; [done|]. simpl in Hl. lia. Qed.

(** Evaluate the membership tests of an IPv4 address, or drop them. *)
Ltac eval_nets :=
  rewrite ?in_net4; unfold in_net, at_;
  cbn -[Z.shiftr Z.eqb bool_decide Z.land]; rewrite ?bool_decide_cons, ?byte_shiftr8 by done;
  rewrite ?andb_true_r, ?orb_false_r, ?andb_false_r.

(** The same for an address outside the IPv4 range. *)
Ltac eval_nets6 Hv Hl Hne :=
  rewrite ?in_net4_not_mapped by exact Hne;
  destruct (ip16 _ Hl) as (b0 & b1 & t & -> & Ht);
  destruct Hv as [_ Hv]; rewrite !Forall_cons in Hv; destruct Hv as (Hb0 & Hb1 & _);
  eval_nets; rewrite ?Ht; cbn [length Nat.eqb andb].

Ltac by_nets ip Hv :=
  destruct (ip_shape ip Hv) as [(a & b & c & d & -> & -> & Hb)|(-> & -> & Hl & Hne)];
  [rewrite !Forall_cons in Hb; destruct Hb as (Ha & Hb & Hc & Hd & _); eval_nets | eval_nets6 Hv Hl Hne].

Lemma unicast_nets ip :
  valid_ip ip → IsLinkLocalUnicast ip = existsb (in_net (To16 ip)) linklocal_unicast_nets.
Proof.
  intros Hv. unfold IsLinkLocalUnicast, linklocal_unicast_nets, net4, net6. cbn [existsb].
  by_nets ip Hv; [done|]. by rewrite byte_mask192.
Qed.

Lemma multicast6_nets b0 b1 t flags :
  0 <= at_ t 0 < 256 →
  existsb (in_net (b0 :: b1 :: t)) (map (λ f, net6 255 (16 * f + 2) 16) flags)
  = (b0 =? 255) && existsb (λ f, b1 =? 16 * f + 2) flags.
Proof.
  intros Ht. induction flags as [|f flags IH]; cbn [existsb map]; [by rewrite andb_false_r|].
  rewrite IH. unfold in_net, net6, at_ in *. cbn -[Z.shiftr Z.eqb bool_decide Z.mul Z.add].
  rewrite !bool_decide_cons, byte_shiftr8 by done. cbn -[Z.eqb Z.mul Z.add].
  destruct (b0 =? 255); [|done]. cbn -[Z.eqb Z.mul Z.add]. by rewrite !andb_true_r.
Qed.

Lemma multicast_nets ip :
  valid_ip ip → IsLinkLocalMulticast ip = existsb (in_net (To16 ip)) linklocal_multicast_nets.
Proof.
  intros Hv. unfold IsLinkLocalMulticast, linklocal_multicast_nets. cbn [existsb].
  destruct (ip_shape ip Hv) as [(a & b & c & d & -> & -> & Hb)|(-> & -> & Hl & Hne)].
  - rewrite !Forall_cons in Hb. destruct Hb as (Ha & Hb & Hc & Hd & _).
    change (v4InV6Prefix ++ [a; b; c; d]) with (0 :: 0 :: drop 2 v4InV6Prefix ++ [a; b; c; d]) at 2.
    rewrite multicast6_nets by done. unfold net4. eval_nets. by rewrite andb_assoc.
  - unfold net4. rewrite in_net4_not_mapped by done. destruct (ip16 _ Hl) as (b0 & b1 & t & -> & Ht).
    destruct Hv as [_ Hv]. rewrite !Forall_cons in Hv. destruct Hv as (Hb0 & Hb1 & Hv).
    rewrite multicast6_nets, byte_flags; [cbn; by rewrite Ht|done|].
    destruct t; [done|]. by apply Forall_inv in Hv.
Qed.

(** Equality with a 16-byte address, and a network of one address. *)
Lemma ip_Equal_16 (ip b : IP) : valid_ip ip → length b = 16%nat → ip_Equal ip b = bool_decide (To16 ip = b).
Proof.
  intros [[Hl|Hl] _] Hb; unfold ip_Equal, To16; rewrite Hl, Hb; simpl.
  - rewrite (bool_decide_eq_false_2 (ip = b)) by (intros ->; lia). by rewrite orb_false_r.
  - by rewrite !orb_false_r.
Qed.

Lemma To16_length ip : valid_ip ip → length (To16 ip) = 16%nat.
Proof. intros [[Hl|Hl] _]; unfold To16; rewrite Hl; [simpl; by rewrite Hl|done]. Qed.

Lemma in_net_exact (ip n : IP) : length ip = 16%nat → length n = 16%nat → in_net ip (n, 128%nat) = bool_decide (ip = n).
Proof.
  intros Hl Hn. unfold in_net, fst, snd, at_. change (128 / 8)%nat with 16%nat.
  rewrite !take_ge, !nth_overflow by lia. by rewrite Z.eqb_refl, andb_true_r.
Qed.

Lemma loopback_nets_spec ip : valid_ip ip → IsLoopback ip = existsb (in_net (To16 ip)) loopback_nets.
Proof.
  intros Hv. unfold IsLoopback, loopback_nets. cbn [existsb].
  rewrite in_net_exact by (done || by apply To16_length). rewrite orb_false_r.
  rewrite ip_Equal_16 by done. unfold net4.
  destruct (ip_shape ip Hv) as [(a & b & c & d & -> & -> & Hb)|(-> & -> & Hl & Hne)].
  - rewrite !Forall_cons in Hb. destruct Hb as (Ha & Hb & Hc & Hd & _). by eval_nets.
  - by rewrite in_net4_not_mapped.
Qed.

Lemma private_nets_spec ip : valid_ip ip → IsPrivate ip = existsb (in_net (To16 ip)) private_nets.
Proof.
  intros Hv. unfold IsPrivate, private_nets, net4, net6. cbn [existsb].
  by_nets ip Hv; [by rewrite byte_mask240, ?orb_assoc|]. by rewrite byte_mask254.
Qed.

Lemma unspecified_nets_spec ip : valid_ip ip → IsUnspecified ip = existsb (in_net (To16 ip)) unspecified_nets.
Proof.
  intros Hv. unfold IsUnspecified, unspecified_nets, net4. cbn [existsb].
  change (96 + 32)%nat with 128%nat. rewrite !in_net_exact, !ip_Equal_16 by (done || by apply To16_length).
  by rewrite orb_false_r.
Qed.

(** The classification is membership in the listed networks, in either form of an address. *)
Lemma ipBlocked_nets ip strict :
  valid_ip ip → ipBlocked ip strict = None ↔ existsb (in_net (To16 ip)) (blocked_nets strict) = false.
Proof.
  intros Hv. unfold ipBlocked, blocked_nets. rewrite !existsb_app, <- unicast_nets, <- multicast_nets by done.
  destruct (IsLinkLocalUnicast ip), (IsLinkLocalMulticast ip); try done. cbn [orb]. destruct strict; [|done].
  rewrite !existsb_app, <- loopback_nets_spec, <- private_nets_spec, <- unspecified_nets_spec by done.
  by destruct (IsLoopback ip), (IsPrivate ip), (IsUnspecified ip).
Qed.

Section egress.
Context `{NetLib}.

(** The addresses [guardDest] looks at. *)
Definition candidates (host : string) : list IP :=
  match ParseIP host with Some ip => [ip] | None => default [] (LookupIPAddr host) end.

Lemma guardDest_candidates strict scheme authority host dest :
  url_Parse dest = Some (scheme, authority, host) → scheme = "http" ∨ scheme = "https" → host ≠ "" →
  guardDest strict dest = first_error (λ ip, ipBlocked ip strict) (candidates host).
Proof.
  intros Hu Hs Hh. unfold guardDest, candidates. rewrite Hu.
  assert (negb (streq scheme "http") && negb (streq scheme "https") = false) as -> by (by destruct Hs as [-> | ->]).
  rewrite (proj2 (streq_false host "")) by done.
  destruct (ParseIP host) as [ip|]; [cbn; by destruct (ipBlocked ip strict)|]. by destruct (LookupIPAddr host).
Qed.

(** C31: the egress guard. A destination passes [guardDest] exactly when it is an http or https
    URL with a host none of whose addresses (the literal one, or every resolved one) lies in a
    blocked network: always the link-local ranges with the metadata endpoint 169.254.169.254,
    under strict egress also loopback, private and unspecified, in the 4-byte and in the
    v4-mapped 16-byte form alike; and the check repeated when the connection is dialled decides
    by the same networks, so resolving again later cannot reach a blocked one. *)
Theorem egress_guard strict dest :
  (∀ s ip, ParseIP s = Some ip → valid_ip ip) →
  (∀ s ips, LookupIPAddr s = Some ips → Forall valid_ip ips) →
  (guardDest strict dest = None ↔
    ∃ scheme authority host, url_Parse dest = Some (scheme, authority, host) ∧ (scheme = "http" ∨ scheme = "https")
      ∧ host ≠ "" ∧ ∀ ip, ip ∈ candidates host → existsb (in_net (To16 ip)) (blocked_nets strict) = false)
  ∧ (∀ peer ip, ParseIP peer = Some ip →
      (dial_control strict peer = None ↔ existsb (in_net (To16 ip)) (blocked_nets strict) = false)).
Proof.
  intros Hparse Hlookup.
  assert (Hvalid : ∀ host ip, ip ∈ candidates host → valid_ip ip).
  { intros host ip. unfold candidates. destruct (ParseIP host) as [i|] eqn:E.
    - intros ->%list_elem_of_singleton. by eapply Hparse.
    - destruct (LookupIPAddr host) as [ips|] eqn:El; [|by intros ?%not_elem_of_nil].
      intros Hin. eapply Forall_forall; [by apply (Hlookup host)|done]. }
  split; [split|].
  - intros Hg. unfold guardDest in Hg. destruct (url_Parse dest) as [[[scheme authority] host]|] eqn:Eu; [|done].
    destruct (negb (streq scheme "http") && negb (streq scheme "https")) eqn:Es; [done|].
    destruct (streq host "") eqn:Eh; [done|]. apply streq_false in Eh.
    assert (Hs : scheme = "http" ∨ scheme = "https").
    { apply andb_false_iff in Es as [E|E]; apply negb_false_iff, streq_true in E; auto. }
    exists scheme, authority, host. split_and!; [done..|]. intros ip Hip.
    apply (ipBlocked_nets ip strict); [by eapply Hvalid|]. revert ip Hip. apply first_error_None.
    rewrite <- (guardDest_candidates strict _ _ _ _ Eu Hs Eh). unfold guardDest.
    by rewrite Eu, Es, (proj2 (streq_false host "")).
  - intros (scheme & authority & host & Hu & Hs & Hh & Hall).
    rewrite (guardDest_candidates _ _ _ _ _ Hu Hs Hh). apply first_error_None. intros ip Hip.
    apply ipBlocked_nets; [by eapply Hvalid|by apply Hall].
  - intros peer ip Hp. unfold dial_control. rewrite Hp. apply ipBlocked_nets. by eapply Hparse.
Qed.
End egress.

(** ** Retrying *)

(** [Retry] makes at least one and at most [MaxAttempts] attempts (one when the policy says
    less); it goes on only after a retriable failure and after every one of them unless the
    context ends a sleep; it returns success exactly when its last attempt succeeded; and under
    [DefaultRetry], with jitter in its range, it sleeps at most twice, each time at most one
    second, whatever [Retry-After] the receiver asks for. *)
Theorem Retry_spec ov p w :
  let r := Retry ov p w in
  (1 <= Z.of_nat r.(re_calls) <= Z.max 1 p.(MaxAttempts))
  ∧ (∀ i, (S i < r.(re_calls))%nat → ∃ e, w.(w_fn) i = Some e ∧ retriable e = true)
  ∧ (∀ e, w.(w_fn) (r.(re_calls) - 1)%nat = Some e → retriable e = true → Z.of_nat r.(re_calls) < p.(MaxAttempts) →
       ∃ c, w.(w_ctx) r.(re_calls) = Some c ∧ r.(re_err) = Some c)
  ∧ (r.(re_err) = None ↔ w.(w_fn) (r.(re_calls) - 1)%nat = None)
  ∧ (p = DefaultRetry → (∀ k, k = 1%nat ∨ k = 2%nat → 0 <= w.(w_random) k < Z.quot (backoff_base ov p (Z.of_nat k)) 2 + 1) →
       (length r.(re_slept) <= 2)%nat ∧ Forall (λ d, 0 <= d <= Second) r.(re_slept)).
Proof.
  cbv zeta. rewrite Retry_unfold. set (n := Z.to_nat (Z.max 1 (MaxAttempts p))).
  pose proof (retry_loop_spec ov (effective p) w n 0 None []) as ([_ Hc] & Hr & He & _).
  pose proof (retry_loop_first ov (effective p) w n ltac:(lia)) as H1.
  pose proof (retry_loop_persists ov (effective p) w n 0 None []) as Hp. cbv zeta in Hp.
  split_and!; [lia|lia| | | |].
  - intros i Hi. apply Hr; lia.
  - intros e Hfn Hre Hlt. apply (Hp e); [lia|done|done].
  - apply He. lia.
  - intros -> Hrand. change n with 3%nat. change (effective DefaultRetry) with DefaultRetry. split.
    + pose proof (retry_loop_slept_length ov DefaultRetry w 3 0 None [] ltac:(simpl; lia)). simpl in *. lia.
    + apply Forall_forall. intros d [Hd|(k & e & Hk & ->)]%retry_loop_slept; [by apply not_elem_of_nil in Hd|].
      assert (Hk' : k = 1%nat ∨ k = 2%nat) by lia. apply (backoff_bounded ov DefaultRetry); [| | | |by apply Hrand];
        by destruct Hk' as [-> | ->]; vm_compute.
Qed.

(** * Witnesses *)

(** Two names and the literals of the example. *)
#[local] Instance example_net : NetLib := {
  url_Parse dest :=
    if streq dest "https://hooks.example.com/T0/secret" then Some ("https", "hooks.example.com", "hooks.example.com")
    else if streq dest "http://metadata.internal/" then Some ("http", "metadata.internal", "metadata.internal")
    else None;
  ParseIP s := if streq s "169.254.169.254" then Some (v4InV6Prefix ++ [169; 254; 169; 254]) else None;
  LookupIPAddr s :=
    if streq s "hooks.example.com" then Some [[93; 184; 216; 34]]
    else if streq s "metadata.internal" then Some [[10; 0; 0; 1]; [169; 254; 169; 254]] else None;
}.

Lemma egress_guard_witness :
  guardDest false "https://hooks.example.com/T0/secret" = None
  ∧ guardDest false "http://metadata.internal/" ≠ None
  ∧ dial_control false "169.254.169.254" ≠ None.
Proof.
  assert (Hp : ∀ s ip, ParseIP s = Some ip → valid_ip ip).
  { intros s ip. cbn. destruct (streq s _); [|done]. intros [= <-]. split; [by right|by repeat constructor]. }
  assert (Hl : ∀ s ips, LookupIPAddr s = Some ips → Forall valid_ip ips).
  { intros s ips. cbn. destruct (streq s _); [|destruct (streq s _); [|done]]; intros [= <-];
      repeat constructor; try (by left); cbn; done. }
  split_and!.
  - apply (proj1 (egress_guard false "https://hooks.example.com/T0/secret" Hp Hl)).
    exists "https", "hooks.example.com", "hooks.example.com". split_and!; [done|by right|done|].
    intros ip Hip%list_elem_of_singleton. subst ip. by vm_compute.
  - by vm_compute.
  - intros Hd. apply (proj2 (egress_guard false "" Hp Hl) "169.254.169.254" _ eq_refl) in Hd. by vm_compute in Hd.
Defined.

(** The webhook's rate limit is honoured up to the ceiling, then the third attempt succeeds. *)
Definition example_world : world := {|
  w_fn i := nth i [Some (StatusError 429 "https://h/[REDACTED]" (30 * Second)); Some (TransportError "https://h" (OtherError "EOF"))] None;
  w_ctx _ := None;
  w_random _ := 0;
|}.

Lemma Retry_spec_witness :
  let r := Retry id DefaultRetry example_world in
  r.(re_err) = None ∧ r.(re_calls) = 3%nat ∧ Forall (λ d, 0 <= d <= Second) r.(re_slept)
  ∧ r.(re_slept) = [Second; 200 * Millisecond].
Proof.
  destruct (Retry_spec id DefaultRetry example_world) as (_ & _ & _ & He & Hb).
  split_and!; [by apply He|done|apply Hb; [done|]|done].
  intros k [-> | ->]; split; by vm_compute.
Defined.
