(* ===== verification/Payloads.v ===== *)
(** * internal/sinks: credentials, payloads and the sinks behind the registry

    cred.go, the Send of every sink with the request it makes, and factory.go. What a sink hands
    to encoding/json is a value of [json], and what leaves is the value that the encoder's
    output denotes ([json_Marshal]); a map is its fields in the order they are written here
    (encoding/json sorts them). httpx.PostJSON is in Httpx.v: [perform] gives it the
    request. slack-go's chat.postMessage is an argument, and so are the encoders of the two
    struct payloads that leave as they are, the alert and the Slack message. *)
From S2P Require Import Prelude GoStd AlertModel Config Text Escape Slack Httpx.

(** ** cred.go *)

Definition envSlackWebhookURL : string := "SLACK_WEBHOOK_URL".
Definition envSlackBotToken : string := "SLACK_BOT_TOKEN".
Definition envDiscordWebhookURL : string := "DISCORD_WEBHOOK_URL".
Definition envTeamsWebhookURL : string := "TEAMS_WEBHOOK_URL".
Definition envGoogleChatWebhookURL : string := "GOOGLECHAT_WEBHOOK_URL".
Definition envMattermostWebhookURL : string := "MATTERMOST_WEBHOOK_URL".
Definition envGenericWebhookURL : string := "GENERIC_WEBHOOK_URL".
Definition envGenericWebhookSecret : string := "GENERIC_WEBHOOK_SECRET".
Definition envPagerDutyRoutingKey : string := "PAGERDUTY_ROUTING_KEY".
Definition envOpsgenieAPIKey : string := "OPSGENIE_API_KEY".
Definition envTelegramBotToken : string := "TELEGRAM_BOT_TOKEN".
Definition envTelegramChatID : string := "TELEGRAM_CHAT_ID".

Definition singleCredEnv : gmap string string :=
  {["slack" := envSlackWebhookURL; "discord" := envDiscordWebhookURL; "teams" := envTeamsWebhookURL;
    "webhook" := envGenericWebhookURL; "pagerduty" := envPagerDutyRoutingKey; "opsgenie" := envOpsgenieAPIKey;
    "googlechat" := envGoogleChatWebhookURL; "mattermost" := envMattermostWebhookURL]}.
Definition CredentialEnv (name : string) : option string := singleCredEnv !! name.

(** A context carries at most one map of overrides. *)
Definition WithCreds (overrides : gmap string string) : option (gmap string string) := Some overrides.
Definition cred (getenv : string → string) (ctx : option (gmap string string)) (env : string) : string :=
  match ctx with
  | Some m => let v := default "" (m !! env) in if negb (streq v "") then v else getenv env
  | None => getenv env
  end.

(** [requireCred] without its metric and log line. *)
Definition requireCred (getenv : string → string) (ctx : option (gmap string string)) (env : string) : option string :=
  let v := cred getenv ctx env in if negb (streq v "") then Some v else None.

(** ** What a sink sends *)

Inductive json :=
  | JNull
  | JBool (b : bool)
  | JNum (n : Z)
  | JStr (s : string)
  | JArr (l : list json)
  | JObj (fields : list (string * json)).

(** A [map[string]string]; encoding/json writes the keys in order. *)
Definition JMap (m : gmap string string) : json := JObj ((λ k, (k, JStr (default "" (m !! k)))) <$> SortedKeys m).

(** [json.Marshal] of [httpx.PostJSONWithHeaders], as the value that the bytes it writes denote:
    every string, a key too, is made valid UTF-8 byte by byte. *)
Fixpoint json_Marshal (j : json) : json :=
  match j with
  | JStr s => JStr (coerceUTF8 s)
  | JArr l => JArr (map json_Marshal l)
  | JObj fields => JObj (map (λ kv, (coerceUTF8 kv.1, json_Marshal kv.2)) fields)
  | j => j
  end.

Record WebhookMessage := MkWebhookMessage {
  wm_Username : string;
  wm_Channel : string;
  wm_IconEmoji : string;
  wm_Blocks : list Block;
  wm_Attachments : list Attachment;
}.

Inductive payload := PJson (j : json) | PAlert (a : Alert) | PSlack (m : WebhookMessage).

(** [rq_header]: what the decorator sets on an attempt, from the clock and the encoded body. *)
Record post := MkPost { po_url : string; po_payload : payload; po_header : time → string → list (string * string) }.

Inductive delivery :=
  | NoCredential (sink env : string)   (** a recorded no-op *)
  | Post (p : post)
  | PostMessage (token channel username icon : string) (blocks : list Block) (attachment : Attachment)
  | Logged (a : Alert).

Definition no_header (t : time) (body : string) : list (string * string) := [].

(** The context's overrides and the environment a Send reads. *)
Record sending := MkSending { sd_getenv : string → string; sd_ctx : option (gmap string string) }.
Definition need (s : sending) (sink env : string) (k : string → delivery) : delivery :=
  match requireCred s.(sd_getenv) s.(sd_ctx) env with Some v => k v | None => NoCredential sink env end.

(** The interface of a sink. *)
Record Sink := MkSink {
  Name : string;
  Supports : Severity → bool;
  Send : sending → Alert → delivery;
}.

(** ** webhooksink.go *)

Definition chatWebhookSink (name credEnv : string) (payload : Alert → json) : Sink := {|
  Name := name;
  Supports _ := true;
  Send s a := need s name credEnv (λ url, Post (MkPost url (PJson (json_Marshal (payload a))) no_header));
|}.

(** ** pagerduty.go *)

Definition pagerdutyEventsURL : string := "https://events.pagerduty.com/v2/enqueue".

Record pagerdutyPayload := MkPagerdutyPayload {
  pd_Summary : string; pd_Source : string; pd_Severity : string;
  pd_Component : string; pd_Group : string; pd_Class : string;
  pd_Details : gmap string string;
}.
Record pagerdutyEvent := MkPagerdutyEvent {
  pd_RoutingKey : string; pd_Action : string; pd_DedupKey : string; pd_Payload : option pagerdutyPayload;
}.

Definition omitempty (name value : string) : list (string * json) := if streq value "" then [] else [(name, JStr value)].
Definition pagerdutyPayload_json (p : pagerdutyPayload) : json :=
  JObj ([("summary", JStr p.(pd_Summary)); ("source", JStr p.(pd_Source)); ("severity", JStr p.(pd_Severity))]
        ++ omitempty "component" p.(pd_Component) ++ omitempty "group" p.(pd_Group) ++ omitempty "class" p.(pd_Class)
        ++ [("custom_details", JMap p.(pd_Details))]).
(** What encoding/json makes of the event. *)
Definition pagerdutyEvent_json (e : pagerdutyEvent) : json :=
  json_Marshal (JObj ([("routing_key", JStr e.(pd_RoutingKey)); ("event_action", JStr e.(pd_Action))]
        ++ omitempty "dedup_key" e.(pd_DedupKey)
        ++ match e.(pd_Payload) with Some p => [("payload", pagerdutyPayload_json p)] | None => [] end)).

Definition pdSeverity (s : Severity) : string := severityTier s "critical" "warning" "info".

Definition newPagerDuty : Sink := {|
  Name := "pagerduty";
  Supports sev := streq sev SeverityCritical;
  Send s a := need s "pagerduty" envPagerDutyRoutingKey (λ routingKey,
    let action := if a.(a_Resolved) then "resolve" else "trigger" in
    let event := MkPagerdutyEvent routingKey action a.(a_Fingerprint)
      (Some (MkPagerdutyPayload (a.(a_Namespace) +:+ "/" +:+ a.(a_Name) +:+ ": " +:+ a.(a_Reason)) a.(a_Cluster)
               (pdSeverity a.(a_Severity)) a.(a_Kind) a.(a_Namespace) a.(a_Reason) a.(a_Details))) in
    Post (MkPost pagerdutyEventsURL (PJson (pagerdutyEvent_json event)) no_header));
|}.

(** ** opsgenie.go *)

Definition ogPriority (s : Severity) : string := severityTier s "P1" "P3" "P5".
Definition opsgenie_base (getenv : string → string) : string :=
  let base := getenv "OPSGENIE_API_URL" in if streq base "" then "https://api.opsgenie.com" else base.

Definition newOpsgenie : Sink := {|
  Name := "opsgenie";
  Supports sev := streq sev SeverityCritical || streq sev SeverityWarning;
  Send s a := need s "opsgenie" envOpsgenieAPIKey (λ apiKey,
    let base := opsgenie_base s.(sd_getenv) in
    let '(url, payload) :=
      if a.(a_Resolved)
      then (base +:+ "/v2/alerts/" +:+ PathEscape a.(a_Fingerprint) +:+ "/close?identifierType=alias",
            JObj [("source", JStr a.(a_Cluster)); ("note", JStr "resolved by alertkube")])
      else
        let details := JObj [("cluster", JStr a.(a_Cluster)); ("kind", JStr a.(a_Kind)); ("namespace", JStr a.(a_Namespace));
                             ("name", JStr a.(a_Name)); ("reason", JStr a.(a_Reason))] in
        (base +:+ "/v2/alerts",
         JObj [("message", JStr (Head (alertTitlePlain a) 130)); ("alias", JStr a.(a_Fingerprint));
               ("description", JStr (Head a.(a_Summary) 15000)); ("priority", JStr (ogPriority a.(a_Severity)));
               ("source", JStr a.(a_Cluster)); ("entity", JStr (a.(a_Namespace) +:+ "/" +:+ a.(a_Name)));
               ("tags", JArr [JStr a.(a_Kind); JStr a.(a_Reason); JStr a.(a_Severity)]); ("details", details)]) in
    Post (MkPost url (PJson (json_Marshal payload)) (λ _ _, [("Authorization", "GenieKey " +:+ apiKey)])));
|}.

(** ** teams.go *)

Definition teamsColor (a : Alert) : string :=
  if a.(a_Resolved) then "good" else severityTier a.(a_Severity) "attention" "warning" "accent".

Definition teamsPayload (a : Alert) : json :=
  let fact title value := JObj [("title", JStr title); ("value", JStr value)] in
  let facts := JArr [fact "Cluster" (escapeMarkdown (orDash a.(a_Cluster))); fact "Kind" a.(a_Kind);
                     fact "Namespace" (escapeMarkdown (orDash a.(a_Namespace))); fact "Name" (escapeMarkdown (orDash a.(a_Name)));
                     fact "Reason" (escapeMarkdown (orDash a.(a_Reason))); fact "Fingerprint" a.(a_Fingerprint)] in
  let body := JArr [
    JObj [("type", JStr "TextBlock"); ("size", JStr "Medium"); ("weight", JStr "Bolder"); ("color", JStr (teamsColor a));
          ("wrap", JBool true); ("text", JStr (alertTitle a))];
    JObj [("type", JStr "TextBlock"); ("wrap", JBool true); ("text", JStr (escapeMarkdown a.(a_Summary)))];
    JObj [("type", JStr "FactSet"); ("facts", facts)]] in
  let card :=
    [("$schema", JStr "http://adaptivecards.io/schemas/adaptive-card.json"); ("type", JStr "AdaptiveCard"); ("version", JStr "1.4");
     ("msteams", JObj [("width", JStr "Full")]); ("body", body)]
    ++ (let '(runbookURL, ok) := runbook a in
        if (ok : bool)
        then [("actions", JArr [JObj [("type", JStr "Action.OpenUrl"); ("title", JStr "Runbook"); ("url", JStr runbookURL)]])]
        else []) in
  JObj [("type", JStr "message");
        ("attachments", JArr [JObj [("contentType", JStr "application/vnd.microsoft.card.adaptive"); ("contentUrl", JNull);
                                    ("content", JObj card)]])].

Definition newTeams : Sink := chatWebhookSink "teams" envTeamsWebhookURL teamsPayload.

(** ** discord.go *)

(** [strconv.ParseInt(s, 16, 32)]. *)
Definition hex_digit (c : ascii) : option Z :=
  let b := byte_of c in
  if (48 <=? b) && (b <=? 57) then Some (b - 48)
  else if (97 <=? b) && (b <=? 102) then Some (b - 87)
  else if (65 <=? b) && (b <=? 70) then Some (b - 55) else None.
Definition hex_value (l : list ascii) : option Z :=
  match l with
  | [] => None
  | _ => foldl (λ acc c, n ← acc; d ← hex_digit c; Some (16 * n + d)) (Some 0) l
  end.
Definition ParseInt16_32 (s : string) : option Z :=
  match chars s with
  | "-"%char :: l => n ← hex_value l; if n <=? 2 ^ 31 then Some (- n) else None
  | "+"%char :: l | l => n ← hex_value l; if n <? 2 ^ 31 then Some n else None
  end.

Definition discordColor (a : Alert) : Z :=
  let hex := statusColorHex a in
  if negb (slen hex =? 7) || negb (HasPrefix hex "#") then 0 else default 0 (ParseInt16_32 (slice_from hex 1)).

Section time_format.
Context `{TimeLib}.

Definition slackUsername : string := "alertkube".

(** [time.RFC3339] of the UTC instant. *)
Definition discordPayload (a : Alert) : json :=
  let field name value := JObj [("name", JStr name); ("value", JStr value); ("inline", JBool true)] in
  let fields := JArr [field "Cluster" (escapeMarkdown (orDash a.(a_Cluster))); field "Namespace" (escapeMarkdown (orDash a.(a_Namespace)));
                      field "Reason" (escapeMarkdown (orDash a.(a_Reason)))] in
  let embed :=
    [("title", JStr (Head (alertTitlePlain a) 256)); ("description", JStr (Head (escapeMarkdown a.(a_Summary)) 4096));
     ("color", JNum (discordColor a)); ("fields", fields);
     ("footer", JObj [("text", JStr (a.(a_Kind) +:+ " | fp=" +:+ a.(a_Fingerprint)))]);
     ("timestamp", JStr (FormatRFC3339 a.(a_StartsAt)))]
    ++ (let '(runbookURL, ok) := runbook a in if (ok : bool) then [("url", JStr runbookURL)] else []) in
  JObj [("username", JStr slackUsername); ("embeds", JArr [JObj embed])].

Definition newDiscord : Sink := chatWebhookSink "discord" envDiscordWebhookURL discordPayload.

(** ** telegram.go *)

Definition telegramAPIBase : string := "https://api.telegram.org".
Definition quote : string := String "034"%char "".

Definition telegram_text (a : Alert) : string :=
  let summary := if 3000 <? slen a.(a_Summary) then Head a.(a_Summary) 3000 +:+ "…" else a.(a_Summary) in
  let text := "<b>" +:+ alertTitleHTML a +:+ "</b>" +:+ newline +:+ EscapeString summary +:+ newline
              +:+ "<code>cluster=" +:+ EscapeString a.(a_Cluster) +:+ " fp=" +:+ EscapeString a.(a_Fingerprint) +:+ "</code>" in
  let '(runbookURL, ok) := runbook a in
  if (ok : bool) then text +:+ newline +:+ "<a href=" +:+ quote +:+ EscapeString runbookURL +:+ quote +:+ ">Runbook</a>" else text.

Definition newTelegram : Sink := {|
  Name := "telegram";
  Supports _ := true;
  Send s a := need s "telegram" envTelegramBotToken (λ token, need s "telegram" envTelegramChatID (λ chatID,
    Post (MkPost (telegramAPIBase +:+ "/bot" +:+ token +:+ "/sendMessage")
            (PJson (json_Marshal (JObj [("chat_id", JStr chatID); ("text", JStr (telegram_text a)); ("parse_mode", JStr "HTML");
                                        ("disable_web_page_preview", JBool true)]))) no_header)));
|}.

(** ** googlechat.go *)

Definition googleChatPayload (a : Alert) : json :=
  let decorated label text := JObj [("decoratedText", JObj [("topLabel", JStr label); ("text", JStr text)])] in
  let widgets :=
    [decorated "Cluster" (EscapeString (orDash a.(a_Cluster))); decorated "Namespace" (EscapeString (orDash a.(a_Namespace)));
     decorated "Reason" (EscapeString (orDash a.(a_Reason)));
     JObj [("textParagraph", JObj [("text", JStr (EscapeString (Head a.(a_Summary) 4096)))])]]
    ++ (let '(runbookURL, ok) := runbook a in
        if (ok : bool)
        then [JObj [("buttonList", JObj [("buttons", JArr [JObj [("text", JStr "Runbook");
                     ("onClick", JObj [("openLink", JObj [("url", JStr runbookURL)])])]])])]]
        else []) in
  let card := JObj [("cardId", JStr ("alertkube-" +:+ a.(a_Fingerprint)));
                    ("card", JObj [("header", JObj [("title", JStr (Head (alertTitleHTML a) 200));
                                                    ("subtitle", JStr (a.(a_Kind) +:+ " | fp=" +:+ a.(a_Fingerprint)))]);
                                   ("sections", JArr [JObj [("widgets", JArr widgets)]])])] in
  JObj [("text", JStr (alertTitleHTML a)); ("cardsV2", JArr [card])].

Definition newGoogleChat : Sink := chatWebhookSink "googlechat" envGoogleChatWebhookURL googleChatPayload.

(** ** mattermost.go *)

Definition mattermostPayload (a : Alert) : json :=
  let field title value := JObj [("short", JBool true); ("title", JStr title); ("value", JStr value)] in
  let fields := JArr [field "Cluster" (escapeMarkdown (orDash a.(a_Cluster))); field "Kind" a.(a_Kind);
                      field "Namespace" (escapeMarkdown (orDash a.(a_Namespace))); field "Name" (escapeMarkdown (orDash a.(a_Name)));
                      field "Reason" (escapeMarkdown (orDash a.(a_Reason))); field "Fingerprint" a.(a_Fingerprint)] in
  let attachment :=
    [("fallback", JStr (alertTitlePlain a)); ("color", JStr (statusColorHex a));
     ("title", JStr (escapeMarkdown (Head (alertTitlePlain a) 256))); ("text", JStr (Head (escapeMarkdown a.(a_Summary)) 4096));
     ("fields", fields); ("footer", JStr ("alertkube | " +:+ a.(a_Kind)))]
    ++ (let '(runbookURL, ok) := runbook a in if (ok : bool) then [("title_link", JStr runbookURL)] else []) in
  JObj [("username", JStr slackUsername); ("attachments", JArr [JObj attachment])].

Definition newMattermost : Sink := chatWebhookSink "mattermost" envMattermostWebhookURL mattermostPayload.

(** ** webhook.go *)

(** [hmac] over SHA-256: the key is hashed when longer than a block and padded to one. *)
Definition hmac_sha256 (key msg : list Z) : list Z :=
  let key := if (64 <? length key)%nat then sha256 key else key in
  let key := key ++ replicate (64 - length key) 0 in
  sha256 ((Z.lxor 92 <$> key) ++ sha256 ((Z.lxor 54 <$> key) ++ msg)).

Definition webhook_header (getenv : string → string) (now : time) (body : string) : list (string * string) :=
  let ts := FormatRFC3339 now in
  [("User-Agent", "alertkube"); ("X-Alertkube-Timestamp", ts)]
  ++ (let secret := getenv envGenericWebhookSecret in
      if negb (streq secret "")
      then [("X-Alertkube-Signature", "sha256=" +:+ EncodeToString (hmac_sha256 (bytes secret) (bytes (ts +:+ "." +:+ body))))]
      else []).

Definition newWebhook : Sink := {|
  Name := "webhook";
  Supports _ := true;
  Send s a := need s "webhook" envGenericWebhookURL (λ url, Post (MkPost url (PAlert a) (webhook_header s.(sd_getenv))));
|}.

(** ** stdout.go *)

Definition newStdout : Sink := {| Name := "stdout"; Supports _ := true; Send _ a := Logged a |}.

(** ** slack.go *)

Context `{SlackTime} `{MapRange}.

(** [channelOverridePattern]: the language of the anchored pattern. *)
Definition channel_char (c : ascii) : bool :=
  let b := byte_of c in (97 <=? b) && (b <=? 122) || (48 <=? b) && (b <=? 57) || ContainsByte "._-" c.
Definition channelOverridePattern (s : string) : bool :=
  let rest := TrimPrefix s "#" in (1 <=? slen rest) && (slen rest <=? 80) && forallb channel_char (chars rest).

Definition slackIcon : string := ":kubernetes:".

Definition routeChannel (channels : gmap Severity string) (a : Alert) : string :=
  let ch := default "" (channels !! a.(a_Severity)) in
  if negb (streq ch "") then ch else default "" (channels !! SeverityWarning).

(** The channel of the bot and the one asked for explicitly. *)
Definition slack_channels (channels : gmap Severity string) (a : Alert) : string * string :=
  let override := default "" (a.(a_Annotations) !! AnnotationSlackChannel) in
  if negb (streq override "") && channelOverridePattern override then (override, override) else (routeChannel channels a, "").

Definition newSlack (cluster : string) (channels : gmap Severity string) : Sink := {|
  Name := "slack";
  Supports _ := true;
  Send s a :=
    let '(channel, explicitChannel) := slack_channels channels a in
    let blocks := buildSlackBlocks a in
    let attachment := MkAttachment (statusColorHex a) (slackDetailBody a) ["text"]
                        (cluster +:+ " | " +:+ a.(a_Kind) +:+ " | fp=" +:+ a.(a_Fingerprint)) in
    let token := s.(sd_getenv) envSlackBotToken in
    if negb (streq token "") then PostMessage token channel slackUsername slackIcon blocks attachment
    else need s "slack" envSlackWebhookURL (λ webhookURL,
      Post (MkPost webhookURL (PSlack (MkWebhookMessage slackUsername explicitChannel slackIcon blocks [attachment])) no_header));
|}.

(** ** factory.go *)

Record SinkConfig := MkSinkConfig { Cluster : string; Channels : gmap Severity string }.

(** [None]: the panic on a duplicate name. *)
Definition Register (name : string) (f : SinkConfig → Sink) (factories : gmap string (SinkConfig → Sink)) :
    option (gmap string (SinkConfig → Sink)) :=
  match factories !! name with Some _ => None | None => Some (<[name := f]> factories) end.

(** The init functions, one per file, in the order of the files. *)
Definition registrations : list (string * (SinkConfig → Sink)) :=
  [("discord", λ _, newDiscord); ("googlechat", λ _, newGoogleChat); ("mattermost", λ _, newMattermost);
   ("opsgenie", λ _, newOpsgenie); ("pagerduty", λ _, newPagerDuty); ("slack", λ c, newSlack c.(Cluster) c.(Channels));
   ("stdout", λ _, newStdout); ("teams", λ _, newTeams); ("telegram", λ _, newTelegram); ("webhook", λ _, newWebhook)].

Definition factories_after_init : option (gmap string (SinkConfig → Sink)) :=
  foldl (λ acc nf, m ← acc; Register nf.1 nf.2 m) (Some ∅) registrations.

Definition BuildDefault (factories : gmap string (SinkConfig → Sink)) (cfg : SinkConfig) : list Sink :=
  (λ nf, nf.2 cfg) <$> range factories.

(** ** The send *)

(** How a delivery ends: nothing to do, the outcome of the post, or of the Slack API. *)
Inductive sent := Nothing | Posted (r : post_result) | Called (r : retried).

Definition perform `{NetLib} (float_overflow : Z → duration) (strict : bool) (marshals : payload → bool) (responses : nat → response)
    (slack_call : nat → option go_error) (ctx : nat → option go_error) (random : nat → Z) (d : delivery) : sent :=
  match d with
  | NoCredential _ _ | Logged _ => Nothing
  | Post p => Posted (PostJSON float_overflow strict p.(po_url) (marshals p.(po_payload)) responses ctx random)
  | PostMessage _ _ _ _ _ _ => Called (Retry float_overflow DefaultRetry (MkWorld slack_call ctx random))
  end.
End time_format.

(** * Theorems *)

(** The HMAC of RFC 4231, test case 2, and one with a key longer than a block (case 6). *)
Example hmac_short : EncodeToString (hmac_sha256 (bytes "Jefe") (bytes "what do ya want for nothing?"))
  = "5bdcc146bf60754e6a042426089575c75a003f089d2739839dec58b964ec3843".
Proof. vm_compute. reflexivity. Qed.
Example hmac_long : EncodeToString (hmac_sha256 (replicate 131 170) (bytes "Test Using Larger Than Block-Size Key - Hash Key First"))
  = "60e431591ee0b67f0d8a26aacbf5b77f8e0bc6213728c5140546040f0ee37f54".
Proof. vm_compute. reflexivity. Qed.

(** Every colour of an alert is one Discord can show. *)
Example discord_colors :
  (λ sev, discordColor (with_Severity sev zero_alert)) <$> [SeverityCritical; SeverityWarning; SeverityInfo; ""]
  = [14687834; 15512110; 4561375; 4561375] ∧ discordColor (with_Resolved true zero_alert) = 3061373.
Proof. vm_compute. split; reflexivity. Qed.

(** ** Inert payloads *)







Section inert_payloads.
Context `{TimeLib} `{SlackTime} `{MapRange}.





End inert_payloads.

(** A phishing attempt through the fields of an ingested alert. *)
#[global] Program Instance utc_slack_time : SlackTime := {| FormatMST t := Itoa (t / Second) +:+ " UTC" |}.
Next Obligation.
  intros t. unfold plain_text. rewrite chars_app, forallb_app. apply andb_true_iff. split; [apply Itoa_plain|reflexivity].
Qed.



(** ** Incidents *)

Definition field (name : string) (j : json) : option string :=
  match j with
  | JObj fields => match List.find (λ kv, String.eqb kv.1 name) fields with Some (_, JStr s) => Some s | _ => None end
  | _ => None
  end.

(** What PagerDuty reads from a request: whether it resolves, and which incident. *)
Definition pagerduty_incident (p : post) : option (bool * string) :=
  match p.(po_payload) with
  | PJson j =>
    action ← field "event_action" j; key ← field "dedup_key" j;
    if streq action "trigger" then Some (false, key) else if streq action "resolve" then Some (true, key) else None
  | _ => None
  end.

(** What Opsgenie reads: a POST to [/v2/alerts] opens the alias of the body, one to
    [/v2/alerts/{alias}/close] closes the alias in the path. *)
Definition opsgenie_incident (base : string) (p : post) : option (bool * string) :=
  if streq p.(po_url) (base +:+ "/v2/alerts")
  then match p.(po_payload) with PJson j => (λ alias, (false, alias)) <$> field "alias" j | _ => None end
  else if HasPrefix p.(po_url) (base +:+ "/v2/alerts/")
  then match split_chars "/" (chars (TrimPrefix p.(po_url) (base +:+ "/v2/alerts/"))) with
       | [segment; last_] => if streq (of_chars last_) "close?identifierType=alias"
                             then Some (true, of_chars (path_unescape segment)) else None
       | _ => None
       end
  else None.

Lemma split_chars_app d l l' : d ∉ l → split_chars d (l ++ d :: l') = l :: split_chars d l'.
Proof.
  induction l as [|c l IH]; intros Hd.
  - cbn [app split_chars]. by destruct (decide _).
  - apply not_elem_of_cons in Hd as [Hc Hl]. cbn [app split_chars]. rewrite (IH Hl). by destruct (decide _).
Qed.

Lemma TrimPrefix_app p s : TrimPrefix (p +:+ s) p = s.
Proof.
  unfold TrimPrefix. rewrite HasPrefix_app, string_app_length, Nat.add_comm, Nat.add_sub.
  induction p as [|c p IH]; [|exact IH]. cbn [String.length String.app]. induction s as [|c s IH]; [done|].
  change (String c (String.substring 0 (String.length s) s) = String c s). f_equal. exact IH.
Qed.

Lemma field_Marshal name fields :
  Forall (λ c, byte_of c < 128) (chars name) → field name (json_Marshal (JObj fields)) = coerceUTF8 <$> field name (JObj fields).
Proof.
  intros Hn. cbn [json_Marshal field]. induction fields as [|[k j] fields IH]; [done|]. cbn [map List.find fst snd].
  rewrite coerceUTF8_eqb by done. destruct (String.eqb k name); [by destruct j|done].
Qed.

(** The fingerprints the program computes are ASCII. *)
Lemma ComputeFingerprint_valid kind ns name reason :
  coerceUTF8 (ComputeFingerprint kind ns name reason) = ComputeFingerprint kind ns name reason.
Proof.
  apply coerceUTF8_valid, ascii_utf8. unfold ComputeFingerprint, slice_to. rewrite chars_of_chars.
  by apply Forall_take, EncodeToString_ascii, sha256_bytes.
Qed.

(** C16: the incident tools open and close the incident of the alert's fingerprint. For an alert
    with a fingerprint, the request that PagerDuty or Opsgenie gets, read the way their APIs
    document it, says whether the alert is resolved and names its fingerprint, as the JSON
    encoder passes it on where it travels in a body: PagerDuty's key and the alias Opsgenie
    opens have U+FFFD for each byte that is not UTF-8, the alias Opsgenie closes travels in the
    path and has the raw bytes. For a fingerprint of valid UTF-8, as every computed one is, all
    three are the fingerprint itself, so that a resolve closes exactly what the fire opened and
    no other alert's incident, whatever the other fields hold. *)
Theorem incident_addressed s a :
  a.(a_Fingerprint) ≠ "" →
  (match newPagerDuty.(Send) s a with
   | Post p => pagerduty_incident p = Some (a.(a_Resolved), coerceUTF8 a.(a_Fingerprint))
   | d => d = NoCredential "pagerduty" envPagerDutyRoutingKey
   end)
  ∧ (match newOpsgenie.(Send) s a with
     | Post p => opsgenie_incident (opsgenie_base s.(sd_getenv)) p
                 = Some (a.(a_Resolved), if a.(a_Resolved) then a.(a_Fingerprint) else coerceUTF8 a.(a_Fingerprint))
     | d => d = NoCredential "opsgenie" envOpsgenieAPIKey
     end)
  ∧ (utf8 (chars a.(a_Fingerprint)) → coerceUTF8 a.(a_Fingerprint) = a.(a_Fingerprint))
  ∧ (∀ kind ns name reason, a.(a_Fingerprint) = ComputeFingerprint kind ns name reason → coerceUTF8 a.(a_Fingerprint) = a.(a_Fingerprint)).
Proof.
  intros Hfp. split_and!; [| |apply coerceUTF8_valid|intros kind ns name reason ->; apply ComputeFingerprint_valid].
  - cbn [newPagerDuty Send]. unfold need. destruct (requireCred _ _ _) as [key|]; [|done].
    unfold pagerduty_incident, pagerdutyEvent_json, omitempty. cbn [po_payload pd_RoutingKey pd_Action pd_DedupKey pd_Payload].
    rewrite !field_Marshal, (proj2 (streq_false _ _) Hfp) by (repeat constructor). by destruct (a_Resolved a).
  - cbn [newOpsgenie Send]. unfold need. destruct (requireCred _ _ _) as [key|]; [|done].
    set (base := opsgenie_base _). unfold opsgenie_incident. destruct (a_Resolved a); cbn [po_url po_payload].
    + rewrite (proj2 (streq_false _ _)).
      2: { intros E. apply (string_app_inv_head base) in E. discriminate E. }
      rewrite <- (string_app_assoc base "/v2/alerts/"), HasPrefix_app, TrimPrefix_app.
      change ("/close?identifierType=alias") with (String "/" "close?identifierType=alias").
      rewrite chars_app. change (chars (String "/" ?x)) with ("/"%char :: chars x).
      rewrite split_chars_app by (by apply path_escape_no_delim).
      change (split_chars "/" (chars "close?identifierType=alias")) with [chars "close?identifierType=alias"].
      lazy match. rewrite of_chars_chars, streq_refl.
      unfold PathEscape. rewrite chars_of_chars, path_unescape_escape, of_chars_chars. done.
    + by rewrite streq_refl, field_Marshal by (repeat constructor).
Qed.

(** A fingerprint with URL delimiters: the close request names it and nothing else. *)
Definition odd_alert : Alert := with_Resolved true (with_Fingerprint "a/b?c=d#e" zero_alert).
Definition all_creds : sending := MkSending (λ env, if streq env "OPSGENIE_API_URL" then "" else "secret") None.

Lemma incident_addressed_witness :
  (∃ p, newOpsgenie.(Send) all_creds odd_alert = Post p
        ∧ p.(po_url) = "https://api.opsgenie.com/v2/alerts/a%2Fb%3Fc=d%23e/close?identifierType=alias"
        ∧ opsgenie_incident "https://api.opsgenie.com" p = Some (true, "a/b?c=d#e")).
Proof.
  destruct (incident_addressed all_creds odd_alert) as (_ & Ho & _); [done|].
  eexists. split; [reflexivity|]. split; [vm_compute; reflexivity|exact Ho].
Defined.

(** With an undecodable byte Opsgenie opens one alias and closes another. *)
Example undecodable_fingerprint :
  let a := with_Fingerprint (String "255" "") zero_alert in
  ∃ p p', newOpsgenie.(Send) all_creds a = Post p ∧ newOpsgenie.(Send) all_creds (with_Resolved true a) = Post p'
  ∧ opsgenie_incident "https://api.opsgenie.com" p = Some (false, of_chars replacement)
  ∧ opsgenie_incident "https://api.opsgenie.com" p' = Some (true, String "255" "").
Proof. do 2 eexists. split_and!; vm_compute; reflexivity. Qed.

(** ** The registry *)

Section registry.
Context `{TimeLib} `{SlackTime} `{MapRange}.

Lemma Register_all l (m : gmap string (SinkConfig → Sink)) :
  NoDup l.*1 → (∀ name, name ∈ l.*1 → m !! name = None) →
  foldl (λ acc nf, m ← acc; Register nf.1 nf.2 m) (Some m) l = Some (list_to_map l ∪ m).
Proof.
  revert m. induction l as [|[name f] l IH]; intros m Hnd Hm.
  { cbn. by rewrite (left_id_L ∅ (∪)). }
  rewrite fmap_cons in Hnd, Hm. apply NoDup_cons in Hnd as [Hni Hnd]. cbn [foldl fst snd mbind option_bind].
  unfold Register at 2. rewrite (Hm name) by left. rewrite IH; [|done|].
  - f_equal. cbn [list_to_map foldr uncurry fst snd]. rewrite <- insert_union_l, insert_union_r; [done|].
    by apply not_elem_of_list_to_map_1.
  - intros k Hk. rewrite lookup_insert_ne by (intros ->; done). apply Hm. by right.
Qed.

(** No name is registered twice, and every registered sink is built. *)
Lemma BuildDefault_all :
  ∃ m, factories_after_init = Some m ∧ ∀ cfg, BuildDefault m cfg ≡ₚ (λ nf, nf.2 cfg) <$> registrations.
Proof.
  assert (Hnd : NoDup registrations.*1).
  { change (registrations.*1) with ["discord"; "googlechat"; "mattermost"; "opsgenie"; "pagerduty"; "slack"; "stdout"; "teams"; "telegram"; "webhook"].
    by apply (bool_decide_eq_true_1 (NoDup _)). }
  exists (list_to_map registrations). split.
  - unfold factories_after_init. rewrite Register_all; [|done|intros; apply lookup_empty]. by rewrite (right_id_L ∅ (∪)).
  - intros cfg. unfold BuildDefault. apply fmap_Permutation. rewrite range_perm. by apply map_to_list_to_map.
Qed.

(** Routing validation and the registry agree on which sinks exist. A list of sink names
    passes validation exactly when it is not empty and each of its names is the name of a sink
    that [BuildDefault] registers, so a validated route never names a sink that dispatch cannot
    reach. *)
Theorem validated_sinks_exist field names :
  ∃ m, factories_after_init = Some m
  ∧ ∀ cfg, validateSinkNames field names = None
           ↔ names ≠ [] ∧ ∀ n, n ∈ names → ∃ sink, sink ∈ BuildDefault m cfg ∧ sink.(Name) = n.
Proof.
  destruct BuildDefault_all as (m & Hm & Hb). exists m. split; [done|]. intros cfg.
  assert (Hknown : ∀ n, n ∈ KnownSinks ↔ ∃ sink, sink ∈ BuildDefault m cfg ∧ sink.(Name) = n).
  { intros n. transitivity (n ∈ Name <$> BuildDefault m cfg); [|rewrite list_elem_of_fmap; naive_solver].
    rewrite Hb, <- list_fmap_compose.
    change ((Name ∘ (λ nf, nf.2 cfg)) <$> registrations)
      with ["discord"; "googlechat"; "mattermost"; "opsgenie"; "pagerduty"; "slack"; "stdout"; "teams"; "telegram"; "webhook"].
    unfold KnownSinks. rewrite !elem_of_union, !elem_of_singleton, !elem_of_cons, elem_of_nil. tauto. }
  unfold validateSinkNames. destruct names as [|x names]; [split; [done|by intros []]|].
  rewrite first_error_None. split.
  - intros Hall. split; [done|]. intros n Hn. apply Hknown. specialize (Hall n Hn). by destruct (bool_decide_reflect (n ∈ KnownSinks)).
  - intros [_ Hall] n Hn. rewrite bool_decide_true; [done|]. by apply Hknown, Hall.
Qed.

(** ** Testing a referenced credential *)

(** Where a request carries a credential: as its URL, in the body or in a header. *)
Definition carries (val : string) (p : post) : Prop :=
  p.(po_url) = val ∨ (∃ j, p.(po_payload) = PJson j ∧ field "routing_key" j = Some (coerceUTF8 val))
  ∨ ∀ now body, p.(po_header) now body = [("Authorization", "GenieKey " +:+ val)].

(** A channel test with a referenced Secret tests that credential. For every sink the
    console can inject one credential into, a send under the override makes one request, and it
    carries the injected value whatever the environment holds. The exception is Slack with a
    bot token in the environment: the token wins and the injected webhook is not used. *)
Theorem override_drives_send m cfg sink env val getenv a :
  factories_after_init = Some m → sink ∈ BuildDefault m cfg →
  CredentialEnv sink.(Name) = Some env → val ≠ "" →
  let d := sink.(Send) (MkSending getenv (WithCreds {[env := val]})) a in
  if streq sink.(Name) "slack" && negb (streq (getenv envSlackBotToken) "")
  then ∃ channel blocks att, d = PostMessage (getenv envSlackBotToken) channel slackUsername slackIcon blocks att
  else ∃ p, d = Post p ∧ carries val p.
Proof.
  intros Hm Hsink Henv Hval. destruct BuildDefault_all as (m' & Hm' & Hb). assert (m' = m) as -> by congruence.
  rewrite (Hb cfg) in Hsink. apply list_elem_of_fmap in Hsink as ([name f] & -> & Hin).
  assert (Hneed : ∀ sink k, need (MkSending getenv (WithCreds {[env := val]})) sink env k = k val).
  { intros sink k. unfold need, requireCred, cred, WithCreds. cbn [sd_ctx sd_getenv]. rewrite lookup_singleton_eq.
    pose proof (proj2 (streq_false val "") Hval) as E. simpl. rewrite E. simpl. by rewrite E. }
  unfold registrations in Hin. cbn [snd] in *.
  repeat (apply elem_of_cons in Hin as [Hin|Hin]; [injection Hin as -> ->|]); [..|by apply elem_of_nil in Hin];
    match type of Henv with CredentialEnv ?n = _ => let e := eval vm_compute in (CredentialEnv n) in change (e = Some env) in Henv end;
    try discriminate Henv; injection Henv as <-.
  6: { destruct (streq (getenv envSlackBotToken) "") eqn:Et; cbn [Name newSlack Send sd_getenv]; rewrite Et;
         destruct (slack_channels _ a) as [channel explicit].
       - eexists. split; [exact (Hneed _ _)|by left].
       - by do 3 eexists. }
  all: change (streq _ "slack" && _) with false; cbn match.
  4: { cbn [newOpsgenie Send]. destruct (a_Resolved a); (eexists; split; [exact (Hneed _ _)|by right; right]). }
  4: { eexists. split; [exact (Hneed _ _)|right; left; by eexists]. }
  all: eexists; split; [exact (Hneed _ _)|by left].
Qed.

Definition test_creds : sending :=
  MkSending (λ env, if streq env "PAGERDUTY_ROUTING_KEY" then "old" else "") (WithCreds {["PAGERDUTY_ROUTING_KEY" := "new"]}).
End registry.

Lemma override_drives_send_witness :
  CredentialEnv "pagerduty" = Some "PAGERDUTY_ROUTING_KEY"
  ∧ ∃ p, (@newPagerDuty).(Send) test_creds zero_alert = Post p ∧ carries "new" p.
Proof.
  split; [reflexivity|].
  destruct (@BuildDefault_all mini_time _ _) as (m & Hm & Hb).
  apply (@override_drives_send mini_time _ _ m (MkSinkConfig "c" ∅) newPagerDuty "PAGERDUTY_ROUTING_KEY" "new"
    (λ env, if streq env "PAGERDUTY_ROUTING_KEY" then "old" else "") zero_alert Hm); [|reflexivity|discriminate].
  rewrite Hb. apply list_elem_of_fmap. exists ("pagerduty", λ _, newPagerDuty). split; [reflexivity|]. do 4 right. left.
Defined.
