(* ===== verification/Receiver.v ===== *)
(** * internal/receiver: alerts from an upstream Alertmanager

    Models internal/receiver/receiver.go: the request gate, the translation of one alert, and
    the bounds on what a sender can put into it. The decoded request (method, headers, JSON
    payload) and the clock readings are arguments. *)
From S2P Require Import Prelude GoStd AlertModel Text.

(** ** Constants *)

Definition maxAlertsPerPayload : nat := 2000.
Definition maxLabelKeys : nat := 32.
Definition maxValueLen : Z := 1024.
Definition maxFieldLen : Z := 256.
Definition startsAtPast : duration := 365 * 24 * Hour.
Definition startsAtFuture : duration := 5 * Minute.

Definition identityLabels : list string := ["alertname"; "namespace"; "severity"; "pod"; "instance"; "job"; "node"].
Definition summaryAnnotations : list string := ["summary"; "description"; "message"].

(** [fingerprintOK]: the language of the anchored pattern. *)
Definition fingerprint_char (c : ascii) : bool :=
  within 65 90 c || within 97 122 c || within 48 57 c || ContainsByte "._:-" c.
Definition fingerprintOK (s : string) : bool :=
  (1 <=? slen s) && (slen s <=? 128) && forallb fingerprint_char (chars s).

(** ** The payload *)

Record AMAlert := MkAMAlert {
  am_Status : string;
  am_Labels : gmap string string;
  am_Annotations : gmap string string;
  am_StartsAt : time;
  am_EndsAt : time;
  am_Fingerprint : string;
}.

Record Payload := MkPayload { p_Version : string; p_Status : string; p_Alerts : list AMAlert }.

(** ** Fields *)

(** One step of a range over a string: the bytes of the next rune, [None] where the encoding
    is invalid and one byte is consumed. *)
Definition DecodeRune (l : list ascii) : option (list ascii) :=
  find rune_ok ((λ n, take n l) <$> [1; 2; 3; 4]%nat).

(** [unicode.IsControl]: U+0000 to U+001F and U+007F to U+009F. *)
Definition IsControl (r : list ascii) : bool :=
  match r with
  | [a] => within 0 31 a || within 127 127 a
  | [a; b] => within 194 194 a && within 128 159 b
  | _ => false
  end.

(** U+FFFD, which [strings.Map] writes for an invalid byte. *)
Definition RuneError : list ascii := ["239"; "191"; "189"]%char.

Fixpoint log_map (fuel : nat) (l : list ascii) : list ascii :=
  match fuel, l with
  | S fuel, _ :: l' =>
    match DecodeRune l with
    | Some r => (if IsControl r then [" "%char] else r) ++ log_map fuel (drop (length r) l)
    | None => RuneError ++ log_map fuel l'
    end
  | _, _ => []
  end.

Definition logField (s : string) : string := Head (of_chars (log_map (length (chars s)) (chars s))) maxFieldLen.

Definition label (m : gmap string string) (k : string) : string := default "" (m !! k).

Definition severity (labels : gmap string string) : Severity :=
  let s := label labels "severity" in
  if streq s "critical" || streq s "page" then SeverityCritical
  else if streq s "info" || streq s "none" then SeverityInfo
  else SeverityWarning.

Fixpoint firstOf (m : gmap string string) (keys : list string) : string :=
  match keys with
  | [] => ""
  | k :: keys => if negb (streq (label m k) "") then label m k else firstOf m keys
  end.

Definition clampStartsAt (t now : time) : time :=
  if Before t (Add now (- startsAtPast)) || After t (Add now startsAtFuture) then now else t.

(** ** Bounding a map *)

(** The closure [add]. *)
Definition bound_add (input out : gmap string string) (k : string) : gmap string string :=
  let bk := Head k maxFieldLen in
  match out !! bk with
  | Some _ => out
  | None => if (size out <? maxLabelKeys)%nat then <[bk := Head (label input k) maxValueLen]> out else out
  end.

(** The loop over the reserved keys, then the loop over the sorted keys with its [break]. *)
Fixpoint bound_reserved (input out : gmap string string) (reserved : list string) : gmap string string :=
  match reserved with
  | [] => out
  | k :: reserved => bound_reserved input (match input !! k with Some _ => bound_add input out k | None => out end) reserved
  end.

Fixpoint bound_sorted (input out : gmap string string) (keys : list string) : gmap string string :=
  match keys with
  | [] => out
  | k :: keys => if (maxLabelKeys <=? size out)%nat then out else bound_sorted input (bound_add input out k) keys
  end.

Definition boundMap (input : gmap string string) (reserved : list string) : gmap string string :=
  if (size input =? 0)%nat then input
  else bound_sorted input (bound_reserved input ∅ reserved) (SortedKeys input).

(** ** Translation and serving *)

(** [now] is read by [alert.New], [now'] when the start time is clamped. *)
Definition toAlert (am : AMAlert) (now now' : time) : Alert :=
  let ns := logField (label am.(am_Labels) "namespace") in
  let name := logField (firstOf am.(am_Labels) ["pod"; "instance"; "job"; "alertname"]) in
  let reason := logField (label am.(am_Labels) "alertname") in
  let a := New now KindExternal ns name reason (severity am.(am_Labels)) in
  let a := if fingerprintOK am.(am_Fingerprint) then with_Fingerprint ("am-" +:+ am.(am_Fingerprint)) a else a in
  let s := firstOf am.(am_Annotations) summaryAnnotations in
  let summary := if negb (streq s "") then s else label am.(am_Labels) "alertname" in
  let labels := boundMap am.(am_Labels) identityLabels ∪ a.(a_Labels) in
  let annotations := boundMap am.(am_Annotations) summaryAnnotations ∪ a.(a_Annotations) in
  let annotations := delete AnnotationSlackChannel (delete AnnotationSilenceUntil annotations) in
  let a := with_Annotations annotations
             (with_Labels labels
               (with_NodeName (logField (label am.(am_Labels) "node"))
                 (with_Summary (Head summary maxValueLen) a))) in
  if negb (IsZero am.(am_StartsAt)) then with_StartsAt (clampStartsAt am.(am_StartsAt) now') a else a.

(** A request after the libraries' parsing: [req_media] is [None] for an unparseable content
    type, [req_body] for a body that is too large, not JSON, or followed by more input. *)
Record Request := MkRequest {
  req_Method : string;
  req_Authorization : string;
  req_media : option string;
  req_body : option Payload;
}.

Inductive callback := Firing (a : Alert) | Resolve (a : Alert).

Definition StatusAccepted : Z := 202.
Definition StatusBadRequest : Z := 400.
Definition StatusUnauthorized : Z := 401.
Definition StatusMethodNotAllowed : Z := 405.
Definition StatusRequestEntityTooLarge : Z := 413.

(** The clock is read twice for each alert. *)
Definition serve_one (am : AMAlert) (now now' : time) : callback :=
  let a := toAlert am now now' in
  if streq am.(am_Status) "resolved" then Resolve (with_Resolved true a) else Firing a.

Definition ServeHTTP (token : string) (r : Request) (clock : nat → time * time) : Z * list callback :=
  if negb (streq r.(req_Method) "POST") then (StatusMethodNotAllowed, [])
  else if negb (streq token "") && negb (BearerEqual r.(req_Authorization) token) then (StatusUnauthorized, [])
  else match r.(req_media) with
       | None => (StatusBadRequest, [])
       | Some media =>
         if negb (streq media "application/json") then (StatusBadRequest, [])
         else match r.(req_body) with
              | None => (StatusBadRequest, [])
              | Some p =>
                if (maxAlertsPerPayload <? length p.(p_Alerts))%nat then (StatusRequestEntityTooLarge, [])
                else (StatusAccepted, imap (λ i am, serve_one am (clock i).1 (clock i).2) p.(p_Alerts))
              end
       end.

(** * Theorems *)

(** ** Fields *)

Lemma DecodeRune_Some l r : DecodeRune l = Some r → rune_ok r = true ∧ r = take (length r) l ∧ r ≠ [].
Proof.
  unfold DecodeRune. intros (Hin & Hok)%find_some. apply list_elem_of_In, list_elem_of_fmap in Hin as (n & -> & Hn).
  split_and!; [done| |by intros E; rewrite E in Hok].
  rewrite length_take. destruct (decide (n <= length l)%nat); [by rewrite Nat.min_l|].
  rewrite Nat.min_r, !take_ge by lia. done.
Qed.

(** A sequence of runes none of which is a control character. *)
Inductive printable : list ascii → Prop :=
  | printable_nil : printable []
  | printable_rune r l : rune_ok r = true → IsControl r = false → printable l → printable (r ++ l).

Lemma printable_utf8 l : printable l → utf8 l.
Proof. induction 1; by constructor. Qed.

Lemma log_map_printable fuel l : printable (log_map fuel l).
Proof.
  revert l. induction fuel as [|fuel IH]; intros l; [constructor|]. destruct l as [|c l']; [constructor|].
  cbn [log_map]. destruct (DecodeRune (c :: l')) as [r|] eqn:E; [|by constructor].
  apply DecodeRune_Some in E as (Hr & _ & _). destruct (IsControl r) eqn:Ec; constructor; done.
Qed.

(** A cut at a start byte keeps printability. *)
Lemma printable_take l i :
  printable l → (i = length l ∨ ∃ c, l !! i = Some c ∧ RuneStart c = true) → printable (take i l).
Proof.
  intros Hl. revert i. induction Hl as [|r l Hr Hc Hl IH]; intros i Hi; [rewrite take_nil; constructor|].
  destruct (rune_shape r Hr) as [Hlen Hshape]. destruct (decide (i < length r)%nat) as [Hlt|Hge].
  - destruct Hi as [->|(c & Hi & Hs)]; [rewrite length_app in Hlt; lia|].
    rewrite lookup_app_l in Hi by done. rewrite (Hshape i c Hi) in Hs. apply Nat.eqb_eq in Hs as ->. constructor.
  - rewrite take_app_ge by lia. constructor; [done..|]. apply IH.
    destruct Hi as [->|(c & Hi & Hs)]; [left; rewrite length_app; lia|].
    right. exists c. rewrite lookup_app_r in Hi by lia. done.
Qed.

Lemma logField_safe s : printable (chars (logField s)) ∧ slen (logField s) <= maxFieldLen.
Proof.
  unfold logField. set (t := of_chars _).
  assert (Ht : printable (chars t)) by (unfold t; rewrite chars_of_chars; apply log_map_printable).
  split; [|pose proof (Head_prefix t maxFieldLen) as [_ H]; unfold maxFieldLen in *; lia].
  unfold Head. destruct (Z.leb_spec (slen t) maxFieldLen); [done|]. rewrite chars_of_chars.
  destruct (head_loop_spec (chars t) (Z.to_nat maxFieldLen)) as (j & _ & -> & Hj & _).
  { rewrite chars_length. unfold slen, maxFieldLen in *. lia. }
  destruct Hj as [-> | Hj]; [constructor|]. apply printable_take; auto.
Qed.

(** ** Bounded maps *)

Lemma bound_add_spec input out k :
  let out' := bound_add input out k in
  out ⊆ out' ∧ (size out' <= S (size out))%nat ∧ ((size out <= maxLabelKeys)%nat → (size out' <= maxLabelKeys)%nat)
  ∧ (is_Some (out' !! Head k maxFieldLen) ∨ (maxLabelKeys <= size out')%nat)
  ∧ (∀ k' v, out' !! k' = Some v →
       out !! k' = Some v ∨ (k' = Head k maxFieldLen ∧ v = Head (label input k) maxValueLen)).
Proof.
  cbv zeta. unfold bound_add. destruct (out !! Head k maxFieldLen) as [v|] eqn:E.
  - split_and!; [done|lia|done|left; rewrite E; by eexists|by left].
  - destruct (Nat.ltb_spec (size out) maxLabelKeys).
    + split_and!.
      * by apply insert_subseteq.
      * rewrite map_size_insert_None by done. lia.
      * intros _. rewrite map_size_insert_None by done. lia.
      * left. rewrite lookup_insert_eq. by eexists.
      * intros k' v. destruct (decide (k' = Head k maxFieldLen)) as [->|Hne].
        -- rewrite lookup_insert_eq. intros [= <-]. by right.
        -- rewrite lookup_insert_ne by done. by left.
    + split_and!; [done|lia|done|right; lia|by left].
Qed.

(** Every entry of a bounded map is a truncated entry of the input. *)
Definition truncated_from (input out : gmap string string) : Prop :=
  ∀ k v, out !! k = Some v → ∃ k0 v0, input !! k0 = Some v0 ∧ k = Head k0 maxFieldLen ∧ v = Head v0 maxValueLen.

Lemma bound_add_from input out k :
  is_Some (input !! k) → truncated_from input out → truncated_from input (bound_add input out k).
Proof.
  intros [v0 Hk] Hfrom k' v Hv. apply bound_add_spec in Hv as [Hv|[-> ->]]; [by apply Hfrom|].
  exists k, v0. unfold label. by rewrite Hk.
Qed.

Lemma bound_reserved_spec input out reserved :
  truncated_from input out → (size out + length reserved <= maxLabelKeys)%nat →
  let out' := bound_reserved input out reserved in
  truncated_from input out' ∧ out ⊆ out' ∧ (size out' <= size out + length reserved)%nat
  ∧ (∀ k, k ∈ reserved → is_Some (input !! k) → is_Some (out' !! Head k maxFieldLen)).
Proof.
  revert out. induction reserved as [|k reserved IH]; intros out Hfrom Hs; cbn [bound_reserved]; cbv zeta.
  { simpl. split_and!; [done|done|lia|]. by intros k ?%not_elem_of_nil. }
  destruct (bound_add_spec input out k) as (Hsub & Hsz & _ & Hin & _).
  assert (Hkeep : ∀ o, truncated_from input o → out ⊆ o → (size o <= S (size out))%nat →
    (is_Some (input !! k) → is_Some (o !! Head k maxFieldLen)) →
    let out' := bound_reserved input o reserved in
    truncated_from input out' ∧ out ⊆ out' ∧ (size out' <= size out + S (length reserved))%nat
    ∧ (∀ k', k' ∈ k :: reserved → is_Some (input !! k') → is_Some (out' !! Head k' maxFieldLen))).
  { intros o Ho Hoo Hso Hk. cbv zeta. simpl in Hs. destruct (IH o Ho ltac:(lia)) as (H1 & H2 & H3 & H4).
    split_and!; [done|by transitivity o|lia|]. intros k' [->|Hk']%elem_of_cons Hi; [|by apply H4].
    destruct (Hk Hi) as [v Hv]. exists v. by eapply lookup_weaken. }
  simpl in Hs. destruct (input !! k) as [v|] eqn:Ek; apply Hkeep.
  - apply bound_add_from; [by eexists|done].
  - done.
  - done.
  - intros _. destruct Hin as [Hin|Hfull]; [done|]. unfold bound_add in *.
    destruct (out !! Head k maxFieldLen) eqn:E; [rewrite E; by eexists|].
    rewrite (proj2 (Nat.ltb_lt _ _)) by lia. rewrite lookup_insert_eq. by eexists.
  - done.
  - done.
  - lia.
  - by intros [? ?].
Qed.

Lemma bound_sorted_spec input out keys :
  truncated_from input out → (size out <= maxLabelKeys)%nat → Forall (λ k, is_Some (input !! k)) keys →
  let out' := bound_sorted input out keys in
  truncated_from input out' ∧ out ⊆ out' ∧ (size out' <= maxLabelKeys)%nat
  ∧ (∀ k, k ∈ keys → is_Some (out' !! Head k maxFieldLen) ∨ size out' = maxLabelKeys).
Proof.
  revert out. induction keys as [|k keys IH]; intros out Hfrom Hs Hk; cbn [bound_sorted]; cbv zeta.
  { split_and!; [done..|]. by intros k ?%not_elem_of_nil. }
  destruct (Nat.leb_spec maxLabelKeys (size out)) as [Hfull|Hlt].
  { split_and!; [done..|]. intros ? _. right. lia. }
  apply Forall_cons in Hk as [Hk Hks]. destruct (bound_add_spec input out k) as (Hsub & _ & Hsz & Hin & _).
  destruct (IH (bound_add input out k)) as (H1 & H2 & H3 & H4); [by apply bound_add_from|by apply Hsz|done|].
  split_and!; [done|by transitivity (bound_add input out k)|done|].
  intros k' [->|Hk']%elem_of_cons; [|by apply H4]. destruct Hin as [[v Hv]|Hge].
  - left. exists v. by eapply lookup_weaken.
  - right. pose proof (map_subseteq_size _ _ H2). unfold maxLabelKeys in *. lia.
Qed.

(** What [boundMap] keeps: at most 32 entries, each a truncation of an input entry, every
    reserved key, and everything when there is room. *)
Lemma boundMap_spec input reserved :
  (length reserved <= maxLabelKeys)%nat →
  let out := boundMap input reserved in
  truncated_from input out ∧ (size out <= maxLabelKeys)%nat
  ∧ (∀ k, k ∈ reserved → is_Some (input !! k) → is_Some (out !! Head k maxFieldLen))
  ∧ (∀ k, is_Some (input !! k) → is_Some (out !! Head k maxFieldLen) ∨ size out = maxLabelKeys).
Proof.
  intros Hr. cbv zeta. unfold boundMap. destruct (Nat.eqb_spec (size input) 0) as [Hz|Hnz].
  { apply map_size_empty_iff in Hz as ->. rewrite map_size_empty.
    split_and!; [by intros k v ?%lookup_empty_Some|unfold maxLabelKeys; lia|by intros k _ [? ?%lookup_empty_Some]|].
    by intros k [? ?%lookup_empty_Some]. }
  destruct (bound_reserved_spec input ∅ reserved) as (H1 & _ & H3 & H4);
    [by intros k v ?%lookup_empty_Some|rewrite map_size_empty; lia|]. rewrite map_size_empty in H3.
  destruct (bound_sorted_spec input (bound_reserved input ∅ reserved) (SortedKeys input)) as (H5 & H6 & H7 & H8);
    [done|lia|by apply Forall_forall; intros k ?%SortedKeys_elem|].
  split_and!; [done|done| |].
  - intros k Hk Hi. destruct (H4 k Hk Hi) as [v Hv]. exists v. by eapply lookup_weaken.
  - intros k Hk. apply H8. by apply SortedKeys_elem.
Qed.

(** The entry of a reserved key is its own value, truncated: short keys are not confused. *)
Lemma Head_short s limit : slen s <= limit → Head s limit = s.
Proof. intros H. unfold Head. by rewrite (proj2 (Z.leb_le _ _)). Qed.

Lemma bound_reserved_origin input out reserved k v :
  bound_reserved input out reserved !! k = Some v →
  out !! k = Some v ∨ ∃ k0, k0 ∈ reserved ∧ k = Head k0 maxFieldLen ∧ v = Head (label input k0) maxValueLen.
Proof.
  revert out. induction reserved as [|k0 reserved IH]; intros out; cbn [bound_reserved]; [by left|].
  intros [Hv|(k1 & Hk1 & Hrest)]%IH; [|right; exists k1; split; [by right|done]].
  destruct (input !! k0) as [v0|]; [|by left]. apply bound_add_spec in Hv as [Hv|[-> ->]]; [by left|].
  right. exists k0. split; [by left|done].
Qed.

(** A short reserved key carries its own value. *)
Lemma boundMap_reserved input reserved k v :
  (length reserved <= maxLabelKeys)%nat → Forall (λ k, slen k <= maxFieldLen) reserved →
  k ∈ reserved → input !! k = Some v → boundMap input reserved !! k = Some (Head v maxValueLen).
Proof.
  intros Hr Hshort Hk Hv. unfold boundMap.
  destruct (Nat.eqb_spec (size input) 0) as [Hz|Hnz].
  { apply map_size_empty_iff in Hz as ->. by apply lookup_empty_Some in Hv. }
  assert (Hhead : ∀ k0, k0 ∈ reserved → Head k0 maxFieldLen = k0).
  { intros k0 Hk0. apply Head_short. by apply (proj1 (Forall_forall _ _) Hshort). }
  destruct (bound_reserved_spec input ∅ reserved) as (H1 & _ & H3 & H4);
    [by intros ? ? ?%lookup_empty_Some|rewrite map_size_empty; lia|]. rewrite map_size_empty in H3.
  destruct (bound_sorted_spec input (bound_reserved input ∅ reserved) (SortedKeys input)) as (_ & H6 & _);
    [done|lia|by apply Forall_forall; intros ? ?%SortedKeys_elem|].
  eapply lookup_weaken; [|exact H6]. destruct (H4 k Hk ltac:(by eexists)) as [w Hw]. rewrite Hhead in Hw by done.
  rewrite Hw. f_equal. apply bound_reserved_origin in Hw as [?%lookup_empty_Some|(k0 & Hk0 & E & ->)]; [done|].
  rewrite Hhead in E by done. subst k0. unfold label. by rewrite Hv.
Qed.

(** ** Identity *)

(** A computed fingerprint is hexadecimal. *)
Lemma hexdigit_no_dash n : 0 <= n < 16 → hexdigit false n ≠ "-"%char.
Proof.
  intros Hn. assert (n ∈ seqZ 0 16) as Hin by (apply elem_of_seqZ; lia).
  assert (Hall : Forall (λ n, hexdigit false n ≠ "-"%char) (seqZ 0 16)) by (vm_compute; repeat constructor; discriminate).
  by apply (proj1 (Forall_forall _ _) Hall).
Qed.

Lemma ComputeFingerprint_no_dash k ns n r : "-"%char ∉ chars (ComputeFingerprint k ns n r).
Proof.
  unfold ComputeFingerprint, slice_to, EncodeToString. rewrite !chars_of_chars. intros Hin.
  apply elem_of_take in Hin as (i & Hi & _).
  apply list_elem_of_lookup_2, list_elem_of_In, in_concat in Hi as (h & Hh & Hin).
  apply list_elem_of_In, list_elem_of_fmap in Hh as (b & -> & Hb).
  assert (Hr : 0 <= b < 256).
  { unfold sha256 in Hb. apply list_elem_of_In, in_concat in Hb as (w & Hw & Hb).
    apply list_elem_of_In, list_elem_of_fmap in Hw as (x & -> & _). cbv [PutUint32] in Hb.
    simpl in Hb. destruct Hb as [<-|[<-|[<-|[<-|[]]]]]; apply Z.mod_pos_bound; lia. }
  destruct Hin as [E|[E|[]]]; revert E; apply hexdigit_no_dash.
  - split; [apply Z.div_pos; lia|apply Z.div_lt_upper_bound; lia].
  - apply Z.mod_pos_bound. lia.
Qed.

(** An adopted upstream fingerprint is never one this process computes. *)
Lemma adopted_is_separate id k ns n r : "am-" +:+ id ≠ ComputeFingerprint k ns n r.
Proof.
  intros E. apply (ComputeFingerprint_no_dash k ns n r). rewrite <- E. rewrite chars_app. set_solver.
Qed.

(** ** Translation *)

(** The values a translated alert carries, field by field. *)
Lemma toAlert_fields am now now' :
  let a := toAlert am now now' in
  a.(a_Kind) = KindExternal ∧ a.(a_Severity) = severity am.(am_Labels) ∧ a.(a_Resolved) = false
  ∧ a.(a_Namespace) = logField (label am.(am_Labels) "namespace")
  ∧ a.(a_Name) = logField (firstOf am.(am_Labels) ["pod"; "instance"; "job"; "alertname"])
  ∧ a.(a_Reason) = logField (label am.(am_Labels) "alertname")
  ∧ a.(a_NodeName) = logField (label am.(am_Labels) "node")
  ∧ a.(a_Labels) = boundMap am.(am_Labels) identityLabels
  ∧ a.(a_Annotations) = delete AnnotationSlackChannel
                          (delete AnnotationSilenceUntil (boundMap am.(am_Annotations) summaryAnnotations))
  ∧ (∃ s, a.(a_Summary) = Head s maxValueLen)
  ∧ a.(a_StartsAt) = (if IsZero am.(am_StartsAt) then now else clampStartsAt am.(am_StartsAt) now').
Proof.
  cbv zeta. unfold toAlert. destruct (fingerprintOK _), (IsZero _);
    cbn -[ComputeFingerprint boundMap logField Head severity firstOf streq clampStartsAt label delete AnnotationSilenceUntil AnnotationSlackChannel];
    rewrite ?map_union_empty; repeat (split; [reflexivity|]); (split; [by eexists|reflexivity]).
Qed.

(** The identity a translated alert gets from its labels and upstream fingerprint alone. *)
Definition received_fingerprint (am : AMAlert) : string :=
  if fingerprintOK am.(am_Fingerprint) then "am-" +:+ am.(am_Fingerprint)
  else ComputeFingerprint KindExternal (logField (label am.(am_Labels) "namespace"))
         (logField (firstOf am.(am_Labels) ["pod"; "instance"; "job"; "alertname"]))
         (logField (label am.(am_Labels) "alertname")).

Lemma toAlert_fingerprint am now now' : (toAlert am now now').(a_Fingerprint) = received_fingerprint am.
Proof.
  unfold toAlert, received_fingerprint.
  destruct (fingerprintOK _), (IsZero _); reflexivity.
Qed.

Lemma severity_Valid labels : Severity_Valid (severity labels) = true.
Proof. unfold severity. by destruct (_ || _); [|destruct (_ || _)]. Qed.

Lemma clampStartsAt_range t now :
  now - startsAtPast <= clampStartsAt t now <= now + startsAtFuture.
Proof.
  unfold clampStartsAt, Add. assert (0 < startsAtPast ∧ 0 < startsAtFuture) as [? ?] by (by vm_compute).
  destruct (Before t _) eqn:Eb; cbn [orb]; [lia|]. destruct (After t _) eqn:Ea; [lia|].
  apply Before_false in Eb. apply After_false in Ea. lia.
Qed.

Lemma Head_le s limit : 0 <= limit → slen (Head s limit) <= limit.
Proof. intros H. pose proof (Head_prefix s limit) as [_ ?]. lia. Qed.

Lemma truncated_from_bounds input out k v :
  truncated_from input out → out !! k = Some v → slen k <= maxFieldLen ∧ slen v <= maxValueLen.
Proof. intros Hf Hv. apply Hf in Hv as (k0 & v0 & _ & -> & ->). split; by apply Head_le. Qed.

(** C27: what a forwarded alert can and cannot carry. Whatever the sender puts into it, the
    translated alert is an External alert of a known severity; its fingerprint is either a safe
    upstream id behind "am-", which no alert this process computes can have, or computed here;
    identity fields are valid UTF-8 without control characters and at most 256 bytes; labels and
    annotations are bounded in number and length and keep every label the alert was built from;
    the silencing and channel annotations are gone; and the start time lies within a year before
    and five minutes after the clock. *)
Theorem toAlert_contained am now now' :
  let a := toAlert am now now' in
  a.(a_Kind) = KindExternal ∧ Severity_Valid a.(a_Severity) = true
  ∧ (fingerprintOK am.(am_Fingerprint) = true →
       a.(a_Fingerprint) = "am-" +:+ am.(am_Fingerprint) ∧ ∀ k ns n r, a.(a_Fingerprint) ≠ ComputeFingerprint k ns n r)
  ∧ (fingerprintOK am.(am_Fingerprint) = false →
       a.(a_Fingerprint) = ComputeFingerprint a.(a_Kind) a.(a_Namespace) a.(a_Name) a.(a_Reason))
  ∧ (∀ f, f ∈ [a.(a_Namespace); a.(a_Name); a.(a_Reason); a.(a_NodeName)] →
       printable (chars f) ∧ utf8 (chars f) ∧ slen f <= maxFieldLen)
  ∧ slen a.(a_Summary) <= maxValueLen
  ∧ (∀ m, m = a.(a_Labels) ∨ m = a.(a_Annotations) →
       (size m <= maxLabelKeys)%nat ∧ ∀ k v, m !! k = Some v → slen k <= maxFieldLen ∧ slen v <= maxValueLen)
  ∧ (∀ k v, k ∈ identityLabels → am.(am_Labels) !! k = Some v → a.(a_Labels) !! k = Some (Head v maxValueLen))
  ∧ a.(a_Annotations) !! AnnotationSilenceUntil = None ∧ a.(a_Annotations) !! AnnotationSlackChannel = None
  ∧ (if IsZero am.(am_StartsAt) then a.(a_StartsAt) = now
     else now' - startsAtPast <= a.(a_StartsAt) <= now' + startsAtFuture).
Proof.
  cbv zeta. destruct (toAlert_fields am now now') as (Hk & Hs & _ & Hns & Hn & Hr & Hnode & Hl & Ha & [s Hsum] & Hst).
  rewrite toAlert_fingerprint, Hk, Hs, Hns, Hn, Hr, Hnode, Hsum, Hst.
  pose proof (boundMap_spec am.(am_Labels) identityLabels ltac:(vm_compute; lia)) as (Hlf & Hlz & _).
  pose proof (boundMap_spec am.(am_Annotations) summaryAnnotations ltac:(vm_compute; lia)) as (Haf & Haz & _).
  split_and!.
  - done.
  - apply severity_Valid.
  - unfold received_fingerprint. intros ->. split; [done|]. intros. apply adopted_is_separate.
  - unfold received_fingerprint. by intros ->.
  - assert (Hf : ∀ x, printable (chars (logField x)) ∧ utf8 (chars (logField x)) ∧ slen (logField x) <= maxFieldLen).
    { intros x. destruct (logField_safe x). split_and!; [done|by apply printable_utf8|done]. }
    intros f Hf'. rewrite !elem_of_cons, elem_of_nil in Hf'. by destruct Hf' as [->|[->|[->|[->|[]]]]].
  - by apply Head_le.
  - intros m [->| ->]; [rewrite Hl|rewrite Ha].
    + split; [done|]. intros k v. by apply truncated_from_bounds with (1 := Hlf).
    + split; [etrans; [apply map_subseteq_size; etrans; apply delete_subseteq|done]|].
      intros k v Hv. apply lookup_delete_Some in Hv as [_ Hv]. apply lookup_delete_Some in Hv as [_ Hv].
      by apply truncated_from_bounds with (1 := Haf) in Hv.
  - intros k v Hkey Hv. rewrite Hl. apply boundMap_reserved; [vm_compute; lia|by repeat constructor|done..].
  - rewrite Ha, lookup_delete_ne by done. by apply lookup_delete_eq.
  - rewrite Ha. by apply lookup_delete_eq.
  - destruct (IsZero _); [done|]. apply clampStartsAt_range.
Qed.

(** ** Serving *)

(** A request has an effect only when it is authorized and well formed; then each alert of the
    payload, at most 2000, causes one callback, in order, and a resolve carries the fingerprint
    a firing with the same labels and upstream id carried. *)
Lemma ServeHTTP_spec token r clock :
  let '(status, calls) := ServeHTTP token r clock in
  (calls ≠ [] → status = StatusAccepted)
  ∧ (status = StatusAccepted →
       r.(req_Method) = "POST" ∧ (token ≠ "" → BearerEqual r.(req_Authorization) token = true)
       ∧ ∃ p, r.(req_body) = Some p ∧ (length p.(p_Alerts) <= maxAlertsPerPayload)%nat
         ∧ length calls = length p.(p_Alerts)
         ∧ ∀ i am, p.(p_Alerts) !! i = Some am →
             ∃ a, a.(a_Fingerprint) = received_fingerprint am
               ∧ calls !! i = Some (if streq am.(am_Status) "resolved" then Resolve a else Firing a)).
Proof.
  unfold ServeHTTP. destruct (streq (req_Method r) "POST") eqn:Em; cbn [negb]; [|done]. apply streq_true in Em.
  destruct (negb (streq token "") && negb (BearerEqual (req_Authorization r) token)) eqn:Et; [done|].
  destruct (req_media r) as [media|]; [|done]. destruct (streq media "application/json"); cbn [negb]; [|done].
  destruct (req_body r) as [p|] eqn:Eb; [|done].
  destruct (Nat.ltb_spec maxAlertsPerPayload (length (p_Alerts p))); [done|]. split; [done|]. intros _.
  split; [done|]. split.
  { intros Hne. apply andb_false_iff in Et as [Et|Et]; apply negb_false_iff in Et; [by apply streq_true in Et|done]. }
  exists p. split; [done|]. split; [lia|]. split; [by rewrite length_imap|].
  intros i am Hi. rewrite list_lookup_imap, Hi. cbn [fmap option_fmap option_map]. unfold serve_one.
  destruct (streq (am_Status am) "resolved"); eexists; (split; [|reflexivity]); apply toAlert_fingerprint.
Qed.

(** ** Examples *)

Definition example_am : AMAlert :=
  MkAMAlert "firing" {["alertname" := "HighLatency"; "pod" := "api-0"; "severity" := "page"]}
    {["summary" := "slow"; "alert-silence-until" := "2099-01-01T00:00:00Z"]} 0 0 "../admin?x=1".

(** The unsafe id is not adopted, the silence annotation is stripped. *)
Example example_received :
  let a := toAlert example_am 1000 1000 in
  a.(a_Severity) = SeverityCritical ∧ a.(a_Name) = "api-0" ∧ a.(a_Annotations) = {["summary" := "slow"]}
  ∧ a.(a_Fingerprint) = ComputeFingerprint "External" "" "api-0" "HighLatency".
Proof. vm_compute. done. Qed.

(** A control character, two bytes wide or one, becomes a space; an invalid byte U+FFFD. *)
Example example_logField :
  logField (of_chars ["a"; "010"; "b"; "194"; "133"; "c"; "255"]%char) = of_chars ["a"; " "; "b"; " "; "c"; "239"; "191"; "189"]%char.
Proof. by vm_compute. Qed.
