(* ===== verification/Console.v ===== *)
(** * The HTTP surface: internal/metrics/{server,handlers}.go and the console of internal/app

    Models the route table with its leader-scoped slots, the health probes, and the handlers of
    internal/app/{apiutil,console,console_read,console_silences,console_channels}.go with the
    two authorization modes (internal/authz/rbac.go); the per-request credentials it passes on
    are those of [Payloads]. A request is what net/http parsed; the JSON and YAML decoders, the
    Kubernetes reviews and a sink's answer are arguments. *)
From S2P Require Import Prelude GoStd AlertModel Text Escape Slack Payloads SilenceStore AlertStore Filter Config Sinks Dispatcher Receiver.

(** ** Requests and responses *)

(** A body as the handler can read it: its bytes, or a read failure. *)
Inductive body := Body (bytes : string) | BodyFailed.

Record Request := MkRequest {
  rq_Method : string;
  rq_Path : string;
  rq_RawQuery : string;
  rq_Authorization : string;
  rq_User : string;              (** X-Alertkube-User *)
  rq_Body : body;
}.

Inductive reply :=
  | Empty
  | ErrorBody (msg : string)
  | ConfigErrorBody (e : cfg_error)
  | Verdict (err : option string)
  | ConfigVerdict (err : option (option cfg_error)) (** [Some None]: the YAML does not parse *)
  | Alerts (active recent : list Alert)
  | Silences (runtime : list Silence)
  | Created (sil : Silence)
  | Channels (names : list string)
  | DeadLetters (entries : list deadLetterEntry)
  | ConfigBody (body : string)
  | Location (url : string)
  | Profile.

Record Response := MkResponse { status : Z; content : reply }.

Definition StatusOK : Z := 200.
Definition StatusCreated : Z := 201.
Definition StatusNoContent : Z := 204.
Definition StatusPermanentRedirect : Z := 308.
Definition StatusForbidden : Z := 403.
Definition StatusNotFound : Z := 404.
Definition StatusInternalServerError : Z := 500.
Definition StatusServiceUnavailable : Z := 503.

Definition httpErr (code : Z) (msg : string) : Response := MkResponse code (ErrorBody msg).
Definition writeVerdict (err : option string) : Response := MkResponse StatusOK (Verdict err).
Definition bare (code : Z) : Response := MkResponse code Empty.

(** ** apiutil.go *)

Definition configBodyLimit : Z := 2 ^ 20.
Definition silenceBodyLimit : Z := 64 * 1024.
Definition channelBodyLimit : Z := 8 * 1024.

Definition readBody (req : Request) (limit : Z) : Response + string :=
  match req.(rq_Body) with
  | Body b => if limit <? slen b then inl (httpErr StatusRequestEntityTooLarge "request body too large") else inr b
  | BodyFailed => inl (httpErr StatusBadRequest "read body")
  end.

Definition decodeJSON {A} (req : Request) (limit : Z) (unmarshal : string → option A) : Response + A :=
  match readBody req limit with
  | inl r => inl r
  | inr b => match unmarshal b with
             | Some x => inr x
             | None => inl (httpErr StatusBadRequest "invalid JSON body")
             end
  end.

Definition newConsoleTestAlert (now : time) (cluster summary : string) : Alert :=
  with_Event true (with_Summary summary (with_Cluster cluster
    (New now KindPod "alertkube" "console-test" "AlertkubeConsoleTest" SeverityInfo))).

(** The callback of [sanitizeField]: newlines and tabs become blanks, other control characters
    vanish. *)
Definition sanitize_rune (r : list ascii) : list ascii :=
  match r with
  | [a] => if bool_decide (byte_of a ∈ [10; 13; 9]) then [" "%char] else if byte_of a <? 32 then [] else r
  | _ => r
  end.

Fixpoint sanitize_map (fuel : nat) (l : list ascii) : list ascii :=
  match fuel, l with
  | S fuel, _ :: l' =>
    match DecodeRune l with
    | Some r => sanitize_rune r ++ sanitize_map fuel (drop (length r) l)
    | None => RuneError ++ sanitize_map fuel l'
    end
  | _, _ => []
  end.

Definition sanitizeField (s : string) : string :=
  TrimSpace (Head (of_chars (sanitize_map (length (chars s)) (chars s))) 200).

Definition mutationDisabled : string :=
  "runtime mutation is disabled: set ALERTKUBE_API_WRITE_TOKEN (helm: api.writeToken)".

(** [None] is authorized. *)
Definition writeAuthorized (req : Request) (writeToken : string) : option Response :=
  if streq writeToken "" then Some (httpErr StatusForbidden mutationDisabled)
  else if negb (BearerEqual req.(rq_Authorization) writeToken) then Some (bare StatusUnauthorized)
  else None.

(** ** rbac.go *)

Record ResourceAttributes := MkAttr { at_Group : string; at_Resource : string; at_Subresource : string; at_Verb : string }.
Record UserInfo := MkUser { u_Username : string; u_UID : string; u_Groups : list string; u_Extra : gmap string (list string) }.

(** The two reviews: [None] when the call failed; a review of a token gives the user when it
    authenticated. *)
Record Reviews := MkReviews {
  TokenReview : string → option (option UserInfo);
  SubjectAccessReview : UserInfo → ResourceAttributes → option bool;
}.

(** The user, the verdict, and whether the check itself failed. *)
Definition Authorize (k : Reviews) (token : string) (attr : ResourceAttributes) : string * bool * bool :=
  if streq token "" then ("", false, false)
  else match k.(TokenReview) token with
       | None => ("", false, true)
       | Some None => ("", false, false)
       | Some (Some u) => match k.(SubjectAccessReview) u attr with
                          | None => (u.(u_Username), false, true)
                          | Some allowed => (u.(u_Username), allowed, false)
                          end
       end.

(** ** console.go *)

Inductive write_auth := SharedToken (token : string) | RBAC (reviews : Reviews).

Definition newWriteGate (auth : write_auth) (req : Request) (attr : ResourceAttributes) : Response + string :=
  match auth with
  | RBAC k =>
    let token := TrimPrefix req.(rq_Authorization) "Bearer " in
    if streq token "" then inl (httpErr StatusUnauthorized "a Kubernetes bearer token is required")
    else match Authorize k token attr with
         | (_, _, true) => inl (httpErr StatusServiceUnavailable "authorization check failed")
         | (_, false, _) => inl (httpErr StatusForbidden ("not authorized to " +:+ attr.(at_Verb) +:+ " " +:+ attr.(at_Resource) +:+ "." +:+ attr.(at_Group)))
         | (user, true, false) => inr user
         end
  | SharedToken writeToken =>
    match writeAuthorized req writeToken with
    | Some r => inl r
    | None => let h := sanitizeField req.(rq_User) in inr (if negb (streq h "") then h else "shared-token")
    end
  end.

(** The mode [buildConsoleDeps] selects. *)
Definition console_auth (getenv : string → string) (reviews : Reviews) : write_auth :=
  if streq (ToLower (getenv "ALERTKUBE_AUTH_MODE")) "rbac" then RBAC reviews
  else SharedToken (getenv "ALERTKUBE_API_WRITE_TOKEN").

Record consoleDeps := MkDeps {
  cd_apiToken : string;
  cd_auth : write_auth;
  cd_cluster : string;
  cd_config : option string;       (** the body [renderConfigBody] gave at construction *)
  cd_store : Store;
  cd_sil : SilStore;
  cd_reg : Registry;
  cd_deadLetter : option (list deadLetterEntry);
  cd_secretReader : option (string → string → option string);
}.

Definition set_cd_sil (s : SilStore) (d : consoleDeps) : consoleDeps :=
  MkDeps d.(cd_apiToken) d.(cd_auth) d.(cd_cluster) d.(cd_config) d.(cd_store) s d.(cd_reg) d.(cd_deadLetter) d.(cd_secretReader).

(** [None] is authorized. *)
Definition readAuthorized (d : consoleDeps) (req : Request) : option Response :=
  if negb (streq d.(cd_apiToken) "") && negb (BearerEqual req.(rq_Authorization) d.(cd_apiToken))
  then Some (bare StatusUnauthorized) else None.

(** [newPprofHandler]: [None] when the slot stays empty. *)
Definition newPprofHandler (getenv : string → string) (d : consoleDeps) : option (Request → Response) :=
  if negb (streq (ToLower (getenv "ALERTKUBE_ENABLE_PPROF")) "true") then None
  else if streq d.(cd_apiToken) "" then None
  else Some (λ req, match readAuthorized d req with Some r => r | None => MkResponse StatusOK Profile end).

(** ** Paths (server.go) *)

Definition APIPrefix : string := "/api/v1".
Definition ReceiverPath : string := APIPrefix +:+ "/receiver/alerts".
Definition SilencesPath : string := APIPrefix +:+ "/silences".
Definition SilencesIDPrefix : string := SilencesPath +:+ "/".
Definition ChannelsPath : string := APIPrefix +:+ "/channels".
Definition ChannelsTestPath : string := ChannelsPath +:+ "/test".
Definition ChannelsTestRefPath : string := ChannelsPath +:+ "/test-ref".

(** ** The handlers *)

(** A test-fire: the sink, the alert and the credential overrides of its context. *)
Record test_fire := MkFire { tf_sink : string; tf_alert : Alert; tf_creds : option (gmap string string) }.

Record channel_ref := MkRef { cr_Type : string; cr_SecretName : string; cr_SecretKey : string }.

(** What the handlers meet: the decoders, the clock, random bytes, and the text of a sink's
    error ([None] when the send succeeded). *)
Record environment := MkEnv {
  en_silence : string → option (gmap string string * string * string);
  en_sink : string → option string;
  en_ref : string → option channel_ref;
  en_yaml : string → option (gset string * Config);
  en_getenv : string → string;
  en_now : time;
  en_added : time;               (** the clock reading of the store's [Add] *)
  en_random : list Z;
  en_send : test_fire → option string;
}.

Section handlers.
Context `{RegexpLib} `{MapRange} `{TimeLib} `{ZoneLib}.
Variable env : environment.

(** A handler's response, the dependencies after it and the sends it made. *)
Abbreviation handled := (Response * consoleDeps * list test_fire)%type (only parsing).

Definition readJSON (d : consoleDeps) (body : reply) (req : Request) : handled :=
  match readAuthorized d req with
  | Some r => (r, d, [])
  | None => (MkResponse StatusOK body, d, [])
  end.

Definition newDeadLetterHandler (d : consoleDeps) (req : Request) : handled :=
  readJSON d (DeadLetters (match d.(cd_deadLetter) with Some l => deadletter_List l | None => [] end)) req.

Definition newAlertsHandler (d : consoleDeps) (req : Request) : handled :=
  readJSON d (Alerts (ActiveList d.(cd_store)) (Recent d.(cd_store))) req.

Definition newConfigHandler (d : consoleDeps) (req : Request) : handled :=
  match readAuthorized d req with
  | Some r => (r, d, [])
  | None => match d.(cd_config) with
            | None => (bare StatusInternalServerError, d, [])
            | Some body => (MkResponse StatusOK (ConfigBody body), d, [])
            end
  end.

Definition newValidateHandler (d : consoleDeps) (req : Request) : handled :=
  match readAuthorized d req with
  | Some r => (r, d, [])
  | None =>
    if negb (streq req.(rq_Method) "POST") then (bare StatusMethodNotAllowed, d, [])
    else match readBody req configBodyLimit with
         | inl r => (r, d, [])
         | inr body =>
           let verdict := match env.(en_yaml) body with
                          | None => Some None
                          | Some (set, c) => Some <$> ParseAndValidate env.(en_getenv) set c
                          end in
           (MkResponse StatusOK (ConfigVerdict verdict), d, [])
         end
  end.

Definition create_silence (d : consoleDeps) (req : Request) : handled :=
  match newWriteGate d.(cd_auth) req (MkAttr "alertkube.io" "silences" "" "create") with
  | inl r => (r, d, [])
  | inr user =>
    match decodeJSON req silenceBodyLimit env.(en_silence) with
    | inl r => (r, d, [])
    | inr (matchers, until_text, comment) =>
      match SelectiveMatchers "matchers" matchers with
      | Some e => (MkResponse StatusBadRequest (ConfigErrorBody e), d, [])
      | None =>
        match ParseRFC3339 until_text with
        | None => (httpErr StatusBadRequest "until must be an RFC3339 timestamp", d, [])
        | Some until =>
          if negb (After until env.(en_now)) then (httpErr StatusBadRequest "until must be in the future", d, [])
          else let '(sil, store) := SilAdd env.(en_random) env.(en_added)
                                      (MkSilence "" matchers until (sanitizeField comment) user 0) d.(cd_sil) in
               (MkResponse StatusCreated (Created sil), set_cd_sil store d, [])
        end
      end
    end
  end.

Definition delete_silence (d : consoleDeps) (req : Request) : handled :=
  match newWriteGate d.(cd_auth) req (MkAttr "alertkube.io" "silences" "" "delete") with
  | inl r => (r, d, [])
  | inr user =>
    let id := TrimPrefix req.(rq_Path) SilencesIDPrefix in
    if streq id "" || Contains id "/" then (httpErr StatusBadRequest "silence id required: DELETE /api/v1/silences/{id}", d, [])
    else let '(found, store) := SilDelete id d.(cd_sil) in
         if negb found then (bare StatusNotFound, d, []) else (bare StatusNoContent, set_cd_sil store d, [])
  end.

Definition newSilencesHandler (d : consoleDeps) (req : Request) : handled :=
  if streq req.(rq_Method) "GET" then
    match readAuthorized d req with
    | Some r => (r, d, [])
    | None => (MkResponse StatusOK (Silences (SilList d.(cd_sil))), d, [])
    end
  else if streq req.(rq_Method) "POST" then create_silence d req
  else if streq req.(rq_Method) "DELETE" then delete_silence d req
  else (bare StatusMethodNotAllowed, d, []).

Definition test_summary : string := "Test alert from the AlertKube console - if you can read this, the channel is wired correctly.".
Definition test_ref_summary : string :=
  "Test alert from the AlertKube console (Secret reference) - if you can read this, the channel credential is valid.".

Definition test_channel (d : consoleDeps) (req : Request) : handled :=
  match newWriteGate d.(cd_auth) req (MkAttr "alertkube.io" "channels" "" "create") with
  | inl r => (r, d, [])
  | inr user =>
    match decodeJSON req channelBodyLimit env.(en_sink) with
    | inl r => (r, d, [])
    | inr sink =>
      if streq sink "" then (httpErr StatusBadRequest "sink is required", d, [])
      else if negb (Has sink d.(cd_reg)) then (httpErr StatusBadRequest ("unknown sink: " +:+ sanitizeField sink), d, [])
      else let fire := MkFire sink (newConsoleTestAlert env.(en_now) d.(cd_cluster) test_summary) None in
           (writeVerdict (env.(en_send) fire), d, [fire])
    end
  end.

Definition testChannelBySecretRef (d : consoleDeps) (req : Request) : handled :=
  match newWriteGate d.(cd_auth) req (MkAttr "alertkube.io" "channels" "" "create") with
  | inl r => (r, d, [])
  | inr user =>
    match d.(cd_secretReader) with
    | None => (httpErr StatusForbidden "Secret-reference channel testing is disabled: set api.allowSecretRead=true (grants the controller secrets:get in its namespace)", d, [])
    | Some secretReader =>
      match decodeJSON req channelBodyLimit env.(en_ref) with
      | inl r => (r, d, [])
      | inr ref =>
        match CredentialEnv ref.(cr_Type) with
        | None => (httpErr StatusBadRequest ("unsupported channel type: " +:+ sanitizeField ref.(cr_Type)), d, [])
        | Some envName =>
          if streq ref.(cr_SecretName) "" || streq ref.(cr_SecretKey) ""
          then (httpErr StatusBadRequest "secretRef.name and secretRef.key are required", d, [])
          else if negb (Has ref.(cr_Type) d.(cd_reg))
          then (httpErr StatusBadRequest ("unknown sink: " +:+ sanitizeField ref.(cr_Type)), d, [])
          else match secretReader ref.(cr_SecretName) ref.(cr_SecretKey) with
               | None => (httpErr StatusBadRequest ("could not read secret " +:+ sanitizeField ref.(cr_SecretName) +:+ "/" +:+ sanitizeField ref.(cr_SecretKey)), d, [])
               | Some val =>
                 if streq val "" then (httpErr StatusBadRequest "referenced secret key is empty", d, [])
                 else let fire := MkFire ref.(cr_Type) (newConsoleTestAlert env.(en_now) d.(cd_cluster) test_ref_summary)
                                    (WithCreds {[envName := val]}) in
                      let sendErr := (λ e, if Contains e val then ReplaceAll e val "[REDACTED]" else e) <$> env.(en_send) fire in
                      (writeVerdict sendErr, d, [fire])
               end
        end
      end
    end
  end.

Definition newChannelsHandler (d : consoleDeps) (req : Request) : handled :=
  if streq req.(rq_Method) "GET" && streq req.(rq_Path) ChannelsPath then
    match readAuthorized d req with
    | Some r => (r, d, [])
    | None => (MkResponse StatusOK (Channels (Names d.(cd_reg))), d, [])
    end
  else if streq req.(rq_Method) "POST" && streq req.(rq_Path) ChannelsTestPath then test_channel d req
  else if streq req.(rq_Method) "POST" && streq req.(rq_Path) ChannelsTestRefPath then testChannelBySecretRef d req
  else (bare StatusMethodNotAllowed, d, []).

(** [buildSecretReader]: the namespaced reader, when it is switched on. *)
Definition buildSecretReader (getSecret : string → string → option (gmap string string)) : option (string → string → option string) :=
  if negb (streq (ToLower (env.(en_getenv) "ALERTKUBE_ALLOW_SECRET_READ")) "true") then None
  else let ns := env.(en_getenv) "POD_NAMESPACE" in
       if streq ns "" then None
       else Some (λ name key, data ← getSecret ns name; data !! key).
End handlers.

(** ** server.go and handlers.go *)

Inductive slot := SAlerts | SReceiver | SConfig | SValidate | SSilences | SChannels | SDeadLetter | SPprof.
#[global] Instance slot_dec : EqDecision slot.
Proof. solve_decision. Defined.

(** The target of a registered pattern; [RAlerts] is [alertsRoute], [RLegacy] a deprecated alias. *)
Inductive route := RSlot (s : slot) | RAlerts | RLegacy.

Definition api_routes : list (string * route) :=
  [(APIPrefix +:+ "/alerts", RAlerts); (APIPrefix +:+ "/config", RSlot SConfig);
   (APIPrefix +:+ "/config/validate", RSlot SValidate);
   (SilencesPath, RSlot SSilences); (SilencesIDPrefix, RSlot SSilences);
   (ChannelsPath, RSlot SChannels); (ChannelsTestPath, RSlot SChannels); (ChannelsTestRefPath, RSlot SChannels);
   (APIPrefix +:+ "/deadletter", RSlot SDeadLetter); (ReceiverPath, RSlot SReceiver);
   ("/api/alerts", RLegacy); ("/api/config", RLegacy); ("/api/config/validate", RLegacy);
   ("/api/silences", RLegacy); ("/api/silences/", RLegacy); ("/api/channels", RLegacy);
   ("/api/channels/test", RLegacy); ("/api/channels/test-ref", RLegacy); ("/api/deadletter", RLegacy);
   ("/debug/pprof/", RSlot SPprof)].

(** [ServeMux]: an exact pattern, or the longest pattern ending in a slash that is a prefix;
    for a cleaned path. *)
Definition pattern_matches (path pattern : string) : bool :=
  streq path pattern || (HasSuffix pattern "/" && HasPrefix path pattern).
Definition longer (a b : option (string * route)) : option (string * route) :=
  match a, b with
  | Some p, Some q => if (String.length q.1 <? String.length p.1)%nat then a else b
  | None, _ => b
  | _, None => a
  end.
Definition mux_lookup (routes : list (string * route)) (path : string) : option route :=
  snd <$> foldr longer None (Some <$> filter (λ p, pattern_matches path p.1 = true) routes).

(** [HandlerSlot]: which slots hold a handler. *)
Record leader := MkLeader { ld_installed : slot → bool; ld_deps : consoleDeps; ld_receiver_token : string }.

Definition slot_Set (s : slot) (l : leader) : leader :=
  MkLeader (λ s', bool_decide (s' = s) || l.(ld_installed) s') l.(ld_deps) l.(ld_receiver_token).
Definition slot_Clear (s : slot) (l : leader) : leader :=
  MkLeader (λ s', negb (bool_decide (s' = s)) && l.(ld_installed) s') l.(ld_deps) l.(ld_receiver_token).

Definition leaderSlots : list slot := [SAlerts; SReceiver; SConfig; SValidate; SSilences; SChannels; SDeadLetter; SPprof].
Definition ClearLeaderHandlers (l : leader) : leader := fold_left (λ l s, slot_Clear s l) leaderSlots l.

(** [installConsoleHandlers], with profiling when its handler exists. *)
Definition installConsoleHandlers (getenv : string → string) (l : leader) : leader :=
  let l := fold_left (λ l s, slot_Set s l) [SAlerts; SConfig; SValidate; SSilences; SChannels; SDeadLetter] l in
  match newPprofHandler getenv l.(ld_deps) with Some _ => slot_Set SPprof l | None => l end.

Definition deprecatedAlias (req : Request) : Response :=
  let target := APIPrefix +:+ TrimPrefix req.(rq_Path) "/api" in
  let target := if negb (streq req.(rq_RawQuery) "") then target +:+ "?" +:+ req.(rq_RawQuery) else target in
  MkResponse StatusPermanentRedirect (Location target).

Section serving.
Context `{RegexpLib} `{MapRange} `{TimeLib} `{ZoneLib}.
Variable env : environment.

(** A response, the leader after it, the sends and the callbacks into the pipeline. *)
Abbreviation served := (Response * leader * list test_fire * list callback)%type (only parsing).

(** The receiver's answer from its own model. *)
Variable receive : string → Request → Z * list callback.

Definition run_slot (s : slot) (l : leader) (req : Request) : served :=
  if negb (l.(ld_installed) s) then (bare StatusServiceUnavailable, l, [], [])
  else
    let deps (h : Response * consoleDeps * list test_fire) : served :=
      let '(r, d, fires) := h in (r, MkLeader l.(ld_installed) d l.(ld_receiver_token), fires, []) in
    match s with
    | SAlerts => deps (newAlertsHandler l.(ld_deps) req)
    | SConfig => deps (newConfigHandler l.(ld_deps) req)
    | SValidate => deps (newValidateHandler env l.(ld_deps) req)
    | SSilences => deps (newSilencesHandler env l.(ld_deps) req)
    | SChannels => deps (newChannelsHandler env l.(ld_deps) req)
    | SDeadLetter => deps (newDeadLetterHandler l.(ld_deps) req)
    | SReceiver => let '(code, calls) := receive l.(ld_receiver_token) req in (bare code, l, [], calls)
    | SPprof => match newPprofHandler env.(en_getenv) l.(ld_deps) with
                | Some h => (h req, l, [], [])
                | None => (bare StatusServiceUnavailable, l, [], [])
                end
    end.

(** [alertsRoute]. *)
Definition alertsRoute (l : leader) (req : Request) : served :=
  if streq req.(rq_Method) "POST" then (MkResponse StatusPermanentRedirect (Location ReceiverPath), l, [], [])
  else run_slot SAlerts l req.

Definition api_serve (l : leader) (req : Request) : served :=
  match mux_lookup api_routes req.(rq_Path) with
  | None => (bare StatusNotFound, l, [], [])
  | Some RAlerts => alertsRoute l req
  | Some RLegacy => (deprecatedAlias req, l, [], [])
  | Some (RSlot s) => run_slot s l req
  end.
End serving.

(** The receiver in its slot: [media] and [decode] are the libraries' parsing of the content
    type and of the bounded body. *)
Definition ReceiverHandler (media : Request → option string) (decode : body → option Payload)
    (clock : nat → time * time) (token : string) (req : Request) : Z * list callback :=
  ServeHTTP token (Receiver.MkRequest req.(rq_Method) req.(rq_Authorization) (media req) (decode req.(rq_Body))) clock.

(** The probes: leadership, the last heartbeat and readiness. *)
Record probes := MkProbes { pr_ready : bool; pr_leading : bool; pr_lastBeat : time }.

Definition LivenessStaleWindow : duration := 120 * Second.
Definition MarkReady (p : probes) : probes := MkProbes true p.(pr_leading) p.(pr_lastBeat).
Definition MarkNotReady (p : probes) : probes := MkProbes false p.(pr_leading) p.(pr_lastBeat).
Definition SetLeading (now : time) (v : bool) (p : probes) : probes :=
  MkProbes p.(pr_ready) v (if v then now else p.(pr_lastBeat)).
Definition Heartbeat (now : time) (p : probes) : probes := MkProbes p.(pr_ready) p.(pr_leading) now.
Definition livenessOK (now : time) (p : probes) : bool :=
  if negb p.(pr_leading) then true
  else if p.(pr_lastBeat) =? 0 then true
  else Sub now p.(pr_lastBeat) <? LivenessStaleWindow.
Definition healthz (now : time) (p : probes) : Z := if livenessOK now p then StatusOK else StatusServiceUnavailable.
Definition readyz (p : probes) : Z := if p.(pr_ready) then StatusOK else StatusServiceUnavailable.

(** Which route sets the listeners of [Serve] carry. *)
Inductive listener := Combined (addr : string) | MetricsOnly (addr : string) | APIOnly (addr : string).
Definition Serve (metricsAddr apiAddr : string) : list listener :=
  if streq apiAddr "" || streq apiAddr metricsAddr
  then if streq metricsAddr "" then [] else [Combined metricsAddr]
  else (if negb (streq metricsAddr "") then [MetricsOnly metricsAddr] else []) ++ [APIOnly apiAddr].

(** * Theorems *)

(** The placeholder does not contain the credential, nor overlap with it at an end. *)
Definition redactable (val : string) : Prop := overlap_free (chars val) (chars "[REDACTED]").


Section console_theorems.
Context `{RegexpLib} `{MapRange} `{TimeLib} `{ZoneLib}.
Variable env : environment.

(** ** Authorization *)

(** What passing the write gate means in each mode. *)
Definition write_allowed (auth : write_auth) (req : Request) (attr : ResourceAttributes) : Prop :=
  match auth with
  | SharedToken token => token ≠ "" ∧ BearerEqual req.(rq_Authorization) token = true
  | RBAC k =>
    let token := TrimPrefix req.(rq_Authorization) "Bearer " in
    token ≠ "" ∧ ∃ u, k.(TokenReview) token = Some (Some u) ∧ k.(SubjectAccessReview) u attr = Some true
  end.

Lemma newWriteGate_allowed auth req attr user : newWriteGate auth req attr = inr user → write_allowed auth req attr.
Proof.
  unfold newWriteGate, write_allowed. destruct auth as [token|k].
  - unfold writeAuthorized. destruct (streq token "") eqn:Et; [done|]. apply streq_false in Et.
    destruct (BearerEqual _ token); [done|done].
  - destruct (streq (TrimPrefix (rq_Authorization req) "Bearer ") "") eqn:Et; [done|]. unfold Authorize. rewrite Et.
    apply streq_false in Et. destruct (TokenReview k _) as [[u|]|] eqn:Er; [|done|done].
    destruct (SubjectAccessReview k u attr) as [[]|] eqn:Es; [|done|done]. intros _. split; [done|]. by exists u.
Qed.

(** A handler acts on the outside only after the gate let the request through. *)
Definition guarded (d : consoleDeps) (req : Request) (attrs : list ResourceAttributes)
    (h : Response * consoleDeps * list test_fire) : Prop :=
  (∃ s, h.1.2 = set_cd_sil s d)
  ∧ ((h.1.2 ≠ d ∨ h.2 ≠ []) → ∃ attr, attr ∈ attrs ∧ write_allowed d.(cd_auth) req attr).

Lemma guarded_idle d req attrs r : guarded d req attrs (r, d, []).
Proof. split; [exists (cd_sil d); by destruct d|]. by intros [?|?]. Qed.

Lemma guarded_gated d req attr attrs user r s fires :
  newWriteGate d.(cd_auth) req attr = inr user → attr ∈ attrs → guarded d req attrs (r, set_cd_sil s d, fires).
Proof. intros Hg Hin. split; [by exists s|]. intros _. exists attr. split; [done|]. by eapply newWriteGate_allowed. Qed.

Lemma set_cd_sil_id d : set_cd_sil (cd_sil d) d = d.
Proof. by destruct d. Qed.

Lemma guarded_fires d req attr attrs user r fires :
  newWriteGate d.(cd_auth) req attr = inr user → attr ∈ attrs → guarded d req attrs (r, d, fires).
Proof. intros Hg Hin. rewrite <- (set_cd_sil_id d) at 2. by eapply guarded_gated. Qed.

Definition silence_attrs : list ResourceAttributes :=
  [MkAttr "alertkube.io" "silences" "" "create"; MkAttr "alertkube.io" "silences" "" "delete"].
Definition channel_attrs : list ResourceAttributes := [MkAttr "alertkube.io" "channels" "" "create"].

Lemma silences_guarded d req : guarded d req silence_attrs (newSilencesHandler env d req).
Proof.
  unfold newSilencesHandler. destruct (streq _ "GET"); [destruct (readAuthorized d req); apply guarded_idle|].
  destruct (streq _ "POST").
  { unfold create_silence. destruct (newWriteGate _ _ _) as [r|user] eqn:Eg; [apply guarded_idle|].
    destruct (decodeJSON _ _ _) as [r|[[m u] c]]; [apply guarded_idle|].
    destruct (SelectiveMatchers _ _); [apply guarded_idle|]. destruct (ParseRFC3339 u); [|apply guarded_idle].
    destruct (negb _); [apply guarded_idle|]. destruct (SilAdd _ _ _ _) as [sil st].
    eapply guarded_gated; [exact Eg|by left]. }
  destruct (streq _ "DELETE"); [|apply guarded_idle].
  unfold delete_silence. destruct (newWriteGate _ _ _) as [r|user] eqn:Eg; [apply guarded_idle|].
  destruct (_ || _); [apply guarded_idle|]. destruct (SilDelete _ _) as [found st].
  destruct found; [|apply guarded_idle]. eapply guarded_gated; [exact Eg|right; by left].
Qed.

Lemma channels_guarded d req : guarded d req channel_attrs (newChannelsHandler env d req).
Proof.
  unfold newChannelsHandler. destruct (_ && _); [destruct (readAuthorized d req); apply guarded_idle|].
  destruct (_ && _).
  { unfold test_channel. destruct (newWriteGate _ _ _) as [r|user] eqn:Eg; [apply guarded_idle|].
    destruct (decodeJSON _ _ _) as [r|sink]; [apply guarded_idle|]. destruct (streq sink ""); [apply guarded_idle|].
    destruct (negb _); [apply guarded_idle|]. eapply guarded_fires; [exact Eg|by left]. }
  destruct (_ && _); [|apply guarded_idle].
  unfold testChannelBySecretRef. destruct (newWriteGate _ _ _) as [r|user] eqn:Eg; [apply guarded_idle|].
  destruct (cd_secretReader d); [|apply guarded_idle]. destruct (decodeJSON _ _ _) as [r|ref]; [apply guarded_idle|].
  destruct (CredentialEnv _); [|apply guarded_idle]. destruct (_ || _); [apply guarded_idle|].
  destruct (negb _); [apply guarded_idle|]. destruct (o _ _) as [val|]; [|apply guarded_idle].
  destruct (streq val ""); [apply guarded_idle|]. eapply guarded_fires; [exact Eg|by left].
Qed.

Lemma reads_guarded d req attrs :
  guarded d req attrs (newAlertsHandler d req) ∧ guarded d req attrs (newConfigHandler d req)
  ∧ guarded d req attrs (newValidateHandler env d req) ∧ guarded d req attrs (newDeadLetterHandler d req).
Proof.
  unfold newAlertsHandler, newConfigHandler, newValidateHandler, newDeadLetterHandler, readJSON.
  destruct (readAuthorized d req); split_and!; try apply guarded_idle.
  - destruct (cd_config d); apply guarded_idle.
  - destruct (negb _); [apply guarded_idle|]. destruct (readBody _ _); apply guarded_idle.
Qed.

(** What a served request may do. *)
Definition contained (l : leader) (req : Request) (out : Response * leader * list test_fire * list callback) : Prop :=
  let '(r, l', fires, calls) := out in
  l'.(ld_installed) = l.(ld_installed) ∧ l'.(ld_receiver_token) = l.(ld_receiver_token)
  ∧ (∃ s, l'.(ld_deps) = set_cd_sil s l.(ld_deps))
  ∧ ((l'.(ld_deps) ≠ l.(ld_deps) ∨ fires ≠ []) →
       ∃ attr, attr ∈ silence_attrs ++ channel_attrs ∧ write_allowed l.(ld_deps).(cd_auth) req attr)
  ∧ (calls ≠ [] → l.(ld_installed) SReceiver = true).

Lemma contained_idle l req r : contained l req (r, l, [], []).
Proof. unfold contained. split_and!; [done..|exists (cd_sil (ld_deps l)); by rewrite set_cd_sil_id|by intros [?|?]|done]. Qed.

Lemma contained_guarded l req attrs h :
  attrs ⊆ silence_attrs ++ channel_attrs → guarded l.(ld_deps) req attrs h →
  contained l req (let '(r, d, fires) := h in (r, MkLeader l.(ld_installed) d l.(ld_receiver_token), fires, [])).
Proof.
  intros Hsub [Hs Hg]. destruct h as [[r d] fires]. simpl in *. split_and!; [done..| |done].
  intros Hch. destruct (Hg Hch) as (attr & Hin & Ha). exists attr. split; [by apply Hsub|done].
Qed.

Variable receive : string → Request → Z * list callback.

Lemma run_slot_contained s l req : contained l req (run_slot env receive s l req).
Proof.
  unfold run_slot. destruct (ld_installed l s) eqn:Ei; cbn [negb]; [|apply contained_idle].
  destruct (reads_guarded (ld_deps l) req []) as (Ha & Hc & Hv & Hd).
  destruct s.
  - apply (contained_guarded l req [] _ (list_subseteq_nil _) Ha).
  - destruct (receive _ _) as [code calls]. unfold contained.
    split_and!; [done..|exists (cd_sil (ld_deps l)); by rewrite set_cd_sil_id|by intros [?|?]|done].
  - apply (contained_guarded l req [] _ (list_subseteq_nil _) Hc).
  - apply (contained_guarded l req [] _ (list_subseteq_nil _) Hv).
  - apply (contained_guarded l req silence_attrs); [set_solver|apply silences_guarded].
  - apply (contained_guarded l req channel_attrs); [set_solver|apply channels_guarded].
  - apply (contained_guarded l req [] _ (list_subseteq_nil _) Hd).
  - destruct (newPprofHandler _ _); apply contained_idle.
Qed.

Lemma cleared_installed l s : (ClearLeaderHandlers l).(ld_installed) s = false.
Proof. by destruct s. Qed.

(** C20: the API acts on the outside only for authorized requests, and only on the leader.
    Whatever request arrives, installed handlers, tokens and everything but the runtime
    silences stay as they are; a changed silence or a test-fire means that the write gate let
    the request through (with a shared token: a nonempty token the request carries; in RBAC
    mode: a token Kubernetes authenticated for a user it allows this very action); and once the
    leader's handlers are cleared no request changes, sends or accepts anything, and every
    route answers 503, a redirect or 404. *)
Theorem api_authorized l req :
  contained l req (api_serve env receive l req)
  ∧ let '(r, l', fires, calls) := api_serve env receive (ClearLeaderHandlers l) req in
    l' = ClearLeaderHandlers l ∧ fires = [] ∧ calls = []
    ∧ (r.(status) = StatusServiceUnavailable ∨ r.(status) = StatusPermanentRedirect ∨ r.(status) = StatusNotFound).
Proof.
  unfold api_serve. split.
  - destruct (mux_lookup api_routes (rq_Path req)) as [[s| |]|]; try apply contained_idle; [apply run_slot_contained|].
    unfold alertsRoute. destruct (streq _ _); [apply contained_idle|apply run_slot_contained].
  - assert (Hs : ∀ s, run_slot env receive s (ClearLeaderHandlers l) req = (bare StatusServiceUnavailable, ClearLeaderHandlers l, [], []))
      by (intros s; unfold run_slot; by rewrite cleared_installed).
    destruct (mux_lookup api_routes (rq_Path req)) as [[s| |]|].
    + rewrite Hs. by split_and!; [..|left].
    + unfold alertsRoute. destruct (streq _ _); [|rewrite Hs; by split_and!; [..|left]].
      split_and!; [done..|by right; left].
    + split_and!; [done..|by right; left].
    + split_and!; [done..|by right; right].
Qed.






End console_theorems.

(** ** Examples *)

Section examples.
#[local] Existing Instances mini_regexp mini_time mini_zone.

Definition example_env : environment := {|
  en_silence b := if streq b "{silence}" then Some ({["reason" := "OOMKilled"]}, "2000-03-01T00:00:01Z", "maintenance") else None;
  en_sink b := Some b;
  en_ref b := Some (MkRef "slack" "creds" "url");
  en_yaml _ := None;
  en_getenv _ := "";
  en_now := 1000; en_added := 1001; en_random := [1; 2; 3; 4; 5; 6];
  en_send f := Some "dial https://hooks.example/T0: refused";
|}.

Definition example_deps (token : string) : consoleDeps :=
  MkDeps "" (SharedToken token) "prod" None (NewStore Minute Minute false) NewSilStore
    (registry_Add "slack" (λ _, true) NewRegistry) None (Some (λ _ _, Some "https://hooks.example/T0")).

Definition example_post (path auth b : string) : Request := MkRequest "POST" path "" auth "ops" (Body b).

(** With a token the silence is created under its author; without one writes are disabled. *)
Example example_create :
  let '(r, d, _) := newSilencesHandler example_env (example_deps "s3cret") (example_post SilencesPath "Bearer s3cret" "{silence}") in
  r.(status) = StatusCreated ∧ size d.(cd_sil).(ss_items) = 1%nat
  ∧ (newSilencesHandler example_env (example_deps "") (example_post SilencesPath "Bearer " "{silence}")).1.1.(status) = StatusForbidden
  ∧ (newSilencesHandler example_env (example_deps "s3cret") (example_post SilencesPath "Bearer wrong" "{silence}")).1.1.(status) = StatusUnauthorized.
Proof. by vm_compute. Qed.

Example example_redacted :
  (testChannelBySecretRef example_env (example_deps "s3cret") (example_post ChannelsTestRefPath "Bearer s3cret" "{}")).1.1
  = writeVerdict (Some "dial [REDACTED]: refused").
Proof. by vm_compute. Qed.


(** A credential that is a letter of the placeholder is not hidden by it. *)
Example short_credential_echoed :
  Contains (ReplaceAll "key E rejected" "E" "[REDACTED]") "E" = true ∧ ¬ redactable "E".
Proof. split; [by vm_compute|]. intros [Hin _]. by apply (Hin (chars "[R") (chars "DACTED]")). Qed.

(** A deprecated path leads to the slot of its versioned path. *)
Example example_aliases :
  forallb (λ p, match mux_lookup api_routes p, mux_lookup api_routes (APIPrefix +:+ TrimPrefix p "/api") with
                | Some RLegacy, Some (RSlot _ | RAlerts) => true | _, _ => false end)
    ["/api/alerts"; "/api/config"; "/api/config/validate"; "/api/silences"; "/api/silences/0a1b"; "/api/channels";
     "/api/channels/test"; "/api/channels/test-ref"; "/api/deadletter"] = true.
Proof. by vm_compute. Qed.
End examples.
