(* ===== verification/Startup.v ===== *)
(** * internal/app/{app,cli,builders}.go: from the command line to a running controller

    The flag package as the code uses it; the subcommands; what [Run] decides before it connects
    (configuration, shard identity, state name); the retry loop of [buildClient] against a
    clock; the construction of clients, sinks and cloud sources. [Pipeline.runController_init]
    is the state [runController] starts from. *)
From S2P Require Import Watchers Prelude GoStd AlertModel Shard Config ConfigTheory ConfigFile Router Sinks Sources Slack Payloads Pipeline.

(** ** Package flag *)

Inductive flag_kind := StringFlag | BoolFlag.

Inductive flag_error :=
| ErrHelp
| BadSyntax (arg : string)
| Undefined (name : string)
| NeedsArgument (name : string)
| BadBool (value name : string).

(** [strconv.ParseBool]. *)
Definition ParseBool (s : string) : option bool :=
  if bool_decide (s ∈ ["1"; "t"; "T"; "TRUE"; "true"; "True"]) then Some true
  else if bool_decide (s ∈ ["0"; "f"; "F"; "FALSE"; "false"; "False"]) then Some false
  else None.

(** The part before the first [=] and the part after it. *)
Fixpoint cut_equals (s : string) : string * option string :=
  match s with
  | EmptyString => ("", None)
  | String c s =>
      if decide (c = "="%char) then ("", Some s)
      else let '(name, value) := cut_equals s in (String c name, value)
  end.

Inductive flag_arg :=
| NotAFlag                                        (* a positional: parsing stops before it *)
| Terminator                                      (* --: parsing stops after it *)
| BadFlag
| Flag (name : string) (value : option string).

(** How [parseOne] reads its argument. A leading [=] is refused, so the name is not empty. *)
Definition classify (arg : string) : flag_arg :=
  let named (s : string) :=
    match s with
    | EmptyString => BadFlag
    | String c _ => if decide (c = "-"%char ∨ c = "="%char) then BadFlag
                    else let '(name, value) := cut_equals s in Flag name value
    end in
  match arg with
  | String "-" EmptyString => NotAFlag
  | String "-" (String "-" EmptyString) => Terminator
  | String "-" (String "-" s) => named s
  | String "-" s => named s
  | _ => NotAFlag
  end.

(** [FlagSet.Parse]: the flags that were set, and the remaining arguments. *)
Fixpoint FlagSet_Parse (formal : gmap string flag_kind) (set : gmap string string) (args : list string) :
    flag_error + (gmap string string * list string) :=
  match args with
  | [] => inr (set, [])
  | arg :: rest =>
      match classify arg with
      | NotAFlag => inr (set, arg :: rest)
      | Terminator => inr (set, rest)
      | BadFlag => inl (BadSyntax arg)
      | Flag name value =>
          match formal !! name with
          | None => inl (if streq name "help" || streq name "h" then ErrHelp else Undefined name)
          | Some BoolFlag =>
              match value with
              | None => FlagSet_Parse formal (<[name := "true"]> set) rest
              | Some v =>
                  match ParseBool v with
                  | None => inl (BadBool v name)
                  | Some _ => FlagSet_Parse formal (<[name := v]> set) rest
                  end
              end
          | Some StringFlag =>
              match value with
              | Some v => FlagSet_Parse formal (<[name := v]> set) rest
              | None =>
                  match rest with
                  | [] => inl (NeedsArgument name)
                  | v :: rest => FlagSet_Parse formal (<[name := v]> set) rest
                  end
              end
          end
      end
  end.

(** ** app.go: the flags *)

Record runtimeFlags := MkFlags {
  kubeconfig : string;
  configPath : string;
  watchNamespace : string;
  leaderElect : bool;
  leaderElectionNS : string;
  leaderElectionLeaseID : string;
  watchSilenceCRD : bool;
}.

Definition envConfigPath (getenv : string → string) : string := getenv "ALERTKUBE_CONFIG".

Definition controller_flags : gmap string flag_kind := {[
  "kubeconfig" := StringFlag; "config" := StringFlag; "watch-namespace" := StringFlag;
  "leader-elect" := BoolFlag; "leader-election-namespace" := StringFlag;
  "leader-election-id" := StringFlag; "watch-silence-crd" := BoolFlag ]}.

Definition string_flag (set : gmap string string) (name def : string) : string := default def (set !! name).
Definition bool_flag (set : gmap string string) (name : string) (def : bool) : bool :=
  default def (set !! name ≫= ParseBool).

(** [homeKubeconfig] is ~/.kube/config when there is a home directory. *)
Definition parseFlags (getenv : string → string) (homeKubeconfig : option string) (args : list string) :
    flag_error + runtimeFlags :=
  match FlagSet_Parse controller_flags ∅ args with
  | inl e => inl e
  | inr (set, _) => inr (MkFlags
      (string_flag set "kubeconfig" (default "" homeKubeconfig))
      (string_flag set "config" (envConfigPath getenv))
      (string_flag set "watch-namespace" (getenv "WATCH_NAMESPACE"))
      (bool_flag set "leader-elect" (env_Bool getenv "LEADER_ELECT" false))
      (string_flag set "leader-election-namespace" (Or_ getenv "LEADER_ELECTION_NAMESPACE" "kube-system"))
      (string_flag set "leader-election-id" (getenv "POD_NAME"))
      (bool_flag set "watch-silence-crd" (env_Bool getenv "ALERTKUBE_WATCH_SILENCE_CRD" false)))
  end.

(** flag.CommandLine exits: 0 after the help, 2 on an error. *)
Definition flag_exit (e : flag_error) : Z := match e with ErrHelp => 0 | _ => 2 end.

(** ** cli.go *)

Section cli.
Context `{YamlLib} (getenv : string → string) `{RegexpLib} `{MapRange} `{TimeLib} `{ZoneLib}.
Context (readFile : string → option string).

(** What [runValidate] prints about, and exits with. *)
Inductive validity :=
| BadUsage (e : flag_error)
| NoPath
| Invalid (path : string) (e : load_error)
| Valid_ (path : string).

Definition exit_code (v : validity) : Z :=
  match v with BadUsage _ | NoPath => 2 | Invalid _ _ => 1 | Valid_ _ => 0 end.

Definition runValidate (args : list string) : validity :=
  match FlagSet_Parse {["config" := StringFlag]} ∅ args with
  | inl e => BadUsage e
  | inr (set, rest) =>
      let path := string_flag set "config" "" in
      let path := if streq path "" then default path (head rest) else path in
      let path := if streq path "" then envConfigPath getenv else path in
      if streq path "" then NoPath
      else match LoadFile getenv readFile path with
           | inl e => Invalid path e
           | inr _ => Valid_ path
           end
  end.

Definition runVersion (version goVersion goos goarch : string) : list string * Z :=
  ([appName +:+ " " +:+ version; "  go:    " +:+ goVersion; "  arch:  " +:+ goos +:+ "/" +:+ goarch], 0).

(** [None]: not a subcommand, the controller starts. *)
Definition dispatchSubcommand (args : list string) : option Z :=
  match args with
  | [] => None
  | cmd :: rest =>
      if bool_decide (cmd ∈ ["version"; "--version"; "-version"]) then Some (runVersion "" "" "" "").2
      else if streq cmd "validate" then Some (exit_code (runValidate rest))
      else None
  end.

(** ** app.go: what [Run] decides before it connects *)

Inductive halt :=
| Exited_ (code : Z)
| FatalLoad (e : load_error)
| FatalShard (index total : Z)
| FatalScope (e : cfg_error).

Record boot := MkBoot { bt_flags : runtimeFlags; bt_config : Config; bt_sharder : Sharder }.

(** The configuration and the shard identity, in [Run]'s order. *)
Definition bootConfig (path : string) : halt + (Config * Sharder) :=
  match LoadFile getenv readFile path with
  | inl e => inl (FatalLoad e)
  | inr c =>
      match FromEnv getenv with
      | inl (index, total) => inl (FatalShard index total)
      | inr s =>
          match ApplyShardScope (shard_Index (Some s)) (Shard.Enabled (Some s)) c with
          | inl e => inl (FatalScope e)
          | inr c => inr (c, s)
          end
      end
  end.

Definition Run (homeKubeconfig : option string) (args : list string) : halt + boot :=
  match dispatchSubcommand args with
  | Some code => inl (Exited_ code)
  | None =>
      match parseFlags getenv homeKubeconfig args with
      | inl e => inl (Exited_ (flag_exit e))
      | inr flags =>
          match bootConfig flags.(configPath) with
          | inl h => inl h
          | inr (c, s) => inr (MkBoot flags c s)
          end
      end
  end.
End cli.

(** ** builders.go: the API client *)

Definition kubeconfigRetryBudget : duration := 30 * Second.
Definition defaultClientQPS : Z := 50.
Definition defaultClientBurst : Z := 100.

(** One turn of the loop: whether [buildConfig] and [NewForConfig] both succeed, and how long
    they take. *)
Record attempt := MkAttempt { at_ok : bool; at_took : duration }.

Inductive client_outcome :=
| ClientReady (t : time)
| FatalInit (t : time)
| SignalExit (t : time).

Definition outcome_time (o : client_outcome) : time :=
  match o with ClientReady t | FatalInit t | SignalExit t => t end.

Definition next_backoff (backoff : duration) : duration :=
  if backoff <? 5 * Second then wrap64 (backoff * 2) else backoff.

(** [signal] is when the context is cancelled. When it is as the backoff ends, the cancelled
    context is the case taken. *)
Fixpoint connect_loop (fuel : nat) (deadline : time) (backoff : duration) (now : time)
    (signal : option time) (attempts : nat → attempt) : option client_outcome :=
  match fuel with
  | O => None
  | S fuel =>
      let a := attempts O in
      let now := now + a.(at_took) in
      if a.(at_ok) then Some (ClientReady now)
      else if After now deadline then Some (FatalInit now)
      else
        let go := connect_loop fuel deadline (next_backoff backoff) (now + backoff) signal (λ k, attempts (S k)) in
        match signal with
        | Some s => if s <=? now + backoff then Some (SignalExit (Z.max now s)) else go
        | None => go
        end
  end.

Definition buildClient (fuel : nat) (start : time) (signal : option time) (attempts : nat → attempt) :
    option client_outcome :=
  connect_loop fuel (Add start kubeconfigRetryBudget) (500 * Millisecond) start signal attempts.

(** client-go's loaders are arguments. *)
Definition buildConfig {E C} (stat : string → bool) (fromFlags : string → E + C) (inCluster : E + C)
    (kubeconfig : string) : E + C :=
  if negb (streq kubeconfig "") && stat kubeconfig then fromFlags kubeconfig
  else match inCluster with inr c => inr c | inl _ => fromFlags kubeconfig end.

(** [QPS] before its conversion to float32. *)
Record rest_Config := MkRest { rc_QPS : Z; rc_Burst : Z }.

Definition applyClientThrottle (getenv : string → string) (cfg : rest_Config) : rest_Config :=
  let qps := IntOr getenv "ALERTKUBE_CLIENT_QPS" defaultClientQPS in
  let burst := IntOr getenv "ALERTKUBE_CLIENT_BURST" defaultClientBurst in
  let cfg := if 0 <? qps then MkRest qps cfg.(rc_Burst) else cfg in
  if 0 <? burst then MkRest cfg.(rc_QPS) burst else cfg.

Definition buildDynamicClient {E C D} (config : E + C) (throttle : C → C) (newForConfig : C → E + D) : E + D :=
  match config with inl e => inl e | inr c => newForConfig (throttle c) end.

(** ** builders.go: the sinks *)

Section build_sinks.
Context `{TimeLib} `{SlackTime} `{MapRange}.

Definition sink_config (cfg : Config) : SinkConfig :=
  MkSinkConfig cfg.(Config.Cluster)
    {[ SeverityCritical := cfg.(Cf_Channels).(Ch_Critical);
       SeverityWarning := cfg.(Cf_Channels).(Ch_Warning);
       SeverityInfo := cfg.(Cf_Channels).(Ch_Info) ]}.

Definition add_sink (r : Registry) (s : Sink) : Registry := registry_Add s.(Name) s.(Supports) r.

Definition override_rate (r : Registry) (nr : string * SinkRate) : Registry :=
  SetRate nr.1 nr.2.(PerSecond) nr.2.(Burst) r.

Definition buildSinks (factories : gmap string (SinkConfig → Sink)) (cfg : Config) : Registry :=
  foldl override_rate (foldl add_sink NewRegistry (BuildDefault factories (sink_config cfg))) (range cfg.(SinkRates)).
End build_sinks.

(** ** controller.go: cloud sources and informers *)

(** The providers that start, with their interval and sources. *)
Definition startCloudSources {Cfg S E} (providers : list (Provider Cfg S E)) (cfg : Cfg) :
    list (string * duration * list S) :=
  omap (λ p,
    let bound := p.(Bind) cfg in
    if negb bound.(Sources.Enabled) then None
    else match bound.(Build) with
         | inl _ => None
         | inr [] => None
         | inr srcs => Some (p.(prov_Name), Seconds bound.(PollSeconds), srcs)
         end) providers.

(** The watchers that are set up, and whether the process reports ready: only after the caches
    synced ([syncErr] is the wait's error) with the context still live. *)
Definition startInformers (watchNamespace : string) (syncErr cancelled : bool) : list string * bool :=
  (Watchers.Build watchNamespace, negb syncErr && negb cancelled).

(** The store of Silence resources is consulted by the router only when there is a client to
    fill it. *)
Definition setupCRDSilences (dynClient : bool) (r : Router) : Router :=
  if dynClient then SetCRDSilences (Some []) r else r.

(** * Theorems *)

(** ** The retry loop *)

(** The sleeps between [n] attempts, starting from [backoff]. *)
Fixpoint sleeps (n : nat) (backoff : duration) : duration :=
  match n with O | S O => 0 | S n => backoff + sleeps n (next_backoff backoff) end.

(** The time the first [n] attempts take. *)
Fixpoint took (n : nat) (attempts : nat → attempt) : duration :=
  match n with O => 0 | S n => (attempts O).(at_took) + took n (λ k, attempts (S k)) end.

Lemma took_nonneg n : ∀ attempts, (∀ k, 0 <= (attempts k).(at_took)) → 0 <= took n attempts.
Proof.
  induction n as [|n IH]; intros attempts Ha; simpl; [lia|].
  pose proof (Ha O). pose proof (IH (λ k, attempts (S k)) (λ k, Ha (S k))). simpl in *. lia.
Qed.

Definition small_backoff (b : duration) : Prop := 0 <= b <= 10 * Second.

Lemma next_backoff_small b : small_backoff b → small_backoff (next_backoff b).
Proof.
  unfold small_backoff, next_backoff, Second. intros Hb. destruct (Z.ltb_spec b (5 * 1000000000)); [|lia].
  rewrite wrap64_small; unfold in64; lia.
Qed.

Lemma sleeps_nonneg n : ∀ b, small_backoff b → 0 <= sleeps n b.
Proof.
  induction n as [|[|n] IH]; intros b Hb; [done..|].
  pose proof (IH _ (next_backoff_small _ Hb)). unfold small_backoff in Hb. simpl in *. lia.
Qed.

(** When the fuel's sleeps reach past the deadline the loop has an outcome: no earlier than now,
    no later than all attempts and sleeps, and after a signal no later than the attempt that
    was running. *)
Lemma connect_loop_ends fuel : ∀ deadline b now signal attempts,
  small_backoff b → (∀ k, 0 <= (attempts k).(at_took)) → (0 < fuel)%nat → deadline < now + sleeps fuel b →
  ∃ o, connect_loop fuel deadline b now signal attempts = Some o
    ∧ now <= outcome_time o <= now + took fuel attempts + sleeps fuel b
    ∧ ∀ s, signal = Some s → ∃ k, outcome_time o <= Z.max now s + (attempts k).(at_took).
Proof.
  induction fuel as [|fuel IH]; intros deadline b now signal attempts Hb Ha Hf Hd; [lia|].
  pose proof (Ha O) as H0. pose proof (sleeps_nonneg (S fuel) b Hb) as Hs.
  pose proof (took_nonneg fuel (λ k, attempts (S k)) (λ k, Ha (S k))) as Ht.
  assert (Hdone : ∀ o, outcome_time o = now + at_took (attempts O) →
    now <= outcome_time o <= now + took (S fuel) attempts + sleeps (S fuel) b
    ∧ ∀ s, signal = Some s → ∃ k, outcome_time o <= Z.max now s + (attempts k).(at_took)).
  { intros o ->. split; [simpl took; lia|]. intros s _. exists O. lia. }
  cbn [connect_loop]. destruct (at_ok (attempts O)); [eexists; split; [done|by apply Hdone]|].
  destruct (After _ deadline) eqn:Hafter; [eexists; split; [done|by apply Hdone]|].
  apply After_false in Hafter.
  destruct fuel as [|fuel]; [simpl in Hd; lia|].
  assert (Hgo : ∀ sg, (∀ s, sg = Some s → now + at_took (attempts O) + b < s) → sg = signal → ∃ o,
    connect_loop (S fuel) deadline (next_backoff b) (now + at_took (attempts O) + b) sg (λ k, attempts (S k)) = Some o
    ∧ now <= outcome_time o <= now + took (S (S fuel)) attempts + sleeps (S (S fuel)) b
    ∧ ∀ s, signal = Some s → ∃ k, outcome_time o <= Z.max now s + (attempts k).(at_took)).
  { intros sg Hlate <-. destruct (IH deadline (next_backoff b) (now + at_took (attempts O) + b) sg (λ k, attempts (S k)))
      as (o & Ho & Hbd & Hsg); [by apply next_backoff_small|done|lia|cbn [sleeps] in *; lia|].
    exists o. split; [done|]. unfold small_backoff in Hb. split; [cbn [sleeps took] in *; lia|].
    intros s E. destruct (Hsg s E) as [k Hk]. exists (S k). specialize (Hlate s E). lia. }
  destruct signal as [s|]; [|by apply Hgo].
  destruct (Z.leb_spec s (now + at_took (attempts O) + b)).
  - eexists. split; [done|]. unfold small_backoff in Hb. cbn [outcome_time sleeps took] in *. split.
    + pose proof (sleeps_nonneg (S fuel) _ (next_backoff_small _ Hb)). cbn [sleeps] in *. lia.
    + intros s' [= <-]. exists O. lia.
  - apply Hgo; [|done]. intros s' [= <-]. lia.
Qed.

(** Connecting to the API server at startup always comes to an end within eight attempts,
    whatever fails and however long each try takes: a client, the fatal error once the 30s
    budget has passed, or the exit on a shutdown signal. The sleeps between attempts total at
    most 31.5s, and a signal is honoured as soon as the attempt in progress returns. *)
Theorem buildClient_ends start signal attempts :
  (∀ k, 0 <= (attempts k).(at_took)) →
  ∃ o, buildClient 8 start signal attempts = Some o
    ∧ start <= outcome_time o <= start + took 8 attempts + 31500 * Millisecond
    ∧ (∀ s, signal = Some s → ∃ k, outcome_time o <= Z.max start s + (attempts k).(at_took)).
Proof.
  intros Ha. change (31500 * Millisecond) with (sleeps 8 (500 * Millisecond)).
  apply connect_loop_ends; [|done|lia|].
  - unfold small_backoff, Second, Millisecond. lia.
  - unfold Add. change (sleeps 8 (500 * Millisecond)) with (31500 * Millisecond).
    unfold kubeconfigRetryBudget, Second, Millisecond. lia.
Qed.

(** Every attempt is refused at once and no signal comes: fatal at 31.5s. *)
Definition refused_attempts (k : nat) : attempt := MkAttempt false 0.

Lemma buildClient_ends_witness :
  ∃ o, buildClient 8 0 (Some (10 * Second)) refused_attempts = Some o
    ∧ outcome_time o <= 10 * Second ∧ buildClient 8 0 None refused_attempts = Some (FatalInit (31500 * Millisecond)).
Proof.
  destruct (buildClient_ends 0 (Some (10 * Second)) refused_attempts) as (o & Ho & _ & Hs); [intros k; simpl; lia|].
  exists o. split; [exact Ho|]. split; [|vm_compute; reflexivity].
  destruct (Hs _ eq_refl) as [k Hk]. simpl in Hk. unfold Second in *. lia.
Defined.

(** ** The sinks a validated configuration can reach *)

Section reach.
Context `{TimeLib} `{SlackTime} `{MapRange}.

Lemma foldl_add_sinks l : ∀ r name,
  ((foldl add_sink r l).(rg_sinks) !! name ≠ None ↔ r.(rg_sinks) !! name ≠ None ∨ name ∈ Payloads.Name <$> l)
  ∧ ((foldl add_sink r l).(rg_limiters) !! name =
      match r.(rg_limiters) !! name with
      | Some x => Some x
      | None => if bool_decide (name ∈ Payloads.Name <$> l) then Some (defaultSinkRate, defaultSinkBurst) else None
      end).
Proof.
  induction l as [|s l IH]; intros r name; simpl.
  - split; [rewrite elem_of_nil; tauto|]. by destruct (rg_limiters r !! name).
  - destruct (IH (add_sink r s) name) as [Hi ->]. rewrite Hi. clear IH Hi.
    unfold add_sink, registry_Add. simpl. split.
    + rewrite elem_of_cons. destruct (decide (name = s.(Payloads.Name))) as [->|Hn].
      * rewrite lookup_insert_eq. naive_solver.
      * rewrite lookup_insert_ne by done. naive_solver.
    + destruct (decide (name = s.(Payloads.Name))) as [->|Hn].
      * rewrite (bool_decide_true (_ ∈ _ :: _)) by left.
        destruct (rg_limiters r !! s.(Payloads.Name)) eqn:E; [by rewrite E|by rewrite lookup_insert_eq].
      * erewrite (bool_decide_ext (name ∈ _ :: _) (name ∈ Payloads.Name <$> l));
          [|rewrite elem_of_cons; tauto].
        destruct (rg_limiters r !! s.(Payloads.Name)); [done|by rewrite lookup_insert_ne].
Qed.

Lemma foldl_rates l : ∀ r name, NoDup l.*1 →
  (foldl override_rate r l).(rg_sinks) = r.(rg_sinks)
  ∧ (foldl override_rate r l).(rg_limiters) !! name =
      match (list_to_map l : gmap string SinkRate) !! name with
      | Some sr => Some (sr.(PerSecond), sr.(Burst))
      | None => r.(rg_limiters) !! name
      end.
Proof.
  induction l as [|[n sr] l IH]; intros r name Hnd; simpl; [by rewrite lookup_empty|].
  apply NoDup_cons in Hnd as [Hn Hnd]. destruct (IH (override_rate r (n, sr)) name Hnd) as [-> ->].
  split; [done|]. unfold override_rate, SetRate; simpl. destruct (decide (name = n)) as [->|Hne].
  - rewrite lookup_insert_eq, lookup_insert_eq.
    by rewrite (not_elem_of_list_to_map_1 (M := gmap string)).
  - by rewrite !lookup_insert_ne by done.
Qed.

(** The registry has exactly the known sinks, each limited to its configured rate or the default. *)
Lemma buildSinks_spec m cfg name :
  factories_after_init = Some m →
  Has name (buildSinks m cfg) = bool_decide (name ∈ KnownSinks)
  ∧ (buildSinks m cfg).(rg_limiters) !! name =
      match cfg.(SinkRates) !! name with
      | Some sr => Some (sr.(PerSecond), sr.(Burst))
      | None => if bool_decide (name ∈ KnownSinks) then Some (defaultSinkRate, defaultSinkBurst) else None
      end.
Proof.
  intros Hm. destruct BuildDefault_all as (m' & Hm' & Hb). assert (m' = m) as -> by congruence.
  assert (Hk : name ∈ Payloads.Name <$> BuildDefault m (sink_config cfg) ↔ name ∈ KnownSinks).
  { rewrite (Hb (sink_config cfg)), <- list_fmap_compose.
    change ((Payloads.Name ∘ (λ nf, nf.2 (sink_config cfg))) <$> registrations)
      with ["discord"; "googlechat"; "mattermost"; "opsgenie"; "pagerduty"; "slack"; "stdout"; "teams"; "telegram"; "webhook"].
    unfold KnownSinks. rewrite !elem_of_union, !elem_of_singleton, !elem_of_cons, elem_of_nil. tauto. }
  unfold buildSinks, Has.
  destruct (foldl_rates (range cfg.(SinkRates)) (foldl add_sink NewRegistry (BuildDefault m (sink_config cfg))) name)
    as [-> ->]; [apply range_NoDup_fst|].
  destruct (foldl_add_sinks (BuildDefault m (sink_config cfg)) NewRegistry name) as [Hs ->].
  rewrite range_to_map. unfold NewRegistry in *; simpl in *. rewrite !lookup_empty in *. split.
  - apply bool_decide_ext. rewrite <-Hk, <-not_eq_None_Some. naive_solver.
  - destruct (SinkRates cfg !! name); [done|]. erewrite bool_decide_ext; [done|exact Hk].
Qed.

Context `{RegexpLib} `{ZoneLib}.

(** C34: Under a configuration that validates, nothing is addressed to a sink that does not
    exist: every route the router hands out (the controller's default route included), every
    escalation and every rate override names only sinks that the registry built at startup
    holds, routes and escalations are never empty, and each sink's limiter lets something
    through. *)
Theorem routes_are_deliverable m c :
  factories_after_init = Some m → Validate c = None →
  let reg := buildSinks m c in
  (∀ t1 t2 t3 t4 a r sinks, r.(ro_routes) = c.(Routing) → r.(ro_defaultSinks) = defaultRoute →
     (Route t1 t2 t3 t4 a r).1 = RouteTo sinks → sinks ≠ [] ∧ ∀ name, name ∈ sinks → Has name reg = true)
  ∧ (∀ e, e ∈ c.(Escalations) → e.(Es_Sinks) ≠ [] ∧ ∀ name, name ∈ e.(Es_Sinks) → Has name reg = true)
  ∧ (∀ name sr, c.(SinkRates) !! name = Some sr → Has name reg = true)
  ∧ (∀ name, Has name reg = true → ∃ limit burst,
       reg.(rg_limiters) !! name = Some (limit, burst) ∧ float_le_zero limit = false ∧ 1 <= burst).
Proof.
  intros Hm Hok%Validate_correct. simpl.
  assert (Hhas : ∀ name, name ∈ KnownSinks ↔ Has name (buildSinks m c) = true).
  { intros name. destruct (buildSinks_spec m c name Hm) as [-> _]. by rewrite bool_decide_eq_true. }
  split_and!.
  - intros t1 t2 t3 t4 a r sinks Hr Hd E.
    destruct (Route_delivers t1 t2 t3 t4 a r c sinks Hok Hr) as [[Hne Hs] _]; [|done|].
    + rewrite Hd. split; [done|]. intros s Hs. unfold defaultRoute in Hs.
      apply list_elem_of_singleton in Hs as ->. by apply (bool_decide_eq_true_1 (_ ∈ KnownSinks)).
    + split; [done|]. intros name Hn. by apply Hhas, Hs.
  - intros e He. destruct (ok_escalations c Hok e He) as (_ & _ & Hne & Hs).
    split; [done|]. intros name Hn. by apply Hhas, Hs.
  - intros name sr Hsr. apply Hhas. by destruct (ok_rates c Hok name sr Hsr).
  - intros name Hn%Hhas. destruct (buildSinks_spec m c name Hm) as [_ ->].
    destruct (SinkRates c !! name) as [sr|] eqn:E.
    + destruct (ok_rates c Hok name sr E) as (_ & ? & ?). eauto.
    + rewrite bool_decide_true by done. by exists defaultSinkRate, defaultSinkBurst.
Qed.
End reach.

Definition first_router : Router := (runController_init (λ _, "") (λ _, 0) default_config).(c_router).

Lemma routes_are_deliverable_witness :
  ∃ m, @factories_after_init mini_time utc_slack_time canonical_range = Some m
    ∧ Has "slack" (@buildSinks canonical_range m default_config) = true.
Proof.
  destruct (@BuildDefault_all mini_time utc_slack_time canonical_range) as (m & Hm & _).
  exists m. split; [exact Hm|].
  destruct (@routes_are_deliverable mini_time utc_slack_time canonical_range mini_regexp mini_zone m default_config)
    as (Hr & _); [exact Hm|vm_compute; reflexivity|].
  destruct (Hr 0 0 0 0 (with_Resolved true zero_alert) first_router ["slack"]) as [_ Hs];
    [reflexivity|reflexivity|vm_compute; reflexivity|].
  apply Hs. left.
Defined.

(** ** What a validation predicts *)

Section config_flag.
Context (formal : gmap string flag_kind) (Hc : formal !! "config" = Some StringFlag).

Lemma config_spaced path : FlagSet_Parse formal ∅ ["--config"; path] = inr ({["config" := path]}, []).
Proof using Hc. simpl. rewrite Hc. reflexivity. Qed.

Lemma config_equals path : FlagSet_Parse formal ∅ ["--config=" +:+ path] = inr ({["config" := path]}, []).
Proof using Hc.
  cbn [FlagSet_Parse]. change (classify ("--config=" +:+ path)) with (Flag "config" (Some path)).
  cbn match. rewrite Hc. reflexivity.
Qed.
End config_flag.

Section predict.
Context `{YamlLib} (getenv : string → string) `{RegexpLib} `{MapRange} `{TimeLib} `{ZoneLib}.
Context (readFile : string → option string) (home : option string).

Abbreviation dispatchSubcommand := (dispatchSubcommand getenv readFile).
Abbreviation Run := (Run getenv readFile home).
Abbreviation LoadFile := (LoadFile getenv readFile).

(** The ways to name a path to the validate subcommand. *)
Definition names_path (args : list string) (path : string) : Prop :=
  args = ["--config"; path] ∨ args = ["--config=" +:+ path] ∨ (args = [path] ∧ classify path = NotAFlag)
  ∨ (args = [] ∧ getenv "ALERTKUBE_CONFIG" = path).

(** The shard identity refuses a configuration: no valid identity, or a state object that other
    shards would overwrite. *)
Definition refused_by_shard (c : Config) (h : halt) : Prop :=
  match FromEnv getenv with
  | inl (index, total) => h = FatalShard index total
  | inr s => Shard.Enabled (Some s) = true ∧ c.(Cf_Persistence).(Ps_Enabled) = true
      ∧ c.(Cf_Persistence).(ConfigMapName) ≠ DefaultStateConfigMap
      ∧ HasSuffix c.(Cf_Persistence).(ConfigMapName) ("-" +:+ Itoa s.(sh_index)) = false
      ∧ h = FatalScope (EShardName c.(Cf_Persistence).(ConfigMapName) s.(sh_index))
  end.

Lemma runValidate_path args path :
  path ≠ "" → names_path args path →
  runValidate getenv readFile args = match LoadFile path with inl e => Invalid path e | inr _ => Valid_ path end.
Proof.
  intros Hp%streq_false [->|[->|[[-> Hc]|[-> He]]]]; unfold runValidate.
  - rewrite config_spaced by done. unfold string_flag. rewrite lookup_singleton_eq. simpl. by rewrite !Hp.
  - rewrite config_equals by done. unfold string_flag. rewrite lookup_singleton_eq. simpl. by rewrite !Hp.
  - cbn [FlagSet_Parse]. rewrite Hc. unfold string_flag. rewrite lookup_empty. simpl. by rewrite !Hp.
  - cbn [FlagSet_Parse]. unfold string_flag, envConfigPath. rewrite lookup_empty, He. simpl. by rewrite Hp.
Qed.

(** [Run] with only that flag reaches the configuration at that path. *)
Lemma Run_config path :
  ∃ flags, Run ["--config"; path] =
    match bootConfig getenv readFile path with inl h => inl h | inr (c, s) => inr (MkBoot flags c s) end.
Proof.
  unfold Startup.Run, parseFlags, Startup.dispatchSubcommand. rewrite bool_decide_false by set_solver.
  rewrite config_spaced by reflexivity. eexists. cbn match. unfold string_flag at 2. rewrite lookup_singleton_eq.
  cbn [default configPath]. destruct (bootConfig _ _ _) as [h|[c s]]; reflexivity.
Qed.

(** C33: What the validate subcommand's exit code says about a start with the same
    configuration, however the path is given: it is 1 exactly when the controller would refuse
    the configuration as unreadable, unparsable or invalid, and 0 otherwise. After a 0 the
    controller can only refuse the configuration for its shard identity: an index outside its
    shard set, or a named state object that does not carry its shard's suffix; without sharding
    a 0 means that it starts, with the configuration that was validated. *)
Theorem validate_predicts_start args path :
  path ≠ "" → names_path args path →
  (dispatchSubcommand ("validate" :: args) = Some 1 ↔ ∃ e, Run ["--config"; path] = inl (FatalLoad e))
  ∧ (dispatchSubcommand ("validate" :: args) = Some 0 ↔ is_Some (match LoadFile path with inr c => Some c | inl _ => None end))
  ∧ (dispatchSubcommand ("validate" :: args) = Some 0 → ∀ h, Run ["--config"; path] = inl h →
       ∃ c, LoadFile path = inr c ∧ refused_by_shard c h)
  ∧ (dispatchSubcommand ("validate" :: args) = Some 0 → ∀ s, FromEnv getenv = inr s → Shard.Enabled (Some s) = false →
       ∃ flags c, LoadFile path = inr c ∧ Run ["--config"; path] = inr (MkBoot flags c s)).
Proof.
  intros Hp Hn. pose proof (runValidate_path args path Hp Hn) as Hv.
  assert (Hd : dispatchSubcommand ("validate" :: args) = Some (match LoadFile path with inl _ => 1 | inr _ => 0 end)).
  { unfold Startup.dispatchSubcommand. rewrite bool_decide_false by set_solver. change (streq "validate" "validate") with true.
    cbn match. rewrite Hv. by destruct (LoadFile path). }
  rewrite Hd. destruct (Run_config path) as [flags ->]. unfold bootConfig.
  destruct (LoadFile path) as [e|c] eqn:Hl.
  { split_and!; [split; [eauto|done]|split; [done|by intros [? ?]]|done..]. }
  split; [|split; [split; eauto|split]].
  - split; [done|]. intros [e E]. destruct (FromEnv getenv) as [[index total]|s]; [done|].
    by destruct (ApplyShardScope _ _ c).
  - intros _ h E. exists c. split; [done|]. unfold refused_by_shard.
    destruct (FromEnv getenv) as [[index total]|s]; [by injection E|].
    unfold ApplyShardScope in E. destruct (Shard.Enabled (Some s)), (Ps_Enabled (Cf_Persistence c)); simpl in E; try done.
    destruct (streq _ DefaultStateConfigMap) eqn:Es in E; [done|]. apply streq_false in Es.
    destruct (HasSuffix _ _) eqn:Hx in E; [done|]. injection E as <-. by split_and!.
  - intros _ s Hs He. exists flags, c. split; [done|]. rewrite Hs. unfold ApplyShardScope. by rewrite He.
Qed.
End predict.

Lemma validate_predicts_start_witness :
  @dispatchSubcommand one_document_yaml grace_env mini_regexp canonical_range mini_time mini_zone grace_read
    ["validate"; "c.yaml"] = Some 0
  ∧ ∃ flags c, @Run one_document_yaml grace_env mini_regexp canonical_range mini_time mini_zone grace_read None
      ["--config"; "c.yaml"] = inr (MkBoot flags c (MkSharder 0 1)).
Proof.
  assert (H0 : @dispatchSubcommand one_document_yaml grace_env mini_regexp canonical_range mini_time mini_zone grace_read
    ["validate"; "c.yaml"] = Some 0) by (vm_compute; reflexivity).
  split; [exact H0|].
  destruct (@validate_predicts_start one_document_yaml grace_env mini_regexp canonical_range mini_time mini_zone grace_read
    None ["c.yaml"] "c.yaml") as (_ & _ & _ & Hs); [discriminate|right; right; left; split; reflexivity|].
  destruct (Hs H0 (MkSharder 0 1)) as (flags & c & _ & E); [vm_compute; reflexivity|vm_compute; reflexivity|].
  exists flags, c. exact E.
Defined.

(** The exception is real: a configuration with a state object of its own validates, and a
    sharded replica refuses to start with it. *)
Definition named_state : Config :=
  MkConfig zero_config.(Config.Cluster) zero_config.(Cf_Filters) zero_config.(Cf_Behavior) zero_config.(Cf_Channels)
    zero_config.(Routing) zero_config.(SeverityOverrides) zero_config.(SinkRates) zero_config.(Inhibitions)
    zero_config.(Silences) zero_config.(Escalations) zero_config.(Cf_Receiver) zero_config.(MetricsAddr)
    zero_config.(APIAddr) zero_config.(Cf_Grouping) (MkPersistence true "our-state" "monitoring")
    zero_config.(Cf_AWS) zero_config.(Cf_Azure) zero_config.(Cf_GCP) zero_config.(Rules)
    zero_config.(Cf_Correlation) zero_config.(Maintenance).

Definition named_state_yaml : YamlLib := {|
  yaml_decode _ := Document named_state; yaml_more _ := false; yaml_unmarshal _ := Some [("persistence", YOther)];
|}.

Definition sharded_env (key : string) : string :=
  if streq key EnvTotal then "2" else if streq key EnvIndex then "1" else "".

Example valid_but_refused :
  @dispatchSubcommand named_state_yaml sharded_env mini_regexp canonical_range mini_time mini_zone (λ _, Some "doc")
    ["validate"; "c.yaml"] = Some 0
  ∧ @Run named_state_yaml sharded_env mini_regexp canonical_range mini_time mini_zone (λ _, Some "doc") None
    ["--config"; "c.yaml"] = inl (FatalScope (EShardName "our-state" 1)).
Proof. split; vm_compute; reflexivity. Qed.
